(* ===== verification/_CoqProject ===== *)
-Q . S2P
Prelude.v
GoStrings.v
GoNet.v
Pipe.v
UdpIdle.v
Tuning.v
BondHello.v
Metrics.v
BondedConn.v
BondedRaces.v
GoIP.v
GoFloat.v
Leases.v
ConnLimiter.v
BackendGate.v
BondManager.v
SessionAuth.v
DtlsAuth.v
Identity.v
Diagnostics.v
Supervisor.v
SuperviseLoop.v
ClientPool.v
ClientCreds.v
MetricDiff.v
Baseline.v
BenchRun.v
ServeSmux.v
ServerMain.v
UdpRelay.v
ClientSessions.v
GoWeb.v
BenchCLI.v
ClientUdp.v
ClientMain.v
Slider.v
Captcha.v
VkAuth.v
CaptchaProxy.v
BondMode.v
Names.v
