(* ===== verification/Prelude.v ===== *)
(** * vk-turn-proxy: a verification library

    The program tunnels TCP and UDP traffic through TURN relays.  A client and a
    server talk DTLS over the relay; on top of it they run either a plain UDP
    relay or, for VLESS, KCP sessions with smux streams.  Several relay paths
    may be bonded into one packet connection that carries one KCP session.  A
    benchmark harness and a loopback diagnostics server complete it.  This
    library models the program's own logic and proves what makes it correct;
    the sources are under src/.

    ** How the parts interact

    The server's accept loop takes a lease from the connection limiter for every
    DTLS connection, authenticates it with a session token and, in bonding mode,
    hands it to the bond manager, which reads the hello record and adds the
    path to the bond group of its identifier.  A group owns one bonded packet
    connection; the KCP window follows the number of its paths.  Each smux
    stream needs a lease of the backend gate.  The client keeps credentials per
    group of streams, pins the server's certificate, and has a supervisor that
    builds one bond generation after another, chooses the protocol version and
    publishes the current session to the local listener.  The credentials come
    from a chain of VK requests, in which a captcha may have to be solved, by the
    program or by the user in a browser behind a local proxy.  All of them count in
    one metrics registry, which diagnostics serves and the benchmark compares.

    ** Files and what they model

    Foundations: this file (record update, byte strings, errors, the error
    monad, machine integers, lists, sorting), [GoStrings] (strings, strconv,
    hex), [GoIP] (net.IP, netip, SplitHostPort, JoinHostPort), [GoFloat] (float64
    as IEEE 754 binary64), [GoNet] (the class [NetConn] for net.Conn, with a
    datagram instance; the class [ConnCloses] for connections that count how
    often they were closed), [GoWeb] (JSON values, forms, URLs, a monad for code
    that sends HTTP requests; also client/http_body.go and client/safe_errors.go).

    - [Tuning]: tcputil/tcputil.go; flags and environment, validateTuning, the
      KCP window and MTU arithmetic, what is set on a new KCP session.
    - [BondHello]: tcputil/bonded_packet_conn.go, the hello records.
    - [BondedConn]: the same file, BondedPacketConn.  The state is a record with
      a heap of paths; each operation is composed of its critical sections.
    - [BondedRaces]: a step relation in which goroutines interleave the critical
      sections of [BondedConn], timers fire and the network changes.
    - [Metrics]: metrics/metrics.go; the registry and its paths, snapshots and
      the lock-free maximum under interleavings.
    - [Leases]: the interface (operations and laws) between a limiter and its
      user, and the server's accept loop verified against it.
    - [ConnLimiter], [BackendGate]: server/connection_limiter.go and
      server/backend_limiter.go, both instances of that interface.
    - [BondManager]: server/main.go, vlessBondGroup and vlessBondManager.
    - [ServeSmux]: server/main.go, handleVLESSConnection, vlessBondGroup.run and
      serveSmuxSession: all goroutines and deferred calls of a session as a step
      relation.
    - [ServerMain]: server/main.go, main: the checks before listening and the
      goroutine of an accepted connection.
    - [UdpRelay]: handleUDPConnection of the server and bridgeTURNPackets of the
      client, one step relation for both.
    - [SessionAuth]: sessionauth/sessionauth.go.  [DtlsAuth]: dtlsauth/auth.go.
    - [Identity]: server/dtls_identity.go; the certificate and key of the server.
    - [Pipe]: tcputil/pipe.go; the four goroutines of a pipe as a step relation.
    - [UdpIdle]: server/udp_idle.go; the watchdog of a UDP session.
    - [Diagnostics]: diagnostics/server.go and flags.go.
    - [Supervisor], [SuperviseLoop]: client/vless_bond_supervisor.go and the
      path maintenance of client/main.go.
    - [ClientPool], [ClientCreds]: client/main.go (session pool, flags, DNS list,
      credential cache) and client/local_peer.go.
    - [ClientSessions]: client/main.go, the set-up and tear-down of TURN, DTLS, KCP
      and smux, the retry loops and runVLESSMode with its maintainers.
    - [BondMode]: runSupervisedVLESSBondMode: supervisor, accept loop and
      connections as a step relation on the state of [SuperviseLoop].
    - [ClientMain]: client/main.go, main: flags to configuration.
    - [ClientUdp]: client/main.go, UDP mode: the shared packet buffers, the queue
      and oneDtlsConnection of every stream as a step relation.
    - [Slider]: the picture puzzle of client/slider_captcha.go: steps, tile
      mappings, rendering, scores and the ranking.
    - [Captcha]: the rest of client/slider_captcha.go, and solvePoW,
      callCaptchaNotRobot and solveVkCaptcha of client/main.go.
    - [VkAuth]: client/main.go, ParseVkCaptchaError and getTokenChain.  Its class
      [CaptchaSolver] states what the chain needs of a solver; [Captcha] gives the
      instance.
    - [CaptchaProxy]: client/manual_captcha.go: the local server, its handlers and
      rewriting, and the redaction of what is logged.
    - [Names]: client/namegen.go.
    - [MetricDiff], [Baseline], [BenchRun], [BenchCLI]: baseline/ (metrics.go,
      baseline.go, iperf.go, runner.go, command_iperf.go, http_metrics.go) and
      cmd/vk-turn-bench.

    ** What the theorems show

    - Bonding: under every interleaving the connection of a path is closed once,
      counted on the connection, its cleanup run and its channel closed as often,
      and closing the bond does so for all of them; a write tries the paths in
      rotated order and drops exactly those that failed for good;
      packets are delivered whole; the parser accepts exactly the valid hellos
      and every hello crosses a connection unchanged; a group never exceeds its
      negotiated paths, and the last window set on its session is the one for
      the negotiated paths or, with the old protocol, for the most it has had.
    - Limits: both limiters decide as an abstract specification on the set of
      live leases does, never exceed their maxima, also when the atomic
      operations interleave, and their gauges are exact.
    - Authentication: the token exchange succeeds exactly for equal tokens, the
      token served is the one in the file, no combination of flags turns
      certificate checks off silently, and the server's identity, once created,
      survives restarts.
    - Serving: an accepted connection is closed and its lease given back once, or
      a new path of a bond carries this connection and lease; nobody is served
      before authentication; a session leaves no stream, lease, backend
      connection or gauge behind, and comes to an end by itself once it is dead
      or cancelled, although a silent pipe ends only when it is cancelled.
    - Relaying: a pipe returns only when its goroutines are done and leaves no
      expired deadline behind, keeps half-closed connections alive, and cannot
      hang by itself; a UDP session is ended when and only when it is idle; the
      relays keep packets in order and leave no goroutine or deadline behind.
    - Metrics and diagnostics: the counters of a path and of the process are the
      tally of what was reported, totals are the sums over paths, snapshots do
      not depend on map order, and nothing is served without the token or
      outside loopback.
    - Client: a downgrade to the old protocol is always justified, the
      supervisor never leaks or publishes a dead generation, waiters are never
      lost, opening a stream returns by its deadline plus the time of one timer
      and one close that are late, cached credentials are fresh, a pinned peer
      is not displaced, and exactly the fatal errors stop the application.  A session that cannot be set up
      closes what it opened; VLESS mode with and without bonding, and UDP mode,
      close everything exactly once; in UDP mode no packet is invented, altered or
      lost silently, and no buffer has two owners.
    - Credentials and captchas: the chain of requests ends whatever the server
      answers, its credentials are the server's, and an unsolved captcha stops all
      requests for a minute.  A solved captcha was granted by the server to a check
      that carried the session token and the proof of work.  The proof of work is the least nonce; rendering a puzzle equals its
      specification, the ranking is complete and sorted.
    - The local captcha proxy forwards only over HTTPS to the VK domains and their
      subdomains, for loopback clients, without credentials for foreign origins
      (the domains and the loopback addresses are described independently of the
      code's checks); redirects of the page stay local, those of the generic
      handler are passed on; the challenge is neither printed nor put on a
      command line; logs are redacted.
    - Benchmark: the difference of two snapshots is exact, summaries are right
      and independent of map order, every record of a report is backed by its
      artifacts whatever the environment does, a run in which every call
      succeeds completes, the estimate of a dry run is the time of the run, and
      metrics are fetched from loopback only, whatever proxy is configured and
      whatever redirect is answered.
    - Some theorems and lemmas state behaviour that looks unintended: a write
      counter conversion that panics on 32-bit targets (exactly when is stated), a stale timer callback
      that shortens a grace period, a surplus path that is acknowledged before it
      is refused, a cancelled pipe that spins and may return no error, puzzles and
      proofs of work whose size is not bounded ([huge_grid_panics],
      [huge_difficulty_panics]), a solved captcha lost to a slow shutdown
      ([solved_captcha_lost]) and a packed answer forwarded unpacked with the
      packed label ([gzip_label_kept]).

    ** Modelling choices and bounds

    A Go integer is a [Z] with its wrap-around written out ([wrap_int],
    [wrap_uint]); [int] is 64 bits wide unless the width is an argument.
    Pointers that are shared are locations in a list.  Maps are [gmap]s; where
    the code ranges over a map, the order is an argument and the theorems hold
    for all orders.  What a library, the network, the clock, the scheduler or
    the file system decides is an argument or a nondeterministic step.  Texts
    of errors are kept as far as the program or a theorem looks at them.

    HTTP clients and servers answer depending on all requests sent before, so a
    theorem about them holds for every behaviour of the other side.

    Times are integers, in nanoseconds unless said otherwise.  Timers may fire late: by how much is an argument
    of the operation that waits, and so is how long a blocking [Close] takes
    where a bound on the time is claimed.

    Recursion is structural except in six places.  The decimal printer runs
    on fuel one more than the binary logarithm, and its lemma shows the digits
    are all there.  The IPv6 parser's fuel is the number of groups an address
    can have.  The loop that opens a stream is bounded by its deadline;
    the theorem is that it returns.  The loop of getTokenChain has fuel four, one
    more than the ways to solve a captcha, and its theorem shows the fuel is never
    used up.  The redirects of an HTTP client have fuel ten, the limit of the default
    policy; the metrics client follows none.  The supervisor's loop and its waits are
    driven by lists of events, and the theorems hold for every list.

    ** Not modelled

    What only forwards to a library: directNet, relayPacketConn, connectedUDPConn,
    DtlsPacketConn, request headers and browser profiles, signal handlers, log
    lines.  Calls of libraries (pion, kcp-go, smux, net/http, encoding/json,
    regexp, image decoding, os/exec) are arguments or steps of the environment.
    The JavaScript and the markup inside client/manual_captcha.go are texts that
    the model takes as arguments. *)

From Stdlib Require Export ZArith Lia.
From Stdlib Require Export Ascii.
From stdpp Require Export base list gmap strings numbers sorting.

(** ** Scopes *)

Declare Scope go_scope.
Delimit Scope go_scope with go.
Open Scope Z_scope.

(** ** Record update

    [Eta R] names the eta-expansion of a record; from it [field_set]
    instances are computed by abstracting one projection, which gives the
    notation [r <| field := v |>] for Go's [r.field = v]. *)

Class Eta (R : Type) := eta_expand : R → R.
Class FieldSet {R T : Type} (proj : R → T) := field_update : (T → T) → R → R.

Ltac build_field_set :=
  lazymatch goal with
  | |- @FieldSet ?R ?T ?proj =>
      let e := constr:(@eta_expand R _) in
      let e := eval cbv [eta_expand] in e in
      let e := eval hnf in e in
      match eval pattern proj in e with
      | ?ctx _ => exact (fun f r => ctx (fun x => f (proj x)) r)
      end
  end.

#[global] Arguments field_update {R T proj FieldSet} f r /.

#[export] Hint Extern 1 (FieldSet _) => build_field_set : typeclass_instances.

Notation "r <| proj ::= f |>" := (field_update (proj := proj) f r)
  (at level 1, left associativity, f at level 99) : go_scope.
Notation "r <| proj := v |>" := (field_update (proj := proj) (fun _ => v) r)
  (at level 1, left associativity, v at level 99) : go_scope.
Open Scope go_scope.

(** ** Byte strings

    A Go string or byte slice is a list of bytes.  [str] turns a literal into
    one; [code] is the numeric value of a byte. *)

Abbreviation bytes := (list ascii).
Definition str (s : string) : bytes := String.list_ascii_of_string s.
Definition code (c : ascii) : Z := Z.of_N (N_of_ascii c).
Definition chr (z : Z) : ascii := ascii_of_N (Z.to_N z).

#[export] Instance bytes_eq_dec : EqDecision bytes := _.

(** ** Errors

    A Go error is observed in this program through its text ([Error()]),
    through [errors.Is] against a few sentinel values, and through
    [errors.As] to a [net.Error], whose [Timeout()] is then asked. *)

Inductive sentinel :=
  | ErrClosed | ErrClosedPipe | EOF | ErrShortWrite
  | ErrRejected | ErrBondHelloRejected | errVLESSBondV2Unavailable
  | ErrNotExist | ErrExist | Canceled | DeadlineExceeded | ErrServerClosed.

#[export] Instance sentinel_eq_dec : EqDecision sentinel.
Proof. solve_decision. Defined.

Record goerror := GoError {
  err_text : bytes;
  err_chain : list sentinel;
  err_timeout : option bool;
}.

#[export] Instance goerror_eq_dec : EqDecision goerror.
Proof. solve_decision. Defined.

Definition errors_is (s : sentinel) (e : goerror) : bool :=
  bool_decide (s ∈ err_chain e).

(** [errors.New] and [fmt.Errorf] without [%w]. *)
Definition errorf (text : bytes) : goerror := GoError text [] None.

(** [fmt.Errorf("prefix%w", e)]: the text grows, the chain is kept. *)
Definition errorf_w (prefix : bytes) (e : goerror) : goerror :=
  GoError (prefix ++ err_text e) (err_chain e) (err_timeout e).

(** [errors.Join]: [None] when there is nothing to join, otherwise the texts
    separated by newlines and the union of the chains. *)
Fixpoint errors_join (es : list goerror) : option goerror :=
  match es with
  | [] => None
  | e :: es' =>
      match errors_join es' with
      | None => Some e
      | Some r => Some (GoError (err_text e ++ [chr 10] ++ err_text r)
                          (err_chain e ++ err_chain r)
                          (match err_timeout e with Some b => Some b | None => err_timeout r end))
      end
  end.

(** ** The error monad *)

Inductive result (A : Type) :=
  | Ok (a : A)
  | Err (e : goerror).
Arguments Ok {A} a.
Arguments Err {A} e.

Definition is_ok {A} (r : result A) : bool :=
  match r with Ok _ => true | Err _ => false end.

Definition result_bind {A B} (r : result A) (k : A → result B) : result B :=
  match r with Ok a => k a | Err e => Err e end.

(** [if err := r; err != nil { return wrap(err) }] *)
Definition map_err {A} (f : goerror → goerror) (r : result A) : result A :=
  match r with Ok a => Ok a | Err e => Err (f e) end.

Notation "'let?' x := r 'in' k" := (result_bind r (fun x => k))
  (at level 10, x name, r at level 100, k at level 200) : go_scope.
Notation "'let?' ' p := r 'in' k" := (result_bind r (fun y => match y with p => k end))
  (at level 10, p pattern, r at level 100, k at level 200) : go_scope.

Lemma result_bind_ok {A B} (r : result A) (k : A → result B) b :
  result_bind r k = Ok b ↔ ∃ a, r = Ok a ∧ k a = Ok b.
Proof. destruct r; simpl; naive_solver. Qed.

Lemma map_err_ok {A} (f : goerror → goerror) (r : result A) a :
  map_err f r = Ok a ↔ r = Ok a.
Proof. destruct r; simpl; naive_solver. Qed.

(** ** Run-time panics

    An index out of range or a double [close] ends the goroutine; the model
    keeps that as a value. *)

Inductive outcome (A : Type) :=
  | Done (a : A)
  | Panics.
Arguments Done {A} a.
Arguments Panics {A}.

(** ** Machine integers

    [int] is taken 64 bits wide here.  The release workflow also builds 32-bit
    targets (386, arm, mips); the one computation of the program whose outcome
    depends on the width takes the width as an argument ([wrap_int_w]). *)

Definition two63 : Z := 9223372036854775808.
Definition two64 : Z := 18446744073709551616.
Definition MaxInt32 : Z := 2147483647.

(** Reinterpretation of an arbitrary integer as a two's complement [int]. *)
Definition wrap_int (z : Z) : Z := (z + two63) mod two64 - two63.
Definition wrap_uint (z : Z) : Z := z mod two64.

(** The conversion [int(x)] on a target whose [int] has [w] bits. *)
Definition wrap_int_w (w z : Z) : Z := (z + 2 ^ (w - 1)) mod 2 ^ w - 2 ^ (w - 1).

Definition in_int (z : Z) : Prop := - two63 ≤ z < two63.
Definition in_uint (z : Z) : Prop := 0 ≤ z < two64.

#[export] Instance in_int_dec z : Decision (in_int z).
Proof. unfold in_int. apply _. Defined.
#[export] Instance in_uint_dec z : Decision (in_uint z).
Proof. unfold in_uint. apply _. Defined.

Lemma wrap_int_id z : in_int z → wrap_int z = z.
Proof. unfold in_int, wrap_int, two63, two64. intros. rewrite Z.mod_small; lia. Qed.

Lemma wrap_int_range z : in_int (wrap_int z).
Proof.
  unfold in_int, wrap_int. pose proof (Z.mod_pos_bound (z + two63) two64 eq_refl).
  unfold two63, two64 in *. lia.
Qed.

Lemma wrap_int_w_64 z : wrap_int_w 64 z = wrap_int z.
Proof. reflexivity. Qed.

Lemma wrap_int_w_id w z : 0 < w → 0 ≤ z < 2 ^ (w - 1) → wrap_int_w w z = z.
Proof.
  intros Hw Hz. unfold wrap_int_w.
  assert (2 ^ w = 2 * 2 ^ (w - 1)) as -> by (rewrite <-Z.pow_succ_r by lia; f_equal; lia).
  rewrite Z.mod_small by lia. lia.
Qed.

Lemma wrap_uint_id z : in_uint z → wrap_uint z = z.
Proof. unfold in_uint, wrap_uint. intros. by rewrite Z.mod_small. Qed.

Lemma wrap_uint_range z : in_uint (wrap_uint z).
Proof. unfold in_uint, wrap_uint. by apply Z.mod_pos_bound. Qed.

(** ** Durations, in nanoseconds *)

Definition Millisecond : Z := 1000000.
Definition Second : Z := 1000000000.
Definition Minute : Z := 60 * Second.

(** ** Tactics *)

(** Split every [if]/[match] of the goal, with simplified equations. *)
Ltac go_cases := repeat (case_match; simplify_eq/=).

(** Turn the booleans the code tests into propositions. *)
Ltac reflect_bools :=
  repeat match goal with
  | H : _ && _ = true |- _ => apply andb_true_iff in H as [??]
  | H : _ || _ = false |- _ => apply orb_false_iff in H as [??]
  | H : negb _ = true |- _ => apply negb_true_iff in H
  | H : negb _ = false |- _ => apply negb_false_iff in H
  | H : (_ <? _) = true |- _ => apply Z.ltb_lt in H
  | H : (_ <? _) = false |- _ => apply Z.ltb_ge in H
  | H : (_ <=? _) = true |- _ => apply Z.leb_le in H
  | H : (_ <=? _) = false |- _ => apply Z.leb_gt in H
  | H : (_ =? _) = true |- _ => apply Z.eqb_eq in H
  | H : (_ =? _) = false |- _ => apply Z.eqb_neq in H
  | H : bool_decide _ = true |- _ => apply bool_decide_eq_true in H
  | H : bool_decide _ = false |- _ => apply bool_decide_eq_false in H
  end.

(** ** Lists *)

(** The removal loop of [removePath] and [sessionPool.remove]:
    [for i, y := range l { if y == x { l = append(l[:i], l[i+1:]...); break } }]. *)
Fixpoint remove_first `{EqDecision A} (x : A) (l : list A) : list A :=
  match l with
  | [] => []
  | y :: l' => if decide (y = x) then l' else y :: remove_first x l'
  end.

Lemma filter_all {A} (P : A → Prop) `{∀ x, Decision (P x)} (l : list A) :
  (∀ x, x ∈ l → P x) → filter P l = l.
Proof.
  induction l as [|x l IH]; intros HP; [done|]. rewrite filter_cons_True by (apply HP; left).
  by rewrite IH by (intros y Hy; apply HP; by right).
Qed.

Section remove_first.
Context `{EqDecision A}.
Implicit Types (x y : A) (l : list A).

Lemma remove_first_not_in x l : x ∉ l → remove_first x l = l.
Proof.
  induction l as [|y l IH]; [done|]. intros [Hy Hl]%not_elem_of_cons.
  simpl. rewrite decide_False by done. by rewrite IH.
Qed.

Lemma remove_first_permutation x l : x ∈ l → l ≡ₚ x :: remove_first x l.
Proof.
  induction l as [|y l IH]; [by intros ?%not_elem_of_nil|].
  simpl. case_decide as Hyx; [by subst|].
  intros [->|Hin]%elem_of_cons; [done|].
  rewrite (IH Hin) at 1. apply Permutation_swap.
Qed.

Lemma length_remove_first x l :
  x ∈ l → length l = S (length (remove_first x l)).
Proof. intros Hin. by rewrite (remove_first_permutation x l Hin) at 1. Qed.

Lemma NoDup_remove_first x l :
  NoDup l → NoDup (remove_first x l) ∧ x ∉ remove_first x l.
Proof.
  intros Hnd. destruct (decide (x ∈ l)) as [Hin|Hnin].
  - rewrite (remove_first_permutation x l Hin) in Hnd.
    apply NoDup_cons in Hnd. tauto.
  - by rewrite remove_first_not_in.
Qed.

Lemma elem_of_remove_first x y l :
  NoDup l → y ∈ remove_first x l ↔ y ∈ l ∧ y ≠ x.
Proof.
  intros Hnd. destruct (decide (x ∈ l)) as [Hin|Hnin].
  - pose proof (proj2 (NoDup_remove_first x l Hnd)) as Hx.
    rewrite (remove_first_permutation x l Hin) at 2. set_solver.
  - rewrite remove_first_not_in by done. set_solver.
Qed.

Lemma remove_first_filter x l : NoDup l → remove_first x l = filter (λ y, y ≠ x) l.
Proof.
  induction 1 as [|y l Hy Hnd IH]; [done|]. rewrite filter_cons. simpl.
  case_decide as Hyx; [subst|by rewrite decide_True, IH by done].
  rewrite decide_False by naive_solver. symmetry. apply filter_all.
  intros z Hz ->. done.
Qed.

Lemma remove_first_sublist x l : sublist (remove_first x l) l.
Proof.
  induction l as [|y l IH]; simpl; [constructor|].
  case_decide; [by apply sublist_cons | by apply sublist_skip].
Qed.
End remove_first.

Lemma forallb_Forall {A} (f : A → bool) l : forallb f l = true ↔ Forall (λ x, f x = true) l.
Proof.
  rewrite forallb_forall, Forall_forall. by setoid_rewrite list_elem_of_In.
Qed.

Lemma existsb_Exists {A} (f : A → bool) l : existsb f l = true ↔ Exists (λ x, f x = true) l.
Proof.
  rewrite existsb_exists, Exists_exists. by setoid_rewrite list_elem_of_In.
Qed.

Lemma existsb_false_Forall {A} (f : A → bool) l :
  existsb f l = false ↔ Forall (λ x, f x = false) l.
Proof.
  induction l as [|x l IH]; [by split; constructor|]. simpl.
  by rewrite orb_false_iff, IH, Forall_cons.
Qed.

(** The first occurrence of a separator splits a list in one way. *)
Lemma separator_inj {A} (c : A) l1 l2 r1 r2 : c ∉ l1 → c ∉ l2 → l1 ++ c :: r1 = l2 ++ c :: r2 → l1 = l2 ∧ r1 = r2.
Proof.
  revert l2. induction l1 as [|x l1 IH]; intros [|y l2] H1 H2 E; simplify_eq/=; [done|set_solver|set_solver|].
  destruct (IH l2) as [-> ->]; [set_solver|set_solver|done|done].
Qed.

(** Number of elements that satisfy a test. *)
Fixpoint count {A} (f : A → bool) (l : list A) : nat :=
  match l with [] => 0 | x :: l' => (if f x then 1 else 0) + count f l' end.

Lemma count_app {A} (f : A → bool) l k : count f (l ++ k) = (count f l + count f k)%nat.
Proof. induction l as [|x l IH]; simpl; [done|]. rewrite IH. lia. Qed.

Lemma count_zero {A} (f : A → bool) l : count f l = 0%nat ↔ Forall (λ x, f x = false) l.
Proof.
  induction l as [|x l IH]; simpl; [by split; constructor|].
  rewrite Forall_cons, <-IH. destruct (f x); split; intros; destruct_and?; try done; lia.
Qed.

Lemma count_all {A} (f : A → bool) l : Forall (λ x, f x = true) l → count f l = length l.
Proof. induction 1 as [|x l Hx Hl IH]; simpl; [done|]. rewrite Hx, IH. lia. Qed.

Lemma count_perm {A} (f : A → bool) l k : l ≡ₚ k → count f l = count f k.
Proof. induction 1; simpl; lia. Qed.

Lemma count_insert {A} (f : A → bool) l p x y : l !! p = Some x →
  (count f (<[p := y]> l) + (if f x then 1 else 0) = count f l + (if f y then 1 else 0))%nat.
Proof.
  intros Hp. rewrite insert_take_drop by by eapply lookup_lt_Some.
  rewrite <-(take_drop_middle l p x Hp) at 3. rewrite !count_app. simpl. lia.
Qed.

Lemma count_le_length {A} (f : A → bool) l : (count f l ≤ length l)%nat.
Proof. induction l as [|x l IH]; simpl; [lia|]. destruct (f x); lia. Qed.

Lemma count_mono {A} (f g : A → bool) l :
  (∀ x, f x = true → g x = true) → (count f l ≤ count g l)%nat.
Proof.
  intros Hfg. induction l as [|x l IH]; simpl; [lia|]. specialize (Hfg x).
  destruct (f x), (g x); lia || by discriminate Hfg.
Qed.

Lemma count_elem_of `{EqDecision A} (x : A) l :
  x ∈ l → (0 < count (λ y, bool_decide (y = x)) l)%nat.
Proof.
  intros Hx. destruct (count _ l) eqn:E; [|lia]. apply count_zero in E.
  rewrite Forall_forall in E. specialize (E x Hx). simpl in E.
  by rewrite bool_decide_eq_true_2 in E.
Qed.

Lemma count_remove_first `{EqDecision A} (x y : A) l : x ∈ l →
  count (λ z, bool_decide (z = y)) l =
  (count (λ z, bool_decide (z = y)) (remove_first x l) + if decide (x = y) then 1 else 0)%nat.
Proof.
  induction l as [|z l IH]; [by intros ?%not_elem_of_nil|]. intros Hin. simpl.
  destruct (decide (z = x)) as [->|Hne].
  - repeat case_bool_decide; repeat case_decide; try done; lia.
  - apply elem_of_cons in Hin as [->|Hin]; [done|]. simpl. rewrite (IH Hin). lia.
Qed.

(** ** Hint databases *)

Create HintDb go_arith.
#[export] Hint Resolve wrap_int_range wrap_uint_range : go_arith.
Create HintDb go_list.
#[export] Hint Resolve remove_first_sublist : go_list.

Lemma StronglySorted_weaken {A} (R R' : A → A → Prop) l :
  (∀ x y, R x y → R' x y) → StronglySorted R l → StronglySorted R' l.
Proof. intros HR. induction 1; constructor; [done|]. eapply Forall_impl; eauto. Qed.

Lemma StronglySorted_lookup {A} (R : A → A → Prop) l i j x y :
  StronglySorted R l → l !! i = Some x → l !! j = Some y → (i < j)%nat → R x y.
Proof.
  intros Hs. revert i j. induction Hs as [|z l Hs IH Hz]; intros [|i] [|j] Hi Hj Hij; try done; try lia; cbn in *.
  - injection Hi as ->. rewrite Forall_forall in Hz. eapply Hz, list_elem_of_lookup_2, Hj.
  - apply (IH i j); [done|done|lia].
Qed.

(** Two sorted arrangements of the same elements are equal, when the order is
    antisymmetric on them. *)
Lemma sorted_perm_unique {A} (R : A → A → Prop) (P : A → Prop) l k :
  (∀ x y, P x → P y → R x y → R y x → x = y) → Forall P l →
  StronglySorted R l → StronglySorted R k → l ≡ₚ k → l = k.
Proof.
  intros Hanti HP Hl. revert k. induction Hl as [|x l Hl IH Hx]; intros k Hk Hp.
  { by apply Permutation_nil_l in Hp. }
  destruct Hk as [|y k Hk Hy]; [by symmetry in Hp; apply Permutation_nil_cons in Hp|].
  assert (Forall P (y :: k)) as HPk by (by rewrite <-Hp).
  apply Forall_cons in HP as [Px Pl]. apply Forall_cons in HPk as [Py Pk].
  assert (x = y) as ->.
  { assert (x ∈ y :: k) as Hin by (rewrite <-Hp; by left).
    assert (y ∈ x :: l) as Hin' by (rewrite Hp; by left).
    apply elem_of_cons in Hin as [|Hin]; [done|]. apply elem_of_cons in Hin' as [|Hin']; [done|].
    rewrite Forall_forall in Hx, Hy. auto. }
  f_equal. apply IH; [done|done|]. by apply Permutation_cons_inv in Hp.
Qed.

(** ** Stable sorting by insertion

    [leb] is only asked to order the elements satisfying [P]. *)

Section isort.
Context {A : Type} (leb : A → A → bool).

Fixpoint insert_by (x : A) (l : list A) : list A :=
  match l with
  | [] => [x]
  | y :: l' => if leb x y then x :: l else y :: insert_by x l'
  end.

Definition isort (l : list A) : list A := foldr insert_by [] l.

Lemma insert_by_perm x l : insert_by x l ≡ₚ x :: l.
Proof. induction l as [|y l IH]; cbn; [done|]. case_match; [done|]. rewrite IH. constructor. Qed.

Lemma isort_perm l : isort l ≡ₚ l.
Proof. induction l as [|x l IH]; cbn; [done|]. by rewrite insert_by_perm, IH. Qed.

(** Elements related both ways keep their order. *)
Lemma isort_ties (Q : A → Prop) `{∀ x, Decision (Q x)} l :
  (∀ x y, Q x → Q y → leb x y = true) → filter Q (isort l) = filter Q l.
Proof.
  intros HQ. assert (∀ x k, filter Q (insert_by x k) = filter Q (x :: k)) as Hins.
  { intros x k. induction k as [|y k IH]; cbn [insert_by]; [done|].
    destruct (leb x y) eqn:E; [done|]. rewrite (filter_cons _ y), IH, !filter_cons.
    repeat case_decide; [|done..]. by rewrite HQ in E. }
  induction l as [|x l IH]; [done|]. change (isort (x :: l)) with (insert_by x (isort l)).
  rewrite Hins, !filter_cons. by rewrite IH.
Qed.

Context (P : A → Prop) (leb_total : ∀ x y, P x → P y → leb x y = true ∨ leb y x = true)
  (leb_trans : ∀ x y z, P x → P y → P z → leb x y = true → leb y z = true → leb x z = true).

Lemma isort_sorted l : Forall P l → StronglySorted (λ x y, leb x y = true) (isort l).
Proof.
  assert (∀ x k, P x → Forall P k → StronglySorted (λ x y, leb x y = true) k →
    StronglySorted (λ x y, leb x y = true) (insert_by x k)) as Hins.
  { intros x k Hx Hk Hs. induction Hs as [|y k Hs IH Hy]; cbn; [by repeat constructor|].
    apply Forall_cons in Hk as [Py Hk]. destruct (leb x y) eqn:E.
    - constructor; [by constructor|]. constructor; [done|].
      rewrite Forall_forall in Hy, Hk |- *. intros z Hz. eauto.
    - constructor; [by auto|]. rewrite insert_by_perm. constructor; [|done].
      destruct (leb_total x y); [done..|by rewrite E in *|done]. }
  induction 1 as [|x l Hx Hl IH]; cbn; [constructor|]. apply Hins; [done| |done].
  by change (Forall P (isort l)); rewrite isort_perm.
Qed.

End isort.
