(* ===== verification/GoStrings.v ===== *)
(** * The parts of Go's [strings], [strconv] and [encoding/hex] the program uses

    Byte strings are lists of bytes ([Prelude.bytes]).  White space is
    [unicode.IsSpace], recognised on its UTF-8 encodings: every such encoding
    starts with an ASCII byte or with a UTF-8 lead byte, and a decoder never
    swallows a lead byte inside another rune, so matching the encodings byte by
    byte gives what Go's rune loop gives, on invalid UTF-8 too. *)

From S2P Require Import Prelude.

(** ** White space *)

Definition of_codes (l : list Z) : bytes := chr <$> l.

Definition space_encodings : list bytes :=
  of_codes <$>
    [[9]; [10]; [11]; [12]; [13]; [32];
     [194; 133]; [194; 160]; [225; 154; 128];
     [226; 128; 128]; [226; 128; 129]; [226; 128; 130]; [226; 128; 131];
     [226; 128; 132]; [226; 128; 133]; [226; 128; 134]; [226; 128; 135];
     [226; 128; 136]; [226; 128; 137]; [226; 128; 138];
     [226; 128; 168]; [226; 128; 169]; [226; 128; 175]; [226; 129; 159];
     [227; 128; 128]].

Fixpoint has_prefix (p s : bytes) : bool :=
  match p, s with
  | [], _ => true
  | _, [] => false
  | a :: p', b :: s' => Ascii.eqb a b && has_prefix p' s'
  end.

(** Width of the white-space rune at the head of [s]; 0 when there is none. *)
Fixpoint prefix_width (encs : list bytes) (s : bytes) : nat :=
  match encs with
  | [] => 0
  | e :: encs' => if has_prefix e s then length e else prefix_width encs' s
  end.

(** Drop leading occurrences of [encs]; [skip] counts the bytes of the current
    occurrence still to be dropped. *)
Fixpoint strip_go (encs : list bytes) (skip : nat) (s : bytes) : bytes :=
  match s with
  | [] => []
  | _ :: s' =>
      match skip with
      | S k => strip_go encs k s'
      | O => match prefix_width encs s with
             | O => s
             | S k => strip_go encs k s'
             end
      end
  end.

Definition trim_left (s : bytes) : bytes := strip_go space_encodings 0 s.
Definition trim_right (s : bytes) : bytes :=
  reverse (strip_go (reverse <$> space_encodings) 0 (reverse s)).

(** [strings.TrimSpace] *)
Definition TrimSpace (s : bytes) : bytes := trim_right (trim_left s).

(** [strings.Fields]; [cur] is the current field, reversed. *)
Definition flush (cur : bytes) : list bytes :=
  match cur with [] => [] | _ => [reverse cur] end.

Fixpoint fields_go (skip : nat) (cur : bytes) (s : bytes) : list bytes :=
  match s with
  | [] => flush cur
  | c :: s' =>
      match skip with
      | S k => fields_go k cur s'
      | O => match prefix_width space_encodings s with
             | O => fields_go 0 (c :: cur) s'
             | S k => flush cur ++ fields_go k [] s'
             end
      end
  end.

Definition Fields (s : bytes) : list bytes := fields_go 0 [] s.

(** ** Searching, splitting and joining *)

Definition HasSuffix (s suffix : bytes) : bool := has_prefix (reverse suffix) (reverse s).

Fixpoint Contains (s sub : bytes) : bool :=
  has_prefix sub s || match s with [] => false | _ :: s' => Contains s' sub end.

(** [strings.Split(s, sep)] for a one-byte separator. *)
Fixpoint split_on (sep : ascii) (s : bytes) : list bytes :=
  match s with
  | [] => [[]]
  | c :: s' =>
      if Ascii.eqb c sep then [] :: split_on sep s'
      else match split_on sep s' with
           | [] => [[c]]
           | p :: ps => (c :: p) :: ps
           end
  end.

(** [strings.Join] *)
Fixpoint Join (parts : list bytes) (sep : bytes) : bytes :=
  match parts with
  | [] => []
  | [p] => p
  | p :: ps => p ++ sep ++ Join ps sep
  end.

(** [strings.Cut(s, sep)] for a one-byte separator. *)
Fixpoint Cut (s : bytes) (sep : ascii) : bytes * bytes * bool :=
  match s with
  | [] => ([], [], false)
  | c :: s' =>
      if Ascii.eqb c sep then ([], s', true)
      else let '(before, after, found) := Cut s' sep in (c :: before, after, found)
  end.

(** ** Case

    [strings.ToLower], exact on every string as far as its ASCII content is
    concerned: besides [A-Z], the only runes with an ASCII lower case are
    U+0130 (bytes C4 B0, to [i]) and U+212A (bytes E2 84 AA, to [k]).  Other
    non-ASCII letters are left alone; the program compares lowered strings with
    ASCII constants only. *)

Definition lower_ascii (c : ascii) : ascii :=
  if (65 <=? code c) && (code c <=? 90) then chr (code c + 32) else c.

Fixpoint ToLower (s : bytes) : bytes :=
  match s with
  | [] => []
  | c :: s1 =>
      match s1 with
      | c2 :: s2 =>
          if Ascii.eqb c (chr 196) && Ascii.eqb c2 (chr 176) then chr 105 :: ToLower s2
          else match s2 with
               | c3 :: s3 =>
                   if Ascii.eqb c (chr 226) && Ascii.eqb c2 (chr 132) && Ascii.eqb c3 (chr 170)
                   then chr 107 :: ToLower s3
                   else lower_ascii c :: ToLower s1
               | [] => lower_ascii c :: ToLower s1
               end
      | [] => lower_ascii c :: ToLower s1
      end
  end.

(** [strings.EqualFold] against a constant whose letters have no non-ASCII
    case variants (no [k] and no [s]). *)
Definition equal_fold_ascii (s t : bytes) : bool :=
  bool_decide (lower_ascii <$> s = lower_ascii <$> t).

(** ** [strconv.Atoi] and [strconv.Itoa] *)

Definition is_digit (c : ascii) : bool := (48 <=? code c) && (code c <=? 57).
Definition digit_value (c : ascii) : Z := code c - 48.
Definition digit_char (d : Z) : ascii := chr (d + 48).

Fixpoint parse_digits (acc : Z) (s : bytes) : option Z :=
  match s with
  | [] => Some acc
  | c :: s' => if is_digit c then parse_digits (10 * acc + digit_value c) s' else None
  end.

(** The [%q] verb, for text without characters that need escaping. *)
Definition quote (s : bytes) : bytes := [chr 34] ++ s ++ [chr 34].

Definition atoi_syntax (s : bytes) : goerror :=
  errorf (str "strconv.Atoi: parsing " ++ quote s ++ str ": invalid syntax").
Definition atoi_range (s : bytes) : goerror :=
  errorf (str "strconv.Atoi: parsing " ++ quote s ++ str ": value out of range").

Definition Atoi (s : bytes) : result Z :=
  let '(neg, digits) :=
    match s with
    | c :: s' => if Ascii.eqb c "-" then (true, s')
                 else if Ascii.eqb c "+" then (false, s') else (false, s)
    | [] => (false, [])
    end in
  match digits with
  | [] => Err (atoi_syntax s)
  | _ =>
      match parse_digits 0 digits with
      | None => Err (atoi_syntax s)
      | Some n => let v := if neg : bool then - n else n in
                  if decide (in_int v) then Ok v else Err (atoi_range s)
      end
  end.

(** Decimal digits, most significant first; the fuel bounds the digit count. *)
Fixpoint digits_go (fuel : nat) (n : Z) (acc : bytes) : bytes :=
  match fuel with
  | O => acc
  | S fuel' =>
      let acc' := digit_char (n mod 10) :: acc in
      if n <? 10 then acc' else digits_go fuel' (n / 10) acc'
  end.

Definition digits (n : Z) : bytes := digits_go (S (Z.to_nat (Z.log2 n))) n [].

Definition Itoa (z : Z) : bytes :=
  if z <? 0 then "-"%char :: digits (- z) else digits z.

(** ** Hexadecimal *)

Definition hex_digit (d : Z) : ascii := if d <? 10 then chr (d + 48) else chr (d + 87).

Definition hex_value (c : ascii) : option Z :=
  let z := code c in
  if (48 <=? z) && (z <=? 57) then Some (z - 48)
  else if (97 <=? z) && (z <=? 102) then Some (z - 87)
  else if (65 <=? z) && (z <=? 70) then Some (z - 55)
  else None.

Definition encode_byte (b : ascii) : bytes := [hex_digit (code b / 16); hex_digit (code b mod 16)].

(** [hex.EncodeToString] *)
Definition EncodeToString (b : bytes) : bytes := b ≫= encode_byte.

(** [hex.DecodeString]: an odd length or a non-hexadecimal byte is an error. *)
Fixpoint DecodeString (s : bytes) : option bytes :=
  match s with
  | [] => Some []
  | [_] => None
  | a :: b :: s' =>
      x ← hex_value a; y ← hex_value b; r ← DecodeString s';
      Some (chr (16 * x + y) :: r)
  end.

Definition upper_ascii (c : ascii) : ascii :=
  if (97 <=? code c) && (code c <=? 122) then chr (code c - 32) else c.

(** ** Bytes and their codes *)

Lemma code_range c : 0 ≤ code c < 256.
Proof. unfold code. pose proof (N_ascii_bounded c). lia. Qed.

Lemma chr_code c : chr (code c) = c.
Proof. unfold chr, code. rewrite N2Z.id. apply ascii_N_embedding. Qed.

Lemma code_chr z : 0 ≤ z < 256 → code (chr z) = z.
Proof.
  intros Hz. unfold code, chr. rewrite N_ascii_embedding by lia. lia.
Qed.

#[export] Instance code_inj : Inj (=) (=) code.
Proof. intros a b Hab. by rewrite <-(chr_code a), Hab, chr_code. Qed.

(** A decidable statement about every byte is checked by evaluation. *)
Lemma forall_byte (f : ascii → bool) :
  forallb (λ z, f (chr z)) (seqZ 0 256) = true → ∀ c, f c = true.
Proof.
  rewrite forallb_Forall, Forall_forall. intros Hf c.
  rewrite <-(chr_code c). apply Hf, elem_of_seqZ. pose proof (code_range c). lia.
Qed.

Lemma forall_byte_impl (f g : ascii → bool) :
  forallb (λ z, implb (f (chr z)) (g (chr z))) (seqZ 0 256) = true → ∀ c, f c = true → g c = true.
Proof.
  intros Hall c Hf. pose proof (forall_byte (λ c, implb (f c) (g c)) Hall c) as H.
  simpl in H. by rewrite Hf in H.
Qed.

(** Visible ASCII: every byte that the program's own protocol lines are made of. *)
Definition visible (c : ascii) : bool := (33 <=? code c) && (code c <=? 126).
Definition word (w : bytes) : Prop := w ≠ [] ∧ Forall (λ c, visible c = true) w.

Definition starts_none (encs : list bytes) (c : ascii) : bool :=
  forallb (λ e, match e with [] => false | a :: _ => negb (Ascii.eqb a c) end) encs.

Lemma prefix_width_none encs c s : starts_none encs c = true → prefix_width encs (c :: s) = 0%nat.
Proof.
  induction encs as [|[|a e] encs IH]; simpl; [done|done|].
  intros [Ha Henc]%andb_true_iff. apply negb_true_iff in Ha. rewrite Ha. by apply IH.
Qed.

Lemma visible_not_space c s : visible c = true → prefix_width space_encodings (c :: s) = 0%nat.
Proof.
  intros Hc. apply prefix_width_none. revert c Hc. apply forall_byte_impl. by vm_compute.
Qed.

Lemma visible_not_space_rev c s :
  visible c = true → prefix_width (reverse <$> space_encodings) (c :: s) = 0%nat.
Proof.
  intros Hc. apply prefix_width_none. revert c Hc. apply forall_byte_impl. by vm_compute.
Qed.

Lemma ascii_eqb_refl c : Ascii.eqb c c = true.
Proof. by apply Ascii.eqb_eq. Qed.

Lemma has_prefix_app p s : has_prefix p (p ++ s) = true.
Proof. induction p as [|a p IH]; simpl; [done|]. by rewrite ascii_eqb_refl. Qed.

Lemma has_suffix_app s p : HasSuffix (s ++ p) p = true.
Proof. unfold HasSuffix. rewrite reverse_app. apply has_prefix_app. Qed.

(** ** Trimming *)

Lemma trim_left_visible c s : visible c = true → trim_left (c :: s) = c :: s.
Proof. intros Hc. unfold trim_left. cbn [strip_go]. by rewrite visible_not_space. Qed.

Lemma trim_right_visible s c : visible c = true → trim_right (s ++ [c]) = s ++ [c].
Proof.
  intros Hc. unfold trim_right. rewrite reverse_app. cbn [reverse rev_append app].
  cbn [strip_go]. rewrite visible_not_space_rev by done.
  by rewrite <-(reverse_involutive (s ++ [c])), reverse_app.
Qed.

Lemma trim_right_newline s : trim_right (s ++ [chr 10]) = trim_right s.
Proof.
  unfold trim_right. rewrite reverse_app. cbn [reverse rev_append app strip_go].
  replace (prefix_width _ _) with 1%nat by reflexivity. done.
Qed.

(** A line whose first and last bytes are visible is its own trimming, with or
    without a final newline. *)
Definition tight (s : bytes) : Prop :=
  ∃ c, visible c = true ∧ (head s = Some c) ∧ ∃ d, visible d = true ∧ last s = Some d.

Lemma tight_split s : tight s → ∃ c t d u, s = c :: t ∧ s = u ++ [d] ∧
  visible c = true ∧ visible d = true.
Proof.
  intros (c & Hc & Hhd & d & Hd & Hlast).
  destruct s as [|c' t]; simplify_eq/=. apply last_Some in Hlast as [u Hu].
  by exists c, t, d, u.
Qed.

Lemma TrimSpace_tight s : tight s → TrimSpace s = s.
Proof.
  intros (c & t & d & u & E1 & E2 & Hc & Hd)%tight_split. unfold TrimSpace.
  rewrite E1 at 1. rewrite trim_left_visible by done. rewrite <-E1, E2.
  by apply trim_right_visible.
Qed.

Lemma TrimSpace_tight_newline s : tight s → TrimSpace (s ++ [chr 10]) = s.
Proof.
  intros (c & t & d & u & E1 & E2 & Hc & Hd)%tight_split. unfold TrimSpace.
  rewrite E1 at 1. cbn [app]. rewrite trim_left_visible by done.
  rewrite app_comm_cons, <-E1, trim_right_newline, E2. by apply trim_right_visible.
Qed.

Lemma TrimSpace_nil : TrimSpace [] = [].
Proof. reflexivity. Qed.

(** *** Trimming twice is trimming once *)

Lemma has_prefix_app_l e t u : has_prefix e t = true → has_prefix e (t ++ u) = true.
Proof.
  revert t. induction e as [|a e IH]; intros [|b t]; simpl; try done.
  intros [-> ?]%andb_true_iff. simpl. by apply IH.
Qed.

Lemma prefix_width_zero encs s : Forall (λ e, e ≠ []) encs →
  prefix_width encs s = 0%nat ↔ Forall (λ e, has_prefix e s = false) encs.
Proof.
  induction 1 as [|e encs He Hencs IH]; simpl; [by split; constructor|].
  rewrite Forall_cons, <-IH. destruct (has_prefix e s); [|naive_solver].
  split; [|by intros [??]]. by destruct e.
Qed.

Definition clean (encs : list bytes) (s : bytes) : Prop := s = [] ∨ prefix_width encs s = 0%nat.

Lemma strip_go_clean encs skip s : clean encs (strip_go encs skip s).
Proof.
  revert skip. induction s as [|c s IH]; intros skip; [by left|]. cbn [strip_go].
  destruct skip; [|apply IH]. destruct (prefix_width encs (c :: s)) eqn:E; [by right|apply IH].
Qed.

Lemma strip_go_id encs s : clean encs s → strip_go encs 0 s = s.
Proof. intros [->|E]; [done|]. destruct s; [done|]. cbn [strip_go]. by rewrite E. Qed.

Lemma strip_go_suffix encs skip s : ∃ p, s = p ++ strip_go encs skip s.
Proof.
  revert skip. induction s as [|c s IH]; intros skip; [by exists []|]. cbn [strip_go].
  destruct skip as [|k].
  - destruct (prefix_width encs (c :: s)); [by exists []|].
    destruct (IH n) as [p Hp]. exists (c :: p). by rewrite Hp at 1.
  - destruct (IH k) as [p Hp]. exists (c :: p). by rewrite Hp at 1.
Qed.

Lemma clean_app encs t u : Forall (λ e, e ≠ []) encs → clean encs (t ++ u) → clean encs t.
Proof.
  intros Hne Hc. destruct t as [|c t]; [by left|]. right.
  destruct Hc as [?|Hc]; [done|]. rewrite prefix_width_zero in * by done.
  eapply Forall_impl; [exact Hc|]. intros e He. cbv beta in *.
  destruct (has_prefix e (c :: t)) eqn:E; [|done].
  by rewrite (has_prefix_app_l _ _ u E) in He.
Qed.

Lemma space_encodings_ne : Forall (λ e, e ≠ []) space_encodings.
Proof. repeat (apply Forall_cons_2; [done|]). apply Forall_nil_2. Qed.

Lemma TrimSpace_idemp s : TrimSpace (TrimSpace s) = TrimSpace s.
Proof.
  unfold TrimSpace, trim_left.
  assert (clean space_encodings (trim_right (strip_go space_encodings 0 s))) as Hc.
  { pose proof (strip_go_clean space_encodings 0 s) as Hc. revert Hc.
    generalize (strip_go space_encodings 0 s). intros t Ht. unfold trim_right.
    destruct (strip_go_suffix (reverse <$> space_encodings) 0 (reverse t)) as [p Hp].
    apply (f_equal reverse) in Hp. rewrite reverse_involutive, reverse_app in Hp.
    rewrite Hp in Ht. by apply clean_app in Ht; [|apply space_encodings_ne]. }
  rewrite (strip_go_id _ _ Hc). unfold trim_right. rewrite reverse_involutive.
  by rewrite strip_go_id by apply strip_go_clean.
Qed.

(** ** Fields of a line of words *)

Lemma fields_go_word w cur s :
  Forall (λ c, visible c = true) w →
  fields_go 0 cur (w ++ s) = fields_go 0 (reverse w ++ cur) s.
Proof.
  intros Hw. revert cur. induction Hw as [|c w Hc Hw IH]; intros cur; [done|].
  cbn [app fields_go]. rewrite visible_not_space by done.
  rewrite IH, reverse_cons, <-(assoc_L (++)). done.
Qed.

Lemma flush_word w : word w → flush (reverse w ++ []) = [w].
Proof.
  intros [Hne _]. rewrite app_nil_r. unfold flush.
  destruct (reverse w) as [|a l] eqn:E.
  - apply (f_equal reverse) in E. rewrite reverse_involutive in E. by subst.
  - by rewrite <-E, reverse_involutive.
Qed.

Lemma fields_go_space cur s : fields_go 0 cur (" "%char :: s) = flush cur ++ fields_go 0 [] s.
Proof. reflexivity. Qed.

Lemma Fields_Join ws : Forall word ws → Fields (Join ws (str " ")) = ws.
Proof.
  unfold Fields. induction 1 as [|w ws Hw Hws IH]; [done|].
  destruct ws as [|w2 ws].
  - cbn [Join]. rewrite <-(app_nil_r w) at 1. rewrite fields_go_word by apply Hw.
    cbn [fields_go]. by apply flush_word.
  - change (Join (w :: w2 :: ws) (str " ")) with (w ++ " "%char :: Join (w2 :: ws) (str " ")).
    rewrite fields_go_word by apply Hw. rewrite fields_go_space, IH.
    by rewrite flush_word.
Qed.

Lemma word_head w : word w → ∃ c, visible c = true ∧ head w = Some c.
Proof. intros [Hne Hw]. destruct Hw as [|c w Hc Hw]; [done|]. by exists c. Qed.

Lemma word_last w : word w → ∃ c, visible c = true ∧ last w = Some c.
Proof.
  intros [Hne Hw]. destruct (last w) as [c|] eqn:E.
  - exists c. split; [|done]. apply last_Some_elem_of in E.
    by rewrite Forall_forall in Hw; apply Hw.
  - by apply last_None in E.
Qed.

Lemma last_app_ne {A} (l k : list A) : k ≠ [] → last (l ++ k) = last k.
Proof. intros Hk. rewrite last_app. destruct (last k) eqn:E; [done|]. by apply last_None in E. Qed.

Lemma Join_cons2 (p q : bytes) ps sep : Join (p :: q :: ps) sep = p ++ sep ++ Join (q :: ps) sep.
Proof. reflexivity. Qed.

Lemma Join_words_nonempty ws : ws ≠ [] → Forall word ws → Join ws (str " ") ≠ [].
Proof.
  intros Hne Hws. destruct Hws as [|w ws [Hw _] Hws]; [done|].
  destruct ws; [done|]. rewrite Join_cons2. destruct w; [done|]. discriminate.
Qed.

Lemma tight_words ws : ws ≠ [] → Forall word ws → tight (Join ws (str " ")).
Proof.
  intros Hne Hws.
  assert (∃ c, visible c = true ∧ head (Join ws (str " ")) = Some c) as (c & Hc & Hhd).
  { destruct Hws as [|w ws Hw Hws]; [done|]. destruct (word_head w Hw) as (c & ? & Hhd).
    exists c. split; [done|]. destruct ws; [done|]. rewrite Join_cons2.
    destruct w; by simplify_eq/=. }
  exists c. split; [done|]. split; [done|]. clear Hhd Hc c.
  induction Hws as [|w ws Hw Hws IH]; [done|]. destruct ws as [|w2 ws].
  - by apply word_last.
  - rewrite Join_cons2, last_app_ne by done. rewrite last_app_ne.
    + by apply IH.
    + by apply Join_words_nonempty.
Qed.

(** ** Decimal numerals *)

Lemma digit_char_spec d : 0 ≤ d < 10 →
  is_digit (digit_char d) = true ∧ digit_value (digit_char d) = d ∧ visible (digit_char d) = true.
Proof.
  intros Hd. unfold is_digit, digit_value, visible, digit_char.
  rewrite code_chr by lia. lia.
Qed.

Lemma parse_digits_app acc s t :
  parse_digits acc (s ++ t) = n ← parse_digits acc s; parse_digits n t.
Proof.
  revert acc. induction s as [|c s IH]; intros acc; [done|]. simpl.
  destruct (is_digit c); [apply IH|done].
Qed.

Lemma digits_go_spec fuel n acc :
  0 ≤ n → n < 2 ^ Z.of_nat fuel → (0 < fuel)%nat →
  ∃ ds, digits_go fuel n acc = ds ++ acc ∧ ds ≠ [] ∧
        Forall (λ c, is_digit c = true ∧ visible c = true) ds ∧
        parse_digits 0 ds = Some n.
Proof.
  revert n acc. induction fuel as [|fuel IH]; intros n acc Hn Hlt Hf; [lia|].
  cbn [digits_go]. pose proof (Z.mod_pos_bound n 10 eq_refl) as Hm.
  destruct (digit_char_spec _ Hm) as (Hd & Hv & Hvis).
  destruct (Z.ltb_spec n 10) as [Hsmall|Hbig].
  - exists [digit_char (n mod 10)]. repeat split; [done| |].
    + by repeat constructor.
    + simpl. rewrite Hd, Hv, Z.mod_small by lia. done.
  - assert (Hlt' : n < 2 * 2 ^ Z.of_nat fuel).
    { rewrite Nat2Z.inj_succ, Z.pow_succ_r in Hlt by lia. lia. }
    destruct (IH (n / 10) (digit_char (n mod 10) :: acc)) as (ds & E & Hne & Hall & Hp).
    + apply Z.div_pos; lia.
    + apply Z.div_lt_upper_bound; lia.
    + destruct fuel; [simpl in Hlt'; lia|lia].
    + exists (ds ++ [digit_char (n mod 10)]). split_and!.
      * by rewrite E, <-(assoc_L (++)).
      * by destruct ds.
      * apply Forall_app. split; [done|]. by repeat constructor.
      * rewrite parse_digits_app, Hp. simpl. rewrite Hd, Hv. f_equal.
        pose proof (Z.div_mod n 10). lia.
Qed.

Lemma digits_spec n : 0 ≤ n →
  digits n ≠ [] ∧ Forall (λ c, is_digit c = true ∧ visible c = true) (digits n) ∧
  parse_digits 0 (digits n) = Some n.
Proof.
  intros Hn. unfold digits.
  destruct (digits_go_spec (S (Z.to_nat (Z.log2 n))) n []) as (ds & -> & ?).
  - done.
  - rewrite Nat2Z.inj_succ, Z2Nat.id by apply Z.log2_nonneg.
    destruct (decide (n = 0)) as [->|]; [done|]. apply Z.log2_spec. lia.
  - lia.
  - by rewrite app_nil_r.
Qed.

Lemma is_digit_not_sign c :
  is_digit c = true → Ascii.eqb c "-" = false ∧ Ascii.eqb c "+" = false.
Proof.
  intros Hc. rewrite <-!negb_true_iff, <-andb_true_iff. revert c Hc.
  apply (forall_byte_impl is_digit (λ c, negb (Ascii.eqb c "-") && negb (Ascii.eqb c "+"))).
  by vm_compute.
Qed.

Lemma Atoi_Itoa z : in_int z → Atoi (Itoa z) = Ok z.
Proof.
  intros Hz. unfold Itoa. destruct (Z.ltb_spec z 0).
  - destruct (digits_spec (- z)) as (Hne & Hall & Hp); [lia|].
    unfold Atoi. change (Ascii.eqb "-" "-") with true. cbv iota beta.
    destruct (digits (- z)) as [|c ds]; [done|]. rewrite Hp. cbv zeta iota.
    rewrite Z.opp_involutive, decide_True by done. done.
  - destruct (digits_spec z) as (Hne & Hall & Hp); [lia|].
    unfold Atoi. destruct (digits z) as [|c ds] eqn:E; [done|].
    apply Forall_cons in Hall as [[Hc _] _]. apply is_digit_not_sign in Hc as [-> ->].
    rewrite Hp, decide_True by done. done.
Qed.

Lemma word_Itoa z : word (Itoa z).
Proof.
  unfold Itoa. destruct (Z.ltb_spec z 0).
  - destruct (digits_spec (- z)) as (Hne & Hall & _); [lia|]. split; [done|].
    constructor; [done|]. eapply Forall_impl; [exact Hall|]. naive_solver.
  - destruct (digits_spec z) as (Hne & Hall & _); [lia|]. split; [done|].
    eapply Forall_impl; [exact Hall|]. naive_solver.
Qed.

Lemma length_digits_go k n acc fuel :
  0 ≤ n < 10 ^ Z.of_nat k → (0 < k)%nat →
  (length (digits_go fuel n acc) ≤ k + length acc)%nat.
Proof.
  revert n acc fuel. induction k as [|k IH]; intros n acc fuel Hn Hk; [lia|].
  destruct fuel as [|fuel]; [simpl; lia|]. cbn [digits_go].
  destruct (Z.ltb_spec n 10); [simpl; lia|].
  assert (n < 10 * 10 ^ Z.of_nat k).
  { rewrite Nat2Z.inj_succ, Z.pow_succ_r in Hn by lia. lia. }
  destruct (decide (k = 0)%nat) as [->|]; [simpl in *; lia|].
  specialize (IH (n / 10) (digit_char (n mod 10) :: acc) fuel). simpl in IH.
  assert (0 ≤ n / 10) by (apply Z.div_pos; lia).
  assert (n / 10 < 10 ^ Z.of_nat k) by (apply Z.div_lt_upper_bound; lia). lia.
Qed.

Lemma length_Itoa k z : 0 ≤ z < 10 ^ Z.of_nat k → (0 < k)%nat → (length (Itoa z) ≤ k)%nat.
Proof.
  intros Hz Hk. unfold Itoa. destruct (Z.ltb_spec z 0); [lia|]. unfold digits.
  pose proof (length_digits_go k z [] (S (Z.to_nat (Z.log2 z))) Hz Hk) as HL.
  simpl length in HL at 2. lia.
Qed.

Lemma Itoa_no_byte z c :
  is_digit c = false → c ≠ "-"%char → c ∉ Itoa z.
Proof.
  intros Hc Hm Hin.
  assert (Hall : ∀ n, 0 ≤ n → c ∉ digits n).
  { intros n Hn Hin'. destruct (digits_spec n Hn) as (_ & Hall & _).
    rewrite Forall_forall in Hall. apply Hall in Hin' as [? _]. congruence. }
  unfold Itoa in Hin. destruct (Z.ltb_spec z 0).
  - apply elem_of_cons in Hin as [?|Hin]; [done|]. by apply (Hall (- z)); [lia|].
  - by apply (Hall z); [lia|].
Qed.

(** ** Hexadecimal *)

Lemma forall_nibble (f : Z → bool) : forallb f (seqZ 0 16) = true → ∀ d, 0 ≤ d < 16 → f d = true.
Proof. rewrite forallb_Forall, Forall_forall. intros H d Hd. apply H, elem_of_seqZ. lia. Qed.

Lemma hex_value_digit d : 0 ≤ d < 16 → hex_value (hex_digit d) = Some d.
Proof.
  intros Hd. apply (bool_decide_eq_true_1 _). revert d Hd.
  apply (forall_nibble (λ d, bool_decide (hex_value (hex_digit d) = Some d))). by vm_compute.
Qed.

Lemma hex_value_upper d : 0 ≤ d < 16 → hex_value (upper_ascii (hex_digit d)) = Some d.
Proof.
  intros Hd. apply (bool_decide_eq_true_1 _). revert d Hd.
  apply (forall_nibble (λ d, bool_decide (hex_value (upper_ascii (hex_digit d)) = Some d))).
  by vm_compute.
Qed.

Lemma code_nibbles b : 0 ≤ code b / 16 < 16 ∧ 0 ≤ code b mod 16 < 16 ∧
  chr (16 * (code b / 16) + code b mod 16) = b.
Proof.
  pose proof (code_range b). repeat split; try (apply Z.div_pos; lia);
    try (apply Z.div_lt_upper_bound; lia); try (apply Z.mod_pos_bound; lia).
  rewrite <-Z.div_mod by lia. apply chr_code.
Qed.

Lemma EncodeToString_cons b bs :
  EncodeToString (b :: bs) = hex_digit (code b / 16) :: hex_digit (code b mod 16) :: EncodeToString bs.
Proof. reflexivity. Qed.

Lemma DecodeString_EncodeToString b : DecodeString (EncodeToString b) = Some b.
Proof.
  induction b as [|b bs IH]; [done|]. destruct (code_nibbles b) as (H1 & H2 & H3).
  rewrite EncodeToString_cons. cbn [DecodeString].
  rewrite !hex_value_digit by done. simpl. rewrite IH. simpl. by rewrite H3.
Qed.

Lemma DecodeString_upper b : DecodeString (upper_ascii <$> EncodeToString b) = Some b.
Proof.
  induction b as [|b bs IH]; [done|]. destruct (code_nibbles b) as (H1 & H2 & H3).
  rewrite EncodeToString_cons, !fmap_cons. cbn [DecodeString].
  rewrite !hex_value_upper by done. cbn [mbind option_bind]. rewrite IH. simpl. by rewrite H3.
Qed.

Lemma length_EncodeToString b : length (EncodeToString b) = (2 * length b)%nat.
Proof. induction b as [|b bs IH]; [done|]. rewrite EncodeToString_cons. simpl. lia. Qed.

Lemma length_DecodeString s b : DecodeString s = Some b → length s = (2 * length b)%nat.
Proof.
  revert b. induction s as [s IH] using (induction_ltof1 _ (@length _)).
  unfold ltof in IH. intros b Hb.
  destruct s as [|x [|y s]]; simplify_eq/=; [done|].
  destruct (hex_value x), (hex_value y); simplify_eq/=.
  destruct (DecodeString s) as [r|] eqn:E; simplify_eq/=.
  apply IH in E; [|lia]. lia.
Qed.

Lemma visible_hex_digit d : 0 ≤ d < 16 → visible (hex_digit d) = true.
Proof. revert d. apply (forall_nibble (λ d, visible (hex_digit d))). by vm_compute. Qed.

Lemma visible_EncodeToString b : Forall (λ c, visible c = true) (EncodeToString b).
Proof.
  induction b as [|b bs IH]; [constructor|]. destruct (code_nibbles b) as (H1 & H2 & _).
  rewrite EncodeToString_cons. by repeat (constructor; [by apply visible_hex_digit|]).
Qed.

(** ** Splitting *)

Lemma split_on_app sep p s :
  sep ∉ p → split_on sep (p ++ sep :: s) = p :: split_on sep s.
Proof.
  intros Hp. induction p as [|c p IH]; simpl.
  - by rewrite ascii_eqb_refl.
  - apply not_elem_of_cons in Hp as [Hc Hp]. rewrite IH by done.
    destruct (Ascii.eqb_spec c sep); [congruence|done].
Qed.

Lemma split_on_none sep p : sep ∉ p → split_on sep p = [p].
Proof.
  intros Hp. induction p as [|c p IH]; simpl; [done|].
  apply not_elem_of_cons in Hp as [Hc Hp]. rewrite IH by done.
  destruct (Ascii.eqb_spec c sep); [congruence|done].
Qed.

Lemma split_on_Join sep ps :
  ps ≠ [] → Forall (λ p, sep ∉ p) ps → split_on sep (Join ps [sep]) = ps.
Proof.
  intros Hne Hps. induction Hps as [|p ps Hp Hps IH]; [done|].
  destruct ps as [|q ps]; [by apply split_on_none|].
  rewrite Join_cons2. change ([sep] ++ ?x) with (sep :: x).
  rewrite split_on_app by done. by rewrite IH.
Qed.

Create HintDb go_strings.
Create Rewrite HintDb go_strings.
#[export] Hint Resolve word_Itoa visible_EncodeToString has_suffix_app : go_strings.
#[export] Hint Rewrite DecodeString_EncodeToString DecodeString_upper
  length_EncodeToString : go_strings.
