(* ===== verification/GoNet.v ===== *)
(** * [net.Conn] as an interface

    The DTLS and TCP connections are implemented outside this repository.  A
    client of [net.Conn] is written against the class [NetConn], in
    state-passing style; [dgram] is one instance, an endpoint with an ordered
    inbox of datagrams, used to run exchanges and to instantiate theorems.  The
    class [ConnCloses] adds the number of [Close] calls a connection has seen;
    [counted] gives it to any connection. *)

From S2P Require Import Prelude.

(** Deadlines: [None] is [time.Time{}] (no deadline), [Some d] is [d]
    nanoseconds from now. *)
Abbreviation deadline := (option Z).

Class NetConn (C : Type) := {
  conn_Read : nat → C → bytes * option goerror * C;
  conn_Write : bytes → C → Z * option goerror * C;
  conn_Close : C → option goerror * C;
  conn_SetDeadline : deadline → C → option goerror * C;
  conn_SetReadDeadline : deadline → C → option goerror * C;
  conn_SetWriteDeadline : deadline → C → option goerror * C;
}.

(** What the [io.Reader] and [io.Writer] documentation promises: a read fills
    at most the buffer, a write reports at most the length it was given. *)
Class NetConnLaws (C : Type) `{!NetConn C} := {
  conn_Read_bound n c data err c' :
    conn_Read n c = (data, err, c') → (length data ≤ n)%nat;
  conn_Write_bound p c n err c' :
    conn_Write p c = (n, err, c') → 0 ≤ n ≤ Z.of_nat (length p);
}.

(** ** Using a connection without closing it *)

Inductive conn_io `{!NetConn C} : C → C → Prop :=
  | io_Read n c r c' : conn_Read n c = (r, c') → conn_io c c'
  | io_Write p c r c' : conn_Write p c = (r, c') → conn_io c c'
  | io_SetDeadline d c r c' : conn_SetDeadline d c = (r, c') → conn_io c c'
  | io_SetReadDeadline d c r c' : conn_SetReadDeadline d c = (r, c') → conn_io c c'
  | io_SetWriteDeadline d c r c' : conn_SetWriteDeadline d c = (r, c') → conn_io c c'.

(** The calls among the hypotheses, one after another. *)
Ltac io_chain :=
  repeat match goal with
  | E : conn_Read _ _ = _ |- _ => apply io_Read, rtc_once in E
  | E : conn_Write _ _ = _ |- _ => apply io_Write, rtc_once in E
  | E : conn_SetDeadline _ _ = _ |- _ => apply io_SetDeadline, rtc_once in E
  | E : conn_SetReadDeadline _ _ = _ |- _ => apply io_SetReadDeadline, rtc_once in E
  | E : conn_SetWriteDeadline _ _ = _ |- _ => apply io_SetWriteDeadline, rtc_once in E
  end;
  repeat first [reflexivity | eassumption | etrans; [eassumption|]].

(** ** Common errors *)

Definition net_ErrClosed : goerror :=
  GoError (str "use of closed network connection") [ErrClosed] None.
Definition io_ErrShortWrite : goerror := GoError (str "short write") [ErrShortWrite] None.
Definition io_EOF : goerror := GoError (str "EOF") [EOF] None.
Definition timeout_error : goerror := GoError (str "i/o timeout") [] (Some true).
Definition ctx_Canceled : goerror := GoError (str "context canceled") [Canceled] None.

(** ** The datagram endpoint *)

Record dgram := Dgram {
  inbox : list bytes;
  outbox : list bytes;
  read_deadline : deadline;
  write_deadline : deadline;
  conn_closed : bool;
}.

#[export] Instance dgram_eta : Eta dgram := λ c,
  Dgram (inbox c) (outbox c) (read_deadline c) (write_deadline c) (conn_closed c).

#[export] Instance dgram_eq_dec : EqDecision dgram.
Proof. solve_decision. Defined.

Definition dgram_read (n : nat) (c : dgram) : bytes * option goerror * dgram :=
  if conn_closed c then ([], Some net_ErrClosed, c)
  else match inbox c with
       | [] => ([], Some timeout_error, c)
       | d :: rest => (take n d, None, c <| inbox := rest |>)
       end.

Definition dgram_write (p : bytes) (c : dgram) : Z * option goerror * dgram :=
  if conn_closed c then (0, Some net_ErrClosed, c)
  else (Z.of_nat (length p), None, c <| outbox := outbox c ++ [p] |>).

#[export] Instance dgram_conn : NetConn dgram := {
  conn_Read := dgram_read;
  conn_Write := dgram_write;
  conn_Close c := (if conn_closed c then Some net_ErrClosed else None, c <| conn_closed := true |>);
  conn_SetDeadline d c := (None, c <| read_deadline := d |> <| write_deadline := d |>);
  conn_SetReadDeadline d c := (None, c <| read_deadline := d |>);
  conn_SetWriteDeadline d c := (None, c <| write_deadline := d |>);
}.

#[export] Instance dgram_laws : NetConnLaws dgram.
Proof.
  split.
  - intros n c data err c'. cbn. unfold dgram_read. go_cases; intros; simplify_eq/=; try lia.
    rewrite length_take. lia.
  - intros p c n err c'. cbn. unfold dgram_write. go_cases; intros; simplify_eq/=; lia.
Qed.

(** A fresh endpoint whose inbox holds the given datagrams. *)
Definition fresh_dgram (msgs : list bytes) : dgram := Dgram msgs [] None None false.

(** ** Counting the calls of [Close]

    What a program does with a connection it owns is judged by the calls it
    makes: [closes] is the number of [Close] calls a connection has seen.  Any
    [NetConn] can be watched this way ([counted]). *)

Class ConnCloses (C : Type) `{!NetConn C} := {
  closes : C → nat;
  closes_Read n c : closes (conn_Read n c).2 = closes c;
  closes_Write p c : closes (conn_Write p c).2 = closes c;
  closes_Close c : closes (conn_Close c).2 = S (closes c);
  closes_SetDeadline d c : closes (conn_SetDeadline d c).2 = closes c;
  closes_SetReadDeadline d c : closes (conn_SetReadDeadline d c).2 = closes c;
  closes_SetWriteDeadline d c : closes (conn_SetWriteDeadline d c).2 = closes c;
}.

Record counted (C : Type) := Counted { watched : C; close_calls : nat }.
Arguments Counted {C}. Arguments watched {C}. Arguments close_calls {C}.

#[export] Instance counted_conn {C} `{!NetConn C} : NetConn (counted C) := {
  conn_Read n c := let '(r, c') := conn_Read n (watched c) in (r, Counted c' (close_calls c));
  conn_Write p c := let '(r, c') := conn_Write p (watched c) in (r, Counted c' (close_calls c));
  conn_Close c := let '(r, c') := conn_Close (watched c) in (r, Counted c' (S (close_calls c)));
  conn_SetDeadline d c :=
    let '(r, c') := conn_SetDeadline d (watched c) in (r, Counted c' (close_calls c));
  conn_SetReadDeadline d c :=
    let '(r, c') := conn_SetReadDeadline d (watched c) in (r, Counted c' (close_calls c));
  conn_SetWriteDeadline d c :=
    let '(r, c') := conn_SetWriteDeadline d (watched c) in (r, Counted c' (close_calls c));
}.

#[export] Program Instance counted_closes {C} `{!NetConn C} : ConnCloses (counted C) := {
  closes := close_calls;
}.
Solve All Obligations with (intros; cbn; by case_match).

(** A datagram endpoint nobody has closed yet. *)
Definition fresh_counted (msgs : list bytes) : counted dgram := Counted (fresh_dgram msgs) 0.
