(* ===== verification/Pipe.v ===== *)
(** * The bidirectional pipe (tcputil/pipe.go)

    [pipeWithHalfCloseTimeout] runs four goroutines: two copy directions, the
    function registered with [context.AfterFunc], and the caller's loop.  The
    state below has the position of each, and [step] lets any of them move, the
    context be cancelled and the connections answer in any way.  [io.Copy] and
    [CloseWrite] are the connections': what they return, and when, is open. *)

From S2P Require Import Prelude GoNet.

Module Pipe.

(** ** Data *)

(** The connection a direction writes to: [ToLeft] is "left<-right". *)
Inductive side := ToLeft | ToRight.

#[export] Instance side_eq_dec : EqDecision side.
Proof. solve_decision. Defined.

Definition other (s : side) : side := match s with ToLeft => ToRight | ToRight => ToLeft end.

Definition direction_name (s : side) : bytes :=
  match s with ToLeft => str "left<-right" | ToRight => str "right<-left" end.

Record copyResult := MkCopyResult { direction : side; err : option goerror }.

Definition defaultHalfCloseTimeout : Z := Second.

(** [context.Canceled], what [copyCtx.Err()] is after [cancel()]. *)
Definition ctx_Canceled : goerror := GoError (str "context canceled") [Canceled] None.

(** ** Half-closing

    What the [select] of [closeWriteBounded] met first. *)
Inductive half_close :=
  | CloseWriteReturned (e : option goerror)
  | CopyCtxDone (e : goerror)
  | HalfCloseTimer.

(** The error, and whether the connection was closed. *)
Definition closeWriteBounded (timeout : Z) (o : half_close) : option goerror * bool :=
  if timeout <=? 0 then (Some (errorf (str "half-close timeout must be positive")), true)
  else match o with
       | CloseWriteReturned e => (e, false)
       | CopyCtxDone e => (Some e, true)
       | HalfCloseTimer => (Some (errorf (str "timed out")), true)
       end.

(** The rest of [copyDirection] after [io.Copy] failed, found no [CloseWrite],
    or half-closed. *)
Definition copy_failed (s : side) (e : goerror) : goerror := errorf_w (direction_name s ++ str ": ") e.

Definition cannot_half_close (s : side) : goerror :=
  errorf (direction_name s ++ str ": destination does not support CloseWrite").

Definition half_closed (s : side) (closeErr : option goerror) : option goerror :=
  match closeErr with
  | Some e => if errors_is ErrClosed e then None
              else Some (errorf_w (direction_name s ++ str ": close write: ") e)
  | None => None
  end.

(** ** The goroutines *)

Inductive dir_state := Copying | HalfClosing | Reporting (r : option goerror) | Ended (r : option goerror).

(** [context.AfterFunc]: registered, stopped before it ran, running with the
    number of deadlines it has set, [deadlineDone] closed. *)
Inductive after_state := AfterIdle | AfterStopped | AfterRunning (n : nat) | AfterDone.

Inductive main_state :=
  | Loop (remaining : nat) (firstErr : option goerror)
  | Stop (firstErr : option goerror)
  | AwaitDeadline (firstErr : option goerror)
  | ClearLeft (firstErr : option goerror)
  | ClearRight (firstErr : option goerror)
  | Returned (firstErr : option goerror).

Record pipe := MkPipe {
  ctx_err : option goerror;   (* ctx.Err() *)
  cancelled : bool;           (* cancel() was called *)
  after : after_state;
  expired : side → bool;      (* the deadline of the connection has passed *)
  closed : side → bool;       (* the pipe closed the connection *)
  dir : side → dir_state;
  results : list copyResult;
  main : main_state;
}.

#[export] Instance pipe_eta : Eta pipe := λ p,
  MkPipe (ctx_err p) (cancelled p) (after p) (expired p) (closed p) (dir p) (results p) (main p).

(** [copyCtx] is done with its parent or by [cancel()]. *)
Definition copy_done (p : pipe) : bool := cancelled p || bool_decide (is_Some (ctx_err p)).

Definition copy_err (p : pipe) : goerror := default ctx_Canceled (ctx_err p).

Definition at_ {A} (s : side) (v : A) (f : side → A) : side → A := λ t, if decide (t = s) then v else f t.

(** A received result: the first error wins, and is dropped when the context is
    already cancelled. *)
Definition on_result (r : copyResult) (n : nat) (firstErr : option goerror) (p : pipe) : pipe :=
  match err r, firstErr, ctx_err p with
  | Some e, None, None => p <| cancelled := true |> <| main := Loop n (Some e) |>
  | _, _, _ => p <| main := Loop n firstErr |>
  end.

Definition on_ctx_done (e : goerror) (n : nat) (firstErr : option goerror) (p : pipe) : pipe :=
  p <| main := Loop n (Some (default e firstErr)) |> <| cancelled := true |>.

(** The end of [io.Copy]. *)
Definition copy_returns (supports : bool) (s : side) (r : option goerror) (p : pipe) : pipe :=
  p <| dir := at_ s (match r with
                     | Some e => Reporting (Some (copy_failed s e))
                     | None => if supports then HalfClosing else Reporting (Some (cannot_half_close s))
                     end) (dir p) |>.

Definition half_close_returns (timeout : Z) (s : side) (o : half_close) (p : pipe) : pipe :=
  let '(e, close) := closeWriteBounded timeout o in
  p <| closed := (if close then at_ s true (closed p) else closed p) |>
    <| dir := at_ s (Reporting (half_closed s e)) (dir p) |>.

Section steps.
(** [supports]: whether the connection implements [CloseWrite]. *)
Context (supports : side → bool) (timeout : Z).

Inductive step : pipe → pipe → Prop :=
  | step_cancel e p : ctx_err p = None → step p (p <| ctx_err := Some e |>)
  | step_copy s r p : dir p s = Copying → step p (copy_returns (supports s) s r p)
  | step_half_close s o p :
      dir p s = HalfClosing →
      match o with CopyCtxDone e => copy_done p = true ∧ e = copy_err p | _ => True end →
      step p (half_close_returns timeout s o p)
  | step_report s r p :
      dir p s = Reporting r →
      step p (p <| dir := at_ s (Ended r) (dir p) |> <| results := results p ++ [MkCopyResult s r] |>)
  | step_after_start p :
      after p = AfterIdle → copy_done p = true → step p (p <| after := AfterRunning 0 |>)
  | step_after_left p :
      after p = AfterRunning 0 →
      step p (p <| expired := at_ ToLeft true (expired p) |> <| after := AfterRunning 1 |>)
  | step_after_right p :
      after p = AfterRunning 1 →
      step p (p <| expired := at_ ToRight true (expired p) |> <| after := AfterRunning 2 |>)
  | step_after_end p : after p = AfterRunning 2 → step p (p <| after := AfterDone |>)
  | step_receive n fe r rs p :
      main p = Loop (S n) fe → results p = r :: rs →
      step p (on_result r n fe (p <| results := rs |>))
  | step_ctx_done n fe e p :
      main p = Loop (S n) fe → ctx_err p = Some e → step p (on_ctx_done e (S n) fe p)
  | step_exit fe p : main p = Loop 0 fe → step p (p <| cancelled := true |> <| main := Stop fe |>)
  | step_stopped fe p :
      main p = Stop fe → after p = AfterIdle →
      step p (p <| after := AfterStopped |> <| main := ClearLeft fe |>)
  | step_not_stopped fe p :
      main p = Stop fe → after p ≠ AfterIdle → step p (p <| main := AwaitDeadline fe |>)
  | step_deadline_done fe p :
      main p = AwaitDeadline fe → after p = AfterDone → step p (p <| main := ClearLeft fe |>)
  | step_clear_left fe p :
      main p = ClearLeft fe →
      step p (p <| expired := at_ ToLeft false (expired p) |> <| main := ClearRight fe |>)
  | step_clear_right fe p :
      main p = ClearRight fe →
      step p (p <| expired := at_ ToRight false (expired p) |> <| main := Returned fe |>).

(** The call; the context may be cancelled before it. *)
Definition start (e : option goerror) : pipe :=
  MkPipe e false AfterIdle (λ _, false) (λ _, false) (λ _, Copying) [] (Loop 2 None).

Definition reachable (p : pipe) : Prop := ∃ e, rtc step (start e) p.

(** ** The invariant *)

Definition ended (d : dir_state) : nat := match d with Ended _ => 1 | _ => 0 end.

Definition remaining (m : main_state) : nat := match m with Loop n _ => n | _ => 0 end.

Definition first_error (m : main_state) : option goerror :=
  match m with
  | Loop _ fe | Stop fe | AwaitDeadline fe | ClearLeft fe | ClearRight fe | Returned fe => fe
  end.

(** How far the deadline function may be at each point of the caller. *)
Definition after_ok (m : main_state) (a : after_state) : Prop :=
  match m with
  | Loop _ _ | Stop _ => a ≠ AfterStopped
  | AwaitDeadline _ => a ≠ AfterStopped ∧ a ≠ AfterIdle
  | _ => a = AfterStopped ∨ a = AfterDone
  end ∧ match a with AfterRunning n => (n ≤ 2)%nat | _ => True end.

Definition cleared (m : main_state) (f : side → bool) : Prop :=
  match m with
  | ClearRight _ => f ToLeft = false
  | Returned _ => f ToLeft = false ∧ f ToRight = false
  | _ => True
  end.

Record inv (p : pipe) : Prop := {
  inv_count : (ended (dir p ToLeft) + ended (dir p ToRight) + remaining (main p) = length (results p) + 2)%nat;
  inv_remaining : (remaining (main p) ≤ 2)%nat;
  inv_results : Forall (λ r, dir p (direction r) = Ended (err r)) (results p);
  inv_after : after_ok (main p) (after p);
  inv_cleared : cleared (main p) (expired p);
  inv_first e : first_error (main p) = Some e → ctx_err p = Some e ∨ ∃ s, dir p s = Ended (Some e);
  inv_clean s e : first_error (main p) = None → ctx_err p = None → dir p s = Ended (Some e) →
    MkCopyResult s (Some e) ∈ results p;
  inv_cancel : cancelled p = true →
    is_Some (ctx_err p) ∨ (∃ s e, dir p s = Ended (Some e)) ∨ remaining (main p) = 0%nat;
  inv_deadline s : expired p s = true → copy_done p = true;
  inv_started : after p ≠ AfterIdle → after p ≠ AfterStopped → copy_done p = true;
}.

Lemma at_eq {A} s (v : A) f : at_ s v f s = v.
Proof. unfold at_. by rewrite decide_True. Qed.

Lemma at_ne {A} s t (v : A) f : t ≠ s → at_ s v f t = f t.
Proof. intros. unfold at_. by rewrite decide_False. Qed.

Lemma at_cases {A} s t (v : A) f x : at_ s v f t = x → (t = s ∧ v = x) ∨ (t ≠ s ∧ f t = x).
Proof. unfold at_. case_decide; naive_solver. Qed.

(** A direction that has not ended moves on, without ending. *)
Lemma inv_dir s d cl p : inv p → ended (dir p s) = 0%nat → ended d = 0%nat →
  inv (p <| closed := cl |> <| dir := at_ s d (dir p) |>).
Proof.
  intros I Hs Hd. assert (∀ t r, at_ s d (dir p) t = Ended r ↔ dir p t = Ended r) as Ht.
  { intros t r. unfold at_. case_decide; [subst t|done]. split; [intros ->; done|intros E; by rewrite E in Hs]. }
  assert (∀ t, ended (at_ s d (dir p) t) = ended (dir p t)) as He.
  { intros t. unfold at_. case_decide; [subst t; lia|done]. }
  destruct I as [I1 I2 I3 I4 I5 I6 I7 I8 I9 I10]. split; cbn in *; setoid_rewrite Ht || setoid_rewrite He || idtac; try done.
Qed.

Lemma pipe_inv_start e : inv (start e).
Proof. split; cbn; done || naive_solver. Qed.

Lemma inv_report s r p : inv p → dir p s = Reporting r →
  inv (p <| dir := at_ s (Ended r) (dir p) |> <| results := results p ++ [MkCopyResult s r] |>).
Proof.
  intros [I1 I2 I3 I4 I5 I6 I7 I8 I9 I10] Hs.
  assert (∀ t x, dir p t = Ended x → at_ s (Ended r) (dir p) t = Ended x) as Hkeep.
  { intros t x Ht. rewrite at_ne; [done|]. intros ->. congruence. }
  split; cbn in *; try done.
  - rewrite length_app. cbn. assert (∀ t, t ≠ s → ended (at_ s (Ended r) (dir p) t) = ended (dir p t)) as Hne.
    { intros t Ht. by rewrite at_ne. }
    destruct s; rewrite at_eq, ?(Hne ToLeft), ?(Hne ToRight), Hs in *; cbn in *; try done; lia.
  - apply Forall_app. split; [|constructor; [apply at_eq|constructor]].
    eapply Forall_impl; [exact I3|]. cbn. auto.
  - intros e He. destruct (I6 e He) as [|[t Ht]]; [by left|right; eauto].
  - intros t e Hf Hc [[-> [= ->]]|[Ht Hd]]%at_cases; [set_solver|]. apply elem_of_app. left. by apply I7.
  - intros Hc. destruct (I8 Hc) as [|[(t & e & Ht)|]]; eauto 6.
Qed.

Lemma inv_after_step p a f : inv p → after_ok (main p) a → cleared (main p) f →
  (∀ s, f s = true → copy_done p = true) → (a ≠ AfterIdle → a ≠ AfterStopped → copy_done p = true) →
  inv (p <| expired := f |> <| after := a |>).
Proof. intros [I1 I2 I3 I4 I5 I6 I7 I8 I9 I10] Ha Hf Hx Hd. split; cbn; try done. Qed.

Lemma inv_receive n fe r rs p : inv p → main p = Loop (S n) fe → results p = r :: rs →
  inv (on_result r n fe (p <| results := rs |>)).
Proof.
  intros [I1 I2 I3 I4 I5 I6 I7 I8 I9 I10] Hm Hr.
  rewrite Hm, Hr in *. cbn in *. apply Forall_cons in I3 as [Hd I3]. unfold on_result.
  assert (∀ s e, ctx_err p = None → fe = None → dir p s = Ended (Some e) → (s = direction r ∧ err r = Some e) ∨ MkCopyResult s (Some e) ∈ rs) as Hc.
  { intros s e Hx Hf Hs. pose proof (I7 s e Hf Hx Hs) as [E|?]%elem_of_cons; [left|by right]. by rewrite <-E. }
  destruct (err r) as [e|] eqn:Er; [destruct fe as [e'|]; [|destruct (ctx_err p) as [e'|] eqn:Ec]|]; cbn.
  - split; cbn; try done; try lia. intros H. destruct (I8 H) as [|[?|?]]; auto; lia.
  - split; cbn; try done; try lia; try congruence;
      try (intros; left; by eexists); unfold copy_done in *; rewrite Ec in *; done.
  - split; cbn; try done; try lia.
    + intros e' [= <-]. right. by exists (direction r).
    + intros _. right. left. eauto.
  - split; cbn; try done; try lia.
    + intros s e Hf Hx Hs. destruct (Hc s e Hx Hf Hs) as [[-> ?]|?]; [congruence|done].
    + intros H. destruct (I8 H) as [|[?|?]]; auto; lia.
Qed.

Lemma inv_main p m : inv p → remaining m = remaining (main p) → first_error m = first_error (main p) →
  after_ok m (after p) → cleared m (expired p) → inv (p <| main := m |>).
Proof.
  intros [I1 I2 I3 I4 I5 I6 I7 I8 I9 I10] Hr Hf Ha Hc. split; cbn; rewrite ?Hr, ?Hf; done.
Qed.

Lemma pipe_inv_step p p' : step p p' → inv p → inv p'.
Proof.
  destruct 1 as [e p Hc|s r p Hd|s o p Hd Ho|s r p Hd|p Ha Hc|p Ha|p Ha|p Ha|n fe r rs p Hm Hr|n fe e p Hm Hc
    |fe p Hm|fe p Hm Ha|fe p Hm Ha|fe p Hm Ha|fe p Hm|fe p Hm]; intros I.
  - destruct I as [I1 I2 I3 I4 I5 I6 I7 I8 I9 I10]. split; cbn; try done.
    + intros e' He. destruct (I6 e' He); [congruence|by right].
    + intros _. left. by eexists.
    + intros s. unfold copy_done. cbn. by rewrite orb_true_r.
    + intros _ _. unfold copy_done. cbn. by rewrite orb_true_r.
  - refine (inv_dir s _ (closed p) p I _ _); [by rewrite Hd|by destruct r, (supports s)].
  - unfold half_close_returns. destruct (closeWriteBounded _ _) as [e cl]. apply inv_dir; [done|by rewrite Hd|done].
  - by apply inv_report.
  - pose proof (inv_after p I) as [H _]. rewrite Ha in H.
    apply (inv_after_step p _ (expired p)); try apply I; [|done]. split; [|lia]. by destruct (main p); destruct_or?.
  - pose proof (inv_after p I) as [H _]. rewrite Ha in H. pose proof (inv_started p I) as Hd. rewrite Ha in Hd.
    apply inv_after_step; [done|split; [|lia]| | |]; auto; by destruct (main p); destruct_or?.
  - pose proof (inv_after p I) as [H _]. rewrite Ha in H. pose proof (inv_started p I) as Hd. rewrite Ha in Hd.
    apply inv_after_step; [done|split; [|lia]| | |]; auto; by destruct (main p); destruct_or?.
  - pose proof (inv_after p I) as [H _]. rewrite Ha in H. pose proof (inv_started p I) as Hd. rewrite Ha in Hd.
    apply (inv_after_step p _ (expired p)); try apply I; [split; [|done]|auto]. by destruct (main p); destruct_or?; auto.
  - by apply inv_receive.
  - pose proof I as [I1 I2 I3 I4 I5 I6 I7 I8 I9 I10]. rewrite Hm in *. split; cbn in *; try done.
    + intros e' [= <-]. destruct fe as [fe|]; cbn; [by apply I6|by left].
    + intros _. left. by eexists.
  - pose proof I as [I1 I2 I3 I4 I5 I6 I7 I8 I9 I10]. rewrite Hm in *. split; cbn in *; try done; auto.
  - pose proof (inv_after p I) as [H _]. rewrite Hm in H.
    pose proof I as [I1 I2 I3 I4 I5 I6 I7 I8 I9 I10]. rewrite Hm in *. split; cbn in *; try done.
    split; [by left|done].
  - pose proof (inv_after p I) as H. apply inv_main; rewrite ?Hm in *; try done. by destruct H as [? ?]; split.
  - apply inv_main; rewrite ?Hm in *; try done. split; [by right|by rewrite Ha].
  - pose proof I as [I1 I2 I3 I4 I5 I6 I7 I8 I9 I10]. rewrite Hm in *. split; cbn in *; try done.
    intros s. intros [[-> ?]|[? ?]]%at_cases; [done|by eapply I9].
  - pose proof I as [I1 I2 I3 I4 I5 I6 I7 I8 I9 I10]. rewrite Hm in *. split; cbn in *; try done.
    intros s. intros [[-> ?]|[? ?]]%at_cases; [done|by eapply I9].
Qed.

Lemma pipe_inv_reachable p : reachable p → inv p.
Proof.
  intros [e H]. assert (inv (start e)) as I by apply pipe_inv_start. revert I.
  induction H as [|p q r Hs _ IH]; [done|]. intros I. by apply IH, (pipe_inv_step p).
Qed.

(** Both directions have delivered their result. *)
Lemma all_ended p : inv p → remaining (main p) = 0%nat →
  results p = [] ∧ ∀ s, ∃ r, dir p s = Ended r.
Proof.
  intros I H0. pose proof (inv_count p I) as Hc. rewrite H0 in Hc.
  assert (∀ d, (ended d ≤ 1)%nat ∧ (ended d = 1%nat → ∃ r, d = Ended r)) as He by (intros []; cbn; split; eauto; lia).
  destruct (He (dir p ToLeft)) as [Hl Hl'], (He (dir p ToRight)) as [Hr Hr'].
  split; [apply nil_length_inv; lia|]. intros []; [apply Hl'|apply Hr']; lia.
Qed.

(** ** Termination *)

Definition dir_rank (d : dir_state) : nat :=
  match d with Copying => 3 | HalfClosing => 2 | Reporting _ => 1 | Ended _ => 0 end.
Definition after_rank (a : after_state) : nat :=
  match a with AfterIdle => 5 | AfterRunning n => 4 - n | AfterDone => 1 | AfterStopped => 0 end.
Definition main_rank (m : main_state) : nat :=
  match m with
  | Loop n _ => n + 5 | Stop _ => 4 | AwaitDeadline _ => 3 | ClearLeft _ => 2 | ClearRight _ => 1 | Returned _ => 0
  end.
Definition rank (p : pipe) : nat :=
  dir_rank (dir p ToLeft) + dir_rank (dir p ToRight) + after_rank (after p) + main_rank (main p).

(** The two steps that take the program nowhere: the context is cancelled, and
    the loop sees that it is. *)
Definition idles (p p' : pipe) : Prop :=
  (ctx_err p = None ∧ is_Some (ctx_err p')) ∨
  (is_Some (ctx_err p) ∧ ∃ n fe e, main p = Loop (S n) fe ∧ p' = on_ctx_done e (S n) fe p).

Lemma rank_dir s d cl p : (dir_rank d < dir_rank (dir p s))%nat →
  (rank (p <| closed := cl |> <| dir := at_ s d (dir p) |>) < rank p)%nat.
Proof.
  intros H. unfold rank. cbn. assert (∀ t, t ≠ s → at_ s d (dir p) t = dir p t) as Hne by (intros; by apply at_ne).
  destruct s; rewrite at_eq, ?(Hne ToLeft), ?(Hne ToRight) by done; lia.
Qed.

Lemma pipe_rank_step p p' : step p p' → (rank p' < rank p)%nat ∨ idles p p' ∧ rank p' = rank p.
Proof.
  destruct 1 as [e p Hc|s r p Hd|s o p Hd Ho|s r p Hd|p Ha Hc|p Ha|p Ha|p Ha|n fe r rs p Hm Hr|n fe e p Hm Hc
    |fe p Hm|fe p Hm Ha|fe p Hm Ha|fe p Hm Ha|fe p Hm|fe p Hm].
  - right. split; [|done]. left. split; [done|]. by eexists.
  - left. refine (rank_dir s _ (closed p) p _). rewrite Hd. destruct r, (supports s); cbn; lia.
  - left. unfold half_close_returns. destruct (closeWriteBounded _ _) as [e cl]. apply rank_dir. rewrite Hd. cbn. lia.
  - left. refine (rank_dir s (Ended r) (closed p) p _). rewrite Hd. cbn. lia.
  - left. unfold rank. cbn. rewrite Ha. cbn. lia.
  - left. unfold rank. cbn. rewrite Ha. cbn. lia.
  - left. unfold rank. cbn. rewrite Ha. cbn. lia.
  - left. unfold rank. cbn. rewrite Ha. cbn. lia.
  - left. unfold on_result, rank. destruct (err r), fe, (ctx_err (p <| results := rs |>)); cbn; rewrite Hm; cbn; lia.
  - right. split; [|unfold rank; cbn; by rewrite Hm]. right. split; [by eexists|]. eauto.
  - left. unfold rank. cbn. rewrite Hm. cbn. lia.
  - left. unfold rank. cbn. rewrite Hm, Ha. cbn. lia.
  - left. unfold rank. cbn. rewrite Hm. cbn. lia.
  - left. unfold rank. cbn. rewrite Hm. cbn. lia.
  - left. unfold rank. cbn. rewrite Hm. cbn. lia.
  - left. unfold rank. cbn. rewrite Hm. cbn. lia.
Qed.

Lemma rank_mono p p' : rtc step p p' → (rank p' ≤ rank p)%nat.
Proof. induction 1 as [|x y z Hs _ IH]; [done|]. destruct (pipe_rank_step x y Hs) as [|[_ ?]]; lia. Qed.

(** A step of a goroutine other than idling. *)
Definition moves (p : pipe) : Prop := ∃ p', step p p' ∧ (rank p' < rank p)%nat.

Lemma dir_moves p s : ended (dir p s) = 0%nat → moves p.
Proof.
  intros He. destruct (dir p s) as [| |r|r] eqn:Hd; [| | |done].
  - exists (copy_returns (supports s) s None p). split; [by apply step_copy|].
    refine (rank_dir s _ (closed p) p _). rewrite Hd. destruct (supports s); cbn; lia.
  - exists (half_close_returns timeout s HalfCloseTimer p). split; [by apply step_half_close|].
    unfold half_close_returns. destruct (closeWriteBounded _ _). apply rank_dir. rewrite Hd. cbn. lia.
  - eexists. split; [by apply step_report|]. refine (rank_dir s (Ended r) (closed p) p _). rewrite Hd. cbn. lia.
Qed.

Lemma rank_receive n fe r rs p : main p = Loop (S n) fe →
  (rank (on_result r n fe (p <| results := rs |>)) < rank p)%nat.
Proof.
  intros Hm. unfold on_result, rank. destruct (err r), fe, (ctx_err (p <| results := rs |>)); cbn; rewrite Hm; cbn; lia.
Qed.

Local Ltac by_rank := unfold rank; cbn; repeat match goal with
  | H : main _ = _ |- _ => rewrite H | H : after _ = _ |- _ => rewrite H end; cbn; lia.

Lemma main_moves p : inv p → (∀ s, ended (dir p s) = 1%nat) → (∃ fe, main p = Returned fe) ∨ moves p.
Proof.
  intros I Hd. pose proof (inv_count p I) as Hc. rewrite !Hd in Hc. pose proof (inv_after p I) as [Ha Hn].
  destruct (main p) as [[|n] fe|fe|fe|fe|fe|fe] eqn:Hm; cbn in Hc, Ha; [| | | | | |by left; eexists]; right.
  - eexists. split; [by eapply step_exit|by_rank].
  - destruct (results p) as [|r rs] eqn:Hr; [cbn in Hc; lia|].
    eexists. split; [by eapply step_receive|by apply rank_receive].
  - assert (after p = AfterIdle ∨ after p ≠ AfterIdle) as [E|E] by (destruct (after p); auto).
    + eexists. split; [by eapply step_stopped|by_rank].
    + eexists. split; [by eapply step_not_stopped|by_rank].
  - destruct Ha as [Ha1 Ha2]. destruct (after p) as [| |[|[|[|k]]]|] eqn:E; try done; cbn in Hn; [| | |lia|].
    + eexists. split; [by eapply step_after_left|by_rank].
    + eexists. split; [by eapply step_after_right|by_rank].
    + eexists. split; [by eapply step_after_end|by_rank].
    + eexists. split; [by eapply step_deadline_done|by_rank].
  - eexists. split; [by eapply step_clear_left|by_rank].
  - eexists. split; [by eapply step_clear_right|by_rank].
Qed.

(** ** Theorems *)

(** C38: When the pipe returns, both copying goroutines have ended and delivered their
    result, the function that sets the deadlines has ended or never runs, and
    neither connection keeps an expired deadline, so both can be used again,
    and no later step of any goroutine changes that.  The error is the
    context's, or that of a direction; without an error and without a
    cancelled context both directions were copied and half-closed cleanly. *)
Theorem pipe_returns_clean p fe : reachable p → main p = Returned fe →
  results p = [] ∧ (after p = AfterStopped ∨ after p = AfterDone) ∧
  expired p ToLeft = false ∧ expired p ToRight = false ∧
  (∀ p', step p p' → main p' = main p ∧ expired p' = expired p ∧ dir p' = dir p) ∧
  ∃ l r, dir p ToLeft = Ended l ∧ dir p ToRight = Ended r ∧
    match fe with
    | Some e => ctx_err p = Some e ∨ l = Some e ∨ r = Some e
    | None => ctx_err p = None → l = None ∧ r = None
    end.
Proof.
  intros I%pipe_inv_reachable Hm. destruct (all_ended p I) as [Hr He]; [by rewrite Hm|].
  pose proof (inv_after p I) as [Ha _]. pose proof (inv_cleared p I) as Hc. rewrite Hm in Ha, Hc. destruct Hc as [Hl' Hr'].
  split; [done|]. split; [done|]. split; [done|]. split; [done|]. split.
  { assert (∀ s d, dir p s = d → ended d = 1%nat) as Hd by (intros s d <-; destruct (He s) as [x ->]; done).
    destruct 1; cbn; try congruence; try done; try (by destruct Ha; congruence);
      match goal with H : dir p _ = _ |- _ => apply Hd in H; discriminate H end. }
  destruct (He ToLeft) as [l Hl], (He ToRight) as [r Hright]. exists l, r. split; [done|]. split; [done|].
  destruct fe as [e|].
  - destruct (inv_first p I e) as [|[[] Hs]]; [by rewrite Hm|by left|right; left; congruence|right; right; congruence].
  - intros Hctx. pose proof (inv_clean p I) as Hcl. rewrite Hm, Hr in Hcl. cbn in Hcl.
    split; [destruct l as [e|]; [|done]; destruct (not_elem_of_nil (MkCopyResult ToLeft (Some e)))
           |destruct r as [e|]; [|done]; destruct (not_elem_of_nil (MkCopyResult ToRight (Some e)))]; by apply Hcl.
Qed.

(** Half-close is preserved: while one direction still copies, the pipe has
    cancelled it or let its deadline expire only because the context was
    cancelled or the other direction failed; a direction that ended with its
    source leaves the other alone. *)
Theorem half_close_preserved p s t : reachable p → dir p s = Copying →
  copy_done p = true ∨ expired p t = true →
  is_Some (ctx_err p) ∨ ∃ e, dir p (other s) = Ended (Some e).
Proof.
  intros I%pipe_inv_reachable Hs Hc. assert (copy_done p = true) as [Hd|Hd%bool_decide_eq_true]%orb_true_iff; [|
    destruct (inv_cancel p I Hd) as [|[(u & e & Hu)|H0]]; [by left| |]|by left].
  - destruct Hc as [|Hx]; [done|]. by apply (inv_deadline p I t).
  - right. exists e. destruct s, u; cbn; congruence.
  - destruct (all_ended p I H0) as [_ He]. destruct (He s). congruence.
Qed.

(** The pipe cannot hang by itself: unless it has returned, some goroutine can
    move, where a direction moves when [io.Copy] or [CloseWrite] returns or the
    half-close timer fires; every move lowers a rank that starts at 18, and
    the remaining steps, a cancelled context and the loop noticing it, leave
    the rank alone. *)
Theorem pipe_terminates p : reachable p →
  (∃ fe, main p = Returned fe) ∨ (∃ p', step p p' ∧ (rank p' < rank p)%nat) ∧
  (∀ p', step p p' → (rank p' < rank p)%nat ∨ idles p p' ∧ rank p' = rank p) ∧ (rank p ≤ 18)%nat.
Proof.
  intros Hreach. pose proof (pipe_inv_reachable p Hreach) as I.
  assert (rank p ≤ 18)%nat as Hb.
  { destruct Hreach as [e H]. change 18%nat with (rank (start e)). by apply rank_mono. }
  assert ((∃ fe, main p = Returned fe) ∨ moves p) as [|Hm]; [|by left|right; split; [done|]; split; [apply pipe_rank_step|done]].
  destruct (ended (dir p ToLeft)) eqn:El; [right; by eapply dir_moves|].
  destruct (ended (dir p ToRight)) eqn:Er; [right; by eapply dir_moves|].
  apply main_moves; [done|]. intros []; [destruct (dir p ToLeft)|destruct (dir p ToRight)]; done.
Qed.
End steps.

(** ** Cancellation *)

Definition both (_ : side) : bool := true.

(** When the context is cancelled the caller may learn nothing of it: a run in
    which both directions were cut off by the deadline returns no error, since
    an error that arrives after the cancellation is dropped and the loop may
    receive both results before it looks at the context. *)
Theorem cancelled_pipe_may_return_nil (e c : goerror) :
  ∃ p, reachable both Second p ∧ main p = Returned None ∧ ctx_err p = Some c ∧
    dir p ToLeft = Ended (Some (copy_failed ToLeft e)) ∧ dir p ToRight = Ended (Some (copy_failed ToRight e)).
Proof.
  eexists. split; [exists (Some c)|].
  - eapply rtc_l; [by eapply step_after_start|]. eapply rtc_l; [by eapply step_after_left|].
    eapply rtc_l; [by eapply step_after_right|]. eapply rtc_l; [by eapply step_after_end|].
    eapply rtc_l; [by eapply (step_copy both Second ToLeft (Some e))|].
    eapply rtc_l; [by eapply (step_copy both Second ToRight (Some e))|].
    eapply rtc_l; [by eapply (step_report both Second ToLeft)|]. eapply rtc_l; [by eapply (step_report both Second ToRight)|].
    eapply rtc_l; [by eapply step_receive|]. eapply rtc_l; [by eapply step_receive|].
    eapply rtc_l; [by eapply step_exit|]. eapply rtc_l; [by eapply step_not_stopped|].
    eapply rtc_l; [by eapply step_deadline_done|]. eapply rtc_l; [by eapply step_clear_left|].
    eapply rtc_l; [by eapply step_clear_right|]. apply rtc_refl.
  - done.
Qed.

(** After a cancellation the loop does not wait: as long as the directions have
    not delivered their results, receiving from the closed [Done] channel is a
    step that leaves the state as it is, and the loop takes it again and
    again. *)
Theorem cancelled_pipe_spins (c : goerror) :
  ∃ p, reachable both Second p ∧ (∀ s, dir p s = Copying) ∧ step both Second p p.
Proof.
  exists (on_ctx_done c 2 None (start (Some c))). split.
  - exists (Some c). eapply rtc_l; [by eapply step_ctx_done|]. apply rtc_refl.
  - split; [done|]. by eapply (step_ctx_done both Second 1 (Some c) c).
Qed.

(** *** Witnesses *)

(** Both sources end, one after the other. *)
Lemma clean_run : ∃ p, reachable both Second p ∧ main p = Returned None ∧ ctx_err p = None.
Proof.
  eexists. split; [exists None|].
  - eapply rtc_l; [by eapply (step_copy both Second ToLeft None)|].
    eapply rtc_l; [by eapply (step_half_close both Second ToLeft (CloseWriteReturned None))|].
    eapply rtc_l; [by eapply (step_report both Second ToLeft)|]. eapply rtc_l; [by eapply step_receive|].
    eapply rtc_l; [by eapply (step_copy both Second ToRight None)|].
    eapply rtc_l; [by eapply (step_half_close both Second ToRight (CloseWriteReturned None))|].
    eapply rtc_l; [by eapply (step_report both Second ToRight)|]. eapply rtc_l; [by eapply step_receive|].
    eapply rtc_l; [by eapply step_exit|]. eapply rtc_l; [by eapply step_stopped|].
    eapply rtc_l; [by eapply step_clear_left|]. eapply rtc_l; [by eapply step_clear_right|]. apply rtc_refl.
  - done.
Qed.

Lemma pipe_returns_clean_witness : ∃ p, reachable both Second p ∧ main p = Returned None ∧
  expired p ToLeft = false ∧ dir p ToLeft = Ended None.
Proof.
  destruct clean_run as (p & Hr & Hm & Hc).
  destruct (pipe_returns_clean both Second p None Hr Hm) as (_ & _ & He & _ & _ & l & r & Hl & _ & H).
  destruct (H Hc) as [-> ->]. exists p. split; [exact Hr|]. split; [exact Hm|]. split; [exact He|exact Hl].
Defined.

Lemma pipe_terminates_witness : reachable both Second (start None) ∧ (rank (start None) ≤ 18)%nat.
Proof.
  assert (reachable both Second (start None)) as Hr by (exists None; apply rtc_refl). split; [exact Hr|].
  destruct (pipe_terminates both Second (start None) Hr) as [[fe H]|(_ & _ & H)]; [discriminate H|exact H].
Defined.

(** One direction failed; the other, still copying, is cancelled. *)
Lemma failed_left_reachable : ∃ p, reachable (λ _, false) Second p ∧ dir p ToRight = Copying ∧ copy_done p = true ∧ ctx_err p = None.
Proof.
  eexists. split; [exists None|].
  - eapply rtc_l; [by eapply (step_copy (λ _, false) Second ToLeft None)|].
    eapply rtc_l; [by eapply (step_report (λ _, false) Second ToLeft)|]. eapply rtc_l; [by eapply step_receive|]. apply rtc_refl.
  - done.
Qed.

Lemma half_close_preserved_witness : ∃ p e, reachable (λ _, false) Second p ∧ copy_done p = true ∧ dir p ToLeft = Ended (Some e).
Proof.
  destruct failed_left_reachable as (p & Hr & Hd & Hc & Hx).
  destruct (half_close_preserved (λ _, false) Second p ToRight ToRight Hr Hd (or_introl Hc)) as [[c H]|[e H]];
    [rewrite Hx in H; discriminate H|]. exists p, e. split; [exact Hr|]. split; [exact Hc|exact H].
Defined.
End Pipe.
