(* ===== verification/UdpIdle.v ===== *)
(** * Idle UDP sessions (server/udp_idle.go)

    The relay of a UDP session stores the time of every packet; a watchdog ends
    the session when no packet came for a while.  Times are nanoseconds since
    [started].  The packets come at given instants; a timer fires at its time
    or later, by an amount that is open, and the context may be done first. *)

From S2P Require Import Prelude.

Module UdpIdle.

Definition udpIdleTimeout : Z := 30 * Minute.

(** [activity.last] at an instant: [touch] at creation and at every packet. *)
Fixpoint last_at (touches : list Z) (now : Z) : Z :=
  match touches with
  | [] => 0
  | t :: ts => if t <=? now then Z.max t (last_at ts now) else last_at ts now
  end.

(** What ended a wait: the context, or the timer, late by [lag]. *)
Inductive wake := CtxDone | TimerFired (lag : Z).

(** [waitUntilIdle] from the instant [now] on: the result and the instant of its
    last look at the activity, [None] while the wakes given do not end it. *)
Fixpoint waitUntilIdle (touches : list Z) (timeout now : Z) (wakes : list wake) : option (bool * Z) :=
  let idleFor := now - last_at touches now in
  let remaining := timeout - idleFor in
  if remaining <=? 0 then Some (true, now)
  else match wakes with
       | [] => None
       | CtxDone :: _ => Some (false, now)
       | TimerFired lag :: wakes => waitUntilIdle touches timeout (now + remaining + lag) wakes
       end.

(** ** Correctness *)

Definition lag_of (w : wake) : Z := match w with CtxDone => 0 | TimerFired lag => lag end.

Lemma last_at_spec ts now : 0 ≤ last_at ts now ∧ (0 ≤ now → last_at ts now ≤ now) ∧ (∀ t, t ∈ ts → t ≤ now → t ≤ last_at ts now).
Proof.
  induction ts as [|t ts (H0 & H1 & H2)]; cbn; [split; [lia|split; [done|by intros ? ?%not_elem_of_nil]]|].
  destruct (Z.leb_spec t now).
  - split; [lia|]. split; [lia|]. intros u [->|Hu]%elem_of_cons Hn; [lia|]. specialize (H2 u Hu Hn). lia.
  - split; [done|]. split; [done|]. intros u [->|Hu]%elem_of_cons Hn; [lia|]. by apply H2.
Qed.

Lemma last_at_mono ts a b : a ≤ b → last_at ts a ≤ last_at ts b.
Proof.
  intros Hab. induction ts as [|t ts IH]; cbn; [lia|]. destruct (Z.leb_spec t a), (Z.leb_spec t b); lia.
Qed.

Lemma last_at_in ts now : last_at ts now = 0 ∨ last_at ts now ∈ ts.
Proof.
  induction ts as [|t ts IH]; cbn; [by left|]. destruct (t <=? now); [|destruct IH; [by left|right; by right]].
  destruct (Z.max_spec t (last_at ts now)) as [[_ ->]|[_ ->]]; [destruct IH; [by left|right; by right]|right; by left].
Qed.

(** Packets still to come. *)
Definition later (ts : list Z) (now : Z) : nat := count (λ t, now <? t) ts.

Lemma later_progress ts a b : a ≤ b → last_at ts a < last_at ts b → (later ts b < later ts a)%nat.
Proof.
  intros Hab Hl. assert (∃ t, t ∈ ts ∧ a < t ≤ b) as (t & Ht & Hat).
  { destruct (last_at_spec ts a) as (Ha & _ & Hmax). destruct (last_at_in ts b) as [E|Hin]; [lia|].
    exists (last_at ts b). split; [done|]. split.
    - destruct (Z.le_gt_cases (last_at ts b) a) as [Hle|]; [|done]. specialize (Hmax _ Hin Hle). lia.
    - assert (last_at ts b ≤ b ∨ last_at ts b = 0) as [|]; [|done|lia].
      clear. induction ts as [|t ts IH]; cbn; [by right|]. destruct (Z.leb_spec t b); lia. }
  clear Hl. unfold later. induction ts as [|u ts IH]; [by apply not_elem_of_nil in Ht|]. cbn.
  assert (count (λ t, (b <? t)%Z) ts ≤ count (λ t, (a <? t)%Z) ts)%nat as Hm.
  { apply count_mono. intros x. rewrite !Z.ltb_lt. lia. }
  apply elem_of_cons in Ht as [->|Ht].
  - destruct (Z.ltb_spec b u), (Z.ltb_spec a u); lia.
  - specialize (IH Ht). destruct (Z.ltb_spec b u), (Z.ltb_spec a u); lia.
Qed.

(** A session that is idle when looked at, or a packet came since. *)
Lemma wait_returns ts timeout now wakes : 0 ≤ now → 0 < timeout →
  Forall (λ w, 0 ≤ lag_of w) wakes → (later ts now < length wakes)%nat →
  is_Some (waitUntilIdle ts timeout now wakes).
Proof.
  revert now. induction wakes as [|w wakes IH]; intros now Hnow Ht Hl Hn; [cbn in Hn; lia|]. cbn.
  destruct (Z.leb_spec (timeout - (now - last_at ts now)) 0); [by eexists|].
  apply Forall_cons in Hl as [Hw Hl]. destruct w as [|lag]; [by eexists|]. cbn in Hw.
  set (next := now + (timeout - (now - last_at ts now)) + lag).
  destruct (last_at_spec ts now) as (H0 & H1 & _).
  destruct (decide (last_at ts now < last_at ts next)) as [Hlt|Hge].
  - apply IH; [lia|done|done|]. pose proof (later_progress ts now next ltac:(lia) Hlt). cbn in Hn. lia.
  - assert (timeout - (next - last_at ts next) ≤ 0) as Hi.
    { pose proof (last_at_mono ts now next ltac:(lia)). lia. }
    destruct wakes as [|w' wakes]; cbn; apply Z.leb_le in Hi; rewrite Hi; by eexists.
Qed.

Lemma wait_result ts timeout now wakes b t : 0 ≤ now → 0 < timeout →
  Forall (λ w, 0 ≤ lag_of w) wakes → waitUntilIdle ts timeout now wakes = Some (b, t) →
  now ≤ t ∧ if b then timeout ≤ t - last_at ts t ∧ (t = now ∨ ∃ w, w ∈ wakes ∧ t ≤ last_at ts t + timeout + lag_of w)
  else CtxDone ∈ wakes.
Proof.
  revert now. induction wakes as [|w wakes IH]; intros now Hnow Ht Hl; cbn;
    destruct (Z.leb_spec (timeout - (now - last_at ts now)) 0); try (intros [= <- <-]; split; [lia|]; split; [lia|by left]); [done|].
  apply Forall_cons in Hl as [Hw Hl]. destruct w as [|lag]; [intros [= <- <-]; split; [lia|left]|]. cbn in Hw.
  destruct (last_at_spec ts now) as (H0 & H1 & _).
  set (next := now + (timeout - (now - last_at ts now)) + lag). intros H'.
  destruct (IH next ltac:(lia) Ht Hl H') as [Hle Hb]. split; [lia|]. destruct b; [|by right].
  destruct Hb as [Hidle Hwhen]. split; [done|]. right. destruct Hwhen as [->|(w & Hw' & Hwt)].
  - exists (TimerFired lag). split; [left|]. cbn. pose proof (last_at_mono ts now next ltac:(lia)). lia.
  - exists w. split; [by right|done].
Qed.

(** The watchdog of a UDP session: it needs at most one timer per packet still to
    come and one more; it reports the session idle only when no packet came
    within the timeout before its last look, and then no later than the lag of
    one timer after the session became idle; it gives up without that only
    when the context is done. *)
Theorem idle_session_detected ts timeout wakes : 0 < timeout → Forall (λ w, 0 ≤ lag_of w) wakes →
  ((length ts < length wakes)%nat → is_Some (waitUntilIdle ts timeout 0 wakes)) ∧
  ∀ b t, waitUntilIdle ts timeout 0 wakes = Some (b, t) →
    if b then
      (∀ u, u ∈ ts → ¬ (t - timeout < u ≤ t)) ∧
      ∃ w, w ∈ wakes ∧ t ≤ last_at ts t + timeout + lag_of w
    else CtxDone ∈ wakes.
Proof.
  intros Ht Hl. split.
  - intros Hn. apply wait_returns; [done|done|done|]. pose proof (count_le_length (λ t, 0 <? t) ts). unfold later. lia.
  - intros b t H. destruct (wait_result ts timeout 0 wakes b t ltac:(lia) Ht Hl H) as [H0 Hb]. destruct b; [|done].
    destruct Hb as [Hi Hw]. destruct (last_at_spec ts t) as (L0 & _ & Lmax). split.
    + intros u Hu [Hlo Hhi]. specialize (Lmax u Hu Hhi). lia.
    + destruct Hw as [->|?]; [lia|done].
Qed.

Lemma idle_session_detected_witness :
  waitUntilIdle [5; 12] 10 0 [TimerFired 1; TimerFired 0; TimerFired 2] = Some (true, 24) ∧
  (∀ u, u ∈ [5; 12] → ¬ (24 - 10 < u ≤ 24)).
Proof.
  assert (waitUntilIdle [5; 12] 10 0 [TimerFired 1; TimerFired 0; TimerFired 2] = Some (true, 24)) as H by reflexivity.
  split; [exact H|].
  destruct (idle_session_detected [5; 12] 10 [TimerFired 1; TimerFired 0; TimerFired 2]) as [_ Hr].
  - lia.
  - repeat (constructor; [cbn; lia|]). constructor.
  - exact (proj1 (Hr true 24 H)).
Defined.
End UdpIdle.
