(* ===== verification/Tuning.v ===== *)
(** * KCP/smux tuning (tcputil/tcputil.go)

    The package variables are the record [globals]; the environment is a finite
    map; kcp-go is a parameter of [newKCPOverPacketConn]: the results of its
    calls are given by a [kcp_env], and the calls made are recorded. *)

From S2P Require Import Prelude GoStrings.

Module Tuning.

Definition maxKCPWindow : Z := 8192.
Definition minKCPMTU : Z := 50.
Definition kcpXmitBufferSize : Z := 1500.
Definition kcpCryptHeaderSize : Z := 20.
Definition kcpFECHeaderSize : Z := 8.

(** ** Forward error correction profiles *)

Definition validateFECShards (dataShards parityShards : Z) : result unit :=
  if (dataShards =? 0) && (parityShards =? 0) then Ok ()
  else if (dataShards <=? 0) || (parityShards <=? 0) then
    Err (errorf (str "data and parity shards must both be positive, or both zero"))
  else if (dataShards >? 256) || (parityShards >? 256) || (dataShards >? 256 - parityShards) then
    Err (errorf (str "data and parity shards must total at most 256"))
  else Ok ().

Definition parseFEC (v : bytes) : result (Z * Z) :=
  let v := TrimSpace v in
  if bool_decide (v = []) then Ok (0, 0)
  else
    match split_on ":"%char v with
    | [l; r] =>
        match Atoi (TrimSpace l), Atoi (TrimSpace r) with
        | Ok d, Ok p =>
            if (d =? 0) && (p =? 0) then Ok (0, 0)
            else if (d <=? 0) || (p <=? 0) then
              Err (errorf (str "data and parity shards must both be positive, or both zero"))
            else let? _ := validateFECShards d p in Ok (d, p)
        | _, _ => Err (errorf (str "data and parity shards must be integers"))
        end
    | _ => Err (errorf (str "expected data:parity"))
    end.

Definition maxKCPMTU (dataShards parityShards : Z) : Z :=
  let maxMTU := kcpXmitBufferSize - kcpCryptHeaderSize in
  if (dataShards >? 0) && (parityShards >? 0) then maxMTU - kcpFECHeaderSize else maxMTU.

(** ** The package variables and their initialisation *)

Record globals := Globals {
  KCPWindow : Z; KCPInterval : Z; KCPNoDelay : Z; KCPResend : Z; KCPNC : Z;
  KCPMtu : Z; SmuxRecvBuf : Z; SmuxStreamBuf : Z;
  kcpDataShards : Z; kcpParityShards : Z;
  tuningEnvErrors : list goerror;
}.

#[export] Instance globals_eta : Eta globals := λ g,
  Globals (KCPWindow g) (KCPInterval g) (KCPNoDelay g) (KCPResend g) (KCPNC g)
    (KCPMtu g) (SmuxRecvBuf g) (SmuxStreamBuf g) (kcpDataShards g) (kcpParityShards g)
    (tuningEnvErrors g).

Definition parseEnvInt (v : bytes) : result Z := Atoi (TrimSpace v).

(** [envInt] and [envFEC] read the environment and append to
    [tuningEnvErrors], threaded as [errs]. *)
Definition envInt (env : gmap bytes bytes) (key : bytes) (def : Z) (errs : list goerror)
  : Z * list goerror :=
  match env !! key with
  | None => (def, errs)
  | Some v =>
      if bool_decide (TrimSpace v = []) then (def, errs)
      else match parseEnvInt v with
           | Err e => (def, errs ++ [errorf_w (key ++ str " must be an integer: ") e])
           | Ok n => (n, errs)
           end
  end.

Definition envFEC (env : gmap bytes bytes) (key : bytes) (errs : list goerror)
  : Z * Z * list goerror :=
  match env !! key with
  | None => (0, 0, errs)
  | Some v =>
      if bool_decide (TrimSpace v = []) then (0, 0, errs)
      else match parseFEC v with
           | Err e => (0, 0, errs ++ [errorf_w (key ++ str ": ") e])
           | Ok (d, p) => (d, p, errs)
           end
  end.

Definition init_globals (env : gmap bytes bytes) : globals :=
  let '(window, e) := envInt env (str "VK_TURN_KCP_WND") 256 [] in
  let '(interval, e) := envInt env (str "VK_TURN_KCP_INTERVAL") 20 e in
  let '(nodelay, e) := envInt env (str "VK_TURN_KCP_NODELAY") 1 e in
  let '(resend, e) := envInt env (str "VK_TURN_KCP_RESEND") 2 e in
  let '(nc, e) := envInt env (str "VK_TURN_KCP_NC") 1 e in
  let '(mtu, e) := envInt env (str "VK_TURN_KCP_MTU") 1200 e in
  let '(recv, e) := envInt env (str "VK_TURN_SMUX_RECVBUF") (4 * 1024 * 1024) e in
  let '(stream, e) := envInt env (str "VK_TURN_SMUX_STREAMBUF") (1 * 1024 * 1024) e in
  let '(d, p, e) := envFEC env (str "VK_TURN_KCP_FEC") e in
  Globals window interval nodelay resend nc mtu recv stream d p e.

Definition FECShards (g : globals) : Z * Z := (kcpDataShards g, kcpParityShards g).

(** The [kcp-fec] flag function of [registerTuningFlags]. *)
Definition kcp_fec_flag (v : bytes) (g : globals) : result globals :=
  let? '(dataShards, parityShards) := parseFEC v in
  Ok (g <| kcpDataShards := dataShards |> <| kcpParityShards := parityShards |>).

(** ** Validation *)

Record tuningValues := TuningValues {
  window : Z; interval : Z; nodelay : Z; resend : Z; nc : Z; mtu : Z;
  smuxRecv : Z; smuxStream : Z; dataShards : Z; parityShards : Z;
}.

Definition currentTuningValues (g : globals) : tuningValues :=
  TuningValues (KCPWindow g) (KCPInterval g) (KCPNoDelay g) (KCPResend g) (KCPNC g)
    (KCPMtu g) (SmuxRecvBuf g) (SmuxStreamBuf g) (kcpDataShards g) (kcpParityShards g).

Definition when (b : bool) (e : goerror) : list goerror := if b then [e] else [].

Definition range_text (lo hi : Z) : bytes := Itoa lo ++ str ".." ++ Itoa hi.

Definition validateTuning_errs (v : tuningValues) : list goerror :=
  when ((window v <? 1) || (window v >? maxKCPWindow))
    (errorf (str "kcp-window must be in " ++ range_text 1 maxKCPWindow)) ++
  when ((interval v <? 10) || (interval v >? 5000))
    (errorf (str "kcp-interval must be in 10..5000 ms")) ++
  when (negb (nodelay v =? 0) && negb (nodelay v =? 1))
    (errorf (str "kcp-nodelay must be 0 or 1")) ++
  when ((resend v <? 0) || (resend v >? MaxInt32))
    (errorf (str "kcp-resend must be in " ++ range_text 0 MaxInt32)) ++
  when (negb (nc v =? 0) && negb (nc v =? 1))
    (errorf (str "kcp-nc must be 0 or 1")) ++
  match validateFECShards (dataShards v) (parityShards v) with
  | Ok _ => []
  | Err e => [errorf_w (str "kcp-fec: ") e]
  end ++
  let maxMTU := maxKCPMTU (dataShards v) (parityShards v) in
  when ((mtu v <? minKCPMTU) || (mtu v >? maxMTU))
    (errorf (str "kcp-mtu must be in " ++ range_text minKCPMTU maxMTU ++
             str " for the selected FEC profile")) ++
  when ((smuxRecv v <? 1) || (smuxRecv v >? MaxInt32))
    (errorf (str "smux-recvbuf must be in " ++ range_text 1 MaxInt32)) ++
  (if (smuxStream v <? 1) || (smuxStream v >? MaxInt32) then
     [errorf (str "smux-streambuf must be in " ++ range_text 1 MaxInt32)]
   else when (smuxStream v >? smuxRecv v)
     (errorf (str "smux-streambuf must not exceed smux-recvbuf"))).

Definition validateTuning (v : tuningValues) : option goerror :=
  errors_join (validateTuning_errs v).

Definition ValidateTuning (g : globals) : option goerror :=
  errors_join (tuningEnvErrors g ++
    match validateTuning (currentTuningValues g) with Some e => [e] | None => [] end).

Definition TuningSummary (g : globals) : bytes :=
  let fec := if (kcpDataShards g >? 0) && (kcpParityShards g >? 0)
             then Itoa (kcpDataShards g) ++ str ":" ++ Itoa (kcpParityShards g)
             else str "off" in
  str "kcp[wnd=" ++ Itoa (KCPWindow g) ++
  str " interval=" ++ Itoa (KCPInterval g) ++
  str " nodelay=" ++ Itoa (KCPNoDelay g) ++
  str " resend=" ++ Itoa (KCPResend g) ++
  str " nc=" ++ Itoa (KCPNC g) ++
  str " mtu=" ++ Itoa (KCPMtu g) ++
  str " fec=" ++ fec ++ str "] smux[recv=" ++ Itoa (SmuxRecvBuf g) ++
  str " stream=" ++ Itoa (SmuxStreamBuf g) ++ str "]".

(** ** The bonded window *)

Definition bondedKCPWindow (baseWindow pathCount : Z) : Z :=
  let baseWindow := if baseWindow <? 1 then 1 else baseWindow in
  if baseWindow >=? maxKCPWindow then maxKCPWindow
  else
    let pathCount := if pathCount <? 1 then 1 else pathCount in
    if pathCount >? Z.quot maxKCPWindow baseWindow then maxKCPWindow
    else wrap_int (baseWindow * pathCount).

Definition BondedKCPWindow (g : globals) (pathCount : Z) : Z :=
  bondedKCPWindow (KCPWindow g) pathCount.

(** ** KCP sessions

    [kcp_env] holds the results kcp-go returns to this code; [kcp_call] is the
    log of the calls the code makes. *)

Record kcp_env := KcpEnv {
  res_NewNoneBlockCrypt : option goerror;
  res_ServeConn : option goerror;
  res_SetDeadline : option goerror;
  res_AcceptKCP : option goerror;
  res_NewConn2 : option goerror;
  res_SetMtu : Z → bool;
}.

Inductive kcp_call :=
  | CallNewNoneBlockCrypt
  | CallServeConn (d p : Z)
  | CallListenerDeadline (after : Z)
  | CallAcceptKCP
  | CallNewConn2 (d p : Z)
  | CallSetNoDelay (nodelay interval resend nc : Z)
  | CallSetWindowSize (snd rcv : Z)
  | CallSetMtu (mtu : Z)
  | CallSetACKNoDelay (b : bool)
  | CallClose.

#[export] Instance kcp_call_eq_dec : EqDecision kcp_call.
Proof. solve_decision. Defined.

(** A call that may fail: it is logged, then its error ends the function. *)
Definition kcp_try (call : kcp_call) (res : option goerror)
  (k : result unit * list kcp_call) : result unit * list kcp_call :=
  match res with
  | Some e => (Err e, [call])
  | None => (k.1, call :: k.2)
  end.

Definition kcp_log (calls : list kcp_call) (k : result unit * list kcp_call)
  : result unit * list kcp_call := (k.1, calls ++ k.2).

Definition newKCPOverPacketConn (g : globals) (kcp : kcp_env) (isServer : bool) (window : Z)
  : result unit * list kcp_call :=
  match validateTuning (currentTuningValues g) with
  | Some e => (Err (errorf_w (str "invalid transport tuning: ") e), [])
  | None =>
    if (window <? 1) || (window >? maxKCPWindow) then
      (Err (errorf (str "KCP window must be in " ++ range_text 1 maxKCPWindow)), [])
    else
      kcp_try CallNewNoneBlockCrypt (res_NewNoneBlockCrypt kcp) (
        let d := kcpDataShards g in
        let p := kcpParityShards g in
        let configure :=
          kcp_log [CallSetNoDelay (KCPNoDelay g) (KCPInterval g) (KCPResend g) (KCPNC g);
                   CallSetWindowSize window window; CallSetMtu (KCPMtu g)]
            (if negb (res_SetMtu kcp (KCPMtu g)) then
               (Err (errorf (str "kcp rejected MTU " ++ Itoa (KCPMtu g))), [CallClose])
             else (Ok (), [CallSetACKNoDelay true])) in
        if isServer then
          kcp_try (CallServeConn d p) (res_ServeConn kcp)
            (kcp_try (CallListenerDeadline (30 * Second)) (res_SetDeadline kcp)
               (kcp_try CallAcceptKCP (res_AcceptKCP kcp) configure))
        else
          kcp_try (CallNewConn2 d p) (res_NewConn2 kcp) configure)
  end.

Definition NewKCPOverPacketConn (g : globals) (kcp : kcp_env) (isServer : bool) :=
  newKCPOverPacketConn g kcp isServer (KCPWindow g).

Definition NewKCPOverPacketConnBonded (g : globals) (kcp : kcp_env) (isServer : bool)
  (pathCount : Z) := newKCPOverPacketConn g kcp isServer (BondedKCPWindow g pathCount).

(** [DefaultSmuxConfig]: the four fields set over smux's own defaults. *)
Record smux_config := SmuxConfig {
  MaxReceiveBuffer : Z; MaxStreamBuffer : Z; KeepAliveInterval : Z; KeepAliveTimeout : Z;
}.

Definition DefaultSmuxConfig (g : globals) : smux_config :=
  SmuxConfig (SmuxRecvBuf g) (SmuxStreamBuf g) (10 * Second) (30 * Second).

(** ** Specifications *)

Definition fec_ok (d p : Z) : Prop :=
  (d = 0 ∧ p = 0) ∨ (0 < d ∧ 0 < p ∧ d + p ≤ 256).

(** What [docs/TUNING.md] and the flag help promise about accepted values. *)
Definition tuning_ok (v : tuningValues) : Prop :=
  1 ≤ window v ≤ maxKCPWindow ∧ 10 ≤ interval v ≤ 5000 ∧
  (nodelay v = 0 ∨ nodelay v = 1) ∧ 0 ≤ resend v ≤ MaxInt32 ∧
  (nc v = 0 ∨ nc v = 1) ∧ fec_ok (dataShards v) (parityShards v) ∧
  minKCPMTU ≤ mtu v ≤ maxKCPMTU (dataShards v) (parityShards v) ∧
  1 ≤ smuxRecv v ≤ MaxInt32 ∧ 1 ≤ smuxStream v ≤ smuxRecv v.

Lemma validateFECShards_spec d p : is_ok (validateFECShards d p) = true ↔ fec_ok d p.
Proof. unfold validateFECShards, fec_ok. go_cases; reflect_bools; lia. Qed.

Lemma validateFECShards_ok d p : fec_ok d p → validateFECShards d p = Ok ().
Proof.
  rewrite <-validateFECShards_spec. destruct (validateFECShards d p) as [[]|]; done.
Qed.

Lemma when_nil b e : when b e = [] ↔ b = false.
Proof. by destruct b. Qed.

Lemma errors_join_None es : errors_join es = None ↔ es = [].
Proof.
  destruct es as [|e es]; [done|]. simpl. destruct (errors_join es); split; discriminate.
Qed.

Lemma validateTuning_errs_nil v : validateTuning_errs v = [] ↔ tuning_ok v.
Proof.
  unfold validateTuning_errs, tuning_ok.
  rewrite !app_nil, !when_nil, <-validateFECShards_spec.
  destruct (validateFECShards _ _); simpl; [|split; intros; destruct_and?; discriminate].
  destruct ((smuxStream v <? 1) || (smuxStream v >? MaxInt32)) eqn:E.
  - split; intros; destruct_and?; [discriminate | lia].
  - rewrite when_nil. split; intros; destruct_and?; split_and?; try done; lia.
Qed.

(** What [ValidateTuning] lets through. *)
Lemma ValidateTuning_ok g : ValidateTuning g = None → tuning_ok (currentTuningValues g) ∧ tuningEnvErrors g = [].
Proof.
  unfold ValidateTuning. intros [H1 H2]%errors_join_None%app_nil. split; [|done].
  apply validateTuning_errs_nil, errors_join_None. by destruct (validateTuning _) eqn:E.
Qed.

(** [validateTuning] accepts exactly the documented parameter ranges, so a
    configuration it lets through never relies on clamping inside kcp-go or
    smux. *)
Theorem validateTuning_exact v : validateTuning v = None ↔ tuning_ok v.
Proof. unfold validateTuning. by rewrite errors_join_None, validateTuning_errs_nil. Qed.

Lemma bondedKCPWindow_min baseWindow pathCount :
  bondedKCPWindow baseWindow pathCount =
    Z.min maxKCPWindow (Z.max 1 baseWindow * Z.max 1 pathCount).
Proof.
  unfold bondedKCPWindow. set (b := if baseWindow <? 1 then 1 else baseWindow).
  set (p := if pathCount <? 1 then 1 else pathCount).
  replace (Z.max 1 baseWindow) with b by (subst b; case_match; lia).
  replace (Z.max 1 pathCount) with p by (subst p; case_match; lia).
  assert (1 ≤ b ∧ 1 ≤ p) as [Hb Hp] by (subst b p; repeat case_match; lia).
  clearbody b p. unfold maxKCPWindow.
  destruct (Z.geb_spec b 8192); [nia|].
  rewrite Z.quot_div_nonneg by lia.
  pose proof (Z.div_mod 8192 b). pose proof (Z.mod_pos_bound 8192 b).
  destruct (Z.gtb_spec p (8192 / b)); [nia|].
  assert (b * p ≤ 8192) by nia. rewrite wrap_int_id by (unfold in_int, two63; nia). lia.
Qed.

Lemma bondedKCPWindow_range b p : 1 ≤ bondedKCPWindow b p ≤ maxKCPWindow.
Proof. rewrite bondedKCPWindow_min. unfold maxKCPWindow. nia. Qed.

(** Monotonicity in the path count: a window never shrinks when a path joins. *)
Lemma bondedKCPWindow_mono b p q : p ≤ q → bondedKCPWindow b p ≤ bondedKCPWindow b q.
Proof. intros. rewrite !bondedKCPWindow_min. nia. Qed.

(** the bonded window is the product of window and path count, each floored
    at one, capped at [maxKCPWindow], for every pair of 64-bit inputs: the
    division guard makes the multiplication free of overflow. *)
Theorem bondedKCPWindow_exact baseWindow pathCount :
  bondedKCPWindow baseWindow pathCount =
    Z.min maxKCPWindow (Z.max 1 baseWindow * Z.max 1 pathCount).
Proof. apply bondedKCPWindow_min. Qed.

(** ** FEC profiles as text *)

Lemma fec_ok_in_int d p : fec_ok d p → in_int d ∧ in_int p.
Proof. unfold fec_ok, in_int, two63. lia. Qed.

Lemma tight_word w : word w → tight w.
Proof.
  intros Hw. destruct (word_head w Hw) as (c & ? & ?), (word_last w Hw) as (e & ? & ?).
  by exists c; eauto.
Qed.

Lemma colon_not_in_Itoa z : ":"%char ∉ Itoa z.
Proof. by apply Itoa_no_byte. Qed.

Lemma fec_text_tight d p : tight (Itoa d ++ str ":" ++ Itoa p).
Proof.
  destruct (word_head _ (word_Itoa d)) as (c & Hc & Hhd).
  destruct (word_last _ (word_Itoa p)) as (e & He & Hlast).
  exists c. split; [done|]. split; [by destruct (Itoa d)|]. exists e. split; [done|].
  rewrite last_app_ne by done. rewrite last_app_ne; [done|]. apply word_Itoa.
Qed.

Lemma parseFEC_text d p : fec_ok d p → parseFEC (Itoa d ++ str ":" ++ Itoa p) = Ok (d, p).
Proof.
  intros Hok. destruct (fec_ok_in_int _ _ Hok) as [Hd Hp]. unfold parseFEC.
  rewrite TrimSpace_tight by apply fec_text_tight.
  rewrite bool_decide_eq_false_2 by (destruct (Itoa d) eqn:E; [by destruct (word_Itoa d)|done]).
  change (str ":" ++ Itoa p) with (":"%char :: Itoa p).
  rewrite split_on_app, split_on_none by apply colon_not_in_Itoa.
  rewrite !TrimSpace_tight by apply tight_word, word_Itoa.
  rewrite !Atoi_Itoa, validateFECShards_ok by done.
  unfold fec_ok in Hok. go_cases; reflect_bools; try lia; f_equal; f_equal; lia.
Qed.

Lemma parseFEC_sound v d p : parseFEC v = Ok (d, p) → fec_ok d p.
Proof.
  unfold parseFEC. intros H. go_cases; try (left; lia).
  apply result_bind_ok in H as ([] & HV & ?). simplify_eq.
  apply validateFECShards_spec. by rewrite HV.
Qed.

(** printing a profile the way [TuningSummary] does and parsing it again
    gives the profile back, for every valid Reed-Solomon profile, FEC off
    included. *)
Theorem parseFEC_roundtrip d p :
  fec_ok d p → parseFEC (Itoa d ++ str ":" ++ Itoa p) = Ok (d, p).
Proof. apply parseFEC_text. Qed.

Lemma parseFEC_roundtrip_witness : parseFEC (str "10:3") = Ok (10, 3).
Proof. apply (parseFEC_roundtrip 10 3). right. lia. Defined.

(** ** Environment overrides *)

Definition int_error (env : gmap bytes bytes) (key : bytes) : list goerror :=
  (envInt env key 0 []).2.
Definition fec_error (env : gmap bytes bytes) (key : bytes) : list goerror :=
  (envFEC env key []).2.

Lemma envInt_errs env key def errs : (envInt env key def errs).2 = errs ++ int_error env key.
Proof. unfold int_error, envInt. go_cases; by rewrite ?app_nil_r. Qed.

Lemma envFEC_errs env key errs : (envFEC env key errs).2 = errs ++ fec_error env key.
Proof. unfold fec_error, envFEC. go_cases; by rewrite ?app_nil_r. Qed.

Definition int_keys : list bytes :=
  str <$> ["VK_TURN_KCP_WND"; "VK_TURN_KCP_INTERVAL"; "VK_TURN_KCP_NODELAY";
           "VK_TURN_KCP_RESEND"; "VK_TURN_KCP_NC"; "VK_TURN_KCP_MTU";
           "VK_TURN_SMUX_RECVBUF"; "VK_TURN_SMUX_STREAMBUF"].

Lemma init_globals_errs env :
  tuningEnvErrors (init_globals env) =
    (int_keys ≫= int_error env) ++ fec_error env (str "VK_TURN_KCP_FEC").
Proof.
  unfold init_globals.
  repeat match goal with
  | |- context [envInt ?e ?k ?d ?l] =>
      let H := fresh in pose proof (envInt_errs e k d l) as H;
      destruct (envInt e k d l); simpl in H; subst
  | |- context [envFEC ?e ?k ?l] =>
      let H := fresh in pose proof (envFEC_errs e k l) as H;
      destruct (envFEC e k l) as [[??]?]; simpl in H; subst
  end.
  cbn [tuningEnvErrors]. unfold int_keys. rewrite !fmap_cons, !bind_cons. simpl.
  by rewrite <-!(assoc_L (++)), ?app_nil_l.
Qed.

(** a malformed environment override is never silently replaced by the
    default: [ValidateTuning], which both binaries run at start-up, fails. *)
Theorem malformed_env_rejected env key v e :
  key ∈ int_keys → env !! key = Some v → TrimSpace v ≠ [] → parseEnvInt v = Err e →
  is_Some (ValidateTuning (init_globals env)).
Proof.
  intros Hkey Henv Hv He. apply not_eq_None_Some. unfold ValidateTuning.
  rewrite errors_join_None, init_globals_errs. intros Hnil.
  apply app_nil in Hnil as [Hnil _]. apply app_nil in Hnil as [Hnil _].
  assert (int_error env key = []) as E.
  { revert Hnil. induction Hkey; rewrite bind_cons; intros [??]%app_nil; auto. }
  unfold int_error, envInt in E. rewrite Henv, bool_decide_eq_false_2, He in E by done.
  discriminate.
Qed.

Lemma malformed_env_rejected_witness :
  let env : gmap bytes bytes := {[ str "VK_TURN_KCP_MTU" := str "12x0" ]} in
  is_Some (ValidateTuning (init_globals env)).
Proof.
  intros env.
  apply (malformed_env_rejected env (str "VK_TURN_KCP_MTU") (str "12x0")
           (atoi_syntax (str "12x0"))).
  - apply (bool_decide_unpack _). vm_compute. exact I.
  - reflexivity.
  - vm_compute. discriminate.
  - reflexivity.
Defined.

(** ** KCP sessions *)

(** What kcp-go documents: no error on a well-formed call, and [SetMtu]
    accepts a size that fits its transmit buffer. *)
Definition kcp_cooperates (kcp : kcp_env) : Prop :=
  res_NewNoneBlockCrypt kcp = None ∧ res_ServeConn kcp = None ∧
  res_SetDeadline kcp = None ∧ res_AcceptKCP kcp = None ∧ res_NewConn2 kcp = None ∧
  ∀ m, minKCPMTU ≤ m ≤ kcpXmitBufferSize - kcpCryptHeaderSize → res_SetMtu kcp m = true.

Definition open_calls (g : globals) (isServer : bool) : list kcp_call :=
  CallNewNoneBlockCrypt ::
  if isServer
  then [CallServeConn (kcpDataShards g) (kcpParityShards g);
        CallListenerDeadline (30 * Second); CallAcceptKCP]
  else [CallNewConn2 (kcpDataShards g) (kcpParityShards g)].

Definition config_calls (g : globals) (w : Z) : list kcp_call :=
  [CallSetNoDelay (KCPNoDelay g) (KCPInterval g) (KCPResend g) (KCPNC g);
   CallSetWindowSize w w; CallSetMtu (KCPMtu g); CallSetACKNoDelay true].

Lemma newKCP_invalid g kcp isServer w :
  ¬ tuning_ok (currentTuningValues g) ∨ ¬ (1 ≤ w ≤ maxKCPWindow) →
  ∃ e, newKCPOverPacketConn g kcp isServer w = (Err e, []).
Proof.
  intros H. unfold newKCPOverPacketConn.
  destruct (validateTuning _) as [e|] eqn:E; [by eexists|].
  unfold validateTuning in E. rewrite errors_join_None, validateTuning_errs_nil in E.
  destruct H as [?|Hw]; [done|]. replace (_ || _) with true by lia. by eexists.
Qed.

Lemma newKCP_valid g kcp isServer w :
  tuning_ok (currentTuningValues g) → 1 ≤ w ≤ maxKCPWindow →
  newKCPOverPacketConn g kcp isServer w =
  kcp_try CallNewNoneBlockCrypt (res_NewNoneBlockCrypt kcp)
    (let configure :=
       kcp_log (take 3 (config_calls g w))
         (if negb (res_SetMtu kcp (KCPMtu g)) then
            (Err (errorf (str "kcp rejected MTU " ++ Itoa (KCPMtu g))), [CallClose])
          else (Ok (), [CallSetACKNoDelay true])) in
     if isServer then
       kcp_try (CallServeConn (kcpDataShards g) (kcpParityShards g)) (res_ServeConn kcp)
         (kcp_try (CallListenerDeadline (30 * Second)) (res_SetDeadline kcp)
            (kcp_try CallAcceptKCP (res_AcceptKCP kcp) configure))
     else kcp_try (CallNewConn2 (kcpDataShards g) (kcpParityShards g)) (res_NewConn2 kcp) configure).
Proof.
  intros Hok Hw. unfold newKCPOverPacketConn.
  replace (validateTuning _) with (@None goerror).
  - by replace ((w <? 1) || (w >? maxKCPWindow)) with false by lia.
  - symmetry. unfold validateTuning. by rewrite errors_join_None, validateTuning_errs_nil.
Qed.

(** no KCP session exists on invalid tuning: when the tuning or the window
    is out of range no call to kcp-go is made at all, and every session that is
    created has been given the no-delay, window and MTU settings. *)
Theorem kcp_session_safe g kcp isServer w log :
  newKCPOverPacketConn g kcp isServer w = (Ok (), log) →
  tuning_ok (currentTuningValues g) ∧ 1 ≤ w ≤ maxKCPWindow ∧
  log = open_calls g isServer ++ config_calls g w.
Proof.
  intros H.
  destruct (decide (1 ≤ w ≤ maxKCPWindow)) as [Hw|Hw]; last first.
  { destruct (newKCP_invalid g kcp isServer w) as [e E]; [by right|]. congruence. }
  destruct (validateTuning (currentTuningValues g)) as [e|] eqn:E.
  { unfold newKCPOverPacketConn in H. by rewrite E in H. }
  assert (Hok : tuning_ok (currentTuningValues g)).
  { unfold validateTuning in E. by rewrite errors_join_None, validateTuning_errs_nil in E. }
  rewrite (newKCP_valid _ _ _ _ Hok Hw) in H. do 2 (split; [done|]).
  unfold kcp_try, kcp_log in H. destruct isServer; go_cases; done.
Qed.

Definition default_globals : globals := init_globals ∅.
Definition kcp_ok : kcp_env := KcpEnv None None None None None (λ m, (m <=? 1480)).

Lemma kcp_session_safe_witness :
  tuning_ok (currentTuningValues default_globals) ∧ 1 ≤ 256 ≤ maxKCPWindow ∧
  open_calls default_globals true ++ config_calls default_globals 256 =
    open_calls default_globals true ++ config_calls default_globals 256.
Proof.
  apply (kcp_session_safe default_globals kcp_ok true 256). vm_compute. reflexivity.
Defined.

(** with valid tuning and a co-operating kcp-go a bonded session is created
    for every path count, adversarial ones included, with the clamped window on
    both directions and exactly the documented configuration calls. *)
Theorem bonded_session_created g kcp isServer pathCount :
  tuning_ok (currentTuningValues g) → kcp_cooperates kcp →
  NewKCPOverPacketConnBonded g kcp isServer pathCount =
    (Ok (), open_calls g isServer ++
            config_calls g (Z.min maxKCPWindow (KCPWindow g * Z.max 1 pathCount))).
Proof.
  intros Hok (H1 & H2 & H3 & H4 & H5 & Hmtu). unfold NewKCPOverPacketConnBonded.
  rewrite newKCP_valid by (done || apply bondedKCPWindow_range).
  assert (res_SetMtu kcp (KCPMtu g) = true) as ->.
  { apply Hmtu. destruct Hok as (_ & _ & _ & _ & _ & _ & Hm & _). revert Hm.
    unfold maxKCPMTU, kcpFECHeaderSize; simpl; case_match; lia. }
  assert (BondedKCPWindow g pathCount = Z.min maxKCPWindow (KCPWindow g * Z.max 1 pathCount)) as ->.
  { unfold BondedKCPWindow. rewrite bondedKCPWindow_min. do 2 f_equal.
    destruct Hok as ([Hw _] & _). simpl in Hw. lia. }
  rewrite H1. destruct isServer; rewrite ?H2, ?H3, ?H4, ?H5; reflexivity.
Qed.

Lemma bonded_session_created_witness :
  NewKCPOverPacketConnBonded default_globals kcp_ok false 64 =
    (Ok (), open_calls default_globals false ++ config_calls default_globals 8192).
Proof.
  apply (bonded_session_created default_globals kcp_ok false 64).
  - by apply validateTuning_errs_nil.
  - repeat split. unfold minKCPMTU, kcpXmitBufferSize, kcpCryptHeaderSize. intros m Hm.
    cbn. lia.
Defined.

End Tuning.
