(* ===== verification/BondHello.v ===== *)
(** * The bond control protocol (tcputil/bonded_packet_conn.go, hello records)

    One control record precedes KCP traffic on every path.  The record is
    printed and parsed here as the code does it, over any [NetConn]. *)

From S2P Require Import Prelude GoStrings GoNet Tuning.

Module BondHello.
Import Tuning.

Definition bondHelloV1Token : bytes := str "VKTURNBOND/1".
Definition bondHelloV2Token : bytes := str "VKTURNBOND/2".
Definition bondHelloV2Ack : bytes := str "VKTURNBOND/2 OK" ++ [chr 10].
Definition bondHelloV2Error : bytes := str "ERR".
Definition maxBondHelloSize : Z := 256.
Definition MaxBondPaths : Z := 64.
Definition BondProtocolV1 : Z := 1.
Definition BondProtocolV2 : Z := 2.

Record BondHello := MkBondHello {
  Version : Z; BondID : bytes; ExpectedPaths : Z; MTU : Z;
  FECDataShards : Z; FECParityShards : Z;
}.

#[export] Instance BondHello_eq_dec : EqDecision BondHello.
Proof. solve_decision. Defined.

(** [BondHelloRejectionError{Code: code}], which unwraps to
    [ErrBondHelloRejected]. *)
Definition BondHelloRejectionError (code : bytes) : goerror :=
  GoError (str "vless bond V2 hello rejected: " ++ code) [ErrBondHelloRejected] None.

Definition ioShortWrite (n want : Z) : goerror :=
  errorf (str "short write: wrote " ++ Itoa n ++ str " of " ++ Itoa want ++ str " bytes").

(** ** Validation *)

(** The loops over runes accept ASCII ranges only, so they are loops over
    bytes: a byte above 127 starts a rune outside every range. *)
Definition bond_id_byte (c : ascii) : bool :=
  let z := code c in
  ((97 <=? z) && (z <=? 102)) || ((65 <=? z) && (z <=? 70)) || ((48 <=? z) && (z <=? 57)).

Definition isValidBondID (value : bytes) : bool :=
  let n := Z.of_nat (length value) in
  if (n <? 8) || (n >? 64) then false else forallb bond_id_byte value.

Definition rejection_code_byte (c : ascii) : bool :=
  let z := code c in
  ((65 <=? z) && (z <=? 90)) || ((48 <=? z) && (z <=? 57)) || (z =? 95).

Definition isValidBondRejectionCode (value : bytes) : bool :=
  let n := Z.of_nat (length value) in
  if (n <? 1) || (n >? 32) then false else forallb rejection_code_byte value.

Definition validateBondHello (hello : BondHello) : result unit :=
  if negb (isValidBondID (BondID hello)) then Err (errorf (str "invalid vless bond id"))
  else if Version hello =? BondProtocolV1 then
    if negb (ExpectedPaths hello =? 0) || negb (MTU hello =? 0) ||
       negb (FECDataShards hello =? 0) || negb (FECParityShards hello =? 0)
    then Err (errorf (str "vless bond V1 hello must not contain a transport profile"))
    else Ok ()
  else if Version hello =? BondProtocolV2 then
    if (ExpectedPaths hello <? 1) || (ExpectedPaths hello >? MaxBondPaths) then
      Err (errorf (str "vless bond expected paths must be in " ++ range_text 1 MaxBondPaths))
    else
      let? _ := map_err (errorf_w (str "invalid vless bond FEC profile: "))
                  (validateFECShards (FECDataShards hello) (FECParityShards hello)) in
      let maxMTU := maxKCPMTU (FECDataShards hello) (FECParityShards hello) in
      if (MTU hello <? minKCPMTU) || (MTU hello >? maxMTU) then
        Err (errorf (str "vless bond KCP MTU must be in " ++ range_text minKCPMTU maxMTU))
      else Ok ()
  else Err (errorf (str "unsupported vless bond protocol version " ++ Itoa (Version hello))).

(** [CurrentBondHello]: a V2 hello with the active profile. *)
Definition CurrentBondHello (g : globals) (bondID : bytes) (expectedPaths : Z) : BondHello :=
  let '(dataShards, parityShards) := FECShards g in
  MkBondHello BondProtocolV2 bondID expectedPaths (KCPMtu g) dataShards parityShards.

Definition ValidateBondHelloTuning (g : globals) (hello : BondHello) : result unit :=
  let? _ := validateBondHello hello in
  if Version hello =? BondProtocolV1 then Ok ()
  else
    let '(dataShards, parityShards) := FECShards g in
    if negb (MTU hello =? KCPMtu g) then
      Err (errorf (str "vless bond KCP MTU mismatch: client=" ++ Itoa (MTU hello) ++
                   str " server=" ++ Itoa (KCPMtu g)))
    else if negb (FECDataShards hello =? dataShards) ||
            negb (FECParityShards hello =? parityShards) then
      Err (errorf (str "vless bond FEC mismatch: client=" ++ Itoa (FECDataShards hello) ++
                   str ":" ++ Itoa (FECParityShards hello) ++ str " server=" ++
                   Itoa dataShards ++ str ":" ++ Itoa parityShards))
    else Ok ().

(** ** Printing and parsing *)

Definition space_join (ws : list bytes) : bytes := Join ws (str " ").

(** The words of the line [WriteBondHelloConfig] prints. *)
Definition hello_words (hello : BondHello) : result (list bytes) :=
  if Version hello =? BondProtocolV1 then Ok [bondHelloV1Token; BondID hello]
  else if Version hello =? BondProtocolV2 then
    Ok [bondHelloV2Token; BondID hello; Itoa (ExpectedPaths hello); Itoa (MTU hello);
        Itoa (FECDataShards hello); Itoa (FECParityShards hello)]
  else Err (errorf (str "unsupported vless bond protocol version " ++ Itoa (Version hello))).

(** One round of the loop over [fields[2:]]; the first malformed number ends
    the parse. *)
Definition numeric_field (raw : bytes) : result Z :=
  map_err (errorf_w (str "invalid vless bond V2 numeric field " ++ quote raw ++ str ": ")) (Atoi raw).

(** The source also returns the record it could not validate; its callers drop
    it when the error is set. *)
Definition parseBondHelloLine (line : bytes) : result BondHello :=
  match Fields line with
  | [] => Err (errorf (str "missing vless bond hello"))
  | token :: args =>
      if bool_decide (token = bondHelloV1Token) then
        match args with
        | [id] =>
            let hello := MkBondHello BondProtocolV1 id 0 0 0 0 in
            let? _ := validateBondHello hello in Ok hello
        | _ => Err (errorf (str "invalid vless bond V1 hello field count"))
        end
      else if bool_decide (token = bondHelloV2Token) then
        match args with
        | [id; f2; f3; f4; f5] =>
            let? v0 := numeric_field f2 in
            let? v1 := numeric_field f3 in
            let? v2 := numeric_field f4 in
            let? v3 := numeric_field f5 in
            let hello := MkBondHello BondProtocolV2 id v0 v1 v2 v3 in
            let? _ := validateBondHello hello in Ok hello
        | _ => Err (errorf (str "invalid vless bond V2 hello field count"))
        end
      else Err (errorf (str "unsupported vless bond protocol " ++ quote token))
  end.

(** ** Control records on a connection *)

Section control.
Context `{NetConn C}.

Definition writeBondControlLine (line : bytes) (conn : C) : option goerror * C :=
  let len := Z.of_nat (length line) in
  if (len >? maxBondHelloSize) || negb (HasSuffix line [chr 10]) then
    (Some (errorf (str "invalid vless bond control record length")), conn)
  else
    let '(dlErr, conn) := conn_SetWriteDeadline (Some (5 * Second)) conn in
    match dlErr with
    | Some e => (Some e, conn)
    | None =>
        let '(n, err, conn) := conn_Write line conn in
        let err := match err with
                   | None => if n =? len then None else Some (ioShortWrite n len)
                   | Some e => Some e
                   end in
        let '(resetErr, conn) := conn_SetWriteDeadline None conn in
        (match err with None => resetErr | Some e => Some e end, conn)
    end.

Definition readBondControlLine (timeout : Z) (conn : C) : result bytes * C :=
  let '(dlErr, conn) := conn_SetReadDeadline (Some timeout) conn in
  match dlErr with
  | Some e => (Err e, conn)
  | None =>
      let '(record, err, conn) := conn_Read (Z.to_nat (maxBondHelloSize + 1)) conn in
      let '(resetErr, conn) := conn_SetReadDeadline None conn in
      let err := match err with None => resetErr | Some e => Some e end in
      if Z.of_nat (length record) >? maxBondHelloSize then
        (Err (errorf (str "vless bond control record exceeds " ++ Itoa maxBondHelloSize ++ str " bytes")), conn)
      else
        match err with
        | Some e => (Err e, conn)
        | None =>
            if negb (HasSuffix record [chr 10]) then
              (Err (errorf (str "unterminated vless bond control record")), conn)
            else (Ok (TrimSpace record), conn)
        end
  end.

Definition WriteBondHelloConfig (hello : BondHello) (conn : C) : option goerror * C :=
  match validateBondHello hello with
  | Err e => (Some e, conn)
  | Ok _ =>
      match hello_words hello with
      | Err e => (Some e, conn)
      | Ok ws => writeBondControlLine (space_join ws ++ [chr 10]) conn
      end
  end.

Definition WriteBondHelloAck (conn : C) : option goerror * C :=
  writeBondControlLine bondHelloV2Ack conn.

Definition WriteBondHelloReject (code : bytes) (conn : C) : option goerror * C :=
  if negb (isValidBondRejectionCode code) then
    (Some (errorf (str "invalid vless bond rejection code " ++ quote code)), conn)
  else writeBondControlLine
         (space_join [bondHelloV2Token; bondHelloV2Error; code] ++ [chr 10]) conn.

Definition ReadBondHelloConfig (conn : C) : result BondHello * C :=
  match readBondControlLine (10 * Second) conn with
  | (Err e, conn) => (Err e, conn)
  | (Ok line, conn) => (parseBondHelloLine line, conn)
  end.

Definition ReadBondHelloAck (conn : C) : option goerror * C :=
  match readBondControlLine (5 * Second) conn with
  | (Err e, conn) => (Some e, conn)
  | (Ok line, conn) =>
      if bool_decide (line = TrimSpace bondHelloV2Ack) then (None, conn)
      else
        match Fields line with
        | [f0; f1; f2] =>
            if bool_decide (f0 = bondHelloV2Token) && bool_decide (f1 = bondHelloV2Error) &&
               isValidBondRejectionCode f2
            then (Some (BondHelloRejectionError f2), conn)
            else (Some (errorf (str "unexpected vless bond V2 acknowledgement " ++ quote line)), conn)
        | _ => (Some (errorf (str "unexpected vless bond V2 acknowledgement " ++ quote line)), conn)
        end
  end.

(** The control records only use the connection. *)
Lemma write_line_io line conn r conn' : writeBondControlLine line conn = (r, conn') → rtc conn_io conn conn'.
Proof. unfold writeBondControlLine. repeat case_match; intros; simplify_eq; io_chain. Qed.

Lemma read_line_io timeout conn r conn' : readBondControlLine timeout conn = (r, conn') → rtc conn_io conn conn'.
Proof. unfold readBondControlLine. repeat case_match; intros; simplify_eq; io_chain. Qed.

Lemma read_hello_io conn r conn' : ReadBondHelloConfig conn = (r, conn') → rtc conn_io conn conn'.
Proof. unfold ReadBondHelloConfig. destruct (readBondControlLine _ _) as [[] ?] eqn:E; intros; simplify_eq; by eapply read_line_io. Qed.

Lemma write_ack_io conn r conn' : WriteBondHelloAck conn = (r, conn') → rtc conn_io conn conn'.
Proof. apply write_line_io. Qed.

Lemma write_reject_io code conn r conn' : WriteBondHelloReject code conn = (r, conn') → rtc conn_io conn conn'.
Proof. unfold WriteBondHelloReject. case_match; [by intros [= <- <-]|apply write_line_io]. Qed.
End control.

(** ** Valid records are words *)

Definition hello_ok (h : BondHello) : Prop :=
  isValidBondID (BondID h) = true ∧
  ((Version h = 1 ∧ ExpectedPaths h = 0 ∧ MTU h = 0 ∧ FECDataShards h = 0 ∧ FECParityShards h = 0) ∨
   (Version h = 2 ∧ 1 ≤ ExpectedPaths h ≤ MaxBondPaths ∧
    fec_ok (FECDataShards h) (FECParityShards h) ∧
    minKCPMTU ≤ MTU h ≤ maxKCPMTU (FECDataShards h) (FECParityShards h))).

Lemma validateBondHello_spec h : is_ok (validateBondHello h) = true ↔ hello_ok h.
Proof.
  unfold hello_ok. rewrite <-validateFECShards_spec. unfold validateBondHello, map_err.
  unfold BondProtocolV1, BondProtocolV2.
  destruct (isValidBondID (BondID h)); [|simpl; naive_solver].
  destruct (validateFECShards _ _); simpl; go_cases; simpl; lia.
Qed.

Lemma validateBondHello_ok h : hello_ok h → validateBondHello h = Ok ().
Proof. rewrite <-validateBondHello_spec. by destruct (validateBondHello h) as [[]|]. Qed.

Lemma visible_word_bytes (f : ascii → bool) (w : bytes) :
  (∀ c, f c = true → visible c = true) → forallb f w = true → (0 < length w)%nat → word w.
Proof.
  intros Hf Hw Hlen. split; [by destruct w; simpl in *; [lia|]|].
  apply forallb_Forall in Hw. eapply Forall_impl; [exact Hw|]. exact Hf.
Qed.

Lemma bond_id_word id : isValidBondID id = true → word id ∧ (length id ≤ 64)%nat.
Proof.
  unfold isValidBondID. intros H. case_match; [done|].
  split; [|lia]. apply (visible_word_bytes bond_id_byte); [|done|lia].
  apply forall_byte_impl. by vm_compute.
Qed.

Lemma rejection_code_word c : isValidBondRejectionCode c = true → word c ∧ (length c ≤ 32)%nat.
Proof.
  unfold isValidBondRejectionCode. intros H. case_match; [done|].
  split; [|lia]. apply (visible_word_bytes rejection_code_byte); [|done|lia].
  apply forall_byte_impl. by vm_compute.
Qed.

Lemma token_word s : forallb visible (str s) = true → str s ≠ [] → word (str s).
Proof. intros Hv Hne. split; [done|]. by apply forallb_Forall. Qed.

Ltac words_tac :=
  repeat (apply Forall_cons_2; [first [done | apply word_Itoa]|]); apply Forall_nil_2.

Lemma hello_words_spec h : hello_ok h →
  ∃ ws, hello_words h = Ok ws ∧ ws ≠ [] ∧ Forall word ws ∧
        (length (space_join ws) ≤ 94)%nat.
Proof.
  intros [[Hid Hlen]%bond_id_word Hcase].
  assert (word bondHelloV1Token ∧ word bondHelloV2Token) as [H1 H2]
    by (split; apply token_word; done).
  unfold hello_words. destruct Hcase as [(-> & _)|(-> & HE & HF & HM)].
  - eexists. split; [reflexivity|]. split; [done|]. split; [words_tac|].
    unfold space_join. rewrite !Join_cons2, !length_app. simpl. lia.
  - eexists. split; [reflexivity|]. split; [done|].
    split; [words_tac|].
    unfold space_join. rewrite !Join_cons2, !length_app.
    assert (maxKCPMTU (FECDataShards h) (FECParityShards h) ≤ 1480)
      by (unfold maxKCPMTU; case_match; done).
    unfold minKCPMTU, MaxBondPaths, fec_ok in *.
    pose proof (length_Itoa 2 (ExpectedPaths h)). pose proof (length_Itoa 4 (MTU h)).
    pose proof (length_Itoa 3 (FECDataShards h)). pose proof (length_Itoa 3 (FECParityShards h)).
    simpl in *. lia.
Qed.

Lemma hello_numeric_in_int h : hello_ok h →
  in_int (ExpectedPaths h) ∧ in_int (MTU h) ∧ in_int (FECDataShards h) ∧ in_int (FECParityShards h).
Proof.
  intros [_ Hcase].
  assert (maxKCPMTU (FECDataShards h) (FECParityShards h) ≤ 1480)
    by (unfold maxKCPMTU; case_match; done).
  unfold in_int, two63, fec_ok, minKCPMTU, MaxBondPaths in *. lia.
Qed.

Lemma parse_hello_words h ws :
  hello_ok h → hello_words h = Ok ws → parseBondHelloLine (space_join ws) = Ok h.
Proof.
  intros Hok Hws. destruct (hello_words_spec h Hok) as (ws' & Hws' & _ & Hword & _).
  rewrite Hws in Hws'. injection Hws' as <-.
  unfold parseBondHelloLine, space_join. rewrite Fields_Join by exact Hword.
  destruct (hello_numeric_in_int h Hok) as (HE & HM & HD & HP).
  pose proof (validateBondHello_ok h Hok) as HV.
  destruct h as [v id ep m d p]. destruct Hok as [_ [(E & ? & ? & ? & ?)|(E & _)]]; simpl in *; subst.
  - unfold hello_words in Hws. simpl in Hws. simplify_eq.
    rewrite bool_decide_eq_true_2 by done. unfold BondProtocolV1. by rewrite HV.
  - unfold hello_words in Hws. simpl in Hws. simplify_eq.
    rewrite bool_decide_eq_false_2 by done. rewrite bool_decide_eq_true_2 by done.
    unfold numeric_field. rewrite !Atoi_Itoa by done. cbn [map_err result_bind].
    unfold BondProtocolV2. by rewrite HV.
Qed.

(** What a line means as a hello, independent of how it is parsed. *)
Definition line_denotes (line : bytes) (h : BondHello) : Prop :=
  (Version h = 1 ∧ Fields line = [bondHelloV1Token; BondID h]) ∨
  (Version h = 2 ∧ ∃ f2 f3 f4 f5,
     Fields line = [bondHelloV2Token; BondID h; f2; f3; f4; f5] ∧
     Atoi f2 = Ok (ExpectedPaths h) ∧ Atoi f3 = Ok (MTU h) ∧
     Atoi f4 = Ok (FECDataShards h) ∧ Atoi f5 = Ok (FECParityShards h)).

Lemma validated_ok {A} h (k : unit → result A) r :
  result_bind (validateBondHello h) k = Ok r → hello_ok h ∧ k () = Ok r.
Proof.
  intros ([] & HV & Hk)%result_bind_ok. split; [|done].
  apply validateBondHello_spec. by rewrite HV.
Qed.

Lemma numeric_field_ok {A} raw (k : Z → result A) r :
  result_bind (numeric_field raw) k = Ok r → ∃ v, Atoi raw = Ok v ∧ k v = Ok r.
Proof. by intros (v & Hv%map_err_ok & Hk)%result_bind_ok; exists v. Qed.

Lemma parse_hello_sound line h :
  parseBondHelloLine line = Ok h → hello_ok h ∧ line_denotes line h.
Proof.
  unfold parseBondHelloLine. destruct (Fields line) as [|token args] eqn:EF; [done|].
  case_bool_decide as E1; [|case_bool_decide as E2; [|done]]; subst.
  - destruct args as [|id [|??]]; try done. intros [Hok ?]%validated_ok. simplify_eq.
    split; [done|]. left. by rewrite EF.
  - destruct args as [|id [|f2 [|f3 [|f4 [|f5 [|??]]]]]]; try done.
    intros (v0 & ? & (v1 & ? & (v2 & ? & (v3 & ? & Hv)%numeric_field_ok)%numeric_field_ok
      )%numeric_field_ok)%numeric_field_ok.
    apply validated_ok in Hv as [Hok ?]. simplify_eq. split; [done|]. right.
    rewrite EF. eauto 10.
Qed.

Lemma parse_hello_complete line h :
  hello_ok h → line_denotes line h → parseBondHelloLine line = Ok h.
Proof.
  intros Hok Hd. pose proof (validateBondHello_ok h Hok) as HV. unfold parseBondHelloLine.
  destruct h as [v id ep m d p].
  destruct Hd as [[Ev ->]|(Ev & f2 & f3 & f4 & f5 & -> & E2 & E3 & E4 & E5)];
    cbn [Version BondID ExpectedPaths MTU FECDataShards FECParityShards] in *; subst.
  - destruct Hok as [_ [(_ & ? & ? & ? & ?)|(? & _)]]; simpl in *; [subst|done].
    unfold BondProtocolV1. by rewrite HV.
  - rewrite bool_decide_eq_false_2 by done. rewrite bool_decide_eq_true_2 by done.
    unfold numeric_field. rewrite E2, E3, E4, E5. cbn [map_err result_bind].
    unfold BondProtocolV2. by rewrite HV.
Qed.

(** C3: the parser accepts exactly the lines that spell a valid hello: the
    protocol token, a 8..64 digit hexadecimal id and, for version 2, four
    decimal fields within the profile limits; nothing else is accepted. *)
Theorem parse_hello_exact line h :
  parseBondHelloLine line = Ok h ↔ hello_ok h ∧ line_denotes line h.
Proof.
  split; [apply parse_hello_sound|]. intros [??]. by apply parse_hello_complete.
Qed.

(** ** Records on a datagram connection *)

Lemma write_line_dgram line (c : dgram) :
  (length line ≤ 255)%nat → conn_closed c = false →
  writeBondControlLine (line ++ [chr 10]) c =
    (None, c <| outbox := outbox c ++ [line ++ [chr 10]] |> <| write_deadline := None |>).
Proof.
  intros Hlen Hopen. unfold writeBondControlLine, maxBondHelloSize. cbv zeta.
  rewrite has_suffix_app, length_app. simpl length.
  destruct (Z.gtb_spec (Z.of_nat (length line + 1)) 256); [lia|].
  destruct c as [ib ob rd wd cl]. simpl in *. subst. unfold dgram_write. simpl.
  rewrite length_app. simpl. by rewrite Z.eqb_refl.
Qed.

Lemma read_line_dgram t line rest (c : dgram) :
  tight line → (length line ≤ 255)%nat → conn_closed c = false →
  inbox c = (line ++ [chr 10]) :: rest →
  readBondControlLine t c = (Ok line, c <| inbox := rest |> <| read_deadline := None |>).
Proof.
  intros Ht Hlen Hopen Hin. unfold readBondControlLine, maxBondHelloSize.
  destruct c as [ib ob rd wd cl]. simpl in *. subst. unfold dgram_read. simpl.
  rewrite take_ge by (rewrite length_app; simpl; lia).
  rewrite length_app, has_suffix_app. simpl length.
  destruct (Z.gtb_spec (Z.of_nat (length line + 1)) 256); [lia|].
  by rewrite TrimSpace_tight_newline.
Qed.

(** A record delivered to a peer whose next datagram it is. *)
Definition deliver (from to : dgram) : dgram :=
  to <| inbox := outbox from ++ inbox to |>.

Definition idle_dgram (c : dgram) : Prop := conn_closed c = false ∧ outbox c = [].

Lemma hello_exchange_lemma h client server :
  hello_ok h → idle_dgram client → conn_closed server = false →
  ∃ client', WriteBondHelloConfig h client = (None, client') ∧
    length (outbox client') = 1%nat ∧ write_deadline client' = None ∧
    ReadBondHelloConfig (deliver client' server) =
      (Ok h, server <| read_deadline := None |>).
Proof.
  intros Hok [Hc Ho] Hs. destruct (hello_words_spec h Hok) as (ws & Hws & Hne & Hw & Hlen).
  eexists. unfold WriteBondHelloConfig. rewrite validateBondHello_ok, Hws by done.
  rewrite write_line_dgram by (done || lia). split; [reflexivity|].
  rewrite Ho. do 2 (split; [done|]). unfold ReadBondHelloConfig.
  rewrite (read_line_dgram _ (space_join ws) (inbox server));
    [|by apply tight_words|lia|done|reflexivity].
  rewrite (parse_hello_words h) by done. by destruct server.
Qed.

(** C32: every valid hello crosses the path unchanged: it is written as one
    record of at most 256 bytes, the peer reads back the same hello, no other
    datagram is consumed and both deadlines are cleared. *)
Theorem hello_exchange h client server :
  hello_ok h → idle_dgram client → conn_closed server = false →
  ∃ client', WriteBondHelloConfig h client = (None, client') ∧
    length (outbox client') = 1%nat ∧ write_deadline client' = None ∧
    ReadBondHelloConfig (deliver client' server) =
      (Ok h, server <| read_deadline := None |>).
Proof. apply hello_exchange_lemma. Qed.

Definition sample_hello : BondHello := MkBondHello 2 (str "0123456789abcdef") 4 1200 10 3.

Lemma sample_hello_ok : hello_ok sample_hello.
Proof. by apply validateBondHello_spec. Qed.

Lemma hello_exchange_witness :
  ∃ client', WriteBondHelloConfig sample_hello (fresh_dgram []) = (None, client') ∧
    length (outbox client') = 1%nat ∧ write_deadline client' = None ∧
    ReadBondHelloConfig (deliver client' (fresh_dgram [str "kcp"])) =
      (Ok sample_hello, fresh_dgram [str "kcp"]).
Proof. by apply (hello_exchange sample_hello); [apply sample_hello_ok|..]. Defined.

(** ** The answer to a V2 hello *)

Definition reject_words (code : bytes) : list bytes := [bondHelloV2Token; bondHelloV2Error; code].

Lemma reject_words_spec code : isValidBondRejectionCode code = true →
  Forall word (reject_words code) ∧ (length (space_join (reject_words code)) ≤ 50)%nat.
Proof.
  intros [Hw Hlen]%rejection_code_word. split.
  - unfold reject_words. repeat (apply Forall_cons_2; [first [done | by apply token_word]|]).
    apply Forall_nil_2.
  - unfold space_join, reject_words. rewrite !Join_cons2, !length_app. simpl. lia.
Qed.

Lemma ack_line : bondHelloV2Ack = space_join [bondHelloV2Token; str "OK"] ++ [chr 10].
Proof. reflexivity. Qed.

Lemma ack_words : Forall word [bondHelloV2Token; str "OK"].
Proof. repeat (apply Forall_cons_2; [by apply token_word|]). apply Forall_nil_2. Qed.

(** the client tells the server's three answers apart.  An acknowledgement
    is read as success; a rejection with any valid code is read as a
    [BondHelloRejectionError] carrying exactly that code, which [errors.Is]
    recognises; an invalid code is refused before anything is written. *)
Theorem hello_answer code client server :
  idle_dgram server → conn_closed client = false →
  (let '(err, server') := WriteBondHelloAck server in
   err = None ∧
   ReadBondHelloAck (deliver server' client) = (None, client <| read_deadline := None |>)) ∧
  (let '(err, server') := WriteBondHelloReject code server in
   if isValidBondRejectionCode code then
     err = None ∧
     ReadBondHelloAck (deliver server' client) =
       (Some (BondHelloRejectionError code), client <| read_deadline := None |>) ∧
     errors_is ErrBondHelloRejected (BondHelloRejectionError code) = true
   else is_Some err ∧ server' = server).
Proof.
  intros [Hs Ho] Hc. split.
  - unfold WriteBondHelloAck, ReadBondHelloAck. rewrite ack_line.
    rewrite write_line_dgram by (done || (simpl; lia)). split; [done|].
    rewrite (read_line_dgram _ (space_join [bondHelloV2Token; str "OK"]) (inbox client));
      [|by apply tight_words, ack_words|by simpl; lia|done|by simpl; rewrite Ho].
    rewrite bool_decide_eq_true_2 by done. by destruct client.
  - unfold WriteBondHelloReject, ReadBondHelloAck.
    destruct (isValidBondRejectionCode code) eqn:Hcode; [|by simpl].
    destruct (reject_words_spec code Hcode) as [Hw Hlen]. fold (reject_words code). simpl negb.
    cbv iota. rewrite write_line_dgram by (done || lia). split; [done|]. split; [|done].
    rewrite (read_line_dgram _ (space_join (reject_words code)) (inbox client));
      [|by apply tight_words|lia|done|by simpl; rewrite Ho].
    rewrite bool_decide_eq_false_2 by done. unfold space_join. rewrite Fields_Join by done.
    cbn [reject_words]. rewrite !bool_decide_eq_true_2, Hcode by done. by destruct client.
Qed.

Lemma hello_answer_witness :
  ReadBondHelloAck (deliver (WriteBondHelloReject (str "GROUP_MISMATCH") (fresh_dgram [])).2 (fresh_dgram []))
    = (Some (BondHelloRejectionError (str "GROUP_MISMATCH")), fresh_dgram []).
Proof.
  by apply (hello_answer (str "GROUP_MISMATCH") (fresh_dgram []) (fresh_dgram [])).
Defined.

(** ** Framing *)

(** a control line is accepted only if it arrived as one datagram of at
    most 256 bytes ending in a newline; the datagrams behind it, which belong
    to KCP, stay unread whatever the verdict. *)
Theorem control_line_framing t (c : dgram) d rest :
  conn_closed c = false → inbox c = d :: rest →
  ∃ r, readBondControlLine t c = (r, c <| inbox := rest |> <| read_deadline := None |>) ∧
    ∀ line, r = Ok line ↔ (length d ≤ 256)%nat ∧ HasSuffix d [chr 10] = true ∧ line = TrimSpace d.
Proof.
  intros Hopen Hin. unfold readBondControlLine, maxBondHelloSize.
  destruct c as [ib ob rd wd cl]. simpl in Hopen, Hin. subst.
  cbn [dgram_conn conn_SetReadDeadline conn_Read]. unfold dgram_read.
  cbn [conn_closed inbox outbox read_deadline write_deadline field_update].
  rewrite length_take.
  destruct (Z.gtb_spec (Z.of_nat (Z.to_nat (256 + 1) `min` length d)) 256) as [E|E].
  - eexists. split; [reflexivity|]. intros line. split; [done|]. intros [? _]. lia.
  - rewrite take_ge by lia. destruct (HasSuffix d [chr 10]);
      (eexists; split; [reflexivity|]); intros line.
    + split; [|by intros (_ & _ & ->)]. intros [= <-]. split; [lia|done].
    + split; [done|]. by intros (_ & ? & _).
Qed.

Lemma control_line_framing_witness :
  ∃ r, readBondControlLine Second (fresh_dgram [str "VKTURNBOND/2 OK"; str "kcp"]) =
         (r, fresh_dgram [str "kcp"]) ∧
    ∀ line, r = Ok line ↔ (length (str "VKTURNBOND/2 OK") ≤ 256)%nat ∧
      HasSuffix (str "VKTURNBOND/2 OK") [chr 10] = true ∧ line = TrimSpace (str "VKTURNBOND/2 OK").
Proof. by apply (control_line_framing Second). Defined.

(** ** Profile agreement *)

Lemma current_hello_ok g id n :
  tuning_ok (currentTuningValues g) → isValidBondID id = true → 1 ≤ n ≤ MaxBondPaths →
  hello_ok (CurrentBondHello g id n).
Proof.
  intros (_ & _ & _ & _ & _ & HF & HM & _) Hid Hn. split; [done|]. right.
  do 2 (split; [done|]). by split.
Qed.

(** with valid tuning on both sides, the server accepts the hello the
    client composes exactly when MTU and both FEC shard counts agree; the other
    tuning values may differ. *)
Theorem profile_agreement client server id n :
  tuning_ok (currentTuningValues client) → isValidBondID id = true → 1 ≤ n ≤ MaxBondPaths →
  is_ok (ValidateBondHelloTuning server (CurrentBondHello client id n)) = true ↔
  KCPMtu client = KCPMtu server ∧ FECShards client = FECShards server.
Proof.
  intros Ht Hid Hn. unfold ValidateBondHelloTuning.
  rewrite validateBondHello_ok by by apply current_hello_ok.
  unfold CurrentBondHello, FECShards. cbn -[Z.eqb]. go_cases; reflect_bools.
  all: try (split; [done|]; intros [? ?]; simplify_eq; lia).
  split; [|done]. intros _. split; [lia | f_equal; lia].
Qed.

Lemma profile_agreement_witness :
  is_ok (ValidateBondHelloTuning default_globals
           (CurrentBondHello default_globals (str "0123456789abcdef") 4)) = true.
Proof.
  apply (profile_agreement default_globals default_globals (str "0123456789abcdef") 4).
  - by apply validateTuning_errs_nil.
  - reflexivity.
  - unfold MaxBondPaths. lia.
  - done.
Defined.

End BondHello.
