(* ===== verification/Metrics.v ===== *)
(** * Process metrics (metrics/metrics.go)

    A [*Path] is a location in [path_store], the paths ever opened; the
    registry's map and history hold locations.  The nine traffic counters that
    [Registry] and [Path] both have are one record, [Counters].  An operation
    is one atomic step here: its counter additions commute, and the one loop
    over a compare-and-swap, [updateMaximum], is treated at the level of its
    loads and swaps in the section on concurrent maxima. *)

From S2P Require Import Prelude.

Module Metrics.

Definition recentPathLimit : nat := 128.
Definition writeLatencySampleRate : Z := 64.

Abbreviation loc := nat.

Record Counters := MkCounters {
  bytesRead : Z; bytesWritten : Z; readOperations : Z; writeOperations : Z;
  readErrors : Z; writeErrors : Z; writeLatencySamples : Z;
  writeLatencyTotalNS : Z; writeLatencyMaxNS : Z;
}.

#[export] Instance Counters_eta : Eta Counters := λ c,
  MkCounters (bytesRead c) (bytesWritten c) (readOperations c) (writeOperations c)
    (readErrors c) (writeErrors c) (writeLatencySamples c) (writeLatencyTotalNS c)
    (writeLatencyMaxNS c).

Definition zero_counters : Counters := MkCounters 0 0 0 0 0 0 0 0 0.

Record Path := MkPath {
  id : Z; label : bytes; closed : bool; writeSampleSequence : Z; traffic : Counters;
}.

#[export] Instance Path_eta : Eta Path := λ p,
  MkPath (id p) (label p) (closed p) (writeSampleSequence p) (traffic p).

Record Registry := MkRegistry {
  activeTransportConnections : Z; activeBackendStreams : Z; activePaths : Z;
  activeSessions : Z; connectionLimitRejections : Z; backendLimitRejections : Z;
  pathReconnects : Z; sessionReconnects : Z; authFailures : Z; queueDrops : Z;
  nextPathID : Z; totals : Counters;
  activePathsByID : gmap Z loc; recentPaths : list loc; path_store : list Path;
}.

#[export] Instance Registry_eta : Eta Registry := λ r,
  MkRegistry (activeTransportConnections r) (activeBackendStreams r) (activePaths r)
    (activeSessions r) (connectionLimitRejections r) (backendLimitRejections r)
    (pathReconnects r) (sessionReconnects r) (authFailures r) (queueDrops r)
    (nextPathID r) (totals r) (activePathsByID r) (recentPaths r) (path_store r).

(** The zero value, which is ready to use. *)
Definition zero_registry : Registry :=
  MkRegistry 0 0 0 0 0 0 0 0 0 0 0 zero_counters ∅ [] [].

(** [atomic.Int64.Add] and [atomic.Uint64.Add]. *)
Definition add_int (d z : Z) : Z := wrap_int (z + d).

Lemma add_wrap a b : add_int a (wrap_int b) = wrap_int (b + a).
Proof.
  unfold add_int, wrap_int. f_equal.
  replace ((b + two63) mod two64 - two63 + a + two63) with ((b + two63) mod two64 + a) by lia.
  rewrite Zplus_mod_idemp_l. f_equal. lia.
Qed.
Definition add_uint (d z : Z) : Z := wrap_uint (z + d).

(** ** Gauges and event counters *)

Definition TransportConnectionOpened (r : Registry) := r <| activeTransportConnections ::= add_int 1 |>.
Definition TransportConnectionClosed (r : Registry) := r <| activeTransportConnections ::= add_int (-1) |>.
Definition ConnectionLimitRejected (r : Registry) := r <| connectionLimitRejections ::= add_int 1 |>.
Definition BackendStreamOpened (r : Registry) := r <| activeBackendStreams ::= add_int 1 |>.
Definition BackendStreamClosed (r : Registry) := r <| activeBackendStreams ::= add_int (-1) |>.
Definition BackendLimitRejected (r : Registry) := r <| backendLimitRejections ::= add_int 1 |>.
Definition SessionOpened (r : Registry) := r <| activeSessions ::= add_int 1 |>.
Definition SessionClosed (r : Registry) := r <| activeSessions ::= add_int (-1) |>.
Definition PathReconnected (r : Registry) := r <| pathReconnects ::= add_int 1 |>.
Definition SessionReconnected (r : Registry) := r <| sessionReconnects ::= add_int 1 |>.
Definition AuthFailed (r : Registry) := r <| authFailures ::= add_int 1 |>.
Definition QueueDropped (r : Registry) := r <| queueDrops ::= add_int 1 |>.

(** ** Paths *)

Definition OpenPath (lbl : bytes) (r : Registry) : loc * Registry :=
  let pid := add_uint 1 (nextPathID r) in
  let p := length (path_store r) in
  (p, r <| nextPathID := pid |>
        <| path_store := path_store r ++ [MkPath pid lbl false 0 zero_counters] |>
        <| activePathsByID := <[pid := p]> (activePathsByID r) |>
        <| activePaths ::= add_int 1 |>).

(** Appending to the history, or shifting it when it is full. *)
Definition push_recent (p : loc) (recent : list loc) : list loc :=
  if (length recent <? recentPathLimit)%nat then recent ++ [p] else tail recent ++ [p].

(** [Path.Close]; [None] is a nil path.  Every path of this program has a
    registry. *)
Definition Close (p : option loc) (r : Registry) : Registry :=
  match p with
  | None => r
  | Some p =>
      match path_store r !! p with
      | None => r
      | Some path =>
          if closed path then r
          else
            let r := r <| path_store := <[p := path <| closed := true |>]> (path_store r) |> in
            match activePathsByID r !! id path with
            | None => r
            | Some _ =>
                r <| activePathsByID := delete (id path) (activePathsByID r) |>
                  <| activePaths ::= add_int (-1) |>
                  <| recentPaths ::= push_recent p |>
            end
      end
  end.

(** [p.f.Add(...)] and [p.registry.f.Add(...)]: a counter of a path, and one of
    its registry. *)
Definition on_path (p : loc) (f : Counters → Counters) (r : Registry) : Registry :=
  r <| path_store ::= alter (λ q, q <| traffic ::= f |>) p |>.
Definition on_registry (f : Counters → Counters) (r : Registry) : Registry := r <| totals ::= f |>.

Definition ObserveRead (p : option loc) (n : Z) (err : option goerror) (r : Registry) : Registry :=
  match p with
  | None => r
  | Some p =>
      let r := on_path p (λ c, c <| readOperations ::= add_uint 1 |>) r in
      let r := on_registry (λ c, c <| readOperations ::= add_uint 1 |>) r in
      let r := if n >? 0 then
                 let r := on_path p (λ c, c <| bytesRead ::= add_uint n |>) r in
                 on_registry (λ c, c <| bytesRead ::= add_uint n |>) r
               else r in
      if bool_decide (is_Some err) then
        let r := on_path p (λ c, c <| readErrors ::= add_uint 1 |>) r in
        on_registry (λ c, c <| readErrors ::= add_uint 1 |>) r
      else r
  end.

(** [BeginWrite]: whether this write is sampled. *)
Definition BeginWrite (p : option loc) (r : Registry) : bool * Registry :=
  match p with
  | None => (false, r)
  | Some p =>
      match path_store r !! p with
      | None => (false, r)
      | Some path =>
          let seq := add_uint 1 (writeSampleSequence path) in
          (wrap_uint (seq - 1) mod writeLatencySampleRate =? 0,
           r <| path_store := <[p := path <| writeSampleSequence := seq |>]> (path_store r) |>)
      end
  end.

(** [updateMaximum] run without interference. *)
Definition updateMaximum (value counter : Z) : Z := if value >? counter then value else counter.

Definition observeWriteLatency (p : loc) (elapsed : Z) (r : Registry) : Registry :=
  let elapsed := if elapsed <? 0 then 0 else elapsed in
  let ns := wrap_uint elapsed in
  let r := on_path p (λ c, c <| writeLatencySamples ::= add_uint 1 |>) r in
  let r := on_path p (λ c, c <| writeLatencyTotalNS ::= add_uint ns |>) r in
  let r := on_registry (λ c, c <| writeLatencySamples ::= add_uint 1 |>) r in
  let r := on_registry (λ c, c <| writeLatencyTotalNS ::= add_uint ns |>) r in
  let r := on_path p (λ c, c <| writeLatencyMaxNS ::= updateMaximum ns |>) r in
  on_registry (λ c, c <| writeLatencyMaxNS ::= updateMaximum ns |>) r.

(** [ObserveWrite]; [started] is the elapsed time of a sampled write. *)
Definition ObserveWrite (p : option loc) (started : option Z) (n : Z) (err : option goerror)
  (r : Registry) : Registry :=
  match p with
  | None => r
  | Some p =>
      let r := on_path p (λ c, c <| writeOperations ::= add_uint 1 |>) r in
      let r := on_registry (λ c, c <| writeOperations ::= add_uint 1 |>) r in
      let r := if n >? 0 then
                 let r := on_path p (λ c, c <| bytesWritten ::= add_uint n |>) r in
                 on_registry (λ c, c <| bytesWritten ::= add_uint n |>) r
               else r in
      let r := if bool_decide (is_Some err) then
                 let r := on_path p (λ c, c <| writeErrors ::= add_uint 1 |>) r in
                 on_registry (λ c, c <| writeErrors ::= add_uint 1 |>) r
               else r in
      match started with
      | Some elapsed => observeWriteLatency p elapsed r
      | None => r
      end
  end.

(** ** Snapshots *)

Record PathSnapshot := MkPathSnapshot {
  ID : Z; Label : bytes; Active : bool; BytesRead : Z; BytesWritten : Z;
  ReadOperations : Z; WriteOperations : Z; ReadErrors : Z; WriteErrors : Z;
  WriteLatencySamples : Z; WriteLatencyTotalNanoseconds : Z; WriteLatencyMaxNanoseconds : Z;
}.

Definition snapshot (p : Path) : PathSnapshot :=
  let c := traffic p in
  MkPathSnapshot (id p) (label p) (negb (closed p)) (bytesRead c) (bytesWritten c)
    (readOperations c) (writeOperations c) (readErrors c) (writeErrors c)
    (writeLatencySamples c) (writeLatencyTotalNS c) (writeLatencyMaxNS c).

Definition snap_le (a b : PathSnapshot) : Prop := ID a ≤ ID b.

#[export] Instance snap_le_dec a b : Decision (snap_le a b).
Proof. unfold snap_le. apply _. Defined.

(** The locations a snapshot lists: the map's values, in the order the map
    iteration [order] visits the keys, then the recent history. *)
Definition listed (order : list (Z * loc)) (r : Registry) : list loc :=
  order.*2 ++ recentPaths r.

Definition pathSnapshots_in (order : list (Z * loc)) (r : Registry) : Z * list PathSnapshot :=
  let paths := omap (λ p, snapshot <$> path_store r !! p) (listed order r) in
  (activePaths r, merge_sort snap_le paths).

Definition pathSnapshots (r : Registry) : Z * list PathSnapshot :=
  pathSnapshots_in (map_to_list (activePathsByID r)) r.

(** The fields of [kcp.Snmp] that [snapshotKCP] copies, in its order. *)
Record KCPSnapshot := MkKCPSnapshot {
  ApplicationBytesSent : Z; ApplicationBytesReceived : Z; CurrentSessions : Z;
  MaximumSessions : Z; ActiveOpens : Z; PassiveOpens : Z; InputErrors : Z;
  ChecksumErrors : Z; ProtocolInputErrors : Z; PacketsReceived : Z; PacketsSent : Z;
  SegmentsReceived : Z; SegmentsSent : Z; InputBytes : Z; OutputBytes : Z;
  RetransmittedSegments : Z; FastRetransmittedSegments : Z; EarlyRetransmittedSegments : Z;
  LostSegments : Z; RepeatedSegments : Z; FECRecoveredPackets : Z; FECReportedErrors : Z;
  FECParityShardsReceived : Z; FECFullShardSets : Z; FECIncompleteShardSets : Z;
}.

Definition zero_kcp : KCPSnapshot :=
  MkKCPSnapshot 0 0 0 0 0 0 0 0 0 0 0 0 0 0 0 0 0 0 0 0 0 0 0 0 0.

(** [source.Copy()] is read field by field through [stats]. *)
Definition snapshotKCP (source : option (bytes → Z)) : KCPSnapshot :=
  match source with
  | None => zero_kcp
  | Some stats =>
      MkKCPSnapshot
        (stats (str "BytesSent")) (stats (str "BytesReceived")) (stats (str "CurrEstab"))
        (stats (str "MaxConn")) (stats (str "ActiveOpens")) (stats (str "PassiveOpens"))
        (stats (str "InErrs")) (stats (str "InCsumErrors")) (stats (str "KCPInErrors"))
        (stats (str "InPkts")) (stats (str "OutPkts")) (stats (str "InSegs"))
        (stats (str "OutSegs")) (stats (str "InBytes")) (stats (str "OutBytes"))
        (stats (str "RetransSegs")) (stats (str "FastRetransSegs"))
        (stats (str "EarlyRetransSegs")) (stats (str "LostSegs")) (stats (str "RepeatSegs"))
        (stats (str "FECRecovered")) (stats (str "FECErrs")) (stats (str "FECParityShards"))
        (stats (str "FECFullShardSet")) (stats (str "FECShardSet"))
  end.

(** [Snapshot]: the gauges and counters as loaded, with the path list; the nine
    traffic counters are kept together. *)
Record Snapshot := MkSnapshot {
  ActiveTransportConnections : Z; ActiveBackendStreams : Z; ActivePaths : Z; ActiveSessions : Z;
  ConnectionLimitRejections : Z; BackendLimitRejections : Z; PathReconnects : Z;
  SessionReconnects : Z; AuthFailures : Z; QueueDrops : Z;
  snap_totals : Counters; KCP : KCPSnapshot; Paths : list PathSnapshot;
}.

Definition take_snapshot (kcp : option (bytes → Z)) (r : Registry) : Snapshot :=
  let '(active, paths) := pathSnapshots r in
  MkSnapshot (activeTransportConnections r) (activeBackendStreams r) active (activeSessions r)
    (connectionLimitRejections r) (backendLimitRejections r) (pathReconnects r)
    (sessionReconnects r) (authFailures r) (queueDrops r)
    (totals r) (snapshotKCP kcp) paths.

(** ** Runs of the registry *)

(** The operations that touch gauges and event counters only. *)
Definition gauge_ops : list (Registry → Registry) :=
  [TransportConnectionOpened; TransportConnectionClosed; ConnectionLimitRejected;
   BackendStreamOpened; BackendStreamClosed; BackendLimitRejected; SessionOpened;
   SessionClosed; PathReconnected; SessionReconnected; AuthFailed; QueueDropped].

(** One call on the registry; a path argument is a path that was opened. *)
Inductive step : Registry → Registry → Prop :=
  | step_open lbl r : step r (OpenPath lbl r).2
  | step_close p r : is_Some (path_store r !! p) → step r (Close (Some p) r)
  | step_read p n err r : is_Some (path_store r !! p) → step r (ObserveRead (Some p) n err r)
  | step_begin p r : is_Some (path_store r !! p) → step r (BeginWrite (Some p) r).2
  | step_write p st n err r :
      is_Some (path_store r !! p) → step r (ObserveWrite (Some p) st n err r)
  | step_gauge f r : f ∈ gauge_ops → step r (f r).

Definition reachable (r : Registry) : Prop := rtc step zero_registry r.

(** *** Locations, ids and the two collections *)

Record paths_inv (r : Registry) : Prop := {
  inv_next : nextPathID r = Z.of_nat (length (path_store r));
  inv_ids p path : path_store r !! p = Some path → id path = Z.of_nat p + 1;
  inv_active k p : activePathsByID r !! k = Some p ↔
    k = Z.of_nat p + 1 ∧ ∃ path, path_store r !! p = Some path ∧ closed path = false;
  inv_gauge : activePaths r = Z.of_nat (size (activePathsByID r));
  inv_recent_bound : (length (recentPaths r) ≤ recentPathLimit)%nat;
  inv_recent_nodup : NoDup (recentPaths r);
  inv_recent_closed p : p ∈ recentPaths r →
    ∃ path, path_store r !! p = Some path ∧ closed path = true;
}.

Definition opens_bounded (r : Registry) : Prop := Z.of_nat (length (path_store r)) < two63.

(** A state with the same collections, whose paths differ in counters only. *)
Definition same_paths (r r' : Registry) : Prop :=
  nextPathID r' = nextPathID r ∧ activePaths r' = activePaths r ∧
  activePathsByID r' = activePathsByID r ∧ recentPaths r' = recentPaths r ∧
  (λ q, (id q, closed q)) <$> path_store r' = (λ q, (id q, closed q)) <$> path_store r.

Lemma same_paths_lookup r r' p : same_paths r r' →
  (λ q, (id q, closed q)) <$> (path_store r' !! p) = (λ q, (id q, closed q)) <$> (path_store r !! p).
Proof. intros (_ & _ & _ & _ & E). by rewrite <-!list_lookup_fmap, E. Qed.

Lemma same_paths_inv r r' : same_paths r r' → paths_inv r → paths_inv r'.
Proof.
  intros Hs [H1 H2 H3 H4 H5 H6 H7].
  pose proof (same_paths_lookup r r') as Hl. destruct Hs as (E1 & E2 & E3 & E4 & E5).
  assert (length (path_store r') = length (path_store r)) as Hlen.
  { apply (f_equal length) in E5. by rewrite !length_fmap in E5. }
  assert (∀ p q', path_store r' !! p = Some q' →
    ∃ q, path_store r !! p = Some q ∧ id q = id q' ∧ closed q = closed q') as Hback.
  { intros p q' Hq'. specialize (Hl p (conj E1 (conj E2 (conj E3 (conj E4 E5))))).
    rewrite Hq' in Hl. destruct (path_store r !! p) as [q|]; [|done].
    simpl in Hl. injection Hl as ??. by exists q. }
  assert (∀ p q, path_store r !! p = Some q →
    ∃ q', path_store r' !! p = Some q' ∧ id q = id q' ∧ closed q = closed q') as Hforth.
  { intros p q Hq. specialize (Hl p (conj E1 (conj E2 (conj E3 (conj E4 E5))))).
    rewrite Hq in Hl. destruct (path_store r' !! p) as [q'|]; [|done].
    simpl in Hl. injection Hl as ??. by exists q'. }
  constructor.
  - by rewrite E1, Hlen.
  - intros p q' (q & Hq & <- & _)%Hback. by apply H2.
  - intros k p. rewrite E3, H3. split; intros (? & q & Hq & ?); (split; [done|]).
    + apply Hforth in Hq as (q' & ? & _ & ?). exists q'. split; [done|congruence].
    + apply Hback in Hq as (q' & ? & _ & ?). exists q'. split; [done|congruence].
  - by rewrite E2, E3.
  - by rewrite E4.
  - by rewrite E4.
  - intros p. rewrite E4. intros (q & (q' & ? & _ & ?)%Hforth & ?)%H7.
    exists q'. split; [done|congruence].
Qed.

Lemma same_paths_refl r : same_paths r r.
Proof. done. Qed.

Lemma same_paths_trans r1 r2 r3 : same_paths r1 r2 → same_paths r2 r3 → same_paths r1 r3.
Proof. unfold same_paths. naive_solver congruence. Qed.

(** A counter of a path and the same one of its registry. *)
Definition both (p : loc) (f : Counters → Counters) (r : Registry) : Registry :=
  on_registry f (on_path p f r).

Definition both_if (b : bool) (p : loc) (f : Counters → Counters) (r : Registry) : Registry :=
  if b then both p f r else r.

(** The additions of an observation, paired. *)
Lemma ObserveRead_both p n err r : ObserveRead (Some p) n err r =
  both_if (bool_decide (is_Some err)) p (λ c, c <| readErrors ::= add_uint 1 |>)
    (both_if (n >? 0) p (λ c, c <| bytesRead ::= add_uint n |>)
      (both p (λ c, c <| readOperations ::= add_uint 1 |>) r)).
Proof. reflexivity. Qed.

Lemma latency_both p elapsed r :
  let ns := wrap_uint (if elapsed <? 0 then 0 else elapsed) in
  observeWriteLatency p elapsed r =
  both p (λ c, c <| writeLatencyMaxNS ::= updateMaximum ns |>)
    (both p (λ c, c <| writeLatencyTotalNS ::= add_uint ns |>)
      (both p (λ c, c <| writeLatencySamples ::= add_uint 1 |>) r)).
Proof. reflexivity. Qed.

Lemma ObserveWrite_both p st n err r : ObserveWrite (Some p) st n err r =
  let r' := both_if (bool_decide (is_Some err)) p (λ c, c <| writeErrors ::= add_uint 1 |>)
    (both_if (n >? 0) p (λ c, c <| bytesWritten ::= add_uint n |>)
      (both p (λ c, c <| writeOperations ::= add_uint 1 |>) r)) in
  match st with Some elapsed => observeWriteLatency p elapsed r' | None => r' end.
Proof. reflexivity. Qed.

Lemma same_paths_both p f r : same_paths r (both p f r).
Proof.
  repeat split. simpl. apply list_eq. intros i. rewrite !list_lookup_fmap.
  destruct (decide (i = p)) as [->|].
  - rewrite list_lookup_alter_eq. by destruct (path_store r !! p).
  - by rewrite list_lookup_alter_ne.
Qed.

Lemma same_paths_both_if b p f r : same_paths r (both_if b p f r).
Proof. destruct b; [apply same_paths_both | done]. Qed.

Lemma same_paths_ObserveRead p n err r : same_paths r (ObserveRead (Some p) n err r).
Proof.
  rewrite ObserveRead_both. eapply same_paths_trans; [|apply same_paths_both_if].
  eapply same_paths_trans; [|apply same_paths_both_if]. apply same_paths_both.
Qed.

Lemma same_paths_ObserveWrite p st n err r : same_paths r (ObserveWrite (Some p) st n err r).
Proof.
  rewrite ObserveWrite_both. cbv zeta. assert (∀ r, same_paths r
    match st with Some e => observeWriteLatency p e r | None => r end) as Hst.
  { intros r0. destruct st as [e|]; [|done]. rewrite latency_both. cbv zeta.
    do 2 (eapply same_paths_trans; [|apply same_paths_both]). apply same_paths_both. }
  eapply same_paths_trans; [|apply Hst].
  do 2 (eapply same_paths_trans; [|apply same_paths_both_if]). apply same_paths_both.
Qed.

Lemma same_paths_BeginWrite p r : same_paths r (BeginWrite (Some p) r).2.
Proof.
  unfold BeginWrite. destruct (path_store r !! p) as [path|] eqn:E; [|done].
  repeat split. simpl. apply list_eq. intros i. rewrite !list_lookup_fmap.
  destruct (decide (i = p)) as [->|].
  - rewrite list_lookup_insert_eq by by eapply lookup_lt_Some. by rewrite E.
  - by rewrite list_lookup_insert_ne.
Qed.

Lemma same_paths_gauge f r : f ∈ gauge_ops → same_paths r (f r).
Proof.
  intros Hf. unfold gauge_ops in Hf.
  repeat (apply elem_of_cons in Hf as [->|Hf]; [done|]). by apply not_elem_of_nil in Hf.
Qed.

Lemma lookup_snoc_Some {A} (l : list A) x i y :
  (l ++ [x]) !! i = Some y ↔ l !! i = Some y ∨ (i = length l ∧ x = y).
Proof.
  rewrite lookup_app_Some, list_lookup_singleton_Some. split.
  - intros [?|(? & ? & ?)]; [by left|right]. split; [lia|done].
  - intros [?|[-> ->]]; [by left|right]. split_and!; [lia|lia|done].
Qed.

Lemma active_size r : paths_inv r → (size (activePathsByID r) ≤ length (path_store r))%nat.
Proof.
  intros [_ _ H3 _ _ _ _]. rewrite <-size_dom.
  trans (size (list_to_set (C := gset Z) (seqZ 1 (Z.of_nat (length (path_store r)))))).
  - apply subseteq_size. intros k [p (-> & path & Hp%lookup_lt_Some & _)%H3]%elem_of_dom.
    apply elem_of_list_to_set, elem_of_seqZ. lia.
  - rewrite size_list_to_set by apply NoDup_seqZ. rewrite length_seqZ. lia.
Qed.

Lemma paths_inv_OpenPath lbl r :
  opens_bounded (OpenPath lbl r).2 → paths_inv r → paths_inv (OpenPath lbl r).2.
Proof.
  unfold opens_bounded. simpl. rewrite length_app. simpl. intros Hb Hinv.
  pose proof (active_size r Hinv) as Hsize. destruct Hinv as [H1 H2 H3 H4 H5 H6 H7].
  assert (add_uint 1 (nextPathID r) = Z.of_nat (length (path_store r)) + 1) as Eid.
  { unfold add_uint. rewrite wrap_uint_id; [lia|]. unfold in_uint, two63, two64 in *. lia. }
  assert (activePathsByID r !! (Z.of_nat (length (path_store r)) + 1) = None) as Hfresh.
  { apply eq_None_not_Some. intros [p (? & path & Hp & _)%H3].
    apply lookup_lt_Some in Hp. lia. }
  constructor; simpl; rewrite ?Eid.
  - rewrite length_app. simpl. lia.
  - intros p path [Hp|[-> <-]]%lookup_snoc_Some; [by apply H2|done].
  - intros k p. rewrite lookup_insert_Some, H3. setoid_rewrite lookup_snoc_Some. split.
    + intros [[<- <-]|(Hk & -> & path & Hp & ?)]; (split; [done|]); eauto.
    + intros (-> & path & [Hp|[-> <-]] & ?); [|by left].
      right. split; [apply lookup_lt_Some in Hp; lia|]. eauto.
  - rewrite map_size_insert_None by done. unfold add_int. rewrite wrap_int_id; [lia|].
    unfold in_int, two63 in *. lia.
  - done.
  - done.
  - intros p (path & Hp & ?)%H7. exists path. split; [|done]. apply lookup_snoc_Some. by left.
Qed.

Lemma push_recent_spec p l : (length l ≤ recentPathLimit)%nat → NoDup l → p ∉ l →
  (length (push_recent p l) ≤ recentPathLimit)%nat ∧ NoDup (push_recent p l) ∧
  ∀ q, q ∈ push_recent p l → q = p ∨ q ∈ l.
Proof.
  unfold push_recent. intros Hl Hnd Hp. destruct (Nat.ltb_spec (length l) recentPathLimit).
  - rewrite length_app. split_and!; [simpl; lia| |set_solver].
    rewrite NoDup_app. split_and!; [done|set_solver|apply NoDup_singleton].
  - assert (∃ x l', l = x :: l') as (x & l' & ->) by (destruct l; [simpl in *; unfold recentPathLimit in *; lia|eauto]).
    apply NoDup_cons in Hnd as [? Hnd]. simpl in *. rewrite length_app.
    split_and!; [simpl; lia| |set_solver].
    rewrite NoDup_app. split_and!; [done|set_solver|apply NoDup_singleton].
Qed.

(** Closing a path that is open, in a state that satisfies the invariant. *)
Lemma Close_open r p path :
  paths_inv r → path_store r !! p = Some path → closed path = false →
  Close (Some p) r =
    r <| path_store := <[p := path <| closed := true |>]> (path_store r) |>
      <| activePathsByID := delete (Z.of_nat p + 1) (activePathsByID r) |>
      <| activePaths ::= add_int (-1) |> <| recentPaths ::= push_recent p |>.
Proof.
  intros Hinv Hp Hc. unfold Close. rewrite Hp, Hc. simpl.
  rewrite (inv_ids r Hinv p path Hp).
  assert (activePathsByID r !! (Z.of_nat p + 1) = Some p) as ->; [|done].
  apply (inv_active r Hinv). eauto.
Qed.

Lemma paths_inv_Close p r : opens_bounded r → paths_inv r → paths_inv (Close (Some p) r).
Proof.
  intros Hb Hinv. destruct (path_store r !! p) as [path|] eqn:Hp; last first.
  { unfold Close. by rewrite Hp. }
  destruct (closed path) eqn:Hc; [by unfold Close; rewrite Hp, Hc|].
  rewrite (Close_open _ _ _ Hinv Hp Hc). pose proof (active_size r Hinv) as Hsize.
  destruct Hinv as [H1 H2 H3 H4 H5 H6 H7].
  assert (activePathsByID r !! (Z.of_nat p + 1) = Some p) as Hact by (apply H3; eauto).
  destruct (push_recent_spec p (recentPaths r) H5 H6) as (R1 & R2 & R3).
  { intros (q & ? & ?)%H7. congruence. }
  constructor; simpl; rewrite ?length_insert; try done.
  - intros q path'. rewrite list_lookup_insert_Some.
    intros [(<- & <- & _)|[? ?]]; [exact (H2 p path Hp)|by apply H2].
  - intros k q. rewrite lookup_delete_Some, H3. split.
    + intros (Hk & -> & path' & Hq & ?). split; [done|].
      exists path'. rewrite list_lookup_insert_ne by (intros ->; lia). done.
    + intros (-> & path' & Hq & Hc'). rewrite list_lookup_insert_Some in Hq.
      destruct Hq as [(<- & <- & _)|[? ?]]; [done|]. split; [lia|]. eauto.
  - rewrite map_size_delete_Some by eauto. unfold add_int, opens_bounded, two63 in *.
    assert (size (activePathsByID r) ≠ 0%nat).
    { intros E%map_size_empty_inv. rewrite E in Hact. by rewrite lookup_empty in Hact. }
    rewrite wrap_int_id; [lia|]. unfold in_int, two63. lia.
  - intros q [->|Hq]%R3.
    + exists (path <| closed := true |>). split; [|done].
      apply list_lookup_insert_eq. by eapply lookup_lt_Some.
    + destruct (H7 q Hq) as (path' & ? & ?). exists path'. split; [|done].
      rewrite list_lookup_insert_ne; [done|]. intros ->. congruence.
Qed.

Lemma length_Close p r : length (path_store (Close p r)) = length (path_store r).
Proof.
  unfold Close. destruct p as [p|]; [|done]. repeat case_match; simpl; by rewrite ?length_insert.
Qed.

Lemma paths_inv_zero : paths_inv zero_registry.
Proof.
  constructor; simpl; try done; try lia.
  - intros k p. rewrite lookup_empty. split; [done|]. intros (_ & ? & ? & _). done.
  - constructor.
  - intros p ?%elem_of_nil. done.
Qed.

Lemma step_opens r r' : step r r' → opens_bounded r' → opens_bounded r.
Proof.
  unfold opens_bounded. intros Hs.
  assert (length (path_store r) ≤ length (path_store r'))%nat; [|lia].
  assert (∀ r r', same_paths r r' → length (path_store r) ≤ length (path_store r'))%nat as Hsame.
  { intros ?? (_ & _ & _ & _ & E%(f_equal length)). rewrite !length_fmap in E. lia. }
  destruct Hs; [simpl; rewrite length_app; lia| |eapply Hsame;
    first [apply same_paths_ObserveRead | apply same_paths_BeginWrite
          | apply same_paths_ObserveWrite | by apply same_paths_gauge]..].
  unfold Close. go_cases; simpl; rewrite ?length_insert; lia.
Qed.

Lemma paths_inv_step r r' : step r r' → opens_bounded r' → paths_inv r → paths_inv r'.
Proof.
  intros Hs Hb. pose proof (step_opens _ _ Hs Hb) as Hb'.
  destruct Hs; [by apply paths_inv_OpenPath|by apply paths_inv_Close|apply same_paths_inv..].
  - apply same_paths_ObserveRead.
  - apply same_paths_BeginWrite.
  - apply same_paths_ObserveWrite.
  - by apply same_paths_gauge.
Qed.

Lemma reachable_inv r : reachable r → opens_bounded r → paths_inv r.
Proof.
  unfold reachable. revert r. apply (rtc_ind_r (λ r, opens_bounded r → paths_inv r)).
  - intros _. apply paths_inv_zero.
  - intros r r' _ Hs IH Hb. eapply paths_inv_step; [done..|]. apply IH. by eapply step_opens.
Qed.

(** in every run that opens fewer than 2^63 paths, the active-path gauge
    equals the number of registered paths, the registered paths are exactly the
    open ones under their own unique ids, and the closed ones are remembered at
    most once each in a history of at most 128 entries. *)
Theorem registry_invariant r : reachable r → opens_bounded r → paths_inv r.
Proof. apply reachable_inv. Qed.

Definition one_path : Registry := (OpenPath (str "vless-bond") zero_registry).2.

Lemma one_path_reachable : reachable one_path.
Proof. apply rtc_once. constructor. Qed.

Lemma registry_invariant_witness : paths_inv (Close (Some 0%nat) one_path).
Proof.
  apply registry_invariant; [|done].
  eapply rtc_r; [apply one_path_reachable|]. constructor. by eexists.
Defined.

(** *** Traffic is conserved *)

Definition path_sum (f : Counters → Z) (r : Registry) : Z :=
  foldr (λ q z, f (traffic q) + z) 0 (path_store r).

(** [f] is changed by [g] by adding a fixed amount, or not at all. *)
Definition adds (f : Counters → Z) (g : Counters → Counters) : Prop :=
  (∀ c, f (g c) = f c) ∨ ∃ d, ∀ c, f (g c) = wrap_uint (f c + d).

Definition additive_fields : list (Counters → Z) :=
  [bytesRead; bytesWritten; readOperations; writeOperations; readErrors; writeErrors;
   writeLatencySamples; writeLatencyTotalNS].

Definition conserved (f : Counters → Z) (r : Registry) : Prop :=
  f (totals r) = wrap_uint (path_sum f r).

Lemma sum_alter (f : Counters → Z) (g : Counters → Counters) (d : Z) p (l : list Path) :
  (∀ c, ∃ k, f (g c) = f c + d + k * two64) → is_Some (l !! p) →
  ∃ k, foldr (λ q z, f (traffic q) + z) 0 (alter (λ q, q <| traffic ::= g |>) p l) =
       foldr (λ q z, f (traffic q) + z) 0 l + d + k * two64.
Proof.
  intros Hf. revert p. induction l as [|q l IH]; intros p Hp.
  { rewrite lookup_nil in Hp. by destruct Hp. }
  destruct p as [|p].
  - simpl. destruct (Hf (traffic q)) as [k ->]. exists k. lia.
  - destruct (IH p Hp) as [k E]. exists k.
    change (alter ?h (S p) (q :: l)) with (q :: alter h p l). cbn [foldr]. rewrite E. lia.
Qed.

Lemma wrap_uint_shift z k : wrap_uint (z + k * two64) = wrap_uint z.
Proof. unfold wrap_uint. by rewrite Z.mod_add. Qed.

Lemma wrap_uint_split z : ∃ k, wrap_uint z = z + k * two64.
Proof.
  exists (- (z / two64)). unfold wrap_uint. rewrite Z.mod_eq by done. lia.
Qed.

Lemma wrap_uint_add z d : wrap_uint (wrap_uint z + d) = wrap_uint (z + d).
Proof. unfold wrap_uint. by rewrite Zplus_mod_idemp_l. Qed.

Lemma both_store p g r :
  path_store (both p g r) = alter (λ q, q <| traffic ::= g |>) p (path_store r).
Proof. reflexivity. Qed.

Lemma both_totals p g r : totals (both p g r) = g (totals r).
Proof. reflexivity. Qed.

Lemma conserved_both f g p r :
  adds f g → is_Some (path_store r !! p) → conserved f r → conserved f (both p g r).
Proof.
  unfold conserved, path_sum. intros Hadd Hp Hc. rewrite both_store, both_totals.
  destruct Hadd as [Hid|[d Hd]].
  - destruct (sum_alter f g 0 p (path_store r)) as [k ->]; [|done|].
    { intros c. exists 0. rewrite Hid. lia. }
    by rewrite wrap_uint_shift, Hid, Hc, Z.add_0_r.
  - destruct (sum_alter f g d p (path_store r)) as [k ->]; [|done|].
    { intros c. rewrite Hd. destruct (wrap_uint_split (f c + d)) as [k ->]. by exists k. }
    by rewrite wrap_uint_shift, Hd, Hc, wrap_uint_add.
Qed.

Lemma both_lookup p g r q : is_Some (path_store r !! q) → is_Some (path_store (both p g r) !! q).
Proof.
  intros [x Hx]. simpl. destruct (decide (q = p)) as [->|].
  - rewrite list_lookup_alter_eq, Hx. by eexists.
  - rewrite list_lookup_alter_ne by done. by eexists.
Qed.

(** A property kept by [both], on a path that was opened. *)
Definition keeps (P : Registry → Prop) (p : loc) (g : Counters → Counters) : Prop :=
  ∀ r, is_Some (path_store r !! p) → P r → P (both p g r).

Lemma keeps_if (P : Registry → Prop) b p g r :
  keeps P p g → is_Some (path_store r !! p) ∧ P r →
  is_Some (path_store (both_if b p g r) !! p) ∧ P (both_if b p g r).
Proof.
  intros Hk [Hp HP]. destruct b; [|done]. split; [by apply both_lookup|by apply Hk].
Qed.

Lemma keeps_ObserveRead (P : Registry → Prop) p n err r :
  keeps P p (λ c, c <| readOperations ::= add_uint 1 |>) →
  keeps P p (λ c, c <| bytesRead ::= add_uint n |>) →
  keeps P p (λ c, c <| readErrors ::= add_uint 1 |>) →
  is_Some (path_store r !! p) → P r → P (ObserveRead (Some p) n err r).
Proof.
  intros H1 H2 H3 Hp HP. rewrite ObserveRead_both.
  apply (keeps_if P _ _ _ _ H3), (keeps_if P _ _ _ _ H2), (keeps_if P true _ _ _ H1). done.
Qed.

Lemma keeps_ObserveWrite (P : Registry → Prop) p st n err r :
  keeps P p (λ c, c <| writeOperations ::= add_uint 1 |>) →
  keeps P p (λ c, c <| bytesWritten ::= add_uint n |>) →
  keeps P p (λ c, c <| writeErrors ::= add_uint 1 |>) →
  keeps P p (λ c, c <| writeLatencySamples ::= add_uint 1 |>) →
  (∀ ns, keeps P p (λ c, c <| writeLatencyTotalNS ::= add_uint ns |>)) →
  (∀ ns, keeps P p (λ c, c <| writeLatencyMaxNS ::= updateMaximum (wrap_uint ns) |>)) →
  is_Some (path_store r !! p) → P r → P (ObserveWrite (Some p) st n err r).
Proof.
  intros H1 H2 H3 H4 H5 H6 Hp HP. rewrite ObserveWrite_both. cbv zeta.
  assert (∀ r, is_Some (path_store r !! p) ∧ P r →
    P match st with Some e => observeWriteLatency p e r | None => r end) as Hst.
  { intros r' Hr'. destruct st as [e|]; [|apply Hr']. rewrite latency_both. cbv zeta.
    apply (keeps_if P true _ _ _ (H6 _)), (keeps_if P true _ _ _ (H5 _)),
      (keeps_if P true _ _ _ H4). done. }
  apply Hst, (keeps_if P _ _ _ _ H3), (keeps_if P _ _ _ _ H2), (keeps_if P true _ _ _ H1). done.
Qed.

(** Steps that leave the traffic counters alone. *)
Definition same_traffic (r r' : Registry) : Prop :=
  totals r' = totals r ∧ (traffic <$> path_store r') = (traffic <$> path_store r).

Lemma path_sum_fmap f r : path_sum f r = foldr (λ c z, f c + z) 0 (traffic <$> path_store r).
Proof. unfold path_sum. by induction (path_store r) as [|q l IH]; simpl; [|rewrite IH]. Qed.

Lemma same_traffic_insert r p path path' :
  path_store r !! p = Some path → traffic path' = traffic path →
  traffic <$> <[p := path']> (path_store r) = traffic <$> path_store r.
Proof. intros Hp Ht. rewrite list_fmap_insert, Ht. apply list_insert_id. by rewrite list_lookup_fmap, Hp. Qed.

Lemma same_traffic_Close p r : same_traffic r (Close (Some p) r).
Proof.
  unfold Close. destruct (path_store r !! p) as [path|] eqn:Hp; [|done].
  destruct (closed path); [done|].
  split; [by case_match|]. case_match; simpl; by eapply same_traffic_insert.
Qed.

Lemma same_traffic_BeginWrite p r : same_traffic r (BeginWrite (Some p) r).2.
Proof.
  unfold BeginWrite. destruct (path_store r !! p) as [path|] eqn:Hp; [|done].
  split; [done|]. simpl. by eapply same_traffic_insert.
Qed.

Lemma same_traffic_gauge f r : f ∈ gauge_ops → same_traffic r (f r).
Proof.
  intros Hf. unfold gauge_ops in Hf.
  repeat (apply elem_of_cons in Hf as [->|Hf]; [done|]). by apply not_elem_of_nil in Hf.
Qed.

(** Any property of the traffic that opening a path and every counter update
    keep holds in every reachable state. *)
Lemma traffic_induction (P : Registry → Prop) :
  P zero_registry →
  (∀ r r', same_traffic r r' → P r → P r') →
  (∀ lbl r, P r → P (OpenPath lbl r).2) →
  (∀ p n,
    keeps P p (λ c, c <| readOperations ::= add_uint 1 |>) ∧
    keeps P p (λ c, c <| bytesRead ::= add_uint n |>) ∧
    keeps P p (λ c, c <| readErrors ::= add_uint 1 |>) ∧
    keeps P p (λ c, c <| writeOperations ::= add_uint 1 |>) ∧
    keeps P p (λ c, c <| bytesWritten ::= add_uint n |>) ∧
    keeps P p (λ c, c <| writeErrors ::= add_uint 1 |>) ∧
    keeps P p (λ c, c <| writeLatencySamples ::= add_uint 1 |>) ∧
    keeps P p (λ c, c <| writeLatencyTotalNS ::= add_uint n |>) ∧
    keeps P p (λ c, c <| writeLatencyMaxNS ::= updateMaximum (wrap_uint n) |>)) →
  ∀ r, reachable r → P r.
Proof.
  intros H0 Hsame Hopen Hupd. unfold reachable. apply (rtc_ind_r P); [done|].
  intros r r' _ Hs HP. destruct Hs as [|p r Hp|p n err r Hp|p r Hp|p st n err r Hp|f r Hf].
  - by apply Hopen.
  - eapply Hsame; [apply same_traffic_Close|done].
  - apply keeps_ObserveRead; try done; apply (Hupd p n).
  - eapply Hsame; [apply same_traffic_BeginWrite|done].
  - apply keeps_ObserveWrite; try done; try apply (Hupd p n); intros ns; apply (Hupd p ns).
  - eapply Hsame; [by apply same_traffic_gauge|done].
Qed.

Lemma conserved_reachable f r : f ∈ additive_fields → reachable r → conserved f r.
Proof.
  intros Hf. apply traffic_induction.
  - unfold additive_fields in Hf.
    repeat (apply elem_of_cons in Hf as [->|Hf]; [done|]). by apply not_elem_of_nil in Hf.
  - intros r0 r' [Ht Hp]. unfold conserved. by rewrite !path_sum_fmap, Ht, Hp.
  - intros lbl r0. unfold conserved. rewrite !path_sum_fmap. simpl.
    rewrite fmap_app, foldr_app. simpl. intros ->.
    assert (f zero_counters + 0 = 0) as ->; [|done].
    unfold additive_fields in Hf.
    repeat (apply elem_of_cons in Hf as [->|Hf]; [done|]). by apply not_elem_of_nil in Hf.
  - intros p n. split_and!; intros r0 Hp; apply conserved_both; try done.
    all: unfold additive_fields in Hf;
      repeat (apply elem_of_cons in Hf as [->|Hf];
        [first [by left | right; eexists; reflexivity]|]); by apply not_elem_of_nil in Hf.
Qed.

Definition path_max (r : Registry) : Z :=
  foldr (λ q z, Z.max (writeLatencyMaxNS (traffic q)) z) 0 (path_store r).

Lemma updateMaximum_max v c : updateMaximum v c = Z.max c v.
Proof. unfold updateMaximum. case_match; lia. Qed.

Lemma path_max_fmap r :
  path_max r = foldr (λ c z, Z.max (writeLatencyMaxNS c) z) 0 (traffic <$> path_store r).
Proof. unfold path_max. by induction (path_store r) as [|q l IH]; simpl; [|rewrite IH]. Qed.

Lemma max_alter (g : Counters → Counters) v p (l : list Path) :
  (∀ c, writeLatencyMaxNS (g c) = Z.max (writeLatencyMaxNS c) v) → is_Some (l !! p) →
  foldr (λ q z, Z.max (writeLatencyMaxNS (traffic q)) z) 0 (alter (λ q, q <| traffic ::= g |>) p l) =
  Z.max (foldr (λ q z, Z.max (writeLatencyMaxNS (traffic q)) z) 0 l) v.
Proof.
  intros Hg. revert p. induction l as [|q l IH]; intros p Hp.
  { rewrite lookup_nil in Hp. by destruct Hp. }
  destruct p as [|p].
  - simpl. rewrite Hg. lia.
  - change (alter ?h (S p) (q :: l)) with (q :: alter h p l). cbn [foldr].
    rewrite (IH p Hp). lia.
Qed.

Lemma max_alter_id (g : Counters → Counters) p (l : list Path) :
  (∀ c, writeLatencyMaxNS (g c) = writeLatencyMaxNS c) →
  foldr (λ q z, Z.max (writeLatencyMaxNS (traffic q)) z) 0 (alter (λ q, q <| traffic ::= g |>) p l) =
  foldr (λ q z, Z.max (writeLatencyMaxNS (traffic q)) z) 0 l.
Proof.
  intros Hg. revert p. induction l as [|q l IH]; intros [|p]; [done|done| |].
  - simpl. by rewrite Hg.
  - change (alter ?h (S p) (q :: l)) with (q :: alter h p l). cbn [foldr]. by rewrite IH.
Qed.

Lemma max_both (g : Counters → Counters) p r :
  (∀ c, writeLatencyMaxNS (g c) = writeLatencyMaxNS c) ∨
  (∃ v, ∀ c, writeLatencyMaxNS (g c) = Z.max (writeLatencyMaxNS c) v) →
  is_Some (path_store r !! p) →
  writeLatencyMaxNS (totals r) = path_max r →
  writeLatencyMaxNS (totals (both p g r)) = path_max (both p g r).
Proof.
  intros Hg Hp HP. unfold path_max. rewrite both_store, both_totals. destruct Hg as [Hid|[v Hv]].
  - by rewrite Hid, HP, max_alter_id.
  - by rewrite Hv, HP, (max_alter g v).
Qed.

Lemma max_reachable r : reachable r → writeLatencyMaxNS (totals r) = path_max r.
Proof.
  apply (traffic_induction (λ r, writeLatencyMaxNS (totals r) = path_max r)).
  - done.
  - intros r0 r' [Ht Hp]. by rewrite !path_max_fmap, Ht, Hp.
  - intros lbl r0. rewrite !path_max_fmap. simpl. by rewrite fmap_app, foldr_app.
  - intros p n. split_and!; intros r0; apply max_both;
      first [by left | right; exists (wrap_uint n); intros c; apply updateMaximum_max].
Qed.

(** *** What the paths observed

    The reads and writes reported to the paths, in order, and what the counters
    should say of them. *)

Inductive observation :=
  | SeenRead (p : loc) (n : Z) (err : option goerror)
  | SeenWrite (p : loc) (started : option Z) (n : Z) (err : option goerror).

Definition seen_on (e : observation) : loc := match e with SeenRead p _ _ | SeenWrite p _ _ _ => p end.

Definition sum_of (f : observation → Z) (es : list observation) : Z := foldr (λ e z, f e + z) 0 es.

Definition tally (es : list observation) : Counters := MkCounters
  (wrap_uint (sum_of (λ e, match e with SeenRead _ n _ => Z.max 0 n | _ => 0 end) es))
  (wrap_uint (sum_of (λ e, match e with SeenWrite _ _ n _ => Z.max 0 n | _ => 0 end) es))
  (wrap_uint (sum_of (λ e, match e with SeenRead _ _ _ => 1 | _ => 0 end) es))
  (wrap_uint (sum_of (λ e, match e with SeenWrite _ _ _ _ => 1 | _ => 0 end) es))
  (wrap_uint (sum_of (λ e, match e with SeenRead _ _ (Some _) => 1 | _ => 0 end) es))
  (wrap_uint (sum_of (λ e, match e with SeenWrite _ _ _ (Some _) => 1 | _ => 0 end) es))
  (wrap_uint (sum_of (λ e, match e with SeenWrite _ (Some _) _ _ => 1 | _ => 0 end) es))
  (wrap_uint (sum_of (λ e, match e with SeenWrite _ (Some t) _ _ => Z.max 0 t | _ => 0 end) es))
  (foldr (λ e z, Z.max (match e with SeenWrite _ (Some t) _ _ => t | _ => 0 end) z) 0 es).

(** A run of the registry with its observations; an elapsed time is a
    [time.Duration], 64 bits wide. *)
Inductive traced : list observation → Registry → Prop :=
  | traced_zero : traced [] zero_registry
  | traced_open lbl es r : traced es r → traced es (OpenPath lbl r).2
  | traced_close p es r : traced es r → traced es (Close (Some p) r)
  | traced_begin p es r : traced es r → traced es (BeginWrite (Some p) r).2
  | traced_gauge f es r : f ∈ gauge_ops → traced es r → traced es (f r)
  | traced_read p n err es r : is_Some (path_store r !! p) → traced es r →
      traced (es ++ [SeenRead p n err]) (ObserveRead (Some p) n err r)
  | traced_write p st n err es r : is_Some (path_store r !! p) → (∀ t, st = Some t → in_int t) → traced es r →
      traced (es ++ [SeenWrite p st n err]) (ObserveWrite (Some p) st n err r).

Record tally_inv (es : list observation) (r : Registry) : Prop := {
  tally_totals : totals r = tally es;
  tally_paths p path : path_store r !! p = Some path → traffic path = tally (filter (λ e, seen_on e = p) es);
  tally_opened : Forall (λ e, seen_on e < length (path_store r))%nat es;
}.

Lemma sum_of_snoc f es e : sum_of f (es ++ [e]) = sum_of f es + f e.
Proof. unfold sum_of. induction es as [|x es IH]; cbn; [lia|]. rewrite IH. lia. Qed.

Lemma tally_same es r r' : same_traffic r r' → tally_inv es r → tally_inv es r'.
Proof.
  intros [Ht Hp] [I1 I2 I3]. split.
  - by rewrite Ht.
  - intros p path Hpath. assert (traffic <$> path_store r !! p = Some (traffic path)) as E
      by (by rewrite <-list_lookup_fmap, <-Hp, list_lookup_fmap, Hpath).
    destruct (path_store r !! p) as [q|] eqn:Eq; [|done]. injection E as <-. by apply I2.
  - apply (f_equal length) in Hp. rewrite !length_fmap in Hp. by rewrite Hp.
Qed.

Lemma tally_open lbl es r : tally_inv es r → tally_inv es (OpenPath lbl r).2.
Proof.
  intros [I1 I2 I3]. split; [done| |].
  - intros p path. cbn. rewrite lookup_app_Some. intros [Hp|[Hge Hp]]; [by apply I2|].
    apply list_lookup_singleton_Some in Hp as [Hp <-]. cbn. assert (filter (λ e, seen_on e = p) es = []) as ->; [|done].
    apply elem_of_nil_inv. intros e [He Hin]%list_elem_of_filter. rewrite Forall_forall in I3. specialize (I3 e Hin). lia.
  - eapply Forall_impl; [exact I3|]. cbn. rewrite length_app. lia.
Qed.

(** An observation on the counters of its path and of the registry. *)
Lemma both_traffic p f r q : traffic <$> path_store (both p f r) !! q =
  (if decide (q = p) then f else λ c, c) <$> (traffic <$> path_store r !! q).
Proof.
  cbn. case_decide as E.
  - subst. rewrite list_lookup_alter_eq. by destruct (path_store r !! p).
  - rewrite list_lookup_alter_ne by done. by destruct (path_store r !! q).
Qed.

Lemma both_length p f r : length (path_store (both p f r)) = length (path_store r).
Proof. apply length_alter. Qed.

(** [g] is what the observation [e] does to the counters. *)
Lemma tally_observe e g es r r' :
  (∀ es, tally (es ++ [e]) = g (tally es)) → totals r' = g (totals r) → length (path_store r') = length (path_store r) →
  (∀ q, traffic <$> path_store r' !! q = (if decide (q = seen_on e) then g else λ c, c) <$> (traffic <$> path_store r !! q)) →
  is_Some (path_store r !! seen_on e) → tally_inv es r → tally_inv (es ++ [e]) r'.
Proof.
  intros Hg Ht Hl Hq He [I1 I2 I3]. split.
  - by rewrite Ht, I1, Hg.
  - intros p path Hp. specialize (Hq p). rewrite Hp in Hq. destruct (path_store r !! p) as [old|] eqn:Eo; [|done].
    injection Hq as Hq. rewrite filter_app. case_decide as E.
    + subst. rewrite filter_cons_True, filter_nil, Hg, <-(I2 _ _ Eo) by done. done.
    + rewrite filter_cons_False, filter_nil, app_nil_r by congruence. rewrite Hq. by apply I2.
  - rewrite Forall_app, Hl. split; [done|]. constructor; [|constructor]. destruct He as [x Hx]. by eapply lookup_lt_Some.
Qed.

Definition read_effect (n : Z) (err : option goerror) (c : Counters) : Counters :=
  let c := c <| readOperations ::= add_uint 1 |> in
  let c := if n >? 0 then c <| bytesRead ::= add_uint n |> else c in
  if bool_decide (is_Some err) then c <| readErrors ::= add_uint 1 |> else c.

Definition write_effect (st : option Z) (n : Z) (err : option goerror) (c : Counters) : Counters :=
  let c := c <| writeOperations ::= add_uint 1 |> in
  let c := if n >? 0 then c <| bytesWritten ::= add_uint n |> else c in
  let c := if bool_decide (is_Some err) then c <| writeErrors ::= add_uint 1 |> else c in
  match st with
  | Some t => let ns := wrap_uint (if t <? 0 then 0 else t) in
      c <| writeLatencySamples ::= add_uint 1 |> <| writeLatencyTotalNS ::= add_uint ns |>
        <| writeLatencyMaxNS ::= updateMaximum ns |>
  | None => c
  end.

Lemma wrap_snoc f es e d : f e = d → wrap_uint (sum_of f (es ++ [e])) = add_uint d (wrap_uint (sum_of f es)).
Proof. intros <-. unfold add_uint. by rewrite sum_of_snoc, wrap_uint_add. Qed.

Lemma wrap_same f es e : f e = 0 → wrap_uint (sum_of f (es ++ [e])) = wrap_uint (sum_of f es).
Proof. intros E. by rewrite sum_of_snoc, E, Z.add_0_r. Qed.

(** The longest latency; zero when none was sampled. *)
Definition slowest (es : list observation) : Z :=
  foldr (λ e z, Z.max (match e with SeenWrite _ (Some t) _ _ => t | _ => 0 end) z) 0 es.

Lemma slowest_nonneg es : 0 ≤ slowest es.
Proof. unfold slowest. induction es; cbn; lia. Qed.

Lemma slowest_snoc es e :
  slowest (es ++ [e]) = Z.max (slowest es) (match e with SeenWrite _ (Some t) _ _ => t | _ => 0 end).
Proof. unfold slowest. induction es as [|x es IH]; cbn [foldr app]; [lia|]. rewrite IH. lia. Qed.

Lemma tally_read p n err es : tally (es ++ [SeenRead p n err]) = read_effect n err (tally es).
Proof.
  pose proof (slowest_nonneg es). unfold read_effect, tally. fold (slowest es). fold (slowest (es ++ [SeenRead p n err])).
  destruct (Z.gtb_spec n 0), err; cbn; f_equal;
    first [apply wrap_snoc; lia | apply wrap_same; lia | rewrite slowest_snoc; lia].
Qed.

Lemma tally_write p st n err es : (∀ t, st = Some t → in_int t) →
  tally (es ++ [SeenWrite p st n err]) = write_effect st n err (tally es).
Proof.
  intros Ht. pose proof (slowest_nonneg es).
  assert (∀ t, st = Some t → wrap_uint (if t <? 0 then 0 else t) = Z.max 0 t) as Hns.
  { intros t E. specialize (Ht t E). unfold in_int, two63 in Ht.
    rewrite wrap_uint_id; [destruct (Z.ltb_spec t 0); lia|]. unfold in_uint, two64. destruct (Z.ltb_spec t 0); lia. }
  unfold write_effect, tally. fold (slowest es). fold (slowest (es ++ [SeenWrite p st n err])).
  destruct (Z.gtb_spec n 0), err, st as [t|]; cbn; rewrite ?(Hns t) by done; f_equal;
    first [apply wrap_snoc; lia | apply wrap_same; lia | rewrite slowest_snoc, ?updateMaximum_max; lia].
Qed.

Lemma tally_traced es r : traced es r → tally_inv es r.
Proof.
  induction 1 as [|lbl es r _ IH|p es r _ IH|p es r _ IH|f es r Hf _ IH|p n err es r Hp _ IH|p st n err es r Hp Ht _ IH].
  - split; [done|by intros p path|constructor].
  - by apply tally_open.
  - eapply tally_same; [apply same_traffic_Close|done].
  - eapply tally_same; [apply same_traffic_BeginWrite|done].
  - eapply tally_same; [by apply same_traffic_gauge|done].
  - eapply (tally_observe _ (read_effect n err)); [intros; apply tally_read|..|exact Hp|exact IH]; rewrite ObserveRead_both.
    + unfold both_if, read_effect. by destruct (n >? 0), (bool_decide (is_Some err)).
    + unfold both_if. by destruct (n >? 0), (bool_decide (is_Some err)); rewrite ?both_length.
    + intros q. unfold both_if, read_effect. destruct (n >? 0), (bool_decide (is_Some err)); rewrite !both_traffic;
        cbn [seen_on]; case_decide; by destruct (path_store r !! q).
  - eapply (tally_observe _ (write_effect st n err)); [intros; by apply tally_write|..|exact Hp|exact IH];
      rewrite ObserveWrite_both; cbv zeta.
    + unfold both_if, write_effect. by destruct (n >? 0), (bool_decide (is_Some err)), st.
    + unfold both_if. by destruct (n >? 0), (bool_decide (is_Some err)), st; rewrite ?latency_both; cbv zeta; rewrite ?both_length.
    + intros q. unfold both_if, write_effect. destruct (n >? 0), (bool_decide (is_Some err)), st;
        rewrite ?latency_both; cbv zeta; rewrite !both_traffic; cbn [seen_on]; case_decide; by destruct (path_store r !! q).
Qed.

Lemma traced_reachable es r : traced es r → reachable r.
Proof.
  induction 1 as [|lbl es r _ IH|p es r _ IH|p es r _ IH|f es r Hf _ IH|p n err es r Hp _ IH|p st n err es r Hp Ht _ IH].
  - apply rtc_refl.
  - eapply rtc_r; [exact IH|constructor].
  - unfold Close. destruct (path_store r !! p) eqn:E; [|exact IH].
    eapply rtc_r; [exact IH|]. pose proof (step_close p r) as Hs. unfold Close in Hs. rewrite E in Hs. apply Hs. by eexists.
  - unfold BeginWrite. destruct (path_store r !! p) eqn:E; [|exact IH].
    eapply rtc_r; [exact IH|]. pose proof (step_begin p r) as Hs. unfold BeginWrite in Hs. rewrite E in Hs. apply Hs. by eexists.
  - eapply rtc_r; [exact IH|by constructor].
  - eapply rtc_r; [exact IH|by constructor].
  - eapply rtc_r; [exact IH|by constructor].
Qed.

(** C26: the counters tell what was observed, nothing lost and nothing counted
    twice: after any run, the totals of the process are the tally of all reads and
    writes reported, and the counters of each path the tally of those reported on
    it: bytes, operations, errors, sampled latencies and their sum, modulo 2^64, and
    the longest latency.  So each of the eight cumulative totals is the sum over the
    paths ever opened, and the maximum their maximum. *)
Theorem traffic_conserved es r : traced es r →
  totals r = tally es ∧
  (∀ p path, path_store r !! p = Some path → traffic path = tally (filter (λ e, seen_on e = p) es)) ∧
  (∀ f, f ∈ additive_fields → f (totals r) = wrap_uint (path_sum f r)) ∧
  writeLatencyMaxNS (totals r) = path_max r.
Proof.
  intros Hr. pose proof (tally_traced _ _ Hr) as [H1 H2 _]. apply traced_reachable in Hr.
  split_and!; [done|done| |by apply max_reachable]. intros f Hf. by apply conserved_reachable.
Qed.

Lemma traffic_conserved_witness :
  totals (ObserveWrite (Some 0%nat) (Some 9) 7 None (ObserveRead (Some 0%nat) 5 None one_path)) =
    MkCounters 5 7 1 1 0 0 1 9 9.
Proof.
  assert (traced [SeenRead 0 5 None; SeenWrite 0 (Some 9) 7 None]
    (ObserveWrite (Some 0%nat) (Some 9) 7 None (ObserveRead (Some 0%nat) 5 None one_path))) as Ht.
  { apply (traced_write 0 (Some 9) 7 None [SeenRead 0 5 None]).
    - by eexists.
    - intros t [= <-]. by vm_compute.
    - apply (traced_read 0 5 None []); [by eexists|]. apply traced_open, traced_zero. }
  destruct (traffic_conserved _ _ Ht) as (E & _). rewrite E. by vm_compute.
Defined.

(** *** Snapshots *)

Definition snaps (r : Registry) (l : list loc) : list PathSnapshot :=
  omap (λ p, snapshot <$> path_store r !! p) l.

Lemma elem_of_snaps r l s :
  s ∈ snaps r l ↔ ∃ p path, p ∈ l ∧ path_store r !! p = Some path ∧ s = snapshot path.
Proof.
  unfold snaps. rewrite list_elem_of_omap. split.
  - intros (p & Hp & E). destruct (path_store r !! p) as [path|] eqn:Ep; simplify_eq/=; eauto.
  - intros (p & path & Hp & Ep & ->). exists p. by rewrite Ep.
Qed.

Lemma snaps_nodup r l : paths_inv r → NoDup l → NoDup (ID <$> snaps r l).
Proof.
  intros Hinv. induction 1 as [|p l Hp Hnd IH]; [constructor|]. unfold snaps. simpl.
  destruct (path_store r !! p) as [path|] eqn:Ep; simpl; [|done].
  apply NoDup_cons. split; [|done]. intros (s & Es & Hs)%list_elem_of_fmap.
  apply elem_of_snaps in Hs as (q & path' & Hq & Eq & ->). simpl in Es.
  rewrite (inv_ids r Hinv p path Ep), (inv_ids r Hinv q path' Eq) in Es.
  assert (p = q) by lia. by subst.
Qed.

Lemma order_active r order p : paths_inv r → order ≡ₚ map_to_list (activePathsByID r) →
  p ∈ order.*2 ↔ ∃ path, path_store r !! p = Some path ∧ closed path = false.
Proof.
  intros Hinv ->. rewrite list_elem_of_fmap. split.
  - intros ([k q] & -> & Hq%elem_of_map_to_list). by apply (inv_active r Hinv) in Hq as [_ ?].
  - intros Hp. exists (Z.of_nat p + 1, p). split; [done|].
    apply elem_of_map_to_list, (inv_active r Hinv). done.
Qed.

Lemma order_nodup r order : paths_inv r → order ≡ₚ map_to_list (activePathsByID r) →
  NoDup order.*2.
Proof.
  intros Hinv ->. assert (order_inj : ∀ x y, x ∈ map_to_list (activePathsByID r) →
    y ∈ map_to_list (activePathsByID r) → x.2 = y.2 → x = y).
  { intros [k p] [k' p'] Hx%elem_of_map_to_list Hy%elem_of_map_to_list E. simpl in E. subst.
    apply (inv_active r Hinv) in Hx as [-> _]. by apply (inv_active r Hinv) in Hy as [-> _]. }
  apply NoDup_fmap_2_strong; [done|]. apply NoDup_map_to_list.
Qed.

Lemma listed_nodup r order : paths_inv r → order ≡ₚ map_to_list (activePathsByID r) →
  NoDup (listed order r).
Proof.
  intros Hinv Ho. apply NoDup_app. split_and!.
  - by eapply order_nodup.
  - intros p (path & ? & ?)%(order_active r order p Hinv Ho) (path' & ? & ?)%(inv_recent_closed r Hinv).
    congruence.
  - apply (inv_recent_nodup r Hinv).
Qed.

#[export] Instance snap_le_total : Total snap_le.
Proof. intros a b. unfold snap_le. lia. Qed.
#[export] Instance snap_le_trans : Transitive snap_le.
Proof. intros a b c. unfold snap_le. lia. Qed.

Definition snap_lt (a b : PathSnapshot) : Prop := ID a < ID b.

Lemma strictly_sorted l :
  StronglySorted snap_le l → NoDup (ID <$> l) → StronglySorted snap_lt l.
Proof.
  induction 1 as [|s l Hl IH Hs]; [constructor|].
  rewrite fmap_cons, NoDup_cons. intros [Hnin Hnd]. constructor; [by apply IH|].
  rewrite Forall_forall in *. intros t Ht. specialize (Hs t Ht). unfold snap_le, snap_lt in *.
  assert (ID s ≠ ID t); [|lia]. intros E. apply Hnin. rewrite E. by apply list_elem_of_fmap_2.
Qed.

Lemma strictly_sorted_unique l l' :
  StronglySorted snap_lt l → StronglySorted snap_lt l' → l ≡ₚ l' → l = l'.
Proof.
  intros Hl. revert l'. induction Hl as [|s l Hl IH Hs]; intros l' Hl' Hp.
  - symmetry. by apply Permutation_nil.
  - destruct Hl' as [|s' l' Hl' Hs']; [by apply Permutation_nil_r in Hp|].
    rewrite Forall_forall in Hs, Hs'.
    assert (s = s') as <-.
    { assert (s' ∈ s :: l) as Hin by (rewrite Hp; left).
      assert (s ∈ s' :: l') as Hin' by (rewrite <-Hp; left).
      apply elem_of_cons in Hin as [->|Hin]; [done|].
      apply elem_of_cons in Hin' as [->|Hin']; [done|].
      specialize (Hs _ Hin). specialize (Hs' _ Hin'). unfold snap_lt in *. lia. }
    f_equal. apply IH; [done|]. by apply Permutation_cons_inv in Hp.
Qed.

Lemma snapshots_sorted r order : paths_inv r → order ≡ₚ map_to_list (activePathsByID r) →
  StronglySorted snap_lt (pathSnapshots_in order r).2.
Proof.
  intros Hinv Ho. simpl. apply strictly_sorted.
  - apply StronglySorted_merge_sort; apply _.
  - rewrite merge_sort_Permutation. apply (snaps_nodup r (listed order r) Hinv).
    by apply listed_nodup.
Qed.

Lemma snapshots_order r order : paths_inv r → order ≡ₚ map_to_list (activePathsByID r) →
  pathSnapshots_in order r = pathSnapshots r.
Proof.
  intros Hinv Ho. apply injective_projections; [done|].
  apply strictly_sorted_unique; [by apply snapshots_sorted..|]. simpl.
  rewrite !merge_sort_Permutation. unfold listed. by rewrite Ho.
Qed.

(** a snapshot lists every open path exactly once and every remembered
    closed path, strictly ordered by id, and does not depend on the order in
    which the Go map is iterated. *)
Theorem snapshot_faithful r order :
  reachable r → opens_bounded r → order ≡ₚ map_to_list (activePathsByID r) →
  pathSnapshots_in order r = pathSnapshots r ∧
  StronglySorted snap_lt (pathSnapshots r).2 ∧
  (∀ s, s ∈ (pathSnapshots r).2 ∧ Active s = true ↔
        ∃ p path, path_store r !! p = Some path ∧ closed path = false ∧ s = snapshot path) ∧
  (∀ p path, p ∈ recentPaths r → path_store r !! p = Some path →
        snapshot path ∈ (pathSnapshots r).2).
Proof.
  intros Hr Hb Ho. pose proof (reachable_inv r Hr Hb) as Hinv.
  split; [by apply snapshots_order|]. split; [by apply snapshots_sorted|].
  assert (∀ s, s ∈ (pathSnapshots r).2 ↔ s ∈ snaps r (listed (map_to_list (activePathsByID r)) r)) as Hin.
  { intros s. simpl. by rewrite merge_sort_Permutation. }
  split; [intros s; rewrite Hin, elem_of_snaps; split|].
  - intros [(p & path & _ & Hp & ->) Ha]. exists p, path. simpl in Ha. by destruct (closed path).
  - intros (p & path & Hp & Hc & ->). split; [|simpl; by rewrite Hc].
    exists p, path. split; [|done]. apply elem_of_app. left. apply (order_active r); eauto.
  - intros p path Hrec Hp. rewrite Hin, elem_of_snaps. exists p, path. split; [|done].
    apply elem_of_app. by right.
Qed.

Lemma snapshot_faithful_witness :
  StronglySorted snap_lt (pathSnapshots (OpenPath (str "b") one_path).2).2.
Proof.
  apply (snapshot_faithful (OpenPath (str "b") one_path).2
           (map_to_list (activePathsByID (OpenPath (str "b") one_path).2))).
  - eapply rtc_r; [apply one_path_reachable|]. constructor.
  - done.
  - done.
Defined.

(** ** Concurrent maxima

    [updateMaximum] at the level of its atomic operations.  A caller is about to
    load, about to compare-and-swap with the value it loaded, or done; the
    counter is shared. *)

Inductive pc := AtLoad | AtCAS (current : Z) | Finished.

Record caller := Caller { value : Z; at_pc : pc }.

(** One atomic operation of one caller. *)
Definition caller_step (counter : Z) (t : caller) : option (Z * caller) :=
  match at_pc t with
  | AtLoad => Some (counter, Caller (value t) (if value t >? counter then AtCAS counter else Finished))
  | AtCAS current =>
      if counter =? current then Some (value t, Caller (value t) Finished)
      else Some (counter, Caller (value t) AtLoad)
  | Finished => None
  end.

Inductive max_step : Z * list caller → Z * list caller → Prop :=
  | max_step_at c c' l1 t t' l2 :
      caller_step c t = Some (c', t') →
      max_step (c, l1 ++ t :: l2) (c', l1 ++ t' :: l2).

Definition finished (t : caller) : bool :=
  match at_pc t with Finished => true | _ => false end.

Definition caller_inv (c : Z) (t : caller) : Prop :=
  match at_pc t with
  | AtLoad => True
  | AtCAS current => current < value t
  | Finished => value t ≤ c
  end.

Record max_inv (c0 : Z) (vs : list Z) (s : Z * list caller) : Prop := {
  max_values : value <$> s.2 = vs;
  max_lower : c0 ≤ s.1;
  max_attained : s.1 = c0 ∨ s.1 ∈ vs;
  max_callers : Forall (caller_inv s.1) s.2;
}.

Lemma caller_step_spec c t c' t' : caller_inv c t → caller_step c t = Some (c', t') →
  value t' = value t ∧ c ≤ c' ∧ (c' = c ∨ c' = value t) ∧ caller_inv c' t'.
Proof.
  unfold caller_inv, caller_step. destruct t as [v [|cur|]]; simpl; intros Hinv H.
  - destruct (Z.gtb_spec v c); simplify_eq/=; split_and!; try done; lia.
  - destruct (Z.eqb_spec c cur); simplify_eq/=; split_and!; try done; lia.
  - done.
Qed.

Lemma caller_inv_mono c c' t : c ≤ c' → caller_inv c t → caller_inv c' t.
Proof. unfold caller_inv. destruct (at_pc t); lia. Qed.

Lemma max_inv_step c0 vs s s' : max_step s s' → max_inv c0 vs s → max_inv c0 vs s'.
Proof.
  intros Hs [H1 H2 H3 H4]. destruct Hs as [c c' l1 t t' l2 Ht]. simpl in *.
  apply Forall_app in H4 as [Hl1 [Hc Hl2]%Forall_cons].
  destruct (caller_step_spec c t c' t' Hc Ht) as (Hv & Hle & Hor & Hc').
  constructor; simpl.
  - by rewrite fmap_app, fmap_cons, Hv, <-fmap_cons, <-fmap_app.
  - lia.
  - destruct Hor as [-> | ->]; [done|]. right. subst. rewrite fmap_app, fmap_cons. set_solver.
  - apply Forall_app. split; [|constructor; [done|]];
      (eapply Forall_impl; [eassumption|]; intros; by eapply caller_inv_mono).
Qed.

Definition max_start (c0 : Z) (vs : list Z) : Z * list caller :=
  (c0, (λ v, Caller v AtLoad) <$> vs).

Lemma max_inv_start c0 vs : max_inv c0 vs (max_start c0 vs).
Proof.
  constructor; simpl; [|lia|by left|].
  - rewrite <-list_fmap_compose. by apply list_fmap_id.
  - by apply Forall_fmap, Forall_true.
Qed.

Lemma foldr_max_spec (c0 : Z) vs : c0 ≤ foldr Z.max c0 vs ∧ Forall (λ v, v ≤ foldr Z.max c0 vs) vs ∧
  (foldr Z.max c0 vs = c0 ∨ foldr Z.max c0 vs ∈ vs).
Proof.
  induction vs as [|v vs IH]; simpl; [split_and!; [lia|constructor|by left]|].
  destruct IH as (IH1 & IH2 & IH3).
  split_and!; [lia| |].
  - constructor; [lia|]. eapply Forall_impl; [exact IH2|]. simpl. lia.
  - destruct (Z.max_spec v (foldr Z.max c0 vs)) as [[_ ->]|[_ ->]]; [|right; left].
    destruct IH3; [by left|right; by right].
Qed.

(** Ranking: a step either finishes a caller or lowers the sum of the weights;
    a stale loaded value weighs most. *)
Definition weight (c : Z) (t : caller) : nat :=
  match at_pc t with
  | Finished => 0 | AtCAS current => if (current =? c)%Z then 1 else 3 | AtLoad => 2
  end%nat.
Definition weights (c : Z) (l : list caller) : nat := foldr (λ t n, weight c t + n)%nat 0%nat l.
Definition pending (l : list caller) : nat := length (filter (λ t, finished t = false) l).
Definition rank (s : Z * list caller) : nat :=
  (pending s.2 * (3 * length s.2 + 1) + weights s.1 s.2)%nat.

Lemma weights_bound c l : (weights c l ≤ 3 * length l)%nat.
Proof.
  induction l as [|t l IH]; simpl; [lia|].
  assert (weight c t ≤ 3)%nat by (unfold weight; repeat case_match; lia). lia.
Qed.

Lemma weights_app c l1 l2 : weights c (l1 ++ l2) = (weights c l1 + weights c l2)%nat.
Proof. induction l1; simpl; lia. Qed.

Lemma pending_app l1 l2 : pending (l1 ++ l2) = (pending l1 + pending l2)%nat.
Proof. unfold pending. by rewrite filter_app, length_app. Qed.

Lemma pending_cons t l : pending (t :: l) = ((if finished t then 0 else 1) + pending l)%nat.
Proof.
  unfold pending. rewrite filter_cons.
  destruct (finished t); [by rewrite decide_False | by rewrite decide_True].
Qed.

Lemma rank_step s s' : max_step s s' → (rank s' < rank s)%nat.
Proof.
  intros Hs. destruct Hs as [c c' l1 t t' l2 Ht]. unfold rank. simpl.
  rewrite !weights_app, !pending_app, !pending_cons, !length_app. simpl.
  pose proof (weights_bound c l1). pose proof (weights_bound c l2).
  pose proof (weights_bound c' l1). pose proof (weights_bound c' l2).
  unfold caller_step, weight, finished in *. destruct t as [v [|cur|]]; simpl in *; [| |done].
  - destruct (Z.gtb_spec v c); simplify_eq/=; rewrite ?Z.eqb_refl; nia.
  - rewrite (Z.eqb_sym cur c). destruct (Z.eqb_spec c cur); simplify_eq/=; nia.
Qed.

(** any number of concurrent [updateMaximum] calls, under any
    interleaving of their loads and compare-and-swaps, leave exactly the maximum
    of the old value and all new ones; no interleaving runs forever, and as long
    as a call is unfinished some step is possible. *)
Theorem concurrent_maximum c0 vs s :
  rtc max_step (max_start c0 vs) s →
  (Forall (λ t, finished t = true) s.2 → s.1 = foldr Z.max c0 vs) ∧
  (∀ s', max_step s s' → (rank s' < rank s)%nat) ∧
  (Exists (λ t, finished t = false) s.2 → ∃ s', max_step s s').
Proof.
  intros Hr. split; [|split; [intros; by apply rank_step|]].
  - intros Hfin. assert (max_inv c0 vs s) as [H1 H2 H3 H4].
    { revert s Hr Hfin. intros s Hr _. revert s Hr. apply (rtc_ind_r (max_inv c0 vs)).
      - apply max_inv_start.
      - intros ??? Hs. by apply max_inv_step. }
    destruct (foldr_max_spec c0 vs) as (F1 & F2 & F3).
    assert (Forall (λ v, v ≤ s.1) vs) as Hall.
    { subst vs. apply Forall_fmap. rewrite Forall_forall in *. intros t Ht.
      specialize (H4 t Ht). specialize (Hfin t Ht). unfold caller_inv, finished in *.
      simpl. by destruct (at_pc t). }
    rewrite Forall_forall in F2, Hall.
    apply Z.le_antisymm; [destruct H3 as [->|?]|destruct F3 as [->|?]]; auto.
  - intros (t & Ht & Hf)%Exists_exists. apply list_elem_of_split in Ht as (l1 & l2 & E).
    destruct s as [c l]. simpl in *. subst. unfold finished in Hf.
    assert (∃ r, caller_step c t = Some r) as [[c' t'] Hstep].
    { unfold caller_step. destruct (at_pc t); [eauto| |done]. case_match; eauto. }
    eexists. by constructor.
Qed.

Lemma concurrent_maximum_witness :
  Forall (λ t, finished t = true) [Caller 7 Finished] ∧ 7 = foldr Z.max 3 [7].
Proof.
  split; [by repeat constructor|].
  apply (concurrent_maximum 3 [7] (7, [Caller 7 Finished])); [|by repeat constructor].
  eapply rtc_l; [apply (max_step_at 3 3 [] _ (Caller 7 (AtCAS 3)) []); reflexivity|].
  apply rtc_once. by apply (max_step_at 3 7 [] (Caller 7 (AtCAS 3)) _ []).
Defined.

End Metrics.
