(* ===== verification/BondedConn.v ===== *)
(** * The bonded packet connection (tcputil/bonded_packet_conn.go)

    [bond] is the shared state of a [BondedPacketConn]; a [*bondedPath] is a
    location in [heap].  Every operation is written as the composition of its
    critical sections, the pieces of code between [mu.Lock] and [mu.Unlock] and
    the single atomic operations, so that the sequential operations of this file
    and the interleavings of [BondedRaces] run the same definitions.

    Path connections are any [NetConn].  What the scheduler or the clock decides
    is an argument: which ready case a [select] takes, and how long a sampled
    write took. *)

From S2P Require Import Prelude GoStrings GoNet Metrics Tuning BondHello.

Module BondedConn.
Import BondHello.

Definition defaultBondEmptyPathGrace : Z := 10 * Second.
Definition readChCapacity : nat := 1024.
Definition readBufferSize : nat := Z.to_nat (64 * 1024).

(** ** Error classification *)

Definition transient_texts : list bytes :=
  str <$> ["deadline exceeded"; "timeout"; "temporarily"; "short write"; "buffer"].
Definition permanent_texts : list bytes :=
  str <$> ["closed"; "broken pipe"; "reset"; "use of closed"].

Definition isPermanentPathError (err : option goerror) : bool :=
  match err with
  | None => false
  | Some e =>
      if errors_is ErrClosed e || errors_is ErrClosedPipe e || errors_is EOF e then true
      else if bool_decide (err_timeout e = Some true) then false
      else
        let msg := ToLower (err_text e) in
        if existsb (Contains msg) transient_texts then false
        else existsb (Contains msg) permanent_texts
  end.

(** ** State *)

Record bondedPath (C : Type) := MkPath {
  path_id : Z;
  conn : C;
  has_cleanup : bool;
  closing : bool;
  stats : option Metrics.loc;
  cleanup_calls : nat;   (* calls of [cleanup] so far *)
  done_closes : nat;     (* executions of [close(path.done)] so far *)
}.
Arguments MkPath {C}.
Arguments path_id {C}. Arguments conn {C}. Arguments has_cleanup {C}.
Arguments closing {C}. Arguments stats {C}. Arguments cleanup_calls {C}.
Arguments done_closes {C}.

#[export] Instance bondedPath_eta {C} : Eta (bondedPath C) := λ p,
  MkPath (path_id p) (conn p) (has_cleanup p) (closing p) (stats p) (cleanup_calls p)
    (done_closes p).

(** A [time.AfterFunc] timer: waiting, fired (its callback has been started) or
    stopped before it fired. *)
Inductive timer := Armed | Fired | Stopped.

#[export] Instance timer_eq_dec : EqDecision timer.
Proof. solve_decision. Defined.

Record bond (C : Type) := MkBond {
  label : bytes;
  registry : Metrics.Registry;
  heap : list (bondedPath C);
  paths : list nat;
  nextPath : Z;
  nextID : Z;
  readCh : list bytes;
  stateCh : bool;               (* the one-slot channel holds a token *)
  closed : bool;
  emptyGrace : Z;
  emptyTimer : option nat;      (* index into [timers] *)
  emptyExpired : bool;
  timers : list timer;
  writeDeadline : option deadline; (* [None]: never stored *)
}.
Arguments MkBond {C}.
Arguments label {C}. Arguments registry {C}. Arguments heap {C}. Arguments paths {C}.
Arguments nextPath {C}. Arguments nextID {C}. Arguments readCh {C}. Arguments stateCh {C}.
Arguments closed {C}. Arguments emptyGrace {C}. Arguments emptyTimer {C}.
Arguments emptyExpired {C}. Arguments timers {C}. Arguments writeDeadline {C}.

#[export] Instance bond_eta {C} : Eta (bond C) := λ b,
  MkBond (label b) (registry b) (heap b) (paths b) (nextPath b) (nextID b) (readCh b)
    (stateCh b) (closed b) (emptyGrace b) (emptyTimer b) (emptyExpired b) (timers b)
    (writeDeadline b).

Section ops.
Context {C : Type} `{NetConn C}.
Implicit Types (b : bond C) (ptr : nat).

Definition newBondedPacketConn (reg : Metrics.Registry) (lbl : bytes) (grace : Z) : bond C :=
  let lbl := if bool_decide (lbl = []) then str "vless-bond" else lbl in
  let grace := if grace <=? 0 then defaultBondEmptyPathGrace else grace in
  MkBond lbl reg [] [] 0 0 [] false false grace None false [] None.

Definition NewBondedPacketConn (reg : Metrics.Registry) (lbl : bytes) : bond C :=
  newBondedPacketConn reg lbl defaultBondEmptyPathGrace.

(** The process registry, as lent to the bond by its owner. *)
Definition with_registry (reg : Metrics.Registry) b : bond C := b <| registry := reg |>.

Definition Count b : Z := Z.of_nat (length (paths b)).
Definition snapshotPaths b : list nat := paths b.

(** The non-blocking send on the one-slot channel. *)
Definition notifyStateChanged b : bond C := b <| stateCh := true |>.

(** [timer.Stop()]: a timer that has fired is not affected. *)
Definition stop_timer (t : nat) b : bond C :=
  b <| timers ::= alter (λ s, match s with Armed => Stopped | _ => s end) t |>.

(** [if b.emptyTimer != nil { b.emptyTimer.Stop(); b.emptyTimer = nil }] *)
Definition stop_empty_timer b : bond C :=
  match emptyTimer b with
  | Some t => (stop_timer t b) <| emptyTimer := None |>
  | None => b
  end.

(** *** Ending a path *)

Definition update_path ptr (f : bondedPath C → bondedPath C) b : bond C :=
  b <| heap ::= alter f ptr |>.

(** [path.conn.Close()], the cleanup function, [close(path.done)]: the body of
    [closePath] and the end of [removePath]. *)
Definition closePath ptr b : bond C :=
  update_path ptr (λ p,
    let p := p <| conn := (conn_Close (conn p)).2 |> in
    let p := if has_cleanup p then p <| cleanup_calls ::= S |> else p in
    p <| done_closes ::= S |>) b.

(** *** The empty-bond grace period *)

Definition startEmptyGrace b : bond C :=
  if negb (bool_decide (paths b = [])) || bool_decide (is_Some (emptyTimer b)) || emptyExpired b
  then b
  else if closed b then b
  else b <| emptyTimer := Some (length (timers b)) |> <| timers ::= (λ ts, ts ++ [Armed]) |>.

(** The critical section of the timer callback; [true] when it goes on to
    call [Close]. *)
Definition timer_callback b : bool * bond C :=
  if negb (bool_decide (paths b = [])) then (false, b <| emptyTimer := None |>)
  else (true, b <| emptyExpired := true |> <| emptyTimer := None |>).

(** *** Removing a path *)

(** The critical section of [removePath]. *)
Definition unlink_path ptr b : bool * bond C :=
  if bool_decide (ptr ∈ paths b) then
    let b := b <| paths := remove_first ptr (paths b) |> in
    let b := update_path ptr (λ p, p <| closing := true |>) b in
    (true, b <| registry := Metrics.Close (heap b !! ptr ≫= stats) (registry b) |>)
  else (false, b).

(** What [removePath] does after its critical section removed the path;
    [closeConn] is true at every call. *)
Definition grace_if_empty b : bond C := if Count b =? 0 then startEmptyGrace b else b.

Definition removePath ptr b : bond C :=
  let '(removed, b) := unlink_path ptr b in
  if removed then closePath ptr (notifyStateChanged (grace_if_empty b)) else b.

(** *** Closing the bond *)

(** [closeOnce.Do]: the channel [closed] is closed by the first call only. *)
Definition Close b : bond C :=
  if closed b then b
  else
    let b := b <| closed := true |> in
    let b := notifyStateChanged (stop_empty_timer b) in
    foldl (λ b ptr, removePath ptr b) b (snapshotPaths b).

(** The whole callback of a timer that fired. *)
Definition timer_fires (t : nat) b : bond C :=
  if bool_decide (timers b !! t = Some Armed) then
    let b := b <| timers ::= <[t := Fired]> |> in
    let '(expired, b) := timer_callback b in
    if expired then Close b else b
  else b.

(** *** Adding a path *)

Definition path_label b (pid : Z) : bytes := label b ++ str "/path-" ++ Itoa pid.

(** Allocation and critical section of [AddConn]; [true] when the path was
    added, [false] when [closePath] follows. *)
Definition link_path (c : C) (cleanup : bool) b : bool * nat * bond C :=
  let pid := wrap_uint (nextID b + 1) in
  let ptr := length (heap b) in
  let b := b <| nextID := pid |>
             <| heap ::= (λ h, h ++ [MkPath pid c cleanup false None 0 0]) |> in
  if closed b then (false, ptr, b)
  else if emptyExpired b then (false, ptr, b)
  else
    let b := stop_empty_timer b in
    let b := b <| paths ::= (λ ps, ps ++ [ptr]) |> in
    let '(st, reg) := Metrics.OpenPath (path_label b pid) (registry b) in
    (true, ptr, update_path ptr (λ p, p <| stats := Some st |>) (b <| registry := reg |>)).

(** [AddConn]; [None] is a nil connection, whose [done] channel is closed at
    once.  The new location is returned in place of its [done] channel; its
    [readLoop] runs separately ([readLoop_step]). *)
Definition AddConn (c : option C) (cleanup : bool) b : option nat * bond C :=
  match c with
  | None => (None, b)
  | Some c =>
      let '(added, ptr, b) := link_path c cleanup b in
      (Some ptr, if added then notifyStateChanged b else closePath ptr b)
  end.

(** *** Reading *)

Inductive read_result := ReadContinue | ReadStop | ReadBlocked (data : bytes).

Definition observe_read ptr (n : Z) (err : option goerror) b : bond C :=
  b <| registry ::= Metrics.ObserveRead (heap b !! ptr ≫= stats) n err |>.

(** The send on [readCh] against [closed]; [pick_send] decides when both cases
    are ready. *)
Definition enqueue (pick_send : bool) (data : bytes) b : read_result * bond C :=
  let room := (length (readCh b) <? readChCapacity)%nat in
  if room && (negb (closed b) || pick_send) then
    (ReadContinue, b <| readCh ::= (λ q, q ++ [data]) |>)
  else if closed b then (ReadStop, b)
  else (ReadBlocked data, b).

(** One round of [readLoop]. *)
Definition readLoop_step (mtu : Z) (pick_send : bool) ptr b : read_result * bond C :=
  match heap b !! ptr with
  | None => (ReadStop, b)
  | Some path =>
      let '(data, err, c) := conn_Read readBufferSize (conn path) in
      let b := update_path ptr (λ p, p <| conn := c |>) b in
      let n := Z.of_nat (length data) in
      match err with
      | Some e =>
          (ReadStop,
           if negb (closing path) then observe_read ptr n (Some e) b
           else if n >? 0 then observe_read ptr n None b else b)
      | None =>
          let b := observe_read ptr n None b in
          if n =? 0 then (ReadContinue, b)
          else if n >? mtu + 128 then (ReadContinue, b)
          else enqueue pick_send data b
      end
  end.

(** [ReadFrom] into a buffer of [cap] bytes; [pick_packet] decides when both
    cases are ready, [None] is a call that blocks. *)
Definition ReadFrom (cap : nat) (pick_packet : bool) b : option (result bytes) * bond C :=
  match readCh b with
  | pkt :: rest =>
      if negb (closed b) || pick_packet
      then (Some (Ok (take cap pkt)), b <| readCh := rest |>)
      else (Some (Err net_ErrClosed), b)
  | [] => if closed b then (Some (Err net_ErrClosed), b) else (None, b)
  end.

(** *** Writing *)

(** One attempt on one path: the error the loop acts on. *)
Definition write_path (p : bytes) (elapsed : Z) ptr b : Z * option goerror * bond C :=
  match heap b !! ptr with
  | None => (0, None, b)
  | Some path =>
      let c := match writeDeadline b with
               | Some d => (conn_SetWriteDeadline d (conn path)).2
               | None => conn path
               end in
      let '(sampled, reg) := Metrics.BeginWrite (stats path) (registry b) in
      let '(n, err, c) := conn_Write p c in
      let len := Z.of_nat (length p) in
      let err := match err with
                 | None => if n =? len then None else Some (ioShortWrite n len)
                 | Some e => Some e
                 end in
      let '(started, metricErr) :=
        if closing path then (None, None)
        else (if sampled then Some elapsed else None, err) in
      let reg := Metrics.ObserveWrite (stats path) started n metricErr reg in
      (n, err, update_path ptr (λ p, p <| conn := c |>) (b <| registry := reg |>))
  end.

(** The attempts, in the order of [order]; [Some] when a path took the packet. *)
Fixpoint write_attempts (p : bytes) (elapsed : Z) (order : list nat) b : option Z * bond C :=
  match order with
  | [] => (None, b)
  | ptr :: order' =>
      let '(n, err, b) := write_path p elapsed ptr b in
      match err with
      | None => (Some n, b)
      | Some _ =>
          let b := if isPermanentPathError err then removePath ptr b else b in
          write_attempts p elapsed order' b
      end
  end.

(** [start := int(atomic.AddUint64(&b.nextPath, 1)-1) % len(paths)] and the
    index [(start+attempt)%len(paths)], for an [int] of [w] bits. *)
Definition start_index (w counter len : Z) : Z := Z.rem (wrap_int_w w counter) len.

Definition attempt_index (start len : Z) (attempt : nat) : Z :=
  Z.rem (start + Z.of_nat attempt) len.

(** The paths in attempt order; [None] when an index is out of range. *)
Fixpoint attempt_order (ps : list nat) (start : Z) (attempts : list nat) : option (list nat) :=
  match attempts with
  | [] => Some []
  | a :: attempts' =>
      let i := attempt_index start (Z.of_nat (length ps)) a in
      if i <? 0 then None
      else
        ptr ← ps !! Z.to_nat i;
        rest ← attempt_order ps start attempts';
        Some (ptr :: rest)
  end.

(** [WriteTo].  A negative index panics in the attempt that uses it; since the
    index of attempt 0 has the sign of [start], the first attempt decides, and
    the model panics before any attempt. *)
Definition WriteTo (w elapsed : Z) (p : bytes) b : outcome (Z * option goerror * bond C) :=
  let len := Z.of_nat (length p) in
  if len =? 0 then Done (0, None, b)
  else if closed b then Done (0, Some net_ErrClosed, b)
  else
    let ps := snapshotPaths b in
    match ps with
    | [] =>
        let b := startEmptyGrace b in
        if closed b then Done (0, Some net_ErrClosed, b) else Done (len, None, b)
    | _ =>
        let start := start_index w (nextPath b) (Z.of_nat (length ps)) in
        let b := b <| nextPath ::= (λ z, wrap_uint (z + 1)) |> in
        match attempt_order ps start (seq 0 (length ps)) with
        | None => Panics
        | Some order =>
            match write_attempts p elapsed order b with
            | (Some n, b) => Done (n, None, b)
            | (None, b) =>
                if closed b then Done (0, Some net_ErrClosed, b)
                else Done (len, None, grace_if_empty b)
            end
        end
    end.

(** *** Deadlines *)

Definition SetReadDeadline (t : deadline) b : option goerror * bond C := (None, b).

Definition SetWriteDeadline (t : deadline) b : option goerror * bond C :=
  let b := b <| writeDeadline := Some t |> in
  (None, foldl (λ b ptr, update_path ptr
           (λ p, p <| conn := (conn_SetWriteDeadline t (conn p)).2 |>) b) b (snapshotPaths b)).

Definition SetDeadline (t : deadline) b : option goerror * bond C :=
  let '(_, b) := SetReadDeadline t b in SetWriteDeadline t b.
End ops.

(** ** What an operation leaves alone *)

Section frames.
Context {C : Type} `{NetConn C}.
Implicit Types (b : bond C) (ptr : nat).

(** [b'] differs from [b] only in the path objects of [X], the list of paths,
    metrics, timers and the state token. *)
Definition frame (X : list nat) b b' : Prop :=
  closed b' = closed b ∧ nextPath b' = nextPath b ∧ writeDeadline b' = writeDeadline b ∧
  readCh b' = readCh b ∧ length (heap b') = length (heap b) ∧
  ∀ q, q ∉ X → heap b' !! q = heap b !! q.

Lemma frame_refl X b : frame X b b.
Proof. repeat split. Qed.

Lemma frame_same X b b' :
  closed b' = closed b → nextPath b' = nextPath b → writeDeadline b' = writeDeadline b →
  readCh b' = readCh b → heap b' = heap b → frame X b b'.
Proof. intros ???? E. unfold frame. by rewrite E. Qed.

Lemma frame_trans X Y b1 b2 b3 :
  X ⊆ Y → frame X b1 b2 → frame Y b2 b3 → frame Y b1 b3.
Proof.
  intros HX (?&?&?&?&?&Hq1) (?&?&?&?&?&Hq2). split_and!; try congruence.
  intros q Hq. rewrite Hq2 by done. apply Hq1. set_solver.
Qed.

Lemma frame_update ptr f b : frame [ptr] b (update_path ptr f b).
Proof.
  repeat split; simpl; [apply length_alter|]. intros q Hq.
  apply list_lookup_alter_ne. set_solver.
Qed.

Lemma startEmptyGrace_frame X b :
  frame X b (startEmptyGrace b) ∧ paths (startEmptyGrace b) = paths b.
Proof. unfold startEmptyGrace. go_cases; (split; [by apply frame_same|done]). Qed.

Lemma grace_if_empty_frame X b :
  frame X b (grace_if_empty b) ∧ paths (grace_if_empty b) = paths b.
Proof.
  unfold grace_if_empty. case_match; [apply startEmptyGrace_frame|].
  split; [apply frame_refl|done].
Qed.

Lemma unlink_path_frame ptr b :
  frame [ptr] b (unlink_path ptr b).2 ∧
  paths (unlink_path ptr b).2 = remove_first ptr (paths b) ∧
  (unlink_path ptr b).1 = bool_decide (ptr ∈ paths b).
Proof.
  unfold unlink_path. case_bool_decide as Hin.
  - split; [|done]. eapply (frame_trans [ptr]); [done|apply (frame_update ptr)|].
    by apply frame_same.
  - split; [apply frame_refl|]. simpl. by rewrite remove_first_not_in.
Qed.

Lemma removePath_frame ptr b :
  frame [ptr] b (removePath ptr b) ∧ paths (removePath ptr b) = remove_first ptr (paths b).
Proof.
  unfold removePath. destruct (unlink_path_frame ptr b) as (Hf & Hp & _).
  destruct (unlink_path ptr b) as [[] b1]; simpl in *; [|done].
  destruct (grace_if_empty_frame [ptr] b1) as [Hg Hgp]. split; [|simpl; by rewrite Hgp].
  eapply (frame_trans [ptr]); [done| |apply frame_update].
  eapply (frame_trans [ptr]); [done|exact Hf|]. exact Hg.
Qed.

Lemma write_path_frame p el ptr b :
  frame [ptr] b (write_path p el ptr b).2 ∧ paths (write_path p el ptr b).2 = paths b.
Proof.
  unfold write_path. destruct (heap b !! ptr) as [path|]; [|split; [apply frame_refl|done]].
  destruct (Metrics.BeginWrite _ _), (conn_Write _ _) as [[n err] c].
  destruct (closing path); (split; [|done]);
    (eapply (frame_trans [ptr]); [done| |apply frame_update]); by apply frame_same.
Qed.
End frames.

(** ** Well-formed bonds and write verdicts *)

Section writing.
Context {C : Type} `{NetConn C}.
Implicit Types (b : bond C) (ptr : nat).

Definition bond_wf b : Prop :=
  NoDup (paths b) ∧ Forall (λ ptr, is_Some (heap b !! ptr)) (paths b).

(** What the path's connection answers to this packet in state [b]. *)
Definition verdict (p : bytes) b ptr : option goerror :=
  match heap b !! ptr with
  | None => None
  | Some path =>
      let c := match writeDeadline b with
               | Some d => (conn_SetWriteDeadline d (conn path)).2
               | None => conn path
               end in
      let '(n, err, _) := conn_Write p c in
      match err with
      | None => if n =? Z.of_nat (length p) then None else Some (ioShortWrite n (Z.of_nat (length p)))
      | Some e => Some e
      end
  end.

Lemma write_path_verdict p el ptr b n err b' :
  is_Some (heap b !! ptr) → write_path p el ptr b = (n, err, b') →
  err = verdict p b ptr ∧ (err = None → n = Z.of_nat (length p)).
Proof.
  intros [path Hp] E. unfold write_path, verdict in *. rewrite Hp in *.
  destruct (Metrics.BeginWrite _ _), (conn_Write _ _) as [[n' err'] c'].
  destruct (closing path); simplify_eq/=; (split; [done|]); go_cases; done || lia.
Qed.

Lemma verdict_frame X p b b' ptr : frame X b b' → ptr ∉ X → verdict p b' ptr = verdict p b ptr.
Proof. intros (_ & _ & Hd & _ & _ & Hh) Hn. unfold verdict. by rewrite Hd, Hh. Qed.

(** A path that fails for good before the packet is placed is dropped. *)
Definition drops (p : bytes) b (tried : list nat) ptr : bool :=
  bool_decide (ptr ∈ tried) && isPermanentPathError (verdict p b ptr).

Definition survivors (p : bytes) b (tried : list nat) : list nat :=
  filter (λ ptr, drops p b tried ptr = false) (paths b).

Lemma survivors_nil p b : survivors p b [] = paths b.
Proof. apply filter_all. intros y _. unfold drops. by rewrite bool_decide_eq_false_2 by set_solver. Qed.

Lemma survivors_cons p b b2 ptr tried :
  NoDup (paths b) → frame [ptr] b b2 → ptr ∉ tried →
  paths b2 = (if isPermanentPathError (verdict p b ptr)
              then remove_first ptr (paths b) else paths b) →
  survivors p b2 tried = survivors p b (ptr :: tried).
Proof.
  intros Hnd Hf Hn Hp. unfold survivors.
  assert (∀ y, y ≠ ptr → drops p b2 tried y = drops p b (ptr :: tried) y) as Hy.
  { intros y Hy. unfold drops. rewrite (verdict_frame [ptr] p b b2 y) by (done || set_solver).
    f_equal. apply bool_decide_ext. set_solver. }
  assert (drops p b2 tried ptr = false) as Hptr2.
  { unfold drops. by rewrite bool_decide_eq_false_2. }
  assert (drops p b (ptr :: tried) ptr = isPermanentPathError (verdict p b ptr)) as Hptr.
  { unfold drops. by rewrite bool_decide_eq_true_2 by set_solver. }
  rewrite Hp. destruct (isPermanentPathError _).
  - rewrite remove_first_filter, list_filter_filter by done. apply list_filter_iff.
    intros y. destruct (decide (y = ptr)) as [->|]; [rewrite Hptr; naive_solver|].
    rewrite Hy by done. naive_solver.
  - apply list_filter_iff. intros y. destruct (decide (y = ptr)) as [->|].
    + by rewrite Hptr, Hptr2.
    + by rewrite Hy.
Qed.

(** The outcome of the attempts: [tried] are the paths that failed, in order,
    and the packet went to the next one, or to none. *)
Definition attempts_outcome p b (order : list nat) (r : option Z) b' : Prop :=
  ∃ tried rest, order = tried ++ rest ∧
    Forall (λ ptr, is_Some (verdict p b ptr)) tried ∧
    paths b' = survivors p b tried ∧ frame (tried ++ take 1 rest) b b' ∧
    match rest with
    | [] => r = None
    | q :: _ => verdict p b q = None ∧ r = Some (Z.of_nat (length p))
    end.

Lemma write_attempts_spec p el order b r b' :
  NoDup order → Forall (λ ptr, is_Some (heap b !! ptr)) order → NoDup (paths b) →
  write_attempts p el order b = (r, b') → attempts_outcome p b order r b'.
Proof.
  revert b. induction order as [|ptr order IH]; intros b Hnd Hheap Hpaths E.
  { simpl in E. simplify_eq. exists [], []. split_and!; try done.
    by rewrite survivors_nil. }
  apply NoDup_cons in Hnd as [Hn Hnd]. apply Forall_cons in Hheap as [Hptr Hheap].
  simpl in E. destruct (write_path p el ptr b) as [[n err] b1] eqn:Ew.
  destruct (write_path_verdict _ _ _ _ _ _ _ Hptr Ew) as [Hv Hlen].
  pose proof (write_path_frame p el ptr b) as [Hf1 Hp1]. rewrite Ew in Hf1, Hp1. simpl in Hf1, Hp1.
  destruct err as [e|].
  - set (b2 := if isPermanentPathError (Some e) then removePath ptr b1 else b1) in *.
    assert (frame [ptr] b b2) as Hf2.
    { subst b2. destruct (isPermanentPathError _); [|done].
      eapply (frame_trans [ptr]); [done|done|apply removePath_frame]. }
    assert (paths b2 = (if isPermanentPathError (verdict p b ptr)
              then remove_first ptr (paths b) else paths b)) as Hp2.
    { subst b2. rewrite <-Hv. destruct (isPermanentPathError _); [|done].
      rewrite (proj2 (removePath_frame ptr b1)). by rewrite Hp1. }
    apply IH in E as (tried & rest & -> & Ht & Hp' & Hf' & Hr); [|done| |].
    + assert (ptr ∉ tried) as Hnt by set_solver.
      assert (∀ y, y ∈ tried ++ rest → verdict p b2 y = verdict p b y) as Hvy.
      { intros y Hy. apply (verdict_frame [ptr]); [done|].
        intros ->%list_elem_of_singleton. done. }
      exists (ptr :: tried), rest. split_and!; [done| | | |].
      * constructor; [rewrite <-Hv; eauto|]. rewrite Forall_forall in *.
        intros y Hy. rewrite <-Hvy by set_solver. by apply Ht.
      * rewrite Hp'. by apply survivors_cons.
      * eapply (frame_trans [ptr]); [set_solver|done|].
        destruct Hf' as (?&?&?&?&?&Hq). split_and!; try done.
        intros q Hq'. apply Hq. set_solver.
      * destruct rest as [|q rest]; [done|]. rewrite <-Hvy by set_solver. done.
    + destruct Hf2 as (_&_&_&_&_&Hq). rewrite Forall_forall in *. intros y Hy.
      rewrite Hq by set_solver. by apply Hheap.
    + rewrite Hp2. case_match; [by apply NoDup_remove_first|done].
  - simplify_eq. exists [], (ptr :: order). split_and!; try done.
    + by rewrite survivors_nil.
    + by rewrite Hlen.
Qed.

(** ** Round robin *)

Lemma start_index_nonneg w c n :
  0 < w → 0 ≤ c < 2 ^ (w - 1) → 0 < n → start_index w c n = c mod n.
Proof.
  intros Hw Hc Hn. unfold start_index. rewrite wrap_int_w_id by done.
  apply Z.rem_mod_nonneg; lia.
Qed.

Lemma attempt_order_mapM ps start l :
  0 ≤ start → ps ≠ [] →
  attempt_order ps start l =
    mapM (λ a, ps !! rotate_nat_add (Z.to_nat start) a (length ps)) l.
Proof.
  intros Hs Hps. assert (0 < Z.of_nat (length ps)) by (destruct ps; simpl in *; [done|lia]).
  induction l as [|a l IH]; [done|]. simpl. unfold attempt_index, rotate_nat_add in *.
  rewrite Z.rem_mod_nonneg, Z2Nat.id by lia.
  pose proof (Z.mod_pos_bound (start + Z.of_nat a) (Z.of_nat (length ps))).
  destruct (Z.ltb_spec ((start + Z.of_nat a) mod Z.of_nat (length ps)) 0); [lia|].
  rewrite Z2Nat.id in IH by lia. by rewrite IH.
Qed.

Lemma attempt_order_rotate ps start :
  0 ≤ start → ps ≠ [] →
  attempt_order ps start (seq 0 (length ps)) = Some (rotate (Z.to_nat start) ps).
Proof.
  intros Hs Hps. rewrite attempt_order_mapM by done. apply mapM_Some_2.
  apply Forall2_same_length_lookup_2; [by rewrite length_seq, length_rotate|].
  intros i x y Hx Hy. apply lookup_seq in Hx as [-> ?]. simpl.
  by apply lookup_rotate_r_Some in Hy as [? _].
Qed.

Lemma rotate_mod {A} (c : Z) (l : list A) : 0 ≤ c → l ≠ [] →
  rotate (Z.to_nat (c mod Z.of_nat (length l))) l = rotate (Z.to_nat c) l.
Proof.
  intros Hc Hl. assert (0 < Z.of_nat (length l)) by (destruct l; simpl in *; [done|lia]).
  unfold rotate. f_equal; f_equal.
  all: rewrite Z2Nat.inj_mod, Nat2Z.id, Nat.Div0.mod_mod by lia; done.
Qed.

Lemma rotate_permutation {A} n (l : list A) : rotate n l ≡ₚ l.
Proof. unfold rotate. rewrite Permutation_app_comm. by rewrite take_drop. Qed.

Definition order_of b : list nat := rotate (Z.to_nat (nextPath b)) (paths b).

(** What one call of [WriteTo] on an open bond with paths amounts to. *)
Definition striped (p : bytes) b (r : Z * option goerror * bond C) : Prop :=
  let '(n, err, b') := r in
  n = Z.of_nat (length p) ∧ err = None ∧ nextPath b' = wrap_uint (nextPath b + 1) ∧
  ∃ tried rest, order_of b = tried ++ rest ∧
    Forall (λ ptr, is_Some (verdict p b ptr)) tried ∧
    paths b' = survivors p b tried ∧
    (∀ q, head rest = Some q → verdict p b q = None) ∧
    (∀ q, q ∉ tried → head rest ≠ Some q → heap b' !! q = heap b !! q).

Lemma WriteTo_striped w el p b :
  bond_wf b → p ≠ [] → closed b = false → paths b ≠ [] →
  0 < w → 0 ≤ nextPath b < 2 ^ (w - 1) →
  ∃ r, WriteTo w el p b = Done r ∧ striped p b r ∧ closed r.2 = false.
Proof.
  intros [Hnd Hheap] Hp Hc Hps Hw Hn. unfold WriteTo, snapshotPaths.
  assert ((Z.of_nat (length p) =? 0) = false) as -> by (destruct p; simpl in *; [done|lia]).
  rewrite Hc. destruct (paths b) as [|ptr0 ps0] eqn:Eps; [done|]. rewrite <-Eps in *.
  assert (0 < Z.of_nat (length (paths b))) by (rewrite Eps; simpl; lia).
  rewrite start_index_nonneg, attempt_order_rotate, rotate_mod by (done || lia || (apply Z.mod_pos_bound; lia)).
  fold (order_of b).
  set (b1 := b <| nextPath ::= _ |>). destruct (write_attempts p el (order_of b) b1) as [r b'] eqn:E.
  apply write_attempts_spec in E as (tried & rest & Ho & Ht & Hp' & Hf & Hr).
  2: by unfold order_of; rewrite rotate_permutation.
  2: by unfold order_of; rewrite rotate_permutation.
  2: done.
  assert (closed b' = false ∧ nextPath b' = wrap_uint (nextPath b + 1)) as [Hc' Hn'].
  { destruct Hf as (-> & -> & _). done. }
  assert (∀ q, q ∉ tried → head rest ≠ Some q → heap b' !! q = heap b !! q) as Hheap'.
  { intros q Hq1 Hq2. destruct Hf as (_&_&_&_&_&Hq). rewrite Hq; [done|].
    rewrite not_elem_of_app. split; [done|]. destruct rest; simpl in *; set_solver. }
  destruct rest as [|q rest].
  - subst r. rewrite Hc'.
    destruct (grace_if_empty_frame [] b') as [(Gc&Gn&_&_&_&Gh) Gp].
    eexists. split; [reflexivity|]. split; [|simpl; by rewrite Gc].
    split_and!; [done|done|by rewrite Gn|]. exists tried, [].
    split_and!; [done|done|by rewrite Gp|done|].
    intros q Hq1 Hq2. rewrite Gh by set_solver. by apply Hheap'.
  - destruct Hr as [Hv ->]. eexists. split; [reflexivity|]. split; [|done].
    split_and!; [done|done|done|]. exists tried, (q :: rest). split_and!; try done.
    by intros ? [= <-].
Qed.
End writing.

(** ** Theorems on writing *)

Section theorems.
Context {C : Type} `{NetConn C}.
Implicit Types (b : bond C).

Lemma WriteTo_no_paths w el p b :
  p ≠ [] → closed b = false → paths b = [] →
  WriteTo w el p b = Done (Z.of_nat (length p), None, startEmptyGrace b).
Proof.
  intros Hp Hc Hps. unfold WriteTo, snapshotPaths. rewrite Hps, Hc.
  destruct (startEmptyGrace_frame [] b) as [(-> & _) _]. rewrite Hc.
  destruct p; [done|]. done.
Qed.

(** [WriteTo] never hands KCP an error other than [net.ErrClosed], and
    that one only on a closed bond.  As long as the write counter has not
    reached the sign bit of [int] it returns, and the count it returns is the
    packet's length, whatever the paths do; an error would end the KCP
    session. *)
Theorem write_result w el p b :
  bond_wf b → 0 < w → 0 ≤ nextPath b < 2 ^ (w - 1) →
  ∃ n err b', WriteTo w el p b = Done (n, err, b') ∧
    if closed b && negb (bool_decide (p = []))
    then n = 0 ∧ err = Some net_ErrClosed ∧ b' = b
    else n = Z.of_nat (length p) ∧ err = None ∧ closed b' = closed b.
Proof.
  intros Hwf Hw Hn. destruct (decide (p = [])) as [->|Hp].
  { exists 0, None, b. split; [done|]. by rewrite andb_false_r. }
  rewrite bool_decide_eq_false_2 by done. destruct (closed b) eqn:Hc; simpl.
  { exists 0, (Some net_ErrClosed), b. split; [|done]. unfold WriteTo. rewrite Hc.
    by destruct p. }
  destruct (decide (paths b = [])) as [Hps|Hps].
  - rewrite WriteTo_no_paths by done. do 3 eexists. split; [reflexivity|].
    do 2 (split; [done|]). destruct (startEmptyGrace_frame [] b) as [(-> & _) _]. done.
  - destruct (WriteTo_striped w el p b) as ([[n err] b'] & -> & (-> & -> & _) & Hc'); try done.
    by do 3 eexists.
Qed.

(** C2: round robin with fail-over.  On an open bond with paths, the paths
    are attempted starting from the write counter's residue, each at most
    once; the packet goes to the first path that takes it; of the paths that
    failed before, exactly those with a permanent error are removed; paths
    not reached are not touched. *)
Theorem write_striped w el p b :
  bond_wf b → p ≠ [] → closed b = false → paths b ≠ [] →
  0 < w → 0 ≤ nextPath b < 2 ^ (w - 1) →
  ∃ r, WriteTo w el p b = Done r ∧ striped p b r ∧ closed r.2 = false.
Proof. apply WriteTo_striped. Qed.

(** striping is fair: of any [n] consecutive writes over [n] paths,
    each path is the first choice of exactly one. *)
Theorem stripe_fair w c (ps : list nat) :
  let n := length ps in
  0 < w → 0 ≤ c → c + Z.of_nat n ≤ 2 ^ (w - 1) →
  (λ i, attempt_order ps (start_index w (c + Z.of_nat i) (Z.of_nat n)) (seq 0 n) ≫= head)
    <$> seq 0 n ≡ₚ Some <$> ps.
Proof.
  intros n Hw Hc Hb. destruct (decide (ps = [])) as [->|Hps]; [done|].
  assert (0 < Z.of_nat n) by (subst n; destruct ps; simpl in *; [done|lia]).
  trans (Some <$> rotate (Z.to_nat c) ps); [|by rewrite rotate_permutation].
  apply reflexive_eq, list_eq. intros i. rewrite !list_lookup_fmap. destruct (decide (i < n)%nat) as [Hi|Hi].
  - rewrite lookup_seq_lt, lookup_rotate_r by done. simpl.
    rewrite start_index_nonneg, attempt_order_rotate by (done || lia || (apply Z.mod_pos_bound; lia)).
    subst n. rewrite rotate_mod by (done || lia). simpl.
    rewrite (head_lookup (rotate _ _)), lookup_rotate_r by lia. unfold rotate_nat_add.
    rewrite !Z2Nat.id, Nat2Z.inj_0, Z.add_0_r by lia.
    destruct (ps !! _) eqn:E; [done|]. apply lookup_ge_None in E.
    pose proof (Z.mod_pos_bound (c + Z.of_nat i) (Z.of_nat (length ps))). lia.
  - rewrite !(proj2 (lookup_ge_None _ _)); [done|rewrite length_rotate|rewrite length_seq]; lia.
Qed.

(** The order of the attempts is undefined exactly when the start is negative. *)
Lemma attempt_order_None ps start : ps ≠ [] → - Z.of_nat (length ps) < start →
  attempt_order ps start (seq 0 (length ps)) = None ↔ start < 0.
Proof.
  intros Hps Hs. split.
  - intros E. destruct (Z.ltb_spec start 0); [done|]. by rewrite attempt_order_rotate in E by done.
  - intros Hneg. destruct ps as [|x ps]; [done|]. cbn [length seq attempt_order]. unfold attempt_index.
    change (Z.of_nat 0) with 0. cbn [length] in Hs. set (k := Z.of_nat (S (length ps))) in *.
    rewrite Z.add_0_r, (proj2 (Z.rem_small_iff start k ltac:(lia))) by lia.
    by destruct (Z.ltb_spec start 0); [|lia].
Qed.

(** The start of a write on a 32-bit target is negative exactly when bit 31 of
    the counter is set and the paths do not divide what is missing to 2^32. *)
Lemma start_index_32 c n : 0 < n →
  - n < start_index 32 c n ∧
  (start_index 32 c n < 0 ↔ 2 ^ 31 ≤ c mod 2 ^ 32 ∧ ¬ (n | 2 ^ 32 - c mod 2 ^ 32)).
Proof.
  intros Hn. unfold start_index. set (m := c mod 2 ^ 32).
  assert (0 ≤ m < 2 ^ 32) as Hm by (apply Z.mod_pos_bound; done).
  assert (wrap_int_w 32 c = if m <? 2 ^ 31 then m else m - 2 ^ 32) as ->.
  { unfold wrap_int_w. change (2 ^ (32 - 1)) with (2 ^ 31). rewrite <-Zplus_mod_idemp_l. fold m.
    destruct (Z.ltb_spec m (2 ^ 31)); [rewrite Z.mod_small by lia; lia|].
    replace (m + 2 ^ 31) with (m - 2 ^ 31 + 1 * 2 ^ 32) by lia. rewrite Z.mod_add, Z.mod_small by lia. lia. }
  destruct (Z.ltb_spec m (2 ^ 31)) as [Hlt|Hge].
  - pose proof (Z.rem_bound_pos m n ltac:(lia) Hn). split; [lia|]. split; lia.
  - pose proof (Z.rem_bound_pos_neg (m - 2 ^ 32) n Hn ltac:(lia)) as Hb. split; [lia|].
    assert ((n | 2 ^ 32 - m) ↔ Z.rem (m - 2 ^ 32) n = 0) as ->; [|split; lia].
    rewrite Z.rem_divide by lia. rewrite <-(Z.divide_opp_r n (m - 2 ^ 32)). by rewrite Z.opp_sub_distr, Z.add_comm.
Qed.

(** C33: on a 32-bit target, [int(counter)] is negative whenever bit 31 of the
    write counter is set, first after 2^31 writes.  A write on an open bond with
    paths panics with an index out of range exactly when that bit is set and the
    number of paths does not divide the distance of the counter to the next
    multiple of 2^32: never with one path, and with [n] paths on all of the last
    2^31 of each 2^32 writes but each [n]-th. *)
Theorem write_panics_32 el p b :
  p ≠ [] → closed b = false → paths b ≠ [] →
  WriteTo 32 el p b = Panics ↔
  2 ^ 31 ≤ nextPath b mod 2 ^ 32 ∧ ¬ (Z.of_nat (length (paths b)) | 2 ^ 32 - nextPath b mod 2 ^ 32).
Proof.
  intros Hp Hc Hps. assert (0 < Z.of_nat (length (paths b))) as Hn by (destruct (paths b); cbn; [done|lia]).
  destruct (start_index_32 (nextPath b) _ Hn) as [Hlo Hneg]. rewrite <-Hneg, <-(attempt_order_None (paths b)) by done.
  unfold WriteTo, snapshotPaths. rewrite Hc. destruct (Z.eqb_spec (Z.of_nat (length p)) 0); [by destruct p|].
  destruct (paths b) as [|x ps] eqn:Eps; [done|].
  destruct (attempt_order _ _ _) as [order|]; [|done]. split; [|done].
  destruct (write_attempts _ _ _ _) as [[?|] b']; [done|]. by destruct (closed b').
Qed.

(** ** Theorems on reading *)

(** The receive queue holds whole packets KCP can take. *)
Definition queue_ok (mtu : Z) b : Prop :=
  (length (readCh b) ≤ readChCapacity)%nat ∧
  Forall (λ d, 0 < Z.of_nat (length d) ≤ mtu + 128) (readCh b).

(** What one round of the reader may add to the queue. *)
Definition receives (mtu : Z) ptr b b' : Prop :=
  readCh b' = readCh b ∨
  ∃ path data c, heap b !! ptr = Some path ∧
    conn_Read readBufferSize (conn path) = (data, None, c) ∧
    0 < Z.of_nat (length data) ≤ mtu + 128 ∧ readCh b' = readCh b ++ [data].

Lemma enqueue_spec pick data b :
  (length (readCh b) ≤ readChCapacity)%nat →
  (length (readCh (enqueue pick data b).2) ≤ readChCapacity)%nat ∧
  (readCh (enqueue pick data b).2 = readCh b ∨ readCh (enqueue pick data b).2 = readCh b ++ [data]).
Proof.
  intros Hlen. unfold enqueue.
  destruct (Nat.ltb_spec (length (readCh b)) readChCapacity); simpl;
    destruct (closed b); simpl; try destruct pick; simpl; rewrite ?length_app; simpl;
    split; auto; lia.
Qed.

Lemma readLoop_receives mtu pick ptr b :
  (length (readCh b) ≤ readChCapacity)%nat →
  (length (readCh (readLoop_step mtu pick ptr b).2) ≤ readChCapacity)%nat ∧
  receives mtu ptr b (readLoop_step mtu pick ptr b).2.
Proof.
  intros Hlen. unfold readLoop_step, receives.
  destruct (heap b !! ptr) as [path|] eqn:Hp; [|by auto].
  destruct (conn_Read _ _) as [[data err] c] eqn:Er.
  destruct err as [e|]; [simpl; repeat case_match; by auto|].
  destruct (Z.eqb_spec (Z.of_nat (length data)) 0); [by auto|].
  destruct (Z.gtb_spec (Z.of_nat (length data)) (mtu + 128)); [by auto|].
  destruct (enqueue_spec pick data (observe_read ptr (Z.of_nat (length data)) None
    (update_path ptr (λ p, p <| conn := c |>) b))) as [HL [HR|HR]]; [done| |];
    (split; [done|]); [by left|right].
  exists path, data, c. split_and!; try done; lia.
Qed.

(** packets are delivered whole, in order and never invented.  A reader
    appends at most the datagram it read, unmodified and within the MTU
    headroom, to a queue of at most 1024 entries; [ReadFrom] with a buffer of
    MTU plus headroom takes the oldest packet out untruncated, or reports
    [net.ErrClosed] on a closed bond. *)
Theorem packets_intact mtu pick ptr b cap :
  queue_ok mtu b → mtu + 128 ≤ Z.of_nat cap →
  (let b' := (readLoop_step mtu pick ptr b).2 in queue_ok mtu b' ∧ receives mtu ptr b b') ∧
  (match readCh b with
   | [] => ReadFrom cap pick b =
             (if closed b then Some (Err net_ErrClosed) else None, b)
   | pkt :: rest =>
       ReadFrom cap pick b = (Some (Ok pkt), b <| readCh := rest |>) ∨
       closed b = true ∧ ReadFrom cap pick b = (Some (Err net_ErrClosed), b)
   end).
Proof.
  intros [Hlen Hq] Hcap. split.
  - destruct (readLoop_receives mtu pick ptr b Hlen) as [HL HR]. split; [|done].
    split; [done|]. destruct HR as [->|(path & data & c & _ & _ & Hd & ->)]; [done|].
    apply Forall_app. split; [done|]. by apply Forall_singleton.
  - unfold ReadFrom. destruct (readCh b) as [|pkt rest]; [by destruct (closed b)|].
    apply Forall_cons in Hq as [Hpkt _]. rewrite take_ge by lia.
    destruct (closed b), pick; auto.
Qed.
End theorems.

(** ** Witnesses and error classes *)

Definition dgram_bond (n : nat) (counter : Z) : bond dgram :=
  let b := newBondedPacketConn Metrics.zero_registry (str "b") 0 in
  (Nat.iter n (λ b, (AddConn (Some (fresh_dgram [])) true b).2) b) <| nextPath := counter |>.

Lemma dgram_bond_wf : bond_wf (dgram_bond 3 7).
Proof. split; [apply (bool_decide_unpack _)|apply (bool_decide_unpack _)]; by vm_compute. Qed.

Lemma write_result_witness :
  ∃ n err b', WriteTo 32 5 (str "kcp") (dgram_bond 3 7) = Done (n, err, b') ∧
    (n = 3 ∧ err = None ∧ closed b' = false).
Proof. apply (write_result 32 5 (str "kcp") (dgram_bond 3 7)); [apply dgram_bond_wf|lia|simpl; lia]. Defined.

Lemma write_striped_witness :
  ∃ r, WriteTo 32 5 (str "kcp") (dgram_bond 3 7) = Done r ∧
       striped (str "kcp") (dgram_bond 3 7) r ∧ closed r.2 = false.
Proof. apply write_striped; [apply dgram_bond_wf|done|done|done|lia|simpl; lia]. Defined.

Lemma stripe_fair_witness :
  (λ i, attempt_order [4; 5; 6]%nat (start_index 32 (7 + Z.of_nat i) 3) (seq 0 3) ≫= head)
    <$> seq 0 3 ≡ₚ Some <$> [4; 5; 6]%nat.
Proof. apply (stripe_fair 32 7 [4; 5; 6]%nat); [lia|lia|simpl; lia]. Defined.

(** Three paths panic at write 2^31 and one later; two panic at the second of these
    writes only; one path never. *)
Lemma write_panics_32_witness :
  WriteTo 32 5 (str "kcp") (dgram_bond 3 (2 ^ 31)) = Panics ∧
  WriteTo 32 5 (str "kcp") (dgram_bond 2 (2 ^ 31)) ≠ Panics ∧
  WriteTo 32 5 (str "kcp") (dgram_bond 2 (2 ^ 31 + 1)) = Panics ∧
  WriteTo 32 5 (str "kcp") (dgram_bond 1 (2 ^ 31 + 1)) ≠ Panics.
Proof.
  split_and!.
  - apply write_panics_32; [done..|]. split; [by vm_compute|]. rewrite <-Z.mod_divide by done. by vm_compute.
  - intros [_ H]%write_panics_32; [|done..]. apply H. rewrite <-Z.mod_divide by done. by vm_compute.
  - apply write_panics_32; [done..|]. split; [by vm_compute|]. rewrite <-Z.mod_divide by done. by vm_compute.
  - intros [_ H]%write_panics_32; [|done..]. apply H. rewrite <-Z.mod_divide by done. by vm_compute.
Defined.

Lemma packets_intact_witness :
  let b := dgram_bond 1 0 in
  (let b' := (readLoop_step 1200 true 0 b).2 in
   queue_ok 1200 b' ∧ receives 1200 0 b b') ∧ ReadFrom 1400 true b = (None, b).
Proof.
  apply (packets_intact 1200 true 0 (dgram_bond 1 0) 1400); [|lia].
  split; [simpl; lia|constructor].
Defined.

Lemma Contains_prefix s t : has_prefix t s = true → Contains s t = true.
Proof. intros E. destruct s; simpl in *; by rewrite E. Qed.

(** which write errors cost a path.  A short write never does, nor does a
    [net.Error] time-out or a text naming a deadline, unless the error chain
    says the connection is closed; a chain with [net.ErrClosed],
    [io.ErrClosedPipe] or [io.EOF] always does. *)
Theorem permanent_errors n len e :
  isPermanentPathError (Some (ioShortWrite n len)) = false ∧
  (isPermanentPathError (Some e) = true ↔
     ErrClosed ∈ err_chain e ∨ ErrClosedPipe ∈ err_chain e ∨ EOF ∈ err_chain e ∨
     (err_timeout e ≠ Some true ∧
      Forall (λ t, Contains (ToLower (err_text e)) t = false) transient_texts ∧
      Exists (λ t, Contains (ToLower (err_text e)) t = true) permanent_texts)).
Proof.
  split.
  - assert (existsb (Contains (ToLower (err_text (ioShortWrite n len)))) transient_texts = true) as E.
    { apply existsb_Exists. do 3 right. left. by apply Contains_prefix. }
    unfold isPermanentPathError. set (e' := ioShortWrite n len) in *.
    change (errors_is ErrClosed e' || _ || _) with false. cbv iota zeta.
    rewrite bool_decide_eq_false_2 by done. by rewrite E.
  - unfold isPermanentPathError, errors_is.
    destruct (bool_decide_reflect (ErrClosed ∈ err_chain e)); [simpl; tauto|].
    destruct (bool_decide_reflect (ErrClosedPipe ∈ err_chain e)); [simpl; tauto|].
    destruct (bool_decide_reflect (EOF ∈ err_chain e)); [simpl; tauto|]. simpl orb. cbv iota.
    destruct (bool_decide_reflect (err_timeout e = Some true)); [naive_solver|]. cbv zeta.
    rewrite <-existsb_false_Forall, <-existsb_Exists.
    destruct (existsb _ transient_texts); [naive_solver|]. tauto.
Qed.

End BondedConn.
