(* ===== verification/BondedRaces.v ===== *)
(** * Interleavings of the bonded packet connection

    Goroutines are call stacks of [task]s; a task is what remains of one
    function from one atomic section on.  A step runs the top task of one
    goroutine: one critical section, one channel operation or one call into a
    path connection, as defined in [BondedConn].  Callers may start [AddConn],
    [WriteTo] and [Close] at any moment, a timer may fire at any moment, and the
    network may change what a connection will answer at any moment.  The calls
    of [Close] a connection has seen are counted by [closes] ([GoNet]): a caller
    hands [AddConn] a connection it has not closed, and the network closes
    nothing. *)

From S2P Require Import Prelude GoStrings GoNet Metrics BondedConn.

Module BondedRaces.
Import BondedConn.

Section races.
Context {C : Type} `{NetConn C} `{!ConnCloses C}.
(** The MTU and the width of [int]. *)
Context (mtu w : Z).
Implicit Types (b : bond C) (ptr : nat).

Inductive task :=
  | TAdd (c : C) (cleanup : bool)   (* AddConn, up to its unlock *)
  | TAdded ptr                      (* AddConn: notify, go readLoop *)
  | TReader ptr                     (* readLoop, before a Read *)
  | TSend ptr (data : bytes)        (* readLoop, at its select *)
  | TRemove ptr                     (* removePath, before its lock *)
  | TUnlinked ptr                   (* removePath: b.Count() == 0 ? *)
  | TGrace ptr                      (* removePath: startEmptyGrace *)
  | TNotify ptr                     (* removePath: notifyStateChanged *)
  | TFinish ptr                     (* conn.Close, cleanup, close(done) *)
  | TWrite (p : bytes)              (* WriteTo: closed ? *)
  | TWriteSnap (p : bytes)          (* WriteTo: snapshotPaths *)
  | TWriteStart (p : bytes) (ps : list nat) (* WriteTo: the write counter *)
  | TAttempt (p : bytes) (order : list nat)
  | TWriteGrace                     (* WriteTo: startEmptyGrace *)
  | TClose                          (* Close, at closeOnce *)
  | TCloseTimer                     (* Close: stop the timer *)
  | TCloseSnap                      (* Close: notify, snapshotPaths *)
  | TCloseLoop (ps : list nat)      (* Close: the removal loop *)
  | TCallback.                      (* the timer callback, before its lock *)

(** [exec t b b' ts sp]: task [t] runs its section from [b] to [b'], the
    goroutine goes on with [ts], and the goroutines [sp] are started. *)
Inductive exec : task → bond C → bond C → list task → list (list task) → Prop :=
  | exec_add c cl b ptr b' :
      link_path c cl b = (true, ptr, b') → exec (TAdd c cl) b b' [TAdded ptr] []
  | exec_add_refused c cl b ptr b' :
      link_path c cl b = (false, ptr, b') → exec (TAdd c cl) b b' [TFinish ptr] []
  | exec_added ptr b : exec (TAdded ptr) b (notifyStateChanged b) [] [[TReader ptr]]
  | exec_read_more pick ptr b b' :
      readLoop_step mtu pick ptr b = (ReadContinue, b') →
      exec (TReader ptr) b b' [TReader ptr] []
  | exec_read_stop pick ptr b b' :
      readLoop_step mtu pick ptr b = (ReadStop, b') →
      exec (TReader ptr) b b' [TRemove ptr] []
  | exec_read_block pick ptr data b b' :
      readLoop_step mtu pick ptr b = (ReadBlocked data, b') →
      exec (TReader ptr) b b' [TSend ptr data] []
  | exec_send pick ptr data b b' :
      enqueue pick data b = (ReadContinue, b') → exec (TSend ptr data) b b' [TReader ptr] []
  | exec_send_closed pick ptr data b b' :
      enqueue pick data b = (ReadStop, b') → exec (TSend ptr data) b b' [TRemove ptr] []
  | exec_remove ptr b b' :
      unlink_path ptr b = (true, b') → exec (TRemove ptr) b b' [TUnlinked ptr] []
  | exec_remove_gone ptr b b' :
      unlink_path ptr b = (false, b') → exec (TRemove ptr) b b' [] []
  | exec_unlinked ptr b :
      exec (TUnlinked ptr) b b (if Count b =? 0 then [TGrace ptr] else [TNotify ptr]) []
  | exec_grace ptr b : exec (TGrace ptr) b (startEmptyGrace b) [TNotify ptr] []
  | exec_notify ptr b : exec (TNotify ptr) b (notifyStateChanged b) [TFinish ptr] []
  | exec_finish ptr b : exec (TFinish ptr) b (closePath ptr b) [] []
  | exec_write_closed p b : closed b = true → exec (TWrite p) b b [] []
  | exec_write_open p b : closed b = false → exec (TWrite p) b b [TWriteSnap p] []
  | exec_write_empty p b :
      snapshotPaths b = [] → exec (TWriteSnap p) b b [TWriteGrace] []
  | exec_write_snap p b :
      snapshotPaths b ≠ [] → exec (TWriteSnap p) b b [TWriteStart p (snapshotPaths b)] []
  | exec_write_start p ps order b :
      attempt_order ps (start_index w (nextPath b) (Z.of_nat (length ps))) (seq 0 (length ps))
        = Some order →
      exec (TWriteStart p ps) b (b <| nextPath ::= (λ z, wrap_uint (z + 1)) |>)
        [TAttempt p order] []
  | exec_attempt_ok el p ptr order n b b' :
      write_path p el ptr b = (n, None, b') → exec (TAttempt p (ptr :: order)) b b' [] []
  | exec_attempt_err el p ptr order n e b b' :
      write_path p el ptr b = (n, Some e, b') →
      exec (TAttempt p (ptr :: order)) b b'
        (if isPermanentPathError (Some e) then [TRemove ptr; TAttempt p order]
         else [TAttempt p order]) []
  | exec_attempt_end p b :
      exec (TAttempt p []) b b (if negb (closed b) && (Count b =? 0) then [TWriteGrace] else []) []
  | exec_write_grace b : exec TWriteGrace b (startEmptyGrace b) [] []
  | exec_close_again b : closed b = true → exec TClose b b [] []
  | exec_close b :
      closed b = false → exec TClose b (b <| closed := true |>) [TCloseTimer] []
  | exec_close_timer b : exec TCloseTimer b (stop_empty_timer b) [TCloseSnap] []
  | exec_close_snap b :
      exec TCloseSnap b (notifyStateChanged b) [TCloseLoop (snapshotPaths b)] []
  | exec_close_next ptr ps b : exec (TCloseLoop (ptr :: ps)) b b [TRemove ptr; TCloseLoop ps] []
  | exec_close_end b : exec (TCloseLoop []) b b [] []
  | exec_callback expired b b' :
      timer_callback b = (expired, b') → exec TCallback b b' (if expired then [TClose] else []) [].

Definition config : Type := bond C * list (list task).

Inductive step : config → config → Prop :=
  | step_task t b b' ts sp k l1 l2 :
      exec t b b' ts sp → step (b, l1 ++ (t :: k) :: l2) (b', l1 ++ (ts ++ k) :: l2 ++ sp)
  | step_call t b l :
      (match t with TAdd c _ => closes c = 0%nat | TWrite _ | TClose => True | _ => False end) →
      step (b, l) (b, l ++ [[t]])
  | step_fire t b l :
      timers b !! t = Some Armed →
      step (b, l) (b <| timers ::= <[t := Fired]> |>, l ++ [[TCallback]])
  | step_network ptr c b l :
      (∀ p, heap b !! ptr = Some p → closes c = closes (conn p)) → step (b, l) (update_path ptr (λ p, p <| conn := c |>) b, l)
  | step_deadline d b l : step (b, l) ((SetWriteDeadline d b).2, l)
  | step_receive cap pick r b b' l : ReadFrom cap pick b = (r, b') → step (b, l) (b', l).

Definition start (lbl : bytes) (grace : Z) : config :=
  (newBondedPacketConn Metrics.zero_registry lbl grace, []).

Definition reachable (s : config) : Prop := ∃ lbl grace, rtc step (start lbl grace) s.

(** ** Steps that leave every path's life cycle alone *)

Definition life (p : bondedPath C) : bool * bool * option nat * nat * nat * nat :=
  (has_cleanup p, closing p, stats p, cleanup_calls p, done_closes p, closes (conn p)).

(** [c] has seen as many [Close] calls as the connection of [ptr]. *)
Definition same_closes ptr (c : C) b : Prop :=
  ∀ p, heap b !! ptr = Some p → closes c = closes (conn p).

Record quiet b b' : Prop := {
  quiet_paths : paths b' = paths b;
  quiet_closed : closed b' = closed b;
  quiet_timer : emptyTimer b' = emptyTimer b;
  quiet_expired : emptyExpired b' = emptyExpired b;
  quiet_heap : life <$> heap b' = life <$> heap b;
  quiet_registry : Metrics.same_paths (registry b) (registry b');
}.

Lemma quiet_refl b : quiet b b.
Proof. constructor; try done. Qed.

Lemma quiet_trans b1 b2 b3 : quiet b1 b2 → quiet b2 b3 → quiet b1 b3.
Proof.
  intros [?????Hr1] [?????Hr2]. constructor; try congruence.
  by eapply Metrics.same_paths_trans.
Qed.

Lemma life_update ptr (c : C) (h : list (bondedPath C)) :
  (∀ p, h !! ptr = Some p → closes c = closes (conn p)) →
  life <$> alter (λ p, p <| conn := c |>) ptr h = life <$> h.
Proof.
  intros Hc. apply list_eq. intros i. rewrite !list_lookup_fmap. destruct (decide (i = ptr)) as [->|].
  - rewrite list_lookup_alter_eq. destruct (h !! ptr) as [p|]; [|done]. simpl. f_equal.
    unfold life. simpl. by rewrite (Hc p).
  - by rewrite list_lookup_alter_ne.
Qed.

Lemma quiet_conn ptr c b :
  same_closes ptr c b → quiet b (update_path ptr (λ p, p <| conn := c |>) b).
Proof. intros Hc. constructor; try done. by apply life_update. Qed.

Lemma quiet_set_registry b reg :
  Metrics.same_paths (registry b) reg → quiet b (b <| registry := reg |>).
Proof. constructor; try done. Qed.

Lemma same_paths_read st n err r : Metrics.same_paths r (Metrics.ObserveRead st n err r).
Proof. destruct st; [apply Metrics.same_paths_ObserveRead|done]. Qed.

Lemma quiet_observe_read ptr n err b : quiet b (observe_read ptr n err b).
Proof. apply quiet_set_registry, same_paths_read. Qed.

Lemma quiet_enqueue pick data b : quiet b (enqueue pick data b).2.
Proof. unfold enqueue. repeat case_match; (by constructor) || apply quiet_refl. Qed.

Lemma quiet_readLoop_step pick ptr b : quiet b (readLoop_step mtu pick ptr b).2.
Proof.
  unfold readLoop_step. destruct (heap b !! ptr) as [path|] eqn:Hp; [|apply quiet_refl].
  pose proof (closes_Read readBufferSize (conn path)) as Hc.
  destruct (conn_Read _ _) as [[data err] c]. simpl in Hc.
  eapply quiet_trans; [apply (quiet_conn ptr c); intros ? ?; congruence|]. destruct err as [e|].
  - simpl. repeat case_match; apply quiet_refl || apply quiet_observe_read.
  - eapply quiet_trans; [apply quiet_observe_read|].
    repeat case_match; apply quiet_refl || apply quiet_enqueue.
Qed.

Lemma quiet_write_path p el ptr b : quiet b (write_path p el ptr b).2.
Proof.
  unfold write_path. destruct (heap b !! ptr) as [path|] eqn:Hp; [|apply quiet_refl].
  set (c0 := match writeDeadline b with Some _ => _ | None => _ end).
  assert (closes c0 = closes (conn path)) as Hc0
    by (subst c0; destruct (writeDeadline b); [apply closes_SetWriteDeadline|done]).
  pose proof (closes_Write p c0) as Hc. clearbody c0. set (bw := Metrics.BeginWrite (stats path) (registry b)).
  assert (Metrics.same_paths (registry b) bw.2) as Hbw.
  { subst bw. destruct (stats path); [apply Metrics.same_paths_BeginWrite|done]. }
  destruct bw as [sampled reg]. destruct (conn_Write _ _) as [[n err] c]. simpl in Hbw, Hc.
  assert (∀ st n err, Metrics.same_paths (registry b)
    (Metrics.ObserveWrite (stats path) st n err reg)) as How.
  { intros st n' err'. eapply Metrics.same_paths_trans; [exact Hbw|].
    destruct (stats path); [apply Metrics.same_paths_ObserveWrite|done]. }
  destruct (closing path); cbv beta iota zeta; cbn [snd];
    (eapply quiet_trans;
       [apply quiet_set_registry, How|apply (quiet_conn ptr c); intros ? ?; simplify_eq/=; congruence]).
Qed.

Lemma quiet_foldl (f : bond C → nat → bond C) ps b :
  (∀ b ptr, quiet b (f b ptr)) → quiet b (foldl f b ps).
Proof.
  intros Hf. revert b. induction ps as [|ptr ps IH]; intros b; [apply quiet_refl|].
  eapply quiet_trans; [apply Hf|apply IH].
Qed.

Lemma quiet_SetWriteDeadline d b : quiet b (SetWriteDeadline d b).2.
Proof.
  unfold SetWriteDeadline. cbn [snd]. eapply quiet_trans; [|apply quiet_foldl].
  - by constructor.
  - intros b0 ptr. constructor; try done. simpl.
    apply list_eq. intros i. rewrite !list_lookup_fmap. destruct (decide (i = ptr)) as [->|].
    + rewrite list_lookup_alter_eq. destruct (heap b0 !! ptr); [|done]. simpl. f_equal.
      unfold life. simpl. by rewrite closes_SetWriteDeadline.
    + by rewrite list_lookup_alter_ne.
Qed.

Lemma quiet_ReadFrom cap pick b : quiet b (ReadFrom cap pick b).2.
Proof. unfold ReadFrom. repeat case_match; (by constructor) || apply quiet_refl. Qed.

(** ** Every path ends exactly once *)

(** [t] is going to close [ptr]'s [done] channel. *)
Definition pend (ptr : nat) (t : task) : bool :=
  match t with
  | TUnlinked q | TGrace q | TNotify q | TFinish q => bool_decide (q = ptr)
  | _ => false
  end.

(** [t] is going to remove [ptr] on behalf of [Close]. *)
Definition dooms (ptr : nat) (t : task) : Prop :=
  match t with
  | TCloseTimer | TCloseSnap => True
  | TCloseLoop ps => ptr ∈ ps
  | TRemove q => q = ptr
  | _ => False
  end.

Definition done_of b ptr : nat := default 0%nat (done_closes <$> heap b !! ptr).
Definition occ b ptr : nat := count (λ q, bool_decide (q = ptr)) (paths b).

Definition cleanup_ok (p : bondedPath C) : Prop :=
  cleanup_calls p = (if has_cleanup p then done_closes p else 0%nat) ∧
  closes (conn p) = done_closes p.

(** A connection on its way into the bond has not been closed. *)
Definition fresh_task (t : task) : Prop :=
  match t with TAdd c _ => closes c = 0%nat | _ => True end.

Record inv (s : config) : Prop := {
  inv_token ptr :
    (done_of s.1 ptr + occ s.1 ptr + count (pend ptr) (concat s.2) =
       if decide (ptr < length (heap s.1)) then 1 else 0)%nat;
  inv_cleanup : Forall cleanup_ok (heap s.1);
  inv_fresh : Forall fresh_task (concat s.2);
  inv_timer : is_Some (emptyTimer s.1) → paths s.1 = [];
  inv_expired : emptyExpired s.1 = true → paths s.1 = [];
  inv_doomed : closed s.1 = true → ∀ ptr, ptr ∈ paths s.1 → Exists (dooms ptr) (concat s.2);
}.

(** What one section does to the parts of the invariant. *)
Record section_ok (t : task) b b' (ts : list task) (sp : list (list task)) : Prop := {
  ok_token ptr : (ptr < length (heap b) ∨ pend ptr t = false →
    done_of b' ptr + occ b' ptr + count (pend ptr) ts + count (pend ptr) (concat sp) +
      (if decide (ptr < length (heap b)) then 1 else 0) =
    done_of b ptr + occ b ptr + (if pend ptr t then 1 else 0) +
      (if decide (ptr < length (heap b')) then 1 else 0))%nat;
  ok_grows : (length (heap b) ≤ length (heap b'))%nat;
  ok_cleanup : fresh_task t → Forall cleanup_ok (heap b) → Forall cleanup_ok (heap b');
  ok_timer : (is_Some (emptyTimer b) → paths b = []) → is_Some (emptyTimer b') → paths b' = [];
  ok_expired : (emptyExpired b = true → paths b = []) → emptyExpired b' = true → paths b' = [];
  ok_doomed : NoDup (paths b) → closed b' = true → ∀ ptr, ptr ∈ paths b' →
    Exists (dooms ptr) ts ∨ (closed b = true ∧ ptr ∈ paths b ∧ ¬ dooms ptr t);
}.

Lemma quiet_length b b' : quiet b b' → length (heap b') = length (heap b).
Proof. intros [_ _ _ _ E%(f_equal length) _]. by rewrite !length_fmap in E. Qed.

Lemma quiet_life b b' ptr : quiet b b' → life <$> heap b' !! ptr = life <$> heap b !! ptr.
Proof. intros [_ _ _ _ E _]. by rewrite <-!list_lookup_fmap, E. Qed.

Lemma quiet_done b b' ptr : quiet b b' → done_of b' ptr = done_of b ptr.
Proof.
  intros E%(quiet_life _ _ ptr). unfold done_of.
  destruct (heap b' !! ptr), (heap b !! ptr); simpl in *; try done.
  unfold life in E. congruence.
Qed.

Lemma quiet_cleanup b b' : quiet b b' → Forall cleanup_ok (heap b) → Forall cleanup_ok (heap b').
Proof.
  intros Hq. rewrite !Forall_lookup. intros Hok ptr p' Hp'.
  pose proof (quiet_life _ _ ptr Hq) as E. rewrite Hp' in E.
  destruct (heap b !! ptr) as [p|] eqn:Hp; [|done]. simpl in E. unfold life in E.
  specialize (Hok _ _ Hp). unfold cleanup_ok in *.
  injection E as E1 E2 E3 E4 E5 E6. by rewrite E1, E4, E5, E6.
Qed.

(** A quiet section whose task neither ends nor dooms a path. *)
Lemma section_quiet t b b' ts sp :
  quiet b b' →
  (∀ ptr, count (pend ptr) ts + count (pend ptr) (concat sp) = if pend ptr t then 1 else 0)%nat →
  (∀ ptr, ptr ∈ paths b → dooms ptr t → Exists (dooms ptr) ts) →
  section_ok t b b' ts sp.
Proof.
  intros Hq Hpend Hdoom. pose proof (quiet_length _ _ Hq) as Hlen. constructor.
  - intros ptr _. rewrite (quiet_done _ _ ptr Hq), Hlen. unfold occ. rewrite (quiet_paths _ _ Hq).
    specialize (Hpend ptr). lia.
  - lia.
  - intros _. by apply quiet_cleanup.
  - by rewrite (quiet_timer _ _ Hq), (quiet_paths _ _ Hq).
  - by rewrite (quiet_expired _ _ Hq), (quiet_paths _ _ Hq).
  - rewrite (quiet_closed _ _ Hq), (quiet_paths _ _ Hq). intros _ Hc ptr Hp.
    assert (dooms ptr t ∨ ¬ dooms ptr t) as [Hd|Hd]; [|by left; apply Hdoom|by right].
    destruct t; simpl; try tauto.
    + destruct (decide (ptr0 = ptr)); tauto.
    + destruct (decide (ptr ∈ ps)); tauto.
Qed.

(** *** The sections that are not quiet *)

Lemma link_path_spec c cl b added ptr b' :
  link_path c cl b = (added, ptr, b') →
  ptr = length (heap b) ∧ closed b' = closed b ∧ emptyExpired b' = emptyExpired b ∧
  added = negb (closed b || emptyExpired b) ∧
  (∃ st, heap b' = heap b ++ [MkPath (wrap_uint (nextID b + 1)) c cl false st 0 0] ∧
         st = if added then Some (length (Metrics.path_store (registry b))) else None) ∧
  paths b' = (if added then paths b ++ [ptr] else paths b) ∧
  emptyTimer b' = (if added then None else emptyTimer b) ∧
  ∃ lbl, registry b' = if added then (Metrics.OpenPath lbl (registry b)).2 else registry b.
Proof.
  unfold link_path. cbn -[Metrics.OpenPath stop_empty_timer update_path path_label].
  destruct (closed b); [intros; simplify_eq/=; split_and!; try done; try (by exists []); by eexists|].
  destruct (emptyExpired b) eqn:He;
    [intros; simplify_eq/=; split_and!; try done; try (by exists []); by eexists|].
  set (lbl := path_label _ _). clearbody lbl. unfold Metrics.OpenPath. intros E. simplify_eq.
  unfold stop_empty_timer, update_path. simpl.
  assert (∀ f (p : bondedPath C), alter f (length (heap b)) (heap b ++ [p]) = heap b ++ [f p]) as Ha.
  { intros f p. rewrite <-(Nat.add_0_r (length (heap b))) at 1. by rewrite alter_app_r. }
  destruct (emptyTimer b); simpl; rewrite Ha; simpl; split_and!; try done; try (by exists lbl); by eexists.
Qed.

Lemma done_of_snoc b b' p ptr :
  heap b' = heap b ++ [p] → done_closes p = 0%nat → done_of b' ptr = done_of b ptr.
Proof.
  intros Eh Ep. unfold done_of. rewrite Eh, lookup_app.
  destruct (heap b !! ptr) eqn:E; [done|]. simpl.
  destruct (ptr - length (heap b))%nat; simpl; [done|]. by destruct n.
Qed.

Lemma section_add c cl b ptr b' added :
  link_path c cl b = (added, ptr, b') →
  section_ok (TAdd c cl) b b' [if added then TAdded ptr else TFinish ptr] [].
Proof.
  intros (-> & Hc & He & Hadd & (st & Hh & _) & Hp & Ht & _)%link_path_spec.
  assert (length (heap b') = S (length (heap b))) as Hlen
    by (rewrite Hh, length_app; simpl; lia).
  constructor.
  - intros q _. rewrite (done_of_snoc b b' _ q Hh) by done. unfold occ. rewrite Hp, Hlen.
    destruct added; simpl; rewrite ?count_app; simpl;
      repeat case_bool_decide; repeat case_decide; lia.
  - lia.
  - rewrite Hh, Forall_app. intros Hf ?. split; [done|]. apply Forall_singleton.
    unfold cleanup_ok. simpl in *. by destruct cl.
  - rewrite Ht, Hp. destruct added; [by intros _ [??]|done].
  - rewrite He, Hp. destruct added; [|done]. intros _ Hx. rewrite Hx, orb_true_r in Hadd. done.
  - rewrite Hc, Hp. intros _ Hcl q Hq. right. rewrite Hcl in *. simpl in Hadd. subst. simpl. auto.
Qed.

Lemma section_remove ptr b removed b' :
  unlink_path ptr b = (removed, b') →
  section_ok (TRemove ptr) b b' (if removed then [TUnlinked ptr] else []) [].
Proof.
  unfold unlink_path. case_bool_decide as Hin; intros E; simplify_eq.
  - set (h := alter (λ p : bondedPath C, p <| closing := true |>) ptr (heap b)).
    assert (∀ q, done_closes <$> h !! q = done_closes <$> heap b !! q) as Hd.
    { intros q. subst h. destruct (decide (q = ptr)) as [->|].
      - rewrite list_lookup_alter_eq. by destruct (heap b !! ptr).
      - by rewrite list_lookup_alter_ne. }
    constructor; simpl; fold h.
    + intros q _. unfold done_of, occ. simpl. fold h. rewrite Hd.
      subst h. rewrite length_alter, (count_remove_first ptr q (paths b) Hin).
      repeat case_bool_decide; repeat case_decide; try done; lia.
    + subst h. rewrite length_alter. lia.
    + intros _ Hok. subst h. apply Forall_alter; [done|]. by intros.
    + intros Ht Hs. rewrite (Ht Hs) in Hin. by apply not_elem_of_nil in Hin.
    + intros Ht Hs. rewrite (Ht Hs) in Hin. by apply not_elem_of_nil in Hin.
    + intros Hnd Hc q Hq. right. apply elem_of_remove_first in Hq as [? Hne]; [|done].
      split_and!; [done|done|]. simpl. congruence.
  - apply section_quiet; [apply quiet_refl|done|]. simpl. intros q Hq <-. done.
Qed.

Lemma section_finish ptr b : section_ok (TFinish ptr) b (closePath ptr b) [] [].
Proof.
  set (f := λ p : bondedPath C,
    let p := p <| conn := (conn_Close (conn p)).2 |> in
    let p := if has_cleanup p then p <| cleanup_calls ::= S |> else p in
    p <| done_closes ::= S |>).
  assert (heap (closePath ptr b) = alter f ptr (heap b)) as Hh by done.
  assert (∀ p, done_closes (f p) = S (done_closes p)) as Hf
    by (intros p; unfold f; simpl; by destruct (has_cleanup p)).
  assert (∀ p, cleanup_ok p → cleanup_ok (f p)) as Hcl.
  { intros p [Hp Hc]. unfold cleanup_ok, f. simpl.
    destruct (has_cleanup p) eqn:E; simpl; rewrite ?E, closes_Close, Hc; by rewrite ?Hp. }
  clearbody f. constructor.
  - intros q Hq. simpl in Hq. unfold done_of, occ. rewrite Hh, length_alter. simpl.
    destruct (decide (q = ptr)) as [->|Hne].
    + rewrite list_lookup_alter_eq. rewrite bool_decide_eq_true_2 in * by done.
      destruct (lookup_lt_is_Some_2 (heap b) ptr) as [p Hp]; [by destruct Hq|].
      rewrite Hp. simpl. rewrite Hf. lia.
    + rewrite list_lookup_alter_ne by done. rewrite bool_decide_eq_false_2 by done. lia.
  - rewrite Hh, length_alter. lia.
  - intros _ Hok. rewrite Hh. apply Forall_alter; [done|]. intros p _. apply Hcl.
  - done.
  - done.
  - intros _ Hc q Hq. right. simpl. auto.
Qed.

Lemma startEmptyGrace_spec b :
  startEmptyGrace b = b ∨
  (paths b = [] ∧ closed b = false ∧
   startEmptyGrace b = b <| emptyTimer := Some (length (timers b)) |>
                         <| timers ::= (λ ts, ts ++ [Armed]) |>).
Proof.
  unfold startEmptyGrace. case_bool_decide as Hp; [|by left]. simpl.
  destruct (bool_decide (is_Some (emptyTimer b)) || emptyExpired b); [by left|].
  destruct (closed b); [by left|by right].
Qed.

Lemma section_grace t b ts :
  (∀ ptr, count (pend ptr) ts = if pend ptr t then 1 else 0)%nat →
  (∀ ptr, ¬ dooms ptr t) →
  section_ok t b (startEmptyGrace b) ts [].
Proof.
  intros Ht Hd. destruct (startEmptyGrace_spec b) as [->|(Hp & Hc & ->)].
  - apply section_quiet; [apply quiet_refl| |].
    + intros ptr. rewrite Ht. simpl. lia.
    + intros ptr _ Hx. by destruct (Hd ptr).
  - constructor; simpl; try done.
    + intros ptr _. unfold done_of, occ. simpl. specialize (Ht ptr). lia.
    + by rewrite Hc.
Qed.

(** A section that keeps the paths and the path objects. *)
Lemma section_same t b b' ts :
  heap b' = heap b → paths b' = paths b →
  (∀ ptr, count (pend ptr) ts = if pend ptr t then 1 else 0)%nat →
  (is_Some (emptyTimer b') → is_Some (emptyTimer b) ∨ paths b = []) →
  (emptyExpired b' = true → emptyExpired b = true ∨ paths b = []) →
  (closed b' = true → ∀ ptr, ptr ∈ paths b →
     Exists (dooms ptr) ts ∨ closed b = true ∧ ¬ dooms ptr t) →
  section_ok t b b' ts [].
Proof.
  intros Hh Hp Ht Htm Hex Hd. constructor; rewrite ?Hh, ?Hp.
  - intros ptr _. unfold done_of, occ. rewrite Hh, Hp. specialize (Ht ptr). simpl. lia.
  - done.
  - done.
  - naive_solver.
  - naive_solver.
  - intros _ Hc ptr Hin. destruct (Hd Hc ptr Hin) as [|[??]]; auto.
Qed.

Lemma section_close b :
  closed b = false → section_ok TClose b (b <| closed := true |>) [TCloseTimer] [].
Proof. intros Hc. apply section_same; auto. intros _ q _. left. by constructor. Qed.

Lemma section_close_timer b : section_ok TCloseTimer b (stop_empty_timer b) [TCloseSnap] [].
Proof.
  unfold stop_empty_timer. destruct (emptyTimer b) as [t|] eqn:Et; apply section_same; simpl; auto;
    intros _ q _; left; by constructor.
Qed.

Lemma section_close_snap b :
  section_ok TCloseSnap b (notifyStateChanged b) [TCloseLoop (snapshotPaths b)] [].
Proof. apply section_same; simpl; auto. Qed.

Lemma section_callback expired b b' :
  timer_callback b = (expired, b') →
  section_ok TCallback b b' (if expired then [TClose] else []) [].
Proof.
  unfold timer_callback. case_bool_decide as Hp; simpl; intros E; simplify_eq;
    apply section_same; simpl; auto; by intros [??].
Qed.

Ltac quiet_tac :=
  solve [apply quiet_refl | by constructor |
         match goal with
         | E : readLoop_step _ ?pick ?ptr ?b = _ |- _ =>
             pose proof (quiet_readLoop_step pick ptr b) as Hq; by rewrite E in Hq
         | E : enqueue ?pick ?data ?b = _ |- _ =>
             pose proof (quiet_enqueue pick data b) as Hq; by rewrite E in Hq
         | E : write_path ?p ?el ?ptr ?b = _ |- _ =>
             pose proof (quiet_write_path p el ptr b) as Hq; by rewrite E in Hq
         end].

Lemma exec_section t b b' ts sp : exec t b b' ts sp → section_ok t b b' ts sp.
Proof.
  destruct 1;
    try solve [by eapply (section_add _ _ _ _ _ true) | by eapply (section_add _ _ _ _ _ false)
              | by eapply (section_remove _ _ true) | by eapply (section_remove _ _ false)
              | apply section_finish | by apply section_close | apply section_close_timer
              | apply section_close_snap | by apply section_callback
              | apply section_quiet; [quiet_tac|done|done]].
  - apply section_quiet; [quiet_tac| |by case_match].
    intros q. case_match; simpl; case_bool_decide; done.
  - apply section_grace; [|by intros q []]. intros q. simpl. by case_bool_decide.
  - apply section_quiet; [quiet_tac| |done]. intros q. simpl. by case_bool_decide.
  - apply section_quiet; [quiet_tac| |done]. intros q. by case_match.
  - apply section_quiet; [quiet_tac| |done]. intros q. by case_match.
  - apply section_grace; [done|by intros q []].
  - apply section_quiet; [quiet_tac|done|]. simpl. intros q _ [->|?]%elem_of_cons.
    + by left.
    + right. by left.
  - apply section_quiet; [quiet_tac|done|]. simpl. by intros q _ ?%not_elem_of_nil.
Qed.

Lemma exec_fresh t b b' ts sp :
  exec t b b' ts sp → Forall fresh_task ts ∧ Forall fresh_task (concat sp).
Proof. destruct 1; split; repeat case_match; by repeat constructor. Qed.

(** *** The invariant *)

Lemma concat_step (t : task) k l1 l2 ts sp :
  concat (l1 ++ (t :: k) :: l2) ≡ₚ t :: concat l1 ++ k ++ concat l2 ∧
  concat (l1 ++ (ts ++ k) :: l2 ++ sp) ≡ₚ ts ++ concat sp ++ concat l1 ++ k ++ concat l2.
Proof.
  rewrite !concat_app. simpl. rewrite concat_app, <-!(assoc_L (++)).
  split; [by rewrite <-Permutation_middle|]. solve_Permutation.
Qed.

Lemma count_permutation {A} (f : A → bool) l k : l ≡ₚ k → count f l = count f k.
Proof. induction 1; simpl; lia. Qed.

Lemma inv_nodup s : inv s → NoDup (paths s.1).
Proof.
  intros Hi. assert (∀ ptr, occ s.1 ptr ≤ 1)%nat as Ho.
  { intros ptr. pose proof (inv_token s Hi ptr). case_decide; lia. }
  unfold occ in Ho. clear -Ho. induction (paths s.1) as [|x l IH]; [constructor|].
  constructor.
  - intros Hx%count_elem_of. specialize (Ho x). simpl in Ho.
    rewrite bool_decide_eq_true_2 in Ho by done. lia.
  - apply IH. intros ptr. specialize (Ho ptr). simpl in Ho. lia.
Qed.

Lemma inv_task t b b' ts sp k l1 l2 :
  exec t b b' ts sp → inv (b, l1 ++ (t :: k) :: l2) → inv (b', l1 ++ (ts ++ k) :: l2 ++ sp).
Proof.
  intros He Hi. destruct (exec_fresh _ _ _ _ _ He) as [F1 F2].
  apply exec_section in He as [T1 T2 T3 T4 T5 T6]. pose proof (inv_nodup _ Hi) as Hnd.
  destruct Hi as [I1 I2 I6 I3 I4 I5]. simpl in *.
  destruct (concat_step t k l1 l2 ts sp) as [E1 E2].
  rewrite E1 in I6. apply Forall_cons_1 in I6 as [I6 I7].
  constructor; simpl; auto; [| |].
  - intros ptr. specialize (I1 ptr). specialize (T1 ptr).
    rewrite (count_permutation _ _ _ E1) in I1. rewrite (count_permutation _ _ _ E2).
    rewrite !count_app in *. simpl in I1. rewrite !count_app in I1.
    destruct (pend ptr t) eqn:Hpt; repeat case_decide; lia.
  - rewrite E2, !Forall_app. rewrite !Forall_app in I7. tauto.
  - intros Hc ptr Hp. rewrite E2, !Exists_app.
    destruct (T6 Hnd Hc ptr Hp) as [?|(Hcb & Hpb & Hnt)]; [by left|].
    specialize (I5 Hcb ptr Hpb). rewrite E1, Exists_cons, !Exists_app in I5. tauto.
Qed.

Lemma inv_quiet b b' l : quiet b b' → inv (b, l) → inv (b', l).
Proof.
  intros Hq [I1 I2 I6 I3 I4 I5]. simpl in *. constructor; simpl.
  - intros ptr. rewrite (quiet_done _ _ ptr Hq), (quiet_length _ _ Hq). unfold occ.
    rewrite (quiet_paths _ _ Hq). apply I1.
  - by eapply quiet_cleanup.
  - done.
  - by rewrite (quiet_timer _ _ Hq), (quiet_paths _ _ Hq).
  - by rewrite (quiet_expired _ _ Hq), (quiet_paths _ _ Hq).
  - by rewrite (quiet_closed _ _ Hq), (quiet_paths _ _ Hq).
Qed.

Lemma inv_spawn b l t :
  (∀ ptr, pend ptr t = false) → fresh_task t → inv (b, l) → inv (b, l ++ [[t]]).
Proof.
  intros Ht Hf [I1 I2 I6 I3 I4 I5]. simpl in *. constructor; simpl; auto.
  - intros ptr. rewrite concat_app, count_app. simpl. rewrite Ht. specialize (I1 ptr). lia.
  - rewrite concat_app, Forall_app. split; [done|]. by apply Forall_singleton.
  - intros Hc ptr Hp. rewrite concat_app, Exists_app. left. auto.
Qed.

Lemma inv_step s s' : step s s' → inv s → inv s'.
Proof.
  destruct 1 as [t b b' ts sp k l1 l2 He|t b l Ht|t b l Ht|ptr c b l Hc|d b l|cap pick r b b' l E].
  - by apply inv_task.
  - apply inv_spawn; by destruct t.
  - intros Hi. apply inv_spawn; [done|done|]. eapply inv_quiet; [|exact Hi]. by constructor.
  - by apply inv_quiet, quiet_conn.
  - apply inv_quiet, quiet_SetWriteDeadline.
  - apply inv_quiet. pose proof (quiet_ReadFrom cap pick b) as Hq. by rewrite E in Hq.
Qed.

Lemma inv_start lbl grace : inv (start lbl grace).
Proof.
  by constructor.
Qed.

Lemma inv_reachable s : reachable s → inv s.
Proof.
  intros (lbl & grace & Hr). revert s Hr. apply (rtc_ind_r inv); [apply inv_start|].
  intros s s' _ Hs. by apply inv_step.
Qed.

(** C1: under every interleaving of callers, readers, timer callbacks and
    [Close], each path's connection is closed at most once, and its [done]
    channel is closed and its cleanup run exactly as often; a path that is no
    longer listed and has no goroutine about to end it has had its connection
    closed exactly once.  A double [close] of the channel would panic, a lost
    cleanup would leak the connection slot and a lost [Close] the connection. *)
Theorem path_ends_once b l ptr path :
  reachable (b, l) → heap b !! ptr = Some path →
  (closes (conn path) ≤ 1)%nat ∧
  done_closes path = closes (conn path) ∧
  cleanup_calls path = (if has_cleanup path then closes (conn path) else 0%nat) ∧
  (ptr ∉ paths b → Forall (λ t, pend ptr t = false) (concat l) → closes (conn path) = 1%nat).
Proof.
  intros [I1 I2 _ _ _ _]%inv_reachable Hp. simpl in *. specialize (I1 ptr).
  rewrite Forall_lookup in I2. destruct (I2 ptr path Hp) as [Hcl Hco]. rewrite Hco.
  unfold done_of, occ in I1. rewrite Hp in I1. simpl in I1.
  rewrite decide_True in I1 by by eapply lookup_lt_Some.
  split_and!; [lia|done|done|].
  - intros Hn Hf. apply count_zero in Hf. rewrite Hf in I1.
    assert (count (λ q, bool_decide (q = ptr)) (paths b) = 0)%nat as Ho; [|lia].
    apply count_zero, Forall_forall. intros q Hq. apply bool_decide_eq_false. by intros ->.
Qed.

(** Goroutines that only wait for the network or have returned. *)
Definition at_rest (k : list task) : Prop :=
  k = [] ∨ ∃ ptr, k = [TReader ptr].

(** C9: closing a bond releases everything.  Once the bond is closed and
    the only goroutines left are readers blocked in [Read], no path is listed
    and every path ever accepted or refused has been ended exactly once: its
    connection is closed, its [done] channel closed and its cleanup run, each
    once, even if [AddConn] raced with [Close].  While a grace timer is armed, or after
    it expired, no path is listed. *)
Theorem close_releases_all b l :
  reachable (b, l) →
  (closed b = true → Forall at_rest l →
     paths b = [] ∧
     Forall (λ path, closes (conn path) = 1%nat ∧ done_closes path = 1%nat ∧
       cleanup_calls path = (if has_cleanup path then 1%nat else 0%nat)) (heap b)) ∧
  (is_Some (emptyTimer b) ∨ emptyExpired b = true → paths b = []).
Proof.
  intros [I1 I2 _ I3 I4 I5]%inv_reachable. simpl in *. split; [|naive_solver].
  intros Hc Hrest.
  assert (∀ t, t ∈ concat l → ∃ ptr, t = TReader ptr) as Hl.
  { intros t (k & Hk & Ht)%list_elem_of_In%in_concat. rewrite Forall_forall in Hrest.
    apply list_elem_of_In in Hk. apply list_elem_of_In in Ht.
    destruct (Hrest k Hk) as [->|[ptr ->]]; [by apply not_elem_of_nil in Ht|].
    exists ptr. by apply list_elem_of_singleton in Ht. }
  assert (paths b = []) as Hp.
  { apply elem_of_nil_inv. intros ptr Hp. specialize (I5 Hc ptr Hp).
    apply Exists_exists in I5 as (t & Ht & Hd). by destruct (Hl t Ht) as [q ->]. }
  split; [done|]. apply Forall_lookup. intros ptr path Hpath. specialize (I1 ptr).
  unfold done_of, occ in I1. rewrite Hpath, Hp in I1. simpl in I1.
  rewrite decide_True in I1 by by eapply lookup_lt_Some.
  rewrite Forall_lookup in I2. destruct (I2 ptr path Hpath) as [Hcl Hco].
  assert (count (pend ptr) (concat l) = 0)%nat as Hz.
  2: { assert (done_closes path = 1%nat) as Hd by lia. by rewrite Hco, Hcl, Hd. }
  apply count_zero, Forall_forall. intros t Ht. by destruct (Hl t Ht) as [q ->].
Qed.

(** ** The active-path gauge

    The registry is used by this bond alone here; a path's statistics are open
    exactly while the path is listed. *)

Definition open_stat b (ptr st : nat) : Prop :=
  stats <$> heap b !! ptr = Some (Some st) ∧
  Metrics.closed <$> Metrics.path_store (registry b) !! st = Some false.

Record gauge_inv b : Prop := {
  gauge_registry : Metrics.paths_inv (registry b);
  gauge_open ptr : ptr ∈ paths b → ∃ st, open_stat b ptr st;
  gauge_inj ptr ptr' st : ptr ∈ paths b → ptr' ∈ paths b →
    stats <$> heap b !! ptr = Some (Some st) → stats <$> heap b !! ptr' = Some (Some st) → ptr = ptr';
  gauge_count : Metrics.activePaths (registry b) = Count b;
}.

Record gauge_frame b b' : Prop := {
  frame_paths : paths b' = paths b;
  frame_stats : stats <$> heap b' = stats <$> heap b;
  frame_registry : Metrics.same_paths (registry b) (registry b');
}.

Lemma frame_lookup b b' ptr : gauge_frame b b' → stats <$> heap b' !! ptr = stats <$> heap b !! ptr.
Proof. intros [_ E _]. by rewrite <-!list_lookup_fmap, E. Qed.

Lemma gauge_inv_frame b b' : gauge_frame b b' → gauge_inv b → gauge_inv b'.
Proof.
  intros Hf [G1 G2 G3 G4]. pose proof (λ q, frame_lookup b b' q Hf) as Hl.
  destruct Hf as [Hp Hs Hr]. constructor; rewrite ?Hp.
  - by eapply Metrics.same_paths_inv.
  - intros ptr (st & H1 & H2)%G2. exists st. split; [by rewrite Hl|].
    pose proof (Metrics.same_paths_lookup _ _ st Hr) as E.
    destruct (Metrics.path_store (registry b) !! st), (Metrics.path_store (registry b') !! st);
      simplify_eq/=. congruence.
  - intros ptr ptr' st ??. rewrite !Hl. by apply G3.
  - unfold Count. rewrite Hp. destruct Hr as (_ & -> & _). done.
Qed.

Lemma quiet_gauge_frame b b' : quiet b b' → gauge_frame b b'.
Proof.
  intros [Hp _ _ _ Hh Hr]. constructor; try done.
  apply (f_equal (fmap (λ x : bool * bool * option nat * nat * nat * nat, x.1.1.1.2))) in Hh.
  by rewrite <-!list_fmap_compose in Hh.
Qed.

Lemma closePath_gauge_frame ptr b : gauge_frame b (closePath ptr b).
Proof.
  constructor; try done. simpl. apply list_eq. intros i. rewrite !list_lookup_fmap.
  destruct (decide (i = ptr)) as [->|]; [|by rewrite list_lookup_alter_ne].
  rewrite list_lookup_alter_eq. destruct (heap b !! ptr) as [p|]; [|done]. simpl.
  by destruct (has_cleanup p).
Qed.

Lemma gauge_inv_unlink ptr b removed b' :
  Metrics.opens_bounded (registry b) → NoDup (paths b) →
  unlink_path ptr b = (removed, b') → gauge_inv b → gauge_inv b'.
Proof.
  unfold unlink_path. intros Hb Hnd. case_bool_decide as Hin; intros E Hg; simplify_eq; [|done].
  destruct (gauge_open b Hg ptr Hin) as (st & Hst & Hmp).
  destruct Hg as [G1 G2 G3 G4].
  set (h := alter (λ p : bondedPath C, p <| closing := true |>) ptr (heap b)).
  assert (∀ q, stats <$> h !! q = stats <$> heap b !! q) as Hh.
  { intros q. subst h. destruct (decide (q = ptr)) as [->|].
    - rewrite list_lookup_alter_eq. by destruct (heap b !! ptr).
    - by rewrite list_lookup_alter_ne. }
  assert (h !! ptr ≫= stats = Some st) as Est.
  { specialize (Hh ptr). rewrite Hst in Hh. destruct (h !! ptr); simplify_eq/=. done. }
  destruct (Metrics.path_store (registry b) !! st) as [mp|] eqn:Emp; simplify_eq/=.
  fold h. rewrite Est. rewrite (Metrics.Close_open _ _ _ G1 Emp) by done.
  assert (Metrics.paths_inv (Metrics.Close (Some st) (registry b))) as G1'
    by by apply Metrics.paths_inv_Close.
  rewrite (Metrics.Close_open _ _ _ G1 Emp) in G1' by done.
  constructor; simpl; fold h.
  - exact G1'.
  - intros q [Hq Hne]%elem_of_remove_first; [|done]. destruct (G2 q Hq) as (st' & Hs' & Hm').
    exists st'. split; simpl; fold h; [by rewrite Hh|].
    rewrite list_lookup_insert_ne; [done|]. intros ->. apply Hne. by apply (G3 q ptr st').
  - intros q q' st' [Hq _]%elem_of_remove_first [Hq' _]%elem_of_remove_first; [|done..].
    rewrite !Hh. by apply G3.
  - rewrite G4. unfold Count. simpl. rewrite (length_remove_first ptr (paths b) Hin).
    unfold Metrics.add_int. rewrite wrap_int_id; [lia|].
    pose proof (Metrics.active_size _ G1) as Hsz. rewrite (Metrics.inv_gauge _ G1) in G4.
    unfold Count, Metrics.opens_bounded, in_int, two63 in *.
    rewrite (length_remove_first ptr (paths b) Hin) in G4. lia.
Qed.

Lemma gauge_inv_opened lbl b b' :
  Metrics.opens_bounded (registry b') → gauge_inv b →
  (∀ q, q ∈ paths b → q < length (heap b))%nat →
  (∀ q, q ∈ paths b → stats <$> heap b' !! q = stats <$> heap b !! q) →
  stats <$> heap b' !! length (heap b) = Some (Some (length (Metrics.path_store (registry b)))) →
  paths b' = paths b ++ [length (heap b)] →
  registry b' = (Metrics.OpenPath lbl (registry b)).2 → gauge_inv b'.
Proof.
  intros Hb [G1 G2 G3 G4] Hlt Hold Hnew Hp Hr.
  assert (∀ q st, q ∈ paths b → stats <$> heap b !! q = Some (Some st) →
    (st < length (Metrics.path_store (registry b)))%nat) as Hst.
  { intros q st Hq Hs. destruct (G2 q Hq) as (st' & Hs' & Hm). rewrite Hs in Hs'. simplify_eq.
    destruct (_ !! st') eqn:E; [|done]. by apply lookup_lt_Some in E. }
  pose proof (Metrics.active_size _ G1) as Hsz. constructor.
  - rewrite Hr in *. by apply Metrics.paths_inv_OpenPath.
  - intros q. rewrite Hp, elem_of_app, list_elem_of_singleton. intros [Hq| ->].
    + destruct (G2 q Hq) as (st & Hs & Hm). exists st. split; [by rewrite Hold|].
      rewrite Hr. simpl. rewrite lookup_app_l by by eapply Hst. done.
    + eexists. split; [exact Hnew|]. rewrite Hr. simpl.
      by rewrite lookup_app_r, Nat.sub_diag by lia.
  - intros q q' st. rewrite Hp, !elem_of_app, !list_elem_of_singleton.
    intros [Hq| ->] [Hq'| ->] E E'; [| | |done].
    + rewrite Hold in E, E' by done. by eapply G3.
    + rewrite Hold in E by done. rewrite Hnew in E'. simplify_eq.
      specialize (Hst q _ Hq E). lia.
    + rewrite Hold in E' by done. rewrite Hnew in E. simplify_eq.
      specialize (Hst q' _ Hq' E'). lia.
  - unfold Count. rewrite Hr, Hp, length_app. simpl. rewrite G4. unfold Metrics.add_int, Count.
    rewrite wrap_int_id; [lia|]. rewrite (Metrics.inv_gauge _ G1) in G4.
    rewrite Hr in Hb. unfold Metrics.opens_bounded, Count, in_int, two63 in *. simpl in Hb.
    rewrite length_app in Hb. simpl in Hb. lia.
Qed.

Lemma gauge_inv_link c cl b added ptr b' :
  Metrics.opens_bounded (registry b') → (∀ q, q ∈ paths b → q < length (heap b))%nat →
  link_path c cl b = (added, ptr, b') → gauge_inv b → gauge_inv b'.
Proof.
  intros Hb Hlt El Hg. pose proof (link_path_spec _ _ _ _ _ _ El) as
    (-> & _ & _ & _ & (st & Hh & Est) & Hp & _ & lbl & Hr).
  assert (∀ q, q ∈ paths b → stats <$> heap b' !! q = stats <$> heap b !! q) as Hold.
  { intros q Hq%Hlt. by rewrite Hh, lookup_app_l. }
  destruct added.
  - apply (gauge_inv_opened lbl b b'); try done.
    rewrite Hh, lookup_app_r, Nat.sub_diag by lia. simpl. by rewrite Est.
  - destruct Hg as [G1 G2 G3 G4]. constructor; rewrite ?Hr, ?Hp.
    + done.
    + intros q Hq. destruct (G2 q Hq) as (st' & ? & ?).
      exists st'. split; [by rewrite Hold|by rewrite Hr].
    + intros q q' st' Hq Hq'. rewrite !Hold by done. by apply G3.
    + unfold Count. by rewrite Hp.
Qed.

Lemma unlink_gauge ptr b removed b' l :
  unlink_path ptr b = (removed, b') → inv (b, l) →
  Metrics.opens_bounded (registry b') →
  Metrics.opens_bounded (registry b) ∧ (gauge_inv b → gauge_inv b').
Proof.
  intros E Hi Hb. assert (Metrics.opens_bounded (registry b)) as Hb0.
  { revert E Hb. unfold unlink_path. case_bool_decide; intros; simplify_eq/=; [|done].
    unfold Metrics.opens_bounded in *. by rewrite Metrics.length_Close in Hb. }
  split; [done|]. eapply gauge_inv_unlink; [done| |done]. by apply (inv_nodup (b, l)).
Qed.

(** Facts every section keeps about listed paths. *)
Lemma inv_listed b l q : inv (b, l) → q ∈ paths b → (q < length (heap b))%nat.
Proof.
  intros Hi Hq. pose proof (inv_token _ Hi q) as Ht. simpl in Ht.
  apply count_elem_of in Hq. unfold occ in Ht. case_decide; [done|lia].
Qed.

Lemma exec_gauge t b b' ts sp k l1 l2 :
  exec t b b' ts sp → inv (b, l1 ++ (t :: k) :: l2) →
  Metrics.opens_bounded (registry b') →
  Metrics.opens_bounded (registry b) ∧ (gauge_inv b → gauge_inv b').
Proof.
  intros He Hi Hb.
  assert (∀ b', gauge_frame b b' → Metrics.opens_bounded (registry b') →
    Metrics.opens_bounded (registry b) ∧ (gauge_inv b → gauge_inv b')) as Hframe.
  { intros b0 Hf Hb0. split; [|by apply gauge_inv_frame].
    destruct (frame_registry _ _ Hf) as (_ & _ & _ & _ & E%(f_equal length)).
    rewrite !length_fmap in E. unfold Metrics.opens_bounded in *. by rewrite <-E. }
  assert (∀ b1, startEmptyGrace b1 = b' → b1 = b → gauge_frame b b') as Hgrace.
  { intros b1 <- ->. unfold startEmptyGrace. repeat case_match; by constructor. }
  destruct He; try solve [apply Hframe; [apply quiet_gauge_frame; quiet_tac|done]];
    try solve [apply Hframe; [by apply (Hgrace b)|done]].
  - split; [|by eapply gauge_inv_link; [done|intros q; by eapply inv_listed|done]].
    apply link_path_spec in H0 as (_ & _ & _ & _ & _ & _ & _ & lbl & E).
    rewrite E in Hb. unfold Metrics.opens_bounded in *. simpl in Hb. rewrite length_app in Hb.
    simpl in Hb. lia.
  - split; [|by eapply gauge_inv_link; [done|intros q; by eapply inv_listed|done]].
    apply link_path_spec in H0 as (_ & _ & _ & _ & _ & _ & _ & lbl & E). by rewrite <-E.
  - by eapply unlink_gauge.
  - by eapply unlink_gauge.
  - apply Hframe; [apply closePath_gauge_frame|done].
  - apply Hframe; [by constructor|done].
  - apply Hframe; [|done]. unfold stop_empty_timer. case_match; by constructor.
  - apply Hframe; [|done]. revert H0. unfold timer_callback. case_match; intros; simplify_eq;
      by constructor.
Qed.

Lemma gauge_step s s' : step s s' → inv s → Metrics.opens_bounded (registry s'.1) →
  Metrics.opens_bounded (registry s.1) ∧ (gauge_inv s.1 → gauge_inv s'.1).
Proof.
  assert (∀ b b', quiet b b' → Metrics.opens_bounded (registry b') →
    Metrics.opens_bounded (registry b) ∧ (gauge_inv b → gauge_inv b')) as Hquiet.
  { intros b b' Hq Hb. split; [|by apply gauge_inv_frame, quiet_gauge_frame].
    destruct (quiet_registry _ _ Hq) as (_ & _ & _ & _ & E%(f_equal length)).
    rewrite !length_fmap in E. unfold Metrics.opens_bounded in *. by rewrite <-E. }
  destruct 1 as [t b b' ts sp k l1 l2 He|t b l Ht|t b l Ht|ptr c b l Hc|d b l|cap pick r b b' l E];
    intros Hi; cbn [fst].
  - by eapply exec_gauge.
  - by auto.
  - apply Hquiet. by constructor.
  - apply (Hquiet b _ (quiet_conn ptr c b Hc)).
  - apply (Hquiet b _ (quiet_SetWriteDeadline d b)).
  - apply Hquiet. pose proof (quiet_ReadFrom cap pick b) as Hq. by rewrite E in Hq.
Qed.

(** the exported active-path gauge is the number of paths the bond
    stripes over, in every reachable state of every interleaving, for a
    process with one bond that has opened fewer than 2^63 paths. *)
Theorem gauge_is_count b l :
  reachable (b, l) → Metrics.opens_bounded (registry b) →
  Metrics.activePaths (registry b) = Count b.
Proof.
  intros (lbl & grace & Hr) Hb.
  assert (∀ s, rtc step (start lbl grace) s →
    inv s ∧ (Metrics.opens_bounded (registry s.1) → gauge_inv s.1)) as Hall;
    [|destruct (Hall (b, l) Hr) as [_ Hg]; by apply Hg].
  apply (rtc_ind_r (λ s, inv s ∧ (Metrics.opens_bounded (registry s.1) → gauge_inv s.1))).
  - split; [apply inv_start|]. intros _. constructor; simpl; try done.
    + apply Metrics.paths_inv_zero.
    + by intros ? ?%not_elem_of_nil.
  - intros s s' _ Hs [Hi Hg]. split; [by eapply inv_step|]. intros Hb'.
    destruct (gauge_step s s' Hs Hi Hb') as [Hb0 Hstep]. auto.
Qed.

(** ** An executable scheduler

    One resolution of every choice, to run schedules by evaluation. *)

Definition run_task (t : task) b : option (bond C * list task * list (list task)) :=
  match t with
  | TAdd c cl =>
      let '(added, ptr, b) := link_path c cl b in
      Some (b, [if added then TAdded ptr else TFinish ptr], [])
  | TAdded ptr => Some (notifyStateChanged b, [], [[TReader ptr]])
  | TReader ptr =>
      match readLoop_step mtu true ptr b with
      | (ReadContinue, b) => Some (b, [TReader ptr], [])
      | (ReadStop, b) => Some (b, [TRemove ptr], [])
      | (ReadBlocked data, b) => Some (b, [TSend ptr data], [])
      end
  | TSend ptr data =>
      match enqueue true data b with
      | (ReadContinue, b) => Some (b, [TReader ptr], [])
      | (ReadStop, b) => Some (b, [TRemove ptr], [])
      | (ReadBlocked _, _) => None
      end
  | TRemove ptr =>
      let '(removed, b) := unlink_path ptr b in
      Some (b, if removed then [TUnlinked ptr] else [], [])
  | TUnlinked ptr => Some (b, if Count b =? 0 then [TGrace ptr] else [TNotify ptr], [])
  | TGrace ptr => Some (startEmptyGrace b, [TNotify ptr], [])
  | TNotify ptr => Some (notifyStateChanged b, [TFinish ptr], [])
  | TFinish ptr => Some (closePath ptr b, [], [])
  | TWrite p => Some (b, if closed b then [] else [TWriteSnap p], [])
  | TWriteSnap p =>
      Some (b, match snapshotPaths b with [] => [TWriteGrace] | ps => [TWriteStart p ps] end, [])
  | TWriteStart p ps =>
      order ← attempt_order ps (start_index w (nextPath b) (Z.of_nat (length ps)))
                (seq 0 (length ps));
      Some (b <| nextPath ::= (λ z, wrap_uint (z + 1)) |>, [TAttempt p order], [])
  | TAttempt p [] =>
      Some (b, if negb (closed b) && (Count b =? 0) then [TWriteGrace] else [], [])
  | TAttempt p (ptr :: order) =>
      match write_path p 0 ptr b with
      | (_, None, b) => Some (b, [], [])
      | (_, Some e, b) =>
          Some (b, if isPermanentPathError (Some e) then [TRemove ptr; TAttempt p order]
                   else [TAttempt p order], [])
      end
  | TWriteGrace => Some (startEmptyGrace b, [], [])
  | TClose => if closed b then Some (b, [], []) else Some (b <| closed := true |>, [TCloseTimer], [])
  | TCloseTimer => Some (stop_empty_timer b, [TCloseSnap], [])
  | TCloseSnap => Some (notifyStateChanged b, [TCloseLoop (snapshotPaths b)], [])
  | TCloseLoop [] => Some (b, [], [])
  | TCloseLoop (ptr :: ps) => Some (b, [TRemove ptr; TCloseLoop ps], [])
  | TCallback =>
      let '(expired, b) := timer_callback b in Some (b, if expired then [TClose] else [], [])
  end.

Lemma run_task_sound t b b' ts sp : run_task t b = Some (b', ts, sp) → exec t b b' ts sp.
Proof.
  destruct t as [| | | | | | | | | |p|p ps|p [|ptr order]| | | | |[|ptr ps]|]; cbn [run_task]; intros E.
  all: try solve [simplify_eq; constructor].
  - destruct (link_path c cleanup b) as [[[] ptr] b1] eqn:El; simplify_eq; by constructor.
  - destruct (readLoop_step mtu true ptr b) as [[| |data] b1] eqn:Er; simplify_eq;
      [by eapply exec_read_more|by eapply exec_read_stop|by eapply exec_read_block].
  - destruct (enqueue true data b) as [[| |] b1] eqn:Er; simplify_eq;
      [by eapply exec_send|by eapply exec_send_closed].
  - destruct (unlink_path ptr b) as [[] b1] eqn:Er; simplify_eq; by constructor.
  - destruct (closed b) eqn:Ec; simplify_eq; by constructor.
  - destruct (snapshotPaths b) eqn:Es; simplify_eq; [by constructor|].
    rewrite <-Es. constructor. by rewrite Es.
  - destruct (attempt_order _ _ _) as [order|] eqn:Eo; simplify_eq/=. by constructor.
  - destruct (write_path p 0 ptr b) as [[n [e|]] b1] eqn:Ew; simplify_eq.
    + by eapply exec_attempt_err.
    + by eapply exec_attempt_ok.
  - destruct (closed b) eqn:Ec; simplify_eq; by constructor.
  - destruct (timer_callback b) as [expired b1] eqn:Et; simplify_eq. by constructor.
Qed.

Inductive act := ACall (t : task) | AFire (timer : nat) | ATask (i : nat).

Definition run_act (a : act) (s : config) : option config :=
  let '(b, l) := s in
  match a with
  | ACall t =>
      match t with
      | TAdd c _ => if (closes c =? 0)%nat then Some (b, l ++ [[t]]) else None
      | TWrite _ | TClose => Some (b, l ++ [[t]])
      | _ => None
      end
  | AFire t =>
      if bool_decide (timers b !! t = Some Armed)
      then Some (b <| timers ::= <[t := Fired]> |>, l ++ [[TCallback]]) else None
  | ATask i =>
      match l !! i with
      | Some (t :: k) =>
          '(b', ts, sp) ← run_task t b; Some (b', <[i := ts ++ k]> l ++ sp)
      | _ => None
      end
  end.

Lemma run_act_sound a s s' : run_act a s = Some s' → step s s'.
Proof.
  destruct s as [b l]. destruct a as [t|t|i]; simpl; intros E.
  - destruct t; simplify_eq; try by constructor.
    destruct (Nat.eqb_spec (closes c) 0); simplify_eq. by constructor.
  - case_bool_decide; simplify_eq. by constructor.
  - destruct (l !! i) as [[|t k]|] eqn:Hi; simplify_eq.
    destruct (run_task t b) as [[[b' ts] sp]|] eqn:Er; simplify_eq/=.
    apply run_task_sound in Er. pose proof (take_drop_middle l i _ Hi) as El.
    rewrite insert_take_drop by by eapply lookup_lt_Some.
    rewrite <-El at 1. rewrite <-(assoc_L (++)). by constructor.
Qed.

Definition run_acts (acts : list act) (s : config) : option config :=
  foldl (λ os a, os ≫= run_act a) (Some s) acts.

Lemma run_acts_sound acts s s' : run_acts acts s = Some s' → rtc step s s'.
Proof.
  unfold run_acts. revert s. induction acts as [|a acts IH]; intros s; simpl; intros E.
  - simplify_eq. apply rtc_refl.
  - destruct (run_act a s) as [s1|] eqn:Ea; last first.
    { clear IH. simpl in E. induction acts as [|a' acts IH']; [done|]. by apply IH'. }
    eapply rtc_l; [by eapply run_act_sound|]. by apply IH.
Qed.
End races.

(** ** Concrete schedules, on counted datagram connections *)

Definition schedule (acts : list (act (C := counted dgram))) : option (config (C := counted dgram)) :=
  run_acts 1200 64 acts (start (str "b") 0).

Definition final (acts : list (act (C := counted dgram))) : config (C := counted dgram) :=
  default (start (str "b") 0) (schedule acts).

Lemma schedule_reachable acts : is_Some (schedule acts) → reachable 1200 64 (final acts).
Proof.
  intros [s Hs]. unfold final. rewrite Hs. exists (str "b"), 0. by apply run_acts_sound in Hs.
Qed.

Definition stale_schedule : list (act (C := counted dgram)) :=
  [ACall (TWrite (str "x")); ATask 0; ATask 0; ATask 0; AFire 0;
   ACall (TAdd (fresh_counted []) true); ATask 2; ATask 2;
   ATask 3; ATask 3; ATask 3; ATask 3].

(** a stale timer callback cuts a fresh grace period short.  If a timer
    fires, and before its callback takes the lock a path is added and lost
    again, the callback expires the bond although the new grace timer has just
    been armed: the callback does not check that it belongs to the current
    timer. *)
Theorem stale_timer_expires_bond :
  ∃ (s s' : config (C := counted dgram)) t, reachable 1200 64 s ∧ step 1200 64 s s' ∧
    emptyTimer s.1 = Some t ∧ timers s.1 !! t = Some Armed ∧ emptyExpired s.1 = false ∧
    emptyExpired s'.1 = true ∧ timers s'.1 !! t = Some Armed.
Proof.
  exists (final stale_schedule), (final (stale_schedule ++ [ATask 1])), 1%nat. split_and!.
  - apply schedule_reachable. vm_compute. by eexists.
  - apply (run_act_sound _ _ (ATask 1)). by vm_compute.
  - by vm_compute.
  - by vm_compute.
  - by vm_compute.
  - by vm_compute.
  - by vm_compute.
Qed.

(** A path is added, then the bond is closed. *)
Definition close_schedule : list (act (C := counted dgram)) :=
  [ACall (TAdd (fresh_counted []) true); ATask 0; ATask 0; ACall TClose] ++
  replicate 10 (ATask 2).

Lemma path_ends_once_witness :
  ∃ path, heap (final close_schedule).1 !! 0%nat = Some path ∧ closes (conn path) = 1%nat ∧
    cleanup_calls path = 1%nat.
Proof.
  destruct (heap (final close_schedule).1 !! 0%nat) as [path|] eqn:E; [|by vm_compute in E].
  assert (is_Some (schedule close_schedule)) as Hs by (vm_compute; by eexists).
  pose proof (schedule_reachable close_schedule Hs) as Hr.
  rewrite (surjective_pairing (final close_schedule)) in Hr.
  destruct (path_ends_once 1200 64 _ _ _ _ Hr E) as (_ & _ & Hcl & Hone).
  assert (closes (conn path) = 1%nat) as Ho.
  { apply Hone; vm_compute; [|repeat constructor]. by intros ?%not_elem_of_nil. }
  exists path. rewrite Hcl, Ho. split; [done|]. split; [done|].
  vm_compute in E. injection E as <-. reflexivity.
Defined.

Lemma gauge_is_count_witness :
  Metrics.activePaths (registry (final (take 3 close_schedule)).1) = 1.
Proof.
  assert (is_Some (schedule (take 3 close_schedule))) as Hs by (vm_compute; by eexists).
  pose proof (schedule_reachable _ Hs) as Hr.
  rewrite (surjective_pairing (final (take 3 close_schedule))) in Hr.
  apply (gauge_is_count 1200 64 _ _ Hr). by vm_compute.
Defined.

Lemma close_releases_all_witness : paths (final close_schedule).1 = [].
Proof.
  assert (is_Some (schedule close_schedule)) as Hs by (vm_compute; by eexists).
  pose proof (schedule_reachable close_schedule Hs) as Hr.
  rewrite (surjective_pairing (final close_schedule)) in Hr.
  apply (proj1 (close_releases_all 1200 64 _ _ Hr)).
  - by vm_compute.
  - vm_compute. repeat (apply Forall_cons_2; [first [by left | right; by eexists]|]).
    apply Forall_nil_2.
Defined.

End BondedRaces.
