(* ===== verification/GoIP.v ===== *)
(** * Addresses: the parts of Go's [net] and [net/netip] the program uses

    An IP address is a byte slice ([net.IP]): empty when absent, 4 or 16 bytes
    long otherwise. *)

From S2P Require Import Prelude GoStrings.

Definition IP := list Z.

(** ** Forms and classification *)

Definition v4_in_v6_prefix : list Z := [0; 0; 0; 0; 0; 0; 0; 0; 0; 0; 255; 255].

Definition To4 (ip : IP) : option IP :=
  if (length ip =? 4)%nat then Some ip
  else if (length ip =? 16)%nat && bool_decide (take 12 ip = v4_in_v6_prefix)
  then Some (drop 12 ip) else None.

Definition To16 (ip : IP) : option IP :=
  if (length ip =? 4)%nat then Some (v4_in_v6_prefix ++ ip)
  else if (length ip =? 16)%nat then Some ip else None.

Definition IPv6loopback : IP := replicate 15 0 ++ [1].

(** [IP.IsLoopback]. *)
Definition IsLoopback (ip : IP) : bool :=
  match To4 ip with
  | Some ip4 => bool_decide (head ip4 = Some 127)
  | None => bool_decide (ip = IPv6loopback)
  end.

(** [IP.IsUnspecified]. *)
Definition IsUnspecified (ip : IP) : bool :=
  match To4 ip with
  | Some ip4 => bool_decide (ip4 = [0; 0; 0; 0])
  | None => bool_decide (ip = replicate 16 0)
  end.

(** ** Printing *)

Definition ip4_string (ip4 : IP) : bytes := Join (Itoa <$> ip4) (str ".").

Fixpoint groups (ip : list Z) : list Z :=
  match ip with a :: b :: ip' => (256 * a + b) :: groups ip' | _ => [] end.

(** Lower-case hexadecimal without leading zeros, of a 16-bit number. *)
Definition hex16 (z : Z) : bytes :=
  let ds := [z / 4096; z / 256 mod 16; z / 16 mod 16; z mod 16] in
  let fix strip l := match l with
                 | d :: l' => match l' with [] => l | _ => if d =? 0 then strip l' else l end
                 | [] => l
                 end in
  hex_digit <$> strip ds.

(** Length of the run of zero groups at the head. *)
Fixpoint zero_run (gs : list Z) : nat :=
  match gs with g :: gs' => if g =? 0 then S (zero_run gs') else 0 | [] => 0 end.

(** The first longest run of at least two zero groups: start and length. *)
Fixpoint longest_run (i : nat) (gs : list Z) (best : nat * nat) : nat * nat :=
  match gs with
  | [] => best
  | _ :: gs' =>
      let l := zero_run gs in
      longest_run (S i) gs' (if (2 <=? l)%nat && (best.2 <? l)%nat then (i, l) else best)
  end.

Definition ip6_string (ip : IP) : bytes :=
  let gs := groups ip in
  let '(zs, zl) := longest_run 0 gs (0%nat, 0%nat) in
  let colons l := Join (hex16 <$> l) (str ":") in
  if (zl =? 0)%nat then colons gs
  else colons (take zs gs) ++ str "::" ++ colons (drop (zs + zl) gs).

(** ** Parsing *)

(** One decimal octet: digits only, no leading zero, at most 255. *)
Definition parse_octet (s : bytes) : option Z :=
  match s with
  | [] => None
  | c :: s' =>
      n ← parse_digits 0 s;
      if bool_decide (c = "0"%char) && negb (bool_decide (s' = [])) then None
      else if n <=? 255 then Some n else None
  end.

Definition parse_ip4 (s : bytes) : option IP :=
  match split_on "."%char s with
  | [a; b; c; d] =>
      a ← parse_octet a; b ← parse_octet b; c ← parse_octet c; d ← parse_octet d;
      Some [a; b; c; d]
  | _ => None
  end.

(** The hexadecimal digits at the head of [s]. *)
Fixpoint hex_prefix (s : bytes) : bytes :=
  match s with c :: s' => match hex_value c with Some _ => c :: hex_prefix s' | None => [] end | [] => [] end.

Definition hex_number (ds : bytes) : Z :=
  foldl (λ acc c, 16 * acc + default 0 (hex_value c)) 0 ds.

(** The group loop of [parseIPv6]: [acc] holds the bytes so far, [ell] the
    position of the ellipsis.  The fuel is the number of groups. *)
Fixpoint ip6_loop (fuel : nat) (acc : list Z) (ell : option nat) (s : bytes)
  : option (list Z * option nat * bytes) :=
  match fuel with
  | O => Some (acc, ell, s)
  | S fuel' =>
      let ds := hex_prefix s in
      let rest := drop (length ds) s in
      if bool_decide (ds = []) || (4 <? length ds)%nat then None
      else if bool_decide (head rest = Some "."%char) then
        if (bool_decide (ell = None) && negb (length acc =? 12)%nat) || (12 <? length acc)%nat then None
        else ip4 ← parse_ip4 s; Some (acc ++ ip4, ell, [])
      else
        let n := hex_number ds in
        let acc := acc ++ [n / 256; n mod 256] in
        match rest with
        | [] => Some (acc, ell, [])
        | c :: rest =>
            if negb (Ascii.eqb c ":") then None
            else match rest with
                 | [] => None
                 | c2 :: rest2 =>
                     if Ascii.eqb c2 ":" then
                       if bool_decide (is_Some ell) then None
                       else match rest2 with
                            | [] => Some (acc, Some (length acc), [])
                            | _ => ip6_loop fuel' acc (Some (length acc)) rest2
                            end
                     else ip6_loop fuel' acc ell rest
                 end
        end
  end.

Definition parse_ip6 (s : bytes) : option IP :=
  let '(ell, s) :=
    match s with
    | c1 :: c2 :: s' => if Ascii.eqb c1 ":" && Ascii.eqb c2 ":" then (Some 0%nat, s') else (None, s)
    | _ => (None, s)
    end in
  if bool_decide (ell = Some 0%nat) && bool_decide (s = []) then Some (replicate 16 0)
  else
    '(acc, ell, rest) ← ip6_loop 8 [] ell s;
    if negb (bool_decide (rest = [])) then None
    else if (length acc <? 16)%nat then
      e ← ell; Some (take e acc ++ replicate (16 - length acc) 0 ++ drop e acc)
    else if bool_decide (is_Some ell) then None else Some acc.

(** The first byte of [s] among '.', ':' and '%'. *)
Fixpoint first_mark (s : bytes) : option ascii :=
  match s with
  | [] => None
  | c :: s' => if Ascii.eqb c "." || Ascii.eqb c ":" || Ascii.eqb c "%" then Some c else first_mark s'
  end.

(** [net.ParseIP]: the 16-byte form, or nil; an address with a zone is nil. *)
Definition ParseIP (s : bytes) : IP :=
  match first_mark s with
  | Some m =>
      if Ascii.eqb m "." then default [] (parse_ip4 s ≫= To16)
      else if Ascii.eqb m ":" then
        if bool_decide ("%"%char ∈ s) then [] else default [] (parse_ip6 s)
      else []
  | None => []
  end.

(** [net.SplitHostPort] *)
Definition addr_error (why : string) (hostport : bytes) : goerror :=
  errorf (str "address " ++ hostport ++ str ": " ++ str why).

(** Position of the last colon. *)
Fixpoint last_colon (s : bytes) : option nat :=
  match s with
  | [] => None
  | c :: s' =>
      match last_colon s' with
      | Some i => Some (S i)
      | None => if Ascii.eqb c ":" then Some 0%nat else None
      end
  end.

Fixpoint index_byte (b : ascii) (s : bytes) : option nat :=
  match s with
  | [] => None
  | c :: s' => if Ascii.eqb c b then Some 0%nat else S <$> index_byte b s'
  end.

Definition SplitHostPort (hostport : bytes) : result (bytes * bytes) :=
  match last_colon hostport with
  | None => Err (addr_error "missing port in address" hostport)
  | Some i =>
      let parsed :=
        if bool_decide (head hostport = Some "["%char) then
          match index_byte "]"%char hostport with
          | None => Err (addr_error "missing ']' in address" hostport)
          | Some e =>
              if (S e =? length hostport)%nat then Err (addr_error "missing port in address" hostport)
              else if (S e =? i)%nat then Ok (take (e - 1) (drop 1 hostport), 1%nat, S e)
              else if bool_decide (hostport !! S e = Some ":"%char)
              then Err (addr_error "too many colons in address" hostport)
              else Err (addr_error "missing port in address" hostport)
          end
        else
          let host := take i hostport in
          if bool_decide (":"%char ∈ host) then Err (addr_error "too many colons in address" hostport)
          else Ok (host, 0%nat, 0%nat) in
      let? '(host, j, k) := parsed in
      if bool_decide ("["%char ∈ drop j hostport) then
        Err (addr_error "unexpected '[' in address" hostport)
      else if bool_decide ("]"%char ∈ drop k hostport) then
        Err (addr_error "unexpected ']' in address" hostport)
      else Ok (host, drop (S i) hostport)
  end.

(** [net.JoinHostPort] *)
Definition JoinHostPort (host port : bytes) : bytes :=
  if bool_decide (":"%char ∈ host) then str "[" ++ host ++ str "]:" ++ port else host ++ str ":" ++ port.

(** ** Checks by evaluation *)

Example parse_v6 :
  ParseIP (str "2001:db8::ff00:42:8329") = [32; 1; 13; 184; 0; 0; 0; 0; 0; 0; 255; 0; 0; 66; 131; 41].
Proof. reflexivity. Qed.

Example print_v6 : ip6_string (ParseIP (str "2001:DB8:0:0:0:ff00:42:8329")) = str "2001:db8::ff00:42:8329".
Proof. reflexivity. Qed.

Example split_v6 : SplitHostPort (str "[::1]:9090") = Ok (str "::1", str "9090").
Proof. reflexivity. Qed.

(** ** Loopback addresses *)

Lemma To4_v4 a b c d : To4 [a; b; c; d] = Some [a; b; c; d].
Proof. reflexivity. Qed.

Lemma To4_mapped ip : length ip = 4%nat → To4 (v4_in_v6_prefix ++ ip) = Some ip.
Proof. intros H. do 4 (destruct ip; [done|]). by destruct ip. Qed.

(** The 4-byte and the mapped 16-byte form of an address are classified alike. *)
Lemma IsLoopback_mapped ip :
  length ip = 4%nat → IsLoopback (v4_in_v6_prefix ++ ip) = IsLoopback ip.
Proof.
  intros H. unfold IsLoopback. rewrite To4_mapped by done. unfold To4.
  by rewrite H.
Qed.
