(* ===== verification/GoFloat.v ===== *)
(** * [float64]

    Go's [float64] is IEEE 754 binary64 with rounding to nearest even, here the
    executable [SpecFloat] of the Standard Library.  The lemmas cover what the
    program relies on: [<=] is a total order on finite values that are not
    negative, and an unsigned 64-bit integer converts to such a value. *)

From Stdlib Require Export SpecFloat.
From S2P Require Import Prelude.

(** ** Operations *)

Abbreviation float64 := spec_float.

Definition prec64 : Z := 53.
Definition emax64 : Z := 1024.

Definition fadd (x y : float64) : float64 := SFadd prec64 emax64 x y.
Definition fsub (x y : float64) : float64 := SFsub prec64 emax64 x y.
Definition fdiv (x y : float64) : float64 := SFdiv prec64 emax64 x y.

(** [float64(n)] of an unsigned integer. *)
Definition float_of_uint (n : Z) : float64 := binary_normalize prec64 emax64 n 0 false.

Definition IsNaN (x : float64) : bool := match x with S754_nan => true | _ => false end.
Definition IsInf (x : float64) : bool := match x with S754_infinity _ => true | _ => false end.
Definition fzero : float64 := S754_zero false.

(** [x <= y] *)
Definition fle (x y : float64) : Prop := SFleb x y = true.

#[export] Instance fle_dec x y : Decision (fle x y) := decide (SFleb x y = true).

(** ** The order on values that pass the checks *)

(** Finite and not below zero; the zero may carry a sign. *)
Definition fvalid (x : float64) : Prop := IsNaN x = false ∧ IsInf x = false ∧ SFltb x fzero = false.

Definition rank64 (x : float64) : Z * Z :=
  match x with S754_finite _ m e => (e, Zpos m) | _ => (0, 0) end.

Lemma fvalid_cases x : fvalid x → (∃ s, x = S754_zero s) ∨ ∃ m e, x = S754_finite false m e.
Proof. intros (Hn & Hi & Hl). destruct x as [s| | |[|] m e]; cbn in *; try done; eauto. Qed.

Lemma fle_finite m1 e1 m2 e2 : fle (S754_finite false m1 e1) (S754_finite false m2 e2) ↔
  e1 < e2 ∨ (e1 = e2 ∧ (m1 ≤ m2)%positive).
Proof.
  unfold fle, SFleb, SFcompare. change (Pos.compare_cont Eq m1 m2) with (m1 ?= m2)%positive.
  destruct (Z.compare_spec e1 e2); subst; [|naive_solver lia..].
  destruct (Pos.compare_spec m1 m2); naive_solver lia.
Qed.

Lemma fle_total x y : fvalid x → fvalid y → fle x y ∨ fle y x.
Proof.
  intros [[s ->] |(m1 & e1 & ->)]%fvalid_cases [[s' ->] |(m2 & e2 & ->)]%fvalid_cases; [by left|by left|by right|].
  rewrite !fle_finite. lia.
Qed.

Lemma fle_trans x y z : fvalid x → fvalid y → fvalid z → fle x y → fle y z → fle x z.
Proof.
  intros [[s ->] |(m1 & e1 & ->)]%fvalid_cases [[s' ->] |(m2 & e2 & ->)]%fvalid_cases
    [[s'' ->] |(m3 & e3 & ->)]%fvalid_cases; try done.
  rewrite !fle_finite. lia.
Qed.

(** ** Converting integers *)

Lemma digits2_log2 p : Zpos (digits2_pos p) = Z.log2 (Zpos p) + 1.
Proof.
  induction p as [p IH|p IH|]; cbn [digits2_pos]; [| |done].
  - rewrite Pos2Z.inj_succ, IH. rewrite (Pos2Z.inj_xI p), Z.log2_succ_double by done. lia.
  - rewrite Pos2Z.inj_succ, IH. rewrite (Pos2Z.inj_xO p), Z.log2_double by done. lia.
Qed.

(** At most [k] bits. *)
Lemma Zdigits2_le n k : 0 ≤ n < 2 ^ k → 0 ≤ k → 0 ≤ Zdigits2 n ≤ k.
Proof.
  intros Hn Hk. destruct n as [|p|p]; cbn; [lia| |lia].
  rewrite digits2_log2. pose proof (Z.log2_nonneg (Zpos p)).
  assert (Z.log2 (Zpos p) < k) by (apply Z.log2_lt_pow2; lia). lia.
Qed.

Lemma shr_1_bound mrs : 0 ≤ shr_m mrs → 0 ≤ shr_m (shr_1 mrs) ≤ shr_m mrs.
Proof. destruct mrs as [[|[]|[]] r s]; cbn; lia. Qed.

Lemma iter_shr_bound p mrs : 0 ≤ shr_m mrs → 0 ≤ shr_m (SpecFloat.iter_pos shr_1 p mrs) ≤ shr_m mrs.
Proof.
  revert mrs. induction p as [p IH|p IH|]; intros mrs H; cbn [SpecFloat.iter_pos]; [| |by apply shr_1_bound].
  - pose proof (shr_1_bound mrs H). pose proof (IH (shr_1 mrs) ltac:(lia)).
    pose proof (IH (SpecFloat.iter_pos shr_1 p (shr_1 mrs)) ltac:(lia)). lia.
  - pose proof (IH mrs H). pose proof (IH (SpecFloat.iter_pos shr_1 p mrs) ltac:(lia)). lia.
Qed.

(** A shift keeps the mantissa within [k] bits and the exponent below [b]. *)
Lemma shr_fexp_bound m e l k b mrs e' : shr_fexp prec64 emax64 m e l = (mrs, e') →
  0 ≤ m < 2 ^ k → 0 ≤ k → e ≤ b → k + e - prec64 ≤ b → -1074 ≤ b → 0 ≤ shr_m mrs ≤ m ∧ e' ≤ b.
Proof.
  intros Hs Hm Hk He Hb Hb'. unfold shr_fexp, shr in Hs.
  assert (shr_m (shr_record_of_loc m l) = m) as Hr by (by destruct l as [|[]]).
  pose proof (Zdigits2_le m k Hm Hk). unfold fexp, emin, prec64, emax64 in *.
  destruct (Z.max (Zdigits2 m + e - 53) (3 - 1024 - 53) - e) as [|p|p] eqn:E; injection Hs as <- <-.
  - rewrite Hr. lia.
  - pose proof (iter_shr_bound p (shr_record_of_loc m l)) as Hi. rewrite Hr in Hi. lia.
  - rewrite Hr. lia.
Qed.

Lemma round_bound m l : 0 ≤ m → 0 ≤ round_nearest_even m l ≤ m + 1.
Proof. intros H. unfold round_nearest_even. repeat case_match; lia. Qed.

Lemma Pos_iter_xO m d : Zpos (Pos.iter xO m d) = Zpos m * 2 ^ Zpos d.
Proof.
  induction d using Pos.peano_ind; [cbn; lia|].
  rewrite Pos.iter_succ, Pos2Z.inj_succ, Z.pow_succ_r by lia.
  change (Z.pos (Pos.iter xO m d)~0) with (2 * Z.pos (Pos.iter xO m d)). lia.
Qed.

Lemma float_of_uint_valid n : in_uint n → fvalid (float_of_uint n).
Proof.
  intros [H0 Hn]. destruct n as [|p|p]; [done| |lia].
  change (float_of_uint (Zpos p)) with (binary_round prec64 emax64 false p 0).
  unfold binary_round, shl_align.
  assert (1 ≤ Zpos (digits2_pos p) ≤ 64) as Hd.
  { pose proof (Zdigits2_le (Zpos p) 64 ltac:(unfold two64 in *; lia) ltac:(lia)). cbn in *. lia. }
  set (d := fexp prec64 emax64 (Zpos (digits2_pos p) + 0) - 0).
  assert (-52 ≤ d ≤ 11) as Hdr by (unfold d, fexp, emin, prec64, emax64; lia).
  assert (∃ m e, (match d with Zneg k => (Pos.iter xO p k, fexp prec64 emax64 (Zpos (digits2_pos p) + 0)) | _ => (p, 0) end) = (m, e)
    ∧ Zpos m < 2 ^ 116 ∧ e ≤ 0) as (m & e & -> & Hm & He).
  { assert (two64 < 2 ^ 116) by done. destruct d as [|k|k] eqn:Ed.
    - exists p, 0. split_and!; [done|lia|lia].
    - exists p, 0. split_and!; [done|lia|lia].
    - eexists _, _. split; [done|]. rewrite Pos_iter_xO. split.
      + assert (2 ^ Zpos k ≤ 2 ^ 52) by (apply Z.pow_le_mono_r; lia).
        change (2 ^ 116) with (two64 * 2 ^ 52). nia.
      + unfold d in Ed. lia. }
  unfold binary_round_aux.
  destruct (shr_fexp prec64 emax64 (Zpos m) e loc_Exact) as [mrs1 e1] eqn:E1.
  destruct (shr_fexp_bound _ _ _ 116 63 _ _ E1) as [Hm1 He1]; [lia|lia|lia|unfold prec64; lia|lia|].
  pose proof (round_bound (shr_m mrs1) (loc_of_shr_record mrs1) ltac:(lia)) as Hround.
  set (m2 := round_nearest_even _ _) in *.
  destruct (shr_fexp prec64 emax64 m2 e1 loc_Exact) as [mrs2 e2] eqn:E2.
  assert (2 ^ 117 = 2 * 2 ^ 116) by done.
  destruct (shr_fexp_bound _ _ _ 117 127 _ _ E2) as [Hm2 He2]; [lia|lia|lia|unfold prec64; lia|lia|].
  destruct (shr_m mrs2) as [|q|q]; [done| |lia].
  destruct (Z.leb_spec e2 (emax64 - prec64)); [done|]. unfold emax64, prec64 in *. lia.
Qed.
