(* ===== verification/Leases.v ===== *)
(** * Leases: the interface between the limiters and their users

    [server/connection_limiter.go] and [server/backend_limiter.go] hand out
    leases that are returned at most once.  [LeaseSource] states the operations,
    [LeaseLaws] what a limiter promises; users are verified against the laws. *)

From S2P Require Import Prelude Metrics.

(** [S]: limiter state, [K]: what a lease is asked for, [L]: leases, [R]:
    reasons for a refusal. *)
Class LeaseSource (S K L R : Type) := {
  acquire : K → S → (L + R) * S;
  release : L → S → bool * S;
  holds : S → L → bool;
  in_use : S → nat;
  lease_valid : S → Prop;
}.

Class LeaseLaws (S K L R : Type) `{!LeaseSource S K L R} `{!EqDecision L} := {
  acquire_granted k s l s' : lease_valid s → acquire k s = (inl l, s') →
    lease_valid s' ∧ in_use s' = Datatypes.S (in_use s) ∧ holds s l = false ∧
    ∀ l', holds s' l' = (if decide (l' = l) then true else holds s l');
  in_use_bounded s : lease_valid s → Z.of_nat (in_use s) < two63;
  acquire_refused k s r s' : lease_valid s → acquire k s = (inr r, s') →
    lease_valid s' ∧ in_use s' = in_use s ∧ ∀ l, holds s' l = holds s l;
  release_once l s r s' : lease_valid s → release l s = (r, s') →
    lease_valid s' ∧ r = holds s l ∧ in_use s = ((if r then 1 else 0) + in_use s')%nat ∧
    ∀ l', holds s' l' = (if decide (l' = l) then false else holds s l');
}.

(** ** The accept loop's bookkeeping (server/main.go)

    Every accepted transport connection takes a lease and bumps a gauge; the
    connection's cleanup, which competing goroutines may call, gives both back. *)

Module AcceptLoop.

(** [shouldLogResourceRejection]: log at the powers of two. *)
Definition shouldLogResourceRejection (count : Z) : bool :=
  negb (count =? 0) && (Z.land count (wrap_uint (count - 1)) =? 0).

Section accept.
Context {S K L R : Type} `{LeaseSource S K L R}.

Record server := MkServer {
  limiter : S;
  metrics : Metrics.Registry;
  connectionRejections : Z;
}.

#[export] Instance server_eta : Eta server := λ s,
  MkServer (limiter s) (metrics s) (connectionRejections s).

(** The loop body after [listener.Accept]: the lease handed to the
    connection's goroutine, or the refusal and whether it is logged. *)
Definition accept (remote : K) (s : server) : (L + R * bool) * server :=
  match acquire remote (limiter s) with
  | (inr r, lim) =>
      let count := wrap_uint (connectionRejections s + 1) in
      (inr (r, shouldLogResourceRejection count),
       s <| limiter := lim |> <| metrics ::= Metrics.ConnectionLimitRejected |>
         <| connectionRejections := count |>)
  | (inl l, lim) =>
      (inl l, s <| limiter := lim |> <| metrics ::= Metrics.TransportConnectionOpened |>)
  end.

(** [releaseConnection] *)
Definition releaseConnection (l : L) (s : server) : server :=
  let '(returned, lim) := release l (limiter s) in
  let s := s <| limiter := lim |> in
  if returned then s <| metrics ::= Metrics.TransportConnectionClosed |> else s.

Inductive step : server → server → Prop :=
  | step_accept remote s : step s (accept remote s).2
  | step_release l s : step s (releaseConnection l s).

Definition gauge_ok (s : server) : Prop :=
  lease_valid (limiter s) ∧
  Metrics.activeTransportConnections (metrics s) = Z.of_nat (in_use (limiter s)).

Context `{!EqDecision L} `{!LeaseLaws S K L R}.

Lemma gauge_accept remote s : gauge_ok s → gauge_ok (accept remote s).2.
Proof.
  intros [Hv Hg]. unfold accept. destruct (acquire remote (limiter s)) as [[l|r] lim] eqn:E.
  - destruct (acquire_granted _ _ _ _ Hv E) as (Hv' & Hu & _). split; [done|]. simpl.
    rewrite Hg, Hu. unfold Metrics.add_int. pose proof (in_use_bounded _ Hv').
    rewrite wrap_int_id; [lia|]. unfold in_int, two63 in *. lia.
  - apply acquire_refused in E as (Hv' & Hu & _); [|done]. split; [done|].
    simpl. by rewrite Hu.
Qed.

Lemma gauge_release l s : gauge_ok s → gauge_ok (releaseConnection l s).
Proof.
  intros [Hv Hg]. unfold releaseConnection. destruct (release l (limiter s)) as [r lim] eqn:E.
  destruct (release_once _ _ _ _ Hv E) as (Hv' & _ & Hu & _).
  pose proof (in_use_bounded _ Hv). destruct r; (split; [done|]); simpl; [|by rewrite Hg, Hu].
  rewrite Hg, Hu. unfold Metrics.add_int. rewrite wrap_int_id; [lia|].
  unfold in_int, two63 in *. lia.
Qed.

Lemma gauge_steps s s' : rtc step s s' → gauge_ok s → gauge_ok s'.
Proof.
  induction 1 as [|s1 s2 s3 Hs _ IH]; [done|]. intros Hg. apply IH.
  destruct Hs; [by apply gauge_accept|by apply gauge_release].
Qed.

Lemma released_not_held l s : gauge_ok s → holds (limiter (releaseConnection l s)) l = false.
Proof.
  intros [Hv _]. unfold releaseConnection. destruct (release l (limiter s)) as [r lim] eqn:E.
  destruct (release_once _ _ _ _ Hv E) as (_ & _ & _ & Hh).
  destruct r; simpl; by rewrite Hh, decide_True.
Qed.

Lemma release_not_held l s : gauge_ok s → holds (limiter s) l = false →
  metrics (releaseConnection l s) = metrics s ∧
  in_use (limiter (releaseConnection l s)) = in_use (limiter s).
Proof.
  intros [Hv _] Hh. unfold releaseConnection. destruct (release l (limiter s)) as [r lim] eqn:E.
  destruct (release_once _ _ _ _ Hv E) as (_ & -> & Hu & _). rewrite Hh in *. by split.
Qed.

(** for every limiter that keeps its lease laws, and under every
    sequence of accepts and (possibly repeated) cleanups, the active-connection
    gauge equals the number of leases outstanding; releasing a lease twice in a
    row changes nothing the second time. *)
Theorem transport_gauge_exact s s' l :
  rtc step s s' → gauge_ok s →
  Metrics.activeTransportConnections (metrics s') = Z.of_nat (in_use (limiter s')) ∧
  let s1 := releaseConnection l s' in
  metrics (releaseConnection l s1) = metrics s1 ∧
  in_use (limiter (releaseConnection l s1)) = in_use (limiter s1).
Proof.
  intros Hr Hg. pose proof (gauge_steps _ _ Hr Hg) as Hg'. split; [apply Hg'|].
  apply release_not_held; [by apply gauge_release|by apply released_not_held].
Qed.
End accept.

(** A rejection is logged exactly at the powers of two. *)
Lemma should_log_pow2 n : 0 ≤ n < 64 → shouldLogResourceRejection (2 ^ n) = true.
Proof.
  intros Hn. assert (Forall (λ n, shouldLogResourceRejection (2 ^ n) = true) (seqZ 0 64)) as Hall
    by (apply (bool_decide_unpack _); by vm_compute).
  rewrite Forall_forall in Hall. apply Hall, elem_of_seqZ. lia.
Qed.

(** resource rejections are logged exactly at the powers of two, over
    the whole range of the 64-bit counter, so a flood of rejections costs at most
    64 log lines. *)
Theorem log_at_powers_of_two count : in_uint count →
  shouldLogResourceRejection count = true ↔ ∃ n, 0 ≤ n < 64 ∧ count = 2 ^ n.
Proof.
  intros Hc. split; [|intros (n & Hn & ->); by apply should_log_pow2].
  unfold shouldLogResourceRejection. intros [Hz%negb_true_iff Hl]%andb_true_iff.
  apply Z.eqb_neq in Hz. apply Z.eqb_eq in Hl. unfold in_uint, two64 in *.
  rewrite wrap_uint_id in Hl by (unfold in_uint, two64; lia).
  set (n := Z.log2 count). assert (0 ≤ n) by apply Z.log2_nonneg.
  destruct (Z.log2_spec count) as [Hlo Hhi]; [lia|]. fold n in Hlo, Hhi.
  exists n. split.
  - split; [done|]. apply (Z.pow_lt_mono_r_iff 2); lia.
  - destruct (decide (count = 2 ^ n)) as [|Hne]; [done|]. exfalso.
    assert (Z.log2 (count - 1) = n) as Hn' by (apply Z.log2_unique; lia).
    pose proof (Z.bit_log2 count) as B1. pose proof (Z.bit_log2 (count - 1)) as B2.
    assert (0 < 2 ^ n) by (apply Z.pow_pos_nonneg; lia). rewrite Hn' in B2. fold n in B1.
    assert (Z.testbit (Z.land count (count - 1)) n = true) as B.
    { rewrite Z.land_spec, B1, B2 by lia. done. }
    by rewrite Hl, Z.bits_0 in B.
Qed.

Lemma log_at_powers_of_two_witness : shouldLogResourceRejection 1024 = true.
Proof.
  apply log_at_powers_of_two; [unfold in_uint, two64; lia|]. exists 10. split; [lia|done].
Defined.

End AcceptLoop.
