(* ===== verification/ConnLimiter.v ===== *)
(** * The transport connection limiter (server/connection_limiter.go)

    A [*connectionLease] is a location in [leases]; its [once] is the flag
    [released].  Each operation holds the mutex throughout, so it is one step. *)

From S2P Require Import Prelude GoStrings GoIP Metrics Leases.

Module ConnLimiter.

Definition maximumConfiguredConnectionLimit : Z := 65535.

(** [net.Addr] as [remoteIPKey] distinguishes it. *)
Inductive net_Addr := UDPAddr (ip : IP) | TCPAddr (ip : IP) | OtherAddr (text : bytes).

Definition remoteIPKey (remote : option net_Addr) : result bytes :=
  match remote with
  | None => Err (errorf (str "remote address is nil"))
  | Some addr =>
      let? ip := match addr with
                 | UDPAddr ip | TCPAddr ip => Ok ip
                 | OtherAddr text =>
                     let? '(host, _) := map_err (errorf_w (str "split remote address: "))
                                          (SplitHostPort text) in
                     Ok (ParseIP host)
                 end in
      match To4 ip with
      | Some ipv4 => Ok (ip4_string ipv4)
      | None =>
          match To16 ip with
          | Some ipv6 => Ok (ip6_string ipv6)
          | None => Err (errorf (str "remote address has no valid IP"))
          end
      end
  end.

Inductive connectionRejection :=
  connectionRejectedInvalidIP | connectionRejectedGlobal | connectionRejectedPerIP.

#[export] Instance connectionRejection_eq_dec : EqDecision connectionRejection.
Proof. solve_decision. Defined.

Record connectionLease := MkLease { ip : bytes; released : bool }.

#[export] Instance connectionLease_eta : Eta connectionLease := λ l, MkLease (ip l) (released l).

Record connectionLimiter := MkLimiter {
  maxTotal : Z; maxPerIP : Z; total : Z; perIP : gmap bytes Z;
  leases : list connectionLease;
}.

#[export] Instance connectionLimiter_eta : Eta connectionLimiter := λ l,
  MkLimiter (maxTotal l) (maxPerIP l) (total l) (perIP l) (leases l).

Definition newConnectionLimiter (maxTotal maxPerIP : Z) : result connectionLimiter :=
  if (maxTotal <? 1) || (maxTotal >? maximumConfiguredConnectionLimit) then
    Err (errorf (str "maximum transport connections must be in 1.." ++
                 Itoa maximumConfiguredConnectionLimit))
  else if (maxPerIP <? 1) || (maxPerIP >? maxTotal) then
    Err (errorf (str "maximum transport connections per IP must be in 1.." ++ Itoa maxTotal))
  else Ok (MkLimiter maxTotal maxPerIP 0 ∅ []).

(** [l.perIP[ip]]: zero when absent. *)
Definition per_ip (ip : bytes) (l : connectionLimiter) : Z := default 0 (perIP l !! ip).

Definition Acquire (remote : option net_Addr) (l : connectionLimiter)
  : (nat + connectionRejection) * connectionLimiter :=
  match remoteIPKey remote with
  | Err _ => (inr connectionRejectedInvalidIP, l)
  | Ok ip =>
      if total l >=? maxTotal l then (inr connectionRejectedGlobal, l)
      else if per_ip ip l >=? maxPerIP l then (inr connectionRejectedPerIP, l)
      else (inl (length (leases l)),
            l <| total ::= (λ t, t + 1) |> <| perIP := <[ip := per_ip ip l + 1]> (perIP l) |>
              <| leases ::= (λ ls, ls ++ [MkLease ip false]) |>)
  end.

Definition release_ip (ip : bytes) (l : connectionLimiter) : connectionLimiter :=
  let l := if per_ip ip l <=? 1 then l <| perIP := delete ip (perIP l) |>
           else l <| perIP := <[ip := per_ip ip l - 1]> (perIP l) |> in
  if total l >? 0 then l <| total ::= (λ t, t - 1) |> else l.

(** [connectionLease.Release]. *)
Definition Release (p : nat) (l : connectionLimiter) : bool * connectionLimiter :=
  match leases l !! p with
  | None => (false, l)
  | Some lease =>
      if released lease then (false, l)
      else (true, release_ip (ip lease)
                    (l <| leases := <[p := lease <| released := true |>]> (leases l) |>))
  end.

Definition counts (ip : bytes) (l : connectionLimiter) : Z * Z := (total l, per_ip ip l).

(** ** Abstract view: the multiset of addresses that hold a lease *)

Definition live (l : connectionLimiter) : list bytes :=
  ip <$> filter (λ ls, released ls = false) (leases l).

Definition uses (k : bytes) (l : connectionLimiter) : nat :=
  count (λ x, bool_decide (x = k)) (live l).

Record limiter_inv (l : connectionLimiter) : Prop := {
  inv_config : 1 ≤ maxPerIP l ≤ maxTotal l ∧ maxTotal l ≤ maximumConfiguredConnectionLimit;
  inv_total : total l = Z.of_nat (length (live l));
  inv_total_max : total l ≤ maxTotal l;
  inv_per k : perIP l !! k =
    if decide (uses k l = 0%nat) then None else Some (Z.of_nat (uses k l));
  inv_per_max k : Z.of_nat (uses k l) ≤ maxPerIP l;
}.

(** The specification: what a limiter of live addresses decides. *)
Definition spec_acquire (maxTotal maxPerIP : Z) (remote : option net_Addr) (live : list bytes)
  : connectionRejection + list bytes :=
  match remoteIPKey remote with
  | Err _ => inl connectionRejectedInvalidIP
  | Ok k =>
      if decide (maxTotal ≤ Z.of_nat (length live)) then inl connectionRejectedGlobal
      else if decide (maxPerIP ≤ Z.of_nat (count (λ x, bool_decide (x = k)) live))
      then inl connectionRejectedPerIP
      else inr (live ++ [k])
  end.

Lemma per_ip_uses k l : limiter_inv l → per_ip k l = Z.of_nat (uses k l).
Proof.
  intros Hi. unfold per_ip. rewrite (inv_per l Hi k). case_decide as E; [by rewrite E|done].
Qed.

Lemma live_snoc l k :
  live (l <| leases ::= (λ ls, ls ++ [MkLease k false]) |>) = live l ++ [k].
Proof. unfold live. simpl. by rewrite filter_app, fmap_app. Qed.

Lemma live_release l p ls :
  leases l !! p = Some ls → released ls = false →
  ∃ a b, live l = a ++ ip ls :: b ∧
         ip <$> filter (λ ls, released ls = false) (<[p := ls <| released := true |>]> (leases l)) = a ++ b.
Proof.
  intros Hp Hr.
  exists (ip <$> filter (λ ls, released ls = false) (take p (leases l))),
    (ip <$> filter (λ ls, released ls = false) (drop (S p) (leases l))). split.
  - unfold live. rewrite <-(take_drop_middle _ _ _ Hp) at 1.
    by rewrite filter_app, filter_cons_True, fmap_app, fmap_cons.
  - rewrite insert_take_drop by by eapply lookup_lt_Some.
    by rewrite filter_app, filter_cons_False, fmap_app.
Qed.

Lemma inv_new a b l : newConnectionLimiter a b = Ok l → limiter_inv l ∧ live l = [].
Proof.
  unfold newConnectionLimiter. intros. go_cases. split; [|done].
  constructor; simpl; [lia|done|lia|done|]. intros k. unfold uses. simpl. lia.
Qed.

(** Acquire refines its specification and keeps the invariant. *)
Lemma Acquire_spec remote l : limiter_inv l →
  let '(r, l') := Acquire remote l in
  limiter_inv l' ∧
  match spec_acquire (maxTotal l) (maxPerIP l) remote (live l) with
  | inl why => r = inr why ∧ l' = l
  | inr live' => r = inl (length (leases l)) ∧ live l' = live' ∧
                 ∃ k, leases l' = leases l ++ [MkLease k false]
  end.
Proof.
  intros Hi. unfold Acquire, spec_acquire. destruct (remoteIPKey remote) as [k|e]; [|done].
  destruct Hi as [H1 H2 H3 H4 H5] eqn:E. rewrite (per_ip_uses k l Hi), H2. fold (uses k l).
  destruct (Z.geb_spec (Z.of_nat (length (live l))) (maxTotal l)).
  { by rewrite decide_True by lia. }
  rewrite decide_False by lia. destruct (Z.geb_spec (Z.of_nat (uses k l)) (maxPerIP l)).
  { by rewrite decide_True by lia. }
  rewrite decide_False by lia. clear E Hi.
  set (l' := _ <| leases ::= _ |>).
  assert (live l' = live l ++ [k]) as Hl by (etrans; [apply live_snoc|done]).
  assert (∀ q, uses q l' = uses q l + if decide (k = q) then 1 else 0)%nat as Hu.
  { intros q. unfold uses. rewrite Hl, count_app. simpl. repeat case_bool_decide; case_decide; done || lia. }
  split; [|split_and!; [done|done|by eexists]]. constructor.
  - done.
  - rewrite Hl, length_app. simpl. lia.
  - simpl. lia.
  - intros q. rewrite Hu. simpl. destruct (decide (k = q)) as [<-|Hne].
    + rewrite lookup_insert_eq. rewrite decide_False by lia. f_equal. lia.
    + rewrite lookup_insert_ne, H4, Nat.add_0_r by done. done.
  - intros q. rewrite Hu. specialize (H5 q). simpl. case_decide; subst; lia.
Qed.

Lemma Release_spec p l : limiter_inv l →
  let '(r, l') := Release p l in
  limiter_inv l' ∧ maxTotal l' = maxTotal l ∧ maxPerIP l' = maxPerIP l ∧
  match leases l !! p with
  | Some ls =>
      leases l' = <[p := ls <| released := true |>]> (leases l) ∧
      if released ls then r = false ∧ l' = l
      else r = true ∧ ∃ a b, live l = a ++ ip ls :: b ∧ live l' = a ++ b
  | None => r = false ∧ l' = l
  end.
Proof.
  intros Hi. unfold Release. destruct (leases l !! p) as [ls|] eqn:Hp; [|done].
  destruct (released ls) eqn:Hr.
  { split_and!; try done. rewrite list_insert_id; [done|].
    rewrite Hp. f_equal. by destruct ls; simpl in *; subst. }
  destruct (live_release l p ls Hp Hr) as (a & b & Ea & Eb).
  pose proof (per_ip_uses (ip ls) l Hi) as Hk. destruct Hi as [H1 H2 H3 H4 H5].
  set (l1 := l <| leases := _ |>).
  assert (∀ m, maxTotal (release_ip m l1) = maxTotal l ∧ maxPerIP (release_ip m l1) = maxPerIP l ∧
    leases (release_ip m l1) = leases l1) as Hkeep.
  { intros m. unfold release_ip. repeat case_match; done. }
  destruct (Hkeep (ip ls)) as (K1 & K2 & K3).
  assert (live (release_ip (ip ls) l1) = a ++ b) as Hl by (unfold live; by rewrite K3).
  assert (∀ q, uses q l = uses q (release_ip (ip ls) l1) + if decide (ip ls = q) then 1 else 0)%nat as Hu.
  { intros q. unfold uses. rewrite Hl, Ea, !count_app. simpl.
    repeat case_bool_decide; case_decide; done || lia. }
  assert (0 < uses (ip ls) l)%nat as Hpos by (specialize (Hu (ip ls)); rewrite decide_True in Hu by done; lia).
  assert (total (release_ip (ip ls) l1) = total l - 1) as Ht.
  { assert (0 < total l) by (rewrite H2, Ea, length_app; simpl; lia).
    unfold release_ip. destruct (per_ip _ _ <=? 1); simpl;
      (destruct (Z.gtb_spec (total l) 0); [done|lia]). }
  assert (perIP (release_ip (ip ls) l1) =
    if (uses (ip ls) l =? 1)%nat then delete (ip ls) (perIP l)
    else <[ip ls := Z.of_nat (uses (ip ls) l) - 1]> (perIP l)) as Hper.
  { unfold release_ip. change (per_ip (ip ls) l1) with (per_ip (ip ls) l). rewrite Hk.
    destruct (Z.leb_spec (Z.of_nat (uses (ip ls) l)) 1); destruct (Nat.eqb_spec (uses (ip ls) l) 1);
      try lia; case_match; done. }
  split; [|split_and!; try done; by exists a, b]. constructor.
  - by rewrite K1, K2.
  - rewrite Ht, H2, Hl, Ea, !length_app. simpl. lia.
  - rewrite K1, Ht. lia.
  - intros q. specialize (Hu q). rewrite Hper. specialize (H4 q).
    destruct (decide (ip ls = q)) as [<-|Hne].
    + destruct (Nat.eqb_spec (uses (ip ls) l) 1).
      * rewrite lookup_delete_eq, decide_True by lia. done.
      * rewrite lookup_insert_eq, decide_False by lia. f_equal. lia.
    + rewrite Nat.add_0_r in Hu. rewrite <-Hu, <-H4. case_match;
        [by rewrite lookup_delete_ne|by rewrite lookup_insert_ne].
  - intros q. rewrite K2. specialize (H5 q). specialize (Hu q). lia.
Qed.

(** ** The limiter as a lease source *)

Definition lease_held (l : connectionLimiter) (p : nat) : bool :=
  match leases l !! p with Some ls => negb (released ls) | None => false end.

#[export] Instance limiter_source : LeaseSource connectionLimiter (option net_Addr) nat connectionRejection := {
  acquire := Acquire;
  release := Release;
  holds := lease_held;
  in_use l := length (live l);
  lease_valid := limiter_inv;
}.

#[export] Instance limiter_laws : LeaseLaws connectionLimiter (option net_Addr) nat connectionRejection.
Proof.
  split; cbn [acquire release holds in_use lease_valid limiter_source].
  - intros k l p l' Hi E. pose proof (Acquire_spec k l Hi) as H. rewrite E in H.
    destruct H as [Hi' H]. destruct (spec_acquire _ _ _ _) as [why|live'] eqn:Es; [by destruct H|].
    destruct H as ([= ->] & Hl & k' & Hls). split; [done|]. split.
    + unfold spec_acquire in Es. repeat case_match; simplify_eq. rewrite <-Es, length_app. simpl. lia.
    + unfold lease_held. rewrite Hls. split; [by rewrite lookup_ge_None_2 by lia|].
      intros q. rewrite lookup_app. case_decide as Hq.
      * subst. by rewrite lookup_ge_None_2, Nat.sub_diag by lia.
      * destruct (leases l !! q) eqn:Eq; [done|]. apply lookup_ge_None in Eq.
        destruct (q - length (leases l))%nat as [|[|n]] eqn:En; [lia|done|done].
  - intros l Hi. rewrite <-(inv_total l Hi). pose proof (inv_total_max l Hi).
    destruct (inv_config l Hi). unfold maximumConfiguredConnectionLimit, two63 in *. lia.
  - intros k l r l' Hi E. pose proof (Acquire_spec k l Hi) as H. rewrite E in H.
    destruct H as [_ H]. destruct (spec_acquire _ _ _ _); [by destruct H as [_ ->]|]. by destruct H.
  - intros p l r l' Hi E. pose proof (Release_spec p l Hi) as H. rewrite E in H.
    destruct H as (Hi' & _ & _ & H). split; [done|]. unfold lease_held.
    destruct (leases l !! p) as [ls|] eqn:Hp.
    + destruct H as [Hls H]. rewrite Hls.
      destruct (released ls) eqn:Hr; [destruct H as [-> ->]|destruct H as (-> & a & b & Ea & Eb)];
        (split; [done|]; split; [by rewrite ?Ea, ?Eb, ?length_app; simpl; lia|]); intros q;
        (case_decide as Hq; [subst; rewrite list_lookup_insert_eq by (by eapply lookup_lt_Some); done
                            |by rewrite list_lookup_insert_ne]).
    + destruct H as [-> ->]. do 2 (split; [done|]). intros q. case_decide; [subst; by rewrite Hp|done].
Qed.

(** ** Theorems *)

Inductive limiter_step : connectionLimiter → connectionLimiter → Prop :=
  | limiter_acquire remote l : limiter_step l (Acquire remote l).2
  | limiter_release p l : limiter_step l (Release p l).2.

Lemma limiter_inv_step l l' : limiter_step l l' → limiter_inv l → limiter_inv l'.
Proof.
  intros [remote l0|p l0] Hi.
  - pose proof (Acquire_spec remote l0 Hi) as H. destruct (Acquire remote l0). apply H.
  - pose proof (Release_spec p l0 Hi) as H. destruct (Release p l0). apply H.
Qed.

(** whatever connections come and go, the limiter never holds more than
    the configured total nor more than the per-address limit for any address,
    its counters are exactly the numbers of unreleased leases, and an address
    with none has no map entry, so the map cannot grow without bound. *)
Theorem limits_hold maxT maxP l0 l :
  newConnectionLimiter maxT maxP = Ok l0 → rtc limiter_step l0 l → limiter_inv l.
Proof.
  intros [Hi _]%inv_new Hr. induction Hr as [|l1 l2 l3 Hs _ IH]; [done|].
  by apply IH, (limiter_inv_step l1).
Qed.

Definition peer (d : Z) : option net_Addr := Some (UDPAddr [192; 0; 2; d]).

Lemma limits_hold_witness :
  limiter_inv (Acquire (peer 1) (MkLimiter 2 1 0 ∅ [])).2.
Proof.
  apply (limits_hold 2 1 (MkLimiter 2 1 0 ∅ [])); [done|]. apply rtc_once. constructor.
Defined.



(** The interface theorem at this limiter. *)
Definition idle_server : AcceptLoop.server :=
  AcceptLoop.MkServer (MkLimiter 2 1 0 ∅ []) Metrics.zero_registry 0.

Lemma transport_gauge_exact_witness :
  let s := (AcceptLoop.accept (peer 1) idle_server).2 in
  Metrics.activeTransportConnections (AcceptLoop.metrics s) =
    Z.of_nat (in_use (AcceptLoop.limiter s)).
Proof.
  intros s. apply (AcceptLoop.transport_gauge_exact idle_server s 0%nat).
  - apply rtc_once. constructor.
  - split; [|done]. apply (inv_new 2 1). done.
Defined.

End ConnLimiter.
