(* ===== verification/BackendGate.v ===== *)
(** * The backend stream gate (server/backend_limiter.go)

    [gate] holds the global limiter, the per-session limiters that
    [NewSessionLimiter] created and the backend leases handed out.  The
    compare-and-swap loop of [concurrencyLimiter.Acquire] runs without
    interference in the operations; its interleavings are the last section. *)

From S2P Require Import Prelude GoStrings Metrics Leases.

Module BackendGate.

Definition maximumConfiguredBackendLimit : Z := 65535.

Record concurrencyLimiter := MkLimiter { maximum : Z; active : Z }.

#[export] Instance concurrencyLimiter_eta : Eta concurrencyLimiter := λ l,
  MkLimiter (maximum l) (active l).

Inductive backendRejection := backendRejectedGlobal | backendRejectedPerSession.

Definition newConcurrencyLimiter (maximum : Z) : result concurrencyLimiter :=
  if (maximum <? 1) || (maximum >? maximumConfiguredBackendLimit) then
    Err (errorf (str "concurrency limit must be in 1.." ++ Itoa maximumConfiguredBackendLimit))
  else Ok (MkLimiter maximum 0).

(** A lease is its [once]: whether it was returned. *)
Definition concurrencyLease : Type := bool.

Definition limiter_Acquire (l : concurrencyLimiter) : option concurrencyLease * concurrencyLimiter :=
  if active l >=? maximum l then (None, l)
  else (Some false, l <| active := wrap_int (active l + 1) |>).

Definition lease_Release (lease : concurrencyLease) (l : concurrencyLimiter)
  : bool * concurrencyLease * concurrencyLimiter :=
  if lease then (false, lease, l) else (true, true, l <| active := wrap_int (active l - 1) |>).

Record backendLease := MkLease {
  session_id : nat; global_lease : concurrencyLease; session_lease : concurrencyLease; once : bool;
}.

#[export] Instance backendLease_eta : Eta backendLease := λ l,
  MkLease (session_id l) (global_lease l) (session_lease l) (once l).

Record gate := MkGate {
  global : concurrencyLimiter;
  maxStreamsPerSession : Z;
  registry : Metrics.Registry;
  rejections : Z;
  sessions : list concurrencyLimiter;
  leases : list backendLease;
}.

#[export] Instance gate_eta : Eta gate := λ g,
  MkGate (global g) (maxStreamsPerSession g) (registry g) (rejections g) (sessions g) (leases g).

(** [newBackendGate]; [None] is a nil registry. *)
Definition newBackendGate (maximumGlobal maximumPerSession : Z) (reg : option Metrics.Registry)
  : result gate :=
  let? lim := map_err (errorf_w (str "maximum backend connections: "))
                (newConcurrencyLimiter maximumGlobal) in
  if (maximumPerSession <? 1) || (maximumPerSession >? maximumGlobal) then
    Err (errorf (str "maximum streams per session must be in 1.." ++ Itoa maximumGlobal))
  else match reg with
       | None => Err (errorf (str "backend metrics registry must not be nil"))
       | Some r => Ok (MkGate lim maximumPerSession r 0 [] [])
       end.

(** [NewSessionLimiter]: panics when the configured limit is invalid. *)
Definition NewSessionLimiter (g : gate) : outcome (nat * gate) :=
  match newConcurrencyLimiter (maxStreamsPerSession g) with
  | Err _ => Panics
  | Ok l => Done (length (sessions g), g <| sessions ::= (λ ss, ss ++ [l]) |>)
  end.

Definition recordRejection (g : gate) : Z * gate :=
  let n := wrap_uint (rejections g + 1) in
  (n, g <| registry ::= Metrics.BackendLimitRejected |> <| rejections := n |>).

Definition reject (why : backendRejection) (g : gate) : (nat + backendRejection * Z) * gate :=
  let '(n, g) := recordRejection g in (inr (why, n), g).

(** [backendGate.Acquire]; [None] is a nil session limiter. *)
Definition Acquire (session : option nat) (g : gate) : (nat + backendRejection * Z) * gate :=
  match session ≫= λ sid, (sid,.) <$> sessions g !! sid with
  | None => reject backendRejectedGlobal g
  | Some (sid, lim) =>
      let '(sessionLease, lim) := limiter_Acquire lim in
      let g := g <| sessions ::= <[sid := lim]> |> in
      match sessionLease with
      | None => reject backendRejectedPerSession g
      | Some sl =>
          let '(globalLease, glob) := limiter_Acquire (global g) in
          let g := g <| global := glob |> in
          match globalLease with
          | None =>
              let '(_, _, lim) := lease_Release sl lim in
              reject backendRejectedGlobal (g <| sessions ::= <[sid := lim]> |>)
          | Some gl =>
              (inl (length (leases g)),
               g <| registry ::= Metrics.BackendStreamOpened |>
                 <| leases ::= (λ ls, ls ++ [MkLease sid gl sl false]) |>)
          end
      end
  end.

(** [backendLease.Release] *)
Definition Release (p : nat) (g : gate) : bool * gate :=
  match leases g !! p with
  | None => (false, g)
  | Some lease =>
      if once lease then (false, g)
      else
        match sessions g !! session_id lease with
        | None => (false, g)
        | Some lim =>
            let '(_, sl, lim) := lease_Release (session_lease lease) lim in
            let '(_, gl, glob) := lease_Release (global_lease lease) (global g) in
            (true,
             g <| sessions ::= <[session_id lease := lim]> |> <| global := glob |>
               <| registry ::= Metrics.BackendStreamClosed |>
               <| leases ::= <[p := MkLease (session_id lease) gl sl true]> |>)
        end
  end.

(** ** Invariant *)

Definition lease_live (l : backendLease) : bool := negb (once l).
Definition in_session (sid : nat) (l : backendLease) : bool :=
  lease_live l && bool_decide (session_id l = sid).

Record gate_inv (g : gate) : Prop := {
  inv_config : 1 ≤ maxStreamsPerSession g ≤ maximum (global g) ∧
               maximum (global g) ≤ maximumConfiguredBackendLimit;
  inv_global : active (global g) = Z.of_nat (count lease_live (leases g));
  inv_global_max : active (global g) ≤ maximum (global g);
  inv_sessions sid lim : sessions g !! sid = Some lim →
    maximum lim = maxStreamsPerSession g ∧
    active lim = Z.of_nat (count (in_session sid) (leases g)) ∧ active lim ≤ maximum lim;
  inv_leases p lease : leases g !! p = Some lease →
    (session_id lease < length (sessions g))%nat ∧
    global_lease lease = once lease ∧ session_lease lease = once lease;
  inv_gauge : Metrics.activeBackendStreams (registry g) = active (global g);
}.

Lemma small_wrap z : -1 ≤ z ≤ maximumConfiguredBackendLimit + 1 → wrap_int z = z.
Proof. intros. apply wrap_int_id. unfold in_int, two63, maximumConfiguredBackendLimit in *. lia. Qed.

Lemma inv_bounds g : gate_inv g → 0 ≤ active (global g) ≤ maximumConfiguredBackendLimit.
Proof. intros Hi. destruct (inv_config g Hi). pose proof (inv_global g Hi). pose proof (inv_global_max g Hi). lia. Qed.

Lemma inv_session_bounds g sid lim : gate_inv g → sessions g !! sid = Some lim →
  0 ≤ active lim ≤ maximumConfiguredBackendLimit.
Proof.
  intros Hi Hs. destruct (inv_config g Hi), (inv_sessions g Hi sid lim Hs) as (? & ? & ?). lia.
Qed.

Lemma gate_inv_new a b r g : Metrics.activeBackendStreams r = 0 →
  newBackendGate a b (Some r) = Ok g → gate_inv g.
Proof.
  unfold newBackendGate, newConcurrencyLimiter. intros Hr Hg. go_cases.
  constructor; simpl; try done; try lia.
Qed.

Lemma gate_inv_session g sid g' : gate_inv g → NewSessionLimiter g = Done (sid, g') → gate_inv g'.
Proof.
  intros Hi. unfold NewSessionLimiter, newConcurrencyLimiter. intros. go_cases.
  destruct Hi as [H1 H2 H3 H4 H5 H6]. constructor; simpl; try done.
  - intros q lim [Hq|[-> <-]]%Metrics.lookup_snoc_Some; [by apply H4|].
    simpl. split; [done|]. split; [|lia].
    replace (count _ _) with 0%nat; [done|]. symmetry. apply count_zero, Forall_lookup.
    intros p lease Hp. unfold in_session. rewrite bool_decide_eq_false_2, andb_false_r; [done|].
    destruct (H5 p lease Hp). lia.
  - intros p lease Hp. rewrite length_app. destruct (H5 p lease Hp) as (? & ? & ?).
    split_and!; [lia|done|done].
Qed.

(** The decision [Acquire] takes, on the number of live streams. *)
Definition spec_acquire (session : option nat) (g : gate) : option backendRejection :=
  match session ≫= λ sid, (sid,.) <$> sessions g !! sid with
  | None => Some backendRejectedGlobal
  | Some (sid, _) =>
      if decide (maxStreamsPerSession g ≤ Z.of_nat (count (in_session sid) (leases g)))
      then Some backendRejectedPerSession
      else if decide (maximum (global g) ≤ Z.of_nat (count lease_live (leases g)))
      then Some backendRejectedGlobal else None
  end.

(** A refusal touches the rejection counters only. *)
Definition rejected (why : backendRejection) (g : gate) (r : (nat + backendRejection * Z) * gate) : Prop :=
  r = (inr (why, wrap_uint (rejections g + 1)),
       g <| registry ::= Metrics.BackendLimitRejected |>
         <| rejections := wrap_uint (rejections g + 1) |>).

Lemma rejected_same why g g' r : g' = g → r = reject why g' → rejected why g r.
Proof. intros -> ->. reflexivity. Qed.

Lemma sessions_insert_id g sid lim lim' :
  sessions g !! sid = Some lim → g <| sessions ::= <[sid := lim']> |> <| sessions ::= <[sid := lim]> |> = g.
Proof.
  intros Hs. destruct g as [gl mx rg rj ss ls]. simpl in *. f_equal.
  rewrite list_insert_insert_eq. by apply list_insert_id.
Qed.

Lemma Acquire_refused session g why : gate_inv g → spec_acquire session g = Some why →
  rejected why g (Acquire session g).
Proof.
  intros Hi. unfold spec_acquire, Acquire.
  destruct (session ≫= _) as [[sid lim]|] eqn:Es; [|intros [= <-]; done].
  assert (sessions g !! sid = Some lim) as Hs.
  { destruct session as [sid'|]; [|done]. simpl in Es. destruct (sessions g !! sid') eqn:E; simplify_eq/=. done. }
  destruct (inv_sessions g Hi sid lim Hs) as (Hm & Ha & _). unfold limiter_Acquire.
  rewrite Hm, Ha. destruct (Z.geb_spec (Z.of_nat (count (in_session sid) (leases g))) (maxStreamsPerSession g)).
  { rewrite decide_True by lia. intros [= <-]. eapply rejected_same; [|reflexivity].
    destruct g; simpl in *. f_equal. by apply list_insert_id. }
  rewrite decide_False by lia. simpl. rewrite (inv_global g Hi).
  destruct (Z.geb_spec (Z.of_nat (count lease_live (leases g))) (maximum (global g))).
  - rewrite decide_True by lia. intros [= <-]. simpl. eapply rejected_same; [|reflexivity].
    pose proof (inv_session_bounds g sid lim Hi Hs).
    assert (lim <| active := wrap_int (wrap_int (Z.of_nat (count (in_session sid) (leases g)) + 1) - 1) |> = lim) as E.
    { rewrite (small_wrap (_ + 1)) by lia. rewrite small_wrap by lia.
      destruct lim. simpl in *. f_equal. lia. }
    simpl in E. rewrite E. by apply (sessions_insert_id g sid lim).
  - by rewrite decide_False by lia.
Qed.

Lemma Acquire_granted session g : gate_inv g → spec_acquire session g = None →
  ∃ sid, session = Some sid ∧ (Acquire session g).1 = inl (length (leases g)) ∧
    leases (Acquire session g).2 = leases g ++ [MkLease sid false false false] ∧
    gate_inv (Acquire session g).2.
Proof.
  intros Hi. unfold spec_acquire, Acquire.
  destruct (session ≫= _) as [[sid lim]|] eqn:Es; [|done].
  assert (sessions g !! sid = Some lim ∧ session = Some sid) as [Hs ->].
  { destruct session as [sid'|]; [|done]. simpl in Es. destruct (sessions g !! sid') eqn:E; simplify_eq/=. done. }
  destruct (inv_sessions g Hi sid lim Hs) as (Hm & Ha & _).
  pose proof (inv_session_bounds g sid lim Hi Hs). pose proof (inv_bounds g Hi).
  destruct (decide _); [done|]. destruct (decide _); [done|]. intros _.
  unfold limiter_Acquire. rewrite Hm, Ha.
  destruct (Z.geb_spec (Z.of_nat (count (in_session sid) (leases g))) (maxStreamsPerSession g)); [lia|].
  simpl. rewrite (inv_global g Hi).
  destruct (Z.geb_spec (Z.of_nat (count lease_live (leases g))) (maximum (global g))); [lia|].
  exists sid. do 3 (split; [done|]). destruct Hi as [I1 I2 I3 I4 I5 I6].
  rewrite !small_wrap by lia. constructor; simpl.
  - done.
  - rewrite count_app. simpl. lia.
  - lia.
  - intros q lim'. rewrite list_lookup_insert_Some, count_app.
    assert (count (in_session q) [MkLease sid false false false] =
      if decide (sid = q) then 1 else 0)%nat as ->.
    { unfold in_session. simpl. case_bool_decide; case_decide; done. }
    intros [(<- & <- & _)|[Hne Hq]].
    + rewrite decide_True by done. simpl. split_and!; [done|lia|lia].
    + rewrite decide_False by done. destruct (I4 q lim' Hq) as (? & ? & ?). split_and!; [done|lia|lia].
  - intros p lease. rewrite length_insert.
    intros [Hp|[-> <-]]%Metrics.lookup_snoc_Some; [by apply (I5 p)|].
    simpl. split_and!; try done. by eapply lookup_lt_Some.
  - rewrite I6. unfold Metrics.add_int. rewrite I2. rewrite small_wrap by lia. done.
Qed.

Lemma gate_Release_spec p g : gate_inv g →
  let '(r, g') := Release p g in
  gate_inv g' ∧ r = default false (lease_live <$> leases g !! p) ∧
  if r then ∃ lease, leases g !! p = Some lease ∧
                     leases g' = <[p := MkLease (session_id lease) true true true]> (leases g)
  else g' = g.
Proof.
  intros Hi. unfold Release. destruct (leases g !! p) as [lease|] eqn:Hp; [|done]. simpl.
  destruct (once lease) eqn:Ho; [unfold lease_live; by rewrite Ho|].
  destruct (inv_leases g Hi p lease Hp) as (Hlt & Hgl & Hsl). rewrite Ho in Hgl, Hsl.
  destruct (lookup_lt_is_Some_2 _ _ Hlt) as [lim Hs]. rewrite Hs, Hgl, Hsl. simpl.
  pose proof (inv_session_bounds g _ lim Hi Hs). pose proof (inv_bounds g Hi).
  destruct Hi as [I1 I2 I3 I4 I5 I6].
  set (new := MkLease (session_id lease) true true true).
  assert (lease_live lease = true) as Hlive by (unfold lease_live; by rewrite Ho).
  assert (count lease_live (leases g) = S (count lease_live (<[p := new]> (leases g)))) as Hc.
  { pose proof (count_insert lease_live _ p lease new Hp) as E. rewrite Hlive in E. simpl in E. lia. }
  assert (∀ q, count (in_session q) (leases g) = count (in_session q) (<[p := new]> (leases g)) +
    if decide (session_id lease = q) then 1 else 0)%nat as Hcs.
  { intros q. pose proof (count_insert (in_session q) _ p lease new Hp) as E.
    unfold in_session at 2 4 in E. rewrite Hlive in E. simpl in E.
    case_bool_decide; case_decide; try done; lia. }
  rewrite !small_wrap by lia. split; [|split; [done|by eexists]]. constructor; simpl.
  - done.
  - lia.
  - lia.
  - intros q lim'. rewrite list_lookup_insert_Some. specialize (Hcs q).
    destruct (I4 _ lim Hs) as (A1 & A2 & A3).
    intros [(<- & <- & _)|[Hne Hq]]; simpl.
    + rewrite decide_True in Hcs by done. split_and!; [done|lia|lia].
    + rewrite decide_False in Hcs by done. destruct (I4 q lim' Hq) as (? & ? & ?).
      split_and!; [done|lia|lia].
  - intros q l. rewrite length_insert, list_lookup_insert_Some.
    intros [(<- & <- & _)|[? Hq]]; [by simpl|by apply (I5 q)].
  - rewrite I6. unfold Metrics.add_int. by rewrite small_wrap by lia.
Qed.

(** ** Theorems *)

Inductive gate_step : gate → gate → Prop :=
  | gate_session sid g g' : NewSessionLimiter g = Done (sid, g') → gate_step g g'
  | gate_acquire session g : gate_step g (Acquire session g).2
  | gate_release p g : gate_step g (Release p g).2.

Lemma gate_inv_rejected why g r : gate_inv g → rejected why g r → gate_inv r.2.
Proof. intros [I1 I2 I3 I4 I5 I6] ->. by constructor. Qed.

Lemma gate_inv_step g g' : gate_step g g' → gate_inv g → gate_inv g'.
Proof.
  intros [sid g0 g1 E|session g0|p g0] Hi.
  - by eapply gate_inv_session.
  - destruct (spec_acquire session g0) as [why|] eqn:E.
    + eapply gate_inv_rejected; [done|by apply Acquire_refused].
    + by destruct (Acquire_granted session g0 Hi E) as (_ & _ & _ & _ & ?).
  - pose proof (gate_Release_spec p g0 Hi) as H. destruct (Release p g0). apply H.
Qed.

(** ** The gate as a lease source *)

Definition lease_held (g : gate) (p : nat) : bool := default false (lease_live <$> leases g !! p).

#[export] Instance gate_source : LeaseSource gate (option nat) nat (backendRejection * Z) := {
  acquire := Acquire;
  release := Release;
  holds := lease_held;
  in_use g := count lease_live (leases g);
  lease_valid := gate_inv;
}.

#[export] Instance gate_laws : LeaseLaws gate (option nat) nat (backendRejection * Z).
Proof.
  split; cbn [acquire release holds in_use lease_valid gate_source].
  - intros k g p g' Hi E. destruct (spec_acquire k g) as [why|] eqn:Es.
    { pose proof (Acquire_refused k g why Hi Es) as H. unfold rejected in H. congruence. }
    destruct (Acquire_granted k g Hi Es) as (sid & _ & H1 & H2 & H3). rewrite E in H1, H2, H3.
    simpl in H1, H2, H3. injection H1 as ->. split; [done|].
    rewrite H2, count_app. simpl. split; [lia|]. unfold lease_held. rewrite H2.
    split; [by rewrite lookup_ge_None_2 by lia|]. intros q. case_decide as Hq.
    + subst q. by rewrite list_lookup_middle.
    + destruct (decide (q < length (leases g))%nat); [by rewrite lookup_app_l by lia|].
      by rewrite !lookup_ge_None_2 by (rewrite ?length_app; simpl; lia).
  - intros g Hi. rewrite <-(inv_global g Hi). pose proof (inv_bounds g Hi).
    unfold maximumConfiguredBackendLimit, two63 in *. lia.
  - intros k g r g' Hi E. destruct (spec_acquire k g) as [why|] eqn:Es.
    + pose proof (Acquire_refused k g why Hi Es) as H. pose proof (gate_inv_rejected _ _ _ Hi H) as Hi'.
      rewrite E in H, Hi'. injection H as _ ->. done.
    + destruct (Acquire_granted k g Hi Es) as (sid & _ & H1 & _). rewrite E in H1. done.
  - intros p g r g' Hi E. pose proof (gate_Release_spec p g Hi) as H. rewrite E in H.
    destruct H as (Hi' & -> & H). split; [done|]. split; [done|]. unfold lease_held in *.
    destruct (default false _) eqn:Er.
    + destruct H as (lease & Hp & Hls). rewrite Hp in Er. simpl in Er.
      pose proof (count_insert lease_live _ p lease (MkLease (session_id lease) true true true) Hp) as Ec.
      rewrite Er, <-Hls in Ec. simpl in Ec. split; [lia|]. intros q. rewrite Hls. case_decide as Hq.
      * subst q. by rewrite list_lookup_insert_eq by by eapply lookup_lt_Some.
      * by rewrite list_lookup_insert_ne.
    + subst g'. split; [done|]. intros q. case_decide as Hq; [by subst q|done].
Qed.

(** C17: the number of backend streams open at any time never exceeds the
    global limit, nor the per-session limit in any session, and the exported
    gauge is that number, whatever order sessions and streams come and go in. *)
Theorem backend_limits_hold maxG maxS r g0 g :
  Metrics.activeBackendStreams r = 0 → newBackendGate maxG maxS (Some r) = Ok g0 →
  rtc gate_step g0 g → gate_inv g.
Proof.
  intros Hr Hg Hs. pose proof (gate_inv_new _ _ _ _ Hr Hg) as Hi. clear Hg.
  induction Hs as [|g1 g2 g3 Hs _ IH]; [done|]. by apply IH, (gate_inv_step g1).
Qed.

Definition small_gate : gate := MkGate (MkLimiter 2 0) 1 Metrics.zero_registry 0 [MkLimiter 1 0] [].

Lemma backend_limits_hold_witness : gate_inv (Acquire (Some 0%nat) small_gate).2.
Proof.
  apply (backend_limits_hold 2 1 Metrics.zero_registry (small_gate <| sessions := [] |>)); [done|done|].
  eapply rtc_l; [by apply (gate_session 0%nat)|]. apply rtc_once. constructor.
Defined.

(** [Acquire] admits a stream exactly when both its session and the
    process have room, preferring the per-session reason; a refused request
    takes nothing (the session slot it had taken is given back), and a lease is
    given back exactly once. *)
Theorem backend_gate_exact session p g : gate_inv g →
  (match spec_acquire session g with
   | Some why => rejected why g (Acquire session g)
   | None => (Acquire session g).1 = inl (length (leases g)) ∧
             count lease_live (leases (Acquire session g).2) = S (count lease_live (leases g))
   end) ∧
  (let '(r, g') := Release p g in
   r = default false (lease_live <$> leases g !! p) ∧
   count lease_live (leases g) = ((if r then 1 else 0) + count lease_live (leases g'))%nat ∧
   (Release p g').1 = false).
Proof.
  intros Hi. split.
  - destruct (spec_acquire session g) as [why|] eqn:E; [by apply Acquire_refused|].
    destruct (Acquire_granted session g Hi E) as (sid & _ & H1 & H2 & _). split; [done|].
    rewrite H2, count_app. simpl. lia.
  - pose proof (gate_Release_spec p g Hi) as H. destruct (Release p g) as [r g'].
    destruct H as (Hi' & Hr & H). split; [done|]. destruct r.
    + destruct H as (lease & Hp & Hls). rewrite Hp in Hr. simpl in Hr.
      pose proof (count_insert lease_live _ p lease (MkLease (session_id lease) true true true) Hp) as E.
      rewrite <-Hls, <-Hr in E. simpl in E. split; [lia|]. unfold Release.
      by rewrite Hls, list_lookup_insert_eq by by eapply lookup_lt_Some.
    + subst g'. split; [done|]. pose proof (gate_Release_spec p g Hi) as H.
      destruct (Release p g) as [r' g'']. destruct H as (_ & -> & _). by rewrite <-Hr.
Qed.

Lemma backend_gate_exact_witness :
  rejected backendRejectedPerSession (Acquire (Some 0%nat) small_gate).2
    (Acquire (Some 0%nat) (Acquire (Some 0%nat) small_gate).2).
Proof.
  pose proof (backend_gate_exact (Some 0%nat) 0%nat (Acquire (Some 0%nat) small_gate).2) as H.
  destruct H as [H _]; [|exact H].
  apply (gate_inv_step small_gate); [constructor|].
  apply (gate_inv_session (small_gate <| sessions := [] |>) 0%nat); [|done].
  by apply (gate_inv_new 2 1 Metrics.zero_registry).
Defined.

(** ** The compare-and-swap loop under interference *)

Inductive caller := AtLoad | AtCAS (current : Z) | Granted | Refused | Returned.

#[export] Instance caller_eq_dec : EqDecision caller.
Proof. solve_decision. Defined.

(** One atomic operation of a caller of [Acquire], and of [Release]. *)
Inductive cas_step (maximum : Z) : Z * list caller → Z * list caller → Prop :=
  | cas_load_full c l1 l2 : maximum ≤ c →
      cas_step maximum (c, l1 ++ AtLoad :: l2) (c, l1 ++ Refused :: l2)
  | cas_load c l1 l2 : c < maximum →
      cas_step maximum (c, l1 ++ AtLoad :: l2) (c, l1 ++ AtCAS c :: l2)
  | cas_swap c l1 l2 : cas_step maximum (c, l1 ++ AtCAS c :: l2) (c + 1, l1 ++ Granted :: l2)
  | cas_retry c cur l1 l2 : c ≠ cur →
      cas_step maximum (c, l1 ++ AtCAS cur :: l2) (c, l1 ++ AtLoad :: l2)
  | cas_release c l1 l2 : cas_step maximum (c, l1 ++ Granted :: l2) (c - 1, l1 ++ Returned :: l2)
  | cas_arrive c l : cas_step maximum (c, l) (c, l ++ [AtLoad]).

Definition granted (c : caller) : bool := match c with Granted => true | _ => false end.
Definition below (maximum : Z) (c : caller) : Prop :=
  match c with AtCAS cur => cur < maximum | _ => True end.

Definition cas_inv (maximum : Z) (s : Z * list caller) : Prop :=
  s.1 = Z.of_nat (count granted s.2) ∧ s.1 ≤ maximum ∧ Forall (below maximum) s.2.

Lemma cas_inv_step maximum s s' : cas_step maximum s s' → cas_inv maximum s → cas_inv maximum s'.
Proof.
  unfold cas_inv. intros Hs. destruct Hs; simpl; rewrite ?count_app, ?Forall_app, ?Forall_cons; simpl;
    intros; destruct_and?; split_and?; try done; lia.
Qed.

(** the lock-free acquisition is safe under every interleaving of loads,
    swaps and releases by any number of goroutines: the counter is exactly the
    number of leases out and never exceeds the maximum, and a caller is refused
    only at a moment when the limiter is full. *)
Theorem cas_limit_safe maximum s :
  0 ≤ maximum → rtc (cas_step maximum) (0, []) s →
  s.1 = Z.of_nat (count granted s.2) ∧ s.1 ≤ maximum ∧
  (∀ s' l1 l2, cas_step maximum s s' → s.2 = l1 ++ AtLoad :: l2 → s'.2 = l1 ++ Refused :: l2 →
     Z.of_nat (count granted s.2) = maximum).
Proof.
  intros Hm Hr. assert (cas_inv maximum s) as (H1 & H2 & H3).
  { revert s Hr. apply (rtc_ind_r (cas_inv maximum)).
    - split_and!; [done|simpl; lia|constructor].
    - intros s s' _ Hs. by apply cas_inv_step. }
  split_and!; [done|done|]. intros s' l1 l2 Hs E E'.
  assert (count (λ c, bool_decide (c = Refused)) s'.2 = S (count (λ c, bool_decide (c = Refused)) s.2)) as Hc.
  { rewrite E, E', !count_app. simpl. lia. }
  destruct Hs; simpl in *; try (rewrite !count_app in Hc; simpl in Hc; lia).
Qed.

Lemma cas_limit_safe_witness : 0 ≤ 1 ∧ 1 = Z.of_nat (count granted [Granted]).
Proof.
  split; [lia|]. apply (cas_limit_safe 1 (1, [Granted])); [lia|].
  eapply rtc_l; [apply cas_arrive|]. eapply rtc_l; [apply (cas_load 1 0 [] []); lia|].
  apply rtc_once. apply (cas_swap 1 0 [] []).
Defined.

End BackendGate.
