(* ===== verification/BondManager.v ===== *)
(** * Bond groups on the server (server/main.go: vlessBondManager, vlessBondGroup)

    A [*vlessBondGroup] is a location in [group_heap].  [metrics.Process] is
    shared by all bonds: it is lent to a group's bond for the duration of an
    operation.  [add] is written as its two halves, before and after the
    acknowledgement, because the lock is released in between; the sequential
    [add] is their composition. *)

From S2P Require Import Prelude GoStrings GoNet Metrics Tuning BondHello BondedConn.

Module BondManager.
Import Tuning BondHello.

Record group (C : Type) := MkGroup {
  gid : bytes;
  pc : BondedConn.bond C;
  ghello : BondHello;
  started : bool;          (* startOnce *)
  maxPaths : Z;
  gwindow : option nat;    (* the KCP session the window is set on *)
  appliedWnd : Z;
}.
Arguments MkGroup {C}. Arguments gid {C}. Arguments pc {C}. Arguments ghello {C}.
Arguments started {C}. Arguments maxPaths {C}. Arguments gwindow {C}. Arguments appliedWnd {C}.

#[export] Instance group_eta {C} : Eta (group C) := λ g,
  MkGroup (gid g) (pc g) (ghello g) (started g) (maxPaths g) (gwindow g) (appliedWnd g).

Record manager (C : Type) := MkManager {
  groups : gmap bytes nat;
  group_heap : list (group C);
  process : Metrics.Registry;
  running : list nat;               (* goroutines in [run], by group *)
  window_calls : list (nat * Z);    (* SetWindowSize calls, by session *)
}.
Arguments MkManager {C}. Arguments groups {C}. Arguments group_heap {C}.
Arguments process {C}. Arguments running {C}. Arguments window_calls {C}.

#[export] Instance manager_eta {C} : Eta (manager C) := λ m,
  MkManager (groups m) (group_heap m) (process m) (running m) (window_calls m).

(** ** Flags *)

Definition validateServerVLESSFlags (vlessMode vlessBond : bool) : result unit :=
  if vlessBond && negb vlessMode then Err (errorf (str "-vless-bond requires -vless")) else Ok ().

Definition validateServerCompatibilityFlags (wrap : bool) (wrapKey : bytes) (generateWrapKey : bool)
  : result unit :=
  if wrap || negb (bool_decide (wrapKey = [])) || generateWrapKey
  then Err (errorf (str "WRAP compatibility mode is not implemented in this build")) else Ok ().

Section ops.
Context {C : Type} `{NetConn C}.
Context (tuning : globals).
Implicit Types (g : group C) (m : manager C).

Definition shortID g : bytes := if (length (gid g) <=? 8)%nat then gid g else take 8 (gid g).

Definition matchesHello (hello : BondHello) g : bool := bool_decide (ghello g = hello).

(** ** The KCP window of a group *)

Definition desiredPathCountLocked g : Z :=
  if (Version (ghello g) =? BondProtocolV2) && (ExpectedPaths (ghello g) >? 0)
  then ExpectedPaths (ghello g)
  else if maxPaths g <? 1 then 1 else maxPaths g.

(** The window it leaves, and the [SetWindowSize] calls it made. *)
Definition applyWindowLocked g : group C * list (nat * Z) :=
  let window := BondedKCPWindow tuning (desiredPathCountLocked g) in
  match gwindow g with
  | None => (g, [])
  | Some sess =>
      if window <=? appliedWnd g then (g, [])
      else (g <| appliedWnd := window |>, [(sess, window)])
  end.



(** ** Adding a path to a group *)

Definition addWithCleanup (c : C) (cleanup : bool) g : result unit * group C * list (nat * Z) :=
  if (Version (ghello g) =? BondProtocolV2) &&
     (BondedConn.Count (pc g) >=? ExpectedPaths (ghello g)) then
    (Err (errorf (str "vless bond " ++ shortID g ++ str " already has its negotiated " ++
                  Itoa (ExpectedPaths (ghello g)) ++ str " paths")), g, [])
  else
    let g := g <| pc := (BondedConn.AddConn (Some c) cleanup (pc g)).2 |> in
    let active := BondedConn.Count (pc g) in
    let g := if active >? maxPaths g then g <| maxPaths := active |> else g in
    let '(g, calls) := applyWindowLocked g in
    (Ok (), g, calls).

(** ** The manager *)

Definition newVLESSBondManager (reg : Metrics.Registry) : manager C := MkManager ∅ [] reg [] [].

Definition lookup_group (bondID : bytes) m : option (nat * group C) :=
  loc ← groups m !! bondID; (loc,.) <$> group_heap m !! loc.

Definition rejectV2BondHello (c : C) (hello : BondHello) (code : bytes) (cause : goerror) : goerror * C :=
  if negb (Version hello =? BondProtocolV2) then (cause, c)
  else match WriteBondHelloReject code c with
       | (Some e, c) =>
           (GoError (err_text cause ++ str " (also failed to send V2 rejection " ++ code ++
                     str ": " ++ err_text e ++ str ")") (err_chain cause) (err_timeout cause), c)
       | (None, c) => (cause, c)
       end.

Definition group_mismatch g : goerror :=
  errorf (str "vless bond " ++ shortID g ++ str " path profile does not match the existing group").

Definition acknowledge (hello : BondHello) (c : C) : result BondHello * C :=
  if Version hello =? BondProtocolV2 then
    match WriteBondHelloAck c with
    | (Some e, c) => (Err (errorf_w (str "write vless bond V2 acknowledgement: ") e), c)
    | (None, c) => (Ok hello, c)
    end
  else (Ok hello, c).

(** First half of [add]: hello, validation, acknowledgement. *)
Definition add_negotiate (c : C) m : result BondHello * C :=
  match ReadBondHelloConfig c with
  | (Err e, c) => (Err e, c)
  | (Ok hello, c) =>
      match ValidateBondHelloTuning tuning hello with
      | Err e => let '(e, c) := rejectV2BondHello c hello (str "PROFILE_MISMATCH") e in (Err e, c)
      | Ok _ =>
          match lookup_group (BondID hello) m with
          | Some (_, g) =>
              if negb (matchesHello hello g) then
                let '(e, c) := rejectV2BondHello c hello (str "GROUP_MISMATCH") (group_mismatch g) in
                (Err e, c)
              else acknowledge hello c
          | None => acknowledge hello c
          end
      end
  end.

Definition new_group (reg : Metrics.Registry) (hello : BondHello) : group C :=
  MkGroup (BondID hello)
    (BondedConn.NewBondedPacketConn reg (str "vless-bond-server:" ++ BondID hello))
    hello false 0 None 0.

(** The second critical section of [add]: the group of the path. *)
Definition find_or_create (hello : BondHello) m : result nat * manager C :=
  match lookup_group (BondID hello) m with
  | Some (loc, g) =>
      if negb (matchesHello hello g) then (Err (group_mismatch g), m) else (Ok loc, m)
  | None =>
      let loc := length (group_heap m) in
      let g := new_group (process m) hello in
      (Ok loc, m <| group_heap ::= (λ h, h ++ [g]) |> <| groups ::= <[BondID hello := loc]> |>)
  end.

(** [group.addWithCleanup] and [startOnce], on the group at [loc]. *)
Definition add_path (loc : nat) (c : C) (cleanup : bool) m : result unit * manager C :=
  match group_heap m !! loc with
  | None => (Ok (), m)
  | Some g =>
      let g := g <| pc ::= BondedConn.with_registry (process m) |> in
      let '(r, g, calls) := addWithCleanup c cleanup g in
      let m := m <| process := BondedConn.registry (pc g) |>
                 <| window_calls ::= (λ w, w ++ calls) |> in
      match r with
      | Err e => (Err e, m <| group_heap ::= <[loc := g]> |>)
      | Ok _ =>
          let start := negb (started g) in
          (Ok (), m <| group_heap ::= <[loc := g <| started := true |>]> |>
                    <| running ::= (λ r, if start then r ++ [loc] else r) |>)
      end
  end.

Definition add_commit (hello : BondHello) (c : C) (cleanup : bool) m : result unit * manager C :=
  match find_or_create hello m with
  | (Err e, m) => (Err e, m)
  | (Ok loc, m) => add_path loc c cleanup m
  end.

(** [add]: the outcome, the connection as the caller sees it, the manager. *)
Definition add (c : C) (cleanup : bool) m : result unit * C * manager C :=
  match add_negotiate c m with
  | (Err e, c) => (Err e, c, m)
  | (Ok hello, c) => let '(r, m) := add_commit hello c cleanup m in (r, c, m)
  end.

(** The end of a group's [run]: [onDone] removes the group if it is still the
    one registered under its id. *)
Definition run_done (loc : nat) m : manager C :=
  let m := m <| running ::= remove_first loc |> in
  match group_heap m !! loc with
  | Some g =>
      if bool_decide (groups m !! gid g = Some loc) then m <| groups ::= delete (gid g) |> else m
  | None => m
  end.
End ops.

(** ** Groups over time *)

Section groups.
Context {C : Type} `{NetConn C}.
Context (tuning : globals).
Implicit Types (g : group C) (m : manager C).

Lemma Count_AddConn (c : option C) cl (b : BondedConn.bond C) :
  BondedConn.Count (BondedConn.AddConn c cl b).2 ≤ BondedConn.Count b + 1.
Proof.
  unfold BondedConn.AddConn. destruct c as [c|]; [|simpl; lia].
  destruct (BondedConn.link_path c cl b) as [[added ptr] b'] eqn:E.
  assert (BondedConn.Count b' ≤ BondedConn.Count b + 1); [|by destruct added].
  revert E. unfold BondedConn.link_path. cbn -[Metrics.OpenPath BondedConn.stop_empty_timer].
  unfold BondedConn.stop_empty_timer. go_cases; intros; simplify_eq;
    unfold BondedConn.Count; simpl; rewrite ?length_app; simpl; lia.
Qed.

Definition group_ok g : Prop :=
  (Version (ghello g) = 2 → BondedConn.Count (pc g) ≤ Z.max 0 (ExpectedPaths (ghello g))) ∧
  (is_Some (gwindow g) →
     appliedWnd g = BondedKCPWindow tuning (desiredPathCountLocked g)).

Lemma desired_mono g n : maxPaths g ≤ n →
  desiredPathCountLocked g ≤ desiredPathCountLocked (g <| maxPaths := n |>).
Proof. unfold desiredPathCountLocked. simpl. intros. go_cases; lia. Qed.

Lemma applyWindow_ok g w0 :
  (is_Some (gwindow g) → appliedWnd g = w0) →
  w0 ≤ BondedKCPWindow tuning (desiredPathCountLocked g) →
  let '(g', calls) := applyWindowLocked tuning g in
  (is_Some (gwindow g') → appliedWnd g' = BondedKCPWindow tuning (desiredPathCountLocked g')) ∧
  pc g' = pc g ∧ ghello g' = ghello g ∧ gid g' = gid g ∧ started g' = started g ∧
  gwindow g' = gwindow g ∧ Forall (λ '(_, w), w0 < w) calls.
Proof.
  intros Hw Hle. unfold applyWindowLocked. destruct (gwindow g) as [sess|] eqn:E.
  - specialize (Hw ltac:(by eexists)).
    destruct (Z.leb_spec (BondedKCPWindow tuning (desiredPathCountLocked g)) (appliedWnd g)).
    + rewrite E. split_and!; try done; intros; lia.
    + split_and!; try done. apply Forall_singleton. lia.
  - rewrite E. split_and!; try done.
Qed.

Lemma addWithCleanup_ok c cl g : group_ok g →
  let '(r, g', calls) := addWithCleanup tuning c cl g in
  group_ok g' ∧ ghello g' = ghello g ∧ gid g' = gid g ∧ started g' = started g ∧
  gwindow g' = gwindow g ∧
  (is_Some (gwindow g) → Forall (λ '(_, w), appliedWnd g < w) calls) ∧
  (is_ok r = false → g' = g ∧ calls = [] ∧ Version (ghello g) = 2 ∧
     ExpectedPaths (ghello g) ≤ BondedConn.Count (pc g)).
Proof.
  intros [Hc Hw]. unfold addWithCleanup, BondProtocolV2.
  destruct ((Version (ghello g) =? 2) && (BondedConn.Count (pc g) >=? ExpectedPaths (ghello g))) eqn:Hfull.
  { split; [by split|]. split_and!; try done. intros _. split_and!; try done; lia. }
  pose proof (Count_AddConn (Some c) cl (pc g)) as Hcount.
  set (b' := (BondedConn.AddConn (Some c) cl (pc g)).2) in *.
  cbv zeta. match goal with |- context [applyWindowLocked tuning ?x] => set (g2 := x) end.
  assert (pc g2 = b' ∧ ghello g2 = ghello g ∧ gid g2 = gid g ∧ started g2 = started g ∧
    gwindow g2 = gwindow g ∧ appliedWnd g2 = appliedWnd g ∧
    desiredPathCountLocked g ≤ desiredPathCountLocked g2) as (E1 & E2 & E3 & E4 & E5 & E6 & Hd).
  { subst g2. simpl. destruct (Z.gtb_spec (BondedConn.Count b') (maxPaths g)); simpl;
      (do 6 (split; [done|])); [|done].
    apply (desired_mono g (BondedConn.Count b')). lia. }
  pose proof (applyWindow_ok g2 (BondedKCPWindow tuning (desiredPathCountLocked g))) as Happ.
  rewrite E5, E6 in Happ. specialize (Happ Hw (bondedKCPWindow_mono _ _ _ Hd)).
  destruct (applyWindowLocked tuning g2) as [g' calls].
  destruct Happ as (A1 & A2 & A3 & A4 & A5 & A6 & A7).
  rewrite E1 in A2. rewrite E2 in A3. rewrite E3 in A4. rewrite E4 in A5.
  split_and!; try done.
  - split; [|done]. rewrite A2, A3. intros HV. rewrite HV in Hfull. simpl in Hfull. lia.
  - intros Hs. by rewrite (Hw Hs).
Qed.











(** Negotiating only uses the connection. *)
Lemma add_negotiate_io (c : C) m r c' : add_negotiate tuning c m = (r, c') → rtc conn_io c c'.
Proof.
  assert (∀ c hello code cause e c', rejectV2BondHello c hello code cause = (e, c') → rtc conn_io c c') as Hrej.
  { intros c0 hello code cause e c1. unfold rejectV2BondHello. case_match; [by intros [= <- <-]|].
    destruct (WriteBondHelloReject code c0) as [[e0|] c2] eqn:E; apply write_reject_io in E; by intros [= <- <-]. }
  assert (∀ hello c r c', acknowledge hello c = (r, c') → rtc conn_io c c') as Hack.
  { intros hello c0 r0 c1. unfold acknowledge. case_match; [|by intros [= <- <-]].
    destruct (WriteBondHelloAck c0) as [[e0|] c2] eqn:E; apply write_ack_io in E; by intros [= <- <-]. }
  unfold add_negotiate. destruct (ReadBondHelloConfig c) as [[hello|e] c1] eqn:E; apply read_hello_io in E;
    [|by intros [= <- <-]]. intros Er. etrans; [exact E|]. revert Er.
  destruct (ValidateBondHelloTuning tuning hello); [destruct (lookup_group _ _) as [[loc g]|]; [destruct (negb _)|]|].
  - destruct (rejectV2BondHello _ _ _ _) eqn:Ej. intros [= <- <-]. by eapply Hrej.
  - apply Hack.
  - apply Hack.
  - destruct (rejectV2BondHello _ _ _ _) eqn:Ej. intros [= <- <-]. by eapply Hrej.
Qed.

(** ** The manager *)

Record manager_ok m : Prop := {
  ok_groups id loc : groups m !! id = Some loc →
    ∃ g, group_heap m !! loc = Some g ∧ gid g = id ∧ BondID (ghello g) = id;
  ok_each : Forall group_ok (group_heap m);
  ok_running : NoDup (running m);
  ok_started loc : loc ∈ running m → started <$> group_heap m !! loc = Some true;
}.

Lemma lookup_group_Some m id loc g :
  lookup_group id m = Some (loc, g) → groups m !! id = Some loc ∧ group_heap m !! loc = Some g.
Proof.
  unfold lookup_group. destruct (groups m !! id) as [l|]; [|done]. simpl.
  destruct (group_heap m !! l) eqn:E; [|done]. simpl. intros [= -> ->]. done.
Qed.

Lemma find_or_create_ok hello m r m' : manager_ok m → find_or_create hello m = (r, m') →
  manager_ok m' ∧ running m' = running m ∧
  ∀ loc, r = Ok loc → groups m' !! BondID hello = Some loc ∧
    ∃ g, group_heap m' !! loc = Some g ∧ ghello g = hello.
Proof.
  intros Hm. unfold find_or_create. destruct (lookup_group (BondID hello) m) as [[loc g]|] eqn:El.
  - apply lookup_group_Some in El as [Hl Hg]. unfold matchesHello. case_bool_decide as Hh;
      intros; simplify_eq/=; (split; [done|]; split; [done|]); [|done].
    intros loc' [= <-]. split; [done|]. by exists g.
  - intros; simplify_eq. destruct Hm as [M1 M2 M3 M4].
    assert (∀ loc g0, group_heap m !! loc = Some g0 →
      (group_heap m ++ [new_group (process m) hello]) !! loc = Some g0) as Hold.
    { intros loc g0 Hl. by apply lookup_app_l_Some. }
    split; [|split; [done|]].
    + constructor; cbn [groups group_heap running field_update].
      * intros id loc. rewrite lookup_insert_Some. intros [[<- <-]|[Hne Hl]].
        -- eexists. split; [by rewrite lookup_app_r, Nat.sub_diag by lia|done].
        -- destruct (M1 id loc Hl) as (g0 & Hg0 & ?). exists g0. split; [by apply Hold|done].
      * apply Forall_app. split; [done|]. apply Forall_singleton. split; [|by intros [??]].
        intros _. unfold BondedConn.Count. simpl. lia.
      * done.
      * intros loc Hl. specialize (M4 loc Hl).
        destruct (group_heap m !! loc) as [g0|] eqn:E; [|done]. by rewrite (Hold loc g0 E).
    + intros loc [= <-]. simpl. rewrite lookup_insert_eq. split; [done|].
      eexists. split; [by rewrite lookup_app_r, Nat.sub_diag by lia|done].
Qed.

Lemma with_registry_ok reg g : group_ok g → group_ok (g <| pc ::= BondedConn.with_registry reg |>).
Proof. done. Qed.

Lemma add_path_ok loc c cl m r m' g :
  manager_ok m → group_heap m !! loc = Some g → add_path tuning loc c cl m = (r, m') →
  manager_ok m' ∧ groups m' = groups m ∧
  ∃ g', group_heap m' !! loc = Some g' ∧ ghello g' = ghello g ∧
        (is_ok r = true → started g' = true) ∧
        (is_ok r = false → Version (ghello g) = 2 ∧ ExpectedPaths (ghello g) ≤ BondedConn.Count (pc g)).
Proof.
  intros [M1 M2 M3 M4] Hg. unfold add_path. rewrite Hg.
  assert (group_ok (g <| pc ::= BondedConn.with_registry (process m) |>)) as Hok.
  { apply with_registry_ok. rewrite Forall_lookup in M2. by apply (M2 loc). }
  pose proof (addWithCleanup_ok c cl _ Hok) as Ha.
  destruct (addWithCleanup tuning c cl _) as [[r0 g1] calls]. cbv zeta.
  destruct Ha as (Hok1 & Hh & Hid & Hst & _ & _ & Herr).
  simpl in Hh, Hid, Hst.
  assert (loc < length (group_heap m))%nat as Hlt by by eapply lookup_lt_Some.
  destruct r0 as [[]|e]; intros; simplify_eq.
  - assert (∀ l, l ≠ loc → <[loc := g1 <| started := true |>]> (group_heap m) !! l = group_heap m !! l) as Hne
      by (intros; by rewrite list_lookup_insert_ne).
    split; [|split; [done|]].
    + constructor; simpl.
      * intros id l Hl. destruct (M1 id l Hl) as (g0 & Hg0 & Hi & Hb).
        destruct (decide (l = loc)) as [->|?]; [|rewrite Hne by done; eauto].
        rewrite list_lookup_insert_eq by done. rewrite Hg in Hg0. simplify_eq.
        eexists. split; [done|]. simpl. by rewrite Hid, Hh.
      * by apply Forall_insert.
      * destruct (started g1) eqn:Es; [done|]. simpl. apply NoDup_app.
        split_and!; [done| |apply NoDup_singleton]. intros l Hl ->%list_elem_of_singleton.
        specialize (M4 loc Hl). rewrite Hg in M4. simplify_eq/=. congruence.
      * intros l Hl. destruct (decide (l = loc)) as [->|?].
        -- by rewrite list_lookup_insert_eq.
        -- rewrite Hne by done. apply M4. destruct (started g1); simpl in Hl; [done|].
           apply elem_of_app in Hl as [?| ->%list_elem_of_singleton]; done.
    + exists (g1 <| started := true |>). split; [by apply list_lookup_insert_eq|]. done.
  - destruct (Herr eq_refl) as (-> & _ & HV & HE).
    assert (∀ l, l ≠ loc → <[loc := g <| pc ::= BondedConn.with_registry (process m) |>]> (group_heap m) !! l
      = group_heap m !! l) as Hne by (intros; by rewrite list_lookup_insert_ne).
    split; [|split; [done|]].
    + constructor; simpl.
      * intros id l Hl. destruct (M1 id l Hl) as (g0 & Hg0 & Hi & Hb).
        destruct (decide (l = loc)) as [->|?]; [|rewrite Hne by done; eauto].
        rewrite list_lookup_insert_eq by done. rewrite Hg in Hg0. simplify_eq. eauto.
      * by apply Forall_insert.
      * done.
      * intros l Hl. destruct (decide (l = loc)) as [->|?].
        -- rewrite list_lookup_insert_eq by done. specialize (M4 loc Hl). by rewrite Hg in M4.
        -- rewrite Hne by done. by apply M4.
    + eexists. split; [by apply list_lookup_insert_eq|]. done.
Qed.

(** an accepted path is always in the one group registered under its
    bond id, that group was opened with exactly the same hello, and the group's
    session goroutine has been started (once).  The second half of [add] may
    run at any time after the first: a group that appeared or ended in between
    makes no difference. *)
Theorem accepted_path_in_its_group hello c cl m m' :
  manager_ok m → add_commit tuning hello c cl m = (Ok (), m') →
  manager_ok m' ∧
  ∃ loc g, groups m' !! BondID hello = Some loc ∧ group_heap m' !! loc = Some g ∧
           ghello g = hello ∧ started g = true.
Proof.
  intros Hm. unfold add_commit. destruct (find_or_create hello m) as [[loc|e] m1] eqn:Ef; [|done].
  destruct (find_or_create_ok _ _ _ _ Hm Ef) as (Hm1 & _ & Hloc).
  destruct (Hloc loc eq_refl) as (Hl & g & Hg & Hh). intros Ea.
  destruct (add_path_ok _ _ _ _ _ _ _ Hm1 Hg Ea) as (Hm' & Egr & g' & Hg' & Hh' & Hst & _).
  split; [done|]. exists loc, g'. rewrite Egr. split_and!; [done|done|congruence|by apply Hst].
Qed.
End groups.

(** ** Answers on the wire *)

Section answers.
Context (tuning : globals).
Implicit Types (m : manager dgram).

Definition reject_line (code : bytes) : bytes := space_join (reject_words code) ++ [chr 10].

(** What a V2 client finds in its inbox; a V1 client never gets anything. *)
Definition answered (hello : BondHello) (line : bytes) (c c' : dgram) : Prop :=
  outbox c' = outbox c ++ (if Version hello =? 2 then [line] else []).

Lemma reject_answered c hello code cause e c' :
  conn_closed c = false → isValidBondRejectionCode code = true →
  rejectV2BondHello c hello code cause = (e, c') → answered hello (reject_line code) c c' ∧ e = cause.
Proof.
  intros Hc Hcode. unfold rejectV2BondHello, answered, BondProtocolV2, WriteBondHelloReject.
  destruct (Z.eqb_spec (Version hello) 2); cbn [negb]; [|intros; simplify_eq; by rewrite app_nil_r].
  rewrite Hcode. cbn [negb]. destruct (reject_words_spec code Hcode) as [_ Hlen].
  fold (reject_words code). rewrite write_line_dgram by (done || lia).
  intros; simplify_eq. done.
Qed.

Lemma ack_answered c hello r c' :
  conn_closed c = false → acknowledge hello c = (r, c') →
  answered hello bondHelloV2Ack c c' ∧ r = Ok hello.
Proof.
  intros Hc. unfold acknowledge, answered, BondProtocolV2, WriteBondHelloAck.
  destruct (Z.eqb_spec (Version hello) 2); [|intros; simplify_eq; by rewrite app_nil_r].
  rewrite ack_line, write_line_dgram by (done || (simpl; lia)). intros; simplify_eq. done.
Qed.

(** Whether the path's profile fits the server and the group of its bond. *)
Definition fits hello m : bool :=
  is_ok (ValidateBondHelloTuning tuning hello) &&
  match lookup_group (BondID hello) m with Some (_, g) => matchesHello hello g | None => true end.

Lemma negotiate_spec hello c c1 m r c2 :
  ReadBondHelloConfig c = (Ok hello, c1) → conn_closed c1 = false →
  add_negotiate tuning c m = (r, c2) →
  if fits hello m then r = Ok hello ∧ answered hello bondHelloV2Ack c1 c2
  else is_ok r = false ∧ ∃ code, answered hello (reject_line code) c1 c2 ∧
         code = if is_ok (ValidateBondHelloTuning tuning hello)
                then str "GROUP_MISMATCH" else str "PROFILE_MISMATCH".
Proof.
  intros Hr Hc. unfold add_negotiate, fits. rewrite Hr.
  destruct (ValidateBondHelloTuning tuning hello) as [[]|e]; simpl.
  - destruct (lookup_group (BondID hello) m) as [[loc g]|].
    + destruct (matchesHello hello g); simpl; [intros [??]%ack_answered; done|].
      destruct (rejectV2BondHello _ _ _ _) as [e c'] eqn:Er. intros; simplify_eq. split; [done|].
      apply reject_answered in Er as [??]; [|done|done]. eauto.
    + intros [??]%ack_answered; done.
  - destruct (rejectV2BondHello _ _ _ _) as [e' c'] eqn:Er. intros; simplify_eq. split; [done|].
    apply reject_answered in Er as [??]; [|done|done]. eauto.
Qed.

(** the server answers a readable V2 hello with exactly one record: the
    acknowledgement when the profile fits the server's tuning and the existing
    group, an [ERR] record with the reason otherwise; a V1 client, which
    expects no answer, is sent nothing in either case. *)
Theorem negotiation_answers hello c c1 m r c2 :
  ReadBondHelloConfig c = (Ok hello, c1) → conn_closed c1 = false →
  add_negotiate tuning c m = (r, c2) →
  if fits hello m then r = Ok hello ∧ answered hello bondHelloV2Ack c1 c2
  else is_ok r = false ∧ ∃ code, answered hello (reject_line code) c1 c2 ∧
         code = if is_ok (ValidateBondHelloTuning tuning hello)
                then str "GROUP_MISMATCH" else str "PROFILE_MISMATCH".
Proof. apply negotiate_spec. Qed.

(** a V2 path that comes when its group already has all negotiated
    paths is first acknowledged with [OK] and then dropped without an [ERR]
    record, so the client believes the path is established. *)
Theorem surplus_path_acknowledged_then_dropped hello c c1 cl m loc g r c2 m2 :
  ReadBondHelloConfig c = (Ok hello, c1) → conn_closed c1 = false →
  is_ok (ValidateBondHelloTuning tuning hello) = true → Version hello = 2 →
  lookup_group (BondID hello) m = Some (loc, g) → ghello g = hello →
  ExpectedPaths hello ≤ BondedConn.Count (pc g) →
  add tuning c cl m = (r, c2, m2) →
  is_ok r = false ∧ outbox c2 = outbox c1 ++ [bondHelloV2Ack].
Proof.
  intros Hr Hc Ht HV Hl Hh Hfull. unfold add.
  destruct (add_negotiate tuning c m) as [rn cn] eqn:En.
  assert (fits hello m = true) as Hf.
  { unfold fits. rewrite Ht, Hl. simpl. by apply bool_decide_eq_true. }
  assert (rn = Ok hello ∧ answered hello bondHelloV2Ack c1 cn) as [-> Ha].
  { pose proof (negotiate_spec hello c c1 m rn cn Hr Hc En) as Hn. by rewrite Hf in Hn. }
  unfold add_commit, find_or_create. rewrite Hl. unfold matchesHello.
  rewrite bool_decide_eq_true_2 by done. simpl negb. cbv iota. unfold add_path.
  apply lookup_group_Some in Hl as [_ Hg]. rewrite Hg. unfold addWithCleanup.
  cbn [ghello pc field_update]. rewrite Hh, HV.
  change (BondedConn.Count (BondedConn.with_registry ?reg ?b)) with (BondedConn.Count b).
  destruct (Z.geb_spec (BondedConn.Count (pc g)) (ExpectedPaths hello)); [|lia].
  cbn. intros; simplify_eq. split; [done|].
  unfold answered in Ha. by rewrite HV in Ha.
Qed.
End answers.

(** ** Witnesses *)

Definition path_hello : BondHello := CurrentBondHello default_globals (str "0123456789abcdef") 1.
Definition hello_conn : dgram :=
  fresh_dgram [str "VKTURNBOND/2 0123456789abcdef 1 1200 0 0" ++ [chr 10]].
Definition empty_manager : manager dgram := newVLESSBondManager Metrics.zero_registry.
Definition one_path : result () * dgram * manager dgram :=
  add default_globals hello_conn true empty_manager.

Lemma empty_manager_ok : manager_ok default_globals empty_manager.
Proof.
  constructor; simpl; try by constructor.
  - intros id loc. by rewrite lookup_empty.
  - intros loc ?%not_elem_of_nil. done.
Qed.



Lemma accepted_path_in_its_group_witness :
  ∃ loc g, groups one_path.2 !! BondID path_hello = Some loc ∧
           group_heap one_path.2 !! loc = Some g ∧ ghello g = path_hello ∧ started g = true.
Proof.
  apply (accepted_path_in_its_group default_globals path_hello
           (add_negotiate default_globals hello_conn empty_manager).2 true empty_manager).
  - apply empty_manager_ok.
  - by vm_compute.
Defined.

Lemma negotiation_answers_witness :
  answered path_hello bondHelloV2Ack (fresh_dgram [])
    (add_negotiate default_globals hello_conn empty_manager).2.
Proof.
  assert (fits default_globals path_hello empty_manager = true) as Hf by by vm_compute.
  pose proof (negotiation_answers default_globals path_hello hello_conn (fresh_dgram [])
    empty_manager _ _ eq_refl eq_refl (surjective_pairing _)) as Hn.
  rewrite Hf in Hn. apply Hn.
Defined.

Lemma surplus_path_acknowledged_then_dropped_witness :
  outbox (add default_globals hello_conn true one_path.2).1.2 = [bondHelloV2Ack].
Proof.
  destruct (lookup_group (BondID path_hello) one_path.2) as [[loc g]|] eqn:El; [|by vm_compute in El].
  apply (surplus_path_acknowledged_then_dropped default_globals path_hello hello_conn (fresh_dgram [])
           true one_path.2 loc g (add default_globals hello_conn true one_path.2).1.1 _
           (add default_globals hello_conn true one_path.2).2).
  - by vm_compute.
  - reflexivity.
  - by vm_compute.
  - reflexivity.
  - exact El.
  - vm_compute in El. injection El as <- <-. reflexivity.
  - vm_compute in El. injection El as <- <-. vm_compute. discriminate.
  - by rewrite <-!surjective_pairing.
Defined.

End BondManager.
