(* ===== verification/SessionAuth.v ===== *)
(** * Client authentication inside DTLS (sessionauth/sessionauth.go)

    Tokens are 32-byte strings.  The exchange runs over any [NetConn]; the token
    file over a small file system whose failures and concurrent writers are
    arguments. *)

From S2P Require Import Prelude GoStrings GoNet.

Module SessionAuth.

Definition tokenBytes : nat := 32.
Definition encodedTokenSize : nat := 64.
Definition authTimeout : Z := 5 * Second.

Definition authPrefix : bytes := str "VKTA" ++ [chr 1].
Definition authOK : bytes := str "VKTA" ++ [chr 1] ++ str "OK".
Definition authDenied : bytes := str "VKTA" ++ [chr 1] ++ str "NO".

Definition errRejected : goerror :=
  GoError (str "server rejected client authentication") [ErrRejected] None.

Definition is_token (t : bytes) : Prop := length t = tokenBytes.

(** ** The exchange *)

Section exchange.
Context {C : Type} `{NetConn C}.
(** The context's deadline, as a delay from now. *)
Context (ctx_deadline : option Z).

Definition writeFull (payload : bytes) (c : C) : option goerror * C :=
  let '(n, err, c) := conn_Write payload c in
  match err with
  | Some e => (Some e, c)
  | None => if n =? Z.of_nat (length payload) then (None, c) else (Some io_ErrShortWrite, c)
  end.

(** [setAuthenticationDeadline]: the earlier of five seconds and the context's
    deadline.  The returned [stop] clears it again ([clear_deadline]). *)
Definition auth_deadline : Z :=
  match ctx_deadline with
  | Some d => if d <? authTimeout then d else authTimeout
  | None => authTimeout
  end.

Definition setAuthenticationDeadline (c : C) : option goerror * C :=
  let '(err, c) := conn_SetDeadline (Some auth_deadline) c in
  (errorf_w (str "set client authentication deadline: ") <$> err, c).

Definition clear_deadline (c : C) : C := (conn_SetDeadline None c).2.

Definition frame (token : bytes) : bytes := authPrefix ++ token.

Definition Authenticate (token : bytes) (c : C) : option goerror * C :=
  match setAuthenticationDeadline c with
  | (Some e, c) => (Some e, c)
  | (None, c) =>
      let '(result, c) :=
        match writeFull (frame token) c with
        | (Some e, c) => (Some (errorf_w (str "send client authentication: ") e), c)
        | (None, c) =>
            let '(response, err, c) := conn_Read (length authOK + 1) c in
            match err with
            | Some e => (Some (errorf_w (str "read client authentication acknowledgement: ") e), c)
            | None =>
                if negb (length response =? length authOK)%nat || negb (bool_decide (response = authOK))
                then (Some errRejected, c) else (None, c)
            end
        end in
      (result, clear_deadline c)
  end.

Definition Verify (token : bytes) (c : C) : option goerror * C :=
  match setAuthenticationDeadline c with
  | (Some e, c) => (Some e, c)
  | (None, c) =>
      let expected := frame token in
      let '(data, readErr, c) := conn_Read (length expected + 1) c in
      let valid := bool_decide (readErr = None) && (length data =? length expected)%nat &&
                   bool_decide (data = expected) in
      let '(result, c) :=
        if negb valid then
          let '(_, c) := writeFull authDenied c in
          (Some (match readErr with
                 | Some e => errorf_w (str "read client authentication: ") e
                 | None => errorf (str "client authentication failed")
                 end), c)
        else
          let '(err, c) := writeFull authOK c in
          (errorf_w (str "acknowledge client authentication: ") <$> err, c) in
      (result, clear_deadline c)
  end.

(** The exchange only uses the connection. *)
Lemma writeFull_io payload c r c' : writeFull payload c = (r, c') → rtc conn_io c c'.
Proof. unfold writeFull. repeat case_match; intros; simplify_eq; io_chain. Qed.

Lemma clear_deadline_io c : rtc conn_io c (clear_deadline c).
Proof. unfold clear_deadline. destruct (conn_SetDeadline None c) eqn:E. cbn. io_chain. Qed.

Lemma Verify_io token c r c' : Verify token c = (r, c') → rtc conn_io c c'.
Proof.
  unfold Verify, setAuthenticationDeadline. destruct (conn_SetDeadline _ c) as [e1 c1] eqn:E1. intros E.
  assert (rtc conn_io c c1) as H1 by io_chain. destruct e1; cbn in E; [by simplify_eq|].
  destruct (conn_Read _ c1) as [[data readErr] c2] eqn:E2. assert (rtc conn_io c1 c2) as H2 by io_chain.
  match type of E with (let '(_, _) := ?x in _) = _ => destruct x as [result c3] eqn:E3 end.
  assert (rtc conn_io c2 c3) as H3.
  { destruct (negb _) in E3.
    - destruct (writeFull _ c2) as [e3 c4] eqn:Ew. apply writeFull_io in Ew. by injection E3 as _ <-.
    - destruct (writeFull _ c2) as [e3 c4] eqn:Ew. apply writeFull_io in Ew. by injection E3 as _ <-. }
  simplify_eq. etrans; [exact H1|]. etrans; [exact H2|]. etrans; [exact H3|]. apply clear_deadline_io.
Qed.
End exchange.

(** ** Token files *)

Inductive node :=
  | Regular (perm : Z) (content : bytes)
  | Symlink
  | OtherNode.

Abbreviation filesystem := (gmap bytes node).

Record file_env := FileEnv {
  windows : bool;
  fail_Lstat : option goerror;       (* other than "does not exist" *)
  fail_ReadFile : option goerror;
  fail_rand : option goerror;
  fail_CreateTemp : option goerror;
  fail_Chmod : option goerror;
  fail_Write : option goerror;
  fail_Sync : option goerror;
  fail_Close : option goerror;
  fail_Link : option goerror;        (* other than "already exists" *)
  temp_name : bytes;
  random : bytes;
  (* what other processes do between the first look and the link *)
  interference : filesystem → filesystem;
}.

Definition not_exist : goerror := GoError (str "file does not exist") [ErrNotExist] None.
Definition already_exist : goerror := GoError (str "file exists") [ErrExist] None.

Definition zero_token : bytes := replicate tokenBytes (chr 0).

Definition LoadTokenFile (env : file_env) (path : bytes) (fs : filesystem) : result bytes :=
  let path := TrimSpace path in
  if bool_decide (path = []) then Err (errorf (str "client authentication token file is required"))
  else
    let stat : result node :=
      match fail_Lstat env with
      | Some e => Err e
      | None => match fs !! path with Some n => Ok n | None => Err not_exist end
      end in
    let? info := map_err (errorf_w (str "stat client authentication token file: ")) stat in
    match info with
    | Symlink => Err (errorf (str "client authentication token path must not be a symbolic link"))
    | OtherNode => Err (errorf (str "client authentication token path is not a regular file"))
    | Regular perm content =>
        if negb (windows env) && negb (Z.land perm 63 =? 0) then
          Err (errorf (str "client authentication token file permissions are too broad; use 0600"))
        else
          let read : result bytes := match fail_ReadFile env with Some e => Err e | None => Ok content end in
          let? encoded := map_err (errorf_w (str "read client authentication token file: ")) read in
          let normalized := TrimSpace encoded in
          if negb (length normalized =? encodedTokenSize)%nat then
            Err (errorf (str "client authentication token must contain exactly 64 hexadecimal characters"))
          else match DecodeString normalized with
               | None => Err (errorf (str "decode client authentication token"))
               | Some token =>
                   if bool_decide (token = zero_token) then
                     Err (errorf (str "client authentication token must not be all zeroes"))
                   else Ok token
               end
    end.

(** The part of [LoadOrCreateTokenFile] after the file turned out not to exist;
    the temporary file is removed on every return after its creation. *)
Definition create_token (env : file_env) (path : bytes) (fs : filesystem)
  : result (bytes * bool) * filesystem :=
  match fail_rand env with
  | Some e => (Err (errorf_w (str "generate client authentication token: ") e), fs)
  | None =>
      let token := take tokenBytes (random env) in
      match fail_CreateTemp env with
      | Some e => (Err (errorf_w (str "create temporary client authentication token file: ") e), fs)
      | None =>
          let tempPath := temp_name env in
          match fail_Chmod env with
          | Some e => (Err (errorf_w (str "set client authentication token file permissions: ") e), fs)
          | None =>
              let writeErr := match fail_Write env with Some e => Some e | None => fail_Sync env end in
              match writeErr, fail_Close env with
              | Some e, _ => (Err (errorf_w (str "write client authentication token file: ") e), fs)
              | None, Some e => (Err (errorf_w (str "close client authentication token file: ") e), fs)
              | None, None =>
                  let file := Regular 384 (EncodeToString token ++ [chr 10]) in
                  let fs := interference env (<[tempPath := file]> fs) in
                  match fs !! path, fail_Link env with
                  | Some _, _ =>
                      ((let? loaded := LoadTokenFile env path fs in Ok (loaded, false)), delete tempPath fs)
                  | None, Some e =>
                      (Err (errorf_w (str "publish client authentication token file atomically: ") e),
                       delete tempPath fs)
                  | None, None => (Ok (token, true), delete tempPath (<[path := file]> fs))
                  end
              end
          end
      end
  end.

(** The token, whether it was created, and the file system left behind. *)
Definition LoadOrCreateTokenFile (env : file_env) (path : bytes) (fs : filesystem)
  : result (bytes * bool) * filesystem :=
  let path := TrimSpace path in
  if bool_decide (path = []) then (Err (errorf (str "client authentication token file is required")), fs)
  else match LoadTokenFile env path fs with
       | Ok token => (Ok (token, false), fs)
       | Err e => if negb (errors_is ErrNotExist e) then (Err e, fs) else create_token env path fs
       end.

(** ** Theorems on the exchange *)

Lemma writeFull_dgram p (c : dgram) :
  conn_closed c = false → writeFull p c = (None, c <| outbox := outbox c ++ [p] |>).
Proof.
  intros Hc. unfold writeFull. cbn [conn_Write dgram_conn]. unfold dgram_write. rewrite Hc.
  by rewrite Z.eqb_refl.
Qed.

Lemma Verify_dgram dl token d rest (c : dgram) :
  conn_closed c = false → inbox c = d :: rest →
  Verify dl token c =
    (if decide (d = frame token) then None else Some (errorf (str "client authentication failed")),
     c <| inbox := rest |> <| outbox := outbox c ++ [if decide (d = frame token) then authOK else authDenied] |>
       <| read_deadline := None |> <| write_deadline := None |>).
Proof.
  intros Hc Hin. destruct c as [ib ob rd wd cl]. simpl in Hc, Hin. subst. unfold Verify.
  unfold setAuthenticationDeadline. cbn [conn_SetDeadline dgram_conn conn_Read fmap option_fmap option_map].
  unfold dgram_read. cbn [conn_closed inbox field_update].
  set (n := (length (frame token) + 1)%nat).
  assert ((length (take n d) =? length (frame token))%nat && bool_decide (take n d = frame token)
          = bool_decide (d = frame token)) as Ev.
  { destruct (decide (d = frame token)) as [->|Hne].
    - rewrite (bool_decide_eq_true_2 (frame token = frame token)) by done.
      rewrite take_ge by (subst n; lia). by rewrite Nat.eqb_refl, bool_decide_eq_true_2.
    - rewrite (bool_decide_eq_false_2 (d = frame token)) by done.
      destruct (Nat.eqb_spec (length (take n d)) (length (frame token))) as [El|]; [|done].
      rewrite length_take in El. rewrite take_ge by (subst n; lia). by rewrite bool_decide_eq_false_2. }
  rewrite bool_decide_eq_true_2 by done. cbn [andb]. rewrite Ev.
  destruct (decide (d = frame token)).
  - rewrite bool_decide_eq_true_2 by done. cbn [negb]. rewrite writeFull_dgram by done. done.
  - rewrite bool_decide_eq_false_2 by done. cbn [negb]. rewrite writeFull_dgram by done. done.
Qed.

Lemma Authenticate_dgram dl token d rest (c : dgram) :
  conn_closed c = false → inbox c = d :: rest →
  Authenticate dl token c =
    (if decide (d = authOK) then None else Some errRejected,
     c <| inbox := rest |> <| outbox := outbox c ++ [frame token] |>
       <| read_deadline := None |> <| write_deadline := None |>).
Proof.
  intros Hc Hin. destruct c as [ib ob rd wd cl]. simpl in Hc, Hin. subst. unfold Authenticate.
  unfold setAuthenticationDeadline. cbn [conn_SetDeadline dgram_conn conn_Read fmap option_fmap option_map].
  rewrite writeFull_dgram by done. unfold dgram_read. cbn [conn_closed inbox field_update].
  destruct (decide (d = authOK)) as [->|Hne]; [done|].
  assert (negb (length (take (length authOK + 1) d) =? length authOK)%nat
          || negb (bool_decide (take (length authOK + 1) d = authOK)) = true) as ->; [|done].
  destruct (Nat.eqb_spec (length (take (length authOK + 1) d)) (length authOK)) as [El|]; [|done].
  rewrite length_take in El. rewrite take_ge by lia. by rewrite bool_decide_eq_false_2.
Qed.

(** C14: authentication is sound and complete.  Between a client holding one
    token and a server holding another, on a channel that delivers datagrams
    unchanged, the server accepts and the client proceeds exactly when the tokens
    are equal; otherwise the client gets [ErrRejected].  The server accepts no
    other datagram of any length, and both sides clear their deadlines. *)
Theorem authentication_exact dl tc ts (client server : dgram) d rest :
  is_token tc → is_token ts → conn_closed client = false → conn_closed server = false →
  inbox server = d :: rest → outbox server = [] →
  let '(serr, server') := Verify dl ts server in
  (serr = None ↔ d = frame ts) ∧ inbox server' = rest ∧
  read_deadline server' = None ∧ write_deadline server' = None ∧
  (d = frame tc →
   let '(cerr, client') := Authenticate dl tc (client <| inbox := outbox server' |>) in
   (serr = None ↔ tc = ts) ∧ cerr = (if decide (tc = ts) then None else Some errRejected) ∧
   outbox client' = outbox client ++ [d] ∧
   read_deadline client' = None ∧ write_deadline client' = None).
Proof.
  intros Hc Hs Hcc Hsc Hin Ho. rewrite (Verify_dgram _ _ _ _ _ Hsc Hin). cbn -[frame authOK Authenticate].
  split; [by destruct (decide (d = frame ts))|]. do 3 (split; [done|]). intros ->.
  assert (frame tc = frame ts ↔ tc = ts) as Hinj.
  { split; [|by intros ->]. unfold frame. by intros ?%app_inv_head. }
  erewrite Authenticate_dgram; [|done|by simpl; rewrite Ho]. simpl outbox.
  split; [by destruct (decide _); naive_solver|]. split; [|done].
  destruct (decide (frame tc = frame ts)) as [E|E], (decide (tc = ts)) as [E'|E']; try naive_solver.
Qed.

Definition token_of (n : Z) : bytes := replicate tokenBytes (chr n).

Lemma authentication_exact_witness :
  let server := fresh_dgram [frame (token_of 7)] in
  (Verify (Some Second) (token_of 9) server).1 = None ↔ frame (token_of 7) = frame (token_of 9).
Proof.
  intros server.
  pose proof (authentication_exact (Some Second) (token_of 7) (token_of 9) (fresh_dgram []) server
    (frame (token_of 7)) [] eq_refl eq_refl eq_refl eq_refl eq_refl eq_refl) as H.
  destruct (Verify (Some Second) (token_of 9) server) as [e s]. apply H.
Defined.

(** ** Theorems on token files *)

Lemma tight_hex t : t ≠ [] → tight (EncodeToString t).
Proof.
  intros Ht. assert (word (EncodeToString t)) as Hw.
  { split; [|apply visible_EncodeToString]. intros E%(f_equal length).
    rewrite length_EncodeToString in E. destruct t; simpl in E; [done|lia]. }
  destruct (word_head _ Hw) as (c & ? & ?), (word_last _ Hw) as (e & ? & ?). by exists c; eauto.
Qed.

(** What [LoadTokenFile] accepts. *)
Definition token_file (env : file_env) (n : node) (t : bytes) : Prop :=
  ∃ perm content, n = Regular perm content ∧ (windows env = true ∨ Z.land perm 63 = 0) ∧
    DecodeString (TrimSpace content) = Some t ∧ is_token t ∧ t ≠ zero_token.

Definition quiet_env (env : file_env) : Prop := fail_Lstat env = None ∧ fail_ReadFile env = None.

Lemma LoadTokenFile_spec env path fs t :
  quiet_env env → LoadTokenFile env path fs = Ok t ↔
  TrimSpace path ≠ [] ∧ ∃ n, fs !! TrimSpace path = Some n ∧ token_file env n t.
Proof.
  intros [Hl Hr]. unfold LoadTokenFile. rewrite Hl, Hr. cbv zeta.
  case_bool_decide as Hp; [naive_solver|].
  destruct (fs !! TrimSpace path) as [[perm content| |]|]; cbn [map_err result_bind];
    try (split; [done|]; intros (_ & ? & ? & ? & ? & ? & _); simplify_eq).
  destruct (negb (windows env) && negb (Z.land perm 63 =? 0)) eqn:Eperm.
  { split; [done|]. intros (_ & ? & ? & ? & ? & ? & Hw & _). simplify_eq.
    apply andb_true_iff in Eperm as [E1%negb_true_iff E2%negb_true_iff].
    apply Z.eqb_neq in E2. destruct Hw; congruence. }
  assert (windows env = true ∨ Z.land perm 63 = 0) as Hw.
  { destruct (windows env); [by left|]. right. simpl in Eperm. apply negb_false_iff in Eperm. lia. }
  destruct (Nat.eqb_spec (length (TrimSpace content)) encodedTokenSize) as [El|El]; cbn [negb].
  - destruct (DecodeString (TrimSpace content)) as [t'|] eqn:Ed; last first.
    { split; [done|]. intros (_ & ? & ? & ? & ? & ? & _ & Hd & _). simplify_eq; congruence. }
    pose proof (length_DecodeString _ _ Ed) as Hlen. unfold encodedTokenSize in El.
    case_bool_decide as Hz.
    + split; [done|]. intros (_ & ? & ? & ? & ? & ? & _ & Hd & _ & Hnz). simplify_eq; congruence.
    + split.
      * intros [= <-]. split; [done|]. eexists. split; [done|]. exists perm, content.
        split_and!; try done. unfold is_token, tokenBytes. lia.
      * intros (_ & ? & ? & ? & ? & ? & _ & Hd & _). simplify_eq; congruence.
  - split; [done|]. intros (_ & ? & ? & ? & ? & ? & _ & Hd & Ht & _). simplify_eq.
    apply length_DecodeString in Hd. unfold is_token, tokenBytes, encodedTokenSize in *. lia.
Qed.

(** The file written for a token is accepted as that token. *)
Lemma written_token_file env t : is_token t → t ≠ zero_token →
  token_file env (Regular 384 (EncodeToString t ++ [chr 10])) t.
Proof.
  intros Ht Hz. exists 384, (EncodeToString t ++ [chr 10]). split_and!; try done.
  - by right.
  - rewrite TrimSpace_tight_newline by (apply tight_hex; by destruct t).
    apply DecodeString_EncodeToString.
Qed.

Lemma load_trimmed env path fs : LoadTokenFile env (TrimSpace path) fs = LoadTokenFile env path fs.
Proof. unfold LoadTokenFile. by rewrite TrimSpace_idemp. Qed.

(** The random bytes make a usable token, and its temporary file is a new name. *)
Definition fresh_random (env : file_env) (path : bytes) : Prop :=
  (tokenBytes ≤ length (random env))%nat ∧ take tokenBytes (random env) ≠ zero_token ∧
  temp_name env ≠ path.

Lemma create_token_ok env path fs t created fs' :
  quiet_env env → path ≠ [] → TrimSpace path = path → fresh_random env path →
  create_token env path fs = (Ok (t, created), fs') → LoadTokenFile env path fs' = Ok t.
Proof.
  intros Hq Hp Htrim (Hlen & Hz & Hne) E. unfold create_token in E.
  destruct (fail_rand env), (fail_CreateTemp env), (fail_Chmod env), (fail_Write env),
    (fail_Sync env), (fail_Close env); try done.
  cbv zeta in E. set (file := Regular _ _) in E.
  set (fs1 := interference env _) in E. destruct (fs1 !! path) as [n|] eqn:En.
  - destruct (LoadTokenFile env path fs1) as [t'|] eqn:El; simplify_eq/=.
    rewrite LoadTokenFile_spec in El |- * by done. rewrite Htrim in *.
    destruct El as (_ & n' & Hn' & Ht). split; [done|]. exists n'. by rewrite lookup_delete_ne.
  - destruct (fail_Link env); simplify_eq/=. rewrite LoadTokenFile_spec by done.
    rewrite Htrim. split; [done|]. exists file.
    rewrite lookup_delete_ne, lookup_insert_eq by done. split; [done|].
    apply written_token_file; [|done]. unfold is_token. rewrite length_take. lia.
Qed.

Lemma LoadOrCreate_published env path fs t created fs' :
  quiet_env env → fresh_random env (TrimSpace path) →
  LoadOrCreateTokenFile env path fs = (Ok (t, created), fs') →
  LoadTokenFile env path fs' = Ok t ∧ (is_Some (fs !! TrimSpace path) → fs' = fs ∧ created = false).
Proof.
  intros Hq Hf. unfold LoadOrCreateTokenFile. cbv zeta. case_bool_decide as Hp; [done|].
  rewrite load_trimmed. destruct (LoadTokenFile env path fs) as [t'|e] eqn:El.
  { intros; simplify_eq. done. }
  destruct (errors_is ErrNotExist e) eqn:Ee; [|done]. cbn [negb]. intros Ec. split.
  - rewrite <-load_trimmed. eapply create_token_ok; try done. apply TrimSpace_idemp.
  - intros [n Hn]. exfalso. destruct Hq as [Hl Hr]. revert El. unfold LoadTokenFile.
    rewrite Hl, Hr, Hn. cbv zeta. rewrite bool_decide_eq_false_2 by done. cbn [map_err result_bind].
    intros. repeat case_match; simplify_eq; done.
Qed.

(** the server runs with the token that is in the file.  Whatever
    [LoadOrCreateTokenFile] returns, for a loaded, a created or a concurrently
    published token, is what reading the file gives afterwards; and a file that
    exists is never changed. *)
Theorem token_is_published env path fs t created fs' :
  quiet_env env → fresh_random env (TrimSpace path) →
  LoadOrCreateTokenFile env path fs = (Ok (t, created), fs') →
  LoadTokenFile env path fs' = Ok t ∧ (is_Some (fs !! TrimSpace path) → fs' = fs ∧ created = false).
Proof. apply LoadOrCreate_published. Qed.

Definition plain_env : file_env :=
  FileEnv false None None None None None None None None None (str ".token.tmp-1")
    (replicate 32 (chr 7)) (λ fs, fs).

Lemma token_is_published_witness :
  LoadTokenFile plain_env (str "token") (LoadOrCreateTokenFile plain_env (str "token") ∅).2 =
    Ok (replicate 32 (chr 7)).
Proof.
  apply (token_is_published plain_env (str "token") ∅ _ true
           (LoadOrCreateTokenFile plain_env (str "token") ∅).2).
  - done.
  - split_and!; [by apply Nat.leb_le|done|done].
  - by vm_compute.
Defined.

End SessionAuth.
