(* ===== verification/DtlsAuth.v ===== *)
(** * DTLS server identity (dtlsauth/auth.go)

    A fingerprint is a 32-byte string.  SHA-256 and the DTLS library are outside
    the repository: the digest is a parameter, and an option passed to pion is a
    value of [client_option], whose documented effect on a handshake is
    [handshake_accepts]. *)

From S2P Require Import Prelude GoStrings.

Module DtlsAuth.

Definition fingerprintBytes : nat := 32.

Inductive authenticationMode := authenticationUnset | authenticationPinned | authenticationInsecure.

#[export] Instance authenticationMode_eq_dec : EqDecision authenticationMode.
Proof. solve_decision. Defined.

Definition zero_fingerprint : bytes := replicate fingerprintBytes (chr 0).

Record ClientAuthentication := MkAuth { mode : authenticationMode; expected : bytes }.

Definition zero_auth : ClientAuthentication := MkAuth authenticationUnset zero_fingerprint.

Definition ParseFingerprint (value : bytes) : result bytes :=
  let value := TrimSpace value in
  if bool_decide (value = []) then Err (errorf (str "DTLS certificate fingerprint must not be empty"))
  else
    let? normalized :=
      if Contains value (str ":") then
        let parts := split_on ":"%char value in
        if negb (length parts =? fingerprintBytes)%nat then
          Err (errorf (str "DTLS certificate fingerprint must contain 32 byte pairs"))
        else if negb (forallb (λ part, (length part =? 2)%nat) parts) then
          Err (errorf (str "DTLS certificate fingerprint byte pairs must contain two hexadecimal characters"))
        else Ok (Join parts [])
      else Ok value in
    if negb (length normalized =? fingerprintBytes * 2)%nat then
      Err (errorf (str "DTLS certificate fingerprint must contain 64 hexadecimal characters"))
    else match DecodeString normalized with
         | None => Err (errorf (str "decode DTLS certificate fingerprint"))
         | Some decoded => Ok decoded
         end.

(** [encoded[offset:offset+2]] for every even offset. *)
Fixpoint pairs (encoded : bytes) : list bytes :=
  match encoded with a :: b :: rest => [a; b] :: pairs rest | _ => [] end.

(** [Fingerprint.String] *)
Definition fingerprint_String (f : bytes) : bytes :=
  Join (pairs (upper_ascii <$> EncodeToString f)) (str ":").

Definition NewClientAuthentication (fingerprint : bytes) (insecureSkipVerify : bool)
  : result ClientAuthentication :=
  let fingerprint := TrimSpace fingerprint in
  if insecureSkipVerify then
    if negb (bool_decide (fingerprint = [])) then
      Err (errorf (str "DTLS fingerprint and insecure skip-verify cannot be enabled together"))
    else Ok (MkAuth authenticationInsecure zero_fingerprint)
  else if bool_decide (fingerprint = []) then
    Err (errorf (str "DTLS server fingerprint is required; set -dtls-server-fingerprint or explicitly opt in to -dtls-insecure-skip-verify"))
  else
    let? expected := ParseFingerprint fingerprint in
    Ok (MkAuth authenticationPinned expected).

Definition Description (a : ClientAuthentication) : bytes :=
  match mode a with
  | authenticationPinned => str "pinned SHA-256 certificate " ++ fingerprint_String (expected a)
  | authenticationInsecure => str "disabled by explicit insecure override"
  | authenticationUnset => str "not configured"
  end.

Definition Insecure (a : ClientAuthentication) : bool := bool_decide (mode a = authenticationInsecure).

Section digest.
(** [sha256.Sum256]. *)
Context (Sum256 : bytes → bytes).

Definition CertificateFingerprint (certificates : list bytes) : result bytes :=
  match certificates with
  | [] | [] :: _ => Err (errorf (str "DTLS certificate has no leaf certificate"))
  | leaf :: _ => Ok (Sum256 leaf)
  end.

Definition verifyRawCertificateFingerprint (expected : bytes) (rawCerts : list bytes) : result unit :=
  match rawCerts with
  | [] | [] :: _ => Err (errorf (str "DTLS peer did not present a certificate"))
  | leaf :: _ =>
      let actual := Sum256 leaf in
      if negb (bool_decide (expected = actual)) then
        Err (errorf (str "DTLS server certificate fingerprint mismatch: got " ++ fingerprint_String actual))
      else Ok ()
  end.

Inductive client_option :=
  | WithInsecureSkipVerify (b : bool)
  | WithVerifyPeerCertificate (f : list bytes → result unit).

Definition Options (a : ClientAuthentication) : result (list client_option) :=
  match mode a with
  | authenticationPinned =>
      Ok [WithInsecureSkipVerify true;
          WithVerifyPeerCertificate (verifyRawCertificateFingerprint (expected a))]
  | authenticationInsecure => Ok [WithInsecureSkipVerify true]
  | authenticationUnset => Err (errorf (str "DTLS client authentication is not configured"))
  end.

(** pion: chain verification unless skipped, and every callback must accept;
    [chain_valid] is pion's own chain verification. *)
Definition option_accepts (rawCerts : list bytes) (o : client_option) : bool :=
  match o with
  | WithInsecureSkipVerify _ => true
  | WithVerifyPeerCertificate f => is_ok (f rawCerts)
  end.

Definition skips_chain (os : list client_option) : bool :=
  existsb (λ o, match o with WithInsecureSkipVerify b => b | _ => false end) os.

Definition handshake_accepts (chain_valid : list bytes → bool) (os : list client_option)
  (rawCerts : list bytes) : bool :=
  (skips_chain os || chain_valid rawCerts) && forallb (option_accepts rawCerts) os.
End digest.

(** ** Fingerprints as text *)

Lemma pairs_encode f :
  pairs (upper_ascii <$> EncodeToString f) =
  (λ b, [upper_ascii (hex_digit (code b / 16)); upper_ascii (hex_digit (code b mod 16))]) <$> f.
Proof. induction f as [|b f IH]; [done|]. rewrite EncodeToString_cons, !fmap_cons. simpl. by rewrite IH. Qed.

Lemma upper_hex_ok d : 0 ≤ d < 16 →
  visible (upper_ascii (hex_digit d)) = true ∧ upper_ascii (hex_digit d) ≠ ":"%char.
Proof.
  intros Hd.
  assert (visible (upper_ascii (hex_digit d)) && negb (Ascii.eqb (upper_ascii (hex_digit d)) ":") = true) as H.
  { revert d Hd. apply (forall_nibble (λ d, visible (upper_ascii (hex_digit d)) &&
      negb (Ascii.eqb (upper_ascii (hex_digit d)) ":"))). by vm_compute. }
  apply andb_true_iff in H as [H1 H2]. split; [done|]. intros E. by rewrite E in H2.
Qed.

Lemma pair_ok b :
  word [upper_ascii (hex_digit (code b / 16)); upper_ascii (hex_digit (code b mod 16))] ∧
  ":"%char ∉ [upper_ascii (hex_digit (code b / 16)); upper_ascii (hex_digit (code b mod 16))].
Proof.
  destruct (code_nibbles b) as (H1 & H2 & _).
  destruct (upper_hex_ok _ H1), (upper_hex_ok _ H2). split; [|set_solver].
  split; [done|]. by repeat constructor.
Qed.

Lemma Join_nil_concat (ps : list bytes) : Join ps [] = concat ps.
Proof.
  induction ps as [|p ps IH]; [done|]. destruct ps as [|q ps]; [simpl; by rewrite app_nil_r|].
  rewrite Join_cons2, IH. done.
Qed.

Lemma concat_pairs f : concat (pairs (upper_ascii <$> EncodeToString f)) = upper_ascii <$> EncodeToString f.
Proof. induction f as [|b f IH]; [done|]. rewrite EncodeToString_cons, !fmap_cons. simpl. by rewrite IH. Qed.

Lemma Contains_middle p c s : Contains (p ++ c :: s) [c] = true.
Proof.
  induction p as [|x p IH]; simpl; [by rewrite ascii_eqb_refl|]. by rewrite IH, orb_true_r.
Qed.

Lemma Contains_not_in c s : c ∉ s → Contains s [c] = false.
Proof.
  induction s as [|x s IH]; [done|]. intros [Hx Hs]%not_elem_of_cons. simpl.
  rewrite IH by done. destruct (Ascii.eqb_spec c x); [congruence|]. done.
Qed.

Lemma last_Join p q ps sep : q ≠ [] → Forall (λ r, r ≠ []) ps →
  last (Join (p :: q :: ps) sep) = last (Join (q :: ps) sep).
Proof.
  intros Hq Hps. rewrite Join_cons2, !last_app_ne; [done| |].
  - destruct ps; [done|]. rewrite Join_cons2. by destruct q.
  - destruct ps; [destruct sep; [done|done]|]. rewrite Join_cons2. destruct q, sep; done.
Qed.

Lemma tight_pairs f : f ≠ [] → tight (fingerprint_String f).
Proof.
  intros Hf. unfold fingerprint_String. rewrite pairs_encode.
  destruct f as [|b f]; [done|]. destruct (code_nibbles b) as (H1 & _ & _).
  exists (upper_ascii (hex_digit (code b / 16))). split; [by apply upper_hex_ok|].
  split; [by destruct f|]. clear H1. revert b Hf. induction f as [|b' f IH]; intros b Hf.
  - simpl. destruct (code_nibbles b) as (_ & H2 & _). eexists. split; [|done]. by apply upper_hex_ok.
  - rewrite !fmap_cons. rewrite last_Join; [|done|].
    + by apply (IH b').
    + apply Forall_fmap, Forall_true. done.
Qed.

Lemma ParseFingerprint_String f : length f = fingerprintBytes →
  ParseFingerprint (fingerprint_String f) = Ok f.
Proof.
  intros Hf. unfold ParseFingerprint. rewrite TrimSpace_tight by (apply tight_pairs; by destruct f).
  assert (∃ a b p q, f = a :: b :: p ∧ fingerprint_String f = q ++ ":"%char :: fingerprint_String (b :: p)) as (a & b & p & q & Ef & Es).
  { destruct f as [|a [|b p]]; [done|done|]. do 4 eexists. split; [reflexivity|].
    unfold fingerprint_String. rewrite !pairs_encode, !fmap_cons, Join_cons2. reflexivity. }
  rewrite bool_decide_eq_false_2 by (rewrite Es; by destruct q).
  rewrite Es at 1. rewrite Contains_middle. cbv zeta.
  assert (split_on ":"%char (fingerprint_String f) = pairs (upper_ascii <$> EncodeToString f)) as ->.
  { unfold fingerprint_String. rewrite pairs_encode. apply (split_on_Join ":"%char).
    - by rewrite Ef.
    - apply Forall_fmap, Forall_true. intros x. apply pair_ok. }
  set (ps := pairs (upper_ascii <$> EncodeToString f)).
  assert (length ps = fingerprintBytes) as -> by (subst ps; by rewrite pairs_encode, length_fmap).
  assert (forallb (λ part : bytes, (length part =? 2)%nat) ps = true) as ->.
  { subst ps. rewrite pairs_encode. apply forallb_Forall, Forall_fmap, Forall_true. done. }
  subst ps. rewrite Nat.eqb_refl. cbn [negb result_bind].
  rewrite Join_nil_concat, concat_pairs, length_fmap, length_EncodeToString, Hf.
  by rewrite DecodeString_upper.
Qed.

Lemma ParseFingerprint_length v f : ParseFingerprint v = Ok f → length f = fingerprintBytes.
Proof.
  unfold ParseFingerprint. cbv zeta. case_bool_decide; [done|]. intros (n & _ & Hn)%result_bind_ok.
  destruct (Nat.eqb_spec (length n) (fingerprintBytes * 2)) as [El|]; [|done]. cbn [negb] in Hn.
  destruct (DecodeString n) as [d|] eqn:Ed; simplify_eq. apply length_DecodeString in Ed. lia.
Qed.

(** a fingerprint printed by the server ([Fingerprint.String]) and pasted
    into the client's flag is parsed back to the same 32 bytes, and nothing that
    is not 32 bytes long is ever accepted. *)
Theorem fingerprint_roundtrip f v :
  (length f = fingerprintBytes → ParseFingerprint (fingerprint_String f) = Ok f) ∧
  (∀ f', ParseFingerprint v = Ok f' → length f' = fingerprintBytes).
Proof. split; [apply ParseFingerprint_String|apply ParseFingerprint_length]. Qed.

(** ** Fail-closed verification *)

(** C15: the client's policy fails closed.  No flag combination disables peer
    verification except the explicit override without a fingerprint; with a
    fingerprint a handshake is accepted exactly when the leaf certificate's
    digest is the pinned one, whatever chain the peer presents, and an
    unconfigured policy yields no options at all. *)
Theorem authentication_fails_closed Sum256 chain_valid fingerprint skip a os rawCerts :
  NewClientAuthentication fingerprint skip = Ok a → Options Sum256 a = Ok os →
  (Insecure a = true ↔ skip = true ∧ TrimSpace fingerprint = []) ∧
  (Insecure a = false →
     ∃ f, ParseFingerprint fingerprint = Ok f ∧
     (handshake_accepts chain_valid os rawCerts = true ↔
        ∃ leaf rest, rawCerts = leaf :: rest ∧ leaf ≠ [] ∧ Sum256 leaf = f)) ∧
  is_ok (Options Sum256 zero_auth) = false.
Proof.
  unfold NewClientAuthentication. cbv zeta. destruct skip.
  - case_bool_decide as Hf; [|done]. cbn [negb]. intros; simplify_eq/=. done.
  - case_bool_decide as Hf; [done|]. intros (f & Hp & Ha)%result_bind_ok Ho. simplify_eq/=.
    assert (ParseFingerprint fingerprint = Ok f) as Hp'.
    { revert Hp. unfold ParseFingerprint. by rewrite TrimSpace_idemp. }
    split; [naive_solver|]. split; [|done]. intros _. exists f. split; [done|].
    cbn in Ho. simplify_eq. unfold handshake_accepts. simpl.
    destruct rawCerts as [|[|c leaf] rest]; simpl.
    + split; [done|]. by intros (? & ? & ? & _).
    + split; [done|]. intros (? & ? & ? & ? & _). by simplify_eq.
    + case_bool_decide as Hd; simpl.
      * split; [|done]. intros _. by exists (c :: leaf), rest.
      * split; [done|]. intros (? & ? & ? & _ & ?). simplify_eq.
Qed.

(** A digest for evaluation: the first byte, 32 times. *)
Definition toy_digest (b : bytes) : bytes := replicate fingerprintBytes (default (chr 0) (head b)).

Lemma fingerprint_roundtrip_witness :
  ParseFingerprint (fingerprint_String (toy_digest (str "k"))) = Ok (toy_digest (str "k")).
Proof. by apply (fingerprint_roundtrip (toy_digest (str "k")) []). Defined.

Lemma authentication_fails_closed_witness :
  Insecure (MkAuth authenticationPinned (toy_digest (str "k"))) = false.
Proof.
  pose proof (authentication_fails_closed toy_digest (λ _, false)
    (fingerprint_String (toy_digest (str "k"))) false
    (MkAuth authenticationPinned (toy_digest (str "k")))
    [WithInsecureSkipVerify true;
     WithVerifyPeerCertificate (verifyRawCertificateFingerprint toy_digest (toy_digest (str "k")))]
    [str "k"]) as H.
  destruct H as [H _]; [by vm_compute|reflexivity|].
  destruct (Insecure _); [|done]. by destruct (proj1 H eq_refl).
Defined.

End DtlsAuth.
