(* ===== verification/Identity.v ===== *)
(** * The server's DTLS identity (server/dtls_identity.go)

    Where the certificate and the key come from: a file that is created on the
    first start and read on every later one, a pair of files, or a key made up
    for the process.  Cryptography, PEM and X.509 are libraries: a record of
    functions.  The file system is that of [SessionAuth]; other processes may
    change it between the moment the file is found missing and the moment the
    new one is linked. *)

From S2P Require Import Prelude GoStrings SessionAuth DtlsAuth.

Module Identity.
Import SessionAuth DtlsAuth.

(** ** Libraries *)

Inductive key_kind := ECDSAKey | RSAKey | OtherKey.

(** [x509.Certificate], as far as it is looked at. *)
Record leaf_certificate := MkLeaf { PublicKey : key_kind }.

(** [tls.Certificate] *)
Record certificate := MkCertificate { Certificate : list bytes; PrivateKey : bytes; Leaf : option leaf_certificate }.

#[export] Instance certificate_eta : Eta certificate := λ c, MkCertificate (Certificate c) (PrivateKey c) (Leaf c).

(** The template of a new certificate; times in nanoseconds, the years of
    [AddDate] apart. *)
Record template := MkTemplate {
  SerialNumber : Z; CommonName : bytes; NotBefore : Z; NotAfter : Z * Z; DigitalSignature : bool; ServerAuth : bool;
}.

Record crypto := MkCrypto {
  GenerateKey : result bytes;                          (* a P-256 private key *)
  rand_Int : Z → result Z;                             (* below the limit *)
  clock : Z;
  CreateCertificate : template → bytes → result bytes;
  ParseCertificate : bytes → result leaf_certificate;
  MarshalPKCS8PrivateKey : bytes → result bytes;
  pem_block : bytes → bytes → bytes;                   (* type and contents *)
  X509KeyPair : bytes → bytes → result certificate;    (* of the contents of the two files *)
  GenerateSelfSigned : result certificate;
  Sum256 : bytes → bytes;
}.

Inductive cipher_suite := TLS_ECDHE_ECDSA_WITH_AES_128_GCM_SHA256 | TLS_ECDHE_RSA_WITH_AES_128_GCM_SHA256.

Record serverDTLSIdentity := MkIdentity {
  id_certificate : certificate; id_fingerprint : bytes; id_cipherSuite : cipher_suite; id_ephemeral : bool;
}.

(** [filepath.Clean] on Unix. *)
Definition clean_component (rooted : bool) (stack : list bytes) (c : bytes) : list bytes :=
  if bool_decide (c = []) || bool_decide (c = str ".") then stack
  else if bool_decide (c = str "..") then
    match stack with
    | [] => if rooted then [] else [c]
    | top :: rest => if bool_decide (top = str "..") then c :: stack else rest
    end
  else c :: stack.

Definition Clean (path : bytes) : bytes :=
  let rooted := bool_decide (head path = Some "/"%char) in
  let body := Join (rev (foldl (clean_component rooted) [] (split_on "/"%char path))) (str "/") in
  if rooted then "/"%char :: body else if bool_decide (body = []) then str "." else body.

Section identity.
Context (lib : crypto) (env : file_env).
(** [filepath.Clean] on Windows, and what reading or examining a path that is not a
    regular file gives. *)
Context (clean_windows : bytes → bytes) (stat_symlink : option goerror) (read_other : bytes → result bytes).

(** ** Checks *)

(** The file system knows a file by its cleaned path. *)
Definition name (path : bytes) : bytes := if windows env then clean_windows path else Clean path.

Definition lstat (path : bytes) (fs : filesystem) : result node :=
  match fail_Lstat env with
  | Some e => Err e
  | None => match fs !! name path with Some n => Ok n | None => Err not_exist end
  end.

Definition validatePrivateIdentityFile (path : bytes) (fs : filesystem) : result unit :=
  let? info := map_err (errorf_w (str "stat DTLS private key: ")) (lstat path fs) in
  match info with
  | Symlink => Err (errorf (str "DTLS private key path must not be a symbolic link"))
  | OtherNode => Err (errorf (str "DTLS private key path is not a regular file"))
  | Regular perm _ =>
      if negb (windows env) && negb (Z.land perm 63 =? 0) then
        Err (errorf (str "DTLS private key permissions are too broad; use 0600"))
      else Ok tt
  end.

Definition sameIdentityPath (certificateFile keyFile : bytes) : bool :=
  if windows env then equal_fold_ascii (name certificateFile) (name keyFile)
  else bool_decide (name certificateFile = name keyFile).

(** [os.Stat]: the error, if any. *)
Definition stat (path : bytes) (fs : filesystem) : option goerror :=
  match fail_Lstat env with
  | Some e => Some e
  | None => match fs !! name path with
            | Some Symlink => stat_symlink
            | Some _ => None
            | None => Some not_exist
            end
  end.

(** ** Creating the identity *)

Definition generatePersistentDTLSCertificate : result certificate :=
  let? privateKey := GenerateKey lib in
  let? serial := rand_Int lib (2 ^ 128) in
  let t := MkTemplate serial (str "vk-turn-proxy") (clock lib - 5 * Minute) (clock lib, 10) true true in
  let? der := CreateCertificate lib t privateKey in
  let? leaf := ParseCertificate lib der in
  Ok (MkCertificate [der] privateKey (Some leaf)).

(** The two PEM blocks of one file. *)
Definition encode_identity (c : bytes) (key : bytes) : bytes :=
  pem_block lib (str "CERTIFICATE") c ++ pem_block lib (str "PRIVATE KEY") key.

(** The temporary file is removed on every return after its creation. *)
Definition createPersistentDTLSIdentity (path : bytes) (fs : filesystem) : result unit * filesystem :=
  match map_err (errorf_w (str "generate persistent DTLS certificate: ")) generatePersistentDTLSCertificate with
  | Err e => (Err e, fs)
  | Ok cert =>
      match Certificate cert with
      | [] => (Err (errorf (str "generated DTLS certificate has no leaf certificate")), fs)
      | der :: _ =>
          match map_err (errorf_w (str "marshal persistent DTLS private key: ")) (MarshalPKCS8PrivateKey lib (PrivateKey cert)) with
          | Err e => (Err e, fs)
          | Ok privateKey =>
              match fail_CreateTemp env with
              | Some e => (Err (errorf_w (str "create temporary DTLS identity: ") e), fs)
              | None =>
                  let tempPath := temp_name env in
                  match fail_Chmod env with
                  | Some e => (Err (errorf_w (str "set DTLS identity permissions: ") e), fs)
                  | None =>
                      let writeErr := match fail_Write env with Some e => Some e | None => fail_Sync env end in
                      match writeErr, fail_Close env with
                      | Some e, _ => (Err (errorf_w (str "write DTLS identity: ") e), fs)
                      | None, Some e => (Err (errorf_w (str "close DTLS identity: ") e), fs)
                      | None, None =>
                          let file := Regular 384 (encode_identity der privateKey) in
                          let fs := interference env (<[tempPath := file]> fs) in
                          match fs !! name path, fail_Link env with
                          | Some _, _ => (Ok tt, delete tempPath fs)
                          | None, Some e => (Err (errorf_w (str "publish DTLS identity atomically: ") e), delete tempPath fs)
                          | None, None => (Ok tt, delete tempPath (<[name path := file]> fs))
                          end
                      end
                  end
              end
          end
      end
  end.

(** ** Loading it *)

Definition read_file (path : bytes) (fs : filesystem) : result bytes :=
  match fail_ReadFile env with
  | Some e => Err e
  | None => match fs !! name path with
            | Some (Regular _ content) => Ok content
            | Some _ => read_other path
            | None => Err not_exist
            end
  end.

(** [tls.LoadX509KeyPair] *)
Definition LoadX509KeyPair (certificateFile keyFile : bytes) (fs : filesystem) : result certificate :=
  let? c := read_file certificateFile fs in
  let? k := read_file keyFile fs in
  X509KeyPair lib c k.

Definition certificateCipherSuite (c : certificate) : result cipher_suite :=
  match Certificate c with
  | [] => Err (errorf (str "DTLS certificate has no leaf certificate"))
  | der :: _ =>
      let? leaf := match Leaf c with
                   | Some leaf => Ok leaf
                   | None => map_err (errorf_w (str "parse DTLS leaf certificate: ")) (ParseCertificate lib der)
                   end in
      match PublicKey leaf with
      | ECDSAKey => Ok TLS_ECDHE_ECDSA_WITH_AES_128_GCM_SHA256
      | RSAKey => Ok TLS_ECDHE_RSA_WITH_AES_128_GCM_SHA256
      | OtherKey => Err (errorf (str "unsupported DTLS certificate public key type; use ECDSA or RSA"))
      end
  end.

(** The end of [loadServerDTLSIdentity], common to all sources. *)
Definition finish_identity (c : certificate) (ephemeral : bool) : result serverDTLSIdentity :=
  let? c := match Leaf c, Certificate c with
            | None, der :: _ =>
                let? leaf := map_err (errorf_w (str "parse DTLS leaf certificate: ")) (ParseCertificate lib der) in
                Ok (c <| Leaf := Some leaf |>)
            | _, _ => Ok c
            end in
  let? fingerprint := CertificateFingerprint (Sum256 lib) (Certificate c) in
  let? cipherSuite := certificateCipherSuite c in
  Ok (MkIdentity c fingerprint cipherSuite ephemeral).

(** The file is created first when both paths are the same and nothing is there. *)
Definition ensure_identity_file (certificateFile keyFile : bytes) (fs : filesystem) : result unit * filesystem :=
  if sameIdentityPath certificateFile keyFile then
    match stat certificateFile fs with
    | None => (Ok tt, fs)
    | Some e => if errors_is ErrNotExist e then createPersistentDTLSIdentity certificateFile fs
                else (Err (errorf_w (str "stat DTLS identity file: ") e), fs)
    end
  else (Ok tt, fs).

Definition loadServerDTLSIdentity (certificateFile keyFile : bytes) (fs : filesystem) :
    result serverDTLSIdentity * filesystem :=
  let certificateSet := negb (bool_decide (TrimSpace certificateFile = [])) in
  let keySet := negb (bool_decide (TrimSpace keyFile = [])) in
  if negb (Bool.eqb certificateSet keySet) then
    (Err (errorf (str "-dtls-cert-file and -dtls-key-file must be provided together")), fs)
  else if certificateSet then
    let '(ready, fs) := ensure_identity_file certificateFile keyFile fs in
    ((let? _ := ready in
      let? _ := validatePrivateIdentityFile keyFile fs in
      let? c := map_err (errorf_w (str "load DTLS certificate and key: ")) (LoadX509KeyPair certificateFile keyFile fs) in
      finish_identity c false), fs)
  else
    ((let? c := map_err (errorf_w (str "generate ephemeral DTLS certificate: ")) (GenerateSelfSigned lib) in
      finish_identity c true), fs).

(** ** What a loaded identity is *)

(** The fingerprint is that of the leaf, and the cipher suite that of its key. *)
Definition consistent (id : serverDTLSIdentity) : Prop :=
  ∃ der rest leaf, Certificate (id_certificate id) = der :: rest ∧ der ≠ [] ∧
    Leaf (id_certificate id) = Some leaf ∧ id_fingerprint id = Sum256 lib der ∧
    match PublicKey leaf with
    | ECDSAKey => id_cipherSuite id = TLS_ECDHE_ECDSA_WITH_AES_128_GCM_SHA256
    | RSAKey => id_cipherSuite id = TLS_ECDHE_RSA_WITH_AES_128_GCM_SHA256
    | OtherKey => False
    end.

Lemma finish_identity_ok c b id : finish_identity c b = Ok id →
  id_ephemeral id = b ∧ consistent id ∧
  Certificate (id_certificate id) = Certificate c ∧ PrivateKey (id_certificate id) = PrivateKey c.
Proof.
  unfold finish_identity. intros H. apply result_bind_ok in H as (c' & Hc & H).
  apply result_bind_ok in H as (f & Hf & H). apply result_bind_ok in H as (cs & Hcs & H). injection H as <-. cbn.
  unfold CertificateFingerprint in Hf. unfold certificateCipherSuite in Hcs.
  assert (Certificate c' = Certificate c ∧ PrivateKey c' = PrivateKey c ∧ (Certificate c' ≠ [] → is_Some (Leaf c'))) as (E1 & E2 & E3).
  { destruct (Leaf c) as [leaf|] eqn:El; [injection Hc as <-; rewrite El; split; [done|split; [done|by eexists]]|].
    destruct (Certificate c) as [|der rest] eqn:Ec; [injection Hc as <-; rewrite Ec; done|].
    apply result_bind_ok in Hc as (leaf & _ & [= <-]). cbn. split; [done|]. split; [done|]. by eexists. }
  split; [done|]. split; [|done].
  destruct (Certificate c') as [|der rest] eqn:Ec; [done|]. destruct E3 as [leaf El]; [done|].
  destruct der as [|x der]; [done|]. injection Hf as <-. exists (x :: der), rest, leaf.
  rewrite El in Hcs. cbn in Hcs. split; [done|]. split; [done|]. split; [done|]. split; [done|].
  by destruct (PublicKey leaf); simplify_eq.
Qed.

Lemma validatePrivate_ok path fs : validatePrivateIdentityFile path fs = Ok tt ↔
  fail_Lstat env = None ∧ ∃ perm content, fs !! name path = Some (Regular perm content) ∧
    (windows env = false → Z.land perm 63 = 0).
Proof.
  unfold validatePrivateIdentityFile, lstat. destruct (fail_Lstat env); cbn; [naive_solver|].
  destruct (fs !! name path) as [[perm content| |]|]; cbn; [|naive_solver..].
  destruct (windows env), (Z.eqb_spec (Z.land perm 63) 0); cbn; naive_solver.
Qed.

(** The identity is that of the pair of files, the key private. *)
Definition from_files (certificateFile keyFile : bytes) (fs : filesystem) (id : serverDTLSIdentity) : Prop :=
  id_ephemeral id = false ∧
  (∃ perm content, fs !! name keyFile = Some (Regular perm content) ∧ (windows env = false → Z.land perm 63 = 0)) ∧
  ∃ c, LoadX509KeyPair certificateFile keyFile fs = Ok c ∧ finish_identity c false = Ok id.

Lemma load_files_ok certificateFile keyFile fs id fs' :
  TrimSpace certificateFile ≠ [] → TrimSpace keyFile ≠ [] →
  loadServerDTLSIdentity certificateFile keyFile fs = (Ok id, fs') ↔
  ensure_identity_file certificateFile keyFile fs = (Ok tt, fs') ∧ fail_Lstat env = None ∧
  from_files certificateFile keyFile fs' id.
Proof.
  intros Hc Hk. unfold loadServerDTLSIdentity. rewrite !bool_decide_eq_false_2 by done. cbn [negb Bool.eqb].
  destruct (ensure_identity_file _ _ _) as [ready fs1]. split.
  - intros [= H <-]. apply result_bind_ok in H as ([] & -> & H). apply result_bind_ok in H as ([] & Hv & H).
    apply result_bind_ok in H as (c & Hl%map_err_ok & H). split; [done|].
    apply validatePrivate_ok in Hv as [Hls Hv]. split; [done|]. split; [by apply finish_identity_ok in H as [? _]|].
    split; [done|]. eauto.
  - intros ([= -> ->] & Hls & He & Hp & c & Hl & Hf). f_equal. cbn.
    rewrite (proj2 (validatePrivate_ok keyFile fs') (conj Hls Hp)). cbn. rewrite Hl. done.
Qed.
End identity.

(** ** Theorems *)

(** An identity the server starts with is usable and its key is private: the
    flags are given together or not at all; with files, the key file is a
    regular file that nobody else may read, and the certificate is the pair
    loaded from the files; without, the file system is untouched and the
    identity is marked ephemeral.  The published fingerprint is that of the
    leaf certificate, and the cipher suite fits its key. *)
Theorem identity_sound lib env clean stat_link other c k fs id fs' :
  loadServerDTLSIdentity lib env clean stat_link other c k fs = (Ok id, fs') →
  consistent lib id ∧ (TrimSpace c = [] ↔ TrimSpace k = []) ∧
  if decide (TrimSpace k = []) then id_ephemeral id = true ∧ fs' = fs
  else from_files lib env clean other c k fs' id.
Proof.
  intros H. destruct (decide (TrimSpace k = [])) as [Hk|Hk], (decide (TrimSpace c = [])) as [Hc|Hc].
  - unfold loadServerDTLSIdentity in H. rewrite Hk, Hc in H. cbn in H. injection H as H <-.
    apply result_bind_ok in H as (cert & _ & H). apply finish_identity_ok in H as (He & Hcons & _). done.
  - unfold loadServerDTLSIdentity in H. rewrite Hk, (bool_decide_eq_false_2 (TrimSpace c = [])) in H by done. done.
  - unfold loadServerDTLSIdentity in H. rewrite Hc, (bool_decide_eq_false_2 (TrimSpace k = [])) in H by done. done.
  - apply load_files_ok in H as (_ & _ & Hf); [|done..]. split; [|by split].
    destruct Hf as (_ & _ & cert & _ & Hf). by apply finish_identity_ok in Hf as (_ & ? & _).
Qed.

(** Two runs of the program parse the same files alike. *)
Definition same_parsers (lib lib' : crypto) : Prop :=
  (∀ x y, X509KeyPair lib' x y = X509KeyPair lib x y) ∧ (∀ x, ParseCertificate lib' x = ParseCertificate lib x) ∧
  (∀ x, Sum256 lib' x = Sum256 lib x).

Lemma finish_identity_same lib lib' c b : same_parsers lib lib' → finish_identity lib' c b = finish_identity lib c b.
Proof.
  intros (_ & Hp & Hs). unfold finish_identity, certificateCipherSuite, CertificateFingerprint.
  destruct (Leaf c) as [leaf|] eqn:El.
  - cbn [result_bind]. destruct (Certificate c) as [|[|x der] rest]; [done|done|]. cbn [result_bind]. by rewrite Hs, El.
  - destruct (Certificate c) as [|der rest] eqn:Ec; cbn [result_bind]; [by rewrite Ec|]. rewrite Hp.
    destruct (ParseCertificate lib der); cbn; [|done]. rewrite Ec. destruct der; cbn; [done|]. by rewrite Hs.
Qed.

(** C39: On systems other than Windows the identity survives a restart: after a
    start that used files, whether it created them, found them or lost a race to
    another process, a later start on the same files gives the same identity,
    fingerprint included, and changes nothing, whatever new random numbers the
    second run would draw. *)
Theorem identity_survives_restart lib lib' env env' clean stat_link other c k fs id fs' :
  windows env = false → windows env' = false → TrimSpace c ≠ [] → TrimSpace k ≠ [] →
  same_parsers lib lib' → fail_Lstat env' = None → fail_ReadFile env' = fail_ReadFile env →
  loadServerDTLSIdentity lib env clean stat_link other c k fs = (Ok id, fs') →
  loadServerDTLSIdentity lib' env' clean stat_link other c k fs' = (Ok id, fs').
Proof.
  intros Hw Hw' Hc Hk Hlib Hls Hrf H. apply load_files_ok in H as (_ & _ & He & (perm & content & Hp & Hperm) & cert & Hl & Hf);
    [|done..].
  assert (∀ path, name env clean path = name env' clean path) as Hname by (intros; unfold name; by rewrite Hw, Hw').
  apply load_files_ok; [done|done|]. split; [|split; [done|]].
  - unfold ensure_identity_file. destruct (sameIdentityPath env' clean c k) eqn:Es; [|done].
    unfold sameIdentityPath in Es. rewrite Hw' in Es. apply bool_decide_eq_true in Es.
    unfold stat. rewrite Hls, Es, <-Hname, Hp. done.
  - split; [done|]. split; [exists perm, content; rewrite <-Hname; auto|]. exists cert.
    split; [|by rewrite (finish_identity_same lib lib')].
    rewrite <-Hl. unfold LoadX509KeyPair, read_file. rewrite Hrf, <-!Hname.
    destruct (match fail_ReadFile env with Some e => Err e | None => _ end); cbn; [|done].
    destruct (match fail_ReadFile env with Some e => Err e | None => _ end); cbn; [|done]. apply Hlib.
Qed.

Lemma generated_leaf lib cert : generatePersistentDTLSCertificate lib = Ok cert → is_Some (Leaf cert).
Proof.
  unfold generatePersistentDTLSCertificate. intros H. repeat (apply result_bind_ok in H as (? & _ & H)).
  injection H as <-. by eexists.
Qed.

(** No call fails, and no other process interferes with the file. *)
Record calm (env : file_env) (path : bytes) : Prop := {
  calm_calls : fail_Lstat env = None ∧ fail_ReadFile env = None ∧ fail_CreateTemp env = None ∧ fail_Chmod env = None ∧
    fail_Write env = None ∧ fail_Sync env = None ∧ fail_Close env = None ∧ fail_Link env = None;
  calm_fs fs : fs !! path = None → interference env fs !! path = None;
  calm_temp : temp_name env ≠ path;
}.

(** A first start with one path for certificate and key creates the identity: the
    new file holds the generated certificate and key with mode 0600, the
    temporary file is gone, and the identity is the one generated.  The
    hypothesis on the library is that a pair written as PEM reads back. *)
Theorem first_start_creates lib env clean stat_link other path fs cert der pk :
  windows env = false → TrimSpace path ≠ [] → fs !! Clean path = None → calm env (Clean path) →
  generatePersistentDTLSCertificate lib = Ok cert → Certificate cert = [der] → der ≠ [] →
  MarshalPKCS8PrivateKey lib (PrivateKey cert) = Ok pk →
  X509KeyPair lib (encode_identity lib der pk) (encode_identity lib der pk) = Ok cert →
  is_ok (certificateCipherSuite lib cert) = true →
  ∃ id fs', loadServerDTLSIdentity lib env clean stat_link other path path fs = (Ok id, fs') ∧
    id_certificate id = cert ∧ id_fingerprint id = Sum256 lib der ∧ id_ephemeral id = false ∧
    fs' !! Clean path = Some (Regular 384 (encode_identity lib der pk)) ∧ fs' !! temp_name env = None.
Proof.
  intros Hw Hset Habs [(L1 & L2 & L3 & L4 & L5 & L6 & L7 & L8) Hfs Htemp] Hgen Hder Hne Hpk Hpair Hsuite.
  assert (∀ p, name env clean p = Clean p) as Hname by (intros; unfold name; by rewrite Hw).
  set (file := Regular 384 (encode_identity lib der pk)).
  set (fs1 := delete (temp_name env) (<[Clean path := file]> (interference env (<[temp_name env := file]> fs)))).
  assert (ensure_identity_file lib env clean stat_link path path fs = (Ok tt, fs1)) as Hens.
  { unfold ensure_identity_file, sameIdentityPath, stat. rewrite Hw, bool_decide_eq_true_2, L1, Hname, Habs by done.
    cbn [errors_is not_exist err_chain]. unfold createPersistentDTLSIdentity. rewrite Hgen. cbn [map_err].
    rewrite Hder, Hpk, L3, L4, L5, L6, L7, L8. cbn [map_err]. cbv zeta. rewrite Hname.
    rewrite Hfs; [done|]. by rewrite lookup_insert_ne. }
  assert (fs1 !! Clean path = Some file) as Hfile.
  { unfold fs1. rewrite lookup_delete_ne by done. by rewrite lookup_insert_eq. }
  assert (∃ id, finish_identity lib cert false = Ok id ∧ id_certificate id = cert) as (id & Hid & Hcert).
  { destruct (generated_leaf lib cert Hgen) as [leaf Hleaf]. unfold finish_identity. rewrite Hleaf.
    cbn [result_bind]. rewrite Hder. destruct der as [|x der]; [done|]. cbn [CertificateFingerprint]. cbn [result_bind].
    destruct (certificateCipherSuite lib cert); [by eexists|done]. }
  exists id, fs1. split; [|].
  - apply load_files_ok; [done|done|]. split; [done|]. split; [done|].
    split; [by apply finish_identity_ok in Hid as [? _]|]. rewrite Hname. split; [by exists 384, (encode_identity lib der pk)|].
    exists cert. split; [|done]. unfold LoadX509KeyPair, read_file. by rewrite L2, Hname, Hfile.
  - pose proof (finish_identity_ok lib _ _ _ Hid) as (He & (d & rest & leaf & Hd & _ & _ & Hfp & _) & _).
    split; [done|]. rewrite Hcert, Hder in Hd. injection Hd as <- <-. split; [done|]. split; [done|]. split; [done|].
    unfold fs1. apply lookup_delete_eq.
Qed.

(** *** A concrete library *)

Definition sample_certificate : certificate := MkCertificate [str "der"] (str "key") (Some (MkLeaf ECDSAKey)).

Definition sample_lib : crypto :=
  MkCrypto (Ok (str "key")) (λ _, Ok 7) 0 (λ _ _, Ok (str "der")) (λ _, Ok (MkLeaf ECDSAKey)) (λ k, Ok k)
    (λ kind c, kind ++ str ":" ++ c) (λ _ _, Ok sample_certificate) (Ok sample_certificate) (λ d, d).

Definition sample_env : file_env :=
  FileEnv false None None None None None None None None None (str ".id.tmp-1") [] (λ fs, fs).

Definition no_files : filesystem := ∅.

Definition sample_load (fs : filesystem) : result serverDTLSIdentity * filesystem :=
  loadServerDTLSIdentity sample_lib sample_env (λ p, p) None (λ _, Err not_exist) (str "id.pem") (str "./id.pem") fs.

Lemma identity_sound_witness : ∃ id fs', sample_load no_files = (Ok id, fs') ∧ consistent sample_lib id ∧ id_ephemeral id = false.
Proof.
  destruct (sample_load no_files) as [[id|e] fs'] eqn:E; [|exfalso; vm_compute in E; discriminate E].
  destruct (identity_sound sample_lib sample_env (λ p, p) None (λ _, Err not_exist) (str "id.pem") (str "./id.pem") no_files
    id fs' E) as (Hc & _ & He & _).
  exists id, fs'. split; [reflexivity|]. split; [exact Hc|exact He].
Defined.

Lemma identity_survives_restart_witness : ∃ id fs', sample_load no_files = (Ok id, fs') ∧ sample_load fs' = (Ok id, fs').
Proof.
  destruct (sample_load no_files) as [[id|e] fs'] eqn:E; [|exfalso; vm_compute in E; discriminate E].
  exists id, fs'. split; [reflexivity|].
  apply (identity_survives_restart sample_lib sample_lib sample_env sample_env (λ p, p) None (λ _, Err not_exist)
    (str "id.pem") (str "./id.pem") no_files id fs'); [reflexivity|reflexivity|discriminate|discriminate|repeat split|reflexivity|reflexivity|exact E].
Defined.

Lemma first_start_creates_witness : ∃ id fs',
  loadServerDTLSIdentity sample_lib sample_env (λ p, p) None (λ _, Err not_exist) (str "id.pem") (str "id.pem") no_files = (Ok id, fs') ∧
  id_fingerprint id = str "der".
Proof.
  destruct (first_start_creates sample_lib sample_env (λ p, p) None (λ _, Err not_exist) (str "id.pem") no_files
    sample_certificate (str "der") (str "key")) as (id & fs' & H & _ & Hf & _);
    [reflexivity|discriminate|reflexivity| |reflexivity|reflexivity|discriminate|reflexivity|reflexivity|reflexivity|].
  - split; [repeat split|done|discriminate].
  - exists id, fs'. split; [exact H|exact Hf].
Defined.
End Identity.
