(* ===== verification/Diagnostics.v ===== *)
(** * Loopback diagnostics (diagnostics/server.go, diagnostics/flags.go)

    The file covers the whole package: the options and the token file, the
    checks made before a listener is opened, and the request path
    [securityHeaders (requireBearerToken (mux))] with the routing of
    [http.ServeMux] it relies on.  A handler is a function on the response
    writer.  The operating system is a parameter: the environment and the file
    system seen by [Options.Config], and [net.Listen] as seen by [Start]. *)

From S2P Require Import Prelude GoStrings GoIP Metrics.

Module Diagnostics.

Definition diagnosticsTokenHexLength : nat := 64.
Definition maxTokenFileBytes : nat := 4096.

(** ** Tokens *)

Definition token_error : goerror :=
  errorf (str "diagnostics Bearer token must contain exactly 64 hexadecimal characters").

Definition decodeToken (token : bytes) : result bytes :=
  if negb (length token =? diagnosticsTokenHexLength)%nat then Err token_error
  else match DecodeString token with
       | None => Err token_error
       | Some decoded => Ok decoded
       end.

(** ** Configuration *)

Record Config := MkConfig { ListenAddress : bytes; BearerToken : bytes; EnablePprof : bool }.

Definition zero_config : Config := MkConfig [] [] false.

Definition validateLoopbackAddress (address : bytes) : result unit :=
  let? '(host, port) := map_err (errorf_w (str "invalid diagnostics listen address: "))
                          (SplitHostPort address) in
  let ip := ParseIP host in
  if bool_decide (ip = []) || negb (IsLoopback ip) then
    Err (errorf (str "diagnostics listen host must be a literal loopback IP address"))
  else
    let bad := Err (errorf (str "diagnostics listen port must be in 0..65535")) in
    match Atoi port with
    | Err _ => bad
    | Ok portNumber => if (portNumber <? 0) || (portNumber >? 65535) then bad else Ok tt
    end.

Definition Validate (c : Config) : result unit :=
  let listenAddress := TrimSpace (ListenAddress c) in
  if bool_decide (listenAddress = []) then
    if EnablePprof c || negb (bool_decide (BearerToken c = [])) then
      Err (errorf (str "diagnostics options require a listen address"))
    else Ok tt
  else
    let? _ := validateLoopbackAddress listenAddress in
    let? _ := decodeToken (TrimSpace (BearerToken c)) in
    Ok tt.

(** The command-line options; [RegisterFlags] starts from the zero value. *)
Record Options := MkOptions { opt_listen : bytes; opt_token_file : bytes; opt_pprof : bool }.

Definition default_options : Options := MkOptions [] [] false.

(** An opened file: what [Stat] says of it and what reading gives. *)
Record file := MkFile {
  stat_err : option goerror; regular : bool; perm : Z;
  content : bytes; read_err : option goerror;
}.

Section Environment.

(** [os.Open], [os.Getenv(TokenEnvironmentVariable)] and [runtime.GOOS == "windows"]. *)
Context (open_file : bytes → result file) (token_env : bytes) (windows : bool).

Definition readTokenFile (path : bytes) : result bytes :=
  let? f := map_err (errorf_w (str "open diagnostics token file: ")) (open_file path) in
  match stat_err f with
  | Some e => Err (errorf_w (str "stat diagnostics token file: ") e)
  | None =>
      if negb (regular f) then Err (errorf (str "diagnostics token file must be a regular file"))
      else if negb windows && negb (Z.land (perm f) 63 =? 0) then
        Err (errorf (str "diagnostics token file permissions must not allow group or other access"))
      else match read_err f with
           | Some e => Err (errorf_w (str "read diagnostics token file: ") e)
           | None =>
               let data := take (maxTokenFileBytes + 1) (content f) in
               if (maxTokenFileBytes <? length data)%nat then
                 Err (errorf (str "diagnostics token file is too large"))
               else
                 let token := TrimSpace data in
                 let? _ := decodeToken token in
                 Ok token
           end
  end.

(** [Options.Config] *)
Definition options_Config (o : Options) : result Config :=
  let listenAddress := TrimSpace (opt_listen o) in
  let tokenFile := TrimSpace (opt_token_file o) in
  if bool_decide (listenAddress = []) then
    if opt_pprof o then Err (errorf (str "-diagnostics-pprof requires -diagnostics-listen"))
    else if negb (bool_decide (tokenFile = [])) then
      Err (errorf (str "-diagnostics-token-file requires -diagnostics-listen"))
    else Ok zero_config
  else
    let? token := if negb (bool_decide (tokenFile = [])) then readTokenFile tokenFile
                  else Ok (TrimSpace token_env) in
    let config := MkConfig listenAddress token (opt_pprof o) in
    let? _ := Validate config in
    Ok config.

End Environment.

(** ** Requests and responses *)

(** What the handlers look at: [r.Method], [r.URL.Path] (of a URL without
    percent-encoding), the [Authorization] header and the [seconds] query
    value, the last two empty when absent. *)
Record Request := MkRequest {
  Method : string; URL_Path : bytes; Authorization : bytes; seconds : bytes;
}.

Inductive pprof_handler := pprof_Index | pprof_Cmdline | pprof_Profile | pprof_Symbol | pprof_Trace.

#[export] Instance pprof_handler_eq_dec : EqDecision pprof_handler.
Proof. solve_decision. Defined.

(** The body written: a JSON document, a line of text, or the output of a
    runtime profile handler. *)
Inductive body :=
  | Empty
  | HealthJSON
  | SnapshotJSON (s : Metrics.Snapshot)
  | Text (line : bytes)
  | Pprof (h : pprof_handler) (raw_seconds : bytes).

Record ResponseWriter := MkWriter { header : gmap string string; status : Z; written : body }.

#[export] Instance ResponseWriter_eta : Eta ResponseWriter :=
  λ w, MkWriter (header w) (status w) (written w).

(** The writer [net/http] hands to the outermost handler. *)
Definition fresh_writer : ResponseWriter := MkWriter ∅ 200 Empty.

Definition Handler := Request → ResponseWriter → ResponseWriter.

Definition set_header (k v : string) (w : ResponseWriter) : ResponseWriter :=
  w <| header ::= <[k:=v]> |>.

Definition http_Error (line : bytes) (st : Z) (w : ResponseWriter) : ResponseWriter :=
  let w := w <| header ::= delete "Content-Length"%string |> in
  let w := set_header "Content-Type" "text/plain; charset=utf-8" w in
  let w := set_header "X-Content-Type-Options" "nosniff" w in
  MkWriter (header w) st (Text line).

(** *** [http.ServeMux] *)

(** [path.Clean] of a rooted path, by segments. *)
Definition clean_segments (segs : list bytes) : list bytes :=
  foldl (λ out s,
    if bool_decide (s = []) || bool_decide (s = str ".") then out
    else if bool_decide (s = str "..") then take (length out - 1) out
    else out ++ [s]) [] segs.

Definition cleanPath (p : bytes) : bytes :=
  if bool_decide (p = []) then str "/"
  else
    let p := if bool_decide (head p = Some "/"%char) then p else str "/" ++ p in
    let segs := clean_segments (split_on "/"%char p) in
    let np := str "/" ++ Join segs (str "/") in
    if bool_decide (last p = Some "/"%char) && negb (bool_decide (np = str "/"))
    then np ++ str "/" else np.

Definition mux_path (r : Request) : bytes :=
  if bool_decide (Method r = "CONNECT"%string) then URL_Path r else cleanPath (URL_Path r).

Definition moved_permanently (p : bytes) (w : ResponseWriter) : ResponseWriter :=
  let w := set_header "Location" (String.string_of_list_ascii p) w in
  MkWriter (header w) 301 (Text (str "Moved Permanently")).

(** A mux: the handler of a path, and the trailing-slash paths it redirects to. *)
Definition ServeMux (route : bytes → option Handler) (tree : bytes → bool) : Handler := λ r w,
  let path := mux_path r in
  match route path with
  | None =>
      if tree path then moved_permanently (cleanPath (URL_Path r) ++ str "/") w
      else if negb (bool_decide (path = URL_Path r)) then moved_permanently path w
      else http_Error (str "404 page not found") 404 w
  | Some h =>
      if negb (bool_decide (path = URL_Path r)) then moved_permanently path w
      else h r w
  end.

(** A pattern with a method: [GET] also matches [HEAD]; other methods get 405. *)
Definition get_only (h : Handler) : Handler := λ r w,
  if bool_decide (Method r = "GET"%string) || bool_decide (Method r = "HEAD"%string) then h r w
  else http_Error (str "Method Not Allowed") 405 (set_header "Allow" "GET, HEAD" w).

(** ** The handlers *)

Definition readOnlyJSON (snapshot : unit → body) : Handler := λ r w,
  if negb (bool_decide (Method r = "GET"%string)) && negb (bool_decide (Method r = "HEAD"%string)) then
    http_Error (str "method not allowed") 405 (set_header "Allow" "GET, HEAD" w)
  else
    let w := set_header "Content-Type" "application/json; charset=utf-8" w in
    MkWriter (header w) (status w) (snapshot tt).

Definition bearer_challenge : string :=
  String.string_of_list_ascii (str "Bearer realm=" ++ quote (str "vk-turn-proxy diagnostics")).

Definition requireBearerToken (token : bytes) (next : Handler) : Handler := λ r w,
  let '(scheme, rawToken, ok) := Cut (TrimSpace (Authorization r)) " "%char in
  let supplied := decodeToken (TrimSpace rawToken) in
  let matches := match supplied with Err _ => false | Ok t => bool_decide (token = t) end in
  if negb ok || negb (equal_fold_ascii scheme (str "Bearer")) || negb matches then
    http_Error (str "unauthorized") 401
      (set_header "WWW-Authenticate" bearer_challenge w)
  else next r w.

Definition securityHeaders (next : Handler) : Handler := λ r w,
  next r (set_header "X-Content-Type-Options" "nosniff" (set_header "Cache-Control" "no-store" w)).

Definition pprof_limit (path : bytes) : Z :=
  if bool_decide (path = str "/debug/pprof/trace") then 15 else 60.

Definition limitPprofDuration (next : Handler) : Handler := λ r w,
  let limit := pprof_limit (URL_Path r) in
  let reject := http_Error (str "seconds must be in 1.." ++ Itoa limit) 400 w in
  if bool_decide (seconds r = []) then next r w
  else match Atoi (seconds r) with
       | Err _ => reject
       | Ok n => if (n <? 1) || (n >? limit) then reject else next r w
       end.

Definition run_pprof (h : pprof_handler) : Handler := λ r w,
  MkWriter (header w) (status w) (Pprof h (seconds r)).

Definition pprof_prefix : bytes := str "/debug/pprof/".

Definition pprof_route (path : bytes) : option Handler :=
  if bool_decide (path = str "/debug/pprof/cmdline") then Some (get_only (run_pprof pprof_Cmdline))
  else if bool_decide (path = str "/debug/pprof/profile") then Some (get_only (run_pprof pprof_Profile))
  else if bool_decide (path = str "/debug/pprof/symbol") then Some (get_only (run_pprof pprof_Symbol))
  else if bool_decide (path = str "/debug/pprof/trace") then Some (get_only (run_pprof pprof_Trace))
  else if has_prefix pprof_prefix path then Some (get_only (run_pprof pprof_Index))
  else None.

Definition pprof_tree (path : bytes) : bool := bool_decide (path = str "/debug/pprof").

(** The patterns registered on the outer mux. *)
Definition main_route (snapshot : unit → Metrics.Snapshot) (enablePprof : bool) (path : bytes) : option Handler :=
  if bool_decide (path = str "/healthz") then Some (readOnlyJSON (λ _, HealthJSON))
  else if bool_decide (path = str "/metrics") then Some (readOnlyJSON (λ _, SnapshotJSON (snapshot tt)))
  else if enablePprof && has_prefix pprof_prefix path then
    Some (limitPprofDuration (ServeMux pprof_route pprof_tree))
  else None.

Definition newHandler (snapshot : unit → Metrics.Snapshot) (token : bytes) (enablePprof : bool) : Handler :=
  securityHeaders (requireBearerToken token
    (ServeMux (main_route snapshot enablePprof) (λ p, enablePprof && pprof_tree p))).

(** ** The server *)

Inductive net_addr := TCPAddr (ip : IP) (port : Z) | OtherAddr.

Record Server := MkServer {
  handler : Handler; listener : net_addr;
  done_closed : bool; close_done : bool; closeErr : option goerror; serveErr : option goerror;
}.

#[export] Instance Server_eta : Eta Server := λ s,
  MkServer (handler s) (listener s) (done_closed s) (close_done s) (closeErr s) (serveErr s).

(** What [Start] leaves behind: no listener was opened, one was opened and
    closed again, or one is open. *)
Inductive listener_state := Unopened | Closed (a : net_addr) | Open (a : net_addr).

(** [Start]: [listen] is [net.Listen("tcp", _)]; [registry] gives the snapshot
    function when it is not nil. *)
Definition Start (listen : bytes → result net_addr) (ctx_nil : bool) (config : Config)
    (registry : option (unit → Metrics.Snapshot)) : result (option Server) * listener_state :=
  let config := MkConfig (TrimSpace (ListenAddress config)) (TrimSpace (BearerToken config))
                  (EnablePprof config) in
  match Validate config with
  | Err e => (Err e, Unopened)
  | Ok _ =>
      if bool_decide (ListenAddress config = []) then (Ok None, Unopened)
      else if ctx_nil then (Err (errorf (str "diagnostics context must not be nil")), Unopened)
      else match registry with
           | None => (Err (errorf (str "diagnostics metrics registry must not be nil")), Unopened)
           | Some snapshot =>
               let token := match decodeToken (BearerToken config) with Ok t => t | Err _ => replicate 32 (chr 0) end in
               match listen (ListenAddress config) with
               | Err e => (Err (errorf_w (str "listen for diagnostics: ") e), Unopened)
               | Ok a =>
                   let outside :=
                     match a with TCPAddr ip _ => bool_decide (ip = []) || negb (IsLoopback ip) | OtherAddr => true end in
                   if outside then (Err (errorf (str "diagnostics listener resolved outside loopback")), Closed a)
                   else (Ok (Some (MkServer (newHandler snapshot token (EnablePprof config)) a
                                     false false None None)), Open a)
               end
           end
  end.

(** [serve], when [http.Server.Serve] has returned [err]. *)
Definition unless_closed (e : option goerror) : option goerror :=
  match e with Some e => if errors_is ErrServerClosed e then None else Some e | None => None end.

Definition serve (err : option goerror) (s : Server) : Server :=
  s <| serveErr := unless_closed err |> <| done_closed := true |>.

Definition Addr (s : option Server) : option net_addr := listener <$> s.
Definition is_done (s : option Server) : bool := match s with None => true | Some s => done_closed s end.
Definition server_Err (s : option Server) : option goerror := s ≫= serveErr.

(** [Close]: the two arguments are what [Shutdown] and [http.Server.Close]
    return should they be called. *)
Definition Close (shutdownErr closeErr' : option goerror) (s : option Server)
  : option goerror * option Server :=
  match s with
  | None => (None, None)
  | Some s =>
      let s := if close_done s then s
               else s <| close_done := true |>
                      <| closeErr := errors_join (option_list (unless_closed shutdownErr) ++
                                                  option_list (unless_closed closeErr')) |> in
      (closeErr s, Some s)
  end.

(** ** Lemmas *)

Lemma decodeToken_ok s t : decodeToken s = Ok t ↔ DecodeString s = Some t ∧ length t = 32%nat.
Proof.
  unfold decodeToken, diagnosticsTokenHexLength. destruct (DecodeString s) as [d|] eqn:E.
  - pose proof (length_DecodeString _ _ E). destruct (Nat.eqb_spec (length s) 64); simpl.
    + split; [intros [= ->]; split; [done|lia]|by intros [[= ->] _]].
    + split; [done|]. intros [[= ->] ?]. lia.
  - destruct (_ =? _)%nat; simpl; naive_solver.
Qed.

Lemma Cut_spec s sep a b ok : Cut s sep = (a, b, ok) →
  sep ∉ a ∧ (if ok then s = a ++ (sep :: b) else s = a ∧ b = []).
Proof.
  revert a b ok. induction s as [|c s IH]; intros a b ok; simpl.
  { intros [= <- <- <-]. split; [apply not_elem_of_nil|done]. }
  destruct (Ascii.eqb_spec c sep) as [->|Hne].
  { intros [= <- <- <-]. split; [apply not_elem_of_nil|done]. }
  destruct (Cut s sep) as [[a' b'] ok'] eqn:E. intros [= <- <- <-].
  destruct (IH _ _ _ eq_refl) as [Hin Hs]. split; [by apply not_elem_of_cons|].
  destruct ok'; [by rewrite Hs|]. by destruct Hs as [-> ->].
Qed.

Lemma Cut_app sep a b : sep ∉ a → Cut (a ++ sep :: b) sep = (a, b, true).
Proof.
  induction a as [|c a IH]; simpl.
  { intros _. by rewrite ascii_eqb_refl. }
  intros [Hne Hin]%not_elem_of_cons. rewrite IH by done.
  by destruct (Ascii.eqb_spec c sep) as [->|].
Qed.

(** *** Authorization *)

(** The [Authorization] header carries [token]: the scheme [Bearer] in any
    case, one space, and the 64 hexadecimal digits of the token, surrounding
    white space aside. *)
Definition authorizes (token auth : bytes) : Prop :=
  ∃ scheme raw, TrimSpace auth = scheme ++ (" "%char :: raw) ∧ " "%char ∉ scheme ∧
    (lower_ascii <$> scheme) = str "bearer" ∧
    DecodeString (TrimSpace raw) = Some token ∧ length token = 32%nat.

Definition unauthorized (w : ResponseWriter) : ResponseWriter :=
  http_Error (str "unauthorized") 401 (set_header "WWW-Authenticate" bearer_challenge w).

Lemma requireBearerToken_spec token next r w :
  (authorizes token (Authorization r) ∧ requireBearerToken token next r w = next r w) ∨
  (¬ authorizes token (Authorization r) ∧ requireBearerToken token next r w = unauthorized w).
Proof.
  unfold requireBearerToken, authorizes, equal_fold_ascii.
  destruct (Cut (TrimSpace (Authorization r)) " "%char) as [[scheme raw] ok] eqn:E.
  assert (∀ sch raw', TrimSpace (Authorization r) = sch ++ " "%char :: raw' → " "%char ∉ sch →
            ok = true ∧ sch = scheme ∧ raw' = raw) as Huniq.
  { intros sch raw' Heq Hin. rewrite Heq, Cut_app in E by done. by simplify_eq. }
  apply Cut_spec in E as [Hin E]. destruct ok; simpl.
  2: { right. split; [|done]. intros (sch & raw' & Heq & Hin' & _). by destruct (Huniq _ _ Heq Hin'). }
  change (lower_ascii <$> str "Bearer") with (str "bearer").
  case_bool_decide as Hs; simpl.
  2: { right. split; [|done]. intros (sch & raw' & Heq & Hin' & Hl & _).
       by destruct (Huniq _ _ Heq Hin') as (_ & -> & ->). }
  destruct (decodeToken (TrimSpace raw)) as [t|e] eqn:D; simpl.
  - apply decodeToken_ok in D as [D Hlen]. case_bool_decide as Ht; simpl.
    + subst t. left. split; [|done]. by exists scheme, raw.
    + right. split; [|done]. intros (sch & raw' & Heq & Hin' & Hl & D' & _).
      destruct (Huniq _ _ Heq Hin') as (_ & -> & ->). by simplify_eq.
  - right. split; [|done]. intros (sch & raw' & Heq & Hin' & Hl & D').
    destruct (Huniq _ _ Heq Hin') as (_ & -> & ->).
    apply decodeToken_ok in D'. by rewrite D' in D.
Qed.

(** *** Response headers *)

Definition secure (w : ResponseWriter) : Prop :=
  header w !! "Cache-Control"%string = Some "no-store"%string ∧
  header w !! "X-Content-Type-Options"%string = Some "nosniff"%string.

(** A handler that leaves the two security headers in place. *)
Definition keeps_secure (h : Handler) : Prop := ∀ r w, secure w → secure (h r w).

Lemma secure_set k v w : k ≠ "Cache-Control"%string → k ≠ "X-Content-Type-Options"%string →
  secure w → secure (set_header k v w).
Proof. intros ?? [Hc Hx]. split; simpl; by rewrite lookup_insert_ne by done. Qed.

Lemma secure_written w st b : secure w → secure (MkWriter (header w) st b).
Proof. done. Qed.

Lemma secure_http_Error line st w : secure w → secure (http_Error line st w).
Proof.
  intros [Hc Hx]. split; simpl.
  - by rewrite !lookup_insert_ne, lookup_delete_ne by done.
  - by rewrite lookup_insert_eq.
Qed.

Lemma secure_moved p w : secure w → secure (moved_permanently p w).
Proof. intros ?. by apply secure_written, secure_set. Qed.

Create HintDb secure.
#[local] Hint Resolve secure_set secure_written secure_http_Error secure_moved : secure.
#[local] Hint Extern 1 (_ ≠ _) => discriminate : secure.

Lemma secure_readOnlyJSON f : keeps_secure (readOnlyJSON f).
Proof. intros r w ?. unfold readOnlyJSON. case_match; auto 6 with secure. Qed.

Lemma secure_get_only h : keeps_secure (get_only (run_pprof h)).
Proof. intros r w ?. unfold get_only, run_pprof. case_match; auto 6 with secure. Qed.

Lemma secure_ServeMux route tree :
  (∀ p h, route p = Some h → keeps_secure h) → keeps_secure (ServeMux route tree).
Proof.
  intros Hr r w Hw. unfold ServeMux. destruct (route (mux_path r)) as [h|] eqn:E.
  - case_match; [auto with secure|]. by eapply Hr.
  - repeat case_match; auto with secure.
Qed.

Lemma secure_pprof : keeps_secure (limitPprofDuration (ServeMux pprof_route pprof_tree)).
Proof.
  assert (keeps_secure (ServeMux pprof_route pprof_tree)) as Hmux.
  { apply secure_ServeMux. intros p h. unfold pprof_route.
    repeat case_match; intros [= <-]; apply secure_get_only. }
  intros r w ?. unfold limitPprofDuration. repeat case_match; auto with secure.
Qed.

(** *** Bodies *)

Definition is_text (b : body) : bool := match b with Text _ => true | _ => false end.

(** A response that is not a line of text comes from the handler registered for
    the request's own path. *)
Lemma ServeMux_body route tree r w : is_text (written (ServeMux route tree r w)) = false →
  ∃ h, route (URL_Path r) = Some h ∧ ServeMux route tree r w = h r w.
Proof.
  unfold ServeMux. destruct (route (mux_path r)) as [h|] eqn:E.
  - case_bool_decide as Hp; simpl; [|done]. rewrite Hp in E. by exists h.
  - repeat case_match; done.
Qed.

Definition read_method (r : Request) : Prop := Method r = "GET"%string ∨ Method r = "HEAD"%string.

Lemma readOnlyJSON_body f r w : is_text (written (readOnlyJSON f r w)) = false →
  read_method r ∧ written (readOnlyJSON f r w) = f tt.
Proof.
  unfold readOnlyJSON, read_method. repeat case_bool_decide; simpl; naive_solver.
Qed.

Lemma get_only_body h r w : is_text (written (get_only (run_pprof h) r w)) = false →
  read_method r ∧ written (get_only (run_pprof h) r w) = Pprof h (seconds r).
Proof. unfold get_only, read_method. repeat case_bool_decide; simpl; naive_solver. Qed.

(** How long a handler of [net/http/pprof] records, in seconds: its default
    without a positive [seconds] value.  [Trace] also reads fractions, which
    [limitPprofDuration] does not let through. *)
Definition pprof_seconds (h : pprof_handler) (raw : bytes) : Z :=
  let asked other := match Atoi raw with Ok n => if n >? 0 then n else other | Err _ => other end in
  match h with
  | pprof_Profile => asked 30
  | pprof_Trace => asked 1
  | pprof_Index => if bool_decide (raw = []) then 0 else asked 0
  | pprof_Cmdline | pprof_Symbol => 0
  end.

Lemma pprof_seconds_le h raw limit : 1 ≤ limit → (h = pprof_Profile → 30 ≤ limit) →
  (raw = [] ∨ ∃ n, Atoi raw = Ok n ∧ 1 ≤ n ≤ limit) → pprof_seconds h raw ≤ limit.
Proof.
  intros H1 H30 Hraw. assert (∀ d, d ≤ limit →
    match Atoi raw with Ok n => if n >? 0 then n else d | Err _ => d end ≤ limit) as Ha.
  { intros d Hd. destruct Hraw as [-> | (n & -> & Hn)]; [done|]. by destruct (Z.gtb_spec n 0); [lia|]. }
  destruct h; simpl; [|lia| |lia|]; [|apply Ha; auto|by apply Ha].
  case_bool_decide; [lia|]. apply Ha. lia.
Qed.

Lemma limit_body next r w : is_text (written (limitPprofDuration next r w)) = false →
  limitPprofDuration next r w = next r w ∧
  (seconds r = [] ∨ ∃ n, Atoi (seconds r) = Ok n ∧ 1 ≤ n ≤ pprof_limit (URL_Path r)).
Proof.
  unfold limitPprofDuration. case_bool_decide; [by auto|].
  destruct (Atoi (seconds r)) as [n|e]; [|done].
  destruct (Z.ltb_spec n 1); [done|]. destruct (Z.gtb_spec n (pprof_limit (URL_Path r))); simpl; [done|].
  intros _. split; [done|]. right. exists n. split; [done|lia].
Qed.

Lemma pprof_route_cases path h : pprof_route path = Some h →
  ∃ p, h = get_only (run_pprof p) ∧ (path = str "/debug/pprof/trace" → p = pprof_Trace) ∧
       (p = pprof_Trace → path = str "/debug/pprof/trace").
Proof.
  unfold pprof_route. repeat case_bool_decide; intros; simplify_eq; [eexists; (split; [done|]); split; try done; by subst..|].
  case_match; simplify_eq. by eexists.
Qed.

Lemma main_route_cases snapshot enable path h : main_route snapshot enable path = Some h →
  (path = str "/healthz" ∧ h = readOnlyJSON (λ _, HealthJSON)) ∨
  (path = str "/metrics" ∧ h = readOnlyJSON (λ _, SnapshotJSON (snapshot tt))) ∨
  (enable = true ∧ has_prefix pprof_prefix path = true ∧
   h = limitPprofDuration (ServeMux pprof_route pprof_tree)).
Proof.
  unfold main_route. case_bool_decide; [intros [= <-]; auto|]. case_bool_decide; [intros [= <-]; auto|].
  destruct enable; [|done]. destruct (has_prefix pprof_prefix path); [|done]. intros [= <-]. auto.
Qed.

Lemma pprof_body r w : let w' := limitPprofDuration (ServeMux pprof_route pprof_tree) r w in
  is_text (written w') = false → read_method r ∧
  ∃ p, written w' = Pprof p (seconds r) ∧ (p = pprof_Trace → URL_Path r = str "/debug/pprof/trace") ∧
       (seconds r = [] ∨ ∃ n, Atoi (seconds r) = Ok n ∧ 1 ≤ n ≤ pprof_limit (URL_Path r)).
Proof.
  intros w' Htext. destruct (limit_body _ _ _ Htext) as [Hn Hs]. subst w'. rewrite Hn in Htext |- *.
  destruct (ServeMux_body _ _ _ _ Htext) as (h' & Hr' & Hm). rewrite Hm in Htext |- *.
  destruct (pprof_route_cases _ _ Hr') as (p & -> & _ & Ht).
  destruct (get_only_body _ _ _ Htext) as [Hm' ->]. eauto 10.
Qed.

(** What an authorized request whose answer is not text gets. *)
Lemma handler_body snapshot token enable r w : let w' := newHandler snapshot token enable r w in
  is_text (written w') = false → authorizes token (Authorization r) ∧ read_method r ∧
  ((URL_Path r = str "/healthz" ∧ written w' = HealthJSON) ∨
   (URL_Path r = str "/metrics" ∧ written w' = SnapshotJSON (snapshot tt)) ∨
   (enable = true ∧ has_prefix pprof_prefix (URL_Path r) = true ∧
    ∃ p, written w' = Pprof p (seconds r) ∧ (p = pprof_Trace → URL_Path r = str "/debug/pprof/trace") ∧
         (seconds r = [] ∨ ∃ n, Atoi (seconds r) = Ok n ∧ 1 ≤ n ≤ pprof_limit (URL_Path r)))).
Proof.
  unfold newHandler, securityHeaders. cbv zeta.
  match goal with |- context [requireBearerToken token ?next r ?w0] =>
    destruct (requireBearerToken_spec token next r w0) as [[Ha ->]|[_ ->]]; [|done] end.
  intros Htext. destruct (ServeMux_body _ _ _ _ Htext) as (h & Hroute & Heq).
  rewrite Heq in Htext |- *. split; [done|].
  destruct (main_route_cases _ _ _ _ Hroute) as [[Hp ->]|[[Hp ->]|(He & Hp & ->)]].
  - destruct (readOnlyJSON_body _ _ _ Htext). auto.
  - destruct (readOnlyJSON_body _ _ _ Htext). auto.
  - destruct (pprof_body _ _ Htext) as [? ?]. auto 6.
Qed.

Lemma handler_secure snapshot token enable r w : secure (newHandler snapshot token enable r w).
Proof.
  unfold newHandler, securityHeaders. set (w1 := set_header "X-Content-Type-Options" _ _).
  assert (secure w1) as Hw1.
  { split; simpl; [by rewrite lookup_insert_ne, lookup_insert_eq by done|by rewrite lookup_insert_eq]. }
  match goal with |- context [requireBearerToken token ?next r ?w0] =>
    destruct (requireBearerToken_spec token next r w0) as [[_ ->]|[_ ->]] end.
  2: { unfold unauthorized. by apply secure_http_Error, secure_set. }
  apply secure_ServeMux; [|done]. intros p h Hh.
  destruct (main_route_cases _ _ _ _ Hh) as [[_ ->]|[[_ ->]|(_ & _ & ->)]];
    auto using secure_readOnlyJSON, secure_pprof.
Qed.

(** ** Theorems *)

Definition snapshot_of (r : Metrics.Registry) : unit → Metrics.Snapshot := λ _, Metrics.take_snapshot None r.

(** C34: access control of the diagnostics endpoint, for every request.  Every
    response, errors included, is marked uncacheable and unsniffable; without
    an [Authorization] header carrying the configured token the response is
    401 and only says so; a metrics snapshot is sent exactly for an authorized
    [GET] or [HEAD] of [/metrics]. *)
Theorem diagnostics_access snapshot token enable r :
  let w := newHandler snapshot token enable r fresh_writer in
  secure w ∧
  (¬ authorizes token (Authorization r) → status w = 401 ∧ written w = Text (str "unauthorized")) ∧
  (authorizes token (Authorization r) ∧ read_method r ∧ URL_Path r = str "/metrics" ↔
   ∃ s, written w = SnapshotJSON s) ∧
  (∀ s, written w = SnapshotJSON s → s = snapshot tt ∧ status w = 200).
Proof.
  cbv zeta. split; [apply handler_secure|]. split.
  { unfold newHandler, securityHeaders. intros Hn.
    match goal with |- context [requireBearerToken token ?next r ?w0] =>
      by destruct (requireBearerToken_spec token next r w0) as [[? _]|[_ ->]] end. }
  assert (authorizes token (Authorization r) ∧ read_method r ∧ URL_Path r = str "/metrics" →
    written (newHandler snapshot token enable r fresh_writer) = SnapshotJSON (snapshot tt) ∧
    status (newHandler snapshot token enable r fresh_writer) = 200) as Hyes.
  { intros (Ha & Hm & Hp). unfold newHandler, securityHeaders.
    match goal with |- context [requireBearerToken token ?next r ?w0] =>
      destruct (requireBearerToken_spec token next r w0) as [[_ ->]|[? _]]; [|done] end.
    assert (mux_path r = str "/metrics") as Hmux.
    { unfold mux_path. rewrite Hp. by case_bool_decide. }
    unfold ServeMux. rewrite Hmux, Hp.
    change (main_route snapshot enable (str "/metrics")) with (Some (readOnlyJSON (λ _, SnapshotJSON (snapshot tt)))).
    rewrite bool_decide_eq_true_2 by done. cbn [negb]. unfold readOnlyJSON.
    by destruct Hm as [-> | ->]. }
  assert (∀ s, written (newHandler snapshot token enable r fresh_writer) = SnapshotJSON s →
    authorizes token (Authorization r) ∧ read_method r ∧ URL_Path r = str "/metrics") as Hno.
  { intros s Hs. destruct (handler_body snapshot token enable r fresh_writer) as (Ha & Hm & Hb).
    { by rewrite Hs. }
    rewrite Hs in Hb. destruct Hb as [[_ Hb]|[[Hp _]|(_ & _ & p & Hb & _)]]; done. }
  split; [split; [intros H; exists (snapshot tt); by apply Hyes|intros [s Hs]; by eapply Hno]|].
  intros s Hs. destruct (Hyes (Hno s Hs)) as [Hw ?]. rewrite Hs in Hw. by simplify_eq.
Qed.

(** the profiling endpoints.  A runtime profile is only taken for an
    authorized read request while profiling is enabled, and it never records
    for more than 60 seconds, an execution trace for no more than 15. *)
Theorem pprof_bounded snapshot token enable r h raw :
  written (newHandler snapshot token enable r fresh_writer) = Pprof h raw →
  enable = true ∧ authorizes token (Authorization r) ∧ read_method r ∧
  pprof_seconds h raw ≤ if bool_decide (h = pprof_Trace) then 15 else 60.
Proof.
  intros Hw. destruct (handler_body snapshot token enable r fresh_writer) as (Ha & Hm & Hb).
  { by rewrite Hw. }
  rewrite Hw in Hb. destruct Hb as [[_ Hb]|[[_ Hb]|(He & _ & p & Hb & Ht & Hs)]]; [done..|].
  injection Hb as <- ->. split_and!; [done..|]. unfold pprof_limit in Hs.
  assert (pprof_seconds h (seconds r) ≤ 60) as H60.
  { apply pprof_seconds_le; [done..|]. destruct Hs as [Hs|(n & Hs & Hn)]; [by left|right].
    exists n. split; [done|]. case_bool_decide; lia. }
  destruct (bool_decide_reflect (h = pprof_Trace)) as [Htr|]; [|done]. rewrite bool_decide_eq_true_2 in Hs by auto. subst h.
  by apply pprof_seconds_le.
Qed.

(** the token a user is given opens the endpoint: the hexadecimal text of
    any 32-byte token, sent as [Bearer <hex>], authorizes, and no other
    token's text does. *)
Theorem bearer_roundtrip token other : length token = 32%nat → length other = 32%nat →
  (authorizes token (str "Bearer " ++ EncodeToString other) ↔ token = other).
Proof.
  intros Ht Ho.
  assert (word (EncodeToString other)) as Hw.
  { split; [|apply visible_EncodeToString]. intros E. apply (f_equal length) in E.
    rewrite length_EncodeToString, Ho in E. done. }
  assert (tight (EncodeToString other)) as Htight by (apply (tight_words [_]); auto).
  assert (TrimSpace (str "Bearer " ++ EncodeToString other) = str "Bearer " ++ EncodeToString other) as Hb.
  { apply TrimSpace_tight. apply (tight_words [str "Bearer"; EncodeToString other]); [done|].
    repeat constructor; try done; apply Hw. }
  split.
  - intros (scheme & raw & Heq & Hin & _ & Hdec & _). rewrite Hb in Heq.
    assert (Cut (str "Bearer" ++ " "%char :: EncodeToString other) " "%char = (scheme, raw, true)) as Hc.
    { rewrite <-(Cut_app " "%char scheme raw) by done. by rewrite <-Heq. }
    rewrite Cut_app in Hc by (by vm_compute; set_solver). injection Hc as <- <-.
    rewrite TrimSpace_tight, DecodeString_EncodeToString in Hdec by done. by simplify_eq.
  - intros <-. exists (str "Bearer"), (EncodeToString token). rewrite Hb.
    rewrite TrimSpace_tight, DecodeString_EncodeToString by done.
    split_and!; [done|by vm_compute; set_solver|done..].
Qed.

Lemma validateLoopbackAddress_ok addr : validateLoopbackAddress addr = Ok tt →
  ∃ host port n, SplitHostPort addr = Ok (host, port) ∧ IsLoopback (ParseIP host) = true ∧
    Atoi port = Ok n ∧ 0 ≤ n ≤ 65535.
Proof.
  unfold validateLoopbackAddress. intros ([host port] & Hs%map_err_ok & H)%result_bind_ok.
  exists host, port. destruct (IsLoopback (ParseIP host)) eqn:Hl; [|by rewrite orb_true_r in H].
  case_bool_decide; [done|]. cbn in H. destruct (Atoi port) as [n|e] eqn:Ha; [|done].
  exists n. destruct (Z.ltb_spec n 0); [done|]. destruct (Z.gtb_spec n 65535); [done|]. split_and!; [done..|lia|lia].
Qed.

Lemma Validate_ok c : Validate c = Ok tt → TrimSpace (ListenAddress c) ≠ [] →
  validateLoopbackAddress (TrimSpace (ListenAddress c)) = Ok tt ∧
  ∃ t, decodeToken (TrimSpace (BearerToken c)) = Ok t ∧ length t = 32%nat.
Proof.
  unfold Validate. intros H Hne. rewrite bool_decide_eq_false_2 in H by done.
  apply result_bind_ok in H as ([] & Hv & (t & Ht & _)%result_bind_ok).
  split; [done|]. exists t. split; [done|]. by apply decodeToken_ok in Ht as [_ ?].
Qed.

(** diagnostics never listen outside loopback.  When [Start] leaves a
    listener open it returns a server for it; the listener is bound to a
    loopback address, was requested with a literal loopback address and a valid
    port, and requests are checked against the 32-byte token of the
    configuration.  A listener that resolved elsewhere is closed and reported. *)
Theorem start_loopback_only listen ctx_nil config registry :
  let '(res, st) := Start listen ctx_nil config registry in
  match st with
  | Unopened => ∀ s, res ≠ Ok (Some s)
  | Closed _ => ∃ e, res = Err e
  | Open a =>
      ∃ ip port host p n token snapshot s,
        a = TCPAddr ip port ∧ IsLoopback ip = true ∧
        SplitHostPort (TrimSpace (ListenAddress config)) = Ok (host, p) ∧
        IsLoopback (ParseIP host) = true ∧ Atoi p = Ok n ∧ 0 ≤ n ≤ 65535 ∧
        decodeToken (TrimSpace (BearerToken config)) = Ok token ∧ length token = 32%nat ∧
        registry = Some snapshot ∧ res = Ok (Some s) ∧ listener s = a ∧
        handler s = newHandler snapshot token (EnablePprof config)
  end.
Proof.
  unfold Start. cbn [ListenAddress BearerToken EnablePprof].
  destruct (Validate _) as [[]|e] eqn:Hv; [|done].
  case_bool_decide as Hne; [done|]. destruct ctx_nil; [done|]. destruct registry as [snapshot|]; [|done].
  destruct (listen _) as [a|e] eqn:Hl; [|done].
  apply Validate_ok in Hv; cbn [ListenAddress BearerToken] in *; [|by rewrite TrimSpace_idemp].
  rewrite !TrimSpace_idemp in Hv. destruct Hv as [Hv (t & Ht & Hlen)]. rewrite Ht.
  destruct (validateLoopbackAddress_ok _ Hv) as (host & p & n & Hs & Hlo & Hp & Hn).
  destruct a as [ip port|]; [|by eexists].
  destruct (bool_decide (ip = [])); [by eexists|]. destruct (IsLoopback ip) eqn:Hip; [|by eexists].
  cbn. by exists ip, port, host, p, n, t, snapshot, (MkServer (newHandler snapshot t (EnablePprof config))
    (TCPAddr ip port) false false None None).
Qed.

(** where the token comes from.  Accepted options either disable
    diagnostics altogether or give a configuration that [Start] validates
    again successfully; with [-diagnostics-token-file] the token is the trimmed
    content of a regular file of at most 4096 bytes that, except on Windows,
    grants nothing to group and others, and the environment is not consulted. *)
Theorem options_config_sound open_file token_env windows o c :
  options_Config open_file token_env windows o = Ok c →
  (TrimSpace (opt_listen o) = [] ∧ c = zero_config) ∨
  (ListenAddress c = TrimSpace (opt_listen o) ∧ EnablePprof c = opt_pprof o ∧
   Validate c = Ok tt ∧ Validate (MkConfig (TrimSpace (ListenAddress c)) (TrimSpace (BearerToken c)) (EnablePprof c)) = Ok tt ∧
   if bool_decide (TrimSpace (opt_token_file o) = []) then BearerToken c = TrimSpace token_env
   else ∃ f, open_file (TrimSpace (opt_token_file o)) = Ok f ∧ regular f = true ∧
          (windows = false → Z.land (perm f) 63 = 0) ∧ (length (content f) ≤ maxTokenFileBytes)%nat ∧
          BearerToken c = TrimSpace (content f)).
Proof.
  unfold options_Config. case_bool_decide as Hl.
  { destruct (opt_pprof o); [done|]. case_match; [done|]. intros [= <-]. by left. }
  intros (token & Htok & ([] & Hv & [= <-])%result_bind_ok)%result_bind_ok. right.
  cbn [ListenAddress BearerToken EnablePprof]. split_and!; try done.
  { unfold Validate in *. cbn [ListenAddress BearerToken EnablePprof] in *. rewrite !TrimSpace_idemp in *.
    by rewrite bool_decide_eq_false_2 in * by done. }
  case_bool_decide as Ht; cbn [negb] in Htok; [by injection Htok as <-|].
  unfold readTokenFile in Htok. apply result_bind_ok in Htok as (f & Hf%map_err_ok & H). exists f.
  destruct (stat_err f); [done|]. destruct (regular f); [|done]. cbn [negb] in H.
  destruct (negb windows && negb (Z.land (perm f) 63 =? 0)) eqn:Hperm; [done|].
  destruct (read_err f); [done|].
  destruct (Nat.ltb_spec maxTokenFileBytes (length (take (maxTokenFileBytes + 1) (content f)))) as [|Hlen]; [done|].
  apply result_bind_ok in H as (t & _ & [= <-]). rewrite length_take in Hlen.
  split_and!; [done..| |unfold maxTokenFileBytes in *; lia|].
  { intros ->. cbn in Hperm. by destruct (Z.eqb_spec (Z.land (perm f) 63) 0). }
  rewrite take_ge; [done|]. unfold maxTokenFileBytes in *; lia.
Qed.

(** Closing again changes nothing and reports the first outcome, whatever
    [Shutdown] and [Close] would return then. *)
Lemma Close_again e1 e2 e1' e2' s :
  let '(r, s') := Close e1 e2 s in Close e1' e2' s' = (r, s').
Proof. destruct s as [s|]; [|done]. unfold Close. by destruct (close_done s) eqn:E; cbn; rewrite ?E. Qed.

(** ** Witnesses *)

Definition sample_token : bytes := chr <$> seqZ 0 32.

Definition sample_request (path : string) (auth sec : bytes) : Request :=
  MkRequest "GET" (str path) auth sec.

Lemma pprof_bounded_witness :
  pprof_seconds pprof_Trace (str "15") ≤ 15.
Proof.
  destruct (pprof_bounded (snapshot_of Metrics.zero_registry) sample_token true
    (sample_request "/debug/pprof/trace" (str "bearer " ++ EncodeToString sample_token) (str "15"))
    pprof_Trace (str "15")) as (_ & _ & _ & H); [by vm_compute|exact H].
Defined.

Lemma bearer_roundtrip_witness :
  ¬ authorizes sample_token (str "Bearer " ++ EncodeToString (replicate 32 (chr 255))).
Proof.
  intros H. assert (sample_token = replicate 32 (chr 255)) as E; [|by vm_compute in E].
  apply (bearer_roundtrip sample_token (replicate 32 (chr 255))); [reflexivity..|exact H].
Defined.

Definition sample_options : Options := MkOptions (str "127.0.0.1:9090") (str "/run/token") false.
Definition sample_file : file :=
  MkFile None true 384 (EncodeToString sample_token ++ [chr 10]) None.

Lemma options_config_sound_witness :
  ∃ c, options_Config (λ _, Ok sample_file) [] false sample_options = Ok c ∧
       BearerToken c = EncodeToString sample_token.
Proof.
  eexists (MkConfig _ _ _). split; [by vm_compute|].
  destruct (options_config_sound (λ _, Ok sample_file) [] false sample_options
    (MkConfig (str "127.0.0.1:9090") (EncodeToString sample_token) false)) as [[_ E]|_];
    [by vm_compute|by vm_compute in E|by vm_compute].
Defined.

(** A session of the endpoint by evaluation: a started server answers a
    request with its token, refuses one without, and redirects an unclean path. *)
Example started :
  match Start (λ _, Ok (TCPAddr [127; 0; 0; 1] 9090)) false
          (MkConfig (str "127.0.0.1:9090") (EncodeToString sample_token) false)
          (Some (snapshot_of Metrics.zero_registry)) with
  | (Ok (Some s), Open _) =>
      let auth := str "Bearer " ++ EncodeToString sample_token in
      [status (handler s (sample_request "/metrics" auth []) fresh_writer);
       status (handler s (sample_request "/metrics" [] []) fresh_writer);
       status (handler s (sample_request "/x/../metrics" auth []) fresh_writer);
       status (handler s (sample_request "/debug/pprof/trace" auth []) fresh_writer)]
  | _ => []
  end = [200; 401; 301; 404].
Proof. by vm_compute. Qed.

End Diagnostics.
