(* ===== verification/Supervisor.v ===== *)
(** * The client's VLESS bond supervisor (client/vless_bond_supervisor.go)

    The client keeps one bond generation alive: a set of TURN/DTLS paths under
    one bonded packet connection, KCP and smux on top.  The file covers the
    choice of protocol version, the wait for the first path, the paths' own
    loop ([maintainVLESSBondPath] of client/main.go), the generation's life,
    the slot the accept loop reads, and the supervising loop.

    A [select] is an explicit event of the environment together with what the
    code reads around it (the clock, [Count()]); a loop is a fold over such
    observations, so a theorem about every list of observations is a theorem
    about every schedule.  The TURN/DTLS, KCP and smux set-up calls are
    parameters: their results are part of the observations. *)

From S2P Require Import Prelude GoStrings Tuning BondHello.

Module Supervisor.
Import Tuning BondHello.

Definition vlessBondStableGeneration : Z := Minute.
Definition vlessBondV2FallbackGrace : Z := 8 * Second.
Definition vlessBondZeroPathGrace : Z := 10 * Second.

(** ** Protocol selection *)

Inductive vlessBondProtocolMode := vlessBondProtocolAuto | vlessBondProtocolV1 | vlessBondProtocolV2.

#[export] Instance mode_eq_dec : EqDecision vlessBondProtocolMode.
Proof. solve_decision. Defined.

Definition parseVLESSBondProtocolMode (raw : bytes) : result vlessBondProtocolMode :=
  let s := ToLower (TrimSpace raw) in
  if bool_decide (s = []) || bool_decide (s = str "auto") then Ok vlessBondProtocolAuto
  else if bool_decide (s = str "1") || bool_decide (s = str "v1") then Ok vlessBondProtocolV1
  else if bool_decide (s = str "2") || bool_decide (s = str "v2") then Ok vlessBondProtocolV2
  else Err (errorf (str "unsupported VLESS bond protocol " ++ quote raw ++ str " (expected auto, v1, or v2)")).

Definition mode_String (m : vlessBondProtocolMode) : bytes :=
  match m with
  | vlessBondProtocolV1 => str "v1"
  | vlessBondProtocolV2 => str "v2"
  | vlessBondProtocolAuto => str "auto"
  end.

(** A generation is known by its identity. *)
Abbreviation gen := nat (only parsing).

(** What a factory returns: a generation or nil, and an error or nil. *)
Definition made := (option gen * option goerror)%type.

Section Selector.

(** The world a factory acts on. *)
Context {W : Type} (factory : Z → W → made * W).

(** The selector, with the log of the factory calls it made and of the
    generations it closed. *)
Record selector := MkSelector {
  mode : vlessBondProtocolMode; legacyV1 : bool;
  asked : list Z; closed_gens : list gen;
}.

Definition newVLESSBondProtocolSelector (m : vlessBondProtocolMode) : selector := MkSelector m false [] [].

Definition protocol (s : selector) : Z :=
  match mode s with
  | vlessBondProtocolV1 => BondProtocolV1
  | vlessBondProtocolV2 => BondProtocolV2
  | vlessBondProtocolAuto => if legacyV1 s then BondProtocolV1 else BondProtocolV2
  end.

Definition v2_unavailable (e : option goerror) : bool :=
  match e with Some e => errors_is errVLESSBondV2Unavailable e | None => false end.

Definition select_create (s : selector) (w : W) : made * selector * W :=
  let p := protocol s in
  let '((g, err), w) := factory p w in
  let s := MkSelector (mode s) (legacyV1 s) (asked s ++ [p]) (closed_gens s) in
  if negb (bool_decide (mode s = vlessBondProtocolAuto)) || negb (p =? BondProtocolV2)
     || negb (v2_unavailable err)
  then ((g, err), s, w)
  else
    let s := MkSelector (mode s) true (asked s ++ [BondProtocolV1]) (closed_gens s ++ option_list g) in
    let '(r, w) := factory BondProtocolV1 w in
    (r, s, w).

(** The supervisor calls [create] once per generation. *)
Fixpoint select_many (n : nat) (s : selector) (w : W) : list made * selector * W :=
  match n with
  | O => ([], s, w)
  | S n =>
      let '(r, s, w) := select_create s w in
      let '(rs, s, w) := select_many n s w in
      (r :: rs, s, w)
  end.

(** *** The versions asked for *)

(** V2 first, then V1, and the switch is remembered. *)
Definition one_switch (legacy : bool) (ps : list Z) : Prop :=
  ∃ k m, ps = replicate k BondProtocolV2 ++ replicate m BondProtocolV1 ∧
         ((0 < m)%nat → legacy = true) ∧ (legacy = true → (0 < m)%nat).

Lemma replicate_snoc_eq {A} n (x : A) : replicate n x ++ [x] = replicate (S n) x.
Proof. by rewrite <-replicate_cons_app. Qed.

Lemma select_create_auto s w : mode s = vlessBondProtocolAuto → one_switch (legacyV1 s) (asked s) →
  let '(r, s', w') := select_create s w in
  mode s' = vlessBondProtocolAuto ∧ one_switch (legacyV1 s') (asked s') ∧
  (legacyV1 s = true → legacyV1 s' = true).
Proof.
  intros Hm (k & m & Hps & Hl1 & Hl2). unfold select_create, protocol. rewrite Hm.
  destruct (legacyV1 s) eqn:El.
  - destruct (factory BondProtocolV1 w) as [[g err] w1]. cbn.
    split_and!; [done| |done]. exists k, (S m). rewrite Hps, <-app_assoc, replicate_snoc_eq. auto with lia.
  - assert (m = 0%nat) as -> by (destruct m; [done|]; by specialize (Hl1 ltac:(lia))).
    rewrite app_nil_r in Hps. destruct (factory BondProtocolV2 w) as [[g err] w1]. cbn.
    destruct (v2_unavailable err); cbn.
    + destruct (factory BondProtocolV1 w1) as [r w2]. cbn. split_and!; [done| |done].
      exists (S k), 1%nat. rewrite Hps, replicate_snoc_eq. auto with lia.
    + split_and!; [done| |done]. exists (S k), 0%nat.
      rewrite Hps, replicate_snoc_eq, app_nil_r. split_and!; [done|lia|done].
Qed.

Lemma select_many_auto n s w : mode s = vlessBondProtocolAuto → one_switch (legacyV1 s) (asked s) →
  let '(rs, s', w') := select_many n s w in one_switch (legacyV1 s') (asked s').
Proof.
  revert s w. induction n as [|n IH]; intros s w Hm Hs; [done|]. cbn.
  pose proof (select_create_auto s w Hm Hs) as H. destruct (select_create s w) as [[r s1] w1].
  destruct H as (Hm1 & Hs1 & _). specialize (IH s1 w1 Hm1 Hs1).
  by destruct (select_many n s1 w1) as [[rs s2] w2].
Qed.

Lemma select_many_fixed n s w p : mode s ≠ vlessBondProtocolAuto → protocol s = p →
  Forall (eq p) (asked s) →
  let '(rs, s', w') := select_many n s w in Forall (eq p) (asked s') ∧ legacyV1 s' = legacyV1 s.
Proof.
  revert s w. induction n as [|n IH]; intros s w Hm Hp Hs; [done|]. cbn.
  unfold select_create at 1. rewrite Hp. destruct (factory p w) as [[g err] w1]. cbn.
  rewrite bool_decide_eq_false_2 by done. cbn.
  specialize (IH (MkSelector (mode s) (legacyV1 s) (asked s ++ [p]) (closed_gens s)) w1 Hm Hp).
  destruct (select_many n _ w1) as [[rs s2] w2]. apply IH. cbn. rewrite Forall_app. auto.
Qed.

End Selector.

(** ** Waiting for the first path *)

(** A [time.Timer] as this code uses it: not created, running until an instant,
    or drained by a receive from its channel. *)
Inductive timer := NoTimer | Armed (deadline : Z) | Drained.

#[export] Instance timer_eq_dec : EqDecision timer.
Proof. solve_decision. Defined.

Record first_state := MkFirst {
  failedPaths : gset Z; lastSetupErr : option goerror; fallback : timer;
}.

Definition first_init : first_state := MkFirst ∅ None NoTimer.

(** The cases of the [select]. *)
Inductive first_event :=
  | FirstCtxDone (err : goerror)
  | FirstStateChanged
  | FirstFallback
  | FirstSetup (pathID : Z) (err : goerror).

(** One iteration as observed: [Count()] at the head of the loop, the event
    selected and the time of it, [Count()] as read in the event's branch. *)
Record first_obs := FirstObs { head_count : Z; at_time : Z; event : first_event; branch_count : Z }.

Inductive loop (S A : Type) := Waiting (st : S) | Returned (a : A) | Impossible.
Arguments Waiting {S A} st.
Arguments Returned {S A} a.
Arguments Impossible {S A}.

(** [fmt.Errorf("%w...: %v", errVLESSBondV2Unavailable, ...)]: only the
    sentinel is wrapped. *)
Definition v2_unavailable_error (middle : bytes) (last : option goerror) : goerror :=
  GoError (str "vless bond V2 unavailable" ++ middle ++ str ": " ++
           match last with Some e => err_text e | None => str "<nil>" end)
    [errVLESSBondV2Unavailable] None.

Definition first_iter (protocol expectedPaths : Z) (st : first_state) (o : first_obs)
  : loop first_state (result unit) :=
  if head_count o >? 0 then Returned (Ok tt)
  else match event o with
       | FirstCtxDone err => Returned (Err err)
       | FirstStateChanged => Waiting st
       | FirstFallback =>
           match fallback st with
           | Armed d =>
               if d <=? at_time o then
                 if branch_count o =? 0
                 then Returned (Err (v2_unavailable_error (str " after 8s") (lastSetupErr st)))
                 else Waiting (MkFirst (failedPaths st) (lastSetupErr st) Drained)
               else Impossible
           | _ => Impossible
           end
       | FirstSetup pathID err =>
           if errors_is ErrBondHelloRejected err then Returned (Err err)
           else if negb (protocol =? BondProtocolV2) then Waiting st
           else
             let st := MkFirst ({[pathID]} ∪ failedPaths st) (Some err)
                         (match fallback st with
                          | NoTimer => Armed (at_time o + vlessBondV2FallbackGrace)
                          | t => t
                          end) in
             if (Z.of_nat (size (failedPaths st)) >=? expectedPaths) && (branch_count o =? 0)
             then Returned (Err (v2_unavailable_error [] (lastSetupErr st)))
             else Waiting st
       end.

Fixpoint first_run (protocol expectedPaths : Z) (st : first_state) (os : list first_obs)
  : loop first_state (result unit) :=
  match os with
  | [] => Waiting st
  | o :: os =>
      match first_iter protocol expectedPaths st o with
      | Waiting st => first_run protocol expectedPaths st os
      | r => r
      end
  end.

Definition waitForFirstBondPath (protocol expectedPaths : Z) (os : list first_obs)
  : loop first_state (result unit) :=
  if expectedPaths <? 1 then
    Returned (Err (errorf (str "vless bond expected path count must be positive")))
  else first_run protocol expectedPaths first_init os.

(** *** What the observations say *)

(** The set-up failures of a run, oldest first: the path, its error, when. *)
Definition failures (os : list first_obs) : list (Z * goerror * Z) :=
  omap (λ o, match event o with FirstSetup p e => Some (p, e, at_time o) | _ => None end) os.

(** Errors that the environment hands to the loop do not carry the loop's own
    sentinel: a set-up failure wraps an I/O error or a rejection, a context
    error is one of the two context sentinels. *)
Definition foreign (o : first_obs) : Prop :=
  match event o with
  | FirstSetup _ e => errVLESSBondV2Unavailable ∉ err_chain e
  | FirstCtxDone e => errVLESSBondV2Unavailable ∉ err_chain e
  | _ => True
  end.

#[export] Instance foreign_dec o : Decision (foreign o).
Proof. unfold foreign. destruct (event o); apply _. Defined.

(** Why a run may give up on V2: no rejection was seen, and either every
    expected path has failed at least once or eight seconds have passed since
    the first failure. *)
Definition gave_up (expectedPaths : Z) (fs : list (Z * goerror * Z)) (now : Z) : Prop :=
  Forall (λ f, errors_is ErrBondHelloRejected f.1.2 = false) fs ∧
  (expectedPaths ≤ Z.of_nat (size (list_to_set (C := gset Z) (fst ∘ fst <$> fs))) ∨
   ∃ f, head fs = Some f ∧ f.2 + vlessBondV2FallbackGrace ≤ now).

(** The state after failures [fs]. *)
Record first_inv (fs : list (Z * goerror * Z)) (st : first_state) : Prop := {
  fi_paths : failedPaths st = list_to_set (fst ∘ fst <$> fs);
  fi_clean : Forall (λ f, errors_is ErrBondHelloRejected f.1.2 = false) fs;
  fi_timer : ∀ d, fallback st = Armed d → ∃ f, head fs = Some f ∧ d = f.2 + vlessBondV2FallbackGrace;
  fi_none : fallback st = NoTimer → fs = [];
}.

Lemma first_inv_init : first_inv [] first_init.
Proof. by split. Qed.

Lemma first_iter_waiting n fs st o st' : first_inv fs st →
  first_iter BondProtocolV2 n st o = Waiting st' → first_inv (fs ++ failures [o]) st'.
Proof.
  intros [Hp Hc Ht Hn]. unfold first_iter, failures. case_match; [done|].
  destruct (event o) as [e| | |p e] eqn:E; cbn; rewrite E, ?app_nil_r.
  - done.
  - intros [= <-]. by split.
  - destruct (fallback st) eqn:Hf; [done| |done]. case_match; [|done]. case_match; [done|].
    intros [= <-]. by split.
  - destruct (errors_is ErrBondHelloRejected e) eqn:Hr; [done|]. case_match; [done|]. intros [= <-].
    split; cbn.
    + rewrite fmap_app, list_to_set_app_L, Hp. cbn. set_solver.
    + rewrite Forall_app. auto.
    + intros d. destruct (fallback st) as [|d'|] eqn:Hf; intros Hd; [|simplify_eq|done].
      * injection Hd as <-. rewrite (Hn eq_refl). by eexists.
      * destruct (Ht d eq_refl) as (f & Hhd & ->). exists f. by destruct fs.
    + by destruct (fallback st).
Qed.

Lemma first_iter_unavailable protocol n fs st o e : first_inv fs st → foreign o →
  first_iter protocol n st o = Returned (Err e) → errVLESSBondV2Unavailable ∈ err_chain e →
  head_count o ≤ 0 ∧ branch_count o = 0 ∧ gave_up n (fs ++ failures [o]) (at_time o) ∧
  (protocol = BondProtocolV2 ∨ fs ≠ []).
Proof.
  intros [Hp Hc Ht Hn] Hfor. unfold first_iter, failures, foreign, gave_up in *.
  destruct (Z.gtb_spec (head_count o) 0) as [|Hh]; [done|].
  destruct (event o) as [e'| | |p e'] eqn:E; cbn; rewrite E, ?app_nil_r; intros H.
  - by injection H as <-.
  - done.
  - destruct (fallback st) as [|d|] eqn:Hf; [done| |done].
    destruct (Z.leb_spec d (at_time o)); [|done]. destruct (Z.eqb_spec (branch_count o) 0); [|done].
    intros _. destruct (Ht d eq_refl) as (f & Hhd & ->).
    split_and!; [lia|done|done|by eauto|right; by intros ->].
  - destruct (errors_is ErrBondHelloRejected e') eqn:Hr; [by injection H as <-|].
    destruct (Z.eqb_spec protocol BondProtocolV2); [|done]. cbn in H.
    destruct (Z.geb_spec (Z.of_nat (size ({[p]} ∪ failedPaths st))) n) as [Hge|]; [|done].
    destruct (Z.eqb_spec (branch_count o) 0); [|done]. intros _.
    split_and!; [lia|done| |left|by left].
    + rewrite Forall_app. auto.
    + rewrite fmap_app, list_to_set_app_L, <-Hp. cbn.
      replace (failedPaths st ∪ ({[p]} ∪ ∅)) with ({[p]} ∪ failedPaths st) by set_solver. lia.
Qed.

(** Under V1 nothing is ever recorded. *)
Lemma first_iter_v1 protocol n st o : protocol ≠ BondProtocolV2 → fallback st = NoTimer →
  first_iter protocol n st o = Waiting st ∨ first_iter protocol n st o = Impossible ∨
  first_iter protocol n st o = Returned (Ok tt) ∨
  ∃ e, first_iter protocol n st o = Returned (Err e) ∧ (event o = FirstCtxDone e ∨ ∃ p, event o = FirstSetup p e).
Proof.
  intros Hp Hf. unfold first_iter. case_match; [by auto|]. destruct (event o) as [e| | |p e]; [by eauto 8|by auto|..].
  - rewrite Hf. auto.
  - case_match; [by eauto 8|]. destruct (Z.eqb_spec protocol BondProtocolV2); [done|]. auto.
Qed.

Lemma failures_app os1 os2 : failures (os1 ++ os2) = failures os1 ++ failures os2.
Proof. unfold failures. by rewrite omap_app. Qed.

Lemma failures_cons o os : failures (o :: os) = failures [o] ++ failures os.
Proof. exact (failures_app [o] os). Qed.

(** Where a run that gives up on V2 does so. *)
Lemma first_run_unavailable n fs st os e : first_inv fs st → Forall foreign os →
  first_run BondProtocolV2 n st os = Returned (Err e) → errVLESSBondV2Unavailable ∈ err_chain e →
  ∃ os1 o os2, os = os1 ++ (o :: os2) ∧ head_count o ≤ 0 ∧ branch_count o = 0 ∧
    gave_up n (fs ++ failures (os1 ++ [o])) (at_time o).
Proof.
  revert fs st. induction os as [|o os IH]; intros fs st Hinv Hfor; [done|].
  apply Forall_cons in Hfor as [Ho Hos]. cbn [first_run].
  destruct (first_iter BondProtocolV2 n st o) as [st'|r|] eqn:E; [| |done].
  - intros Hrun He. apply first_iter_waiting with (fs := fs) in E; [|done].
    destruct (IH _ _ E Hos Hrun He) as (os1 & o' & os2 & -> & Hh & Hb & Hg).
    exists (o :: os1), o', os2. split_and!; [done..|].
    rewrite <-app_comm_cons, failures_cons. by rewrite app_assoc.
  - intros [= ->] He. destruct (first_iter_unavailable _ _ _ _ _ _ Hinv Ho E He) as (Hh & Hb & Hg & _).
    by exists [], o, os.
Qed.

(** A V2 run cannot keep waiting once every expected path has failed. *)
Lemma first_run_all_failed n fs st os : first_inv fs st → (0 < length os)%nat →
  Forall (λ o, head_count o ≤ 0 ∧ branch_count o = 0 ∧
               ∃ p e, event o = FirstSetup p e ∧ errors_is ErrBondHelloRejected e = false) os →
  n ≤ Z.of_nat (size (list_to_set (C := gset Z) (fst ∘ fst <$> (fs ++ failures os)))) →
  ∃ e, first_run BondProtocolV2 n st os = Returned (Err e) ∧ errVLESSBondV2Unavailable ∈ err_chain e.
Proof.
  revert fs st. induction os as [|o os IH]; intros fs st Hinv Hlen Hall Hn; [cbn in Hlen; lia|].
  apply Forall_cons in Hall as [(Hh & Hb & p & e & He & Hr) Hos]. cbn [first_run].
  destruct (first_iter BondProtocolV2 n st o) as [st'|r|] eqn:E.
  - assert (first_inv (fs ++ failures [o]) st') as Hinv' by by eapply first_iter_waiting.
    rewrite failures_cons, app_assoc in Hn. destruct os as [|o' os].
    + exfalso. cbn [failures omap] in Hn. rewrite app_nil_r in Hn. revert E. unfold first_iter.
      destruct (Z.gtb_spec (head_count o) 0); [lia|]. rewrite He, Hr, Hb. cbn.
      rewrite (fi_paths _ _ Hinv). destruct (Z.geb_spec (Z.of_nat (size ({[p]} ∪ list_to_set (C := gset Z) (fst ∘ fst <$> fs)))) n) as [|Hlt]; [done|].
      intros _. revert Hn. unfold failures. cbn. rewrite He, fmap_app, list_to_set_app_L. cbn.
      rewrite union_empty_r_L, (union_comm_L _ {[p]}). lia.
    + eapply IH; [done|cbn; lia|done..].
  - revert E. unfold first_iter. destruct (Z.gtb_spec (head_count o) 0); [lia|]. rewrite He, Hr, Hb. cbn.
    case_match; [|done]. intros [= <-]. eexists. split; [done|]. cbn. set_solver.
  - revert E. unfold first_iter. destruct (Z.gtb_spec (head_count o) 0); [lia|]. rewrite He, Hr, Hb. cbn.
    by case_match.
Qed.

(** ** One path's loop: [maintainVLESSBondPath] *)

(** What one round of the loop meets: [createDTLSConnection], the two looks at
    the context, the hello exchange, and how the connected path ends.  [delay]
    is the result of [waitContextDelay] at the end of the round. *)
Record path_round := PathRound {
  pr_done0 : bool;                    (* context done at the head *)
  pr_dial : result unit; pr_captcha_fatal : bool;
  pr_done1 : bool;
  pr_hello : result unit; pr_ack : result unit;
  pr_done2 : bool;
  pr_done3 : bool;                    (* context done while the path was up *)
  pr_delay : bool;
}.

(** What the loop does with the connection it was given and with its peers. *)
Inductive path_action :=
  | Dialled                           (* a connection and its cleanup now exist *)
  | CleanedUp                         (* cleanup() *)
  | HandedOver                        (* bonded.AddConn(dtlsConn, cleanup) *)
  | Reported (err : goerror)          (* reportVLESSBondPathSetupError *)
  | PathReconnectedMetric
  | AppCancelled.                     (* globalAppCancel() *)

(** A round: its actions and whether the loop goes on. *)
Definition path_iter (version : Z) (r : path_round) : list path_action * bool :=
  if pr_done0 r then ([], false)
  else match pr_dial r with
  | Err e =>
      if errors_is ErrRejected e then ([AppCancelled], false)
      else if pr_captcha_fatal r then ([AppCancelled], false)
      else ([], pr_delay r)
  | Ok _ =>
      if pr_done1 r then ([Dialled; CleanedUp], false)
      else match pr_hello r with
      | Err e => ([Dialled; Reported (errorf_w (str "write bond hello: ") e); CleanedUp], pr_delay r)
      | Ok _ =>
          match (if version =? BondProtocolV2 then pr_ack r else Ok tt) with
          | Err e => ([Dialled; Reported (errorf_w (str "read bond V2 acknowledgement: ") e); CleanedUp], pr_delay r)
          | Ok _ =>
              if pr_done2 r then ([Dialled; CleanedUp], false)
              else if pr_done3 r then ([Dialled; HandedOver], false)
              else ([Dialled; HandedOver; PathReconnectedMetric], pr_delay r)
          end
      end
  end.

Fixpoint maintainVLESSBondPath (version : Z) (rs : list path_round) : list path_action * bool :=
  match rs with
  | [] => ([], true)
  | r :: rs =>
      let '(acts, go) := path_iter version r in
      if go then let '(acts', go') := maintainVLESSBondPath version rs in (acts ++ acts', go')
      else (acts, false)
  end.

(** [reportVLESSBondPathSetupError]: a full channel drops the event. *)
Definition reportVLESSBondPathSetupError (capacity : nat) (pathID : Z) (err : option goerror)
    (queue : list (Z * goerror)) : list (Z * goerror) :=
  match err with
  | None => queue
  | Some e => if (length queue <? capacity)%nat then queue ++ [(pathID, e)] else queue
  end.

(** Every connection is disposed of once: the counts agree, and a connection is
    disposed of before the next is dialled ([pending] is 0 or 1). *)
Fixpoint balanced (pending : nat) (acts : list path_action) : bool :=
  match acts with
  | [] => (pending =? 0)%nat
  | Dialled :: acts => (pending =? 0)%nat && balanced 1 acts
  | (CleanedUp | HandedOver) :: acts => (pending =? 1)%nat && balanced 0 acts
  | _ :: acts => balanced pending acts
  end.

Lemma balanced_app a b : balanced 0 a = true → balanced 0 b = true → balanced 0 (a ++ b) = true.
Proof.
  intros Ha Hb. assert (∀ n, balanced n a = true → balanced n (a ++ b) = true) as H; [|by apply H].
  clear Ha. induction a as [|x a IH]; intros n; cbn.
  { by destruct (Nat.eqb_spec n 0) as [->|]. }
  destruct x; try apply IH; intros [? ?]%andb_prop; apply andb_true_intro; auto.
Qed.

Lemma path_iter_balanced version r : balanced 0 (path_iter version r).1 = true.
Proof. unfold path_iter. repeat case_match; done. Qed.

(** ** A generation *)

Definition shortBondID (id : bytes) : bytes := if (length id <=? 8)%nat then id else take 8 id.

(** [failed_closed] is the state of the [failed] channel. *)
Record generation := MkGeneration {
  gen_id : bytes; has_session : bool; has_bonded : bool; zeroGrace : Z;
  failed_closed : bool; failureErr : option goerror; cleanup_done : bool;
}.

#[export] Instance generation_eta : Eta generation := λ g,
  MkGeneration (gen_id g) (has_session g) (has_bonded g) (zeroGrace g)
    (failed_closed g) (failureErr g) (cleanup_done g).

Definition newVLESSBondGeneration (id : bytes) (session bonded : bool) : generation :=
  MkGeneration id session bonded vlessBondZeroPathGrace false None false.

Definition fail (err : option goerror) (g : generation) : generation :=
  let err := default (errorf (str "vless bond generation failed")) err in
  if failed_closed g then g else g <| failureErr := Some err |> <| failed_closed := true |>.

Definition failure (g : generation) : option goerror := failureErr g.

(** [close]: whether [cleanup] runs now. *)
Definition gen_close (g : generation) : bool * generation :=
  if cleanup_done g then (false, g) else (true, g <| cleanup_done := true |>).

(** *** [wait] *)

Inductive wait_event := WaitCtxDone (err : goerror) | WaitSessionClosed | WaitFailed (err : option goerror)
  | WaitStateChanged | WaitZeroDeadline.

(** One iteration: [Count()] and the clock at the head, the event and when it
    is received, [Count()] in the deadline's branch. *)
Record wait_obs := WaitObs {
  w_head_count : Z; w_head_time : Z; w_event : wait_event; w_time : Z; w_branch_count : Z;
}.

(** The timer at the head of the loop: created when the bond is empty, stopped
    and dropped when it is not. *)
Definition zero_timer (g : generation) (o : wait_obs) (t : option Z) : option Z :=
  if has_bonded g && (w_head_count o =? 0)
  then match t with None => Some (w_head_time o + zeroGrace g) | Some d => Some d end
  else None.

Definition gen_error (g : generation) (text : bytes) : goerror :=
  errorf (str "vless bond generation " ++ shortBondID (gen_id g) ++ text).

Definition no_paths_error (g : generation) : goerror := 
  gen_error g (str " has no active paths for " ++ Itoa (zeroGrace g / Second) ++ str "s").

(** The state is [zeroTimer]: its deadline when it exists. *)
Definition wait_iter (g : generation) (t : option Z) (o : wait_obs) : loop (option Z) goerror :=
  let t := zero_timer g o t in
  match w_event o with
  | WaitCtxDone err => Returned err
  | WaitSessionClosed => Returned (gen_error g (str " smux session closed"))
  | WaitFailed err => Returned (default (gen_error g (str " failed")) err)
  | WaitStateChanged => Waiting t
  | WaitZeroDeadline =>
      match t with
      | Some d =>
          if d <=? w_time o then
            if has_bonded g && (w_branch_count o =? 0) then Returned (no_paths_error g)
            else Waiting None
          else Impossible
      | None => Impossible
      end
  end.

Fixpoint wait_run (g : generation) (t : option Z) (os : list wait_obs) : loop (option Z) goerror :=
  match os with
  | [] => Waiting t
  | o :: os => match wait_iter g t o with Waiting t => wait_run g t os | r => r end
  end.

Definition gen_wait (g : generation) (os : list wait_obs) : loop (option Z) goerror :=
  if negb (has_session g) then Returned (gen_error g (str " has no smux session"))
  else wait_run g None os.

(** An unbroken stretch of empty heads that began at [t0]. *)
Definition empty_since (t0 : Z) (os : list wait_obs) : Prop :=
  Forall (λ o, w_head_count o = 0) os ∧ ∃ o, head os = Some o ∧ w_head_time o = t0.

Lemma zero_timer_some g o t d : zero_timer g o t = Some d →
  has_bonded g = true ∧ w_head_count o = 0 ∧
  (t = Some d ∨ (t = None ∧ d = w_head_time o + zeroGrace g)).
Proof.
  unfold zero_timer. destruct (has_bonded g); [|done]. destruct (Z.eqb_spec (w_head_count o) 0); [|done].
  destruct t; cbn; intros [= <-]; auto.
Qed.

(** The timer running after the iterations [seen] was started at the first head
    of an empty stretch that ends them. *)
Definition stretch (g : generation) (seen : list wait_obs) (t : option Z) : Prop :=
  ∀ d, t = Some d → ∃ pre run, seen = pre ++ run ∧ empty_since (d - zeroGrace g) run.

Lemma stretch_head g seen t o : stretch g seen t → stretch g (seen ++ [o]) (zero_timer g o t).
Proof.
  intros Ht d (_ & Hc & [-> | [-> ->]])%zero_timer_some.
  - destruct (Ht d eq_refl) as (pre & run & -> & Hs & o' & Hhd & Ht0).
    exists pre, (run ++ [o]). rewrite <-app_assoc. split; [done|]. split.
    + rewrite Forall_app. auto.
    + exists o'. split; [by destruct run|done].
  - exists seen, [o]. split; [done|]. split; [by repeat constructor|]. exists o. split; [done|lia].
Qed.

Lemma stretch_iter g seen t o t' : stretch g seen t → wait_iter g t o = Waiting t' → stretch g (seen ++ [o]) t'.
Proof.
  intros Ht%(stretch_head _ _ _ o). unfold wait_iter. destruct (w_event o); try done.
  - by intros [= <-].
  - destruct (zero_timer g o t) as [d|]; [|done]. repeat case_match; try done. by intros [= <-].
Qed.

(** Where a generation is given up for lack of paths. *)
Lemma wait_run_no_paths g seen t os : stretch g seen t →
  (∀ o e, o ∈ os → w_event o = WaitCtxDone e ∨ w_event o = WaitFailed (Some e) → e ≠ no_paths_error g) →
  wait_run g t os = Returned (no_paths_error g) →
  ∃ os1 o os2 pre run d, os = os1 ++ (o :: os2) ∧ seen ++ os1 ++ [o] = pre ++ run ∧
    empty_since (d - zeroGrace g) run ∧ d ≤ w_time o ∧ w_branch_count o = 0.
Proof.
  revert seen t. induction os as [|o os IH]; intros seen t Ht Hfor; [done|]. cbn [wait_run].
  destruct (wait_iter g t o) as [t'|e|] eqn:E; [| |done]; intros H.
  - destruct (IH (seen ++ [o]) t') as (os1 & o' & os2 & pre & run & d & -> & Heq & Hr); [by eapply stretch_iter| |done|].
    { intros o' e' Ho'. apply Hfor. by right. }
    exists (o :: os1), o', os2, pre, run, d. split; [done|]. split; [|done].
    rewrite <-Heq. by rewrite <-!app_assoc.
  - injection H as ->. apply (stretch_head _ _ _ o) in Ht. revert E. unfold wait_iter.
    destruct (w_event o) as [e| |[e|]| |] eqn:Ev; intros E; [| | | |done|].
    + injection E as ->. destruct (Hfor o (no_paths_error g)); [by left|by auto|done].
    + injection E as E%app_inv_head. done.
    + injection E as ->. destruct (Hfor o (no_paths_error g)); [by left|by auto|done].
    + injection E as E%app_inv_head. done.
    + destruct (zero_timer g o t) as [d|]; [|done]. destruct (Z.leb_spec d (w_time o)); [|done].
      destruct (has_bonded g); [|done]. destruct (Z.eqb_spec (w_branch_count o) 0); [|done].
      destruct (Ht d eq_refl) as (pre & run & Heq & Hs). by exists [], o, os, pre, run, d.
Qed.

(** ** Theorems *)

(** The versions asked of the factory over a whole process.  In automatic mode
    they are V2 any number of times and then V1 for good, and V1 is reached
    only by a switch the selector remembers; in a fixed mode the configured
    version is asked every time, whatever the factory answers. *)
Theorem protocol_switches_once {W} (factory : Z → W → made * W) m n w :
  let '(_, s, _) := select_many factory n (newVLESSBondProtocolSelector m) w in
  match m with
  | vlessBondProtocolAuto => one_switch (legacyV1 s) (asked s)
  | vlessBondProtocolV1 => Forall (eq BondProtocolV1) (asked s) ∧ legacyV1 s = false
  | vlessBondProtocolV2 => Forall (eq BondProtocolV2) (asked s) ∧ legacyV1 s = false
  end.
Proof.
  set (s0 := newVLESSBondProtocolSelector m).
  assert (one_switch (legacyV1 s0) (asked s0)) as H0 by (by exists 0%nat, 0%nat; repeat split; try done; lia).
  destruct m.
  - pose proof (select_many_auto factory n s0 w eq_refl H0) as H.
    by destruct (select_many factory n s0 w) as [[rs s] w'].
  - pose proof (select_many_fixed factory n s0 w BondProtocolV1) as H.
    destruct (select_many factory n s0 w) as [[rs s] w']. by apply H.
  - pose proof (select_many_fixed factory n s0 w BondProtocolV2) as H.
    destruct (select_many factory n s0 w) as [[rs s] w']. by apply H.
Qed.

(** What [createVLESSBondGeneration] reports for a V2 attempt whose wait for
    the first path observed [os]. *)
Definition first_error (r : loop first_state (result unit)) : option goerror :=
  match r with Returned (Err e) => Some e | _ => None end.

(** C35: A process gives up on V2 only for want of an answer.  When an automatic
    selector switches to V1 after a V2 attempt whose wait observed [os], then
    up to some iteration no path had been rejected by the server, no path was
    up, and either every expected path had failed to negotiate or eight seconds
    had passed since the first failure.  In particular a server's explicit
    rejection never downgrades the protocol. *)
Theorem downgrade_justified {W} (factory : Z → W → made * W) s w n os :
  mode s = vlessBondProtocolAuto → legacyV1 s = false → Forall foreign os →
  (factory BondProtocolV2 w).1.2 = first_error (waitForFirstBondPath BondProtocolV2 n os) →
  let '(_, s', _) := select_create factory s w in
  legacyV1 s' = true →
  ∃ os1 o os2, os = os1 ++ (o :: os2) ∧ head_count o ≤ 0 ∧ branch_count o = 0 ∧
    gave_up n (failures (os1 ++ [o])) (at_time o).
Proof.
  intros Hm Hl Hfor Hfac. unfold select_create, protocol. rewrite Hm, Hl.
  destruct (factory BondProtocolV2 w) as [[g err] w1]. cbn in Hfac. cbn. subst err.
  destruct (v2_unavailable _) eqn:Hu; cbn; [|done].
  destruct (factory BondProtocolV1 w1) as [r w2]. cbn. intros _. revert Hu.
  unfold waitForFirstBondPath. case_match; [done|].
  destruct (first_run BondProtocolV2 n first_init os) as [| [|e] |] eqn:Hrun; [done..| |done].
  cbn. unfold errors_is. intros Hin%bool_decide_eq_true_1.
  destruct (first_run_unavailable _ [] _ _ _ first_inv_init Hfor Hrun Hin) as (os1 & o & os2 & ? & ? & ? & ?).
  by exists os1, o, os2.
Qed.

(** And the fallback is reached: once every expected path has failed its V2
    negotiation without a rejection, with no path up, the wait returns the
    error that makes the selector switch. *)
Theorem fallback_reached n os : 1 ≤ n →
  Forall (λ o, head_count o ≤ 0 ∧ branch_count o = 0 ∧
               ∃ p e, event o = FirstSetup p e ∧ errors_is ErrBondHelloRejected e = false) os →
  n ≤ Z.of_nat (size (list_to_set (C := gset Z) (fst ∘ fst <$> failures os))) →
  ∃ e, waitForFirstBondPath BondProtocolV2 n os = Returned (Err e) ∧ v2_unavailable (Some e) = true.
Proof.
  intros Hn Hall Hsize. unfold waitForFirstBondPath. destruct (Z.ltb_spec n 1); [lia|].
  destruct (first_run_all_failed n [] first_init os) as (e & -> & He); [apply first_inv_init| |done..|].
  { destruct os; [|cbn; lia]. cbn in Hsize. rewrite size_empty in Hsize. lia. }
  exists e. split; [done|]. cbn. unfold errors_is. by apply bool_decide_eq_true_2.
Qed.

(** A generation is abandoned for lack of paths only after a full grace
    period: the iterations end with an unbroken run of empty heads that began
    at least [zeroGrace] before the decision, and the bond is empty at it. *)
Theorem zero_path_grace g os : has_session g = true →
  (∀ o e, o ∈ os → w_event o = WaitCtxDone e ∨ w_event o = WaitFailed (Some e) → e ≠ no_paths_error g) →
  gen_wait g os = Returned (no_paths_error g) →
  ∃ os1 o os2 pre run t0, os = os1 ++ (o :: os2) ∧ os1 ++ [o] = pre ++ run ∧
    empty_since t0 run ∧ t0 + zeroGrace g ≤ w_time o ∧ w_branch_count o = 0.
Proof.
  unfold gen_wait. intros -> Hfor Hrun. cbn in Hrun.
  destruct (wait_run_no_paths g [] None os) as (os1 & o & os2 & pre & run & d & ? & ? & ? & ? & ?); [done..|].
  exists os1, o, os2, pre, run, (d - zeroGrace g). split_and!; try done. lia.
Qed.

(** Connections do not leak.  Over any number of rounds of a path's loop,
    however each round ends, every connection that was dialled is disposed of
    before the next one is, once: cleaned up or handed to the bond. *)
Theorem path_connections_disposed version rs :
  balanced 0 (maintainVLESSBondPath version rs).1 = true.
Proof.
  induction rs as [|r rs IH]; [done|]. cbn.
  pose proof (path_iter_balanced version r) as Hr. destruct (path_iter version r) as [acts go].
  destruct go; [|done]. destruct (maintainVLESSBondPath version rs) as [acts' go']. by apply balanced_app.
Qed.

(** ** Witnesses *)

Definition ack_timeout : goerror := GoError (str "read bond V2 acknowledgement: i/o timeout") [] (Some true).
Definition silent (p t : Z) : first_obs := FirstObs 0 t (FirstSetup p ack_timeout) 0.
Definition old_server : Z → unit → made * unit := λ p w,
  ((None, if p =? BondProtocolV2
          then first_error (waitForFirstBondPath BondProtocolV2 2 [silent 0 1; silent 1 2]) else None), w).

Lemma downgrade_justified_witness :
  ∃ os1 o os2, [silent 0 1; silent 1 2] = os1 ++ (o :: os2) ∧ head_count o ≤ 0 ∧ branch_count o = 0 ∧
    gave_up 2 (failures (os1 ++ [o])) (at_time o).
Proof.
  pose proof (downgrade_justified old_server (newVLESSBondProtocolSelector vlessBondProtocolAuto) tt 2
    [silent 0 1; silent 1 2]) as H.
  destruct (select_create _ _ _) as [[r s'] w'] eqn:E.
  assert (legacyV1 s' = true) as Hs by (by vm_compute in E; injection E as <- <- <-).
  apply H; [reflexivity..| |vm_compute; reflexivity|exact Hs].
  repeat constructor; intros Hin; by apply not_elem_of_nil in Hin.
Defined.

Lemma fallback_reached_witness :
  ∃ e, waitForFirstBondPath BondProtocolV2 2 [silent 0 1; silent 1 2] = Returned (Err e) ∧
       v2_unavailable (Some e) = true.
Proof.
  apply (fallback_reached 2 [silent 0 1; silent 1 2]); [lia| |by vm_compute].
  repeat constructor; cbn; try lia; by eexists _, _.
Defined.

Definition idle_generation : generation := newVLESSBondGeneration (str "0123456789abcdef") true true.
Definition starved : list wait_obs :=
  [WaitObs 0 0 WaitStateChanged 1 0; WaitObs 0 1 WaitZeroDeadline (10 * Second) 0].

Lemma zero_path_grace_witness :
  ∃ os1 o os2 pre run t0, starved = os1 ++ (o :: os2) ∧ os1 ++ [o] = pre ++ run ∧
    empty_since t0 run ∧ t0 + zeroGrace idle_generation ≤ w_time o ∧ w_branch_count o = 0.
Proof.
  apply (zero_path_grace idle_generation starved); [reflexivity| |vm_compute; reflexivity].
  intros o e Ho Hev. exfalso.
  repeat (apply elem_of_cons in Ho as [-> |Ho]; [by destruct Hev|]). by apply not_elem_of_nil in Ho.
Defined.

(** A rejection in between keeps the protocol, whatever failed before. *)
Example rejection_keeps_v2 :
  let rejected := FirstObs 0 3 (FirstSetup 1 (BondHelloRejectionError (str "PROFILE_MISMATCH"))) 0 in
  let factory : Z → unit → made * unit := λ p w,
    ((None, first_error (waitForFirstBondPath p 2 [silent 0 1; rejected])), w) in
  legacyV1 (select_create factory (newVLESSBondProtocolSelector vlessBondProtocolAuto) tt).1.2 = false.
Proof. by vm_compute. Qed.

End Supervisor.
