(* ===== verification/SuperviseLoop.v ===== *)
(** * Keeping one generation alive (client/vless_bond_supervisor.go)

    The set-up of a generation with its clean-up closure
    ([createVLESSBondGeneration]), the slot through which the supervisor hands
    generations to the accept loop, the supervising loop with its back-off, and
    the handling of an accepted connection.  [Supervisor.v] holds what these
    build on. *)

From S2P Require Import Prelude GoStrings Tuning BondHello Metrics Supervisor.

Module SuperviseLoop.
Import Tuning BondHello Supervisor.

(** ** Delays *)

(** The doubling loop: [attempt] times, as long as the delay is below 30 s. *)
Fixpoint double_delay (attempt : nat) (delay : Z) : Z :=
  match attempt with
  | O => delay
  | S attempt =>
      if delay <? 30 * Second then
        let delay := delay * 2 in
        double_delay attempt (if delay >? 30 * Second then 30 * Second else delay)
      else delay
  end.

Section Random.

(** [rand.Int63n], which panics unless its argument is positive. *)
Context (Int63n : Z → outcome Z).

Definition vlessBondGenerationRetryDelay (attempt : Z) : outcome Z :=
  let attempt := if attempt <? 0 then 0 else attempt in
  let delay := double_delay (Z.to_nat attempt) Second in
  let half := Z.quot delay 2 in
  match Int63n (delay - half + 1) with
  | Done r => Done (half + r)
  | Panics => Panics
  end.

Definition vlessBondPathRetryDelay (base : Z) : outcome Z :=
  let spread := Z.quot base 2 in
  if spread <=? 0 then Done base
  else match Int63n (spread + 1) with Done r => Done (base + r) | Panics => Panics end.

End Random.

(** What is documented of [rand.Int63n]. *)
Definition int63n_ok (Int63n : Z → outcome Z) : Prop :=
  ∀ n, 0 < n → ∃ r, Int63n n = Done r ∧ 0 ≤ r < n.

(** [waitContextDelay]: [expired] tells whether the timer or the context wins. *)
Definition waitContextDelay (delay : Z) (ctx_done_now expired : bool) : bool :=
  if delay <=? 0 then negb ctx_done_now else expired.

Lemma double_delay_min a d : 0 < d ≤ 30 * Second →
  double_delay a d = Z.min (d * 2 ^ Z.of_nat a) (30 * Second).
Proof.
  revert d. induction a as [|a IH]; intros d Hd; cbn -[Z.mul Z.pow Z.of_nat].
  { change (2 ^ Z.of_nat 0) with 1. lia. }
  rewrite Nat2Z.inj_succ, Z.pow_succ_r by lia.
  assert (0 < 2 ^ Z.of_nat a) as Hp by (apply Z.pow_pos_nonneg; lia).
  destruct (Z.ltb_spec d (30 * Second)) as [Hlt|Hge].
  - destruct (Z.gtb_spec (d * 2) (30 * Second)) as [Hgt|Hle].
    + rewrite IH by (unfold Second; lia). nia.
    + rewrite IH by lia. f_equal. lia.
  - nia.
Qed.

(** ** Setting up a generation *)

Inductive resource := GenerationCtx | Bonded | PathWG | KcpSession | SmuxSession.

#[export] Instance resource_eq_dec : EqDecision resource.
Proof. solve_decision. Defined.

Inductive resource_event := Acquired (r : resource) | Released (r : resource).

(** The closure [cleanup] with the variables it captures. *)
Record closure := Closure { kcpSession : bool; smuxSession : bool; cleanupOnce : bool }.

Definition run_cleanup (c : closure) : list resource_event * closure :=
  if cleanupOnce c then ([], c)
  else ([Released GenerationCtx] ++
        (if smuxSession c then [Released SmuxSession] else []) ++
        (if kcpSession c then [Released KcpSession] else []) ++
        [Released Bonded; Released PathWG],
        Closure (kcpSession c) (smuxSession c) true).

(** [createVLESSBondGeneration]: the results of [generateBondID],
    [waitForFirstBondPath], [NewKCPOverPacketConnBonded] and [smux.Client] are
    arguments.  The value is the hello the paths use with the generation and
    its clean-up closure. *)
Definition createVLESSBondGeneration (g : globals) (numSessions protocol : Z)
    (bond_id : result bytes) (first kcp smux : result unit)
  : result (BondHello * generation * closure) * list resource_event :=
  match bond_id with
  | Err e => (Err (errorf_w (str "generate vless bond id: ") e), [])
  | Ok bondID =>
      let opened := [Acquired GenerationCtx; Acquired Bonded] in
      if negb (protocol =? BondProtocolV2) && negb (protocol =? BondProtocolV1) then
        (Err (errorf (str "unsupported VLESS bond protocol version " ++ Itoa protocol)),
         opened ++ [Released GenerationCtx; Released Bonded])
      else
        let hello := if protocol =? BondProtocolV2 then CurrentBondHello g bondID numSessions
                     else MkBondHello BondProtocolV1 bondID 0 0 0 0 in
        let opened := opened ++ [Acquired PathWG] in
        let fail_with e log c := (Err e, log ++ (run_cleanup c).1) in
        match first with
        | Err e => fail_with e opened (Closure false false false)
        | Ok _ =>
            match kcp with
            | Err e => fail_with (errorf_w (str "vless bond KCP session: ") e) opened (Closure false false false)
            | Ok _ =>
                let opened := opened ++ [Acquired KcpSession] in
                match smux with
                | Err e => fail_with (errorf_w (str "vless bond smux client: ") e) opened (Closure true false false)
                | Ok _ =>
                    (Ok (hello, newVLESSBondGeneration bondID true true, Closure true true false),
                     opened ++ [Acquired SmuxSession])
                end
            end
        end
  end.

(** Calling [generation.close()] [n] times. *)
Fixpoint close_times (n : nat) (g : generation) (c : closure) : list resource_event :=
  match n with
  | O => []
  | S n =>
      let '(runs, g) := gen_close g in
      let '(log, c) := if runs then run_cleanup c else ([], c) in
      log ++ close_times n g c
  end.

Definition acquired (log : list resource_event) : list resource :=
  omap (λ e, match e with Acquired r => Some r | Released _ => None end) log.
Definition released (log : list resource_event) : list resource :=
  omap (λ e, match e with Released r => Some r | Acquired _ => None end) log.

Lemma close_times_done n g c : cleanup_done g = true → close_times n g c = [].
Proof. intros H. induction n as [|n IH]; [done|]. cbn. unfold gen_close. rewrite H. cbn. done. Qed.

(** ** The session slot *)

(** [current] is the published generation.  The channel [changed] is known by
    its number: channel [n] is closed when [n < changed]. *)
Record slot := MkSlot { current : option gen; changed : nat }.

Definition newVLESSBondSessionSlot : slot := MkSlot None 0.

Definition notifyLocked (s : slot) : slot := MkSlot (current s) (S (changed s)).

Definition publish (g : option gen) (s : slot) : slot := notifyLocked (MkSlot g (changed s)).

Definition clear (g : gen) (s : slot) : slot :=
  if bool_decide (current s = Some g) then notifyLocked (MkSlot None (changed s)) else s.

Definition get (s : slot) : option gen := current s.

Definition channel_closed (s : slot) (c : nat) : bool := (c <? changed s)%nat.

(** A goroutine in [wait]: about to read the slot, blocked in the [select] on
    the channel it read, returned. *)
Inductive waiter := Reading | Blocked (c : nat) | Got (g : gen) | Cancelled.

(** One of its steps; [None] when it cannot move. *)
Definition wait_step (ctx_done : bool) (s : slot) (w : waiter) : option waiter :=
  match w with
  | Reading => Some (match current s with Some g => Got g | None => Blocked (changed s) end)
  | Blocked c => if channel_closed s c then Some Reading else if ctx_done then Some Cancelled else None
  | Got _ | Cancelled => None
  end.

(** The slot with any number of waiters, under any interleaving. *)
Inductive slot_step : slot * list waiter → slot * list waiter → Prop :=
  | slot_publish g s ws : slot_step (s, ws) (publish (Some g) s, ws)
  | slot_clear g s ws : slot_step (s, ws) (clear g s, ws)
  | slot_arrive s ws : slot_step (s, ws) (s, ws ++ [Reading])
  | slot_wait ctx s ws i w w' :
      ws !! i = Some w → wait_step ctx s w = Some w' → slot_step (s, ws) (s, <[i:=w']> ws).

(** A waiter blocked on an open channel saw an empty slot that is still empty. *)
Definition waiter_ok (s : slot) (w : waiter) : Prop :=
  match w with Blocked c => (c ≤ changed s)%nat ∧ (c = changed s → current s = None) | _ => True end.

Lemma waiters_ok_notified s s' ws : changed s' = S (changed s) → Forall (waiter_ok s) ws → Forall (waiter_ok s') ws.
Proof.
  intros Hc H. eapply Forall_impl; [exact H|]. intros [|c| |]; cbn; try done. intros [Hle _]. rewrite Hc. split; lia.
Qed.

Lemma slot_inv_step st st' : slot_step st st' → Forall (waiter_ok st.1) st.2 → Forall (waiter_ok st'.1) st'.2.
Proof.
  destruct 1 as [g s ws|g s ws|s ws|ctx s ws i w w' Hw Hstep]; cbn; intros H.
  - by apply (waiters_ok_notified s).
  - unfold clear. case_bool_decide; [by apply (waiters_ok_notified s)|done].
  - apply Forall_app. split; [done|]. by repeat constructor.
  - apply Forall_insert; [done|]. destruct w; cbn in Hstep; repeat case_match; simplify_eq; try done.
Qed.

Lemma slot_inv st : rtc slot_step (newVLESSBondSessionSlot, []) st → Forall (waiter_ok st.1) st.2.
Proof.
  intros Hr. assert (Forall (waiter_ok newVLESSBondSessionSlot) []) as H0 by constructor.
  change (Forall (waiter_ok (newVLESSBondSessionSlot, @nil waiter).1) (newVLESSBondSessionSlot, @nil waiter).2) in H0.
  induction Hr as [|s1 s2 s3 H12 _ IH]; [done|]. by apply IH, (slot_inv_step s1).
Qed.

(** ** The supervising loop *)

(** What one round of [superviseVLESSBond] meets. *)
Record sup_round := SupRound {
  sr_done0 : bool;                 (* ctx.Err() at the head *)
  sr_made : made;                  (* factory(ctx) *)
  sr_done1 : bool;                 (* ctx.Err() after a failed set-up *)
  sr_lifetime : Z;                 (* how long the generation lived *)
  sr_done2 : bool;                 (* ctx.Err() after the wait *)
  sr_delay : bool;                 (* waitContextDelay *)
}.

Inductive sup_action :=
  | Publish (g : gen) | SessionOpenedA | Waited (g : gen) | Clear (g : gen)
  | SessionClosedA | CloseGen (g : gen) | SessionReconnectedA | Delay (attempt : Z).

(** A round from [attempt]: its actions, and the next [attempt] unless the loop
    returns. *)
Definition supervise_iter (attempt : Z) (r : sup_round) : list sup_action * option Z :=
  if sr_done0 r then ([], None)
  else
    let go_on attempt := if sr_delay r then Some (wrap_int (attempt + 1)) else None in
    match sr_made r with
    | (_, Some _) | (None, None) =>
        if sr_done1 r then ([], None) else ([SessionReconnectedA; Delay attempt], go_on attempt)
    | (Some g, None) =>
        let lived := [Publish g; SessionOpenedA; Waited g; Clear g; SessionClosedA; CloseGen g] in
        if sr_done2 r then (lived, None)
        else
          let attempt := if sr_lifetime r >=? vlessBondStableGeneration then 0 else attempt in
          (lived ++ [SessionReconnectedA; Delay attempt], go_on attempt)
    end.

Fixpoint supervise (attempt : Z) (rs : list sup_round) : list sup_action :=
  match rs with
  | [] => []
  | r :: rs =>
      let '(acts, next) := supervise_iter attempt r in
      acts ++ match next with Some attempt => supervise attempt rs | None => [] end
  end.

Definition superviseVLESSBond (rs : list sup_round) : list sup_action := supervise 0 rs.

(** What the actions do to the slot, to the process metrics and to the
    generations. *)
Record shared := MkShared { sh_slot : slot; sh_metrics : Metrics.Registry; sh_closed : list gen }.

Definition act (a : sup_action) (s : shared) : shared :=
  let with_metrics f := MkShared (sh_slot s) (f (sh_metrics s)) (sh_closed s) in
  match a with
  | Publish g => MkShared (publish (Some g) (sh_slot s)) (sh_metrics s) (sh_closed s)
  | Clear g => MkShared (clear g (sh_slot s)) (sh_metrics s) (sh_closed s)
  | SessionOpenedA => with_metrics Metrics.SessionOpened
  | SessionClosedA => with_metrics Metrics.SessionClosed
  | SessionReconnectedA => with_metrics Metrics.SessionReconnected
  | CloseGen g => MkShared (sh_slot s) (sh_metrics s) (sh_closed s ++ [g])
  | Waited _ | Delay _ => s
  end.

Definition replay (acts : list sup_action) (s : shared) : shared := foldl (λ s a, act a s) s acts.

Definition shared_init : shared := MkShared newVLESSBondSessionSlot Metrics.zero_registry [].

(** The generations the factory hands over in [rs]. *)
Definition made_gens (rs : list sup_round) : list gen :=
  omap (λ r, match sr_made r with (Some g, None) => Some g | _ => None end) rs.

Definition published (acts : list sup_action) : list gen :=
  omap (λ a, match a with Publish g => Some g | _ => None end) acts.

(** Between rounds. *)
Definition at_rest (s : shared) : Prop :=
  current (sh_slot s) = None ∧ Metrics.activeSessions (sh_metrics s) = 0.

(** At every moment. *)
Definition live_ok (s : shared) : Prop :=
  0 ≤ Metrics.activeSessions (sh_metrics s) ≤ 1 ∧
  match current (sh_slot s) with Some g => g ∉ sh_closed s | None => True end.

Lemma replay_app a b s : replay (a ++ b) s = replay b (replay a s).
Proof. unfold replay. by rewrite foldl_app. Qed.

(** [P] holds before the first action and after each. *)
Fixpoint always (P : shared → Prop) (acts : list sup_action) (s : shared) : Prop :=
  P s ∧ match acts with [] => True | a :: acts => always P acts (act a s) end.

Lemma always_app P a b s : always P a s → always P b (replay a s) → always P (a ++ b) s.
Proof.
  revert s. induction a as [|x a IH]; intros s; cbn; [done|]. intros [? ?] ?. split; [done|]. by apply IH.
Qed.

Lemma always_prefix P acts s pre : always P acts s → pre `prefix_of` acts → P (replay pre s).
Proof.
  revert s acts. induction pre as [|x pre IH]; intros s acts Ha [k ->]; [by destruct k, Ha|].
  cbn in Ha. destruct Ha as [_ Ha]. apply (IH (act x s) (pre ++ k)); [done|by exists k].
Qed.

(** The actions of one round, from a state at rest. *)
Lemma iter_ok attempt r s : at_rest s → Forall (λ g, g ∉ sh_closed s) (made_gens [r]) →
  let acts := (supervise_iter attempt r).1 in
  at_rest (replay acts s) ∧ sh_closed (replay acts s) = sh_closed s ++ published acts ∧
  published acts `prefix_of` made_gens [r] ∧
  (is_Some (supervise_iter attempt r).2 → published acts = made_gens [r]) ∧ always live_ok acts s.
Proof.
  destruct s as [[cur ch] reg cl]. intros [Hc Hg] Hfresh. cbn in Hc, Hg. subst cur.
  assert (at_rest (MkShared (MkSlot None ch) reg cl)) as Hr by done.
  assert (live_ok (MkShared (MkSlot None ch) reg cl)) as Hl by (split; [cbn; lia|done]).
  assert (at_rest (MkShared (MkSlot None ch) (Metrics.SessionReconnected reg) cl)) as R0 by done.
  assert (live_ok (MkShared (MkSlot None ch) (Metrics.SessionReconnected reg) cl)) as L0 by done.
  unfold supervise_iter. destruct (sr_done0 r).
  { cbn. rewrite app_nil_r. split_and!; [done..|apply prefix_nil|by intros [? [=]]|done|done]. }
  unfold made_gens in *. cbn [omap list_omap] in *. destruct (sr_made r) as [[g|] [e|]]; cbn [snd fst] in *.
  1,3,4: destruct (sr_done1 r); cbn -[Metrics.SessionReconnected]; rewrite app_nil_r;
    split_and!; first [done | apply prefix_nil | apply R0 | idtac].
  rewrite Forall_singleton in Hfresh. cbn in Hfresh.
  assert (live_ok (MkShared (MkSlot (Some g) (S ch)) reg cl)) as L1 by (split; cbn; [lia|done]).
  assert (live_ok (MkShared (MkSlot (Some g) (S ch)) (Metrics.SessionOpened reg) cl)) as L2
    by (split; cbn; [rewrite Hg; by vm_compute|done]).
  assert (live_ok (MkShared (MkSlot None (S (S ch))) (Metrics.SessionOpened reg) cl)) as L3
    by (split; cbn; [rewrite Hg; by vm_compute|done]).
  assert (at_rest (MkShared (MkSlot None (S (S ch))) (Metrics.SessionClosed (Metrics.SessionOpened reg)) (cl ++ [g]))) as R1
    by (split; [done|cbn; rewrite Hg; by vm_compute]).
  assert (∀ cl', live_ok (MkShared (MkSlot None (S (S ch))) (Metrics.SessionClosed (Metrics.SessionOpened reg)) cl')) as L4
    by (intros; split; [cbn; rewrite Hg; by vm_compute|done]).
  assert (clear g (MkSlot (Some g) (S ch)) = MkSlot None (S (S ch))) as Hcl
    by (unfold clear; cbn; by rewrite bool_decide_eq_true_2).
  destruct (sr_done2 r); [|destruct (sr_lifetime r >=? vlessBondStableGeneration)];
    cbn -[clear Metrics.SessionOpened Metrics.SessionClosed Metrics.SessionReconnected];
    unfold publish, notifyLocked; cbn -[clear Metrics.SessionOpened Metrics.SessionClosed Metrics.SessionReconnected];
    rewrite Hcl; cbn -[Metrics.SessionOpened Metrics.SessionClosed]; split_and!; auto; try apply L4; try apply R1.
Qed.

Lemma made_gens_cons r rs : made_gens (r :: rs) = made_gens [r] ++ made_gens rs.
Proof. unfold made_gens. cbn. by destruct (sr_made r) as [[|] [|]]. Qed.

Lemma published_app a b : published (a ++ b) = published a ++ published b.
Proof. unfold published. by rewrite omap_app. Qed.

Lemma supervise_ok attempt rs s : at_rest s → NoDup (sh_closed s ++ made_gens rs) →
  let acts := supervise attempt rs in
  at_rest (replay acts s) ∧ sh_closed (replay acts s) = sh_closed s ++ published acts ∧
  published acts `prefix_of` made_gens rs ∧ always live_ok acts s.
Proof.
  revert attempt s. induction rs as [|r rs IH]; intros attempt s Hr Hnd.
  { cbn. rewrite app_nil_r. split; [done|]. split; [done|]. split; [done|]. split; [|done].
    destruct Hr as [Hc Hg]. split; [lia|by rewrite Hc]. }
  rewrite made_gens_cons in Hnd. cbn [supervise].
  destruct (iter_ok attempt r s Hr) as (Hr1 & Hcl1 & Hp1 & Hn1 & Ha1).
  { apply Forall_forall. intros g Hg Hin. apply NoDup_app in Hnd as (_ & Hd & _).
    apply (Hd g Hin). apply elem_of_app. by left. }
  destruct (supervise_iter attempt r) as [acts [next|]]; cbn [fst] in *.
  - destruct (IH next (replay acts s) Hr1) as (Hr2 & Hcl2 & Hp2 & Ha2).
    { rewrite Hcl1, Hn1 by done. by rewrite <-app_assoc. }
    rewrite replay_app, published_app, Hcl2, Hcl1, Hn1, <-app_assoc by done.
    split; [done|]. split; [done|]. split; [rewrite (made_gens_cons r rs); by apply prefix_app|by apply always_app].
  - rewrite app_nil_r. split; [done|]. split; [done|]. split; [rewrite (made_gens_cons r rs); by apply prefix_app_r|done].
Qed.

(** ** Accepted connections *)

(** What happens to one TCP connection accepted by
    [runSupervisedVLESSBondMode]: it is closed when there is no generation or
    its session is closed, piped over a new stream otherwise; a session that
    cannot open a stream fails its generation. *)
Inductive connection_fate := ClosedAtOnce | StreamFailed (e : goerror) | Piped.

Definition handle_connection (s : slot) (gens : gmap nat generation) (session_closed : gen → bool)
    (open_stream : gen → result unit) : connection_fate * gmap nat generation :=
  match get s with
  | None => (ClosedAtOnce, gens)
  | Some g =>
      if session_closed g then (ClosedAtOnce, gens)
      else match open_stream g with
           | Err e => (StreamFailed e, alter (fail (Some (errorf_w (str "smux open stream: ") e))) g gens)
           | Ok _ => (Piped, gens)
           end
  end.

(** ** Theorems *)

(** The delay before the next generation.  After [attempt] consecutive failures
    it lies between half and the whole of [2^attempt] seconds, capped at 30
    seconds, and the call to the random source never panics, for every
    [attempt], negative and huge ones included. *)
Theorem retry_delay_bounds Int63n attempt : int63n_ok Int63n →
  let full := Z.min (2 ^ Z.max 0 attempt * Second) (30 * Second) in
  ∃ d, vlessBondGenerationRetryDelay Int63n attempt = Done d ∧ full / 2 ≤ d ≤ full.
Proof.
  intros Hok full. unfold vlessBondGenerationRetryDelay.
  assert (double_delay (Z.to_nat (if attempt <? 0 then 0 else attempt)) Second = full) as ->.
  { rewrite double_delay_min by (unfold Second; lia). unfold full.
    destruct (Z.ltb_spec attempt 0).
    - change (2 ^ Z.of_nat (Z.to_nat 0)) with 1. rewrite Z.max_l by lia. change (2 ^ 0) with 1. lia.
    - rewrite Z2Nat.id, Z.max_r by lia. lia. }
  assert (0 < 2 ^ Z.max 0 attempt) by (apply Z.pow_pos_nonneg; lia).
  assert (0 < full) by (unfold full, Second; nia).
  rewrite Z.quot_div_nonneg by lia. pose proof (Z.div_mod full 2 ltac:(done)) as Hdm.
  pose proof (Z.mod_pos_bound full 2 ltac:(done)).
  destruct (Hok (full - full / 2 + 1)) as (r & -> & Hr); [lia|]. eexists. split; [done|]. lia.
Qed.

(** No resource leaks from a set-up.  Whatever fails, everything acquired so
    far has been released, once, when [createVLESSBondGeneration] returns an
    error; when it succeeds nothing has been released, and closing the
    generation any positive number of times releases everything once. *)
Theorem setup_releases g numSessions protocol bond_id first kcp smux :
  let '(r, log) := createVLESSBondGeneration g numSessions protocol bond_id first kcp smux in
  NoDup (acquired log) ∧
  match r with
  | Err _ => released log ≡ₚ acquired log
  | Ok (_, gn, c) => released log = [] ∧ ∀ n, (0 < n)%nat → released (close_times n gn c) ≡ₚ acquired log
  end.
Proof.
  unfold createVLESSBondGeneration. destruct bond_id as [id|e]; [|by repeat constructor].
  destruct (_ && _). { cbn. split; [|done]. apply (bool_decide_unpack _). by vm_compute. }
  destruct first as [[]|e].
  2: { cbn. split; [|done]. apply (bool_decide_unpack _). by vm_compute. }
  destruct kcp as [[]|e].
  2: { cbn. split; [|done]. apply (bool_decide_unpack _). by vm_compute. }
  destruct smux as [[]|e].
  2: { cbn. split; [|solve_Permutation]. apply (bool_decide_unpack _). by vm_compute. }
  cbn. split; [apply (bool_decide_unpack _); by vm_compute|]. split; [done|].
  intros [|n] Hn; [lia|]. cbn. rewrite close_times_done by done. solve_Permutation.
Qed.

(** No wake-up is lost.  However publications, clearings and waiters interleave,
    when a generation is in the slot every waiter that has not returned can
    move, and two moves of its own are enough for it to return that
    generation. *)
Theorem no_lost_wakeup s ws i w g : rtc slot_step (newVLESSBondSessionSlot, []) (s, ws) →
  ws !! i = Some w → current s = Some g → w = Reading ∨ (∃ c, w = Blocked c) →
  ∃ w', wait_step false s w = Some w' ∧ (w' = Got g ∨ wait_step false s w' = Some (Got g)).
Proof.
  intros Hr Hi Hg Hw. apply slot_inv in Hr. cbn in Hr.
  destruct Hw as [-> | [c ->]].
  - cbn. rewrite Hg. eauto.
  - pose proof (Forall_lookup_1 _ _ _ _ Hr Hi) as [Hle Hnone].
    exists Reading. split; [|right; cbn; by rewrite Hg]. unfold wait_step, channel_closed.
    destruct (Nat.ltb_spec c (changed s)); [done|]. rewrite Hnone in Hg; [done|lia].
Qed.

(** The supervising loop over any number of rounds, with a factory that hands
    over each generation once.  Whenever another goroutine looks, the slot
    never holds a generation the supervisor has closed and the session gauge is
    0 or 1; when the loop is between rounds or has returned, the slot is empty,
    the gauge is 0, and the closed generations are exactly the published
    ones, each once and in order. *)
Theorem supervisor_owns_generations rs : NoDup (made_gens rs) →
  let log := superviseVLESSBond rs in
  (∀ pre, pre `prefix_of` log → live_ok (replay pre shared_init)) ∧
  at_rest (replay log shared_init) ∧
  sh_closed (replay log shared_init) = published log ∧ published log `prefix_of` made_gens rs.
Proof.
  intros Hnd log. assert (at_rest shared_init) as H0 by done.
  destruct (supervise_ok 0 rs shared_init H0 Hnd) as (Hr & Hc & Hp & Ha).
  split; [intros pre Hpre; by eapply always_prefix|]. split; [done|]. by split.
Qed.

(** ** Witnesses *)

Definition middle (n : Z) : outcome Z := if n <=? 0 then Panics else Done (n / 2).

Lemma retry_delay_bounds_witness :
  ∃ d, vlessBondGenerationRetryDelay middle 2 = Done d ∧ 2 * Second ≤ d ≤ 4 * Second.
Proof.
  apply (retry_delay_bounds middle 2). intros n Hn. exists (n / 2). unfold middle.
  destruct (Z.leb_spec n 0); [lia|]. split; [done|]. split; [apply Z.div_pos; lia|apply Z.div_lt; lia].
Defined.

Lemma no_lost_wakeup_witness :
  ∃ w', wait_step false (publish (Some 7%nat) newVLESSBondSessionSlot) (Blocked 0) = Some w' ∧
    (w' = Got 7 ∨ wait_step false (publish (Some 7%nat) newVLESSBondSessionSlot) w' = Some (Got 7)).
Proof.
  apply (no_lost_wakeup (publish (Some 7%nat) newVLESSBondSessionSlot) [Blocked 0] 0); [|reflexivity..|by eauto].
  eapply rtc_l; [apply slot_arrive|].
  eapply rtc_l; [apply (slot_wait false _ _ 0 Reading (Blocked 0)); reflexivity|].
  eapply rtc_l; [apply (slot_publish 7)|]. apply rtc_refl.
Defined.

Definition two_rounds : list sup_round :=
  [SupRound false (None, Some (errorf (str "no path"))) false 0 false true;
   SupRound false (Some 1%nat, None) false Minute true true].

Lemma supervisor_owns_generations_witness :
  sh_closed (replay (superviseVLESSBond two_rounds) shared_init) = [1%nat].
Proof.
  destruct (supervisor_owns_generations two_rounds) as (_ & _ & -> & _); [|reflexivity].
  repeat constructor. by apply not_elem_of_nil.
Defined.

End SuperviseLoop.
