(* ===== verification/ClientPool.v ===== *)
(** * The client's session pool and its start-up checks (client/main.go)

    Without bonding the client spreads TCP connections over a pool of smux
    sessions.  The file covers [sessionPool] with its load-ordered candidates
    and the bounded opening of a stream, and the validation of the client's
    command line.  smux is a parameter: whether a session is closed, how many
    streams it has and what an attempt to open a stream meets are inputs. *)

From S2P Require Import Prelude GoStrings GoIP BondHello Metrics BondedConn.

Module ClientPool.

(** ** The pool *)

Abbreviation sid := nat (only parsing).

Record pool := MkPool { sessions : list sid; counter : Z; pool_metrics : Metrics.Registry }.

Definition pool_add (s : sid) (p : pool) : pool :=
  MkPool (sessions p ++ [s]) (counter p) (Metrics.SessionOpened (pool_metrics p)).

Definition pool_remove (s : sid) (p : pool) : pool :=
  if bool_decide (s ∈ sessions p)
  then MkPool (remove_first s (sessions p)) (counter p) (Metrics.SessionClosed (pool_metrics p))
  else p.

Definition pool_count (p : pool) : Z := Z.of_nat (length (sessions p)).

(** [sort.SliceStable] by increasing load. *)
Definition stable_sort (load : sid → Z) (l : list sid) : list sid := isort (λ a b, load a <=? load b) l.

(** The loop [p.sessions[(start+i)%n]] is the index loop of [WriteTo]. *)
Definition rotation (start : Z) (l : list sid) : list sid :=
  default [] (BondedConn.attempt_order l start (seq 0 (length l))).

Definition candidates (is_closed : sid → bool) (load : sid → Z) (p : pool) : list sid * pool :=
  let n := length (sessions p) in
  if (n =? 0)%nat then ([], p)
  else
    let c := wrap_uint (counter p + 1) in
    let start := c mod Z.of_nat n in
    let live := filter (λ s, is_closed s = false) (rotation start (sessions p)) in
    (stable_sort load live, MkPool (sessions p) c (pool_metrics p)).

(** *** Stable sorting *)

Definition load_le (load : sid → Z) (a b : sid) : Prop := load a ≤ load b.

Lemma stable_sort_sorted load l : StronglySorted (load_le load) (stable_sort load l).
Proof.
  eapply StronglySorted_weaken; [|apply (isort_sorted _ (λ _, True)); [lia|lia|by apply Forall_true]].
  intros x y. unfold load_le. lia.
Qed.

(** Sessions of equal load keep their order. *)
Lemma stable_sort_ties load l k : filter (λ s, load s = k) (stable_sort load l) = filter (λ s, load s = k) l.
Proof. apply isort_ties. lia. Qed.

Lemma rotation_rotate start l : 0 ≤ start → rotation start l = rotate (Z.to_nat start) l.
Proof.
  intros Hs. unfold rotation. destruct l as [|x l]; [by destruct (Z.to_nat start)|].
  by rewrite BondedConn.attempt_order_rotate.
Qed.

(** ** Opening a stream *)

(** What an attempt on one session meets first: the answer of [OpenStream], the
    end of the context, each after some time, or the timer.  [late] is how long
    after its time the timer fires, [close_time] how long [session.Close] takes
    if it is called. *)
Inductive met := Opened (r : result nat) (dt : N) | CtxDone (e : goerror) (dt : N) | Stalled.
Record attempt := Attempt { meets : met; late : N; close_time : N }.

(** [openPooledStream]: the result, the time it took, and whether the session
    was closed; the call returns only after [session.Close] has. *)
Definition openPooledStream (timeout : Z) (a : attempt) : result nat * Z * bool :=
  let fires := timeout + Z.of_N (late a) in
  let closing := Z.of_N (close_time a) in
  let timed_out := (Err (errorf (str "smux stream open timed out")), fires + closing, true) in
  match meets a with
  | Opened r dt => if Z.of_N dt <=? fires then (r, Z.of_N dt, false) else timed_out
  | CtxDone e dt => if Z.of_N dt <=? fires then (Err e, Z.of_N dt + closing, true) else timed_out
  | Stalled => timed_out
  end.

(** The inner loop over [p.candidates()], each with what its attempt meets. *)
Fixpoint try_candidates (deadline maxAttempt now : Z) (lastErr : option goerror)
    (cs : list (sid * attempt)) (closed : list sid)
  : option nat * Z * option goerror * list sid :=
  match cs with
  | [] => (None, now, lastErr, closed)
  | (s, a) :: cs =>
      let remaining := deadline - now in
      if remaining <=? 0 then (None, now, lastErr, closed)
      else
        let attemptTimeout := if remaining <? maxAttempt then remaining else maxAttempt in
        let '(r, dt, shut) := openPooledStream attemptTimeout a in
        let closed := if shut then closed ++ [s] else closed in
        match r with
        | Ok stream => (Some stream, now + dt, lastErr, closed)
        | Err e => try_candidates deadline maxAttempt (now + dt) (Some e) cs closed
        end
  end.

Definition poll_interval : Z := 25 * Millisecond.

(** An outer iteration: the candidates with their attempts, whether and when the
    context ends during the pause, and how late the timer of the pause is. *)
Record iteration := Iteration { tries : list (sid * attempt); ctx_ends : option (goerror * N); pause_late : N }.

(** The outer loop: [None] while it is still running after the given
    iterations, otherwise the result, the time of return, and the sessions it
    closed. *)
Fixpoint open_loop (deadline maxAttempt now : Z) (lastErr : option goerror) (closed : list sid)
    (its : list iteration) : option (result nat * Z * list sid) :=
  match its with
  | [] => None
  | it :: its =>
      let '(found, now, lastErr, closed) := try_candidates deadline maxAttempt now lastErr (tries it) closed in
      match found with
      | Some stream => Some (Ok stream, now, closed)
      | None =>
          let remaining := deadline - now in
          if remaining <=? 0 then
            Some (Err (match lastErr with
                       | Some e => errorf_w (str "all active smux sessions rejected the stream: ") e
                       | None => errorf (str "no active smux sessions")
                       end), now, closed)
          else
            let poll := if remaining <? poll_interval then remaining else poll_interval in
            let fires := poll + Z.of_N (pause_late it) in
            let go_on := open_loop deadline maxAttempt (now + fires) lastErr closed its in
            match ctx_ends it with
            | Some (e, dt) => if Z.of_N dt <=? fires then Some (Err e, now + Z.of_N dt, closed) else go_on
            | None => go_on
            end
      end
  end.

Definition openStreamWithAttemptTimeout (wait maxAttempt now : Z) (its : list iteration)
  : option (result nat * Z * list sid) :=
  if wait <=? 0 then Some (Err (errorf (str "smux stream wait must be positive")), now, [])
  else if maxAttempt <=? 0 then Some (Err (errorf (str "smux stream attempt timeout must be positive")), now, [])
  else open_loop (now + wait) maxAttempt now None [] its.

Definition openStream (wait now : Z) (its : list iteration) := openStreamWithAttemptTimeout wait Second now its.

(** What one iteration may take beyond the times the code sets. *)
Definition attempt_within (over : Z) (a : attempt) : Prop := Z.of_N (late a) + Z.of_N (close_time a) ≤ over.
Definition within (over : Z) (it : iteration) : Prop :=
  Forall (λ t, attempt_within over t.2) (tries it) ∧ Z.of_N (pause_late it) ≤ over.

Lemma openPooledStream_time over timeout a : 0 ≤ timeout → attempt_within over a →
  0 ≤ (openPooledStream timeout a).1.2 ≤ timeout + over.
Proof. unfold attempt_within, openPooledStream. intros H Ha. destruct (meets a); try case_match; cbn; lia. Qed.

(** An attempt starts before the deadline only, so that one overrun at most is
    added to it. *)
Lemma try_candidates_time over deadline maxAttempt now le cs cl : now ≤ deadline + over → 0 < maxAttempt →
  Forall (λ t, attempt_within over t.2) cs →
  let '(_, now', _, _) := try_candidates deadline maxAttempt now le cs cl in now ≤ now' ≤ deadline + over.
Proof.
  intros Hn Hm Hcs. revert now le cl Hn. induction Hcs as [|[s a] cs Ha _ IH]; intros now le cl Hn; cbn; [lia|].
  destruct (Z.leb_spec (deadline - now) 0); [lia|].
  set (t := if deadline - now <? maxAttempt then deadline - now else maxAttempt).
  assert (0 < t ≤ deadline - now) as Ht by (unfold t; destruct (Z.ltb_spec (deadline - now) maxAttempt); lia).
  pose proof (openPooledStream_time over t a ltac:(lia) Ha) as Hd.
  destruct (openPooledStream t a) as [[r dt] shut]. cbn in Hd. destruct r as [stream|e]; [lia|].
  specialize (IH (now + dt) (Some e) (if shut then cl ++ [s] else cl) ltac:(lia)).
  destruct (try_candidates _ _ _ _ cs _) as [[[f n'] le'] cl']. lia.
Qed.

(** Every pause brings the deadline closer, so the number of iterations is
    bounded by the time left. *)
Lemma open_loop_returns over deadline maxAttempt now le cl its : now ≤ deadline + over → 0 < maxAttempt →
  Forall (within over) its → 0 < Z.of_nat (length its) →
  deadline - now ≤ (Z.of_nat (length its) - 1) * poll_interval →
  ∃ r t cl', open_loop deadline maxAttempt now le cl its = Some (r, t, cl') ∧ now ≤ t ≤ deadline + over.
Proof.
  intros Hn Hm Hits. revert now le cl Hn. induction Hits as [|it its [Hit Hlate] _ IH]; intros now le cl Hn Hpos Hlen.
  { cbn in Hpos. lia. }
  cbn [open_loop]. pose proof (try_candidates_time over deadline maxAttempt now le (tries it) cl Hn Hm Hit) as Ht.
  destruct (try_candidates _ _ now _ _ _) as [[[[stream|] now'] le'] cl']; [by eauto 10|].
  destruct (Z.leb_spec (deadline - now') 0); [by eauto 10|].
  set (poll := if deadline - now' <? poll_interval then deadline - now' else poll_interval).
  assert (poll = Z.min (deadline - now') poll_interval) as Hp
    by (unfold poll; destruct (Z.ltb_spec (deadline - now') poll_interval); lia).
  assert (0 < poll_interval) as Hint by done.
  cbn [length] in Hlen. rewrite Nat2Z.inj_succ in Hlen.
  assert (0 < Z.of_nat (length its)) as Hone by nia.
  destruct (IH (now' + (poll + Z.of_N (pause_late it))) le' cl') as (r & t & cl2 & -> & ?); [lia|done| |].
  { rewrite Hp. destruct (Z.min_spec (deadline - now') poll_interval) as [[? ->]|[? ->]]; nia. }
  destruct (ctx_ends it) as [[e dt]|]; [destruct (Z.leb_spec (Z.of_N dt) (poll + Z.of_N (pause_late it)))|];
    eexists _, _, _; (split; [reflexivity|lia]).
Qed.

(** ** Start-up checks *)

Definition validateClientVLESSFlags (vlessMode vlessBond : bool) (streamCount : Z) : result unit :=
  if vlessBond && negb vlessMode then Err (errorf (str "-vless-bond requires -vless"))
  else if vlessMode && (streamCount <? 0) then Err (errorf (str "VLESS session count must not be negative"))
  else if vlessMode && vlessBond && (streamCount >? BondHello.MaxBondPaths) then
    Err (errorf (str "VLESS bond session count must not exceed " ++ Itoa BondHello.MaxBondPaths))
  else Ok tt.

Definition normalizeVLESSSessionCount (streamCount : Z) : Z := if streamCount <=? 0 then 1 else streamCount.

Definition normalizeUDPPathCount (vlessMode : bool) (pathCount : Z) (unsafeMultipath : bool) : Z :=
  if negb vlessMode && (pathCount >? 1) && negb unsafeMultipath then 1 else pathCount.

Definition validateClientListenAddress (address : bytes) (unsafeNonLoopback : bool) : result unit :=
  let? '(host, _) := SplitHostPort (TrimSpace address) in
  let ip := ParseIP host in
  if negb (bool_decide (ip = [])) && IsLoopback ip then Ok tt
  else if unsafeNonLoopback then Ok tt
  else Err (errorf (str "listen host must be a literal loopback IP; use -unsafe-listen-non-loopback only for a deliberately exposed proxy")).

Definition defaultStreamsPerCache : Z := 10.

Definition normalizeStreamsPerCredential (streams : Z) : Z :=
  if streams <=? 0 then defaultStreamsPerCache else streams.

Definition validateClientCompatibilityFlags (noDTLS : bool) (dnsMode : bytes) (wrap : bool)
    (wrapKey : bytes) (generateWrapKey : bool) : result unit :=
  if noDTLS then Err (errorf (str "-no-dtls is not implemented in this build"))
  else
    let mode := ToLower (TrimSpace dnsMode) in
    let? _ :=
      if bool_decide (mode ∈ [[]; str "auto"; str "udp"]) then Ok tt
      else if bool_decide (mode = str "doh") then Err (errorf (str "-dns=doh is not implemented in this build"))
      else Err (errorf (str "unsupported -dns mode " ++ quote dnsMode ++ str " (expected auto or udp)")) in
    if wrap || negb (bool_decide (wrapKey = [])) || generateWrapKey then
      Err (errorf (str "WRAP compatibility mode is not implemented in this build"))
    else Ok tt.

(** *** DNS servers *)

Definition dns_separator (c : ascii) : bool :=
  bool_decide (c ∈ [","; ";"; " "]%char) || bool_decide (code c ∈ [9; 10; 13]).

(** [strings.FieldsFunc] for a predicate on ASCII bytes. *)
Fixpoint fields_func (sep : ascii → bool) (cur : bytes) (s : bytes) : list bytes :=
  match s with
  | [] => flush cur
  | c :: s => if sep c then flush cur ++ fields_func sep [] s else fields_func sep (c :: cur) s
  end.

Definition FieldsFunc (sep : ascii → bool) (s : bytes) : list bytes := fields_func sep [] s.

Definition bad_resolver (addr why : bytes) : goerror :=
  errorf (str "bad resolver " ++ quote addr ++ str ": " ++ why).

(** One resolver of the list. *)
Definition parse_resolver (addr : bytes) : result bytes :=
  let normalized := if is_ok (SplitHostPort addr) then addr else JoinHostPort addr (str "53") in
  match SplitHostPort normalized with
  | Err e => Err (errorf_w (str "bad resolver " ++ quote addr ++ str ": ") e)
  | Ok (host, port) =>
      if bool_decide (host = []) then Err (bad_resolver addr (str "empty host"))
      else
        let invalid := Err (bad_resolver addr (str "invalid port")) in
        match Atoi port with
        | Err _ => invalid
        | Ok n => if (n <? 1) || (n >? 65535) then invalid else Ok normalized
        end
  end.

Fixpoint parse_resolvers (parts : list bytes) : result (list bytes) :=
  match parts with
  | [] => Ok []
  | part :: parts =>
      let addr := TrimSpace part in
      if bool_decide (addr = []) then parse_resolvers parts
      else
        let? s := parse_resolver addr in
        let? rest := parse_resolvers parts in
        Ok (s :: rest)
  end.

Definition parseDNSServers (raw : bytes) : result (list bytes) :=
  let? servers := parse_resolvers (FieldsFunc dns_separator raw) in
  if bool_decide (servers = []) then Err (errorf (str "no DNS servers provided")) else Ok servers.

(** [generateBondID] on the 16 bytes the random source gives. *)
Definition generateBondID (random : result bytes) : result bytes :=
  let? id := random in Ok (EncodeToString id).

Definition resolver_ok (s : bytes) : Prop :=
  ∃ host port n, SplitHostPort s = Ok (host, port) ∧ host ≠ [] ∧ Atoi port = Ok n ∧ 1 ≤ n ≤ 65535.

Lemma parse_resolver_ok addr s : parse_resolver addr = Ok s → resolver_ok s.
Proof.
  unfold parse_resolver. set (n := if is_ok _ then _ else _).
  destruct (SplitHostPort n) as [[host port]|e] eqn:Hs; [|done].
  case_bool_decide; [done|]. destruct (Atoi port) as [p|] eqn:Hp; [|done].
  destruct (Z.ltb_spec p 1); [done|]. destruct (Z.gtb_spec p 65535); [done|].
  intros [= <-]. exists host, port, p. split_and!; (done || lia).
Qed.

Lemma parse_resolvers_ok parts ss : parse_resolvers parts = Ok ss → Forall resolver_ok ss.
Proof.
  revert ss. induction parts as [|part parts IH]; intros ss; cbn [parse_resolvers]; [intros [= <-]; constructor|].
  case_bool_decide; [apply IH|].
  intros (s & Hs%parse_resolver_ok & (rest & Hr & [= <-])%result_bind_ok)%result_bind_ok.
  constructor; auto.
Qed.

(** ** Theorems *)

(** The order in which a new connection tries the sessions.  The candidates are
    exactly the open sessions, each once; they are ordered by load; and
    sessions of equal load keep the round-robin order that starts one further
    with every call. *)
Theorem candidates_spec is_closed load p : 0 ≤ counter p < two64 - 1 → sessions p ≠ [] →
  let cs := (candidates is_closed load p).1 in
  let turn := filter (λ s, is_closed s = false) (rotate (Z.to_nat (counter p + 1)) (sessions p)) in
  cs ≡ₚ filter (λ s, is_closed s = false) (sessions p) ∧
  StronglySorted (load_le load) cs ∧
  (∀ k, filter (λ s, load s = k) cs = filter (λ s, load s = k) turn) ∧
  counter (candidates is_closed load p).2 = counter p + 1.
Proof.
  intros Hc Hne. unfold candidates.
  destruct (Nat.eqb_spec (length (sessions p)) 0) as [E|_]; [by destruct (sessions p)|].
  rewrite wrap_uint_id by (unfold in_uint; lia). cbn [fst snd counter].
  assert (0 < Z.of_nat (length (sessions p))) as Hl by (destruct (sessions p); cbn; [done|lia]).
  rewrite rotation_rotate by (apply Z.mod_pos_bound; lia).
  rewrite BondedConn.rotate_mod by (done || lia).
  split_and!; [|apply stable_sort_sorted|intros k; apply stable_sort_ties|done].
  unfold stable_sort. rewrite isort_perm. by rewrite BondedConn.rotate_permutation.
Qed.

(** C36: Opening a stream always comes back: with a positive wait and attempt
    limit, whatever the sessions and the context do, a number of polling rounds
    given by the wait suffices.  The call returns no later than its deadline
    plus [over], where [over] bounds what one attempt takes beyond its timer
    (the lateness of that timer and the synchronous [session.Close]) and the
    lateness of one pause: no matter how many sessions stall and are closed, at
    most one such overrun is added. *)
Theorem open_stream_returns over wait maxAttempt now its : 0 < wait → 0 < maxAttempt →
  wait ≤ (Z.of_nat (length its) - 1) * poll_interval → Forall (within over) its →
  ∃ r t closed, openStreamWithAttemptTimeout wait maxAttempt now its = Some (r, t, closed) ∧
    now ≤ t ≤ now + wait + over.
Proof.
  intros Hw Hm Hlen Hits. unfold openStreamWithAttemptTimeout.
  destruct (Z.leb_spec wait 0); [lia|]. destruct (Z.leb_spec maxAttempt 0); [lia|].
  assert (0 < poll_interval) by done. destruct Hits as [|it its [? ?] ?]; [cbn in Hlen; lia|].
  apply open_loop_returns; [lia|done|by repeat constructor|cbn; lia|lia].
Qed.

(** Every resolver that [parseDNSServers] returns can be dialled: it splits
    into a host that is not empty and a port in 1..65535; and the list is not
    empty. *)
Theorem dns_servers_valid raw servers : parseDNSServers raw = Ok servers →
  servers ≠ [] ∧ Forall resolver_ok servers.
Proof.
  unfold parseDNSServers. intros (ss & Hs%parse_resolvers_ok & H)%result_bind_ok.
  case_bool_decide; [done|]. by injection H as <-.
Qed.

(** *** The session gauge *)

(** Runs of the pool; a session is added once. *)
Inductive pool_step : pool → pool → Prop :=
  | step_add s p : s ∉ sessions p → pool_step p (pool_add s p)
  | step_remove s p : pool_step p (pool_remove s p)
  | step_candidates c l p : pool_step p (candidates c l p).2.

Definition pool_init : pool := MkPool [] 0 Metrics.zero_registry.

Definition gauge_inv (p : pool) : Prop :=
  NoDup (sessions p) ∧ Metrics.activeSessions (pool_metrics p) = wrap_int (pool_count p).

Lemma wrap_int_add a b : wrap_int (wrap_int a + b) = wrap_int (a + b).
Proof.
  unfold wrap_int. assert (two64 ≠ 0) by done.
  replace ((a + two63) mod two64 - two63 + b + two63) with ((a + two63) mod two64 + b) by lia.
  rewrite Zplus_mod_idemp_l. f_equal. f_equal. lia.
Qed.

Lemma pool_gauge_step p p' : pool_step p p' → gauge_inv p → gauge_inv p'.
Proof.
  destruct 1 as [s p Hs|s p|c l p]; intros [Hnd Hg]; unfold gauge_inv, pool_count in *.
  - cbn. split.
    + apply NoDup_app. split_and!; [done| |by repeat constructor; apply not_elem_of_nil].
      intros x Hx ->%list_elem_of_singleton. done.
    + rewrite length_app, Nat2Z.inj_add. unfold Metrics.add_int. rewrite Hg. apply wrap_int_add.
  - unfold pool_remove. case_bool_decide as Hin; [|done]. cbn. split; [by apply NoDup_remove_first|].
    unfold Metrics.add_int. rewrite Hg, wrap_int_add, (length_remove_first s (sessions p)) by done.
    f_equal. lia.
  - unfold candidates. by case_match.
Qed.

(** The exported session gauge is the number of pooled sessions, whatever
    sessions come and go and however often a session is removed. *)
Theorem pool_gauge_exact p : rtc pool_step pool_init p → pool_count p < two63 →
  NoDup (sessions p) ∧ Metrics.activeSessions (pool_metrics p) = pool_count p.
Proof.
  intros Hr Hlt. assert (gauge_inv pool_init) as H0 by (split; [constructor|done]).
  assert (gauge_inv p) as [Hnd Hg].
  { revert H0. induction Hr as [|p1 p2 p3 H12 _ IH]; [done|]. intros H0. by apply IH; [|apply (pool_gauge_step p1)]. }
  split; [done|]. rewrite Hg. apply wrap_int_id. unfold in_int, pool_count in *. unfold two63 in *. lia.
Qed.

(** ** Witnesses *)

Definition three : pool := MkPool [1; 2; 3]%nat 5 Metrics.zero_registry.
Definition busy (s : sid) : Z := if (s =? 1)%nat then 4 else 0.

Lemma candidates_spec_witness :
  filter (λ s, busy s = 0) (candidates (λ _, false) busy three).1 = [2; 3]%nat.
Proof.
  destruct (candidates_spec (λ _, false) busy three) as (_ & _ & H & _); [cbn; unfold two64; lia|done|].
  rewrite H. by vm_compute.
Defined.

(** A session that stalls and takes 40 ms to close. *)
Definition stalling : iteration := Iteration [(1%nat, Attempt Stalled 1000000 40000000)] None 500.

Lemma open_stream_returns_witness :
  ∃ r t closed, openStreamWithAttemptTimeout (50 * Millisecond) Second 0
      [Iteration [] None 0; stalling; Iteration [] None 0] = Some (r, t, closed) ∧
    0 ≤ t ≤ 0 + 50 * Millisecond + 41 * Millisecond.
Proof.
  apply (open_stream_returns (41 * Millisecond) (50 * Millisecond) Second 0); [done|done|done|].
  repeat constructor; by vm_compute.
Defined.

Lemma dns_servers_valid_witness : Forall resolver_ok [str "77.88.8.8:53"; str "[2a02:6b8::feed:ff]:53"].
Proof.
  apply (dns_servers_valid (str "77.88.8.8, 2a02:6b8::feed:ff")). by vm_compute.
Defined.

Lemma pool_gauge_exact_witness :
  Metrics.activeSessions (pool_metrics (pool_remove 1 (pool_remove 1 (pool_add 2 (pool_add 1 pool_init))))) = 1.
Proof.
  eapply (pool_gauge_exact (pool_remove 1 (pool_remove 1 (pool_add 2 (pool_add 1 pool_init))))); [|done].
  eapply rtc_l; [apply (step_add 1); apply not_elem_of_nil|].
  eapply rtc_l; [apply (step_add 2); by vm_compute; intros ?%list_elem_of_singleton|].
  eapply rtc_l; [apply step_remove|]. eapply rtc_l; [apply step_remove|]. apply rtc_refl.
Defined.

End ClientPool.
