(* ===== verification/ClientCreds.v ===== *)
(** * TURN credentials and the local peer (client/main.go, client/local_peer.go)

    The client caches the TURN credentials it obtains from VK per group of
    streams, drops them after repeated authentication errors, and spaces its
    requests out.  The file also holds the pin that binds return traffic to one
    local UDP peer.  The VK API is outside the repository: what a request
    returns, and the clock readings around it, are inputs.  Times are in
    nanoseconds; [Unix()] readings are in seconds. *)

From S2P Require Import Prelude GoStrings Metrics.

Module ClientCreds.

Definition credentialLifetime : Z := 10 * Minute.
Definition cacheSafetyMargin : Z := 60 * Second.
Definition maxCacheErrors : Z := 3.
Definition errorWindowSeconds : Z := 10.

(** ** The cache *)

(** [expiresAt] is [None] for the zero [time.Time], which no clock reading
    precedes. *)
Record TurnCredentials := MkCreds {
  Username : bytes; Password : bytes; ServerAddr : bytes; ExpiresAt : option Z; Link : bytes;
}.

Definition zero_creds : TurnCredentials := MkCreds [] [] [] None [].

Record StreamCredentialsCache := MkCache { creds : TurnCredentials; errorCount : Z; lastErrorTime : Z }.

#[export] Instance cache_eta : Eta StreamCredentialsCache := λ c,
  MkCache (creds c) (errorCount c) (lastErrorTime c).

Definition zero_cache : StreamCredentialsCache := MkCache zero_creds 0 0.

(** [credentialsStore.caches]; a cache is never removed, so its identity is its
    number. *)
Abbreviation store := (gmap Z StreamCredentialsCache).

(** Go's division truncates; [streamsPerCache] is positive. *)
Definition getCacheID (streamsPerCache streamID : Z) : Z := Z.quot streamID streamsPerCache.

Definition getStreamCache (id : Z) (st : store) : StreamCredentialsCache * store :=
  match st !! id with
  | Some c => (c, st)
  | None => (zero_cache, <[id := zero_cache]> st)
  end.

Definition isAuthError (err : option goerror) : bool :=
  match err with
  | None => false
  | Some e =>
      let s := ToLower (err_text e) in
      Contains s (str "401") || Contains s (str "unauthorized") || Contains s (str "authentication")
      || Contains s (str "invalid credential") || Contains s (str "stale nonce")
  end.

Definition isFatalCaptchaError (err : option goerror) : bool :=
  match err with None => false | Some e => Contains (err_text e) (str "FATAL_CAPTCHA") end.

Definition invalidate (c : StreamCredentialsCache) : StreamCredentialsCache :=
  c <| creds := zero_creds |> <| errorCount := 0 |> <| lastErrorTime := 0 |>.

(** [handleAuthError] at [now], in seconds: whether the cache was invalidated. *)
Definition handleAuthError (now : Z) (c : StreamCredentialsCache) : bool * StreamCredentialsCache :=
  let c := if now - lastErrorTime c >? errorWindowSeconds then c <| errorCount := 0 |> else c in
  let count := errorCount c + 1 in
  let c := c <| errorCount := count |> <| lastErrorTime := now |> in
  if count >=? maxCacheErrors then (true, invalidate c) else (false, c).

Definition recordTURNAllocationResult (id now : Z) (err : option goerror) (st : store) (reg : Metrics.Registry)
  : store * Metrics.Registry :=
  match err with
  | Some _ =>
      if isAuthError err then
        let '(c, st) := getStreamCache id st in
        (<[id := (handleAuthError now c).2]> st, Metrics.AuthFailed reg)
      else (st, reg)
  | None =>
      let '(c, st) := getStreamCache id st in
      (<[id := c <| errorCount := 0 |> <| lastErrorTime := 0 |>]> st, reg)
  end.

(** [cache.creds.Link == link && time.Now().Before(cache.creds.ExpiresAt)] *)
Definition usable (link : bytes) (now : Z) (c : TurnCredentials) : bool :=
  bool_decide (Link c = link) && match ExpiresAt c with Some t => now <? t | None => false end.

(** What the code returns: user, password and address. *)
Definition triple (c : TurnCredentials) : bytes * bytes * bytes := (Username c, Password c, ServerAddr c).

(** [getVkCredsCached]: the clock at the two checks and after the fetch, and
    what the fetch returns should it be made.  The second component tells
    whether it was. *)
Record lookup_env := LookupEnv { now1 : Z; now2 : Z; now3 : Z; fetched : result (bytes * bytes * bytes) }.

Definition getVkCredsCached (env : lookup_env) (link : bytes) (id : Z) (st : store)
  : result (bytes * bytes * bytes) * bool * store :=
  let '(c, st) := getStreamCache id st in
  if usable link (now1 env) (creds c) then (Ok (triple (creds c)), false, st)
  else if usable link (now2 env) (creds c) then (Ok (triple (creds c)), false, st)
  else match fetched env with
       | Err e => (Err e, true, st)
       | Ok (u, p, a) =>
           let fresh := MkCreds u p a (Some (now3 env + (credentialLifetime - cacheSafetyMargin))) link in
           (Ok (u, p, a), true, <[id := c <| creds := fresh |>]> st)
       end.

(** *** Histories of one process *)

(** A call on the store with its readings of the clock. *)
Inductive call :=
  | Lookup (env : lookup_env) (link : bytes) (id : Z)
  | Record' (id seconds : Z) (err : option goerror).

Definition run_call (c : call) (s : store * Metrics.Registry) : store * Metrics.Registry :=
  match c with
  | Lookup env link id => ((getVkCredsCached env link id s.1).2, s.2)
  | Record' id t err => recordTURNAllocationResult id t err s.1 s.2
  end.

(** The fetches of a history: link, cache, what was returned and when. *)
Definition fetch_of (c : call) : option (bytes * Z * (bytes * bytes * bytes) * Z) :=
  match c with
  | Lookup env link id => match fetched env with Ok v => Some (link, id, v, now3 env) | Err _ => None end
  | Record' _ _ _ => None
  end.

Definition run_calls (cs : list call) : store * Metrics.Registry :=
  foldl (λ s c, run_call c s) (∅, Metrics.zero_registry) cs.

(** Cached credentials come from a fetch for their link and cache. *)
Definition cached_ok (cs : list call) (id : Z) (c : StreamCredentialsCache) : Prop :=
  ∀ e, ExpiresAt (creds c) = Some e →
  ∃ t, e = t + (credentialLifetime - cacheSafetyMargin) ∧
       (Link (creds c), id, triple (creds c), t) ∈ omap fetch_of cs.

Definition store_ok (cs : list call) (st : store) : Prop := ∀ id c, st !! id = Some c → cached_ok cs id c.

Lemma cached_ok_mono cs cs' id c : cached_ok cs id c → cached_ok (cs ++ cs') id c.
Proof.
  intros H e He. destruct (H e He) as (t & -> & Hin). exists t. split; [done|].
  rewrite omap_app. apply elem_of_app. by left.
Qed.

Lemma cached_ok_zero cs id c : creds c = zero_creds → cached_ok cs id c.
Proof. intros Hc e. by rewrite Hc. Qed.

Lemma cached_ok_same cs id c c' : creds c' = creds c → cached_ok cs id c → cached_ok cs id c'.
Proof. unfold cached_ok. by intros ->. Qed.

Lemma store_ok_mono cs cs' st : store_ok cs st → store_ok (cs ++ cs') st.
Proof. intros H id c Hc. apply cached_ok_mono. by apply H. Qed.

Lemma store_ok_insert cs st id c : store_ok cs st → cached_ok cs id c → store_ok cs (<[id := c]> st).
Proof. intros H Hc id' c'. rewrite lookup_insert_Some. intros [[-> ->] | [_ ?]]; [done|by apply H]. Qed.

Lemma getStreamCache_ok cs id st c st' : store_ok cs st → getStreamCache id st = (c, st') →
  store_ok cs st' ∧ cached_ok cs id c ∧ st' !! id = Some c.
Proof.
  intros H. unfold getStreamCache. destruct (st !! id) eqn:E; intros [= <- <-].
  - split_and!; [done|by apply H|done].
  - split_and!; [|by apply cached_ok_zero|apply lookup_insert_eq]. apply store_ok_insert; [done|by apply cached_ok_zero].
Qed.

Lemma handleAuthError_creds now c : creds (handleAuthError now c).2 = creds c ∨ creds (handleAuthError now c).2 = zero_creds.
Proof. unfold handleAuthError. repeat case_match; auto. Qed.

Lemma run_call_ok cs c s : store_ok cs s.1 → store_ok (cs ++ [c]) (run_call c s).1.
Proof.
  intros H%(store_ok_mono _ [c]). destruct c as [env link id|id t err]; cbn.
  - unfold getVkCredsCached. destruct (getStreamCache id s.1) as [cache st] eqn:E.
    destruct (getStreamCache_ok _ _ _ _ _ H E) as (Hst & Hc & _).
    do 2 (case_match; [done|]). destruct (fetched env) as [[[u p] a]|e] eqn:Ef; [|done].
    apply store_ok_insert; [done|]. intros e [= <-]. exists (now3 env). split; [done|].
    rewrite omap_app. apply elem_of_app. right. cbn. rewrite Ef. by left.
  - unfold recordTURNAllocationResult. destruct err as [e|].
    + case_match; [|done]. destruct (getStreamCache id s.1) as [cache st] eqn:E.
      destruct (getStreamCache_ok _ _ _ _ _ H E) as (Hst & Hc & _). apply store_ok_insert; [done|].
      destruct (handleAuthError_creds t cache) as [Heq|Heq]; [by eapply cached_ok_same|by apply cached_ok_zero].
    + destruct (getStreamCache id s.1) as [cache st] eqn:E.
      destruct (getStreamCache_ok _ _ _ _ _ H E) as (Hst & Hc & _). apply store_ok_insert; [done|].
      by eapply cached_ok_same.
Qed.

Lemma run_calls_ok cs : store_ok cs (run_calls cs).1.
Proof.
  induction cs as [|c cs IH] using rev_ind; [intros id c Hc; cbn in Hc; by rewrite lookup_empty in Hc|].
  unfold run_calls. rewrite foldl_app. cbn. by apply run_call_ok.
Qed.

(** ** Requests to VK *)

(** [fetchVkCredsSerialized]: requests are serialised by [vkRequestMu].  [lock]
    is when the lock was obtained, [rnd] the random milliseconds, [late] how
    much later than planned the pause ended, [took] how long the request took,
    and [cancelled] whether the context ended during the pause. *)
Record fetch_env := FetchEnv { lock : Z; rnd : Z; late : Z; took : Z; cancelled : bool }.

(** The request's start and end, when it was made; and [globalLastVkFetchTime]. *)
Definition fetchVkCredsSerialized (env : fetch_env) (globalLastVkFetchTime : option Z)
  : option (Z * Z) * option Z :=
  let minInterval := 3 * Second + rnd env * Millisecond in
  let request start := let stop := start + took env in (Some (start, stop), Some stop) in
  match globalLastVkFetchTime with
  | None => request (lock env)
  | Some last =>
      let elapsed := lock env - last in
      if elapsed <? minInterval then
        if cancelled env then (None, globalLastVkFetchTime)
        else request (lock env + (minInterval - elapsed) + late env)
      else request (lock env)
  end.

Fixpoint fetches (last : option Z) (envs : list fetch_env) : list (Z * Z) :=
  match envs with
  | [] => []
  | env :: envs =>
      let '(r, last) := fetchVkCredsSerialized env last in
      option_list r ++ fetches last envs
  end.

(** [fetchVkCreds]: the credentials are tried in order.  [chain k] is what
    [getTokenChain] returns for the [k]-th; the result comes with the number of
    credentials tried. *)
Definition captcha_abort (e : goerror) : bool :=
  Contains (err_text e) (str "CAPTCHA_WAIT_REQUIRED") || isFatalCaptchaError (Some e).

Fixpoint try_credentials {A} (chain : nat → result A) (k n : nat) (lastErr : goerror) : result A * nat :=
  match n with
  | O => (Err (errorf_w (str "all VK credentials failed: ") lastErr), k)
  | S n =>
      match chain k with
      | Ok v => (Ok v, S k)
      | Err e => if captcha_abort e then (Err e, S k) else try_credentials chain (S k) n e
      end
  end.

Definition vkCredentialsList_length : nat := 5.

Definition fetchVkCreds {A} (now lockout : Z) (chain : nat → result A) : result A * nat :=
  if now <? lockout then (Err (errorf (str "CAPTCHA_WAIT_REQUIRED: global lockout active")), 0%nat)
  else try_credentials chain 0 vkCredentialsList_length (errorf (str "<nil>")).

(** How the [attempt]-th captcha is solved, if it is. *)
Inductive captchaSolveMode := captchaSolveModeAuto | captchaSolveModeSliderPOC | captchaSolveModeManual.

Definition captchaSolveModeForAttempt (attempt : Z) (manualOnly enableSliderPOC : bool)
  : captchaSolveMode * bool :=
  if manualOnly then (captchaSolveModeManual, attempt =? 0)
  else if attempt =? 0 then (captchaSolveModeAuto, true)
  else if attempt =? 1 then
    if enableSliderPOC then (captchaSolveModeSliderPOC, true) else (captchaSolveModeManual, true)
  else if attempt =? 2 then
    if enableSliderPOC then (captchaSolveModeManual, true) else (captchaSolveModeAuto, false)
  else (captchaSolveModeAuto, false).

Lemma try_credentials_spec {A} (chain : nat → result A) k n lastErr :
  let '(r, tried) := try_credentials chain k n lastErr in
  (k ≤ tried ≤ k + n)%nat ∧
  (∀ i, (k ≤ i)%nat → (S i < tried)%nat → ∃ e, chain i = Err e ∧ captcha_abort e = false) ∧
  match r with
  | Ok v => (k < tried)%nat ∧ chain (tried - 1)%nat = Ok v
  | Err e =>
      ((k < tried)%nat ∧ chain (tried - 1)%nat = Err e ∧ captcha_abort e = true) ∨
      (tried = (k + n)%nat ∧ ∀ i, (k ≤ i < k + n)%nat → ∃ e', chain i = Err e' ∧ captcha_abort e' = false)
  end.
Proof.
  revert k lastErr. induction n as [|n IH]; intros k lastErr; cbn [try_credentials].
  { split_and!; [lia|lia|intros; lia|]. right. split; [lia|intros; lia]. }
  destruct (chain k) as [v|e] eqn:Ek.
  { split_and!; [lia|lia|intros; lia|lia|]. by replace (S k - 1)%nat with k by lia. }
  destruct (captcha_abort e) eqn:Ea.
  { split_and!; [lia|lia|intros; lia|]. left. replace (S k - 1)%nat with k by lia. auto with lia. }
  specialize (IH (S k) e). destruct (try_credentials chain (S k) n e) as [r tried].
  destruct IH as (Hb & Hi & Hr). split_and!; [lia|lia| |].
  { intros i Hk Ht. destruct (decide (i = k)) as [->|]; [by eauto|]. apply Hi; lia. }
  destruct r as [v|e'].
  - destruct Hr as [? ?]. split; [lia|done].
  - destruct Hr as [(? & ? & ?)|[-> Hall]]; [left; auto with lia|right].
    split; [lia|]. intros i Hi'. destruct (decide (i = k)) as [->|]; [by eauto|]. apply Hall. lia.
Qed.

(** ** The local peer *)

(** An address as the pin compares it: its network and its text. *)
Record net_addr := MkAddr { network : bytes; addr_text : bytes }.

#[export] Instance net_addr_eq_dec : EqDecision net_addr.
Proof. solve_decision. Defined.

Definition defaultLocalPeerRebindIdle : Z := Minute.

Record localPeerPin := MkPin { pinned : option net_addr; lastSeen : Z; rebindAfter : Z }.

Definition newLocalPeerPin (rebind : Z) : localPeerPin :=
  MkPin None 0 (if rebind <=? 0 then defaultLocalPeerRebindIdle else rebind).

(** [Accept]; [cloneNetAddr] copies the address. *)
Definition pin_Accept (addr : option net_addr) (now : Z) (pin : localPeerPin) : bool * localPeerPin :=
  match addr with
  | None => (false, pin)
  | Some a =>
      match pinned pin with
      | None => (true, MkPin (Some a) now (rebindAfter pin))
      | Some cur =>
          if bool_decide (network cur = network a) && bool_decide (addr_text cur = addr_text a)
          then (true, MkPin (pinned pin) now (rebindAfter pin))
          else if now - lastSeen pin >=? rebindAfter pin then (true, MkPin (Some a) now (rebindAfter pin))
          else (false, pin)
      end
  end.

Definition pin_Current (pin : localPeerPin) : option net_addr := pinned pin.

(** The packets of a run with the pin's verdicts. *)
Fixpoint pin_run (pin : localPeerPin) (ps : list (net_addr * Z)) : list (net_addr * Z) * localPeerPin :=
  match ps with
  | [] => ([], pin)
  | (a, t) :: ps =>
      let '(ok, pin) := pin_Accept (Some a) t pin in
      let '(acc, pin) := pin_run pin ps in
      ((if ok then [(a, t)] else []) ++ acc, pin)
  end.

(** Accepted packets change the peer only after the idle period. *)
Fixpoint no_takeover (rebind : Z) (acc : list (net_addr * Z)) : Prop :=
  match acc with
  | (a, t) :: ((b, u) :: _) as acc' => (a ≠ b → t + rebind ≤ u) ∧ no_takeover rebind acc'
  | _ => True
  end.

Lemma pin_Accept_pinned a t cur last r ok pin' : pin_Accept (Some a) t (MkPin (Some cur) last r) = (ok, pin') →
  (ok = true ∧ pin' = MkPin (Some a) t r ∧ (cur ≠ a → last + r ≤ t)) ∨ (ok = false ∧ pin' = MkPin (Some cur) last r ∧ cur ≠ a).
Proof.
  destruct cur as [n1 t1], a as [n2 t2]. unfold pin_Accept. cbn.
  destruct (bool_decide_reflect (n1 = n2)), (bool_decide_reflect (t1 = t2)); cbn; try subst;
    [by intros [= <- <-]; left|..];
    (destruct (Z.geb_spec (t - last) r); intros [= <- <-]; [left|right]); split_and!; try done; try lia; congruence.
Qed.

Lemma pin_run_pinned cur last r ps : no_takeover r ((cur, last) :: (pin_run (MkPin (Some cur) last r) ps).1).
Proof.
  revert cur last. induction ps as [|[a t] ps IH]; intros cur last; cbn [pin_run]; [done|].
  destruct (pin_Accept (Some a) t (MkPin (Some cur) last r)) as [ok pin'] eqn:E.
  apply pin_Accept_pinned in E as [(-> & -> & Hle)|(-> & -> & _)].
  - specialize (IH a t). destruct (pin_run (MkPin (Some a) t r) ps) as [acc pin2]. cbn in *. by split.
  - specialize (IH cur last). by destruct (pin_run (MkPin (Some cur) last r) ps) as [acc pin2].
Qed.

(** ** Strikes *)

(** Allocation results on one cache: an authentication error at a time in
    seconds, or a success. *)
Inductive outcome_event := AuthErr (t : Z) | Success.

Definition strike (ev : outcome_event) (c : StreamCredentialsCache) : bool * StreamCredentialsCache :=
  match ev with
  | AuthErr t => handleAuthError t c
  | Success => (false, c <| errorCount := 0 |> <| lastErrorTime := 0 |>)
  end.

(** The specification keeps the times of the errors in a row, newest first: a
    gap of more than ten seconds, a success or an invalidation breaks the row;
    the third error of a row invalidates. *)
Definition spec_strike (ev : outcome_event) (row : list Z) : bool * list Z :=
  match ev with
  | AuthErr t =>
      let row := t :: match row with u :: _ => if t - u >? errorWindowSeconds then [] else row | [] => [] end in
      if (3 <=? length row)%nat then (true, []) else (false, row)
  | Success => (false, [])
  end.

Fixpoint run_events {S} (f : outcome_event → S → bool * S) (s : S) (evs : list outcome_event) : list bool * S :=
  match evs with
  | [] => ([], s)
  | ev :: evs =>
      let '(b, s) := f ev s in
      let '(bs, s) := run_events f s evs in
      (b :: bs, s)
  end.

(** The counters of a cache represent a row. *)
Definition represents (c : StreamCredentialsCache) (row : list Z) : Prop :=
  errorCount c = Z.of_nat (length row) ∧ lastErrorTime c = default 0 (head row).

Lemma strike_simulates ev c row : represents c row → (length row ≤ 2)%nat →
  let '(b, c') := strike ev c in
  let '(b', row') := spec_strike ev row in
  b = b' ∧ represents c' row' ∧ (length row' ≤ 2)%nat.
Proof.
  intros [Hc Ht] Hl. destruct ev as [t|]; [|by cbn; repeat split; lia].
  unfold strike, handleAuthError, spec_strike, represents, maxCacheErrors in *.
  destruct row as [|u row]; cbn [head default length] in *.
  - destruct (Z.gtb_spec (t - lastErrorTime c) errorWindowSeconds); cbn; rewrite ?Hc; cbn; repeat split; lia.
  - change (lastErrorTime c = u) in Ht. rewrite Ht.
    destruct (Z.gtb_spec (t - u) errorWindowSeconds); cbn; [by repeat split; lia|]. rewrite Hc.
    destruct row as [|u2 row]; cbn in Hl |- *; [by repeat split; lia|].
    assert (row = []) as -> by (destruct row; [done|cbn in Hl; lia]). cbn. repeat split; lia.
Qed.

(** ** Theorems *)

(** C37: Credentials handed out from the cache are never stale.  In any history of
    lookups and allocation results, credentials returned without a request were
    fetched earlier for the same link and the same group of streams, and at
    the moment they were checked they still had at least the safety margin of
    their ten minutes left. *)
Theorem cached_credentials_fresh cs env link id v st :
  getVkCredsCached env link id (run_calls cs).1 = (Ok v, false, st) →
  ∃ t now, (link, id, v, t) ∈ omap fetch_of cs ∧ (now = now1 env ∨ now = now2 env) ∧
    now + cacheSafetyMargin < t + credentialLifetime.
Proof.
  unfold getVkCredsCached. destruct (getStreamCache id (run_calls cs).1) as [c st'] eqn:E.
  destruct (getStreamCache_ok cs _ _ _ _ (run_calls_ok cs) E) as (_ & Hc & _).
  assert (∀ now, usable link now (creds c) = true → ∃ t,
    (link, id, triple (creds c), t) ∈ omap fetch_of cs ∧ now + cacheSafetyMargin < t + credentialLifetime) as Hu.
  { intros now [Hl%bool_decide_eq_true_1 He]%andb_prop. destruct (ExpiresAt (creds c)) as [e|] eqn:Ee; [|done].
    apply Z.ltb_lt in He. destruct (Hc e Ee) as (t & -> & Hin). exists t. rewrite <-Hl. split; [done|lia]. }
  destruct (usable link (now1 env) (creds c)) eqn:U1.
  { intros [= <- <-]. destruct (Hu _ U1) as (t & ? & ?). exists t, (now1 env). auto. }
  destruct (usable link (now2 env) (creds c)) eqn:U2.
  { intros [= <- <-]. destruct (Hu _ U2) as (t & ? & ?). exists t, (now2 env). auto. }
  by destruct (fetched env) as [[[? ?] ?]|].
Qed.

(** Authentication errors drop the credentials exactly as specified: on every
    sequence of results the cache's counters decide as the specification on
    rows of errors does, and a cache that is told to drop them has none. *)
Theorem strikes_refine evs :
  (run_events strike zero_cache evs).1 = (run_events spec_strike [] evs).1 ∧
  (∀ ev c, (strike ev c).1 = true → creds (strike ev c).2 = zero_creds).
Proof.
  split; [|by intros [t|] c; cbn; [unfold handleAuthError; case_match|]].
  assert (∀ c row, represents c row → (length row ≤ 2)%nat →
    (run_events strike c evs).1 = (run_events spec_strike row evs).1) as H; [|apply H; [by split|cbn; lia]].
  induction evs as [|ev evs IH]; intros c row Hr Hl; [done|]. cbn.
  pose proof (strike_simulates ev c row Hr Hl) as H.
  destruct (strike ev c) as [b c'], (spec_strike ev row) as [b' row']. destruct H as (-> & Hr' & Hl').
  specialize (IH _ _ Hr' Hl').
  destruct (run_events strike c' evs), (run_events spec_strike row' evs). cbn in *. by rewrite IH.
Qed.

(** Requests to VK are spaced out: whatever the arrival times, the random
    extra delay and cancellations are, the end of a request and the start of
    the next are at least three seconds apart. *)
Theorem vk_requests_spaced envs :
  Forall (λ e, 0 ≤ rnd e < 3000 ∧ 0 ≤ late e ∧ 0 ≤ took e) envs →
  ∀ i r1 r2, fetches None envs !! i = Some r1 → fetches None envs !! S i = Some r2 → r1.2 + 3 * Second ≤ r2.1.
Proof.
  intros Henv. assert (∀ last,
    (∀ i r1 r2, fetches last envs !! i = Some r1 → fetches last envs !! S i = Some r2 → r1.2 + 3 * Second ≤ r2.1) ∧
    (∀ l r, last = Some l → head (fetches last envs) = Some r → l + 3 * Second ≤ r.1)) as H; [|apply H].
  induction Henv as [|env envs (Hr & Hl & Ht) _ IH]; intros last; cbn [fetches]; [done|].
  unfold fetchVkCredsSerialized.
  assert (∀ start, (∀ l, last = Some l → l + 3 * Second ≤ start) →
    (∀ i r1 r2, ((start, start + took env) :: fetches (Some (start + took env)) envs) !! i = Some r1 →
       ((start, start + took env) :: fetches (Some (start + took env)) envs) !! S i = Some r2 →
       r1.2 + 3 * Second ≤ r2.1) ∧
    (∀ l r, last = Some l → head ((start, start + took env) :: fetches (Some (start + took env)) envs) = Some r →
       l + 3 * Second ≤ r.1)) as Hreq.
  { intros start Hs. destruct (IH (Some (start + took env))) as [IH1 IH2]. split.
    - intros [|i] r1 r2; cbn; [|apply IH1]. intros [= <-] Hr2. apply (IH2 (start + took env) r2); [done|].
      by rewrite head_lookup.
    - intros l r Hl' [= <-]. by apply Hs. }
  destruct last as [last|]; [|by apply Hreq].
  assert (0 ≤ rnd env * Millisecond) by (unfold Millisecond; lia).
  destruct (Z.ltb_spec (lock env - last) (3 * Second + rnd env * Millisecond)).
  - destruct (cancelled env); [apply IH|]. apply Hreq. intros l [= <-]. lia.
  - apply Hreq. intros l [= <-]. lia.
Qed.

(** The order of credentials.  Nothing is tried during a captcha lock-out;
    otherwise the credentials are tried in order, each at most once, up to the
    first that works or hits a captcha abort, and the error is the abort or
    says that all five failed. *)
Theorem credentials_tried_in_order {A} now lockout (chain : nat → result A) :
  let '(r, tried) := fetchVkCreds now lockout chain in
  (tried ≤ vkCredentialsList_length)%nat ∧ (now < lockout → tried = 0%nat) ∧
  (∀ i, (S i < tried)%nat → ∃ e, chain i = Err e ∧ captcha_abort e = false) ∧
  match r with
  | Ok v => (0 < tried)%nat ∧ chain (tried - 1)%nat = Ok v
  | Err e => now < lockout ∨ ((0 < tried)%nat ∧ chain (tried - 1)%nat = Err e ∧ captcha_abort e = true) ∨
             (tried = vkCredentialsList_length ∧
              ∀ i, (i < tried)%nat → ∃ e', chain i = Err e' ∧ captcha_abort e' = false)
  end.
Proof.
  unfold fetchVkCreds. destruct (Z.ltb_spec now lockout) as [Hlt|Hge].
  { split_and!; [unfold vkCredentialsList_length; lia|done|intros; lia|by left]. }
  pose proof (try_credentials_spec chain 0 vkCredentialsList_length (errorf (str "<nil>"))) as H.
  destruct (try_credentials _ _ _ _) as [r tried]. destruct H as (Hb & Hi & Hr).
  split_and!; [lia|lia|intros; apply Hi; lia|]. destruct r as [v|e]; [done|].
  destruct Hr as [Hr|[-> Hall]]; [by right; left|]. right; right. split; [done|]. intros i Hlt. apply Hall. lia.
Qed.

(** Return traffic cannot be hijacked: among the packets the pin accepts, a
    different sender follows the current one only after the current one has
    been silent for the rebind period. *)
Theorem local_peer_not_hijacked rebind ps :
  no_takeover (rebindAfter (newLocalPeerPin rebind)) (pin_run (newLocalPeerPin rebind) ps).1.
Proof.
  destruct ps as [|[a t] ps]; [done|]. cbn [pin_run]. unfold newLocalPeerPin at 2.
  cbn [pin_Accept pinned rebindAfter].
  set (r := if rebind <=? 0 then defaultLocalPeerRebindIdle else rebind).
  pose proof (pin_run_pinned a t r ps) as H.
  by destruct (pin_run (MkPin (Some a) t r) ps) as [acc pin2].
Qed.

(** ** Witnesses *)

Definition sample_creds : bytes * bytes * bytes := (str "user", str "pass", str "turn:3478").
Definition first_lookup : call := Lookup (LookupEnv 0 0 (2 * Second) (Ok sample_creds)) (str "link") 0.

Lemma cached_credentials_fresh_witness :
  ∃ t now, (str "link", 0, sample_creds, t) ∈ omap fetch_of [first_lookup; Record' 0 5 None] ∧
    (now = Minute ∨ now = Minute) ∧ now + cacheSafetyMargin < t + credentialLifetime.
Proof.
  eapply (cached_credentials_fresh [first_lookup; Record' 0 5 None]
    (LookupEnv Minute Minute Minute (Err (errorf (str "not called")))) (str "link") 0 sample_creds).
  by vm_compute.
Defined.

Definition busy_envs : list fetch_env :=
  [FetchEnv 0 100 0 Second false; FetchEnv (2 * Second) 0 0 Second true; FetchEnv (3 * Second) 0 7 Second false].

Lemma vk_requests_spaced_witness : Second + 3 * Second ≤ 4 * Second + 7.
Proof.
  refine (vk_requests_spaced busy_envs _ 0 (0, Second) (4 * Second + 7, 5 * Second + 7) _ _); [|by vm_compute..].
  repeat constructor; cbn; unfold Second; lia.
Defined.

Example two_requests_made : length (fetches None busy_envs) = 2%nat.
Proof. by vm_compute. Qed.

Example third_strike :
  (run_events strike zero_cache [AuthErr 100; AuthErr 105; AuthErr 115; AuthErr 120; AuthErr 140]).1
    = [false; false; true; false; false].
Proof. by vm_compute. Qed.

End ClientCreds.
