(* ===== verification/MetricDiff.v ===== *)
(** * The difference of two metric snapshots (baseline/metrics.go)

    The two tables of [DiffMetrics] are lists of rows, each with the reading of
    the snapshots and the pointer to the field of the delta it fills. *)

From S2P Require Import Prelude GoStrings Metrics.

Module MetricDiff.
Import Metrics.

Record KCPCounterDelta := MkKCPDelta {
  k_ApplicationBytesSent : Z; k_ApplicationBytesReceived : Z; k_ActiveOpens : Z; k_PassiveOpens : Z;
  k_InputErrors : Z; k_ChecksumErrors : Z; k_ProtocolInputErrors : Z; k_PacketsReceived : Z;
  k_PacketsSent : Z; k_SegmentsReceived : Z; k_SegmentsSent : Z; k_InputBytes : Z; k_OutputBytes :
  Z; k_RetransmittedSegments : Z; k_FastRetransmittedSegments : Z; k_EarlyRetransmittedSegments : Z;
  k_LostSegments : Z; k_RepeatedSegments : Z; k_FECRecoveredPackets : Z; k_FECReportedErrors : Z;
  k_FECParityShardsReceived : Z; k_FECFullShardSets : Z;
}.

#[export] Instance KCPCounterDelta_eta : Eta KCPCounterDelta := λ k,
  MkKCPDelta (k_ApplicationBytesSent k) (k_ApplicationBytesReceived k) (k_ActiveOpens k)
  (k_PassiveOpens k) (k_InputErrors k) (k_ChecksumErrors k) (k_ProtocolInputErrors k)
  (k_PacketsReceived k) (k_PacketsSent k) (k_SegmentsReceived k) (k_SegmentsSent k) (k_InputBytes k)
  (k_OutputBytes k) (k_RetransmittedSegments k) (k_FastRetransmittedSegments k)
  (k_EarlyRetransmittedSegments k) (k_LostSegments k) (k_RepeatedSegments k) (k_FECRecoveredPackets
  k) (k_FECReportedErrors k) (k_FECParityShardsReceived k) (k_FECFullShardSets k).

Record MetricDelta := MkDelta {
  d_ConnectionLimitRejections : Z; d_BackendLimitRejections : Z; d_PathReconnects : Z;
  d_SessionReconnects : Z; d_AuthFailures : Z; d_QueueDrops : Z; d_BytesRead : Z; d_BytesWritten :
  Z; d_ReadOperations : Z; d_WriteOperations : Z; d_ReadErrors : Z; d_WriteErrors : Z;
  d_WriteLatencySamples : Z; d_WriteLatencyTotalNanoseconds : Z; d_KCP : KCPCounterDelta;
}.

#[export] Instance MetricDelta_eta : Eta MetricDelta := λ d,
  MkDelta (d_ConnectionLimitRejections d) (d_BackendLimitRejections d) (d_PathReconnects d)
  (d_SessionReconnects d) (d_AuthFailures d) (d_QueueDrops d) (d_BytesRead d) (d_BytesWritten d)
  (d_ReadOperations d) (d_WriteOperations d) (d_ReadErrors d) (d_WriteErrors d)
  (d_WriteLatencySamples d) (d_WriteLatencyTotalNanoseconds d) (d_KCP d).

Definition zero_delta : MetricDelta :=
  MkDelta 0 0 0 0 0 0 0 0 0 0 0 0 0 0 (MkKCPDelta 0 0 0 0 0 0 0 0 0 0 0 0 0 0 0 0 0 0 0 0 0 0).

(** A row of the tables: the name, the field of the two snapshots, and the field
    of the delta that [target] points to. *)
Record counter := Counter {
  c_name : bytes; c_get : Snapshot → Z; c_target : MetricDelta → Z; c_store : Z → MetricDelta → MetricDelta;
}.

Definition intCounters : list counter := [
  Counter (str "connection_limit_rejections") ConnectionLimitRejections d_ConnectionLimitRejections (λ v d, d <| d_ConnectionLimitRejections := v |>);
  Counter (str "backend_limit_rejections") BackendLimitRejections d_BackendLimitRejections (λ v d, d <| d_BackendLimitRejections := v |>);
  Counter (str "path_reconnects") PathReconnects d_PathReconnects (λ v d, d <| d_PathReconnects := v |>);
  Counter (str "session_reconnects") SessionReconnects d_SessionReconnects (λ v d, d <| d_SessionReconnects := v |>);
  Counter (str "auth_failures") AuthFailures d_AuthFailures (λ v d, d <| d_AuthFailures := v |>);
  Counter (str "queue_drops") QueueDrops d_QueueDrops (λ v d, d <| d_QueueDrops := v |>)
].

Definition uintCounters : list counter := [
  Counter (str "bytes_read") (λ s, bytesRead (snap_totals s)) d_BytesRead (λ v d, d <| d_BytesRead := v |>);
  Counter (str "bytes_written") (λ s, bytesWritten (snap_totals s)) d_BytesWritten (λ v d, d <| d_BytesWritten := v |>);
  Counter (str "read_operations") (λ s, readOperations (snap_totals s)) d_ReadOperations (λ v d, d <| d_ReadOperations := v |>);
  Counter (str "write_operations") (λ s, writeOperations (snap_totals s)) d_WriteOperations (λ v d, d <| d_WriteOperations := v |>);
  Counter (str "read_errors") (λ s, readErrors (snap_totals s)) d_ReadErrors (λ v d, d <| d_ReadErrors := v |>);
  Counter (str "write_errors") (λ s, writeErrors (snap_totals s)) d_WriteErrors (λ v d, d <| d_WriteErrors := v |>);
  Counter (str "write_latency_samples") (λ s, writeLatencySamples (snap_totals s)) d_WriteLatencySamples (λ v d, d <| d_WriteLatencySamples := v |>);
  Counter (str "write_latency_total_nanoseconds") (λ s, writeLatencyTotalNS (snap_totals s)) d_WriteLatencyTotalNanoseconds (λ v d, d <| d_WriteLatencyTotalNanoseconds := v |>);
  Counter (str "kcp.application_bytes_sent") (λ s, ApplicationBytesSent (KCP s)) (λ d, k_ApplicationBytesSent (d_KCP d))
    (λ v d, d <| d_KCP ::= λ k, k <| k_ApplicationBytesSent := v |> |>);
  Counter (str "kcp.application_bytes_received") (λ s, ApplicationBytesReceived (KCP s)) (λ d, k_ApplicationBytesReceived (d_KCP d))
    (λ v d, d <| d_KCP ::= λ k, k <| k_ApplicationBytesReceived := v |> |>);
  Counter (str "kcp.active_opens") (λ s, ActiveOpens (KCP s)) (λ d, k_ActiveOpens (d_KCP d))
    (λ v d, d <| d_KCP ::= λ k, k <| k_ActiveOpens := v |> |>);
  Counter (str "kcp.passive_opens") (λ s, PassiveOpens (KCP s)) (λ d, k_PassiveOpens (d_KCP d))
    (λ v d, d <| d_KCP ::= λ k, k <| k_PassiveOpens := v |> |>);
  Counter (str "kcp.input_errors") (λ s, InputErrors (KCP s)) (λ d, k_InputErrors (d_KCP d))
    (λ v d, d <| d_KCP ::= λ k, k <| k_InputErrors := v |> |>);
  Counter (str "kcp.checksum_errors") (λ s, ChecksumErrors (KCP s)) (λ d, k_ChecksumErrors (d_KCP d))
    (λ v d, d <| d_KCP ::= λ k, k <| k_ChecksumErrors := v |> |>);
  Counter (str "kcp.protocol_input_errors") (λ s, ProtocolInputErrors (KCP s)) (λ d, k_ProtocolInputErrors (d_KCP d))
    (λ v d, d <| d_KCP ::= λ k, k <| k_ProtocolInputErrors := v |> |>);
  Counter (str "kcp.packets_received") (λ s, PacketsReceived (KCP s)) (λ d, k_PacketsReceived (d_KCP d))
    (λ v d, d <| d_KCP ::= λ k, k <| k_PacketsReceived := v |> |>);
  Counter (str "kcp.packets_sent") (λ s, PacketsSent (KCP s)) (λ d, k_PacketsSent (d_KCP d))
    (λ v d, d <| d_KCP ::= λ k, k <| k_PacketsSent := v |> |>);
  Counter (str "kcp.segments_received") (λ s, SegmentsReceived (KCP s)) (λ d, k_SegmentsReceived (d_KCP d))
    (λ v d, d <| d_KCP ::= λ k, k <| k_SegmentsReceived := v |> |>);
  Counter (str "kcp.segments_sent") (λ s, SegmentsSent (KCP s)) (λ d, k_SegmentsSent (d_KCP d))
    (λ v d, d <| d_KCP ::= λ k, k <| k_SegmentsSent := v |> |>);
  Counter (str "kcp.input_bytes") (λ s, InputBytes (KCP s)) (λ d, k_InputBytes (d_KCP d))
    (λ v d, d <| d_KCP ::= λ k, k <| k_InputBytes := v |> |>);
  Counter (str "kcp.output_bytes") (λ s, OutputBytes (KCP s)) (λ d, k_OutputBytes (d_KCP d))
    (λ v d, d <| d_KCP ::= λ k, k <| k_OutputBytes := v |> |>);
  Counter (str "kcp.retransmitted_segments") (λ s, RetransmittedSegments (KCP s)) (λ d, k_RetransmittedSegments (d_KCP d))
    (λ v d, d <| d_KCP ::= λ k, k <| k_RetransmittedSegments := v |> |>);
  Counter (str "kcp.fast_retransmitted_segments") (λ s, FastRetransmittedSegments (KCP s)) (λ d, k_FastRetransmittedSegments (d_KCP d))
    (λ v d, d <| d_KCP ::= λ k, k <| k_FastRetransmittedSegments := v |> |>);
  Counter (str "kcp.early_retransmitted_segments") (λ s, EarlyRetransmittedSegments (KCP s)) (λ d, k_EarlyRetransmittedSegments (d_KCP d))
    (λ v d, d <| d_KCP ::= λ k, k <| k_EarlyRetransmittedSegments := v |> |>);
  Counter (str "kcp.lost_segments") (λ s, LostSegments (KCP s)) (λ d, k_LostSegments (d_KCP d))
    (λ v d, d <| d_KCP ::= λ k, k <| k_LostSegments := v |> |>);
  Counter (str "kcp.repeated_segments") (λ s, RepeatedSegments (KCP s)) (λ d, k_RepeatedSegments (d_KCP d))
    (λ v d, d <| d_KCP ::= λ k, k <| k_RepeatedSegments := v |> |>);
  Counter (str "kcp.fec_recovered_packets") (λ s, FECRecoveredPackets (KCP s)) (λ d, k_FECRecoveredPackets (d_KCP d))
    (λ v d, d <| d_KCP ::= λ k, k <| k_FECRecoveredPackets := v |> |>);
  Counter (str "kcp.fec_reported_errors") (λ s, FECReportedErrors (KCP s)) (λ d, k_FECReportedErrors (d_KCP d))
    (λ v d, d <| d_KCP ::= λ k, k <| k_FECReportedErrors := v |> |>);
  Counter (str "kcp.fec_parity_shards_received") (λ s, FECParityShardsReceived (KCP s)) (λ d, k_FECParityShardsReceived (d_KCP d))
    (λ v d, d <| d_KCP ::= λ k, k <| k_FECParityShardsReceived := v |> |>);
  Counter (str "kcp.fec_full_shard_sets") (λ s, FECFullShardSets (KCP s)) (λ d, k_FECFullShardSets (d_KCP d))
    (λ v d, d <| d_KCP ::= λ k, k <| k_FECFullShardSets := v |> |>)
].

Definition decreased (c : counter) (before after : Snapshot) : goerror :=
  errorf (str "metrics counter " ++ c_name c ++ str " decreased from " ++ Itoa (c_get c before) ++
          str " to " ++ Itoa (c_get c after)).

(** One pass over a table; [bad] is the test of the loop, [sub] its subtraction. *)
Fixpoint diff_counters (bad : Z → Z → bool) (sub : Z → Z) (cs : list counter) (before after : Snapshot)
    (delta : MetricDelta) : result MetricDelta :=
  match cs with
  | [] => Ok delta
  | c :: cs =>
      if bad (c_get c before) (c_get c after) then Err (decreased c before after)
      else diff_counters bad sub cs before after (c_store c (sub (c_get c after - c_get c before)) delta)
  end.

Definition int_bad (before after : Z) : bool := (before <? 0) || (after <? before).
Definition uint_bad (before after : Z) : bool := after <? before.

Definition DiffMetrics (before after : Snapshot) : result MetricDelta :=
  let? delta := diff_counters int_bad wrap_int intCounters before after zero_delta in
  diff_counters uint_bad wrap_uint uintCounters before after delta.

(** ** The targets are distinct fields *)

Definition counters : list counter := intCounters ++ uintCounters.

(** Writing one field is read back there, and nowhere else. *)
Definition lens_ok (c : counter) (cs : list counter) : Prop :=
  (∀ v d, c_target c (c_store c v d) = v) ∧
  Forall (λ c', ∀ v d, c_target c (c_store c' v d) = c_target c d) cs.

Fixpoint separate (cs : list counter) : Prop :=
  match cs with
  | [] => True
  | c :: cs => lens_ok c cs ∧ separate cs
  end.

Lemma counters_separate : separate counters.
Proof.
  cbn [separate counters intCounters uintCounters app].
  repeat split; try (intros v d; reflexivity); repeat (apply Forall_cons; split; [intros v d; reflexivity|]);
    apply Forall_nil; exact I.
Qed.

(** The rows cover the delta. *)
Lemma counters_cover d d' : Forall (λ c, c_target c d = c_target c d') counters → d = d'.
Proof.
  destruct d as [? ? ? ? ? ? ? ? ? ? ? ? ? ? []], d' as [? ? ? ? ? ? ? ? ? ? ? ? ? ? []].
  unfold counters, intCounters, uintCounters. cbn [app].
  intros H. repeat (apply Forall_cons in H as [?Heq H]). clear H. cbn in *. by subst.
Qed.

(** ** Correctness *)

(** A counter that did not go back, and was not negative to begin with. *)
Definition int_ok (before after : Snapshot) (c : counter) : Prop := 0 ≤ c_get c before ≤ c_get c after.
Definition uint_ok (before after : Snapshot) (c : counter) : Prop := c_get c before ≤ c_get c after.

(** The ranges of the snapshot's fields. *)
Definition snapshot_in_range (s : Snapshot) : Prop :=
  Forall (λ c, in_int (c_get c s)) intCounters ∧ Forall (λ c, in_uint (c_get c s)) uintCounters.

Definition counted (before after : Snapshot) (d : MetricDelta) (c : counter) : Prop :=
  c_get c before + c_target c d = c_get c after.

Lemma Forall_and_2 {A} (P Q : A → Prop) l : Forall P l → Forall Q l → Forall (λ x, P x ∧ Q x) l.
Proof. intros HP HQ. by apply Forall_and. Qed.

Section loop.
Context (bad : Z → Z → bool) (sub : Z → Z) (before after : Snapshot) (good : counter → Prop).

(** What one table contributes: it succeeds exactly when every row is good, fills
    its own fields and leaves the others. *)
Lemma diff_counters_spec cs : separate cs →
  Forall (λ c, (bad (c_get c before) (c_get c after) = false ↔ good c) ∧
               (good c → sub (c_get c after - c_get c before) = c_get c after - c_get c before)) cs → ∀ d,
  if decide (Forall (λ c, bad (c_get c before) (c_get c after) = false) cs) then
    ∃ d', diff_counters bad sub cs before after d = Ok d' ∧ Forall good cs ∧ Forall (counted before after d') cs ∧
      ∀ c, Forall (λ c', ∀ v d, c_target c (c_store c' v d) = c_target c d) cs → c_target c d' = c_target c d
  else ∃ c, c ∈ cs ∧ ¬ good c ∧ diff_counters bad sub cs before after d = Err (decreased c before after).
Proof.
  induction cs as [|c cs IH]; intros Hsep Hg d.
  { rewrite decide_True by constructor. exists d. split_and!; [done|constructor|constructor|done]. }
  destruct Hsep as [[Hput Hsep] Hcs]. apply Forall_cons in Hg as [[Hb Hs] Hg]. cbn [diff_counters].
  destruct (bad (c_get c before) (c_get c after)) eqn:E.
  { rewrite decide_False; [|by intros [E' _]%Forall_cons; rewrite E in E'].
    exists c. split; [left|]. split; [naive_solver|done]. }
  assert (good c) as Hc by (by apply Hb).
  specialize (IH Hcs Hg (c_store c (sub (c_get c after - c_get c before)) d)).
  destruct (decide (Forall (λ c, bad (c_get c before) (c_get c after) = false) cs)) as [Hall|Hnot].
  - rewrite decide_True by by constructor. destruct IH as (d' & -> & Hgood & Hcount & Hother).
    exists d'. split; [done|]. split; [by constructor|]. split.
    + constructor; [|done]. unfold counted. rewrite (Hother c Hsep), Hput, Hs by done. lia.
    + intros c' [Hc' Hcs']%Forall_cons. by rewrite (Hother c' Hcs'), Hc'.
  - rewrite decide_False by (by intros [_ ?]%Forall_cons). destruct IH as (c' & Hin & Hng & ->).
    exists c'. split; [by right|done].
Qed.
End loop.

Lemma separate_app cs cs' : separate (cs ++ cs') →
  separate cs ∧ separate cs' ∧ Forall (λ c, Forall (λ c', ∀ v d, c_target c (c_store c' v d) = c_target c d) cs') cs.
Proof.
  induction cs as [|c cs IH]; cbn; [by intros; split_and!; [|done|constructor]|].
  intros [[Hc Hall] Hs]. apply Forall_app in Hall as [H1 H2]. destruct (IH Hs) as (H3 & H4 & H5).
  split; [by repeat split|]. split; [done|]. by constructor.
Qed.

Lemma int_rows before after : Forall (λ c, in_int (c_get c before)) intCounters →
  Forall (λ c, in_int (c_get c after)) intCounters →
  Forall (λ c, (int_bad (c_get c before) (c_get c after) = false ↔ int_ok before after c) ∧
    (int_ok before after c → wrap_int (c_get c after - c_get c before) = c_get c after - c_get c before)) intCounters.
Proof.
  intros Hb Ha. eapply Forall_impl; [exact (Forall_and_2 _ _ _ Hb Ha)|].
  intros c [Hcb Hca]. unfold int_bad, int_ok. rewrite orb_false_iff, !Z.ltb_ge. split; [done|].
  intros H. apply wrap_int_id. unfold in_int in *. lia.
Qed.

Lemma uint_rows before after : Forall (λ c, in_uint (c_get c before)) uintCounters →
  Forall (λ c, in_uint (c_get c after)) uintCounters →
  Forall (λ c, (uint_bad (c_get c before) (c_get c after) = false ↔ uint_ok before after c) ∧
    (uint_ok before after c → wrap_uint (c_get c after - c_get c before) = c_get c after - c_get c before)) uintCounters.
Proof.
  intros Hb Ha. eapply Forall_impl; [exact (Forall_and_2 _ _ _ Hb Ha)|].
  intros c [Hcb Hca]. unfold uint_bad, uint_ok. rewrite Z.ltb_ge. split; [done|].
  intros H. apply wrap_uint_id. unfold in_uint in *. lia.
Qed.

(** The difference of two snapshots succeeds exactly when no counter went back
    and no signed counter started below zero, and then every one of the 36
    fields of the delta is what has to be added to the first snapshot to get
    the second; otherwise the error names a counter that went back. *)
Theorem diff_metrics_exact before after : snapshot_in_range before → snapshot_in_range after →
  (∀ d, DiffMetrics before after = Ok d ↔
    Forall (int_ok before after) intCounters ∧ Forall (uint_ok before after) uintCounters ∧
    Forall (counted before after d) counters) ∧
  (∀ e, DiffMetrics before after = Err e →
    ∃ c, e = decreased c before after ∧
      ((c ∈ intCounters ∧ ¬ int_ok before after c) ∨ (c ∈ uintCounters ∧ ¬ uint_ok before after c))).
Proof.
  intros Hb Ha. destruct (separate_app _ _ counters_separate) as (Hs1 & Hs2 & Hs12).
  pose proof (diff_counters_spec int_bad wrap_int before after (int_ok before after) intCounters Hs1
    (int_rows _ _ (proj1 Hb) (proj1 Ha)) zero_delta) as H1.
  unfold DiffMetrics. destruct (decide _) as [Hi|_] in H1.
  2:{ destruct H1 as (c & Hin & Hbad & ->). cbn [result_bind]. split.
      - intros d. split; [done|]. intros (Hok & _). rewrite Forall_forall in Hok. by destruct Hbad; apply Hok.
      - intros e [= <-]. exists c. split; [done|]. by left. }
  destruct H1 as (d1 & -> & Hint & Hcount & _). cbn [result_bind].
  pose proof (diff_counters_spec uint_bad wrap_uint before after (uint_ok before after) uintCounters Hs2
    (uint_rows _ _ (proj2 Hb) (proj2 Ha)) d1) as H2.
  destruct (decide _) as [Hu|_] in H2.
  2:{ destruct H2 as (c & Hin & Hbad & ->). split.
      - intros d. split; [done|]. intros (_ & Hok & _). rewrite Forall_forall in Hok. by destruct Hbad; apply Hok.
      - intros e [= <-]. exists c. split; [done|]. by right. }
  destruct H2 as (d2 & -> & Huint & Hcount2 & Hkeep).
  assert (Forall (counted before after d2) counters) as Hall.
  { apply Forall_app. split; [|done]. rewrite Forall_forall in Hcount, Hs12 |- *. intros c Hc.
    unfold counted. rewrite (Hkeep c (Hs12 c Hc)). by apply Hcount. }
  split; [|done]. intros d. split; [by intros [= <-]|]. intros (_ & _ & Hd). f_equal. apply counters_cover.
  rewrite Forall_forall in Hall, Hd |- *. intros c Hc. specialize (Hall c Hc). specialize (Hd c Hc).
  unfold counted in *. lia.
Qed.

Definition sample_snapshot (n : Z) : Snapshot :=
  MkSnapshot 1 1 1 1 n n n n n n (MkCounters n n n n n n n n n) zero_kcp [].

Lemma diff_metrics_exact_witness : snapshot_in_range (sample_snapshot 3) ∧ snapshot_in_range (sample_snapshot 8) ∧
  ∃ d, DiffMetrics (sample_snapshot 3) (sample_snapshot 8) = Ok d ∧ Forall (counted (sample_snapshot 3) (sample_snapshot 8) d) counters.
Proof.
  assert (snapshot_in_range (sample_snapshot 3)) as H3 by (split; repeat (constructor; [done|]); constructor).
  assert (snapshot_in_range (sample_snapshot 8)) as H8 by (split; repeat (constructor; [done|]); constructor).
  split; [exact H3|]. split; [exact H8|]. eexists. split; [vm_compute; reflexivity|].
  apply (diff_metrics_exact (sample_snapshot 3) (sample_snapshot 8) H3 H8). vm_compute. reflexivity.
Defined.
End MetricDiff.
