(* ===== verification/Baseline.v ===== *)
(** * The benchmark's arithmetic and checks (baseline/baseline.go, iperf.go)

    Scenarios and cases, the iperf3 command line and result, and the summary of
    a set of measurements.  [float64] is IEEE 754 binary64 ([GoFloat.v]).
    Decoding JSON is the library's: a decoded document is a record. *)

From S2P Require Import Prelude GoStrings GoFloat GoIP Metrics.

Module Baseline.

(** ** Scenarios and cases *)

Definition MinimumRuns : Z := 3.

Inductive Direction := DirectionUpload | DirectionDownload | OtherDirection (text : bytes).

#[export] Instance Direction_eq_dec : EqDecision Direction.
Proof. solve_decision. Defined.

Definition direction_text (d : Direction) : bytes :=
  match d with
  | DirectionUpload => str "upload"
  | DirectionDownload => str "download"
  | OtherDirection t => t
  end.

Record Scenario := MkScenario {
  Name : bytes; TURNTransport : bytes; ProxyMode : bytes; Sessions : Z;
}.

Definition alnum (c : ascii) : bool :=
  let n := code c in
  ((48 <=? n) && (n <=? 57)) || ((65 <=? n) && (n <=? 90)) || ((97 <=? n) && (n <=? 122)).

(** [^[A-Za-z0-9][A-Za-z0-9._-]{0,63}$] *)
Definition scenarioNamePattern (s : bytes) : bool :=
  match s with
  | [] => false
  | c :: s => alnum c && (length s <=? 63)%nat &&
              forallb (λ c, alnum c || bool_decide (c ∈ ["."; "_"; "-"]%char)) s
  end.

Definition validate_Scenario (s : Scenario) : result unit :=
  if negb (scenarioNamePattern (Name s)) then Err (errorf (str "scenario name must match the pattern"))
  else if negb (bool_decide (TURNTransport s = str "tcp")) && negb (bool_decide (TURNTransport s = str "udp")) then
    Err (errorf (str "TURN transport must be tcp or udp"))
  else if negb (bool_decide (ProxyMode s = str "multi-session")) && negb (bool_decide (ProxyMode s = str "bond")) then
    Err (errorf (str "proxy mode must be multi-session or bond"))
  else if (Sessions s <? 1) || (Sessions s >? 64) then Err (errorf (str "session count must be in 1..64"))
  else Ok tt.

Record Case := MkCase { case_Direction : Direction; Parallel : Z }.

#[export] Instance Case_eq_dec : EqDecision Case.
Proof. solve_decision. Defined.

Definition validate_Case (c : Case) : result unit :=
  match case_Direction c with
  | OtherDirection _ => Err (errorf (str "direction must be upload or download"))
  | _ => if (Parallel c <? 1) || (Parallel c >? 128)
         then Err (errorf (str "parallel flow count must be in 1..128")) else Ok tt
  end.

Definition Slug (c : Case) : bytes := direction_text (case_Direction c) ++ str "-p" ++ Itoa (Parallel c).

(** ** iperf3 *)

Record IPerfSummary := MkIPerf {
  Version : bytes; System : bytes; Protocol : bytes; RequestedStreams : Z; Reverse : bool; Seconds : float64;
  SentBytes : Z; ReceivedBytes : Z; SenderBitsPerSecond : float64; BitsPerSecond : float64;
  RetransmittedSegments : Z; HostCPUPercent : float64; RemoteCPUPercent : float64;
  SenderTCPCongestionControl : bytes;
}.

(** [boolish.UnmarshalJSON] *)
Definition boolish (data : bytes) : result bool :=
  let s := TrimSpace data in
  if bool_decide (s = str "true") || bool_decide (s = str "1") then Ok true
  else if bool_decide (s = str "false") || bool_decide (s = str "0") then Ok false
  else Err (errorf (str "reverse must be a boolean or 0/1")).

Record iperfSum := MkSum { sum_Seconds : float64; sum_Bytes : Z; sum_BitsPerSecond : float64; sum_Retransmits : Z }.

(** The decoded document, its nested structures flattened. *)
Record iperfDocument := MkDocument {
  doc_Error : bytes; doc_Version : bytes; doc_SystemInfo : bytes; doc_Duration : float64; doc_Protocol : bytes; doc_NumStreams : Z; doc_Reverse : bool;
  doc_SumSent : option iperfSum; doc_SumReceived : option iperfSum;
  doc_HostTotal : float64; doc_RemoteTotal : float64; doc_SenderTCPCongestion : bytes;
}.

Definition validRate (v : float64) : bool := SFleb fzero v && negb (IsNaN v) && negb (IsInf v).

(** What the decoder finds after the document. *)
Inductive trailer := TrailerEOF | TrailerValue | TrailerError (e : goerror).

Definition ParseIPerfJSON (decoded : result iperfDocument) (trailing : trailer) : result IPerfSummary :=
  let? d := map_err (errorf_w (str "decode iperf3 JSON: ")) decoded in
  let? _ := match trailing with
            | TrailerEOF => Ok tt
            | TrailerValue => Err (errorf (str "decode iperf3 JSON: unexpected trailing value"))
            | TrailerError e => Err (errorf_w (str "decode iperf3 JSON trailer: ") e)
            end in
  if negb (bool_decide (doc_Error d = [])) then Err (errorf (str "iperf3 reported: " ++ doc_Error d))
  else
    let sums := match doc_SumSent d, doc_SumReceived d with
                | None, None => None
                | Some s, None => Some (s, s)
                | None, Some r => Some (r, r)
                | Some s, Some r => Some (s, r)
                end in
    match sums with
    | None => Err (errorf (str "iperf3 JSON has no TCP sum_sent or sum_received result"))
    | Some (sent, received) =>
        if SFleb (sum_Seconds received) fzero || negb (validRate (sum_BitsPerSecond received))
           || negb (validRate (sum_BitsPerSecond sent)) then
          Err (errorf (str "iperf3 JSON contains invalid duration or bitrate"))
        else if negb (validRate (doc_HostTotal d)) || negb (validRate (doc_RemoteTotal d)) then
          Err (errorf (str "iperf3 JSON contains invalid CPU utilization"))
        else Ok (MkIPerf (doc_Version d) (doc_SystemInfo d) (doc_Protocol d) (doc_NumStreams d) (doc_Reverse d) (sum_Seconds received)
                   (sum_Bytes sent) (sum_Bytes received) (sum_BitsPerSecond sent) (sum_BitsPerSecond received)
                   (sum_Retransmits sent) (doc_HostTotal d) (doc_RemoteTotal d)
                   (doc_SenderTCPCongestion d))
    end.

(** The address check shared by [IPerfArguments] and [RunConfig.Validate]. *)
Definition split_target (target : bytes) : result (bytes * bytes) :=
  match SplitHostPort target with
  | Ok (host, port) =>
      if bool_decide (TrimSpace host = []) || negb (bool_decide (host = TrimSpace host))
      then Err (errorf (str "target must be a host:port address"))
      else
        let bad := Err (errorf (str "target port must be in 1..65535")) in
        match Atoi port with
        | Ok n => if (n <? 1) || (n >? 65535) then bad else Ok (host, port)
        | Err _ => bad
        end
  | Err _ => Err (errorf (str "target must be a host:port address"))
  end.

Definition IPerfArguments (target : bytes) (durationSeconds : Z) (c : Case) : result (list bytes) :=
  let? _ := validate_Case c in
  if (durationSeconds <? 1) || (durationSeconds >? 300) then Err (errorf (str "duration must be in 1..300 seconds"))
  else
    let? '(host, port) := split_target target in
    Ok ([str "-c"; host; str "-p"; port; str "-J"; str "-t"; Itoa durationSeconds; str "-P"; Itoa (Parallel c)] ++
        if bool_decide (case_Direction c = DirectionDownload) then [str "-R"] else []).

(** [%t] *)
Definition bool_text (b : bool) : bytes := if b then str "true" else str "false".

Definition validateIPerfCase (c : Case) (s : IPerfSummary) : result unit :=
  if negb (equal_fold_ascii (Protocol s) (str "TCP")) then
    Err (errorf (str "iperf payload protocol is " ++ quote (Protocol s) ++ str ", want TCP"))
  else if negb (RequestedStreams s =? Parallel c) then
    Err (errorf (str "iperf stream count is " ++ Itoa (RequestedStreams s) ++ str ", want " ++ Itoa (Parallel c)))
  else
    let wantReverse := bool_decide (case_Direction c = DirectionDownload) in
    if negb (Bool.eqb (Reverse s) wantReverse) then
      Err (errorf (str "iperf reverse=" ++ bool_text (Reverse s) ++ str ", want " ++ bool_text wantReverse))
    else Ok tt.

(** ** Medians and summaries

    [sort.Float64s] is a sort by [<=]; which of two zeros of different sign
    comes first is the library's choice, and is here the order of the input. *)

Definition sort_floats (l : list float64) : list float64 := isort SFleb l.

Definition invalid_value (v : float64) : bool := IsNaN v || IsInf v || SFltb v fzero.

(** The text of the error leaves out the value, which [%v] would print. *)
Definition Median (values : list float64) : result float64 :=
  if bool_decide (values = []) then Err (errorf (str "cannot calculate median of an empty sample"))
  else if existsb invalid_value values then Err (errorf (str "sample contains invalid value"))
  else
    let ordered := sort_floats values in
    let middle := (length ordered / 2)%nat in
    let at_ i := default fzero (ordered !! i) in
    if (length ordered mod 2 =? 1)%nat then Ok (at_ middle)
    else
      let lower := at_ (middle - 1)%nat in
      Ok (fadd lower (fdiv (fsub (at_ middle) lower) (float_of_uint 2))).

Record Measurement := MkMeasurement { m_Case : Case; m_IPerf : IPerfSummary }.

Record CaseSummary := MkCaseSummary {
  s_Case : Case; s_Runs : Z; MedianBitsPerSecond : float64; MinimumBitsPerSecond : float64;
  MaximumBitsPerSecond : float64; MedianRetransmittedSegments : float64;
}.

Definition directionOrder (d : Direction) : Z := match d with DirectionUpload => 0 | _ => 1 end.

(** The negation of the comparator of [sort.Slice] with its arguments swapped:
    [a] may come before [b]. *)
Definition case_leb (a b : Case) : bool :=
  if bool_decide (case_Direction a = case_Direction b) then Parallel a <=? Parallel b
  else directionOrder (case_Direction a) <=? directionOrder (case_Direction b).

(** [groups[c]] in the order of the measurements. *)
Definition runs_of (c : Case) (ms : list Measurement) : list Measurement :=
  filter (λ m, m_Case m = c) ms.

(** [min] and [max] after [sort.Float64s(throughputs)]. *)
Definition summarize_case (c : Case) (runs : list Measurement) : result CaseSummary :=
  if Z.of_nat (length runs) <? MinimumRuns then
    Err (errorf (str "case " ++ Slug c ++ str " has " ++ Itoa (Z.of_nat (length runs)) ++
                 str " runs; at least 3 are required"))
  else
    let throughputs := (BitsPerSecond ∘ m_IPerf) <$> runs in
    let retransmits := (float_of_uint ∘ RetransmittedSegments ∘ m_IPerf) <$> runs in
    let? medianThroughput := map_err (errorf_w (str "case " ++ Slug c ++ str " throughput: ")) (Median throughputs) in
    let? medianRetransmits := map_err (errorf_w (str "case " ++ Slug c ++ str " retransmits: ")) (Median retransmits) in
    let ordered := sort_floats throughputs in
    Ok (MkCaseSummary c (Z.of_nat (length runs)) medianThroughput (default fzero (head ordered))
          (default fzero (last ordered)) medianRetransmits).

Fixpoint summarize_cases (cases : list Case) (ms : list Measurement) : result (list CaseSummary) :=
  match cases with
  | [] => Ok []
  | c :: cases =>
      let? s := summarize_case c (runs_of c ms) in
      let? rest := summarize_cases cases ms in
      Ok (s :: rest)
  end.

(** The first measurement with an invalid case stops the grouping. *)
Fixpoint check_cases (ms : list Measurement) : result unit :=
  match ms with
  | [] => Ok tt
  | m :: ms =>
      let? _ := map_err (errorf_w (str "invalid measurement case: ")) (validate_Case (m_Case m)) in
      check_cases ms
  end.

(** [Summarize]; [keys] is the order in which ranging over the map [groups]
    yields its keys. *)
Definition Summarize_in (keys : list Case) (ms : list Measurement) : result (list CaseSummary) :=
  let? _ := check_cases ms in
  if bool_decide (keys = []) then Err (errorf (str "no benchmark measurements"))
  else summarize_cases (isort case_leb keys) ms.

Definition Summarize (ms : list Measurement) : result (list CaseSummary) :=
  Summarize_in (remove_dups (m_Case <$> ms)) ms.

(** An enumeration of the map's keys. *)
Definition keys_of (keys : list Case) (ms : list Measurement) : Prop :=
  NoDup keys ∧ ∀ c, c ∈ keys ↔ c ∈ m_Case <$> ms.

(** *** Lemmas *)

Lemma invalid_value_spec v : invalid_value v = false ↔ fvalid v.
Proof. unfold invalid_value, fvalid. rewrite !orb_false_iff. tauto. Qed.

Lemma all_valid vs : existsb invalid_value vs = false ↔ Forall fvalid vs.
Proof. rewrite existsb_false_Forall. by setoid_rewrite invalid_value_spec. Qed.

Lemma validRate_valid v : validRate v = true → fvalid v.
Proof. unfold validRate, fvalid. destruct v as [|[]| |[] ? ?]; cbn; done. Qed.

Lemma sort_floats_sorted vs : Forall fvalid vs → StronglySorted fle (sort_floats vs).
Proof. intros H. apply (isort_sorted SFleb fvalid); [apply fle_total|apply fle_trans|done]. Qed.

Lemma validate_Case_ok c : validate_Case c = Ok tt ↔
  (case_Direction c = DirectionUpload ∨ case_Direction c = DirectionDownload) ∧ 1 ≤ Parallel c ≤ 128.
Proof.
  unfold validate_Case. destruct (case_Direction c); try naive_solver.
  all: destruct (Z.ltb_spec (Parallel c) 1); cbn; [naive_solver lia|];
    destruct (Z.gtb_spec (Parallel c) 128); naive_solver lia.
Qed.

Lemma check_cases_ok ms : check_cases ms = Ok tt ↔ Forall (λ m, validate_Case (m_Case m) = Ok tt) ms.
Proof.
  induction ms as [|m ms IH]; cbn; [split; [constructor|done]|].
  rewrite Forall_cons, <-IH. destruct (validate_Case (m_Case m)) as [[]|]; cbn; naive_solver.
Qed.

(** The rank of the middle element: more than half of the sample is at most the
    median, and more than half is at least the median. *)
Lemma sorted_rank vs ordered i m : ordered ≡ₚ vs → StronglySorted fle ordered → Forall fvalid vs →
  ordered !! i = Some m →
  (i < count (λ v, SFleb v m) vs)%nat ∧ (length vs - i ≤ count (SFleb m) vs)%nat.
Proof.
  intros Hp Hs Hv Hi.
  rewrite <-(count_perm _ _ _ Hp), <-(count_perm _ _ _ Hp), <-Hp.
  rewrite <-Hp in Hv. clear Hp. revert i Hi.
  induction Hs as [|v l Hs IH Hl]; intros [|i] Hi; [done..| |]; cbn in *.
  - injection Hi as ->. apply Forall_cons in Hv as [Hv _].
    assert (SFleb m m = true) as -> by (by destruct (fle_total m m)).
    rewrite (count_all (SFleb m) l) by done. lia.
  - apply Forall_cons in Hv as [_ Hv]. destruct (IH Hv i Hi) as [H1 H2].
    rewrite Forall_forall in Hl. rewrite (Hl m) by (by eapply list_elem_of_lookup_2).
    case_match; lia.
Qed.

(** The median of a non-empty sample of finite values that are not negative is
    the middle element of the sorted sample, so that more than half of the
    sample is on each side of it, or, for an even count, the point half way
    between the two middle elements, computed without adding them; every other
    sample is refused. *)
Theorem median_spec vs :
  if decide (vs ≠ [] ∧ Forall fvalid vs) then
    ∃ ordered, ordered ≡ₚ vs ∧ StronglySorted fle ordered ∧
      if Nat.odd (length vs) then
        ∃ m, Median vs = Ok m ∧ ordered !! (length vs / 2)%nat = Some m ∧
          (length vs < 2 * count (λ v, SFleb v m) vs)%nat ∧ (length vs < 2 * count (SFleb m) vs)%nat
      else
        ∃ l u, ordered !! (length vs / 2 - 1)%nat = Some l ∧ ordered !! (length vs / 2)%nat = Some u ∧ fle l u ∧
          Median vs = Ok (fadd l (fdiv (fsub u l) (float_of_uint 2)))
  else ∃ e, Median vs = Err e.
Proof.
  unfold Median. case_decide as Hd.
  2:{ case_bool_decide; [by eexists|]. destruct (existsb _ vs) eqn:E; [by eexists|].
      apply all_valid in E. tauto. }
  destruct Hd as [Hne Hv]. rewrite bool_decide_eq_false_2 by done.
  rewrite (proj2 (all_valid vs) Hv). cbv zeta.
  pose proof (isort_perm SFleb vs : sort_floats vs ≡ₚ vs) as Hp. pose proof (sort_floats_sorted vs Hv) as Hs.
  exists (sort_floats vs). split; [done|]. split; [done|].
  set (o := sort_floats vs) in *. rewrite (Permutation_length Hp).
  assert (0 < length vs)%nat as Hpos by (destruct vs; cbn; [done|lia]).
  pose proof (Nat.div_mod_eq (length vs) 2). pose proof (Nat.mod_upper_bound (length vs) 2).
  assert (Nat.odd (length vs) = (length vs mod 2 =? 1)%nat) as ->.
  { pose proof (Nat.bit0_mod (length vs)) as Hb. rewrite Nat.bit0_odd in Hb.
    rewrite <-Hb. by destruct (Nat.odd _). }
  destruct (lookup_lt_is_Some_2 o (length vs / 2)) as [m Hm].
  { rewrite (Permutation_length Hp). apply Nat.div_lt; lia. }
  destruct (Nat.eqb_spec (length vs mod 2) 1).
  - exists m. rewrite Hm. destruct (sorted_rank vs o _ m Hp Hs Hv Hm).
    split; [done|]. split; [done|]. lia.
  - destruct (lookup_lt_is_Some_2 o (length vs / 2 - 1)) as [l Hl].
    { rewrite (Permutation_length Hp). apply lookup_lt_Some in Hm. rewrite (Permutation_length Hp) in Hm. lia. }
    exists l, m. rewrite Hm, Hl. split; [done|]. split; [done|]. split; [|done].
    eapply StronglySorted_lookup; [done|done|done|lia].
Qed.

(** *** The order of the cases *)

Definition valid_case (c : Case) : Prop := validate_Case c = Ok tt.

Lemma case_leb_total a b : valid_case a → valid_case b → case_leb a b = true ∨ case_leb b a = true.
Proof.
  unfold valid_case. rewrite !validate_Case_ok. intros _ _. unfold case_leb.
  rewrite (bool_decide_ext (case_Direction b = case_Direction a) (case_Direction a = case_Direction b)) by done.
  destruct (bool_decide_reflect (case_Direction a = case_Direction b)); lia.
Qed.

Lemma case_leb_spec a b : valid_case a → valid_case b → case_leb a b = true ↔
  directionOrder (case_Direction a) < directionOrder (case_Direction b) ∨
  (case_Direction a = case_Direction b ∧ Parallel a ≤ Parallel b).
Proof.
  unfold valid_case. rewrite !validate_Case_ok. intros [Ha _] [Hb _]. unfold case_leb.
  destruct (bool_decide_reflect (case_Direction a = case_Direction b)) as [->|Hne]; [naive_solver lia|].
  rewrite Z.leb_le. destruct Ha as [Ha|Ha], Hb as [Hb|Hb]; rewrite Ha, Hb in *; try done; cbn; naive_solver lia.
Qed.

Lemma case_leb_trans a b c : valid_case a → valid_case b → valid_case c →
  case_leb a b = true → case_leb b c = true → case_leb a c = true.
Proof.
  intros Ha Hb Hc. rewrite !case_leb_spec by done.
  intros [Hab|[Eab Hab]] [Hbc|[Ebc Hbc]]; rewrite ?Eab, <-?Ebc in *; [lia|tauto|tauto|right; split; [done|lia]].
Qed.

Lemma case_leb_antisym a b : valid_case a → valid_case b → case_leb a b = true → case_leb b a = true → a = b.
Proof.
  intros Ha Hb. rewrite !case_leb_spec by done. destruct a as [da pa], b as [db pb]; cbn.
  intros [Hab|[Eab Hab]] [Hbc|[Ebc Hbc]]; rewrite ?Eab, ?Ebc in *; try lia. f_equal. lia.
Qed.

Lemma keys_valid keys ms : keys_of keys ms → check_cases ms = Ok tt → Forall valid_case keys.
Proof.
  intros [_ Hk] Hc%check_cases_ok. apply Forall_forall. intros c Hin%Hk.
  apply list_elem_of_fmap in Hin as (m & -> & Hm). by rewrite Forall_forall in Hc; apply Hc.
Qed.

(** The order in which the map yields its keys does not matter. *)
Lemma sorted_keys_unique keys keys' ms : keys_of keys ms → keys_of keys' ms → check_cases ms = Ok tt →
  isort case_leb keys = isort case_leb keys'.
Proof.
  intros Hk Hk' Hc. pose proof (keys_valid _ _ Hk Hc) as Hv. pose proof (keys_valid _ _ Hk' Hc) as Hv'.
  apply (sorted_perm_unique (λ a b, case_leb a b = true) valid_case).
  - apply case_leb_antisym.
  - by rewrite isort_perm.
  - by apply (isort_sorted case_leb valid_case); [apply case_leb_total|apply case_leb_trans|].
  - by apply (isort_sorted case_leb valid_case); [apply case_leb_total|apply case_leb_trans|].
  - rewrite !isort_perm. apply NoDup_Permutation; [apply Hk|apply Hk'|].
    intros c. by rewrite (proj2 Hk c), (proj2 Hk' c).
Qed.

(** Strictly increasing: uploads first, then by the number of flows. *)
Definition case_before (a b : Case) : Prop :=
  directionOrder (case_Direction a) < directionOrder (case_Direction b) ∨
  (case_Direction a = case_Direction b ∧ Parallel a < Parallel b).

Lemma sorted_keys_strict keys ms : keys_of keys ms → check_cases ms = Ok tt →
  StronglySorted case_before (isort case_leb keys).
Proof.
  intros Hk Hc. pose proof (keys_valid _ _ Hk Hc) as Hv.
  assert (NoDup (isort case_leb keys)) as Hnd by (rewrite isort_perm; apply Hk).
  pose proof (isort_sorted case_leb valid_case case_leb_total case_leb_trans keys Hv) as Hs.
  rewrite <-(isort_perm case_leb keys) in Hv. revert Hnd Hv. induction Hs as [|c l Hs IH Hl]; [constructor|].
  intros [Hnin Hnd]%NoDup_cons [Hc' Hv]%Forall_cons. constructor; [by apply IH|].
  rewrite Forall_forall in Hl, Hv |- *. intros x Hx. specialize (Hl x Hx). apply case_leb_spec in Hl; [|by auto..].
  destruct Hl as [?|[Ed Hp]]; [by left|right; split; [done|]].
  destruct (decide (Parallel c = Parallel x)) as [Ep|]; [|lia].
  destruct Hnin. destruct c, x; cbn in *; by subst.
Qed.

(** *** The contents of a summary *)

Definition throughputs_of (c : Case) (ms : list Measurement) : list float64 :=
  (BitsPerSecond ∘ m_IPerf) <$> runs_of c ms.

(** What a summary says of the measurements of its case. *)
Definition summary_of (ms : list Measurement) (s : CaseSummary) : Prop :=
  let rates := throughputs_of (s_Case s) ms in
  s_Runs s = Z.of_nat (length rates) ∧ MinimumRuns ≤ s_Runs s ∧
  Median rates = Ok (MedianBitsPerSecond s) ∧
  MinimumBitsPerSecond s ∈ rates ∧ MaximumBitsPerSecond s ∈ rates ∧
  Forall (λ v, fle (MinimumBitsPerSecond s) v ∧ fle v (MaximumBitsPerSecond s)) rates.

Lemma median_ok_valid vs m : Median vs = Ok m → vs ≠ [] ∧ Forall fvalid vs.
Proof.
  intros H. unfold Median in H. case_bool_decide; [done|].
  destruct (existsb _ vs) eqn:E; [done|]. split; [done|]. by apply all_valid.
Qed.

Lemma median_total vs : vs ≠ [] → Forall fvalid vs → ∃ m, Median vs = Ok m.
Proof.
  intros Hne Hv. unfold Median. rewrite bool_decide_eq_false_2 by done. rewrite (proj2 (all_valid vs) Hv).
  case_match; by eexists.
Qed.

Lemma fle_refl v : fvalid v → fle v v.
Proof. intros H. by destruct (fle_total v v). Qed.

(** The ends of the sorted sample. *)
Lemma sorted_ends vs : vs ≠ [] → Forall fvalid vs →
  let lo := default fzero (head (sort_floats vs)) in
  let hi := default fzero (last (sort_floats vs)) in
  lo ∈ vs ∧ hi ∈ vs ∧ Forall (λ v, fle lo v ∧ fle v hi) vs.
Proof.
  intros Hne Hv. pose proof (isort_perm SFleb vs : sort_floats vs ≡ₚ vs) as Hp.
  pose proof (sort_floats_sorted vs Hv) as Hs. cbv zeta.
  assert (∀ v, v ∈ sort_floats vs → fle v v) as Hr.
  { intros v. rewrite Hp. intros Hin. rewrite Forall_forall in Hv. by apply fle_refl, Hv. }
  set (o := sort_floats vs) in *. clearbody o. rewrite <-!Hp.
  destruct o as [|lo o]; [by apply Permutation_nil_l in Hp|]. clear Hp Hne.
  assert (last (lo :: o) ≠ None) as Hl by (by rewrite last_None).
  destruct (last (lo :: o)) as [hi|] eqn:E; [clear Hl|done]. cbn [head default].
  assert (hi ∈ lo :: o) as Hhi by (rewrite last_lookup in E; by eapply list_elem_of_lookup_2).
  change (id ?x) with x. split; [by left|]. split; [done|]. apply Forall_forall. intros v Hin. split.
  - apply elem_of_cons in Hin as [->|Hin]; [by apply Hr; left|].
    apply StronglySorted_inv in Hs as [_ Hs]. rewrite Forall_forall in Hs. by apply Hs.
  - rewrite last_lookup in E. apply list_elem_of_lookup_1 in Hin as [j Hj].
    pose proof (lookup_lt_Some _ _ _ Hj).
    destruct (decide (j = pred (length (lo :: o)))) as [->|]; [simplify_eq; by apply Hr|].
    eapply StronglySorted_lookup; [exact Hs|exact Hj|exact E|lia].
Qed.

Lemma summarize_case_ok c ms s : summarize_case c (runs_of c ms) = Ok s → s_Case s = c ∧ summary_of ms s.
Proof.
  unfold summarize_case. destruct (Z.ltb_spec (Z.of_nat (length (runs_of c ms))) MinimumRuns) as [|Hn]; [done|].
  cbv zeta. change ((BitsPerSecond ∘ m_IPerf) <$> runs_of c ms) with (throughputs_of c ms).
  rewrite !result_bind_ok. intros (mt & Hmt%map_err_ok & H). apply result_bind_ok in H as (mr & _ & H).
  injection H as <-. split; [done|].
  destruct (median_ok_valid _ _ Hmt) as [Hne Hv]. destruct (sorted_ends _ Hne Hv) as (Hlo & Hhi & Hall).
  unfold summary_of. cbn. assert (length (throughputs_of c ms) = length (runs_of c ms)) as -> by apply length_fmap.
  split; [done|]. split; [done|]. split; [done|]. split; [done|]. split; [done|]. done.
Qed.

Lemma summarize_cases_ok cases ms sums : summarize_cases cases ms = Ok sums →
  s_Case <$> sums = cases ∧ Forall (summary_of ms) sums.
Proof.
  revert sums. induction cases as [|c cases IH]; cbn; intros sums H.
  { injection H as <-. by split. }
  apply result_bind_ok in H as (s & [Hs1 Hs2]%summarize_case_ok & H).
  apply result_bind_ok in H as (rest & [Hr1 Hr2]%IH & H). injection H as <-.
  cbn. rewrite Hs1, Hr1. split; [done|]. by constructor.
Qed.

Lemma summarize_case_total c ms : MinimumRuns ≤ Z.of_nat (length (runs_of c ms)) →
  Forall (λ m, fvalid (BitsPerSecond (m_IPerf m)) ∧ in_uint (RetransmittedSegments (m_IPerf m))) ms →
  ∃ s, summarize_case c (runs_of c ms) = Ok s.
Proof.
  intros Hn Hv. unfold summarize_case. destruct (Z.ltb_spec (Z.of_nat (length (runs_of c ms))) MinimumRuns); [lia|].
  assert (Forall (λ m, fvalid (BitsPerSecond (m_IPerf m)) ∧ in_uint (RetransmittedSegments (m_IPerf m)))
    (runs_of c ms)) as Hr.
  { rewrite Forall_forall in Hv |- *. intros m [_ Hm]%list_elem_of_filter. by apply Hv. }
  assert (runs_of c ms ≠ []) as Hne by (intros E; rewrite E in Hn; unfold MinimumRuns in Hn; cbn in Hn; lia).
  cbv zeta. destruct (median_total ((BitsPerSecond ∘ m_IPerf) <$> runs_of c ms)) as [mt ->].
  { by intros ?%fmap_nil_inv. }
  { apply Forall_fmap. eapply Forall_impl; [exact Hr|]. cbn. tauto. }
  destruct (median_total ((float_of_uint ∘ RetransmittedSegments ∘ m_IPerf) <$> runs_of c ms)) as [mr ->].
  { by intros ?%fmap_nil_inv. }
  { apply Forall_fmap. eapply Forall_impl; [exact Hr|]. cbn. intros m [_ ?]. by apply float_of_uint_valid. }
  by eexists.
Qed.

Lemma summarize_cases_total cases ms :
  (∀ c, c ∈ cases → MinimumRuns ≤ Z.of_nat (length (runs_of c ms))) →
  Forall (λ m, fvalid (BitsPerSecond (m_IPerf m)) ∧ in_uint (RetransmittedSegments (m_IPerf m))) ms →
  ∃ sums, summarize_cases cases ms = Ok sums.
Proof.
  intros Hn Hv. induction cases as [|c cases IH]; [by eexists|]. cbn.
  destruct (summarize_case_total c ms) as [s ->]; [by apply Hn; left|done|].
  destruct IH as [rest ->]; [intros; apply Hn; by right|]. by eexists.
Qed.

(** Summarizing: the result does not depend on the order in which the map of
    groups is walked; the summaries are those of exactly the cases measured,
    uploads first and then by the number of flows, each once; each gives the
    number of runs of its case (three or more), their median, and the least
    and the greatest rate among them. *)
Theorem summaries_correct keys ms sums : keys_of keys ms → Summarize_in keys ms = Ok sums →
  Summarize ms = Ok sums ∧
  (∀ c, c ∈ s_Case <$> sums ↔ c ∈ m_Case <$> ms) ∧
  StronglySorted case_before (s_Case <$> sums) ∧
  Forall (summary_of ms) sums.
Proof.
  intros Hk H. unfold Summarize, Summarize_in in *. apply result_bind_ok in H as ([] & Hc & H).
  assert (keys_of (remove_dups (m_Case <$> ms)) ms) as Hk'.
  { split; [apply NoDup_remove_dups|]. intros c. apply elem_of_remove_dups. }
  rewrite Hc. cbn [result_bind].
  destruct (bool_decide_reflect (keys = [])) as [|Hne]; [done|].
  rewrite bool_decide_eq_false_2.
  2:{ intros E. apply Hne. destruct keys as [|k keys]; [done|]. destruct Hk as [_ Hk], Hk' as [_ Hk'].
      rewrite E in Hk'. pose proof (proj2 (Hk' k) (proj1 (Hk k) ltac:(by left))) as []%not_elem_of_nil. }
  rewrite <-(sorted_keys_unique _ _ _ Hk Hk' Hc). split; [done|].
  apply summarize_cases_ok in H as [-> H]. split; [|split; [by eapply sorted_keys_strict|done]].
  intros c. rewrite isort_perm. apply Hk.
Qed.

(** Three runs of each case, all of them with valid rates, are enough. *)
Lemma Summarize_total ms : ms ≠ [] → check_cases ms = Ok tt →
  (∀ c, c ∈ m_Case <$> ms → MinimumRuns ≤ Z.of_nat (length (runs_of c ms))) →
  Forall (λ m, fvalid (BitsPerSecond (m_IPerf m)) ∧ in_uint (RetransmittedSegments (m_IPerf m))) ms →
  ∃ sums, Summarize ms = Ok sums.
Proof.
  intros Hne Hc Hn Hv. unfold Summarize, Summarize_in. rewrite Hc. cbn [result_bind].
  rewrite bool_decide_eq_false_2.
  - apply summarize_cases_total; [|done]. intros c. rewrite isort_perm, elem_of_remove_dups. apply Hn.
  - intros E. destruct ms as [|m ms]; [done|].
    assert (m_Case m ∈ remove_dups (m_Case <$> m :: ms)) as Hin by (apply elem_of_remove_dups; left).
    rewrite E in Hin. by apply not_elem_of_nil in Hin.
Qed.

Definition sample_run (c : Case) (rate : Z) : Measurement :=
  MkMeasurement c (MkIPerf [] [] (str "TCP") (Parallel c) false (float_of_uint 10) 0 0 (float_of_uint rate)
                     (float_of_uint rate) 7 (float_of_uint 1) (float_of_uint 1) []).

Definition sample_measurements : list Measurement :=
  let a := MkCase DirectionDownload 4 in let b := MkCase DirectionUpload 1 in
  [sample_run a 30; sample_run b 5; sample_run a 10; sample_run b 9; sample_run a 20; sample_run b 7; sample_run b 8].

Lemma summaries_correct_witness : ∃ sums, Summarize_in [MkCase DirectionDownload 4; MkCase DirectionUpload 1] sample_measurements = Ok sums ∧
  Summarize sample_measurements = Ok sums ∧ s_Case <$> sums = [MkCase DirectionUpload 1; MkCase DirectionDownload 4] ∧
  Forall (summary_of sample_measurements) sums.
Proof.
  eexists. split; [vm_compute; reflexivity|].
  edestruct (summaries_correct [MkCase DirectionDownload 4; MkCase DirectionUpload 1] sample_measurements) as (H1 & _ & _ & H2).
  - split.
    + apply NoDup_cons. split; [|apply NoDup_singleton]. intros ?%list_elem_of_singleton. done.
    + intros c. cbn. set_solver.
  - vm_compute. reflexivity.
  - split; [exact H1|]. split; [vm_compute; reflexivity|exact H2].
Defined.
End Baseline.
