(* ===== verification/BenchRun.v ===== *)
(** * The benchmark harness (baseline/runner.go)

    [Harness.Run] against an environment that answers the calls of the program
    in any way: iperf3, the diagnostics endpoint, the clock, the wait and the
    file system are functions of the call's position in the trace of calls.
    Files are named by their base name, the output directory being fixed for a
    run; the JSON text of a value is the library's, so a file holds the value
    it encodes. *)

From S2P Require Import Prelude GoStrings GoFloat GoIP Metrics Baseline MetricDiff.

Module BenchRun.
Import Metrics Baseline MetricDiff.

(** ** Configuration *)

Record RunConfig := MkConfig {
  cfg_Scenario : Scenario; Revision : bytes; Target : bytes; IPerfExecutable : bytes; DiagnosticsURL : bytes;
  OutputDirectory : bytes; Runs : Z; WarmupRuns : Z; DurationSeconds : Z; Settle : Z; Cooldown : Z;
  Cases : list Case; Notes : bytes;
}.

(** The loop over the cases, with the set [seen]. *)
Fixpoint validate_cases (seen : list Case) (cases : list Case) : result unit :=
  match cases with
  | [] => Ok tt
  | c :: cases =>
      let? _ := validate_Case c in
      if bool_decide (c ∈ seen) then Err (errorf (str "duplicate benchmark case " ++ Slug c))
      else validate_cases (c :: seen) cases
  end.

(** [if bad { return fmt.Errorf(text) }] *)
Definition refuse (bad : bool) (text : string) : result unit := if bad then Err (errorf (str text)) else Ok tt.

Definition blank (s : bytes) : bool := bool_decide (TrimSpace s = []).

Definition Validate (c : RunConfig) : result unit :=
  let? _ := validate_Scenario (cfg_Scenario c) in
  let? _ := refuse (blank (Revision c) || (128 <? length (Revision c))%nat) "revision must be present and at most 128 characters" in
  let? _ := split_target (Target c) in
  let? _ := refuse (blank (IPerfExecutable c)) "iperf3 executable must be set" in
  let? _ := refuse (blank (DiagnosticsURL c)) "diagnostics URL must be set" in
  let? _ := refuse (blank (OutputDirectory c)) "output directory must be set" in
  let? _ := refuse ((Runs c <? MinimumRuns) || (Runs c >? 20)) "measured runs must be in 3..20" in
  let? _ := refuse ((WarmupRuns c <? 0) || (WarmupRuns c >? 5)) "warmup runs must be in 0..5" in
  let? _ := refuse ((DurationSeconds c <? 1) || (DurationSeconds c >? 300)) "duration must be in 1..300 seconds" in
  let? _ := refuse ((Settle c <? 0) || (Settle c >? 30 * Second)) "settle delay must be in 0..30s" in
  let? _ := refuse ((Cooldown c <? 0) || (Cooldown c >? 5 * Minute)) "cooldown must be in 0..5m" in
  let? _ := refuse (bool_decide (Cases c = [])) "at least one benchmark case is required" in
  let? _ := validate_cases [] (Cases c) in
  refuse (4096 <? length (Notes c))%nat "notes must be at most 4096 characters".

(** ** Records and the report *)

Record ArtifactFiles := MkFiles {
  IPerfJSON : bytes; IPerfStderr : bytes; MetricsBefore : bytes; MetricsAfter : bytes;
}.

Record WarmupRecord := MkWarmup {
  wu_Case : Case; wu_Index : Z; wu_StartedAt : Z; wu_FinishedAt : Z; wu_Arguments : list bytes;
  wu_IPerf : IPerfSummary; wu_Files : ArtifactFiles;
}.

Record RunRecord := MkRun {
  rr_Case : Case; rr_Index : Z; rr_StartedAt : Z; rr_FinishedAt : Z; rr_Arguments : list bytes;
  rr_IPerf : IPerfSummary; rr_MetricsDelta : MetricDelta; rr_Files : ArtifactFiles;
}.

Record Environment := MkEnvironment { Hostname : bytes; GOOS : bytes; GOARCH : bytes; GoVersion : bytes }.

(** The settle and cooldown delays are kept as numbers; the code stores their
    [String()]. *)
Record Report := MkReport {
  SchemaVersion : Z; Status : bytes; rep_Error : bytes; rep_Scenario : Scenario; rep_Revision : bytes;
  rep_Target : bytes; rep_IPerfExecutable : bytes; IPerfVersion : bytes; rep_DiagnosticsURL : bytes;
  rep_Environment : Environment; RunsRequested : Z; rep_WarmupRuns : Z; rep_DurationSeconds : Z;
  rep_Settle : Z; rep_Cooldown : Z; rep_Cases : list Case; rep_Notes : bytes; StartedAt : Z;
  FinishedAt : option Z; InitialMetrics : bytes; Warmups : list WarmupRecord; rep_Runs : list RunRecord;
  Summaries : list CaseSummary;
}.

#[export] Instance Report_eta : Eta Report := λ r,
  MkReport (SchemaVersion r) (Status r) (rep_Error r) (rep_Scenario r) (rep_Revision r)
    (rep_Target r) (rep_IPerfExecutable r) (IPerfVersion r) (rep_DiagnosticsURL r)
    (rep_Environment r) (RunsRequested r) (rep_WarmupRuns r) (rep_DurationSeconds r)
    (rep_Settle r) (rep_Cooldown r) (rep_Cases r) (rep_Notes r) (StartedAt r)
    (FinishedAt r) (InitialMetrics r) (Warmups r) (rep_Runs r) (Summaries r).

(** ** The environment *)

Record CommandResult := MkResult { Arguments_ : list bytes; Stdout : bytes; Stderr : bytes }.

(** What a file holds; a write that failed leaves it unknown. *)
Inductive content :=
  | RawFile (data : bytes)
  | SnapshotFile (s : Snapshot)
  | ReportFile (r : Report)
  | Damaged.

(** The calls that leave the program. *)
Inductive event :=
  | EvStat | EvVersion | EvFetch | EvMkdir | EvNow | EvSleep (d : Z)
  | EvIPerf (target : bytes) (duration : Z) (c : Case) | EvWrite (name : bytes).

(** [IPerfExecutor] and [SnapshotFetcher]; the argument is the number of calls
    made before.  A failing [Run] still returns a result. *)
Record IPerfExecutor := MkExecutor {
  exec_Version : nat → result bytes;
  exec_Run : nat → bytes → Z → Case → CommandResult * option goerror;
}.

Record Harness := MkHarness {
  IPerf : option IPerfExecutor;
  Metrics_ : option (nat → result Snapshot);
  Now : option (nat → Z);
  Sleep : option (nat → Z → option goerror);
}.

(** The operating system, the context and the JSON library: [os_stat] answers
    [os.Stat], [os_wait] is the outcome of the default wait, [decode_iperf] the
    two decoding steps of [ParseIPerfJSON], [encode] the error of
    [json.MarshalIndent]. *)
Record system := MkSystem {
  os_stat : option goerror;
  os_mkdirall : option goerror;
  os_mkdir : option goerror;
  os_write : nat → option goerror;
  os_now : nat → Z;
  os_wait : nat → Z → option goerror;
  os_environment : Environment;
  decode_iperf : bytes → result iperfDocument * trailer;
  encode : content → option goerror;
}.

(** ** The monad of the run

    The variables [report] and [completedOperations], the files and the trace. *)

Record world := MkWorld {
  trace : list event; files : gmap bytes content; report : Report; completedOperations : Z;
}.

#[export] Instance world_eta : Eta world := λ w,
  MkWorld (trace w) (files w) (report w) (completedOperations w).

Definition M (A : Type) : Type := world → result A * world.
Definition ret {A} (a : A) : M A := λ w, (Ok a, w).
Definition throw {A} (e : goerror) : M A := λ w, (Err e, w).
Definition bindM {A B} (m : M A) (k : A → M B) : M B := λ w,
  match m w with (Ok a, w') => k a w' | (Err e, w') => (Err e, w') end.

Notation "'do!' x := m 'in' k" := (bindM m (fun x => k))
  (at level 10, x name, m at level 100, k at level 200) : go_scope.
Notation "'do!' ' p := m 'in' k" := (bindM m (fun y => match y with p => k end))
  (at level 10, p pattern, m at level 100, k at level 200) : go_scope.

(** An error is raised as it is returned; a wrapped one through [map_err]. *)
Definition lift {A} (r : result A) : M A := λ w, (r, w).
Definition check (e : option goerror) : M unit := λ w, (match e with Some e => Err e | None => Ok tt end, w).

Fixpoint for_each {A} (l : list A) (body : A → M unit) : M unit :=
  match l with
  | [] => ret tt
  | x :: l => do! _ := body x in for_each l body
  end.

(** A call recorded in the trace, answered by its position. *)
Definition call {A} (ev : event) (answer : nat → A) : M A := λ w,
  (Ok (answer (length (trace w))), w <| trace := trace w ++ [ev] |>).

Definition set_report (f : Report → Report) : M unit := λ w, (Ok tt, w <| report ::= f |>).
Definition get_report : M Report := λ w, (Ok (report w), w).
Definition count_operation : M Z := λ w,
  (Ok (completedOperations w + 1), w <| completedOperations := completedOperations w + 1 |>).

Section harness.
Context (sys : system).

(** ** Files *)

Definition WriteFile (name : bytes) (data : content) : M (option goerror) := λ w,
  let failed := os_write sys (length (trace w)) in
  (Ok failed, w <| trace := trace w ++ [EvWrite name] |>
                <| files := <[name := match failed with None => data | Some _ => Damaged end]> (files w) |>).

Definition writeJSON (name : bytes) (value : content) : M unit :=
  match encode sys value with
  | Some e => throw (errorf_w (str "encode " ++ name ++ str ": ") e)
  | None =>
      do! failed := WriteFile name value in
      check (errorf_w (str "write " ++ name ++ str ": ") <$> failed)
  end.

Definition persistReport : M unit :=
  do! r := get_report in writeJSON (str "report.json") (ReportFile r).

Definition writeIPerfArtifacts (prefix : bytes) (result : CommandResult) : M ArtifactFiles :=
  let f := MkFiles (prefix ++ str ".iperf.json") (prefix ++ str ".iperf.stderr.txt") [] [] in
  do! failed := WriteFile (IPerfJSON f) (RawFile (Stdout result)) in
  do! _ := check (errorf_w (str "write iperf JSON artifact: ") <$> failed) in
  do! failed := WriteFile (IPerfStderr f) (RawFile (Stderr result)) in
  do! _ := check (errorf_w (str "write iperf stderr artifact: ") <$> failed) in
  ret f.

Definition writeRunArtifacts (prefix : bytes) (result : CommandResult) (before : Snapshot)
    (after : option Snapshot) : M ArtifactFiles :=
  do! f := writeIPerfArtifacts prefix result in
  let before_name := prefix ++ str ".metrics-before.json" in
  do! _ := writeJSON before_name (SnapshotFile before) in
  match after with
  | None => ret (MkFiles (IPerfJSON f) (IPerfStderr f) before_name [])
  | Some after =>
      let after_name := prefix ++ str ".metrics-after.json" in
      do! _ := writeJSON after_name (SnapshotFile after) in
      ret (MkFiles (IPerfJSON f) (IPerfStderr f) before_name after_name)
  end.

Definition createOutputDirectory : M unit :=
  do! failed := call EvMkdir (λ _, os_mkdirall sys) in
  do! _ := check (errorf_w (str "create benchmark output parent: ") <$> failed) in
  do! failed := call EvMkdir (λ _, os_mkdir sys) in
  check (errorf_w (str "create benchmark output directory: ") <$> failed).

Definition validateOutputAvailable : M unit :=
  do! err := call EvStat (λ _, os_stat sys) in
  match err with
  | None => throw (errorf (str "benchmark output directory already exists"))
  | Some e => if errors_is ErrNotExist e then ret tt
              else throw (errorf_w (str "check benchmark output directory: ") e)
  end.

Definition validateReady (scenario : Scenario) (s : Snapshot) : result unit :=
  if ActiveSessions s <? 1 then Err (errorf (str "diagnostics reports no active transport session"))
  else if bool_decide (ProxyMode scenario = str "bond") && (ActivePaths s <? 1) then
    Err (errorf (str "diagnostics reports no active bonded path"))
  else Ok tt.

Definition parse_iperf (stdout : bytes) : result IPerfSummary :=
  let '(decoded, trailing) := decode_iperf sys stdout in ParseIPerfJSON decoded trailing.

(** ** One warm-up, one measured run

    [exec], [fetch], [now] and [sleep] are the harness's dependencies after the
    defaults are filled in. *)

Section operations.
Context (exec : IPerfExecutor) (fetch : nat → result Snapshot) (now : nat → Z) (sleep : nat → Z → option goerror).
Context (config : RunConfig).

Definition pad2 (n : Z) : bytes := if n <? 10 then str "0" ++ Itoa n else Itoa n.

Definition warmup_prefix (c : Case) (index : Z) : bytes := str "warmup-" ++ Slug c ++ str "-" ++ pad2 index.
Definition run_prefix (c : Case) (index : Z) : bytes := str "run-" ++ Slug c ++ str "-" ++ pad2 index.

(** [fmt.Errorf("run %s %d: %w", ...)] *)
Definition wrapped (kind : string) (c : Case) (index : Z) (what : string) : goerror → goerror :=
  errorf_w (str kind ++ str " " ++ Slug c ++ str " " ++ Itoa index ++ str what ++ str ": ").

Definition totalOperations : Z := Z.of_nat (length (Cases config)) * (WarmupRuns config + Runs config).

(** The end of both loop bodies: count, persist, cool down. *)
Definition finish_operation : M unit :=
  do! completed := count_operation in
  do! _ := persistReport in
  if (completed <? totalOperations) && (Cooldown config >? 0) then
    do! err := call (EvSleep (Cooldown config)) (λ n, sleep n (Cooldown config)) in check err
  else ret tt.

Definition run_iperf (c : Case) : M (CommandResult * option goerror) :=
  call (EvIPerf (Target config) (DurationSeconds config) c)
    (λ n, exec_Run exec n (Target config) (DurationSeconds config) c).

Definition warmup (c : Case) (index : Z) : M unit :=
  let prefix := warmup_prefix c index in
  let wrap := wrapped "warmup" c index "" in
  do! startedAt := call EvNow now in
  do! '(result, runErr) := run_iperf c in
  do! finishedAt := call EvNow now in
  do! f := writeIPerfArtifacts prefix result in
  do! _ := check (wrap <$> runErr) in
  do! summary := lift (map_err wrap (parse_iperf (Stdout result))) in
  do! _ := lift (map_err wrap (validateIPerfCase c summary)) in
  do! _ := set_report (λ r, r <| Warmups ::= λ ws, ws ++
             [MkWarmup c index startedAt finishedAt (Arguments_ result) summary f] |>) in
  finish_operation.

(** The settling delay and the second reading of the metrics. *)
Definition fetch_after : M (result Snapshot) :=
  do! slept := (if Settle config >? 0
                then call (EvSleep (Settle config)) (λ n, sleep n (Settle config)) else ret None) in
  match slept with
  | Some e => ret (Err e)
  | None => call EvFetch fetch
  end.

Definition measure (c : Case) (index : Z) : M unit :=
  let prefix := run_prefix c index in
  let wrap := wrapped "run" c index "" in
  do! fetched := call EvFetch fetch in
  do! before := lift (map_err (wrapped "run" c index " metrics before") fetched) in
  do! startedAt := call EvNow now in
  do! '(result, runErr) := run_iperf c in
  do! finishedAt := call EvNow now in
  do! fetched := fetch_after in
  let afterPointer := match fetched with Ok s => Some s | Err _ => None end in
  do! f := writeRunArtifacts prefix result before afterPointer in
  do! _ := check (wrap <$> runErr) in
  do! after := lift (map_err (wrapped "run" c index " metrics after") fetched) in
  do! summary := lift (map_err wrap (parse_iperf (Stdout result))) in
  do! _ := lift (map_err wrap (validateIPerfCase c summary)) in
  do! delta := lift (map_err wrap (DiffMetrics before after)) in
  do! _ := set_report (λ r, r <| rep_Runs ::= λ rs, rs ++
             [MkRun c index startedAt finishedAt (Arguments_ result) summary delta f] |>) in
  finish_operation.

(** ** The run *)

Definition measurements (rs : list RunRecord) : list Measurement :=
  (λ r, MkMeasurement (rr_Case r) (rr_IPerf r)) <$> rs.

(** The loops over the cases, and the summary; an error is handed to [fail]. *)
Definition run_cases : M unit :=
  do! _ := for_each (Cases config) (λ c,
    do! _ := for_each (seqZ 1 (WarmupRuns config)) (warmup c) in
    for_each (seqZ 1 (Runs config)) (measure c)) in
  do! r := get_report in
  do! sums := lift (Summarize (measurements (rep_Runs r))) in
  set_report (λ r, r <| Summaries := sums |>).

(** [fail]: the report is marked and persisted; a second error is joined. *)
Definition fail (runErr : goerror) (w : world) : goerror * world :=
  let w := w <| report ::= λ r, r <| Status := str "failed" |> <| rep_Error := err_text runErr |> |> in
  let '(_, w) := (do! finishedAt := call EvNow now in
                  set_report (λ r, r <| FinishedAt := Some finishedAt |>)) w in
  match persistReport w with
  | (Ok _, w) => (runErr, w)
  | (Err persistErr, w) => (default runErr (errors_join [runErr; persistErr]), w)
  end.

Definition initial_report (version : bytes) (startedAt : Z) : Report :=
  MkReport 1 (str "running") [] (cfg_Scenario config) (Revision config) (Target config) (IPerfExecutable config)
    (TrimSpace version) (DiagnosticsURL config) (os_environment sys) (Runs config) (WarmupRuns config)
    (DurationSeconds config) (Settle config) (Cooldown config) (Cases config) (Notes config) startedAt
    None (str "initial.metrics.json") [] [] [].

(** The steps before the report exists in the output directory: an error here
    returns no report. *)
Definition prepare : M unit :=
  do! _ := validateOutputAvailable in
  do! version := call EvVersion (exec_Version exec) in
  do! iperfVersion := lift (map_err (errorf_w (str "query iperf3 version: ")) version) in
  do! fetched := call EvFetch fetch in
  do! initialMetrics := lift (map_err (errorf_w (str "fetch initial diagnostics: ")) fetched) in
  do! _ := lift (validateReady (cfg_Scenario config) initialMetrics) in
  do! _ := createOutputDirectory in
  do! startedAt := call EvNow now in
  do! _ := set_report (λ _, initial_report iperfVersion startedAt) in
  do! _ := writeJSON (str "initial.metrics.json") (SnapshotFile initialMetrics) in
  persistReport.

(** From the first persisted report on, the report is always returned. *)
Definition run_report (w : world) : option goerror * world :=
  match run_cases (w <| completedOperations := 0 |>) with
  | (Err e, w) => let '(e, w) := fail e w in (Some e, w)
  | (Ok _, w) =>
      let '(_, w) := (do! _ := set_report (λ r, r <| Status := str "complete" |>) in
                      do! finishedAt := call EvNow now in
                      set_report (λ r, r <| FinishedAt := Some finishedAt |>)) w in
      match persistReport w with
      | (Ok _, w) => (None, w)
      | (Err e, w) => (Some e, w)
      end
  end.

End operations.

(** [Harness.Run]: the returned report and error, and the world left behind. *)
Definition Run (h : Harness) (have_ctx : bool) (config : RunConfig) (w : world) :
    (option Report * option goerror) * world :=
  if negb have_ctx then ((None, Some (errorf (str "baseline context must not be nil"))), w)
  else match Validate config with
  | Err e => ((None, Some e), w)
  | Ok _ =>
      match IPerf h, Metrics_ h with
      | Some exec, Some fetch =>
          let now := default (os_now sys) (Now h) in
          let sleep := default (os_wait sys) (Sleep h) in
          match prepare exec fetch now config w with
          | (Err e, w) => ((None, Some e), w)
          | (Ok _, w) =>
              let '(e, w) := run_report exec fetch now sleep config w in ((Some (report w), e), w)
          end
      | _, _ => ((None, Some (errorf (str "baseline harness dependencies must not be nil"))), w)
      end
  end.

End harness.

(** ** The plan of a run and the names of its artifacts *)

Inductive op := OpWarmup (c : Case) (index : Z) | OpRun (c : Case) (index : Z).

#[export] Instance op_eq_dec : EqDecision op.
Proof. solve_decision. Defined.

Definition op_prefix (o : op) : bytes :=
  match o with OpWarmup c i => warmup_prefix c i | OpRun c i => run_prefix c i end.
Definition op_case (o : op) : Case := match o with OpWarmup c _ | OpRun c _ => c end.
Definition op_index (o : op) : Z := match o with OpWarmup _ i | OpRun _ i => i end.

Definition good_op (o : op) : Prop := valid_case (op_case o) ∧ 1 ≤ op_index o ≤ 20.

(** What follows the dot of a name. *)
Definition suffixes : list bytes :=
  [str ".iperf.json"; str ".iperf.stderr.txt"; str ".metrics-before.json"; str ".metrics-after.json"].

Definition artifact (o : op) (suffix : bytes) : bytes := op_prefix o ++ suffix.

(** Every index of a valid run prints as two digits, and they read back. *)
Lemma pad2_spec i : 1 ≤ i ≤ 20 → length (pad2 i) = 2%nat ∧ Atoi (pad2 i) = Ok i ∧ "."%char ∉ pad2 i.
Proof.
  intros Hi. assert (i ∈ seqZ 1 20) as Hin by (apply elem_of_seqZ; lia). clear Hi. revert i Hin.
  apply Forall_forall. let l := eval vm_compute in (seqZ 1 20) in change (seqZ 1 20) with l.
  repeat (constructor; [split; [reflexivity|]; split; [reflexivity|]; by apply (bool_decide_unpack _)|]).
  constructor.
Qed.

Lemma slug_parallel c : valid_case c → in_int (Parallel c) ∧ 0 ≤ Parallel c.
Proof. intros [_ H]%validate_Case_ok. unfold in_int, two63. lia. Qed.

Lemma Itoa_plain n : 0 ≤ n → "-"%char ∉ Itoa n ∧ "."%char ∉ Itoa n.
Proof.
  intros Hn. split; [|by apply Itoa_no_byte].
  unfold Itoa. destruct (Z.ltb_spec n 0); [lia|]. destruct (digits_spec n Hn) as (_ & Hall & _).
  intros Hin. rewrite Forall_forall in Hall. by destruct (Hall _ Hin).
Qed.

Lemma direction_inj a b : valid_case a → valid_case b →
  ∀ r r', direction_text (case_Direction a) ++ "-"%char :: r = direction_text (case_Direction b) ++ "-"%char :: r' →
  case_Direction a = case_Direction b ∧ r = r'.
Proof.
  intros [Ha _]%validate_Case_ok [Hb _]%validate_Case_ok r r'.
  destruct Ha as [-> | ->], Hb as [-> | ->]; cbn; intros [= H]; done.
Qed.

Lemma prefix_inj a b i j : valid_case a → valid_case b → 1 ≤ i ≤ 20 → 1 ≤ j ≤ 20 →
  Slug a ++ str "-" ++ pad2 i = Slug b ++ str "-" ++ pad2 j → a = b ∧ i = j.
Proof.
  intros Ha Hb Hi Hj. unfold Slug. rewrite <-!(assoc_L (++)). intros E.
  apply direction_inj in E as [Ed E]; [|done..]. cbn in E. injection E as E.
  destruct (slug_parallel a Ha) as [Ra Pa], (slug_parallel b Hb) as [Rb Pb].
  apply separator_inj in E as [Ep Ei]; [|by apply Itoa_plain..].
  apply (f_equal Atoi) in Ep, Ei. rewrite !Atoi_Itoa in Ep by done.
  destruct (pad2_spec i Hi) as (_ & Ai & _), (pad2_spec j Hj) as (_ & Aj & _). rewrite Ai, Aj in Ei.
  destruct a, b; cbn in *; simplify_eq. done.
Qed.

Lemma prefix_no_dot o : good_op o → "."%char ∉ op_prefix o.
Proof.
  intros [Hc Hi]. pose proof (slug_parallel _ Hc) as [_ Hp]. apply validate_Case_ok in Hc as [Hd _].
  destruct (pad2_spec _ Hi) as (_ & _ & Hpad). destruct (Itoa_plain _ Hp) as [_ Hn].
  destruct o as [c i|c i]; cbn [op_prefix op_case op_index] in *; unfold warmup_prefix, run_prefix, Slug;
    rewrite !not_elem_of_app; split_and!; try done;
    try (destruct Hd as [-> | ->]); by apply (bool_decide_unpack _); vm_compute.
Qed.

Lemma op_prefix_inj o o' : good_op o → good_op o' → op_prefix o = op_prefix o' → o = o'.
Proof.
  intros [Hc Hi] [Hc' Hi']. destruct o as [c i|c i], o' as [c' i'|c' i'];
    cbn [op_prefix op_case op_index] in *; unfold warmup_prefix, run_prefix; intros E; cbn in E; simplify_eq;
    by destruct (prefix_inj c c' i i' Hc Hc' Hi Hi') as [-> ->].
Qed.

Lemma artifact_inj o o' s s' : good_op o → good_op o' → s ∈ suffixes → s' ∈ suffixes →
  artifact o s = artifact o' s' → o = o' ∧ s = s'.
Proof.
  intros Ho Ho' Hs Hs' E. unfold artifact in E.
  assert (∀ s, s ∈ suffixes → ∃ t, s = "."%char :: t) as Hdot.
  { apply Forall_forall. repeat (constructor; [by eexists|]). constructor. }
  destruct (Hdot s Hs) as [t ->], (Hdot s' Hs') as [t' ->].
  apply separator_inj in E as [E ->]; [|by apply prefix_no_dot..]. by apply op_prefix_inj in E as ->.
Qed.

Lemma artifact_not_report o s : artifact o s ≠ str "report.json" ∧ artifact o s ≠ str "initial.metrics.json".
Proof. by destruct o. Qed.

(** ** Reasoning about a run *)

(** [Q] holds of the result and the world after a step that succeeds, [E] of the
    world after one that fails. *)
Definition wp {A} (m : M A) (Q : A → world → Prop) (E : world → Prop) (w : world) : Prop :=
  match m w with (Ok a, w') => Q a w' | (Err _, w') => E w' end.

Lemma wp_bind {A B} (m : M A) (k : A → M B) Q E w :
  wp m (λ a, wp (k a) Q E) E w → wp (bindM m k) Q E w.
Proof. unfold wp, bindM. by destruct (m w) as [[]]. Qed.

Lemma wp_mono {A} (m : M A) (Q Q' : A → world → Prop) (E E' : world → Prop) w :
  wp m Q E w → (∀ a w', Q a w' → Q' a w') → (∀ w', E w' → E' w') → wp m Q' E' w.
Proof. unfold wp. destruct (m w) as [[]]; auto. Qed.

Lemma wp_seq {A B} (m : M A) (k : A → M B) R E' Q E w :
  wp m R E' w → (∀ w', E' w' → E w') → (∀ a w', R a w' → wp (k a) Q E w') → wp (bindM m k) Q E w.
Proof. intros Hm HE Hk. apply wp_bind. by eapply wp_mono. Qed.

Lemma wp_call {A B} ev (answer : nat → A) (k : A → M B) Q E w :
  wp (k (answer (length (trace w)))) Q E (w <| trace := trace w ++ [ev] |>) →
  wp (bindM (call ev answer) k) Q E w.
Proof. done. Qed.

Lemma wp_lift {A B} (r : result A) (k : A → M B) Q E w :
  (∀ a, r = Ok a → wp (k a) Q E w) → E w → wp (bindM (lift r) k) Q E w.
Proof. intros Hk HE. apply wp_bind. unfold wp, lift. destruct r; [by apply Hk|done]. Qed.

Lemma wp_check {B} e (k : unit → M B) Q E w :
  (e = None → wp (k tt) Q E w) → E w → wp (bindM (check e) k) Q E w.
Proof. intros Hk HE. apply wp_bind. unfold wp, check. destruct e; [done|by apply Hk]. Qed.

Lemma for_each_app {A} (l k : list A) f w :
  for_each (l ++ k) f w = (do! _ := for_each l f in for_each k f) w.
Proof.
  revert w. induction l as [|x l IH]; intros w; [done|]. cbn [for_each app]. unfold bindM.
  destruct (f x w) as [[[]|] w']; [|done]. rewrite IH. unfold bindM. by destruct (for_each l f w') as [[[]|] ?].
Qed.

Lemma for_each_fmap {A B} (g : A → B) (l : list A) f w : for_each (g <$> l) f w = for_each l (λ x, f (g x)) w.
Proof.
  revert w. induction l as [|x l IH]; intros w; [done|]. cbn [for_each fmap list_fmap]. unfold bindM.
  destruct (f (g x) w) as [[[]|] w']; [apply IH|done].
Qed.

Lemma for_each_bind {A B} (g : A → list B) (l : list A) f body w :
  (∀ x w, for_each (g x) f w = body x w) → for_each (l ≫= g) f w = for_each l body w.
Proof.
  intros Hb. revert w. induction l as [|x l IH]; intros w; [done|]. cbn [mbind list_bind]. rewrite for_each_app.
  cbn [for_each]. unfold bindM. rewrite Hb. destruct (body x w) as [[[]|] w']; [apply IH|done].
Qed.

(** A loop keeps an invariant of the elements it is past. *)
Lemma wp_for_each {A} (l : list A) (body : A → M unit) (I : list A → world → Prop) E w :
  (∀ pre x post w, l = pre ++ x :: post → I pre w → wp (body x) (λ _, I (pre ++ [x])) E w) →
  I [] w → wp (for_each l body) (λ _, I l) E w.
Proof.
  intros Hb HI. assert (∀ post pre w, l = pre ++ post → I pre w → wp (for_each post body) (λ _, I l) E w) as H.
  { clear w HI. induction post as [|x post IH]; intros pre w El HI; cbn [for_each].
    - rewrite app_nil_r in El. by subst.
    - apply wp_bind. eapply wp_mono; [by apply (Hb pre x post)| |done]. intros ? w' HI'.
      apply (IH (pre ++ [x])); [by rewrite <-(assoc_L (++))|done]. }
  by apply (H l []).
Qed.

(** ** What the files say of the report *)

Section correctness.
Context (sys : system).

(** The captured output is in the files, and gives the summary of the record. *)
Definition iperf_backed (fs : gmap bytes content) (o : op) (s : IPerfSummary) : Prop :=
  ∃ res, fs !! artifact o (str ".iperf.json") = Some (RawFile (Stdout res)) ∧
    fs !! artifact o (str ".iperf.stderr.txt") = Some (RawFile (Stderr res)) ∧
    parse_iperf sys (Stdout res) = Ok s ∧ validateIPerfCase (op_case o) s = Ok tt.

(** The two snapshots are in the files, and their difference is the delta. *)
Definition delta_backed (fs : gmap bytes content) (o : op) (d : MetricDelta) : Prop :=
  ∃ before after, fs !! artifact o (str ".metrics-before.json") = Some (SnapshotFile before) ∧
    fs !! artifact o (str ".metrics-after.json") = Some (SnapshotFile after) ∧
    DiffMetrics before after = Ok d.

Definition op_of_warmup (r : WarmupRecord) : op := OpWarmup (wu_Case r) (wu_Index r).
Definition op_of_run (r : RunRecord) : op := OpRun (rr_Case r) (rr_Index r).

Definition warmup_backed (fs : gmap bytes content) (r : WarmupRecord) : Prop :=
  let o := op_of_warmup r in
  wu_Files r = MkFiles (artifact o (str ".iperf.json")) (artifact o (str ".iperf.stderr.txt")) [] [] ∧
  iperf_backed fs o (wu_IPerf r).

Definition run_backed (fs : gmap bytes content) (r : RunRecord) : Prop :=
  let o := op_of_run r in
  rr_Files r = MkFiles (artifact o (str ".iperf.json")) (artifact o (str ".iperf.stderr.txt"))
                 (artifact o (str ".metrics-before.json")) (artifact o (str ".metrics-after.json")) ∧
  iperf_backed fs o (rr_IPerf r) ∧ delta_backed fs o (rr_MetricsDelta r).

Definition is_warmup (o : op) : Prop := match o with OpWarmup _ _ => True | OpRun _ _ => False end.
#[export] Instance is_warmup_dec o : Decision (is_warmup o).
Proof. destruct o; apply _. Defined.

(** The report records the operations [done], in their order, all backed. *)
Definition recorded (fs : gmap bytes content) (r : Report) (done : list op) : Prop :=
  op_of_warmup <$> Warmups r = filter is_warmup done ∧
  op_of_run <$> rep_Runs r = filter (λ o, ¬ is_warmup o) done ∧
  Forall (warmup_backed fs) (Warmups r) ∧ Forall (run_backed fs) (rep_Runs r).

Local Ltac in_suffixes := apply (bool_decide_unpack _); reflexivity.

(** *** Writing the files of one operation leaves the others' alone *)

Definition agree_except (o : op) (fs fs' : gmap bytes content) : Prop :=
  ∀ o' s, good_op o' → o' ≠ o → s ∈ suffixes → fs' !! artifact o' s = fs !! artifact o' s.

Lemma agree_refl o fs : agree_except o fs fs.
Proof. by intros ? ?. Qed.

Lemma agree_artifact o fs fs' s c : good_op o → s ∈ suffixes → agree_except o fs fs' →
  agree_except o fs (<[artifact o s := c]> fs').
Proof.
  intros Ho Hs H o' s' Ho' Hne Hs'. rewrite lookup_insert_ne; [by apply H|].
  intros E. by apply artifact_inj in E as [-> _].
Qed.

Lemma agree_report o fs fs' c : agree_except o fs fs' → agree_except o fs (<[str "report.json" := c]> fs').
Proof.
  intros H o' s' Ho' Hne Hs'. rewrite lookup_insert_ne; [by apply H|]. intros E. by destruct (artifact_not_report o' s').
Qed.

Lemma iperf_backed_agree o o' fs fs' s : good_op o' → o' ≠ o → agree_except o fs fs' →
  iperf_backed fs o' s → iperf_backed fs' o' s.
Proof.
  intros Hg Hne Ha (res & H1 & H2 & H3). exists res. rewrite !Ha by (done || in_suffixes). done.
Qed.

Lemma delta_backed_agree o o' fs fs' d : good_op o' → o' ≠ o → agree_except o fs fs' →
  delta_backed fs o' d → delta_backed fs' o' d.
Proof.
  intros Hg Hne Ha (b & a & H1 & H2 & H3). exists b, a. rewrite !Ha by (done || in_suffixes). done.
Qed.

Lemma recorded_agree o fs fs' r done : Forall good_op done → o ∉ done → agree_except o fs fs' →
  recorded fs r done → recorded fs' r done.
Proof.
  intros Hg Hn Ha (H1 & H2 & H3 & H4). rewrite Forall_forall in Hg. rewrite Forall_forall in H3. rewrite Forall_forall in H4.
  split; [done|]. split; [done|]. split; apply Forall_forall; intros x Hx.
  - assert (op_of_warmup x ∈ done) as Hd.
    { apply (list_elem_of_fmap_2 op_of_warmup) in Hx. rewrite H1 in Hx. by apply list_elem_of_filter in Hx as [_ ?]. }
    destruct (H3 x Hx) as [Hf Hb]. split; [done|]. eapply iperf_backed_agree; [by apply Hg| |done|done].
    intros E. by rewrite E in Hd.
  - assert (op_of_run x ∈ done) as Hd.
    { apply (list_elem_of_fmap_2 op_of_run) in Hx. rewrite H2 in Hx. by apply list_elem_of_filter in Hx as [_ ?]. }
    assert (op_of_run x ≠ o) as Hne by (intros E; by rewrite E in Hd).
    destruct (H4 x Hx) as (Hf & Hb & Hdel). split; [done|].
    split; [eapply iperf_backed_agree|eapply delta_backed_agree]; eauto.
Qed.


(** ** The steps of an operation *)

(** [report] and the counter are as before. *)
Definition same_report (w w' : world) : Prop :=
  report w' = report w ∧ completedOperations w' = completedOperations w.

Lemma WriteFile_spec {B} name data (k : option goerror → M B) Q E w :
  (∀ failed t, wp (k failed) Q E (w <| trace := t |>
     <| files := <[name := match failed with None => data | Some _ => Damaged end]> (files w) |>)) →
  wp (bindM (WriteFile sys name data) k) Q E w.
Proof. intros H. exact (H (os_write sys (length (trace w))) (trace w ++ [EvWrite name])). Qed.

(** One file of operation [o] is written, or the file is damaged. *)
Lemma writeJSON_spec o s v (w : world) : good_op o → s ∈ suffixes →
  wp (writeJSON sys (artifact o s) v)
    (λ _ w', same_report w w' ∧ files w' = <[artifact o s := v]> (files w))
    (λ w', same_report w w' ∧ agree_except o (files w) (files w')) w.
Proof.
  intros Ho Hs. unfold writeJSON. destruct (encode sys v); [by split; [|apply agree_refl]|].
  apply WriteFile_spec. intros [e|] t; cbn; [|done]. split; [done|]. apply agree_artifact; [done|done|apply agree_refl].
Qed.

Lemma writeIPerfArtifacts_spec o res (w : world) : good_op o →
  wp (writeIPerfArtifacts sys (op_prefix o) res)
    (λ f w', f = MkFiles (artifact o (str ".iperf.json")) (artifact o (str ".iperf.stderr.txt")) [] [] ∧ same_report w w' ∧
       files w' = <[artifact o (str ".iperf.stderr.txt") := RawFile (Stderr res)]>
                    (<[artifact o (str ".iperf.json") := RawFile (Stdout res)]> (files w)))
    (λ w', same_report w w' ∧ agree_except o (files w) (files w')) w.
Proof.
  intros Ho. unfold writeIPerfArtifacts. cbn [IPerfJSON IPerfStderr].
  apply WriteFile_spec. intros failed t. apply wp_check; [intros E|split; [done|]].
  2:{ apply agree_artifact; [done|in_suffixes|apply agree_refl]. }
  destruct failed; [done|]. apply WriteFile_spec. intros failed t'. apply wp_check; [intros E'|split; [done|]].
  2:{ apply agree_artifact; [done|in_suffixes|]. apply agree_artifact; [done|in_suffixes|apply agree_refl]. }
  destruct failed; [done|]. done.
Qed.

(** The files of a measured run. *)
Definition run_files (o : op) (res : CommandResult) (before after : Snapshot) (fs : gmap bytes content) : gmap bytes content :=
  <[artifact o (str ".metrics-after.json") := SnapshotFile after]>
    (<[artifact o (str ".metrics-before.json") := SnapshotFile before]>
      (<[artifact o (str ".iperf.stderr.txt") := RawFile (Stderr res)]>
        (<[artifact o (str ".iperf.json") := RawFile (Stdout res)]> fs))).

Lemma writeRunArtifacts_spec o res before after (w : world) : good_op o →
  wp (writeRunArtifacts sys (op_prefix o) res before after)
    (λ f w', same_report w w' ∧ agree_except o (files w) (files w') ∧
       match after with
       | None => True
       | Some after => files w' = run_files o res before after (files w) ∧
           f = MkFiles (artifact o (str ".iperf.json")) (artifact o (str ".iperf.stderr.txt"))
                 (artifact o (str ".metrics-before.json")) (artifact o (str ".metrics-after.json"))
       end)
    (λ w', same_report w w' ∧ agree_except o (files w) (files w')) w.
Proof.
  intros Ho. unfold writeRunArtifacts. eapply wp_seq; [by apply writeIPerfArtifacts_spec|done|].
  intros f w1 (-> & Hs1 & Hf1). cbn [IPerfJSON IPerfStderr].
  assert (agree_except o (files w) (files w1)) as Ha1.
  { rewrite Hf1. do 2 (apply agree_artifact; [done|in_suffixes|]). apply agree_refl. }
  eapply wp_seq; [apply (writeJSON_spec o (str ".metrics-before.json")); [done|in_suffixes]| |].
  { intros w2 [Hs2 Ha2]. split; [by destruct Hs1, Hs2; split; congruence|].
    intros o' s' Ho' Hne Hs'. by rewrite Ha2, Ha1. }
  intros _ w2 [Hs2 Hf2].
  assert (same_report w w2) as Hs by (by destruct Hs1, Hs2; split; congruence).
  assert (agree_except o (files w) (files w2)) as Ha.
  { rewrite Hf2. apply agree_artifact; [done|in_suffixes|done]. }
  destruct after as [after|]; [|done].
  eapply wp_seq; [apply (writeJSON_spec o (str ".metrics-after.json")); [done|in_suffixes]| |].
  { intros w3 [Hs3 Ha3]. split; [by destruct Hs, Hs3; split; congruence|].
    intros o' s' Ho' Hne Hs'. by rewrite Ha3, Ha. }
  intros _ w3 [Hs3 Hf3]. split; [by destruct Hs, Hs3; split; congruence|]. split.
  { rewrite Hf3. apply agree_artifact; [done|in_suffixes|done]. }
  split; [|done]. unfold run_files. by rewrite Hf3, Hf2, Hf1.
Qed.

(** A name of the operation, past the writes of its other names. *)
Lemma artifact_other (o : op) (s s' : bytes) (c : content) (fs : gmap bytes content) : s ≠ s' →
  <[artifact o s := c]> fs !! artifact o s' = fs !! artifact o s'.
Proof. intros H. apply lookup_insert_ne. intros E. by apply app_inv_head in E. Qed.

Lemma iperf_files_backed o res sm fs : parse_iperf sys (Stdout res) = Ok sm →
  validateIPerfCase (op_case o) sm = Ok tt →
  iperf_backed (<[artifact o (str ".iperf.stderr.txt") := RawFile (Stderr res)]>
                  (<[artifact o (str ".iperf.json") := RawFile (Stdout res)]> fs)) o sm.
Proof.
  intros Hp Hv. exists res. rewrite artifact_other by done. by rewrite !lookup_insert_eq.
Qed.

Lemma run_files_backed o res sm before after d fs : parse_iperf sys (Stdout res) = Ok sm →
  validateIPerfCase (op_case o) sm = Ok tt → DiffMetrics before after = Ok d →
  iperf_backed (run_files o res before after fs) o sm ∧ delta_backed (run_files o res before after fs) o d.
Proof.
  intros Hp Hv Hd. unfold run_files. split.
  - exists res. rewrite !artifact_other by done. split; [by rewrite lookup_insert_eq|].
    split; [by rewrite !artifact_other, lookup_insert_eq by done|done].
  - exists before, after. rewrite lookup_insert_eq. rewrite artifact_other, lookup_insert_eq by done. done.
Qed.

Lemma recorded_report fs r done c : Forall good_op done → recorded fs r done →
  recorded (<[str "report.json" := c]> fs) r done.
Proof.
  intros Hg. apply (recorded_agree (OpRun (MkCase DirectionUpload 0) 0)); [done| |apply agree_report, agree_refl].
  intros Hin. rewrite Forall_forall in Hg. destruct (Hg _ Hin) as [[_ ?]%validate_Case_ok _]. cbn in *. lia.
Qed.

Lemma recorded_warmup fs r done rec : recorded fs r done → warmup_backed fs rec →
  recorded fs (r <| Warmups ::= λ ws, ws ++ [rec] |>) (done ++ [op_of_warmup rec]).
Proof.
  intros (H1 & H2 & H3 & H4) Hb. unfold recorded. cbn. rewrite fmap_app, H1, H2, !filter_app.
  split; [done|]. split; [by rewrite app_nil_r|]. split; [|done]. apply Forall_app. by split; [|constructor].
Qed.

Lemma recorded_run fs r done rec : recorded fs r done → run_backed fs rec →
  recorded fs (r <| rep_Runs ::= λ rs, rs ++ [rec] |>) (done ++ [op_of_run rec]).
Proof.
  intros (H1 & H2 & H3 & H4) Hb. unfold recorded. cbn. rewrite fmap_app, H1, H2, !filter_app.
  split; [by rewrite app_nil_r|]. split; [done|]. split; [done|]. apply Forall_app. by split; [|constructor].
Qed.

Section run.
Context (exec : IPerfExecutor) (fetch : nat → result Snapshot) (now : nat → Z) (sleep : nat → Z → option goerror).
Context (config : RunConfig) (rep0 : Report).

(** All fields of the report but the two lists of records. *)
Definition header (r : Report) : Report := r <| Warmups := [] |> <| rep_Runs := [] |>.

(** The report after the operations [done]; [inv] between two operations. *)
Definition progress (done : list op) (w : world) : Prop :=
  recorded (files w) (report w) done ∧ header (report w) = rep0.

Definition inv (done : list op) (w : world) : Prop :=
  progress done w ∧ completedOperations w = Z.of_nat (length done).

Lemma finish_operation_spec done w : Forall good_op done → progress done w →
  completedOperations w + 1 = Z.of_nat (length done) →
  wp (finish_operation sys sleep config) (λ _, inv done) (progress done) w.
Proof.
  intros Hg [Hr Hh] Hc. unfold finish_operation, count_operation. apply wp_bind. cbn [wp].
  unfold wp at 1. apply wp_bind. unfold persistReport, get_report, writeJSON. apply wp_bind. unfold wp at 1.
  cbn [report]. destruct (encode sys _); [done|].
  apply WriteFile_spec. intros failed t.
  assert (∀ c, progress done (w <| completedOperations := completedOperations w + 1 |> <| trace := t |>
    <| files := <[str "report.json" := c]> (files w) |>)) as Hp.
  { intros c. split; [|done]. by apply recorded_report. }
  destruct failed; [by apply Hp|]. cbn [check fmap option_fmap option_map].
  unfold wp at 1. cbn [check]. case_match; [|by split; [apply Hp|]].
  apply wp_call. unfold wp, check. destruct (sleep _ _); [by apply Hp|]. by split; [apply Hp|].
Qed.

(** The error of an operation: the report has the operation or has it not. *)
Definition stopped (done : list op) (o : op) (w : world) : Prop := progress done w ∨ progress (done ++ [o]) w.

Lemma progress_agree o done w w' : Forall good_op done → o ∉ done → progress done w → same_report w w' →
  agree_except o (files w) (files w') → progress done w'.
Proof.
  intros Hg Hn [Hr Hh] [Er _] Ha. unfold progress. rewrite Er. split; [|done]. by eapply recorded_agree.
Qed.

Lemma finish_after done o w : Forall good_op (done ++ [o]) → progress (done ++ [o]) w →
  completedOperations w = Z.of_nat (length done) →
  wp (finish_operation sys sleep config) (λ _, inv (done ++ [o])) (stopped done o) w.
Proof.
  intros Hg Hp Hc. eapply wp_mono; [apply finish_operation_spec| |]; [done|done| |done|by right].
  rewrite length_app. cbn. lia.
Qed.

Lemma warmup_spec done c i w : let o := OpWarmup c i in
  Forall good_op (done ++ [o]) → o ∉ done → inv done w →
  wp (warmup sys exec now sleep config c i) (λ _, inv (done ++ [o])) (stopped done o) w.
Proof.
  intros o Hg Hn [Hp Hc]. pose proof Hg as [Hgd Hgo]%Forall_app. rewrite Forall_singleton in Hgo.
  unfold warmup. cbv zeta. apply wp_call. unfold run_iperf. apply wp_call.
  destruct (exec_Run exec _ _ _ _) as [res runErr]. apply wp_call.
  change (warmup_prefix c i) with (op_prefix o).
  eapply wp_seq; [apply (writeIPerfArtifacts_spec o); exact Hgo| |].
  { intros w' [Hs Ha]. left. by eapply progress_agree. }
  intros f w' (-> & Hs & Hf).
  assert (agree_except o (files w) (files w')) as Ha.
  { rewrite Hf. do 2 (apply agree_artifact; [done|in_suffixes|]). apply agree_refl. }
  assert (progress done w') as Hp' by (by eapply progress_agree).
  apply wp_check; [intros _|by left]. apply wp_lift; [intros sm Hsm%map_err_ok|by left].
  apply wp_lift; [intros [] Hval%map_err_ok|by left].
  apply wp_bind. unfold wp at 1, set_report. apply finish_after; [done| |exact (eq_trans (proj2 Hs) Hc)].
  destruct Hp' as [Hr Hh]. split; [|exact Hh].
  apply (recorded_warmup (files w') (report w') done (MkWarmup _ _ _ _ _ _ _)); [done|]. split; [done|]. rewrite Hf.
  by apply iperf_files_backed.
Qed.

Lemma fetch_after_spec {B} (k : result Snapshot → M B) Q E w :
  (∀ r t, wp (k r) Q E (w <| trace := t |>)) → wp (bindM (fetch_after fetch sleep config) k) Q E w.
Proof.
  intros H. apply wp_bind. unfold fetch_after. apply wp_bind.
  destruct (Settle config >? 0); unfold wp, call, ret.
  - destruct (sleep _ _); apply H.
  - assert (w = w <| trace := trace w |>) as E' by (by destruct w). apply H.
Qed.

Lemma measure_spec done c i w : let o := OpRun c i in
  Forall good_op (done ++ [o]) → o ∉ done → inv done w →
  wp (measure sys exec fetch now sleep config c i) (λ _, inv (done ++ [o])) (stopped done o) w.
Proof.
  intros o Hg Hn [Hp Hc]. pose proof Hg as [Hgd Hgo]%Forall_app. rewrite Forall_singleton in Hgo.
  unfold measure. cbv zeta. apply wp_call. apply wp_lift; [intros before _|by left; apply Hp].
  apply wp_call. unfold run_iperf. apply wp_call. destruct (exec_Run exec _ _ _ _) as [res runErr]. apply wp_call.
  apply fetch_after_spec. intros fetched t. change (run_prefix c i) with (op_prefix o).
  eapply wp_seq; [apply (writeRunArtifacts_spec o); exact Hgo| |].
  { intros w' [Hs Ha]. left. by eapply progress_agree. }
  intros f w' (Hs & Ha & Hf).
  assert (progress done w') as Hp' by (by eapply progress_agree).
  apply wp_check; [intros _|by left]. apply wp_lift; [intros after ->%map_err_ok|by left].
  destruct Hf as [Hf ->].
  apply wp_lift; [intros sm Hsm%map_err_ok|by left]. apply wp_lift; [intros [] Hval%map_err_ok|by left].
  apply wp_lift; [intros delta Hd%map_err_ok|by left].
  apply wp_bind. unfold wp at 1, set_report. apply finish_after; [done| |exact (eq_trans (proj2 Hs) Hc)].
  destruct Hp' as [Hr Hh]. split; [|exact Hh].
  apply (recorded_run (files w') (report w') done (MkRun _ _ _ _ _ _ _ _)); [done|]. split; [done|]. rewrite Hf. cbn [rr_IPerf rr_MetricsDelta].
  by apply run_files_backed.
Qed.

(** ** The whole run *)

Definition case_plan (c : Case) : list op :=
  (OpWarmup c <$> seqZ 1 (WarmupRuns config)) ++ (OpRun c <$> seqZ 1 (Runs config)).

Definition plan : list op := Cases config ≫= case_plan.

Definition exec_op (o : op) : M unit :=
  match o with
  | OpWarmup c i => warmup sys exec now sleep config c i
  | OpRun c i => measure sys exec fetch now sleep config c i
  end.

(** The nested loops walk the plan. *)
Lemma loops_plan w :
  for_each (Cases config) (λ c,
    do! _ := for_each (seqZ 1 (WarmupRuns config)) (warmup sys exec now sleep config c) in
    for_each (seqZ 1 (Runs config)) (measure sys exec fetch now sleep config c)) w = for_each plan exec_op w.
Proof.
  symmetry. apply for_each_bind. intros c w'. unfold case_plan. rewrite for_each_app. unfold bindM.
  rewrite for_each_fmap. destruct (for_each _ _ w') as [[[]|] w'']; [|done]. by rewrite for_each_fmap.
Qed.

Context (plan_good : Forall good_op plan) (plan_nodup : NoDup plan).

Definition stopped_in_plan (w : world) : Prop := ∃ done, done `prefix_of` plan ∧ progress done w.

Lemma exec_op_spec pre o post w : plan = pre ++ o :: post → inv pre w →
  wp (exec_op o) (λ _, inv (pre ++ [o])) stopped_in_plan w.
Proof.
  intros Ep Hi.
  assert (Forall good_op (pre ++ [o])) as Hg.
  { rewrite Ep in plan_good. apply Forall_app in plan_good as [? [? _]%Forall_cons]. apply Forall_app. split; [done|]. by apply Forall_singleton. }
  assert (o ∉ pre) as Hn.
  { rewrite Ep in plan_nodup. apply NoDup_app in plan_nodup as (_ & Hd & _). intros Hin. by apply (Hd o Hin); left. }
  assert (∀ w, stopped pre o w → stopped_in_plan w) as Hstop.
  { intros w' [H|H]; [exists pre|exists (pre ++ [o])]; (split; [|done]); rewrite Ep; [by eexists|].
    exists post. by rewrite <-(assoc_L (++)). }
  apply (wp_mono _ (λ _, inv (pre ++ [o])) _ (stopped pre o)); [|done|exact Hstop]. destruct o; [by apply warmup_spec|by apply measure_spec].
Qed.

(** The end of the loops: all of the plan recorded, and the summaries computed. *)
Lemma run_cases_spec w : inv [] w →
  wp (run_cases sys exec fetch now sleep config)
    (λ _ w', recorded (files w') (report w') plan ∧
       Summarize (measurements (rep_Runs (report w'))) = Ok (Summaries (report w')) ∧
       header (report w') = rep0 <| Summaries := Summaries (report w') |>)
    stopped_in_plan w.
Proof.
  intros Hi. unfold run_cases. apply wp_bind. unfold wp at 1. rewrite loops_plan.
  pose proof (wp_for_each plan exec_op inv stopped_in_plan w exec_op_spec Hi) as H. unfold wp in H.
  destruct (for_each plan exec_op w) as [[[]|] w']; [|done]. destruct H as [[Hr Hh] _].
  apply wp_bind. unfold wp at 1, get_report. apply wp_lift; [|exists plan; by split].
  intros sums Hs. unfold wp, set_report. cbn. split; [done|]. split; [done|]. rewrite <-Hh. by destruct (report w').
Qed.
End run.

(** ** What validation gives the run *)

Lemma validate_cases_ok seen cases : validate_cases seen cases = Ok tt ↔
  Forall valid_case cases ∧ NoDup cases ∧ ∀ c, c ∈ cases → c ∉ seen.
Proof.
  revert seen. induction cases as [|c cases IH]; intros seen; cbn [validate_cases].
  { split; [intros _; split_and!; [constructor|constructor|by intros ? ?%not_elem_of_nil]|done]. }
  rewrite result_bind_ok, Forall_cons, NoDup_cons. split.
  - intros ([] & Hv & H). case_bool_decide as Hin; [done|]. apply IH in H as (H1 & H2 & H3).
    split_and!; [done|done| |done|].
    + intros Hc. apply (H3 c Hc). left.
    + intros x [->|Hx]%elem_of_cons; [done|]. intros Hs. apply (H3 x Hx). by right.
  - intros ((Hv & H1) & (Hn & H2) & H3). exists tt. split; [done|].
    rewrite bool_decide_eq_false_2 by (apply H3; left). apply IH. split; [done|]. split; [done|].
    intros x Hx [->|Hs]%elem_of_cons; [done|]. apply (H3 x); [by right|done].
Qed.

Lemma refuse_ok bad text : refuse bad text = Ok tt ↔ bad = false.
Proof. by destruct bad. Qed.

(** The bounds the rest of the run relies on. *)
Lemma config_bounds c : Validate c = Ok tt →
  MinimumRuns ≤ Runs c ≤ 20 ∧ 0 ≤ WarmupRuns c ≤ 5 ∧ Cases c ≠ [] ∧ Forall valid_case (Cases c) ∧ NoDup (Cases c).
Proof.
  unfold Validate. intros H.
  repeat match goal with
  | H : result_bind (refuse _ _) _ = Ok _ |- _ => apply result_bind_ok in H as ([] & ?%refuse_ok & H)
  | H : result_bind _ _ = Ok _ |- _ => apply result_bind_ok in H as (? & ? & H)
  end.
  repeat match goal with
  | x : unit |- _ => destruct x
  | H : validate_cases _ _ = Ok _ |- _ => apply validate_cases_ok in H as (? & ? & _)
  | H : _ || _ = false |- _ => apply orb_false_iff in H as [??]
  | H : (_ <? _) = false |- _ => apply Z.ltb_ge in H
  | H : (_ >? _) = false |- _ => rewrite Z.gtb_ltb in H
  | H : bool_decide (Cases c = []) = false |- _ => apply bool_decide_eq_false in H
  end.
  done.
Qed.

Lemma plan_ok config : Validate config = Ok tt → Forall good_op (plan config) ∧ NoDup (plan config).
Proof.
  intros (Hr & Hw & _ & Hv & Hn)%config_bounds. unfold plan. split.
  - apply Forall_bind. eapply Forall_impl; [exact Hv|]. intros c Hc. unfold case_plan, MinimumRuns in *.
    apply Forall_app. split; apply Forall_fmap, Forall_forall; intros i Hi%elem_of_seqZ; (split; [done|cbn; lia]).
  - clear Hv. induction Hn as [|c cases Hc Hn IH]; [constructor|]. cbn [mbind list_bind]. apply NoDup_app.
    split; [|split; [|done]].
    + unfold case_plan. apply NoDup_app. split; [apply NoDup_fmap_2; [|apply NoDup_seqZ]; by intros ?? [= ->]|].
      split; [|apply NoDup_fmap_2; [|apply NoDup_seqZ]; by intros ?? [= ->]].
      intros o (i & -> & _)%list_elem_of_fmap (j & Hj & _)%list_elem_of_fmap. done.
    + assert (∀ c o, o ∈ case_plan config c → op_case o = c) as Hcase.
      { intros c' o. unfold case_plan. rewrite elem_of_app. by intros [(i & -> & _)%list_elem_of_fmap|(i & -> & _)%list_elem_of_fmap]. }
      intros o Ho (c' & Hc' & Hin)%list_elem_of_bind. apply Hcase in Ho, Hc'. congruence.
Qed.

(** ** The end of a run *)

(** The report is on the disk as it is, or the write of it failed. *)
Lemma persistReport_spec done w : Forall good_op done → recorded (files w) (report w) done →
  wp (persistReport sys)
    (λ _ w', report w' = report w ∧ recorded (files w') (report w) done ∧
             files w' !! str "report.json" = Some (ReportFile (report w)))
    (λ w', report w' = report w ∧ recorded (files w') (report w) done) w.
Proof.
  intros Hg Hr. unfold persistReport, get_report, writeJSON. apply wp_bind. unfold wp at 1.
  destruct (encode sys _); [done|]. apply WriteFile_spec. intros [e|] t; cbn.
  - split; [done|]. by apply recorded_report.
  - split; [done|]. split; [by apply recorded_report|]. by rewrite lookup_insert_eq.
Qed.

Lemma recorded_same_records fs r r' done : Warmups r' = Warmups r → rep_Runs r' = rep_Runs r →
  recorded fs r done → recorded fs r' done.
Proof. unfold recorded. by intros -> ->. Qed.

(** What a failed run leaves: the status, the error, and the report on the disk
    unless writing it failed too, which the error then says. *)
Definition failed_report (done : list op) (e : goerror) (w : world) : Prop :=
  recorded (files w) (report w) done ∧ Status (report w) = str "failed" ∧ is_Some (FinishedAt (report w)) ∧
  ((files w !! str "report.json" = Some (ReportFile (report w)) ∧ rep_Error (report w) = err_text e) ∨
   ∃ p, err_text e = rep_Error (report w) ++ [chr 10] ++ err_text p).

Lemma fail_spec now done e w : Forall good_op done → recorded (files w) (report w) done →
  let '(e', w') := fail sys now e w in failed_report done e' w'.
Proof.
  intros Hg Hr. unfold fail. cbv zeta. unfold bindM at 1, call, set_report. cbv beta iota.
  match goal with |- context [persistReport sys ?w1] =>
    pose proof (persistReport_spec done w1 Hg) as Hp; set (w2 := w1) in *
  end.
  unfold wp in Hp. destruct (persistReport sys w2) as [[[]|p] w3].
  - destruct Hp as (E & Hr' & Hf); [by apply (recorded_same_records _ (report w))|]. unfold failed_report. rewrite E.
    split; [done|]. split; [done|]. split; [by eexists|]. by left.
  - destruct Hp as (E & Hr'); [by apply (recorded_same_records _ (report w))|]. unfold failed_report. rewrite E.
    split; [done|]. split; [done|]. split; [by eexists|]. right. by exists p.
Qed.

Definition complete_report (config : RunConfig) (w : world) : Prop :=
  recorded (files w) (report w) (plan config) ∧ Status (report w) = str "complete" ∧
  is_Some (FinishedAt (report w)) ∧
  Summarize (measurements (rep_Runs (report w))) = Ok (Summaries (report w)).

Lemma run_report_spec exec fetch now sleep config w : Validate config = Ok tt →
  Warmups (report w) = [] → rep_Runs (report w) = [] →
  let '(err, w') := run_report sys exec fetch now sleep config w in
  match err with
  | None => complete_report config w' ∧ files w' !! str "report.json" = Some (ReportFile (report w'))
  | Some e => complete_report config w' ∨ ∃ done, done `prefix_of` plan config ∧ failed_report done e w'
  end.
Proof.
  intros Hv Hw0 Hr0. destruct (plan_ok config Hv) as [Hg Hn]. unfold run_report.
  assert (inv (report w) [] (w <| completedOperations := 0 |>)) as Hi.
  { split; [|done]. split; [by split_and!; cbn; rewrite ?Hw0, ?Hr0; constructor|].
    unfold header. cbn. by destruct (report w); cbn in *; subst. }
  pose proof (run_cases_spec exec fetch now sleep config (report w) Hg Hn _ Hi) as H. unfold wp in H.
  destruct (run_cases _ _ _ _ _ _ _) as [[[]|e] w1].
  - destruct H as (Hr & Hs & Hh). unfold bindM, set_report, call. cbv beta iota.
    match goal with |- context [persistReport sys ?w1] =>
      pose proof (persistReport_spec (plan config) w1 Hg) as Hp; set (w2 := w1) in *
    end.
    unfold wp in Hp. destruct (persistReport sys w2) as [[[]|p] w3].
    + destruct Hp as (E & Hr' & Hf); [by apply (recorded_same_records _ (report w1))|].
      unfold complete_report. rewrite E. split; [|done]. split; [done|]. split; [done|]. split; [by eexists|done].
    + destruct Hp as (E & Hr'); [by apply (recorded_same_records _ (report w1))|].
      left. unfold complete_report. rewrite E. split; [done|]. split; [done|]. split; [by eexists|done].
  - destruct H as (done & Hpre & Hr & Hh).
    assert (Forall good_op done) as Hgd.
    { destruct Hpre as [post E]. rewrite E in Hg. by apply Forall_app in Hg as [? _]. }
    pose proof (fail_spec now done e w1 Hgd Hr) as Hf. destruct (fail _ _ _ _) as [e' w2]. right. by exists done.
Qed.

Lemma writeJSON_report name v w : report (writeJSON sys name v w).2 = report w.
Proof. unfold writeJSON. destruct (encode sys v); [done|]. unfold bindM, WriteFile, check. by destruct (os_write _ _). Qed.

Lemma persistReport_report w : report (persistReport sys w).2 = report w.
Proof. apply (writeJSON_report (str "report.json") (ReportFile (report w)) w). Qed.

Lemma wp_skip {A B} (m : M A) (k : A → M B) Q w :
  (∀ a w', wp (k a) Q (λ _, True) w') → wp (bindM m k) Q (λ _, True) w.
Proof. intros H. apply wp_bind. unfold wp at 1. destruct (m w) as [[]]; [apply H|done]. Qed.

(** The run starts with an empty report. *)
Lemma prepare_spec exec fetch now config w :
  wp (prepare sys exec fetch now config)
    (λ _ w', ∃ version startedAt, report w' = initial_report sys config version startedAt) (λ _, True) w.
Proof.
  unfold prepare. apply wp_skip; intros _ w1. apply wp_skip; intros version w2. apply wp_skip; intros v w3.
  apply wp_skip; intros fetched w4. apply wp_skip; intros initial w5. apply wp_skip; intros _ w6.
  apply wp_skip; intros _ w7. apply wp_skip; intros startedAt w8. apply wp_bind. unfold wp at 1, set_report.
  apply wp_bind. unfold wp at 1.
  match goal with |- context [writeJSON sys ?n ?v ?w0] => pose proof (writeJSON_report n v w0) as E1; set (w9 := w0) in * end.
  destruct (writeJSON _ _ _ w9) as [[[]|] w10]; [|done]. cbn in E1.
  unfold persistReport, get_report, wp. cbn [bindM].
  unfold bindM. pose proof (writeJSON_report (str "report.json") (ReportFile (report w10)) w10) as E2.
  destruct (writeJSON _ _ _ w10) as [[[]|] w11]; [|done]. cbn in E2.
  exists v, startedAt. by rewrite E2, E1.
Qed.
End correctness.

(** C40: A benchmark report can be checked against its artifacts: whatever iperf3,
    the diagnostics endpoint, the clock and the file system do, every warm-up
    and run the returned report lists is one of the planned operations, in
    their order; the captured output stored under its name parses to the
    record's summary, which matches the case, and the two stored snapshots
    differ by the record's counters.  Without an error all of the plan is
    there, the summaries are those of the runs, and the stored report is the
    returned one; with an error the report is marked failed, names the error,
    and is stored too unless that write failed and the error says so, or only
    the last write of a complete report failed. *)
Theorem report_backed_by_artifacts sys h ctx config w rep err w' :
  Run sys h ctx config w = ((Some rep, err), w') →
  rep = report w' ∧
  match err with
  | None => complete_report sys config w' ∧ files w' !! str "report.json" = Some (ReportFile rep)
  | Some e => complete_report sys config w' ∨ ∃ done, done `prefix_of` plan config ∧ failed_report sys done e w'
  end.
Proof.
  unfold Run. destruct ctx; [|done]. destruct (Validate config) as [[]|] eqn:Hv; [|done].
  destruct (IPerf h) as [exec|]; [|done]. destruct (Metrics_ h) as [fetch|]; [|done]. cbn [negb]. cbv zeta.
  pose proof (prepare_spec sys exec fetch (default (os_now sys) (Now h)) config w) as Hp. unfold wp in Hp.
  destruct (prepare _ _ _ _ _ w) as [[[]|] w1]; [|done]. destruct Hp as (version & startedAt & Hp).
  pose proof (run_report_spec sys exec fetch (default (os_now sys) (Now h)) (default (os_wait sys) (Sleep h))
    config w1 Hv) as Hr. rewrite Hp in Hr. specialize (Hr eq_refl eq_refl).
  destruct (run_report _ _ _ _ _ _ _) as [e w2]. intros [= <- <- <-]. split; [done|]. exact Hr.
Qed.

(** ** A benchmark in which nothing goes wrong *)

(** Every call of the program succeeds; what iperf3 prints can be parsed and is
    of the case it was asked for, and no counter goes back. *)
Record cooperative (sys : system) (exec : IPerfExecutor) (fetch : nat → result Snapshot)
    (sleep : nat → Z → option goerror) (config : RunConfig) : Prop := {
  co_stat : ∃ e, os_stat sys = Some e ∧ errors_is ErrNotExist e = true;
  co_mkdir : os_mkdirall sys = None ∧ os_mkdir sys = None;
  co_write n : os_write sys n = None;
  co_encode v : encode sys v = None;
  co_sleep n d : sleep n d = None;
  co_version n : is_ok (exec_Version exec n) = true;
  co_iperf n c : valid_case c → ∃ res sm, exec_Run exec n (Target config) (DurationSeconds config) c = (res, None) ∧
    parse_iperf sys (Stdout res) = Ok sm ∧ validateIPerfCase c sm = Ok tt;
  co_fetch n : ∃ s, fetch n = Ok s ∧ validateReady (cfg_Scenario config) s = Ok tt;
  co_monotone i j a b : (i < j)%nat → fetch i = Ok a → fetch j = Ok b → is_ok (DiffMetrics a b) = true;
  co_typed out d t : decode_iperf sys out = (Ok d, t) →
    ∀ sum, doc_SumSent d = Some sum ∨ doc_SumReceived d = Some sum → in_uint (sum_Retransmits sum);
}.

Section cooperative.
Context (sys : system) (exec : IPerfExecutor) (fetch : nat → result Snapshot) (now : nat → Z).
Context (sleep : nat → Z → option goerror) (config : RunConfig).
Context (co : cooperative sys exec fetch sleep config).

(** A step that does not fail and only adds to the trace. *)
Definition succeeds {A} (m : M A) : Prop := ∀ w, wp m (λ _ _, True) (λ _, False) w.

Lemma succeeds_bind {A B} (m : M A) (k : A → M B) Q w : wp m Q (λ _, False) w →
  (∀ a w', Q a w' → wp (k a) (λ _ _, True) (λ _, False) w') → wp (bindM m k) (λ _ _, True) (λ _, False) w.
Proof. intros Hm Hk. apply wp_bind. by eapply wp_mono. Qed.

Lemma wp_lift_ok {A B} f (r : result A) a (k : A → M B) Q E w :
  r = Ok a → wp (k a) Q E w → wp (bindM (lift (map_err f r)) k) Q E w.
Proof. by intros ->. Qed.

Lemma wp_check_ok {B} (k : unit → M B) Q E w (f : goerror → goerror) :
  wp (k tt) Q E w → wp (bindM (check (f <$> None)) k) Q E w.
Proof. done. Qed.

Lemma writeJSON_succeeds name v : succeeds (writeJSON sys name v).
Proof. intros w. unfold writeJSON. rewrite (co_encode _ _ _ _ _ co). apply wp_bind. unfold wp, WriteFile, check. by rewrite (co_write _ _ _ _ _ co). Qed.

Lemma persistReport_succeeds : succeeds (persistReport sys).
Proof. intros w. unfold persistReport, get_report. apply wp_bind. apply writeJSON_succeeds. Qed.

Lemma writeIPerfArtifacts_succeeds prefix res : succeeds (writeIPerfArtifacts sys prefix res).
Proof. intros w. unfold writeIPerfArtifacts, wp, bindM, WriteFile, check. cbn. by rewrite !(co_write _ _ _ _ _ co). Qed.

Lemma writeRunArtifacts_succeeds prefix res before after : succeeds (writeRunArtifacts sys prefix res before after).
Proof.
  intros w. unfold writeRunArtifacts. eapply succeeds_bind; [apply writeIPerfArtifacts_succeeds|]. intros f w1 _.
  eapply succeeds_bind; [apply writeJSON_succeeds|]. intros _ w2 _. destruct after; [|done].
  eapply succeeds_bind; [apply writeJSON_succeeds|done].
Qed.

Lemma finish_operation_succeeds : succeeds (finish_operation sys sleep config).
Proof.
  intros w. unfold finish_operation. apply wp_bind. unfold wp at 1, count_operation.
  eapply succeeds_bind; [apply persistReport_succeeds|]. intros _ w1 _. case_match; [|done].
  apply wp_call. unfold wp, check. by rewrite (co_sleep _ _ _ _ _ co).
Qed.

Lemma exec_op_succeeds o : good_op o → succeeds (exec_op sys exec fetch now sleep config o).
Proof.
  intros [Hc _] w. destruct o as [c i|c i]; cbn [exec_op op_case] in *.
  - unfold warmup. cbv zeta. apply wp_call. unfold run_iperf. apply wp_call.
    destruct (co_iperf _ _ _ _ _ co (length (trace (w <| trace := trace w ++ [EvNow] |>))) c Hc) as (res & sm & -> & Hp & Hv).
    apply wp_call. eapply succeeds_bind; [apply writeIPerfArtifacts_succeeds|]. intros f w1 _.
    apply wp_check_ok, (wp_lift_ok _ _ sm), (wp_lift_ok _ _ tt); [done|done|]. apply finish_operation_succeeds.
  - unfold measure. cbv zeta. apply wp_call.
    destruct (co_fetch _ _ _ _ _ co (length (trace w))) as (before & Hb & _).
    apply (wp_lift_ok _ _ before); [done|]. apply wp_call. unfold run_iperf. apply wp_call.
    match goal with |- context [exec_Run exec ?n] =>
      destruct (co_iperf _ _ _ _ _ co n c Hc) as (res & sm & -> & Hp & Hv) end.
    apply wp_call. apply wp_bind.
    match goal with |- wp _ _ _ ?w0 => set (w1 := w0); assert (length (trace w) < length (trace w1))%nat as Hlt end.
    { subst w1. cbn. rewrite !length_app. cbn. lia. }
    clearbody w1.
    assert (∃ after w2, fetch_after fetch sleep config w1 = (Ok (Ok after), w2) ∧ is_ok (DiffMetrics before after) = true)
      as (after & w2 & Hfa & Hd).
    { unfold fetch_after, bindM, ret, call. destruct (Settle config >? 0).
      - rewrite (co_sleep _ _ _ _ _ co). match goal with |- context [fetch ?n] =>
          destruct (co_fetch _ _ _ _ _ co n) as (after & Ha & _); rewrite Ha end.
        eexists _, _. split; [done|]. eapply (co_monotone _ _ _ _ _ co); [|exact Hb|exact Ha].
        cbn. rewrite length_app. lia.
      - destruct (co_fetch _ _ _ _ _ co (length (trace w1))) as (after & Ha & _). rewrite Ha.
        eexists _, _. split; [done|]. by eapply (co_monotone _ _ _ _ _ co); [|exact Hb|exact Ha]. }
    unfold wp at 1. rewrite Hfa. eapply succeeds_bind; [apply writeRunArtifacts_succeeds|]. intros f w3 _.
    destruct (DiffMetrics before after) as [delta|] eqn:Ed; [|done].
    apply wp_check_ok, (wp_lift_ok _ _ after), (wp_lift_ok _ _ sm), (wp_lift_ok _ _ tt), (wp_lift_ok _ _ delta);
      [done|done|done|done|]. apply finish_operation_succeeds.
Qed.

(** *** The summary cannot fail *)

Lemma parsed_rates out sm : parse_iperf sys out = Ok sm →
  fvalid (BitsPerSecond sm) ∧ in_uint (Baseline.RetransmittedSegments sm).
Proof.
  unfold parse_iperf. destruct (decode_iperf sys out) as [dec tr] eqn:Ed. unfold ParseIPerfJSON. intros H.
  apply result_bind_ok in H as (d & ->%map_err_ok & H). apply result_bind_ok in H as ([] & _ & H).
  pose proof (co_typed _ _ _ _ _ co _ _ _ Ed) as Ht.
  case_bool_decide; [cbn [negb] in H|done].
  destruct (doc_SumSent d) as [st|], (doc_SumReceived d) as [rv|]; try done; cbv zeta iota beta in H.
  all: match type of H with (if ?c then _ else _) = _ => destruct c eqn:Ec; [done|] end.
  all: match type of H with (if ?c then _ else _) = _ => destruct c; [done|] end.
  all: injection H as <-; reflect_bools; cbn; split; [by apply validRate_valid|apply Ht; auto].
Qed.

Lemma runs_counted fs r c : Validate config = Ok tt → recorded sys fs r (plan config) → c ∈ Cases config →
  MinimumRuns ≤ Z.of_nat (length (runs_of c (measurements (rep_Runs r)))).
Proof.
  intros Hv (_ & H & _) Hc. pose proof (config_bounds config Hv) as (Hr & _).
  assert (length (runs_of c (measurements (rep_Runs r))) =
    length (filter (λ o, op_case o = c) (op_of_run <$> rep_Runs r))) as ->.
  { unfold runs_of, measurements. clear. induction (rep_Runs r) as [|x l IH]; [done|].
    rewrite !fmap_cons, !filter_cons. cbn [m_Case op_case op_of_run]. case_decide; cbn [length]; by rewrite IH. }
  rewrite H. assert (length (OpRun c <$> seqZ 1 (Runs config)) ≤
    length (filter (λ o, op_case o = c) (filter (λ o, ¬ is_warmup o) (plan config))))%nat as Hle.
  { apply submseteq_length, NoDup_submseteq.
    - apply NoDup_fmap_2; [by intros ?? [= ->]|apply NoDup_seqZ].
    - intros o (i & -> & Hi)%list_elem_of_fmap. rewrite !list_elem_of_filter. split; [done|]. split; [by intros []|].
      apply list_elem_of_bind. exists c. split; [|done]. unfold case_plan. apply elem_of_app. right.
      by apply list_elem_of_fmap_2. }
  rewrite length_fmap, length_seqZ in Hle. unfold MinimumRuns in *. lia.
Qed.

Lemma run_case_planned fs r x : recorded sys fs r (plan config) → x ∈ rep_Runs r → rr_Case x ∈ Cases config.
Proof.
  intros (_ & H & _) Hx%(list_elem_of_fmap_2 op_of_run). rewrite H in Hx. apply list_elem_of_filter in Hx as [_ Hx].
  apply list_elem_of_bind in Hx as (c & Hx & Hc). unfold case_plan in Hx.
  apply elem_of_app in Hx as [(i & E & _)%list_elem_of_fmap|(i & E & _)%list_elem_of_fmap]; [done|].
  unfold op_of_run in E. by injection E as -> _.
Qed.

Lemma summary_succeeds fs r : Validate config = Ok tt → recorded sys fs r (plan config) →
  ∃ sums, Summarize (measurements (rep_Runs r)) = Ok sums.
Proof.
  intros Hv Hr. pose proof (config_bounds config Hv) as (_ & _ & Hne & Hvalid & _).
  assert (∀ m, m ∈ measurements (rep_Runs r) → m_Case m ∈ Cases config ∧
    fvalid (BitsPerSecond (m_IPerf m)) ∧ in_uint (Baseline.RetransmittedSegments (m_IPerf m))) as Hm.
  { intros m (x & -> & Hx)%list_elem_of_fmap. split; [by eapply run_case_planned|].
    destruct Hr as (_ & _ & _ & Hb). rewrite Forall_forall in Hb. destruct (Hb x Hx) as (_ & (res & _ & _ & Hp & _) & _).
    by apply parsed_rates in Hp. }
  apply Summarize_total.
  - intros E. destruct (Cases config) as [|c cs] eqn:Ec; [done|].
    pose proof (runs_counted fs r c Hv Hr) as Hn. rewrite Ec, E in Hn. specialize (Hn ltac:(by left)).
    unfold MinimumRuns in Hn. cbn in Hn. lia.
  - apply check_cases_ok, Forall_forall. intros m Hin. rewrite Forall_forall in Hvalid. by apply Hvalid, Hm.
  - intros c (m & -> & Hin)%list_elem_of_fmap. apply (runs_counted fs r); [done|done|]. by apply Hm.
  - apply Forall_forall. intros m Hin. by apply Hm.
Qed.

Lemma run_cases_succeeds w : Validate config = Ok tt → Warmups (report w) = [] → rep_Runs (report w) = [] →
  completedOperations w = 0 → wp (run_cases sys exec fetch now sleep config) (λ _ _, True) (λ _, False) w.
Proof.
  intros Hv Hw0 Hr0 Hc. destruct (plan_ok config Hv) as [Hg Hn].
  unfold run_cases. apply wp_bind. unfold wp at 1. rewrite (loops_plan sys exec fetch now sleep config).
  assert (inv sys (header (report w)) [] w) as Hi.
  { split; [|done]. split; [|done]. by split_and!; cbn; rewrite ?Hw0, ?Hr0; constructor. }
  pose proof (wp_for_each (plan config) (exec_op sys exec fetch now sleep config) (inv sys (header (report w))) _ w
    (exec_op_spec sys exec fetch now sleep config _ Hg Hn) Hi) as Hinv.
  assert (wp (for_each (plan config) (exec_op sys exec fetch now sleep config)) (λ _ _, True) (λ _, False) w) as Hok.
  { apply (wp_for_each _ _ (λ _ _, True)); [|done]. intros pre o post w0 E _. apply exec_op_succeeds.
    rewrite E in Hg. by apply Forall_app in Hg as [_ [? _]%Forall_cons]. }
  unfold wp in Hok, Hinv. destruct (for_each _ _ w) as [[[]|] w1]; [|done]. destruct Hinv as [[Hr _] _].
  apply wp_bind. unfold wp at 1, get_report. destruct (summary_succeeds _ _ Hv Hr) as [sums ->]. done.
Qed.

Lemma prepare_succeeds : succeeds (prepare sys exec fetch now config).
Proof.
  intros w. unfold prepare.
  destruct (co_stat _ _ _ _ _ co) as (e & Hs & He). destruct (co_mkdir _ _ _ _ _ co) as [Hm1 Hm2].
  eapply succeeds_bind with (Q := λ _ _, True).
  { unfold validateOutputAvailable. apply wp_call. by rewrite Hs, He. }
  intros _ w1 _. apply wp_call. pose proof (co_version _ _ _ _ _ co (length (trace w1))) as Hver.
  destruct (exec_Version exec _) as [version|]; [|done]. apply (wp_lift_ok _ _ version); [done|].
  apply wp_call. match goal with |- context [fetch ?n] => destruct (co_fetch _ _ _ _ _ co n) as (s & -> & Hready) end.
  apply (wp_lift_ok _ _ s); [done|]. rewrite Hready. apply wp_bind. unfold wp at 1, lift.
  eapply succeeds_bind with (Q := λ _ _, True).
  { unfold createOutputDirectory. apply wp_call. rewrite Hm1. apply wp_check_ok. apply wp_call. by rewrite Hm2. }
  intros _ w2 _. apply wp_call. apply wp_bind. unfold wp at 1, set_report.
  eapply succeeds_bind; [apply writeJSON_succeeds|]. intros _ w3 _. apply persistReport_succeeds.
Qed.
End cooperative.

(** A benchmark in which every call succeeds, iperf3 reports on the case it was
    asked for and no counter goes back always completes: the loops end, the
    summary of the runs cannot fail, and the report is returned without an
    error. *)
Theorem benchmark_completes sys h exec fetch config w :
  Validate config = Ok tt → IPerf h = Some exec → Metrics_ h = Some fetch →
  cooperative sys exec fetch (default (os_wait sys) (Sleep h)) config →
  ∃ rep w', Run sys h true config w = ((Some rep, None), w') ∧ Status rep = str "complete".
Proof.
  intros Hv He Hf co. unfold Run. rewrite Hv, He, Hf. cbn [negb]. cbv zeta.
  pose proof (prepare_succeeds sys exec fetch (default (os_now sys) (Now h)) _ config co w) as Hp.
  pose proof (prepare_spec sys exec fetch (default (os_now sys) (Now h)) config w) as Hp'.
  unfold wp in Hp, Hp'. destruct (prepare _ _ _ _ _ w) as [[[]|] w1]; [|done].
  destruct Hp' as (version & startedAt & Hrep). unfold run_report.
  set (w0 := w1 <| completedOperations := 0 |>).
  pose proof (run_cases_succeeds sys exec fetch (default (os_now sys) (Now h)) _ config co w0 Hv
    (f_equal Warmups Hrep) (f_equal rep_Runs Hrep) eq_refl) as Hrun.
  unfold wp in Hrun.
  destruct (run_cases _ _ _ _ _ _ _) as [[[]|] w2]; [|done].
  unfold bindM, set_report, call. cbv beta iota.
  match goal with |- context [persistReport sys ?w0] =>
    pose proof (persistReport_succeeds sys exec fetch _ config co w0) as Hok; pose proof (persistReport_report sys w0) as Hsame;
    set (w3 := w0) in * end.
  unfold wp in Hok. destruct (persistReport sys w3) as [[[]|] w4]; [|done]. cbn in Hsame.
  eexists _, _. split; [done|]. by rewrite Hsame.
Qed.

(** *** A concrete environment *)

(** An iperf3 that prints the direction and the number of flows. *)
Definition sample_output (c : Case) : bytes :=
  (if bool_decide (case_Direction c = DirectionDownload) then "R" else "F")%char :: Itoa (Parallel c).

Definition sample_document (out : bytes) : iperfDocument :=
  let sum := MkSum (float_of_uint 1) 100 (float_of_uint 800) 2 in
  MkDocument [] [] [] (float_of_uint 1) (str "TCP")
    (match Atoi (tail out) with Ok n => n | Err _ => 0 end) (bool_decide (head out = Some "R"%char))
    (Some sum) (Some sum) (float_of_uint 1) (float_of_uint 1) [].

Definition sample_system : system :=
  MkSystem (Some (GoError (str "no such file") [ErrNotExist] None)) None None (λ _, None) Z.of_nat (λ _ _, None)
    (MkEnvironment [] (str "linux") (str "amd64") (str "go1.25")) (λ out, (Ok (sample_document out), TrailerEOF)) (λ _, None).

Definition sample_executor : IPerfExecutor :=
  MkExecutor (λ _, Ok (str "iperf 3.16")) (λ _ _ _ c, (MkResult [] (sample_output c) [], None)).

Definition sample_fetch (n : nat) : result Snapshot := Ok (sample_snapshot 3).

Definition sample_harness : Harness := MkHarness (Some sample_executor) (Some sample_fetch) None None.

Definition sample_config : RunConfig :=
  MkConfig (MkScenario (str "lab") (str "udp") (str "bond") 4) (str "abc") (str "10.0.0.1:5201") (str "iperf3")
    (str "http://127.0.0.1:6060") (str "out") 3 1 10 Second Second
    [MkCase DirectionUpload 1; MkCase DirectionDownload 4] [].

Definition sample_world : world := MkWorld [] ∅ (initial_report sample_system sample_config [] 0) 0.

Lemma sample_cooperative :
  cooperative sample_system sample_executor sample_fetch (default (os_wait sample_system) (Sleep sample_harness)) sample_config.
Proof.
  split; try done.
  - by eexists.
  - intros n c Hc. destruct (slug_parallel c Hc) as [Hp _]. apply validate_Case_ok in Hc as [Hd _].
    eexists _, _. split; [done|]. split; [reflexivity|].
    unfold validateIPerfCase. cbn [Protocol RequestedStreams Reverse]. unfold sample_document, sample_output.
    cbn [tail head Stdout doc_NumStreams doc_Reverse doc_Protocol]. rewrite Atoi_Itoa by done.
    rewrite Z.eqb_refl. destruct Hd as [-> | ->]; reflexivity.
  - intros n. by eexists.
  - intros i j a b _ [= <-] [= <-]. by vm_compute.
  - intros out d t [= <- <-] sum [[= <-]|[= <-]]; done.
Qed.

Lemma benchmark_completes_witness : Validate sample_config = Ok tt ∧
  ∃ rep w', Run sample_system sample_harness true sample_config sample_world = ((Some rep, None), w') ∧
    Status rep = str "complete".
Proof.
  assert (Validate sample_config = Ok tt) as Hv by (vm_compute; reflexivity). split; [exact Hv|].
  exact (benchmark_completes sample_system sample_harness sample_executor sample_fetch sample_config sample_world
    Hv eq_refl eq_refl sample_cooperative).
Defined.

Lemma report_backed_by_artifacts_witness : ∃ rep w',
  Run sample_system sample_harness true sample_config sample_world = ((Some rep, None), w') ∧
  complete_report sample_system sample_config w' ∧ files w' !! str "report.json" = Some (ReportFile rep).
Proof.
  assert (match (Run sample_system sample_harness true sample_config sample_world).1 with
          | (Some _, None) => true | _ => false end = true) as Hok by (vm_compute; reflexivity).
  destruct (Run sample_system sample_harness true sample_config sample_world) as [[[rep|] [e|]] w'] eqn:E;
    try discriminate Hok. clear Hok. exists rep, w'. split; [reflexivity|].
  destruct (report_backed_by_artifacts sample_system sample_harness true sample_config sample_world rep None w' E)
    as (Hrep & Hc & Hf).
  split; [exact Hc|exact Hf].
Defined.
End BenchRun.
