(* ===== verification/ServeSmux.v ===== *)
(** * Serving a smux session (server/main.go: handleVLESSConnection,
    vlessBondGroup.run, serveSmuxSession)

    One call of either handler, with the goroutine of every stream and the two
    functions registered with [context.AfterFunc], as a step relation.  The
    deferred calls of the handler are a stack that its end unwinds.  A pipe
    returns when one of its ends fails or finishes, which the environment
    decides, or when the context of the session is cancelled.  The gate of
    the backend streams is any lease source with its laws; other sessions use
    the same gate and the same gauge between any two steps. *)

From S2P Require Import Prelude Metrics Leases BackendGate.

(** What a session needs of the gate beyond leases: a limiter of its own. *)
Class SessionSource (S K L R : Type) `{!LeaseSource S K L R} := {
  newSession : S → outcome (K * S);
  newSession_ok s : lease_valid s → ∃ k s', newSession s = Done (k, s') ∧ lease_valid s' ∧
    in_use s' = in_use s ∧ ∀ l, holds s' l = holds s l;
}.

Module ServeSmux.

(** Which handler runs. *)
Inductive handler := handleVLESSConnection | group_run.

(** A function given to [context.AfterFunc]: not yet given, waiting for its
    context, kept from running by its stop function, running, at its end. *)
Inductive after_state := Unset | Registered | Stopped | Started | Finished.

#[export] Instance after_state_eq_dec : EqDecision after_state.
Proof. solve_decision. Defined.

(** The deferred calls, by the resource they release.  The deferred closure of
    [serveSmuxSession] is its two statements, [D_cancel_session] and
    [D_stop_session]. *)
Inductive deferred :=
  | D_stop_conn | D_close_pc | D_on_done | D_close_kcp | D_clear_window
  | D_close_smux | D_session_closed | D_cancel_session | D_stop_session.

#[export] Instance deferred_eq_dec : EqDecision deferred.
Proof. solve_decision. Defined.

(** The goroutine of a stream. *)
Inductive worker_pc := W_dial | W_pipe | W_close_backend | W_close_stream | W_release | W_done.

#[export] Instance worker_pc_eq_dec : EqDecision worker_pc.
Proof. solve_decision. Defined.

Inductive main_pc :=
  | M_kcp | M_window | M_smux | M_serve
  | M_accept                (* AcceptStream *)
  | M_acquire (n : nat)     (* gate.Acquire for stream n *)
  | M_reject (n : nat)      (* stream.Close after a refusal *)
  | M_cancel                (* cancelSession after the loop *)
  | M_wait                  (* wg.Wait *)
  | M_unwind
  | M_await_session | M_await_conn   (* <-closeDone *)
  | M_returned.

Section serve.
Context {S K L R : Type} `{!LeaseSource S K L R} `{!SessionSource S K L R} `{!EqDecision L}.

Record worker := MkWorker {
  stream : nat;
  lease : L;
  backend : option nat;
  wpc : worker_pc;
  ended : bool;           (* the two ends have ended the copying *)
}.

#[export] Instance worker_eta : Eta worker := λ w,
  MkWorker (stream w) (lease w) (backend w) (wpc w) (ended w).

Record session := MkSession {
  gate : S;
  others : list L;            (* leases of other sessions *)
  reg : Metrics.Registry;     (* metrics.Process *)
  other_sessions : Z;
  ctx_done : bool;
  session_ctx_done : bool;
  conn_after : after_state;   (* closes the connection under the session *)
  session_after : after_state;(* closes the smux session *)
  conn_closed : bool;         (* dtlsConn.Close or g.pc.Close was called *)
  kcp_closes : list nat;      (* the KCP session, if any: its Close calls *)
  window_set : bool;          (* the group adjusts this KCP session *)
  smux_open : bool;
  smux_closed : bool;
  smux_down : bool;           (* the session failed by itself *)
  queued : nat;               (* streams the peer opened, not accepted yet *)
  session_key : option K;
  streams : list nat;         (* Close calls, by stream accepted *)
  backends : list nat;        (* Close calls, by connection dialled *)
  workers : list worker;
  done_calls : nat;           (* calls of onDone *)
  defers : list deferred;
  main : main_pc;
}.

#[export] Instance session_eta : Eta session := λ s,
  MkSession (gate s) (others s) (reg s) (other_sessions s) (ctx_done s) (session_ctx_done s)
    (conn_after s) (session_after s) (conn_closed s) (kcp_closes s) (window_set s) (smux_open s)
    (smux_closed s) (smux_down s) (queued s) (session_key s) (streams s) (backends s) (workers s)
    (done_calls s) (defers s) (main s).

(** ** The handler *)

(** What has been deferred when the first call that can fail is made. *)
Definition first_defers (h : handler) : list deferred :=
  match h with
  | handleVLESSConnection => [D_stop_conn]
  | group_run => [D_stop_conn; D_close_pc; D_on_done]
  end.

Definition start (h : handler) (g : S) (held : list L) (r : Metrics.Registry) (n : Z) (cancelled : bool)
  : session :=
  MkSession g held r n cancelled false Registered Unset false [] false false false false 0 None
    [] [] [] 0 (first_defers h) M_kcp.

(** [NewKCPOverDTLS] or [NewKCPOverPacketConnBonded] returned. *)
Definition kcp_returns (h : handler) (ok : bool) (s : session) : session :=
  if ok then s <| kcp_closes := [0%nat] |> <| defers ::= cons D_close_kcp |>
               <| main := match h with handleVLESSConnection => M_smux | group_run => M_window end |>
  else s <| main := M_unwind |>.

(** [installWindowSetter] and its deferred counterpart. *)
Definition install_window (s : session) : session :=
  s <| window_set := true |> <| defers ::= cons D_clear_window |> <| main := M_smux |>.

(** [smux.Server] returned. *)
Definition smux_returns (ok : bool) (s : session) : session :=
  if ok then s <| smux_open := true |> <| reg ::= Metrics.SessionOpened |>
               <| defers ::= (λ d, D_session_closed :: D_close_smux :: d) |> <| main := M_serve |>
  else s <| main := M_unwind |>.

(** The start of [serveSmuxSession]; [have_gate]: the gate is not nil. *)
Definition serve_begin (have_gate : bool) (s : session) : outcome session :=
  if negb have_gate then Done (s <| smux_closed := true |> <| main := M_unwind |>)
  else match newSession (gate s) with
       | Panics => Panics
       | Done (k, g) =>
           Done (s <| gate := g |> <| session_key := Some k |> <| session_after := Registered |>
                   <| defers ::= (λ d, D_cancel_session :: D_stop_session :: d) |>
                   <| main := M_accept |>)
       end.

Definition accepted (q : nat) (s : session) : session :=
  s <| queued := q |> <| main := M_acquire (length (streams s)) |> <| streams ::= (λ l, l ++ [0%nat]) |>.

(** [gate.Acquire]: the stream gets a goroutine, or is closed. *)
Definition acquire_stream (n : nat) (k : K) (s : session) : session :=
  match acquire k (gate s) with
  | (inr _, g) => s <| gate := g |> <| main := M_reject n |>
  | (inl l, g) =>
      s <| gate := g |> <| workers ::= (λ ws, ws ++ [MkWorker n l None W_dial false]) |> <| main := M_accept |>
  end.

Definition close_stream (n : nat) (s : session) : session := s <| streams ::= alter Datatypes.S n |>.

(** [cancel] of the session's context: its function starts unless stopped. *)
Definition cancelSession (s : session) : session :=
  s <| session_ctx_done := true |>
    <| session_after ::= (λ a, match a with Registered => Started | _ => a end) |>.

(** One deferred call. *)
Definition run_deferred (d : deferred) (s : session) : session :=
  match d with
  | D_stop_conn =>
      if decide (conn_after s = Registered) then s <| conn_after := Stopped |>
      else s <| main := M_await_conn |>
  | D_stop_session =>
      if decide (session_after s = Registered) then s <| session_after := Stopped |>
      else s <| main := M_await_session |>
  | D_cancel_session => cancelSession s
  | D_close_pc => s <| conn_closed := true |>
  | D_on_done => s <| done_calls ::= Datatypes.S |>
  | D_close_kcp => s <| kcp_closes ::= fmap Datatypes.S |>
  | D_clear_window => s <| window_set := false |>
  | D_close_smux => s <| smux_closed := true |>
  | D_session_closed => s <| reg ::= Metrics.SessionClosed |>
  end.

(** ** The goroutine of a stream *)

Definition set_worker (i : nat) (w : worker) (s : session) : session := s <| workers ::= <[i := w]> |>.

Definition dial_returns (ok : bool) (i : nat) (w : worker) (s : session) : session :=
  if ok then set_worker i (w <| backend := Some (length (backends s)) |> <| wpc := W_pipe |>)
               (s <| backends ::= (λ l, l ++ [0%nat]) |>)
  else set_worker i (w <| wpc := W_close_stream |>) s.

Definition close_backend (i : nat) (w : worker) (s : session) : session :=
  set_worker i (w <| wpc := W_close_stream |>)
    (match backend w with Some b => s <| backends ::= alter Datatypes.S b |> | None => s end).

Definition release_lease (i : nat) (w : worker) (s : session) : session :=
  set_worker i (w <| wpc := W_done |>) (s <| gate := (release (lease w) (gate s)).2 |>).

(** A dial ends by itself, within its ten seconds.  [Pipe] returns only once the
    session's context is done or the two ends of the pipe have ended the
    copying, which is theirs to decide. *)
Inductive worker_step (i : nat) (w : worker) (s : session) : session → Prop :=
  | step_dial ok : wpc w = W_dial → worker_step i w s (dial_returns ok i w s)
  | step_pipe : wpc w = W_pipe → session_ctx_done s || ended w = true → worker_step i w s (set_worker i (w <| wpc := W_close_backend |>) s)
  | step_close_backend : wpc w = W_close_backend → worker_step i w s (close_backend i w s)
  | step_close_stream : wpc w = W_close_stream →
      worker_step i w s (set_worker i (w <| wpc := W_release |>) (close_stream (stream w) s))
  | step_release : wpc w = W_release → worker_step i w s (release_lease i w s).

(** ** All of it *)

Definition dead (s : session) : bool := smux_closed s || smux_down s.

Definition finished (w : worker) : bool := bool_decide (wpc w = W_done).

Inductive own_step (h : handler) (have_gate : bool) (s : session) : session → Prop :=
  | own_kcp ok : main s = M_kcp → own_step h have_gate s (kcp_returns h ok s)
  | own_window : main s = M_window → own_step h have_gate s (install_window s)
  | own_smux ok : main s = M_smux → own_step h have_gate s (smux_returns ok s)
  | own_serve s' : main s = M_serve → serve_begin have_gate s = Done s' → own_step h have_gate s s'
  | own_accept q : main s = M_accept → queued s = Datatypes.S q → own_step h have_gate s (accepted q s)
  | own_accept_error : main s = M_accept → dead s = true → own_step h have_gate s (s <| main := M_cancel |>)
  | own_acquire n k : main s = M_acquire n → session_key s = Some k →
      own_step h have_gate s (acquire_stream n k s)
  | own_reject n : main s = M_reject n →
      own_step h have_gate s (close_stream n s <| main := M_accept |>)
  | own_cancel : main s = M_cancel → own_step h have_gate s (cancelSession s <| main := M_wait |>)
  | own_wait : main s = M_wait → forallb finished (workers s) = true →
      own_step h have_gate s (s <| main := M_unwind |>)
  | own_unwind d ds : main s = M_unwind → defers s = d :: ds →
      own_step h have_gate s (run_deferred d (s <| defers := ds |>))
  | own_return : main s = M_unwind → defers s = [] → own_step h have_gate s (s <| main := M_returned |>)
  | own_session_closed : main s = M_await_session → session_after s = Finished →
      own_step h have_gate s (s <| main := M_unwind |>)
  | own_conn_closed : main s = M_await_conn → conn_after s = Finished →
      own_step h have_gate s (s <| main := M_unwind |>)
  | own_worker i w s' : workers s !! i = Some w → worker_step i w s s' → own_step h have_gate s s'
  | own_propagate : ctx_done s = true → session_ctx_done s = false → session_after s ≠ Unset →
      own_step h have_gate s (s <| session_ctx_done := true |>)
  | own_start_conn : ctx_done s = true → conn_after s = Registered →
      own_step h have_gate s (s <| conn_after := Started |>)
  | own_end_conn : conn_after s = Started →
      own_step h have_gate s (s <| conn_closed := true |> <| conn_after := Finished |>)
  | own_start_session : session_ctx_done s = true → session_after s = Registered →
      own_step h have_gate s (s <| session_after := Started |>)
  | own_end_session : session_after s = Started →
      own_step h have_gate s (s <| smux_closed := true |> <| session_after := Finished |>).

(** Leases of this session. *)
Definition owned (s : session) : list L := lease <$> filter (λ w, finished w = false) (workers s).

(** Everyone else: cancellation, the network, the ends of the pipes, other
    sessions. *)
Inductive env_step (s : session) : session → Prop :=
  | env_cancel : env_step s (s <| ctx_done := true |>)
  | env_down : smux_open s = true → env_step s (s <| smux_down := true |>)
  | env_stream : smux_open s = true → dead s = false → env_step s (s <| queued ::= Datatypes.S |>)
  | env_pipe i w : workers s !! i = Some w → wpc w = W_pipe →
      env_step s (set_worker i (w <| ended := true |>) s)
  | env_session k g : newSession (gate s) = Done (k, g) → env_step s (s <| gate := g |>)
  | env_acquired k l g : acquire k (gate s) = (inl l, g) →
      env_step s (s <| gate := g |> <| others ::= cons l |>)
  | env_refused k r g : acquire k (gate s) = (inr r, g) → env_step s (s <| gate := g |>)
  | env_release l : l ∉ owned s →
      env_step s (s <| gate := (release l (gate s)).2 |> <| others ::= remove_first l |>)
  | env_opened : env_step s (s <| reg ::= Metrics.SessionOpened |> <| other_sessions ::= Z.add 1 |>)
  | env_closed : env_step s (s <| reg ::= Metrics.SessionClosed |> <| other_sessions ::= Z.add (-1) |>).

Inductive step (h : handler) (have_gate : bool) (s s' : session) : Prop :=
  | step_own : own_step h have_gate s s' → step h have_gate s s'
  | step_env : env_step s s' → step h have_gate s s'.
(** ** Invariants *)

(** Leases: the gate's are this session's and the others', each once. *)
Record lease_inv (s : session) : Prop := {
  inv_valid : lease_valid (gate s);
  inv_nodup : NoDup (owned s ++ others s);
  inv_holds l : holds (gate s) l = bool_decide (l ∈ owned s ++ others s);
  inv_in_use : in_use (gate s) = length (owned s ++ others s);
}.

(** Who still has to close stream [n], and backend connection [n]. *)
Definition main_has (n : nat) (m : main_pc) : nat :=
  match m with M_acquire k | M_reject k => if decide (k = n) then 1 else 0 | _ => 0 end.

Definition stream_open (p : worker_pc) : bool :=
  match p with W_dial | W_pipe | W_close_backend | W_close_stream => true | _ => false end.
Definition backend_open (p : worker_pc) : bool :=
  match p with W_pipe | W_close_backend => true | _ => false end.

Definition worker_has_stream (n : nat) (w : worker) : bool :=
  bool_decide (stream w = n) && stream_open (wpc w).

Definition worker_has_backend (n : nat) (w : worker) : bool :=
  bool_decide (backend w = Some n) && backend_open (wpc w).

Definition exists_at (n : nat) (l : list nat) : nat := if (n <? length l)%nat then 1 else 0.
Definition closes_at (n : nat) (l : list nat) : nat := default 0%nat (l !! n).

(** A stream, and a backend connection, is closed or somebody will close it. *)
Record account_inv (s : session) : Prop := {
  inv_streams n :
    (closes_at n (streams s) + main_has n (main s) + count (worker_has_stream n) (workers s) =
     exists_at n (streams s))%nat;
  inv_backends n :
    (closes_at n (backends s) + count (worker_has_backend n) (workers s) = exists_at n (backends s))%nat;
}.

Context `{!LeaseLaws S K L R}.

Lemma owned_cons_insert i w w' (ws : list worker) : ws !! i = Some w →
  finished w = false → finished w' = true →
  lease <$> filter (λ w, finished w = false) ws ≡ₚ
  lease w :: (lease <$> filter (λ w, finished w = false) (<[i := w']> ws)).
Proof.
  intros Hi Hw Hw'. rewrite <-(take_drop_middle ws i w Hi) at 1.
  rewrite insert_take_drop by by eapply lookup_lt_Some.
  rewrite !filter_app, !filter_cons, decide_True, decide_False by (done || by rewrite Hw').
  rewrite !fmap_app. simpl. by rewrite Permutation_middle.
Qed.

Lemma owned_insert i w w' (ws : list worker) : ws !! i = Some w →
  finished w' = finished w → lease w' = lease w →
  lease <$> filter (λ w, finished w = false) (<[i := w']> ws) =
  lease <$> filter (λ w, finished w = false) ws.
Proof.
  intros Hi Hw Hl. rewrite <-(take_drop_middle ws i w Hi) at 2.
  rewrite insert_take_drop by by eapply lookup_lt_Some.
  rewrite !filter_app, !filter_cons, Hw. case_decide; rewrite !fmap_app; simpl; by rewrite ?Hl.
Qed.

(** Leases only depend on the gate, the workers and the others. *)
Lemma lease_inv_ext (s s' : session) : gate s' = gate s → owned s' = owned s → others s' = others s →
  lease_inv s → lease_inv s'.
Proof. intros E1 E2 E3 [I1 I2 I3 I4]. split; rewrite ?E1, ?E2, ?E3; done. Qed.

Lemma lease_inv_same (s s' : session) g : owned s' = owned s → others s' = others s → gate s' = g →
  lease_valid g → in_use g = in_use (gate s) → (∀ l, holds g l = holds (gate s) l) →
  lease_inv s → lease_inv s'.
Proof. intros E1 E2 E3 Hv Hu Hh [I1 I2 I3 I4]. split; rewrite ?E1, ?E2, ?E3, ?Hu; try done. intros l. by rewrite Hh. Qed.

Lemma lease_inv_granted (s s' : session) k l g : acquire k (gate s) = (inl l, g) →
  gate s' = g → owned s' ++ others s' ≡ₚ l :: owned s ++ others s → lease_inv s → lease_inv s'.
Proof.
  intros E <- Hp [I1 I2 I3 I4]. destruct (acquire_granted _ _ _ _ I1 E) as (Hv & Hu & Hn & Hh).
  rewrite I3 in Hn. apply bool_decide_eq_false in Hn. split; [done| | |].
  - rewrite Hp. by constructor.
  - intros l'. rewrite Hh, I3. case_decide as Hl.
    + subst. symmetry. apply bool_decide_eq_true. rewrite Hp. set_solver.
    + apply bool_decide_ext. rewrite Hp. set_solver.
  - by rewrite Hu, I4, Hp.
Qed.

Lemma lease_inv_released (s s' : session) l : gate s' = (release l (gate s)).2 →
  owned s ++ others s ≡ₚ l :: owned s' ++ others s' → lease_inv s → lease_inv s'.
Proof.
  intros Eg Hp [I1 I2 I3 I4]. destruct (release l (gate s)) as [r g] eqn:E. simpl in Eg. subst g.
  destruct (release_once _ _ _ _ I1 E) as (Hv & Hr & Hu & Hh). rewrite I3 in Hr.
  rewrite bool_decide_eq_true_2 in Hr by (rewrite Hp; set_solver). subst r.
  rewrite Hp in I2. apply NoDup_cons in I2 as [Hn I2]. split; [done|done| |].
  - intros l'. rewrite Hh, I3. case_decide as Hl.
    + subst. symmetry. by apply bool_decide_eq_false.
    + apply bool_decide_ext. rewrite Hp. set_solver.
  - rewrite Hp in I4. simpl in I4, Hu. lia.
Qed.

Lemma lease_inv_worker i w s s' : workers s !! i = Some w → worker_step i w s s' → lease_inv s → lease_inv s'.
Proof.
  intros Hi Hs. destruct Hs as [ok Hw|Hw Hp|Hw|Hw|Hw]; intros I;
    try (eapply lease_inv_ext; [..|exact I]; unfold dial_returns, close_backend;
         repeat case_match; try done; apply (owned_insert i w); unfold finished; simpl; rewrite ?Hw; done).
  eapply (lease_inv_released s _ (lease w)); [done| |done]. cbn [others release_lease set_worker].
  unfold owned, release_lease, set_worker. simpl.
  rewrite (owned_cons_insert i w (w <| wpc := W_done |>)) by (done || unfold finished; simpl; by rewrite ?Hw).
  done.
Qed.

Lemma lease_inv_own h b s s' : own_step h b s s' → lease_inv s → lease_inv s'.
Proof.
  destruct 1 as [| | |s' Hm Hb| | |n k Hm Hk| | | |d ds Hm Hd| | | |i w s' Hi Hw| | | | |]; intros I;
    try by (apply (lease_inv_ext s); [..|exact I]; try destruct ok; try destruct h).
  - unfold serve_begin in Hb. destruct b; simpl in Hb; [|by simplify_eq; apply (lease_inv_ext s)].
    destruct (newSession_ok (gate s) (inv_valid s I)) as (k & g & E & Hv & Hu & Hh). rewrite E in Hb.
    simplify_eq. by apply (lease_inv_same s _ g).
  - unfold acquire_stream. destruct (acquire k (gate s)) as [[l|r] g] eqn:E.
    + apply (lease_inv_granted s _ k l g E); [done| |done]. unfold owned. simpl.
      rewrite filter_app, filter_cons, decide_True, fmap_app by done. simpl.
      rewrite <-app_assoc. simpl. symmetry. apply Permutation_middle.
    + destruct (acquire_refused _ _ _ _ (inv_valid s I) E) as (Hv & Hu & Hh). by apply (lease_inv_same s _ g).
  - apply (lease_inv_ext s); [..|exact I]; destruct d; simpl; try done; by case_decide.
  - by eapply lease_inv_worker.
Qed.

Lemma lease_inv_env s s' : env_step s s' → lease_inv s → lease_inv s'.
Proof.
  destruct 1 as [| | |i w Hi Hw|k g E|k l g E|k r g E|l Hl| |]; intros I; try by (apply (lease_inv_ext s); [..|exact I]).
  - apply (lease_inv_ext s); [done| |done|exact I]. by apply (owned_insert i w).
  - destruct (newSession_ok (gate s) (inv_valid s I)) as (k' & g' & E' & Hv & Hu & Hh). rewrite E' in E.
    simplify_eq. by apply (lease_inv_same s _ g).
  - apply (lease_inv_granted s _ k l g E); [done| |done]. unfold owned. simpl. symmetry. apply Permutation_middle.
  - destruct (acquire_refused _ _ _ _ (inv_valid s I) E) as (Hv & Hu & Hh). by apply (lease_inv_same s _ g).
  - destruct (decide (l ∈ others s)) as [Hin|Hout].
    + apply (lease_inv_released s _ l); [done| |done]. unfold owned. simpl.
      rewrite (remove_first_permutation l (others s)) at 1 by done. symmetry. apply Permutation_middle.
    + destruct (release l (gate s)) as [r g] eqn:E. pose proof I as [I1 I2 I3 I4].
      destruct (release_once _ _ _ _ I1 E) as (Hv & Hr & Hu & Hh). rewrite I3 in Hr.
      rewrite bool_decide_eq_false_2 in Hr by set_solver. subst r.
      apply (lease_inv_same s _ g); simpl; [done|by rewrite remove_first_not_in|done|done|done| |done].
      intros l'. rewrite Hh. case_decide; [subst|done]. symmetry. rewrite I3. apply bool_decide_eq_false. set_solver.
Qed.
(** *** Streams and backend connections *)

Lemma closes_snoc n (l : list nat) : closes_at n (l ++ [0%nat]) = closes_at n l.
Proof.
  unfold closes_at. rewrite lookup_app. destruct (l !! n) eqn:E; [done|]. apply lookup_ge_None in E.
  by destruct (n - length l)%nat as [|[]].
Qed.

Lemma exists_snoc n (l : list nat) :
  exists_at n (l ++ [0%nat]) = (exists_at n l + if decide (n = length l) then 1 else 0)%nat.
Proof.
  unfold exists_at. rewrite length_app. simpl.
  destruct (Nat.ltb_spec n (length l + 1)), (Nat.ltb_spec n (length l)); case_decide; lia.
Qed.

Lemma closes_alter n m (l : list nat) :
  closes_at n (alter Datatypes.S m l) = (closes_at n l + if decide (m = n) then exists_at m l else 0)%nat.
Proof.
  unfold closes_at, exists_at. case_decide as E.
  - subst. rewrite list_lookup_alter_eq. destruct (l !! n) eqn:El; simpl.
    + apply lookup_lt_Some in El. destruct (Nat.ltb_spec n (length l)); lia.
    + apply lookup_ge_None in El. destruct (Nat.ltb_spec n (length l)); lia.
  - rewrite list_lookup_alter_ne by done. lia.
Qed.

Lemma exists_alter n m (l : list nat) : exists_at n (alter Datatypes.S m l) = exists_at n l.
Proof. unfold exists_at. by rewrite length_alter. Qed.

Lemma account_ext (s s' : session) : streams s' = streams s → backends s' = backends s →
  workers s' = workers s → (∀ n, main_has n (main s') = main_has n (main s)) →
  account_inv s → account_inv s'.
Proof. intros E1 E2 E3 E4 [I1 I2]. split; rewrite ?E1, ?E2, ?E3; intros; rewrite ?E4; auto. Qed.

(** A worker that still has a stream, or a connection, has one that exists. *)
Lemma worker_stream_exists i w s : account_inv s → workers s !! i = Some w →
  worker_has_stream (stream w) w = true → exists_at (stream w) (streams s) = 1%nat.
Proof.
  intros I Hi Hw. pose proof (inv_streams s I (stream w)).
  pose proof (count_insert (worker_has_stream (stream w)) _ i w w Hi).
  assert (count (worker_has_stream (stream w)) (workers s) ≠ 0%nat) as Hc.
  { rewrite count_zero, Forall_lookup. intros F. specialize (F _ _ Hi). congruence. }
  unfold exists_at in *. destruct (_ <? _)%nat; lia.
Qed.

Lemma worker_backend_exists i w n s : account_inv s → workers s !! i = Some w →
  worker_has_backend n w = true → exists_at n (backends s) = 1%nat.
Proof.
  intros I Hi Hw. pose proof (inv_backends s I n).
  assert (count (worker_has_backend n) (workers s) ≠ 0%nat) as Hc.
  { rewrite count_zero, Forall_lookup. intros F. specialize (F _ _ Hi). congruence. }
  unfold exists_at in *. destruct (_ <? _)%nat; lia.
Qed.

Definition b2n (b : bool) : nat := if b then 1 else 0.

(** One goroutine moves: what it hands over must add up. *)
Lemma account_set_worker i w w' (s s' : session) :
  workers s !! i = Some w → workers s' = <[i := w']> (workers s) → main s' = main s →
  (∀ n, closes_at n (streams s') + b2n (worker_has_stream n w') + exists_at n (streams s) =
        closes_at n (streams s) + b2n (worker_has_stream n w) + exists_at n (streams s'))%nat →
  (∀ n, closes_at n (backends s') + b2n (worker_has_backend n w') + exists_at n (backends s) =
        closes_at n (backends s) + b2n (worker_has_backend n w) + exists_at n (backends s'))%nat →
  account_inv s → account_inv s'.
Proof.
  unfold b2n. intros Hi Ew Em Hs Hb [I1 I2]. split.
  - intros n. rewrite Ew, Em. pose proof (count_insert (worker_has_stream n) _ i w w' Hi).
    specialize (Hs n). specialize (I1 n). lia.
  - intros n. rewrite Ew. pose proof (count_insert (worker_has_backend n) _ i w w' Hi).
    specialize (Hb n). specialize (I2 n). lia.
Qed.

Ltac account_tac Hw :=
  unfold worker_has_stream, worker_has_backend; rewrite Hw; cbn;
  rewrite ?andb_false_r, ?andb_true_r, ?closes_snoc, ?exists_snoc, ?closes_alter, ?exists_alter;
  repeat match goal with |- context [bool_decide ?P] => destruct (bool_decide_reflect P) end;
  repeat case_decide; simplify_eq; cbn; try lia; try done.

Lemma account_worker i w s s' : workers s !! i = Some w → worker_step i w s s' →
  account_inv s → account_inv s'.
Proof.
  intros Hi Hs I. pose proof (worker_stream_exists i w s I Hi) as Xs.
  pose proof (λ n, worker_backend_exists i w n s I Hi) as Xb.
  destruct Hs as [ok Hw|Hw Hp|Hw|Hw|Hw].
  - destruct ok; (eapply (account_set_worker i w); [exact Hi|done|done| | |exact I]); intros n; account_tac Hw.
  - eapply (account_set_worker i w); [exact Hi|done|done| | |exact I]; intros n; account_tac Hw.
  - unfold close_backend. destruct (backend w) as [b|] eqn:Eb;
      (eapply (account_set_worker i w); [exact Hi|done|done| | |exact I]); intros n; account_tac Hw.
    rewrite Xb; [lia|]. unfold worker_has_backend. by rewrite Hw, Eb, bool_decide_eq_true_2.
  - eapply (account_set_worker i w); [exact Hi|done|done| | |exact I]; intros n; account_tac Hw.
    rewrite Xs; [lia|]. unfold worker_has_stream. by rewrite Hw, bool_decide_eq_true_2.
  - eapply (account_set_worker i w); [exact Hi|done|done| | |exact I]; intros n; account_tac Hw.
Qed.

Lemma account_own h b s s' : own_step h b s s' → account_inv s → account_inv s'.
Proof.
  destruct 1 as [ok Hm|Hm|ok Hm|s' Hm Hb|q Hm Hq|Hm Hd|n k Hm Hk|n Hm|Hm|Hm _|d ds Hm Hd|Hm _|Hm _|Hm _|i w s' Hi Hw| | | | |]; intros I;
    try by (apply (account_ext s); [..|exact I]; try destruct ok; try destruct h; rewrite ?Hm).
  - unfold serve_begin in Hb. destruct b; simpl in Hb; [destruct (newSession (gate s)) as [[k g]|]|];
      simplify_eq; apply (account_ext s); try done; by rewrite ?Hm.
  - destruct I as [I1 I2]. split; [|done]. intros n. specialize (I1 n). rewrite Hm in I1. cbn in *.
    rewrite closes_snoc, exists_snoc. repeat case_decide; lia.
  - unfold acquire_stream. destruct (acquire k (gate s)) as [[l|r] g] eqn:E.
    + destruct I as [I1 I2]. split.
      * intros m. specialize (I1 m). rewrite Hm in I1. cbn in *. rewrite count_app. cbn.
        unfold worker_has_stream at 2. cbn. rewrite andb_true_r.
        destruct (bool_decide_reflect (n = m)); case_decide; simplify_eq; lia.
      * intros m. specialize (I2 m). cbn in *. rewrite count_app. cbn.
        unfold worker_has_backend at 2. cbn. rewrite andb_false_r. lia.
    + apply (account_ext s); try done. intros m. by rewrite Hm.
  - destruct I as [I1 I2]. split; [|done]. intros m. pose proof (I1 n) as In. specialize (I1 m).
    rewrite Hm in I1, In. cbn in *. rewrite closes_alter, exists_alter. rewrite decide_True in In by done.
    repeat case_decide; subst; unfold exists_at in *; destruct (_ <? _)%nat; lia.
  - apply (account_ext s); [..|exact I]; destruct d; cbn; try case_decide; try done; intros; by rewrite Hm.
  - by eapply account_worker.
Qed.

Lemma account_env s s' : env_step s s' → account_inv s → account_inv s'.
Proof.
  destruct 1 as [| | |i w Hi Hw| | | | | |]; intros I; try by apply (account_ext s).
  by eapply (account_set_worker i w); [exact Hi|..|exact I].
Qed.

(** *** The handler and its deferred calls *)

Definition tag (d : deferred) : nat :=
  match d with
  | D_stop_conn => 0 | D_close_pc => 1 | D_on_done => 2 | D_close_kcp => 3 | D_clear_window => 4
  | D_close_smux => 5 | D_session_closed => 6 | D_cancel_session => 7 | D_stop_session => 8
  end.

Definition pending (d : deferred) (s : session) : nat := count (λ x, (tag x =? tag d)%nat) (defers s).

Definition running (a : after_state) : Prop := a = Started ∨ a = Finished.

(** Where the function that closes the smux session is, by where the handler is. *)
Definition session_phase (s : session) : Prop :=
  match main s with
  | M_kcp | M_window | M_smux | M_serve =>
      session_after s = Unset ∧ workers s = [] ∧ pending D_stop_session s = 0%nat
  | M_accept | M_acquire _ | M_reject _ | M_cancel =>
      (session_after s = Registered ∨ running (session_after s)) ∧ pending D_stop_session s = 1%nat ∧
      is_Some (session_key s)
  | M_wait => running (session_after s) ∧ pending D_stop_session s = 1%nat ∧ session_ctx_done s = true
  | M_unwind | M_await_conn | M_returned =>
      forallb finished (workers s) = true ∧
      (pending D_stop_session s = 1%nat ∧ running (session_after s) ∨
       pending D_stop_session s = 0%nat ∧ (session_after s = Unset ∨ session_after s = Finished))
  | M_await_session =>
      forallb finished (workers s) = true ∧ pending D_stop_session s = 0%nat ∧ running (session_after s)
  end.

(** The same for the function that closes the connection. *)
Definition conn_phase (s : session) : Prop :=
  match main s with
  | M_await_conn => pending D_stop_conn s = 0%nat ∧ running (conn_after s)
  | M_unwind | M_await_session =>
      pending D_stop_conn s = 1%nat ∧ (conn_after s = Registered ∨ running (conn_after s)) ∨
      pending D_stop_conn s = 0%nat ∧ (conn_after s = Stopped ∨ conn_after s = Finished)
  | M_returned => conn_after s = Stopped ∨ conn_after s = Finished
  | _ => pending D_stop_conn s = 1%nat ∧ (conn_after s = Registered ∨ running (conn_after s))
  end.

Definition kcp_phase (s : session) : Prop :=
  match kcp_closes s with
  | [] => pending D_close_kcp s = 0%nat
  | [c] => (c + pending D_close_kcp s = 1)%nat ∧ main s ≠ M_kcp
  | _ => False
  end.

Definition window_phase (s : session) : Prop :=
  pending D_clear_window s = (if window_set s then 1 else 0)%nat ∧
  match main s with M_kcp | M_window => window_set s = false | _ => True end.

Record flow_inv (h : handler) (s : session) : Prop := {
  flow_session : session_phase s;
  flow_conn : conn_phase s;
  flow_kcp : kcp_phase s;
  flow_window : window_phase s;
  flow_gauge : Metrics.activeSessions (reg s) = wrap_int (other_sessions s + Z.of_nat (pending D_session_closed s));
  flow_smux : smux_open s = true → smux_closed s = true ∨ (1 ≤ pending D_close_smux s)%nat;
  flow_done : (done_calls s + pending D_on_done s = match h with group_run => 1 | _ => 0 end)%nat;
  flow_pc : h = group_run → conn_closed s = true ∨ (1 ≤ pending D_close_pc s)%nat;
  flow_after : (session_after s = Finished → smux_closed s = true) ∧
               (conn_after s = Finished → conn_closed s = true);
  flow_returned : main s = M_returned → defers s = [];
}.

Ltac flow_unfold :=
  unfold session_phase, conn_phase, kcp_phase, window_phase, pending, running, cancelSession in *; cbn in *.

Lemma worker_frame i w s s' : worker_step i w s s' → wpc w ≠ W_done ∧
  ∃ g st bs w', s' = s <| gate := g |> <| streams := st |> <| backends := bs |> <| workers ::= <[i := w']> |>.
Proof.
  destruct 1 as [ok Hw|Hw Hp|Hw|Hw|Hw]; (split; [by rewrite Hw|]).
  - destruct ok; by do 4 eexists.
  - by do 4 eexists.
  - unfold close_backend. destruct (backend w); by do 4 eexists.
  - by do 4 eexists.
  - by do 4 eexists.
Qed.

(** All the ways the handler and its functions can move. *)
Ltac own_cases H :=
  destruct H as [[] Hm|Hm|[] Hm|s' Hm Hb|q Hm Hq|Hm Hd|n k Hm Hk|n Hm|Hm|Hm Hf|d ds Hm Hd|Hm Hd|Hm Ha|Hm Ha|i w s' Hi Hw
    |Hc Hx Ha|Hc Ha|Ha|Hc Ha|Ha];
  repeat match goal with
  | |- context [acquire_stream ?n ?k ?s] => unfold acquire_stream; destruct (acquire k (gate s)) as [[]]
  | H : worker_step _ _ _ _ |- _ => destruct (worker_frame _ _ _ _ H) as (? & ? & ? & ? & ? & ->); clear H
  | H : serve_begin ?b ?s = Done _ |- _ =>
      unfold serve_begin in H; destruct b; cbn in H; [destruct (newSession (gate s)) as [[]|]; [|done]|];
      injection H as <-
  | d : deferred |- _ => destruct d; cbn; try case_decide
  | h : handler |- context [kcp_returns ?x] => constr_eq h x; destruct h
  end.

Ltac flow_step :=
  flow_unfold; repeat match goal with H : main _ = _ |- _ => rewrite H in *; clear H end; cbn in *;
  repeat match goal with
  | H : defers _ = _ |- _ => rewrite H in *; clear H
  | H : conn_after _ = _ |- _ => rewrite H in *; clear H
  | H : session_after _ = _ |- _ => rewrite H in *; clear H
  end; cbn in *.

Ltac flow_auto Hs I := own_cases Hs; flow_step; try done; repeat case_match; try (naive_solver lia).

Lemma kcp_own h b s s' : own_step h b s s' → kcp_phase s → kcp_phase s'.
Proof. intros Hs I. flow_auto Hs I.
Qed.

Lemma window_own h b s s' : own_step h b s s' → window_phase s → window_phase s'.
Proof. intros Hs I. flow_auto Hs I.
Qed.

Lemma conn_own h b s s' : own_step h b s s' → conn_phase s → conn_phase s'.
Proof. intros Hs I. flow_auto Hs I.
Qed.

(** A goroutine that can move is one the handler still waits for. *)
Lemma session_worker i w w' s g st bs : workers s !! i = Some w → wpc w ≠ W_done → session_phase s →
  session_phase (s <| gate := g |> <| streams := st |> <| backends := bs |> <| workers ::= <[i := w']> |>).
Proof.
  intros Hi Hw. assert (forallb finished (workers s) = true → False) as Hf.
  { rewrite forallb_Forall, Forall_lookup. intros F. specialize (F _ _ Hi).
    by apply bool_decide_eq_true in F. }
  unfold session_phase, pending. cbn. destruct (main s); try naive_solver;
    intros (_ & E & _); by rewrite E in Hi.
Qed.

Lemma session_own h b s s' : own_step h b s s' → session_phase s → session_phase s'.
Proof.
  intros Hs I. own_cases Hs; try (by apply (session_worker _ _ _ _ _ _ _ Hi));
    flow_step; try done; repeat case_match; try (naive_solver lia);
    destruct I as (E1 & E2 & E3); rewrite ?E1, ?E2, ?E3; naive_solver.
Qed.

Lemma gauge_own h b s s' : own_step h b s s' →
  Metrics.activeSessions (reg s) = wrap_int (other_sessions s + Z.of_nat (pending D_session_closed s)) →
  Metrics.activeSessions (reg s') = wrap_int (other_sessions s' + Z.of_nat (pending D_session_closed s')).
Proof. intros Hs I. own_cases Hs; flow_step; try done; rewrite I, Metrics.add_wrap; f_equal; lia. Qed.

Lemma smux_own h b s s' : own_step h b s s' →
  (smux_open s = true → smux_closed s = true ∨ (1 ≤ pending D_close_smux s)%nat) →
  smux_open s' = true → smux_closed s' = true ∨ (1 ≤ pending D_close_smux s')%nat.
Proof. intros Hs I. own_cases Hs; flow_step; try done; try (right; lia); by left. Qed.

Lemma done_own h b s s' total : own_step h b s s' →
  (done_calls s + pending D_on_done s = total)%nat → (done_calls s' + pending D_on_done s' = total)%nat.
Proof. intros Hs I. own_cases Hs; flow_step; try done; lia. Qed.

Lemma pc_own h b s s' : own_step h b s s' →
  conn_closed s = true ∨ (1 ≤ pending D_close_pc s)%nat →
  conn_closed s' = true ∨ (1 ≤ pending D_close_pc s')%nat.
Proof. intros Hs I. own_cases Hs; flow_step; try done; by left. Qed.

Lemma after_own h b s s' : own_step h b s s' →
  (session_after s = Finished → smux_closed s = true) ∧ (conn_after s = Finished → conn_closed s = true) →
  (session_after s' = Finished → smux_closed s' = true) ∧ (conn_after s' = Finished → conn_closed s' = true).
Proof. intros Hs [I1 I2]. own_cases Hs; flow_step; repeat case_match; naive_solver. Qed.

Lemma returned_own h b s s' : own_step h b s s' →
  (main s = M_returned → defers s = []) → main s' = M_returned → defers s' = [].
Proof. intros Hs I. own_cases Hs; flow_step; try done; naive_solver. Qed.

Lemma flow_own h b s s' : own_step h b s s' → flow_inv h s → flow_inv h s'.
Proof.
  intros Hs [I1 I2 I3 I4 I5 I6 I7 I8 I9 I10].
  split; eauto using session_own, conn_own, kcp_own, window_own, gauge_own, smux_own, done_own, pc_own,
    after_own, returned_own.
Qed.

Lemma flow_env h s s' : env_step s s' → flow_inv h s → flow_inv h s'.
Proof.
  intros Hs [I1 I2 I3 I4 I5 I6 I7 I8 I9 I10].
  destruct Hs as [| | |i w Hi Hw| | | | | |]; split; try done.
  - assert (wpc w ≠ W_done) as Hnd by by rewrite Hw.
    exact (session_worker i w (w <| ended := true |>) s (gate s) (streams s) (backends s) Hi Hnd I1).
  - cbn -[Z.add]. rewrite I5, Metrics.add_wrap. f_equal. unfold pending. cbn -[Z.add]. lia.
  - cbn -[Z.add]. rewrite I5, Metrics.add_wrap. f_equal. unfold pending. cbn -[Z.add]. lia.
Qed.

Lemma flow_start h g held r n c : Metrics.activeSessions r = wrap_int n → flow_inv h (start h g held r n c).
Proof. intros Hr. destruct h; split; flow_unfold; try done; try (rewrite Z.add_0_r; done); naive_solver. Qed.

(** *** Reachable states *)

Record inv (h : handler) (s : session) : Prop := {
  inv_lease : lease_inv s;
  inv_account : account_inv s;
  inv_flow : flow_inv h s;
}.

Lemma serve_inv_step h b s s' : step h b s s' → inv h s → inv h s'.
Proof.
  intros [Hs|Hs] [I1 I2 I3]; split;
    eauto using lease_inv_own, lease_inv_env, account_own, account_env, flow_own, flow_env.
Qed.

(** The gate at the call: its leases are the other sessions'. *)
Definition gate_ready (g : S) (held : list L) : Prop :=
  lease_valid g ∧ NoDup held ∧ (∀ l, holds g l = bool_decide (l ∈ held)) ∧ in_use g = length held.

Definition reachable (h : handler) (b : bool) (s : session) : Prop :=
  ∃ g held r n c, gate_ready g held ∧ Metrics.activeSessions r = wrap_int n ∧
    rtc (step h b) (start h g held r n c) s.

Lemma serve_inv_reachable h b s : reachable h b s → inv h s.
Proof.
  intros (g & held & r & n & c & (G1 & G2 & G3 & G4) & Hr & Hs).
  assert (inv h (start h g held r n c)) as I; [|clear -Hs I LeaseLaws0; induction Hs; eauto using serve_inv_step].
  split; [by split| |by apply flow_start].
  split; intros m; unfold exists_at; by destruct m.
Qed.

(** ** Progress *)

Definition worker_rank (w : worker) : nat :=
  match wpc w with
  | W_dial => 5 | W_pipe => 4 | W_close_backend => 3 | W_close_stream => 2 | W_release => 1 | W_done => 0
  end.

Definition main_rank (m : main_pc) : nat :=
  match m with
  | M_kcp => 60 | M_window => 50 | M_smux => 40 | M_serve => 30
  | M_acquire _ => 20 | M_reject _ => 13 | M_accept => 12 | M_cancel => 10 | M_wait => 9
  | M_unwind => 1 | M_await_session | M_await_conn => 2 | M_returned => 0
  end.

Definition after_rank (a : after_state) : nat :=
  match a with Unset => 3 | Registered => 2 | Started => 1 | _ => 0 end.

Definition rank (s : session) : nat :=
  (main_rank (main s) + 3 * length (defers s) + sum_list_with worker_rank (workers s) +
   after_rank (conn_after s) + after_rank (session_after s) + 9 * queued s + if session_ctx_done s then 0 else 1)%nat.

Lemma sum_insert i w w' (ws : list worker) : ws !! i = Some w →
  (sum_list_with worker_rank (<[i := w']> ws) + worker_rank w =
   sum_list_with worker_rank ws + worker_rank w')%nat.
Proof.
  intros Hi. rewrite insert_take_drop by by eapply lookup_lt_Some.
  rewrite <-(take_drop_middle ws i w Hi) at 3. rewrite !sum_list_with_app. cbn. lia.
Qed.

Lemma worker_rank_step i w s s' : workers s !! i = Some w → worker_step i w s s' → (rank s' < rank s)%nat.
Proof.
  intros Hi Hs. assert (∃ w' g st bs, (worker_rank w' < worker_rank w)%nat ∧
    s' = s <| gate := g |> <| streams := st |> <| backends := bs |> <| workers ::= <[i := w']> |>)
    as (w' & g & st & bs & Hr & ->).
  { unfold worker_rank. destruct Hs as [[] Hw|Hw Hp|Hw|Hw|Hw]; rewrite Hw;
      [..|unfold close_backend; destruct (backend w)| |]; (do 4 eexists; split; [|done]); cbn; lia. }
  pose proof (sum_insert i w w' _ Hi). unfold rank. cbn. lia.
Qed.

(** Every move of the handler's goroutines lowers the rank. *)
Lemma own_rank h b s s' : own_step h b s s' → session_phase s → (rank s' < rank s)%nat.
Proof.
  intros Hs I. destruct Hs as [[] Hm|Hm|[] Hm|s' Hm Hb|q Hm Hq|Hm Hd|n k Hm Hk|n Hm|Hm|Hm Hf|d ds Hm Hd|Hm Hd|Hm Ha
    |Hm Ha|i w s' Hi Hw|Hc Hx Ha|Hc Ha|Ha|Hc Ha|Ha]; [..|by eapply worker_rank_step| | | | |];
    unfold rank; cbn; rewrite ?Hm, ?Ha, ?Hx, ?Hq; cbn; try (lia || (destruct h; cbn; lia)).
  - unfold serve_begin in Hb. unfold session_phase in I. rewrite Hm in I. destruct I as (Ea & _).
    destruct b; cbn in Hb; [destruct (newSession (gate s)) as [[k g]|]; [|done]|]; injection Hb as <-; cbn;
      rewrite ?Ea; cbn; lia.
  - unfold acquire_stream. destruct (acquire k (gate s)) as [[l|r] g]; cbn; [|lia].
    rewrite sum_list_with_app. cbn. lia.
  - destruct (session_after s), (session_ctx_done s); cbn; lia.
  - rewrite Hd. destruct d; cbn; rewrite ?Hm; try case_decide as Ha; cbn; rewrite ?Hm; cbn;
      try rewrite Ha; cbn; try lia; destruct (session_after s), (session_ctx_done s); cbn; lia.
Qed.

Lemma env_rank s s' : env_step s s' → rank s' = rank s ∨ (dead s = false ∧ s' = s <| queued ::= Datatypes.S |>).
Proof.
  destruct 1 as [| | |i w Hi Hw| | | | | |]; auto. left. pose proof (sum_insert i w (w <| ended := true |>) _ Hi) as E.
  unfold rank. cbn in *. unfold worker_rank in E at 2 4. cbn in E. lia.
Qed.

(** Whatever the handler waits for can happen, except a stream on a live session. *)
Lemma own_moves h b s : inv h s →
  main s = M_returned ∨ (main s = M_accept ∧ queued s = 0%nat ∧ dead s = false ∧ ctx_done s = false) ∨
  ∃ s', own_step h b s s'.
Proof.
  intros [[I1 _ _ _] _ [Fs Fc _ _ _ _ _ _ [Fa _] _]]. unfold session_phase, conn_phase, running in *.
  destruct (main s) eqn:Hm.
  - right. right. exists (kcp_returns h false s). by constructor.
  - right. right. exists (install_window s). by constructor.
  - right. right. exists (smux_returns false s). by constructor.
  - right. right. destruct (newSession_ok _ I1) as (k & g & E & _).
    destruct (serve_begin b s) as [s'|] eqn:Eb; [exists s'; by eapply own_serve|].
    unfold serve_begin in Eb. rewrite E in Eb. by destruct b.
  - destruct (dead s) eqn:Ed; [right; right; exists (s <| main := M_cancel |>); by constructor|].
    destruct (ctx_done s) eqn:Ec.
    2: { destruct (queued s) as [|q] eqn:Eq; [by right; left|]. right. right. exists (accepted q s). by constructor. }
    right. right.
    destruct Fs as ([Ea|[Ea|Ea]] & _).
    + destruct (session_ctx_done s) eqn:Ex.
      * exists (s <| session_after := Started |>). by apply own_start_session.
      * exists (s <| session_ctx_done := true |>). apply own_propagate; congruence.
    + eexists. by apply own_end_session.
    + unfold dead in Ed. by rewrite (Fa Ea) in Ed.
  - right. right. destruct Fs as (_ & _ & [k Hk]). exists (acquire_stream n k s). by eapply own_acquire.
  - right. right. eexists. by eapply own_reject.
  - right. right. eexists. by eapply own_cancel.
  - right. right. destruct (decide (Forall (λ w, finished w = true) (workers s))) as [Ef|Ef].
    { apply forallb_Forall in Ef. eexists. by eapply own_wait. }
    apply not_Forall_Exists in Ef; [|apply _].
    apply Exists_exists in Ef as (w & [i Hi]%list_elem_of_lookup & Hw).
    assert (∃ s', worker_step i w s s') as [s' Hs]; [|exists s'; by eapply own_worker].
    destruct Fs as (_ & _ & Hctx).
    destruct (wpc w) eqn:Ew; [exists (dial_returns false i w s); by constructor|eexists..|destruct Hw; unfold finished; by rewrite Ew];
      [apply step_pipe; [done|by rewrite Hctx]|by constructor..].
  - right. right. destruct (defers s) eqn:Ed; eexists; by constructor.
  - right. right. destruct Fs as (_ & _ & [Ea|Ea]); eexists;
      [by apply own_end_session|by apply own_session_closed].
  - right. right. destruct Fc as (_ & [Ea|Ea]); eexists;
      [by apply own_end_conn|by apply own_conn_closed].
  - by left.
Qed.

(** ** Theorems *)

(** C10: A session's handler, plain or bonded, leaves nothing behind, however its
    goroutines, the peer, cancellation and other sessions interleave: when it
    returns, every stream it accepted and every backend connection it dialled
    was closed exactly once, the leases in the gate are exactly those of other
    sessions, the KCP session was closed once and the smux session closed, the
    session gauge counts the other sessions only, a group's packet connection
    is closed and its removal callback ran once; and no function it registered
    on a context will run later. *)
Theorem serve_leaves_nothing h b s : reachable h b s → main s = M_returned →
  Forall (λ c, c = 1%nat) (streams s) ∧ Forall (λ c, c = 1%nat) (backends s) ∧
  in_use (gate s) = length (others s) ∧ (∀ l, holds (gate s) l = bool_decide (l ∈ others s)) ∧
  Forall (λ c, c = 1%nat) (kcp_closes s) ∧ window_set s = false ∧
  (smux_open s = true → smux_closed s = true) ∧
  Metrics.activeSessions (reg s) = wrap_int (other_sessions s) ∧
  (h = group_run → conn_closed s = true ∧ done_calls s = 1%nat) ∧
  (∀ s', own_step h b s s' → s' = s <| session_ctx_done := true |>).
Proof.
  intros [[I1 I2 I3 I4] [A1 A2] [F1 F2 F3 F4 F5 F6 F7 F8 [F9 F10] F11]]%serve_inv_reachable Hm.
  specialize (F11 Hm). unfold session_phase, conn_phase, kcp_phase, window_phase, pending in *.
  rewrite F11, Hm in *. cbn in *. destruct F1 as [Hf F1].
  assert (Forall (λ w, wpc w = W_done) (workers s)) as Hd.
  { rewrite forallb_Forall in Hf. eapply Forall_impl; [exact Hf|]. intros w. apply bool_decide_eq_true. }
  assert (owned s = []) as Ho.
  { unfold owned. clear -Hd. induction Hd as [|w ws Hw _ IH]; [done|].
    rewrite filter_cons, decide_False; [done|]. unfold finished. by rewrite Hw. }
  rewrite Ho in *. cbn in *.
  assert (∀ l f, (∀ n, closes_at n l + count (f n) (workers s) = exists_at n l)%nat →
    (∀ n w, wpc w = W_done → f n w = false) → Forall (λ c, c = 1%nat) l) as Hone.
  { intros l f Hl Hn. apply Forall_lookup. intros n c Hc. specialize (Hl n).
    assert (count (f n) (workers s) = 0%nat) as E0.
    { apply count_zero. eapply Forall_impl; [exact Hd|]. cbn. auto. }
    unfold closes_at, exists_at in Hl. rewrite Hc, E0 in Hl. apply lookup_lt_Some in Hc.
    destruct (Nat.ltb_spec n (length l)); cbn in Hl; lia. }
  split_and!; try done.
  - apply (Hone _ worker_has_stream); [intros n; specialize (A1 n); lia|].
    intros n w Hw. unfold worker_has_stream. rewrite Hw. apply andb_false_r.
  - apply (Hone _ worker_has_backend); [done|].
    intros n w Hw. unfold worker_has_backend. rewrite Hw. apply andb_false_r.
  - destruct (kcp_closes s) as [|c [|]]; [constructor|repeat constructor; lia|done].
  - destruct F4 as [F4 _]. by destruct (window_set s).
  - intros Ho'. destruct (F6 Ho'); [done|lia].
  - rewrite F5. f_equal. lia.
  - intros ->. destruct (F8 eq_refl); [|lia]. split; [done|lia].
  - intros s' Hs. destruct Hs; try congruence; [|naive_solver congruence..].
    exfalso. match goal with H : workers s !! _ = Some ?w, H' : worker_step _ ?w _ _ |- _ =>
      apply worker_frame in H' as [Hnd _]; rewrite Forall_lookup in Hd; by apply Hnd, (Hd _ _ H) end.
Qed.

Definition doomed (s : session) : bool := dead s || ctx_done s.

Lemma own_doomed h b s s' : own_step h b s s' → doomed s = true → doomed s' = true.
Proof.
  unfold doomed, dead. intros Hs I. own_cases Hs; flow_unfold; try done; by rewrite ?orb_true_r.
Qed.

(** A doomed session runs to the handler's return by its own moves. *)
Lemma doomed_returns h b n s : (rank s < n)%nat → inv h s → doomed s = true →
  ∃ s', rtc (own_step h b) s s' ∧ main s' = M_returned.
Proof.
  revert s. induction n as [|n IH]; intros s Hn I Hd; [lia|].
  destruct (own_moves h b s I) as [Hm|[(_ & _ & E1 & E2)|[s1 Hs]]].
  - exists s. by split; [apply rtc_refl|].
  - unfold doomed in Hd. by rewrite E1, E2 in Hd.
  - assert (inv h s1) as I1 by (eapply serve_inv_step; [by apply step_own|done]).
    pose proof (own_rank h b s s1 Hs (flow_session h s (inv_flow h s I))) as Hr.
    destruct (IH s1) as (s' & Hrtc & Hm); [lia|done|by eapply own_doomed|].
    exists s'. split; [by eapply rtc_l|done].
Qed.

(** C11: The handler comes to an end: unless it waits in [AcceptStream] on a live
    session with no stream to accept, one of its goroutines can move, although a
    pipe whose two ends stay silent returns only after [cancelSession]; each move
    lowers a rank that everybody else leaves alone, but for the peer, who can
    raise it only by opening a stream on a live session.  In particular, once
    the session is dead or the context is done, the handler returns with no help
    from the peer, from the backends or from other sessions, after at most as
    many moves as the rank says. *)
Theorem serve_ends h b s : reachable h b s →
  (main s = M_returned ∨ (main s = M_accept ∧ queued s = 0%nat ∧ dead s = false ∧ ctx_done s = false) ∨
   ∃ s', own_step h b s s') ∧
  (∀ s', own_step h b s s' → (rank s' < rank s)%nat) ∧
  (∀ s', env_step s s' → rank s' = rank s ∨ (dead s = false ∧ s' = s <| queued ::= Datatypes.S |>)) ∧
  (dead s = true ∨ ctx_done s = true → ∃ s', rtc (own_step h b) s s' ∧ main s' = M_returned).
Proof.
  intros I%serve_inv_reachable. split_and!.
  - by apply own_moves.
  - intros s' Hs. apply (own_rank h b s s' Hs), (flow_session h s (inv_flow h s I)).
  - apply env_rank.
  - intros Hd. apply (doomed_returns h b (Datatypes.S (rank s))); [lia|done|].
    unfold doomed. destruct Hd as [->| ->]; [done|apply orb_true_r].
Qed.
End serve.

(** ** The backend gate *)

#[export] Existing Instances BackendGate.gate_source BackendGate.gate_laws.

#[export] Instance gate_sessions : SessionSource BackendGate.gate (option nat) nat (BackendGate.backendRejection * Z).
Proof.
  refine {| newSession g := match BackendGate.NewSessionLimiter g with
                            | Done (sid, g') => Done (Some sid, g')
                            | Panics => Panics
                            end |}.
  intros g Hi. destruct (BackendGate.inv_config g Hi) as [[H1 H2] H3].
  assert (∃ l, BackendGate.newConcurrencyLimiter (BackendGate.maxStreamsPerSession g) = Ok l) as [l El].
  { unfold BackendGate.newConcurrencyLimiter. rewrite (proj2 (Z.ltb_ge _ _)) by lia. rewrite Z.gtb_ltb.
    rewrite (proj2 (Z.ltb_ge _ _)) by lia. cbn. by eexists. }
  destruct (BackendGate.NewSessionLimiter g) as [[sid g']|] eqn:E.
  - exists (Some sid), g'. split; [done|]. split; [by eapply BackendGate.gate_inv_session|].
    unfold BackendGate.NewSessionLimiter in E. rewrite El in E. injection E as _ <-. done.
  - unfold BackendGate.NewSessionLimiter in E. by rewrite El in E.
Defined.

(** One stream is served, a second one is refused, then the session dies. *)
Definition quiet_gate : BackendGate.gate := 
  BackendGate.MkGate (BackendGate.MkLimiter 2 0) 1 Metrics.zero_registry 0 [] [].

Lemma quiet_gate_ready : gate_ready quiet_gate [].
Proof.
  split; [by apply (BackendGate.gate_inv_new 2 1 Metrics.zero_registry)|].
  split; [constructor|]. split; [|done]. intros l. by destruct l.
Qed.

Ltac evaluate :=
  match goal with |- rtc _ ?s _ =>
    let v := eval vm_compute in s in replace s with v by (vm_compute; reflexivity) end.
Tactic Notation "go" uconstr(ctor) :=
  eapply rtc_l; [apply step_own; eapply ctor; reflexivity|evaluate].
Tactic Notation "go_worker" uconstr(ctor) :=
  eapply rtc_l; [apply step_own; eapply (own_worker _ _ _ 0%nat); [reflexivity|eapply ctor; reflexivity]|evaluate].

Ltac open_stream := eapply rtc_l; [apply step_env; eapply env_stream; reflexivity|evaluate].

Lemma one_stream_run : ∃ s, reachable group_run true s ∧ main s = M_returned ∧
  length (streams s) = 2%nat ∧ length (backends s) = 1%nat.
Proof.
  eexists. split; [exists quiet_gate, [], Metrics.zero_registry, 0, false; split; [apply quiet_gate_ready|]; split; [done|]|].
  - go (own_kcp group_run true _ true). go own_window. go (own_smux group_run true _ true). go own_serve.
    open_stream. go own_accept. go own_acquire. open_stream. go own_accept. go own_acquire. go own_reject.
    go_worker (step_dial 0 _ _ true).
    eapply rtc_l; [apply step_env; eapply env_down; reflexivity|evaluate].
    go own_accept_error. go own_cancel. go_worker step_pipe. go_worker step_close_backend. go_worker step_close_stream.
    go_worker step_release. go own_end_session. go own_wait.
    do 2 go own_unwind. go own_session_closed. do 7 go own_unwind. go own_return. apply rtc_refl.
  - done.
Qed.

Lemma serve_leaves_nothing_witness : ∃ s, reachable group_run true s ∧ main s = M_returned ∧
  length (streams s) = 2%nat ∧ Forall (λ c, c = 1%nat) (streams s).
Proof.
  destruct one_stream_run as (s & Hr & Hm & Hs & _). exists s. split; [exact Hr|]. split; [exact Hm|].
  split; [exact Hs|]. apply (serve_leaves_nothing group_run true s Hr Hm).
Defined.

(** A stream is being piped, in silence, when the session dies. *)
Lemma silent_pipe : ∃ s, reachable group_run true s ∧ dead s = true ∧ wpc <$> workers s = [W_pipe].
Proof.
  eexists. split; [exists quiet_gate, [], Metrics.zero_registry, 0, false; split; [apply quiet_gate_ready|]; split; [done|]|].
  - go (own_kcp group_run true _ true). go own_window. go (own_smux group_run true _ true). go own_serve.
    open_stream. go own_accept. go own_acquire. go_worker (step_dial 0 _ _ true).
    eapply rtc_l; [apply step_env; eapply env_down; reflexivity|evaluate]. apply rtc_refl.
  - by split.
Qed.

Lemma serve_ends_witness : ∃ s s', reachable group_run true s ∧ wpc <$> workers s = [W_pipe] ∧
  rtc (own_step group_run true) s s' ∧ main s' = M_returned.
Proof.
  destruct silent_pipe as (s & Hr & Hd & Hw).
  destruct (serve_ends group_run true s Hr) as (_ & _ & _ & H). destruct (H (or_introl Hd)) as (s' & Hs & Hm).
  by exists s, s'.
Defined.
End ServeSmux.
