(* ===== verification/ServerMain.v ===== *)
(** * The server process (server/main.go: main)

    [startup] is the part of [main] before the listener: the checks in their
    order, each of which ends the process.  [serve_connection] is the goroutine
    of one accepted connection with its deferred calls.  The handlers it calls
    are in [ServeSmux] and [UdpRelay]; the accept loop is [Leases.AcceptLoop]. *)

From S2P Require Import Prelude GoStrings GoNet Metrics Tuning Leases ConnLimiter BackendGate BondHello BondedConn BondManager SessionAuth Identity Diagnostics.

Module ServerMain.
Import SessionAuth.

Definition enabledText (enabled : bool) : bytes := if enabled then str "enabled" else str "disabled".

(** ** Start *)

Record serverFlags := MkFlags {
  vlessMode : bool; vlessBond : bool;
  wrap : bool; wrapKey : bytes; genWrapKey : bool;
  maxConnections : Z; maxConnectionsPerIP : Z;
  maxBackendConnections : Z; maxStreamsPerSession : Z;
  dtlsCertificateFile : bytes; dtlsKeyFile : bytes;
  clientAuthTokenFile : bytes; unsafeAllowUnauthenticatedClients : bool;
  diagnosticOptions : Diagnostics.Options;
}.

(** What [main] has made when it starts to listen. *)
Record serverConfig := MkServerConfig {
  connectionLimiter : ConnLimiter.connectionLimiter;
  backendGate : BackendGate.gate;
  diagnosticConfig : Diagnostics.Config;
  dtlsIdentity : Identity.serverDTLSIdentity;
  clientAuthToken : option bytes;
}.

Definition fatal {A} (prefix : bytes) (r : result A) : result A := map_err (errorf_w prefix) r.

Section startup.
(** What the tuning flags left, the environment of the file operations, and the
    parameters of [Identity] and [Diagnostics]. *)
Context (tuning : Tuning.globals) (lib : Identity.crypto) (env : file_env).
Context (clean_windows : bytes → bytes) (stat_symlink : option goerror) (read_other : bytes → result bytes).
Context (open_file : bytes → result Diagnostics.file) (token_env : bytes) (reg : Metrics.Registry).

Definition client_auth (f : serverFlags) (fs : filesystem) : result (option bytes) * filesystem :=
  if unsafeAllowUnauthenticatedClients f then
    if negb (bool_decide (clientAuthTokenFile f = [])) then
      (Err (errorf (str "-client-auth-token-file and -unsafe-allow-unauthenticated-clients cannot be used together")), fs)
    else (Ok None, fs)
  else match LoadOrCreateTokenFile env (clientAuthTokenFile f) fs with
       | (Err e, fs) => (Err (errorf_w (str "invalid client authentication token: ") e), fs)
       | (Ok (token, _), fs) => (Ok (Some token), fs)
       end.

(** The checks before anything is read or written. *)
Definition check_flags (f : serverFlags)
  : result (ConnLimiter.connectionLimiter * BackendGate.gate * Diagnostics.Config) :=
  let? _ := BondManager.validateServerCompatibilityFlags (wrap f) (wrapKey f) (genWrapKey f) in
  let? lim := fatal (str "invalid connection limits: ")
                (ConnLimiter.newConnectionLimiter (maxConnections f) (maxConnectionsPerIP f)) in
  let? gate := fatal (str "invalid backend limits: ")
                 (BackendGate.newBackendGate (maxBackendConnections f) (maxStreamsPerSession f) (Some reg)) in
  let? _ := match Tuning.ValidateTuning tuning with
            | Some e => Err (errorf_w (str "invalid transport tuning: ") e)
            | None => Ok ()
            end in
  let? diag := fatal (str "invalid diagnostics configuration: ")
                 (Diagnostics.options_Config open_file token_env (windows env) (diagnosticOptions f)) in
  let? _ := BondManager.validateServerVLESSFlags (vlessMode f) (vlessBond f) in
  Ok (lim, gate, diag).

Definition startup (f : serverFlags) (fs : filesystem) : result serverConfig * filesystem :=
  match check_flags f with
  | Err e => (Err e, fs)
  | Ok (lim, gate, diag) =>
      match Identity.loadServerDTLSIdentity lib env clean_windows stat_symlink read_other
              (dtlsCertificateFile f) (dtlsKeyFile f) fs with
      | (Err e, fs) => (Err (errorf_w (str "invalid DTLS identity: ") e), fs)
      | (Ok id, fs) =>
          match client_auth f fs with
          | (Err e, fs) => (Err e, fs)
          | (Ok token, fs) => (Ok (MkServerConfig lim gate diag id token), fs)
          end
      end
  end.

(** C30: A server that starts to listen is configured safely: its limiters satisfy
    their invariants, the transport tuning is within its ranges, bonding comes
    with VLESS, the identity's fingerprint and cipher suite fit its certificate,
    and clients are left unauthenticated exactly when the unsafe flag was given
    (never together with a token file); otherwise the token served is the one
    in the file. *)
Theorem startup_safe f fs c fs' :
  Metrics.activeBackendStreams reg = 0 → quiet_env env → fresh_random env (TrimSpace (clientAuthTokenFile f)) →
  startup f fs = (Ok c, fs') →
  ConnLimiter.limiter_inv (connectionLimiter c) ∧ BackendGate.gate_inv (backendGate c) ∧
  Tuning.tuning_ok (Tuning.currentTuningValues tuning) ∧ Tuning.tuningEnvErrors tuning = [] ∧
  (vlessBond f = true → vlessMode f = true) ∧ wrap f = false ∧
  Identity.consistent lib (dtlsIdentity c) ∧
  match clientAuthToken c with
  | None => unsafeAllowUnauthenticatedClients f = true ∧ clientAuthTokenFile f = []
  | Some t => unsafeAllowUnauthenticatedClients f = false ∧ LoadTokenFile env (clientAuthTokenFile f) fs' = Ok t
  end.
Proof.
  intros Hreg Hq Hf. unfold startup. destruct (check_flags f) as [[[lim gate] diag]|] eqn:Ec; [|done].
  unfold check_flags, fatal in Ec. apply result_bind_ok in Ec as ([] & Hw & Ec).
  apply result_bind_ok in Ec as (lim' & Hl%map_err_ok & Ec). apply result_bind_ok in Ec as (gate' & Hg%map_err_ok & Ec).
  apply result_bind_ok in Ec as ([] & Ht & Ec). apply result_bind_ok in Ec as (diag' & _ & Ec).
  apply result_bind_ok in Ec as ([] & Hv & [= -> -> ->]).
  destruct (Identity.loadServerDTLSIdentity _ _ _ _ _ _ _ _) as [[id|] fs1] eqn:Ei; [|done].
  apply Identity.identity_sound in Ei as [Hid _].
  destruct (client_auth f fs1) as [[token|] fs2] eqn:Ea; [|done]. intros [= <- <-]. cbn.
  destruct (Tuning.ValidateTuning tuning) eqn:Et; [done|].
  apply Tuning.ValidateTuning_ok in Et as [Et1 Et2].
  split; [by eapply ConnLimiter.inv_new|]. split; [by eapply BackendGate.gate_inv_new|]. split; [done|]. split; [done|]. unfold BondManager.validateServerVLESSFlags in Hv. unfold BondManager.validateServerCompatibilityFlags in Hw.
  split; [by destruct (vlessBond f), (vlessMode f)|]. split; [by destruct (wrap f)|]. split; [done|].
  unfold client_auth in Ea. destruct (unsafeAllowUnauthenticatedClients f).
  - destruct (bool_decide_reflect (clientAuthTokenFile f = [])); [|done]. by injection Ea as <- <-.
  - destruct (LoadOrCreateTokenFile _ _ _) as [[[t created]|] fs3] eqn:El; [|done]. injection Ea as <- <-.
    split; [done|]. by eapply LoadOrCreate_published.
Qed.
End startup.
(** ** The goroutine of a connection *)

(** What it did beyond the lease and the bond. *)
Inductive event := Ev_handleVLESSConnection | Ev_handleUDPConnection | Ev_bond | Ev_AuthFailed.

Section connection.
Context {S K L R : Type} `{!LeaseSource S K L R}.
Context {C : Type} `{!NetConn C}.
(** The tuning, the time left of [ctx1], the handshake, and the handlers, which
    use the connection. *)
Context (tuning : Tuning.globals) (ctx_deadline : option Z).
Context (HandshakeContext : C → option goerror * C) (handle : event → C → C).

Abbreviation server := (@AcceptLoop.server S).

Record world := MkWorld {
  srv : server;
  bonds : BondManager.manager C;
  events : list event;
}.

#[export] Instance world_eta : Eta world := λ w, MkWorld (srv w) (bonds w) (events w).

Definition happens (e : event) (w : world) : world := w <| events ::= (λ es, es ++ [e]) |>.

Definition AuthFailed (w : world) : world :=
  happens Ev_AuthFailed (w <| srv ::= (λ s, AcceptLoop.MkServer (AcceptLoop.limiter s)
    (Metrics.AuthFailed (AcceptLoop.metrics s)) (AcceptLoop.connectionRejections s)) |>).

(** The paths the bonds have ever been given, and the calls of their cleanups. *)
Definition all_paths (h : list (BondManager.group C)) : list (BondedConn.bondedPath C) :=
  h ≫= λ g, BondedConn.heap (BondManager.pc g).

Definition cleanups (m : BondManager.manager C) : nat :=
  sum_list_with BondedConn.cleanup_calls (all_paths (BondManager.group_heap m)).

(** [bondManager.AddWithCleanup] with [releaseConnection] as the cleanup: a bond
    that has already ended calls it before [AddWithCleanup] returns.  Both sides
    count in [metrics.Process]. *)
Definition AddWithCleanup (l : L) (c : C) (w : world) : result unit * C * world :=
  let m := BondManager.MkManager (BondManager.groups (bonds w)) (BondManager.group_heap (bonds w))
             (AcceptLoop.metrics (srv w)) (BondManager.running (bonds w))
             (BondManager.window_calls (bonds w)) in
  let '(r, c, m') := BondManager.add tuning c true m in
  let s := AcceptLoop.MkServer (AcceptLoop.limiter (srv w)) (BondManager.process m')
             (AcceptLoop.connectionRejections (srv w)) in
  (r, c, w <| bonds := m' |> <| srv := Nat.iter (cleanups m' - cleanups m) (AcceptLoop.releaseConnection l) s |>).

(** The body; [None]: the connection and its lease now belong to the bond. *)
Definition connection_body (vless bond is_dtls : bool) (token : option bytes) (l : L) (c : C) (w : world)
  : option C * world :=
  if negb is_dtls then (Some c, w)
  else match HandshakeContext c with
  | (Some _, c) => (Some c, w)
  | (None, c) =>
      let '(denied, c) := match token with Some t => Verify ctx_deadline t c | None => (None, c) end in
      match denied with
      | Some _ => (Some c, AuthFailed w)
      | None =>
          if vless then
            if bond then
              match AddWithCleanup l c w with
              | (Err _, c, w) => (Some c, w)
              | (Ok _, _, w) => (None, happens Ev_bond w)
              end
            else (Some (handle Ev_handleVLESSConnection c), happens Ev_handleVLESSConnection w)
          else (Some (handle Ev_handleUDPConnection c), happens Ev_handleUDPConnection w)
      end
  end.

(** The goroutine: the body, then [conn.Close] if the connection is still its
    own, then [releaseConnection]. *)
Definition serve_connection (vless bond is_dtls : bool) (token : option bytes) (l : L) (c : C) (w : world)
  : option C * world :=
  match connection_body vless bond is_dtls token l c w with
  | (Some c, w) => (Some (conn_Close c).2, w <| srv ::= AcceptLoop.releaseConnection l |>)
  | (None, w) => (None, w)
  end.

Definition bond_paths (w : world) : list (BondedConn.bondedPath C) :=
  all_paths (BondManager.group_heap (bonds w)).

(** What the goroutine does with the connection before it gives it up: it reads,
    writes and sets deadlines, or lets the handshake or a handler do so. *)
Inductive touch : C → C → Prop :=
  | touch_io c c' : conn_io c c' → touch c c'
  | touch_handshake c e c' : HandshakeContext c = (e, c') → touch c c'
  | touch_handler e c : touch c (handle e c).

Lemma io_touch c c' : rtc conn_io c c' → rtc touch c c'.
Proof. apply rtc_subrel. intros c1 c2. apply touch_io. Qed.

(** A path that owns the connection: live with its cleanup still to come, or,
    in a bond that has just ended, closed with its cleanup done. *)
Definition path_owns (c : C) (p : BondedConn.bondedPath C) : Prop :=
  BondedConn.has_cleanup p = true ∧
  (BondedConn.conn p = c ∧ BondedConn.cleanup_calls p = 0%nat ∨
   BondedConn.conn p = (conn_Close c).2 ∧ BondedConn.cleanup_calls p = 1%nat).

Lemma AddConn_owns c (b : BondedConn.bond C) :
  ∃ p, BondedConn.heap (BondedConn.AddConn (Some c) true b).2 = BondedConn.heap b ++ [p] ∧ path_owns c p.
Proof.
  unfold BondedConn.AddConn, BondedConn.link_path. cbn -[Metrics.OpenPath BondedConn.stop_empty_timer].
  assert (∀ (h : list (BondedConn.bondedPath C)) p f, alter f (length h) (h ++ [p]) = h ++ [f p]) as Ha.
  { intros h p f. rewrite alter_app_r_alt, Nat.sub_diag by lia. done. }
  destruct (BondedConn.closed b) eqn:Ec; [|destruct (BondedConn.emptyExpired b) eqn:Ee].
  - cbn. rewrite Ha. eexists. split; [done|]. split; [done|]. by right.
  - cbn. rewrite Ha. eexists. split; [done|]. split; [done|]. by right.
  - destruct (Metrics.OpenPath _ _) as [st reg]. cbn.
    unfold BondedConn.stop_empty_timer. destruct (BondedConn.emptyTimer b); cbn; rewrite Ha;
      (eexists; split; [done|]; split; [done|by left]).
Qed.

Lemma addWithCleanup_owns c g r g' calls : BondManager.addWithCleanup tuning c true g = (r, g', calls) →
  match r with
  | Err _ => g' = g
  | Ok _ => ∃ p, BondedConn.heap (BondManager.pc g') = BondedConn.heap (BondManager.pc g) ++ [p] ∧ path_owns c p
  end.
Proof.
  unfold BondManager.addWithCleanup. destruct (_ && _); [by intros [= <- <- <-]|].
  destruct (AddConn_owns c (BondManager.pc g)) as (p & Hp & Ho).
  set (b := (BondedConn.AddConn (Some c) true (BondManager.pc g)).2) in *.
  destruct (BondManager.applyWindowLocked _ _) as [g1 calls1] eqn:E. intros [= <- <- <-]. exists p. split; [|done].
  assert (BondManager.pc g1 = b) as ->; [|done]. revert E. unfold BondManager.applyWindowLocked.
  intros. repeat case_match; simplify_eq; done.
Qed.

Lemma all_paths_insert loc g g' ps (h : list (BondManager.group C)) : h !! loc = Some g →
  BondedConn.heap (BondManager.pc g') = BondedConn.heap (BondManager.pc g) ++ ps →
  all_paths (<[loc := g']> h) ≡ₚ ps ++ all_paths h.
Proof.
  intros Hl Hg. rewrite insert_take_drop by by eapply lookup_lt_Some.
  rewrite <-(take_drop_middle h loc g Hl) at 3. unfold all_paths. rewrite !bind_app, !bind_cons, Hg.
  rewrite !app_assoc. apply Permutation_app; [|done]. rewrite <-!app_assoc, (Permutation_app_comm ps).
  by rewrite <-!app_assoc.
Qed.

Lemma find_or_create_paths hello (m m' : BondManager.manager C) r :
  BondManager.find_or_create hello m = (r, m') →
  all_paths (BondManager.group_heap m') = all_paths (BondManager.group_heap m) ∧
  ∀ loc, r = Ok loc → is_Some (BondManager.group_heap m' !! loc).
Proof.
  unfold BondManager.find_or_create, BondManager.lookup_group.
  destruct (BondManager.groups m !! BondHello.BondID hello) as [loc|] eqn:El; cbn.
  - destruct (BondManager.group_heap m !! loc) as [g|] eqn:Eg; cbn.
    + destruct (negb _); intros [= <- <-]; (split; [done|]); intros ? [= <-]; by eexists.
    + intros [= <- <-]. cbn. unfold all_paths. rewrite bind_app. cbn. rewrite !app_nil_r. split; [done|].
      intros ? [= <-]. by rewrite list_lookup_middle.
  - intros [= <- <-]. cbn. unfold all_paths. rewrite bind_app. cbn. rewrite !app_nil_r. split; [done|].
    intros ? [= <-]. by rewrite list_lookup_middle.
Qed.

(** [add] keeps the connection exactly when it reports success. *)
Lemma add_owns c (m m' : BondManager.manager C) r c' : BondManager.add tuning c true m = (r, c', m') →
  rtc conn_io c c' ∧
  match r with
  | Err _ => all_paths (BondManager.group_heap m') ≡ₚ all_paths (BondManager.group_heap m)
  | Ok _ => ∃ p, all_paths (BondManager.group_heap m') ≡ₚ p :: all_paths (BondManager.group_heap m) ∧ path_owns c' p
  end.
Proof.
  unfold BondManager.add. destruct (BondManager.add_negotiate tuning c m) as [[hello|e] c1] eqn:En;
    apply BondManager.add_negotiate_io in En; [|by intros [= <- <- <-]].
  unfold BondManager.add_commit. destruct (BondManager.find_or_create hello m) as [[loc|e] m1] eqn:Ef;
    apply find_or_create_paths in Ef as [Hp Hl]; [|intros [= <- <- <-]; split; [done|by rewrite Hp]].
  destruct (Hl loc eq_refl) as [g Hg]. unfold BondManager.add_path. rewrite Hg, <-Hp.
  destruct (BondManager.addWithCleanup _ _ _ _) as [[r1 g1] calls] eqn:Ea. apply addWithCleanup_owns in Ea.
  destruct r1; intros [= <- <- <-]; cbn; (split; [exact En|]).
  - destruct Ea as (p & Hh & Ho). exists p. split; [|done]. by apply (all_paths_insert loc g _ [p] _ Hg).
  - subst g1. apply (all_paths_insert loc g _ [] _ Hg). cbn. by rewrite app_nil_r.
Qed.

Context `{!EqDecision L} `{!LeaseLaws S K L R}.

(** What becomes of a lease that is held. *)
Definition lease_returned (l : L) (w w' : world) : Prop :=
  holds (AcceptLoop.limiter (srv w')) l = false ∧
  in_use (AcceptLoop.limiter (srv w)) = Datatypes.S (in_use (AcceptLoop.limiter (srv w'))).

Lemma release_returns l (s : server) : lease_valid (AcceptLoop.limiter s) → holds (AcceptLoop.limiter s) l = true →
  let s' := AcceptLoop.releaseConnection l s in
  holds (AcceptLoop.limiter s') l = false ∧ in_use (AcceptLoop.limiter s) = Datatypes.S (in_use (AcceptLoop.limiter s')).
Proof.
  intros Hv Hh. unfold AcceptLoop.releaseConnection. destruct (release l _) as [ret lim] eqn:Er.
  destruct (release_once _ _ _ _ Hv Er) as (_ & -> & Hu & Hhold). rewrite Hh in *.
  cbn in *. rewrite Hhold, decide_True by done. done.
Qed.

(** The bond's side of a connection: a new path carries it and the cleanup; it is
    live and holds the lease, or its bond had ended and it gave back both. *)
Definition bond_owns (l : L) (c : C) (w w' : world) : Prop :=
  ∃ p, bond_paths w' ≡ₚ p :: bond_paths w ∧ BondedConn.has_cleanup p = true ∧
    (BondedConn.conn p = c ∧ BondedConn.cleanup_calls p = 0%nat ∧
       AcceptLoop.limiter (srv w') = AcceptLoop.limiter (srv w) ∨
     BondedConn.conn p = (conn_Close c).2 ∧ BondedConn.cleanup_calls p = 1%nat ∧ lease_returned l w w').

Lemma AddWithCleanup_owns l c w r c' w' :
  lease_valid (AcceptLoop.limiter (srv w)) → holds (AcceptLoop.limiter (srv w)) l = true →
  AddWithCleanup l c w = (r, c', w') → rtc conn_io c c' ∧
  match r with
  | Err _ => AcceptLoop.limiter (srv w') = AcceptLoop.limiter (srv w) ∧ bond_paths w' ≡ₚ bond_paths w
  | Ok _ => bond_owns l c' w w'
  end.
Proof.
  intros Hv Hh. unfold AddWithCleanup. destruct (BondManager.add _ _ _ _) as [[ra c3] m] eqn:Ea.
  apply add_owns in Ea as [Hio Ha]. set (k := (cleanups m - cleanups _)%nat). intros [= <- <- <-]. split; [done|].
  destruct ra as [u|e].
  - destruct Ha as (p & Hp & Hc & Ho). exists p. split; [done|]. split; [done|].
    assert (k = BondedConn.cleanup_calls p) as Hk.
    { subst k. unfold cleanups. rewrite Hp. cbn [sum_list_with BondManager.group_heap]. lia. }
    destruct Ho as [[Hc1 Hc2]|[Hc1 Hc2]]; rewrite Hc2 in Hk; [left|right]; (split; [done|]; split; [done|]); rewrite Hk; cbn.
    + done.
    + unfold lease_returned. cbn. by apply (release_returns l (AcceptLoop.MkServer _ _ _)).
  - split; [|done]. assert (k = 0%nat) as ->; [|done]. subst k. unfold cleanups. rewrite Ha.
    cbn [BondManager.group_heap]. lia.
Qed.

Lemma body_owns vless bond is_dtls token l c w r w' :
  lease_valid (AcceptLoop.limiter (srv w)) → holds (AcceptLoop.limiter (srv w)) l = true →
  connection_body vless bond is_dtls token l c w = (r, w') →
  match r with
  | Some c' => rtc touch c c' ∧ AcceptLoop.limiter (srv w') = AcceptLoop.limiter (srv w) ∧ bond_paths w' ≡ₚ bond_paths w
  | None => ∃ c', rtc touch c c' ∧ bond_owns l c' w w'
  end.
Proof.
  intros Hv Hh. unfold connection_body. destruct is_dtls; cbn [negb]; [|by intros [= <- <-]].
  destruct (HandshakeContext c) as [e c1] eqn:Ehs. apply touch_handshake, rtc_once in Ehs.
  destruct e as [e|]; [by intros [= <- <-]|].
  destruct (match token with Some t => Verify ctx_deadline t c1 | None => (None, c1) end) as [d c2] eqn:Ev.
  assert (rtc touch c c2) as Hc2.
  { etrans; [exact Ehs|]. destruct token; [by eapply io_touch, Verify_io|by simplify_eq]. }
  destruct d as [e|]; [by intros [= <- <-]|].
  assert (∀ ev, rtc touch c (handle ev c2)) as Hhandle by (intros ev; etrans; [exact Hc2|apply rtc_once, touch_handler]).
  destruct vless; [|by intros [= <- <-]]. destruct bond; [|by intros [= <- <-]].
  destruct (AddWithCleanup l c2 w) as [[ra c3] w1] eqn:Ea. apply AddWithCleanup_owns in Ea as [Hio Ha]; [|done|done].
  assert (rtc touch c c3) as Hc3 by (etrans; [exact Hc2|by apply io_touch]).
  destruct ra; intros [= <- <-]; [by exists c3|]. by split.
Qed.

(** C12: Every accepted connection and its lease have one owner at the end of its
    goroutine.  Either the goroutine keeps them: then its last use of the accepted
    connection is the one [Close], the lease is returned and no bond has a path for
    it.  Or a bond takes them: then the goroutine neither closes the connection nor
    returns the lease, and exactly one new path carries that same connection with
    the cleanup, either live, with the lease still held, or, if the bond had ended,
    closed once with its cleanup run once and the lease returned. *)
Theorem connection_owned_once vless bond is_dtls token l c w r w' :
  lease_valid (AcceptLoop.limiter (srv w)) → holds (AcceptLoop.limiter (srv w)) l = true →
  serve_connection vless bond is_dtls token l c w = (r, w') →
  ∃ c1, rtc touch c c1 ∧
  match r with
  | Some c' => c' = (conn_Close c1).2 ∧ lease_returned l w w' ∧ bond_paths w' ≡ₚ bond_paths w
  | None => bond_owns l c1 w w'
  end.
Proof.
  intros Hv Hh. unfold serve_connection. destruct (connection_body _ _ _ _ _ _ _) as [[c1|] w1] eqn:Eb;
    apply body_owns in Eb; try done; intros [= <- <-]; [|done].
  destruct Eb as (Ht & El & Hp). exists c1. split; [done|]. split; [done|]. split; [|done].
  unfold lease_returned. rewrite <-El. cbn. apply release_returns; by rewrite El.
Qed.

(** Whether the peer got through: the handshake and, if required, the token. *)
Definition authenticated (is_dtls : bool) (token : option bytes) (c : C) : bool :=
  is_dtls && match HandshakeContext c with
             | (None, c1) => match token with
                             | Some t => bool_decide ((Verify ctx_deadline t c1).1 = None)
                             | None => true
                             end
             | _ => false
             end.

(** C13: Nothing behind the server is reached without authentication: for a peer
    whose handshake or token fails, no handler runs, no bond gets a path, the
    connection is closed and its lease returned; a failed token is counted. *)
Theorem no_service_unauthenticated vless bond is_dtls token l c w r w' :
  authenticated is_dtls token c = false →
  serve_connection vless bond is_dtls token l c w = (r, w') →
  (∃ c', r = Some (conn_Close c').2) ∧ bonds w' = bonds w ∧
  AcceptLoop.limiter (srv w') = (release l (AcceptLoop.limiter (srv w))).2 ∧
  (events w' = events w ∨ events w' = events w ++ [Ev_AuthFailed]).
Proof.
  unfold authenticated, serve_connection, connection_body. intros Ha Hs.
  assert (∀ w1, (AcceptLoop.limiter (srv w1) = AcceptLoop.limiter (srv w)) →
    AcceptLoop.limiter (AcceptLoop.releaseConnection l (srv w1)) = (release l (AcceptLoop.limiter (srv w))).2) as Hr.
  { intros w1 E. unfold AcceptLoop.releaseConnection. rewrite E. by destruct (release l _) as [[] ?]. }
  destruct is_dtls; cbn [negb andb] in *.
  - destruct (HandshakeContext c) as [[e|] c1].
    { simplify_eq. cbn. split_and!; [by eexists|done|by apply Hr|by left]. }
    destruct token as [t|]; [|done]. destruct (Verify ctx_deadline t c1) as [[e|] c2] eqn:Ev; [|done].
    simplify_eq. cbn. split_and!; [by eexists|done|by apply (Hr (AuthFailed w))|by right].
  - simplify_eq. cbn. split_and!; [by eexists|done|by apply Hr|by left].
Qed.
End connection.
(** *** Witnesses *)

Definition sample_flags : serverFlags :=
  MkFlags true true false [] false 100 10 50 5 [] [] (str "token") false (Diagnostics.MkOptions [] [] false).

Definition sample_startup : result serverConfig * filesystem :=
  startup Tuning.default_globals Identity.sample_lib plain_env (λ p, p) None (λ _, Err not_exist)
    (λ _, Err not_exist) [] Metrics.zero_registry sample_flags Identity.no_files.

Lemma startup_safe_witness : ∃ c fs', sample_startup = (Ok c, fs') ∧
  ∃ t, clientAuthToken c = Some t ∧ LoadTokenFile plain_env (str "token") fs' = Ok t.
Proof.
  destruct sample_startup as [[c|e] fs'] eqn:E; [|exfalso; vm_compute in E; discriminate E].
  exists c, fs'. split; [reflexivity|].
  destruct (startup_safe Tuning.default_globals Identity.sample_lib plain_env (λ p, p) None (λ _, Err not_exist)
    (λ _, Err not_exist) [] Metrics.zero_registry sample_flags Identity.no_files c fs') as (_ & _ & _ & _ & _ & _ & _ & H);
    [reflexivity|split; reflexivity| |exact E|].
  - split; [apply Nat.leb_le; reflexivity|]. split; reflexivity || discriminate.
  - destruct (clientAuthToken c) as [t|]; [|destruct H as [H _]; discriminate H].
    exists t. split; [reflexivity|]. apply H.
Defined.

#[local] Existing Instances ConnLimiter.limiter_source ConnLimiter.limiter_laws.

(** One connection has its lease; no bond exists. *)
Definition sample_world : world (C := dgram) :=
  MkWorld (AcceptLoop.MkServer (ConnLimiter.Acquire (ConnLimiter.peer 1) (ConnLimiter.MkLimiter 2 1 0 ∅ [])).2
             Metrics.zero_registry 0) BondManager.empty_manager [].

Definition sample_serve (c : dgram) (handshake : option goerror) : option dgram * world :=
  serve_connection Tuning.default_globals None (λ c, (handshake, c)) (λ _ c, c) true true true None 0%nat c sample_world.

Lemma sample_world_valid : lease_valid (AcceptLoop.limiter (srv sample_world)).
Proof.
  apply (ConnLimiter.limiter_inv_step (ConnLimiter.MkLimiter 2 1 0 ∅ [])); [constructor|].
  by apply (ConnLimiter.inv_new 2 1).
Qed.

Lemma connection_owned_once_witness : ∃ w' p, sample_serve BondManager.hello_conn None = (None, w') ∧
  bond_paths w' ≡ₚ p :: bond_paths sample_world.
Proof.
  destruct (sample_serve BondManager.hello_conn None) as [[c|] w'] eqn:E; [exfalso; vm_compute in E; discriminate E|].
  destruct (connection_owned_once Tuning.default_globals None (λ c, (None, c)) (λ _ c, c) true true true None 0%nat
    BondManager.hello_conn sample_world None w' sample_world_valid (eq_refl true) E) as (c1 & _ & p & Hp & _).
  exists w', p. split; [reflexivity|exact Hp].
Defined.

Lemma no_service_unauthenticated_witness : ∃ r w', sample_serve BondManager.hello_conn (Some timeout_error) = (r, w') ∧
  bonds w' = bonds sample_world.
Proof.
  destruct (sample_serve BondManager.hello_conn (Some timeout_error)) as [r w'] eqn:E. exists r, w'. split; [reflexivity|].
  apply (no_service_unauthenticated Tuning.default_globals None (λ c, (Some timeout_error, c)) (λ _ c, c) true true true None
    0%nat BondManager.hello_conn sample_world r w' (eq_refl false) E).
Defined.
End ServerMain.
