(* ===== verification/UdpRelay.v ===== *)
(** * Relaying datagrams (server/main.go: handleUDPConnection, client/main.go:
    bridgeTURNPackets)

    Both functions run two readers, one per direction, a function registered
    with [context.AfterFunc] that lets the deadlines of both connections expire,
    and a caller that waits for the readers and then takes the deadlines back.
    The server has a watchdog besides (see [UdpIdle]); the client learns the
    address to answer to from the packets it reads.  [step] lets any of them
    move; the connections answer in any way, except that a read on a connection
    whose deadline has passed fails. *)

From S2P Require Import Prelude Pipe.

Module UdpRelay.
Import Pipe.

(** [ToRight] reads the left connection ([conn], the DTLS peer of the server; [pipeConn]
    of the client) and writes the right one ([serverConn]; [relayConn]). *)
Abbreviation direction := side.

Definition source (d : direction) : side := other d.

Inductive relay_kind := handleUDPConnection | bridgeTURNPackets.

Inductive reader_pc :=
  | R_none | R_top | R_read | R_write (p : bytes) | R_cancel | R_done.

Inductive watchdog_pc := W_none | W_wait | W_cancel | W_end | W_done.

Inductive main_pc :=
  | M_dial | M_wait | M_cancel | M_watchdog | M_stop | M_await | M_clear (s : side) | M_close | M_returned.

#[export] Instance watchdog_pc_eq_dec : EqDecision watchdog_pc.
Proof. solve_decision. Defined.
#[export] Instance reader_pc_eq_dec : EqDecision reader_pc.
Proof. solve_decision. Defined.

Record relay := MkRelay {
  parent_done : bool;            (* ctx *)
  cancelled : bool;              (* cancel2, bridgeCancel *)
  after : after_state;
  expired : side → bool;
  reader : direction → reader_pc;
  received : direction → list bytes;   (* packets read *)
  sent : direction → list bytes;       (* packets written *)
  peer_addr : option bytes;            (* internalPipeAddr *)
  touches : nat;                       (* activity.touch calls *)
  watchdog : watchdog_pc;
  server_closed : bool;                (* serverConn.Close was called *)
  main : main_pc;
}.

#[export] Instance relay_eta : Eta relay := λ r,
  MkRelay (parent_done r) (cancelled r) (after r) (expired r) (reader r) (received r) (sent r)
    (peer_addr r) (touches r) (watchdog r) (server_closed r) (main r).

Definition ctx_done (r : relay) : bool := cancelled r || parent_done r.

Definition set_reader (d : direction) (p : reader_pc) (r : relay) : relay := r <| reader := at_ d p (reader r) |>.

Section steps.
Context (k : relay_kind).

Definition start (cancelled_before : bool) : relay :=
  MkRelay cancelled_before false AfterIdle (λ _, false)
    (λ _, match k with handleUDPConnection => R_none | bridgeTURNPackets => R_top end)
    (λ _, []) (λ _, []) None 0 W_none false
    (match k with handleUDPConnection => M_dial | bridgeTURNPackets => M_wait end).

(** [net.Dial] returned; the goroutines start. *)
Definition dial_returns (ok : bool) (r : relay) : relay :=
  if ok then r <| reader := λ _, R_top |> <| watchdog := W_wait |> <| main := M_wait |>
  else r <| main := M_returned |>.

(** The head of a reader's loop; the bridge looks at the context first. *)
Definition reader_top (d : direction) (r : relay) : relay :=
  match k with
  | handleUDPConnection => set_reader d R_read r
  | bridgeTURNPackets => set_reader d (if ctx_done r then R_cancel else R_read) r
  end.

(** A packet was read, with its sender. *)
Definition packet_read (d : direction) (p : bytes) (addr : option bytes) (r : relay) : relay :=
  let r := r <| received := at_ d (received r d ++ [p]) (received r) |> in
  match k with
  | handleUDPConnection =>
      set_reader d (R_write p) (if decide (d = ToRight) then r <| touches ::= S |> else r)
  | bridgeTURNPackets =>
      if ctx_done r then set_reader d R_cancel r
      else if decide (d = ToRight) then
        set_reader d (R_write p) (match addr with Some a => r <| peer_addr := Some a |> | None => r end)
      else match peer_addr r with
           | None => set_reader d R_top r
           | Some _ => set_reader d (R_write p) r
           end
  end.

Definition write_returns (d : direction) (p : bytes) (ok : bool) (r : relay) : relay :=
  if ok then set_reader d R_top (r <| sent := at_ d (sent r d ++ [p]) (sent r) |>)
  else set_reader d R_cancel r.

(** The connections whose deadlines the function sets, in its order, and the
    caller clears. *)
Definition deadline_order : side * side :=
  match k with handleUDPConnection => (ToLeft, ToRight) | bridgeTURNPackets => (ToRight, ToLeft) end.

Inductive own_step (r : relay) : relay → Prop :=
  | own_dial ok : main r = M_dial → own_step r (dial_returns ok r)
  | own_top d : reader r d = R_top → own_step r (reader_top d r)
  | own_read_error d : reader r d = R_read → expired r (source d) = true →
      own_step r (set_reader d R_cancel r)
  | own_write d p ok : reader r d = R_write p → own_step r (write_returns d p ok r)
  | own_reader_end d : reader r d = R_cancel → own_step r (set_reader d R_done r <| cancelled := true |>)
  | own_watch_ctx : watchdog r = W_wait → ctx_done r = true → own_step r (r <| watchdog := W_end |>)
  | own_watch_cancel : watchdog r = W_cancel → own_step r (r <| cancelled := true |> <| watchdog := W_end |>)
  | own_watch_end : watchdog r = W_end → own_step r (r <| watchdog := W_done |>)
  | own_after_start : after r = AfterIdle → ctx_done r = true → reader r ToLeft ≠ R_none → own_step r (r <| after := AfterRunning 0 |>)
  | own_after_first : after r = AfterRunning 0 →
      own_step r (r <| expired := at_ deadline_order.1 true (expired r) |> <| after := AfterRunning 1 |>)
  | own_after_second : after r = AfterRunning 1 →
      own_step r (r <| expired := at_ deadline_order.2 true (expired r) |> <| after := AfterRunning 2 |>)
  | own_after_end : after r = AfterRunning 2 → own_step r (r <| after := AfterDone |>)
  | own_wait : main r = M_wait → (∀ d, reader r d = R_done) → own_step r (r <| main := M_cancel |>)
  | own_cancel : main r = M_cancel →
      own_step r (r <| cancelled := true |>
        <| main := match k with handleUDPConnection => M_watchdog | bridgeTURNPackets => M_stop end |>)
  | own_watchdog : main r = M_watchdog → watchdog r = W_done → own_step r (r <| main := M_stop |>)
  | own_stopped : main r = M_stop → after r = AfterIdle →
      own_step r (r <| after := AfterStopped |> <| main := M_clear deadline_order.1 |>)
  | own_not_stopped : main r = M_stop → after r ≠ AfterIdle → own_step r (r <| main := M_await |>)
  | own_deadline_done : main r = M_await → after r = AfterDone →
      own_step r (r <| main := M_clear deadline_order.1 |>)
  | own_clear s : main r = M_clear s →
      own_step r (r <| expired := at_ s false (expired r) |>
        <| main := if decide (s = deadline_order.1) then M_clear deadline_order.2
                   else match k with handleUDPConnection => M_close | bridgeTURNPackets => M_returned end |>)
  | own_close : main r = M_close → own_step r (r <| server_closed := true |> <| main := M_returned |>).

(** What a pending read meets on the network, and an idle session. *)
Inductive net_step (r : relay) : relay → Prop :=
  | net_packet d p addr : reader r d = R_read → expired r (source d) = false →
      net_step r (packet_read d p addr r)
  | net_error d : reader r d = R_read → net_step r (set_reader d R_cancel r)
  | net_idle : watchdog r = W_wait → net_step r (r <| watchdog := W_cancel |>).

Inductive step (r r' : relay) : Prop :=
  | step_own : own_step r r' → step r r'
  | step_net : net_step r r' → step r r'
  | step_parent : r' = r <| parent_done := true |> → step r r'.

Definition reachable (r : relay) : Prop := ∃ b, rtc step (start b) r.

(** ** Invariants *)

Definition both_done (r : relay) : Prop := ∀ d, reader r d = R_done.

Definition both_expired (r : relay) : Prop := ∀ s, expired r s = true.

(** The caller against the deadline function, the readers and the watchdog. *)
Definition main_ok (r : relay) : Prop :=
  match main r with
  | M_dial => k = handleUDPConnection ∧ after r = AfterIdle ∧ (∀ d, reader r d = R_none) ∧ watchdog r = W_none
  | M_wait => after r ≠ AfterStopped ∧ (∀ d, reader r d ≠ R_none) ∧
      (k = handleUDPConnection → watchdog r ≠ W_none)
  | M_cancel => after r ≠ AfterStopped ∧ both_done r ∧ (k = handleUDPConnection → watchdog r ≠ W_none)
  | M_watchdog => after r ≠ AfterStopped ∧ both_done r ∧ k = handleUDPConnection ∧ watchdog r ≠ W_none ∧ cancelled r = true
  | M_stop => after r ≠ AfterStopped ∧ both_done r ∧ (k = handleUDPConnection → watchdog r = W_done)
  | M_await => after r ≠ AfterStopped ∧ after r ≠ AfterIdle ∧ both_done r ∧ (k = handleUDPConnection → watchdog r = W_done)
  | M_clear s => (after r = AfterStopped ∨ after r = AfterDone) ∧ both_done r ∧
      (k = handleUDPConnection → watchdog r = W_done) ∧
      (s ≠ deadline_order.1 → expired r deadline_order.1 = false)
  | M_close => (after r = AfterStopped ∨ after r = AfterDone) ∧ both_done r ∧
      (k = handleUDPConnection → watchdog r = W_done) ∧ (∀ s, expired r s = false)
  | M_returned =>
      (∀ s, expired r s = false) ∧
      (after r = AfterIdle ∧ (∀ d, reader r d = R_none) ∧ watchdog r = W_none ∨
       (after r = AfterStopped ∨ after r = AfterDone) ∧ both_done r ∧
       (k = handleUDPConnection → watchdog r = W_done ∧ server_closed r = true))
  end.

(** How many deadlines have expired by the time the function is at [a]. *)
Definition after_expired (r : relay) : Prop :=
  match after r with
  | AfterRunning n => (n ≤ 2)%nat ∧ (main r = M_wait → ((1 ≤ n)%nat → expired r deadline_order.1 = true) ∧
                                     ((2 ≤ n)%nat → expired r deadline_order.2 = true))
  | AfterDone => main r = M_wait → ∀ s, expired r s = true
  | AfterIdle => ∀ s, expired r s = false
  | AfterStopped => True
  end.

Definition flow_inv (r : relay) : Prop :=
  main_ok r ∧ after_expired r ∧ (k = bridgeTURNPackets → watchdog r = W_none).

Lemma order_ne : deadline_order.1 ≠ deadline_order.2.
Proof. unfold deadline_order. by destruct k. Qed.

Lemma order_cover s : s = deadline_order.1 ∨ s = deadline_order.2.
Proof. unfold deadline_order. destruct k, s; auto. Qed.

Ltac relay_unfold := unfold flow_inv, main_ok, after_expired, both_done in *; cbn in *.

(** A reader that can move is one the caller waits for. *)
Lemma reader_waits r d : flow_inv r → reader r d ≠ R_none → reader r d ≠ R_done → main r = M_wait.
Proof. intros (Hm & _) H1 H2. unfold main_ok, both_done in Hm. destruct (main r); naive_solver. Qed.

Lemma flow_reader r d p r' : flow_inv r → reader r d ≠ R_none → reader r d ≠ R_done → p ≠ R_none →
  r' = r <| reader := at_ d p (reader r) |> <| cancelled := cancelled r' |> <| received := received r' |>
         <| sent := sent r' |> <| peer_addr := peer_addr r' |> <| touches := touches r' |> →
  flow_inv r'.
Proof.
  intros I H1 H2 Hp ->. pose proof (reader_waits r d I H1 H2) as Hm. destruct I as (I1 & I2 & I3).
  relay_unfold. rewrite Hm in *. split_and!; try apply I1; try done.
  intros t. unfold at_. case_decide; [done|]. by apply I1.
Qed.

Lemma watchdog_server r : flow_inv r → watchdog r ≠ W_none → k = handleUDPConnection.
Proof. intros (_ & _ & H) Hw. destruct k; [done|]. by destruct Hw; apply H. Qed.

(** A watchdog that can move is one the caller has not waited for yet. *)
Lemma flow_watchdog r w r' : flow_inv r → watchdog r ≠ W_none → watchdog r ≠ W_done → w ≠ W_none →
  cancelled r' = cancelled r ∨ cancelled r' = true →
  r' = r <| watchdog := w |> <| cancelled := cancelled r' |> → flow_inv r'.
Proof.
  intros I H1 H2 Hw Hc ->. pose proof (watchdog_server r I H1) as Ek. destruct I as (I1 & I2 & I3).
  relay_unfold. split; [|split; [done|congruence]]. destruct (main r); naive_solver.
Qed.

Lemma relay_flow_own r r' : own_step r r' → flow_inv r → flow_inv r'.
Proof.
  intros Hs I. pose proof order_ne as Hne. pose proof order_cover as Hcov.
  destruct Hs as [ok Hm|d Hd|d Hd He|d p ok Hd|d Hd|Hw Hc|Hw|Hw|Ha Hc Hr|Ha|Ha|Ha|Hm Hd|Hm|Hm Hw|Hm Ha|Hm Ha|Hm Ha|s Hm|Hm];
    try (by eapply (flow_watchdog r); [exact I|by rewrite Hw..| |by left + by right|destruct r; cbn; reflexivity]);
    try (by eapply (flow_reader r d); [exact I|by rewrite Hd..| |destruct r; cbn; reflexivity]).
  - destruct I as (I1 & I2 & I3). unfold dial_returns. relay_unfold. rewrite Hm in *.
    destruct I1 as (Ek & Ea & Hr & Hw). rewrite Ea in *.
    destruct ok; cbn; rewrite ?Ea; split_and!; try done; try naive_solver congruence.
  - unfold reader_top. destruct k eqn:Ek; [|destruct (ctx_done r)];
      (eapply (flow_reader r d); [exact I|by rewrite Hd..| |destruct r; cbn; reflexivity]); done.
  - unfold write_returns. destruct ok; (eapply (flow_reader r d); [exact I|by rewrite Hd..| |destruct r; cbn; reflexivity]); done.
  - destruct I as (I1 & I2 & I3). relay_unfold. rewrite Ha in *. clear Hcov Hne.
    split; [destruct (main r); naive_solver|]. split; [|done]. split; [lia|]. intros. split; lia.
  - destruct I as (I1 & I2 & I3). relay_unfold. rewrite Ha in *. clear Hcov Hne.
    split; [destruct (main r); naive_solver|]. split; [|done]. split; [lia|]. rewrite at_eq. intros. split; [done|lia].
  - destruct I as (I1 & I2 & I3). relay_unfold. rewrite Ha in *. clear Hcov.
    split; [clear Hne; destruct (main r); naive_solver|]. split; [|done]. split; [lia|].
    rewrite at_eq, at_ne by done. intros Hm. split; [|done]. intros _. apply I2; [done|lia].
  - destruct I as (I1 & I2 & I3). relay_unfold. rewrite Ha in *.
    split; [clear Hne Hcov; destruct (main r); naive_solver|]. split; [|done].
    intros Hm s. destruct (Hcov s) as [->| ->]; apply I2; lia || done.
  - destruct I as (I1 & I2 & I3). clear Hcov Hne. relay_unfold. rewrite Hm in *. destruct (after r); naive_solver.
  - destruct I as (I1 & I2 & I3). clear Hcov Hne. relay_unfold. rewrite Hm in *.
    split; [destruct k eqn:Ek; naive_solver|]. split; [destruct k, (after r); naive_solver|done].
  - destruct I as (I1 & I2 & I3). clear Hcov Hne. relay_unfold. rewrite Hm in *. destruct (after r); naive_solver.
  - destruct I as (I1 & I2 & I3). clear Hcov Hne. relay_unfold. rewrite Hm in *.
    naive_solver.
  - destruct I as (I1 & I2 & I3). clear Hcov Hne. relay_unfold. rewrite Hm in *. destruct (after r); naive_solver.
  - destruct I as (I1 & I2 & I3). clear Hcov Hne. relay_unfold. rewrite Hm, Ha in *. naive_solver.
  - destruct I as (I1 & I2 & I3). relay_unfold. rewrite Hm in I1. destruct I1 as (Ha & Hd & Hw & Hf).
    assert (after_expired (r <| expired := at_ s false (expired r) |>
      <| main := if decide (s = deadline_order.1) then M_clear deadline_order.2
                 else match k with handleUDPConnection => M_close | bridgeTURNPackets => M_returned end |>)) as Hx.
    { unfold after_expired. cbn. destruct Ha as [-> | ->]; [done|]. case_decide; [done|]. by destruct k. }
    split; [|by split]. case_decide as Hs.
    + subst s. split_and!; try done. intros _. apply at_eq.
    + assert (∀ t, at_ s false (expired r) t = false) as Hall.
      { intros t. unfold at_. case_decide as Ht; [done|]. destruct (Hcov s) as [?| ->]; [done|].
        destruct (Hcov t) as [->| ->]; [by apply Hf|done]. }
      destruct k; [done|]. split; [done|]. right. done.
  - destruct I as (I1 & I2 & I3). clear Hcov Hne. relay_unfold. rewrite Hm in *.
    destruct I1 as (Ha & Hd & Hw & Hx). split; [|split; [destruct (after r); naive_solver|done]].
    split; [done|]. right. naive_solver.
Qed.

Lemma flow_net r r' : net_step r r' → flow_inv r → flow_inv r'.
Proof.
  intros [d p addr Hd He|d Hd|Hw] I;
    [|eapply (flow_reader r d); [exact I|by rewrite Hd..| |destruct r; cbn; reflexivity]; done
     |eapply (flow_watchdog r); [exact I|by rewrite Hw..| |by left|destruct r; cbn; reflexivity]; done].
  unfold packet_read. change (ctx_done (r <| received := at_ d (received r d ++ [p]) (received r) |>)) with (ctx_done r).
  change (peer_addr (r <| received := at_ d (received r d ++ [p]) (received r) |>)) with (peer_addr r).
  destruct k eqn:Ek; [case_decide|destruct (ctx_done r); [|case_decide; [destruct addr|destruct (peer_addr r)]]];
    (eapply (flow_reader r d); [exact I|by rewrite Hd..| |destruct r; cbn; reflexivity]; done).
Qed.

Lemma relay_flow_start b : flow_inv (start b).
Proof. unfold start. relay_unfold. destruct k; cbn; naive_solver. Qed.

(** *** Packets *)

(** What was read and not sent: nothing, the packet in hand, or one lost at the end. *)
Definition tail_ok (p : reader_pc) (tail : list bytes) : Prop :=
  match p with
  | R_none | R_top | R_read => tail = []
  | R_write q => tail = [q]
  | R_cancel | R_done => (length tail ≤ 1)%nat
  end.

Definition packets_ok (r : relay) (d : direction) : Prop :=
  ∃ dropped tail, received r d = dropped ++ sent r d ++ tail ∧ tail_ok (reader r d) tail ∧
    (dropped = [] ∨ k = bridgeTURNPackets ∧ d = ToLeft).

(** Without an address to answer to, nothing has been answered. *)
Definition unanswered (r : relay) : Prop :=
  k = bridgeTURNPackets → peer_addr r = None → sent r ToLeft = [] ∧ ∀ p, reader r ToLeft ≠ R_write p.

Definition packets_inv (r : relay) : Prop := (∀ d, packets_ok r d) ∧ unanswered r.

Lemma packets_ext r r' : received r' = received r → sent r' = sent r → reader r' = reader r →
  peer_addr r' = peer_addr r → packets_inv r → packets_inv r'.
Proof. unfold packets_inv, packets_ok, unanswered. intros -> -> -> ->. done. Qed.

(** One reader moves on: its own packets, and what is known about answers. *)
Lemma packets_reader r r' d q : packets_inv r →
  reader r' = at_ d q (reader r) →
  (∀ d', d' ≠ d → received r' d' = received r d' ∧ sent r' d' = sent r d') →
  (∀ dropped tail, received r d = dropped ++ sent r d ++ tail → tail_ok (reader r d) tail →
     (dropped = [] ∨ k = bridgeTURNPackets ∧ d = ToLeft) →
     ∃ dropped' tail', received r' d = dropped' ++ sent r' d ++ tail' ∧ tail_ok q tail' ∧
       (dropped' = [] ∨ k = bridgeTURNPackets ∧ d = ToLeft)) →
  unanswered r' → packets_inv r'.
Proof.
  intros [I1 I2] Er Ho Hd Hu. split; [|done]. intros d'. destruct (decide (d' = d)) as [->|Hne].
  - destruct (I1 d) as (dr & tl & H1 & H2 & H3). destruct (Hd dr tl H1 H2 H3) as (dr' & tl' & H1' & H2' & H3').
    exists dr', tl'. rewrite Er, at_eq. done.
  - destruct (I1 d') as (dr & tl & H1 & H2 & H3). destruct (Ho d' Hne) as [E1 E2]. exists dr, tl.
    rewrite E1, E2, Er, at_ne by done. done.
Qed.

(** Moves that read and send nothing. *)
Lemma packets_quiet r r' d q : packets_inv r → reader r' = at_ d q (reader r) →
  received r' = received r → sent r' = sent r → peer_addr r' = peer_addr r →
  (∀ tail, tail_ok (reader r d) tail → tail_ok q tail) → (∀ p, q ≠ R_write p) → packets_inv r'.
Proof.
  intros I Er E1 E2 E3 Ht Hq. eapply packets_reader; [exact I|exact Er| | |].
  - intros d' _. by rewrite E1, E2.
  - rewrite E1, E2. intros dr tl H1 H2 H3. exists dr, tl. split_and!; auto.
  - destruct I as [_ I]. intros Hk Hp. rewrite E3 in Hp. destruct (I Hk Hp) as [H1 H2]. rewrite E2. split; [done|].
    intros p. rewrite Er. unfold at_. case_decide; [apply Hq|apply H2].
Qed.

Lemma packets_own r r' : own_step r r' → flow_inv r → packets_inv r → packets_inv r'.
Proof.
  intros Hs F I. destruct Hs as [ok Hm|d Hd|d Hd He|d p ok Hd|d Hd| | | | | | | | | | | | | | |];
    try (by apply (packets_ext r)).
  - destruct ok; [|by apply (packets_ext r)]. destruct F as (F & _). unfold main_ok in F. rewrite Hm in F.
    destruct F as (Ek & _ & Hr & _). destruct I as [I1 _]. split; [|intros E; congruence].
    intros d. destruct (I1 d) as (dr & tl & H1 & H2 & H3). exists dr, tl. rewrite Hr in H2. done.
  - assert (∃ q, reader_top d r = set_reader d q r ∧ (q = R_read ∨ q = R_cancel)) as (q & -> & Hq).
    { unfold reader_top. destruct k; [by eauto|]. destruct (ctx_done r); eauto. }
    eapply (packets_quiet r _ d q); try done; [|destruct Hq as [->| ->]; done].
    intros tl. rewrite Hd. destruct Hq as [->| ->]; [done|]. intros ->. cbn. lia.
  - eapply (packets_quiet r _ d R_cancel); try done. rewrite Hd. intros tl ->. cbn. lia.
  - destruct ok.
    + eapply (packets_reader r _ d R_top); [exact I|done| | |].
      * intros d' Hne. cbn. by rewrite at_ne.
      * cbn. rewrite at_eq, Hd. intros dr tl H1 H2 H3. cbn in H2. subst tl. exists dr, []. rewrite app_nil_r. split_and!; done.
      * intros Hk Hp. destruct I as [_ I]. destruct (I Hk Hp) as [H1 H2]. cbn. destruct (decide (d = ToLeft)) as [->|Hne].
        -- by destruct (H2 p).
        -- rewrite !at_ne by done. done.
    + eapply (packets_quiet r _ d R_cancel); try done. rewrite Hd. intros tl ->. cbn. lia.
  - eapply (packets_quiet r _ d R_done); try done. by rewrite Hd.
Qed.

Lemma packets_net r r' : net_step r r' → packets_inv r → packets_inv r'.
Proof.
  intros [d p addr Hd He|d Hd|Hw] I; [|eapply (packets_quiet r _ d R_cancel); try done; rewrite Hd; intros tl ->; cbn; lia|by apply (packets_ext r)].
  assert (∃ q, reader (packet_read d p addr r) = at_ d q (reader r) ∧
    received (packet_read d p addr r) = at_ d (received r d ++ [p]) (received r) ∧ sent (packet_read d p addr r) = sent r ∧
    (q = R_write p ∧ (k = bridgeTURNPackets → d = ToLeft → peer_addr (packet_read d p addr r) ≠ None) ∨ q = R_cancel ∨
     q = R_top ∧ k = bridgeTURNPackets ∧ d = ToLeft ∧ peer_addr r = None) ∧
    (peer_addr (packet_read d p addr r) = None → peer_addr r = None)) as (q & E1 & E2 & E3 & Hq & Hp).
  { unfold packet_read. change (ctx_done (r <| received := at_ d (received r d ++ [p]) (received r) |>)) with (ctx_done r).
    destruct k; [exists (R_write p); case_decide; split_and!; auto|].
    destruct (ctx_done r); [exists R_cancel; split_and!; auto|]. case_decide as Ed.
    - exists (R_write p). destruct addr; cbn; (split_and!; [done..| |done]); left; (split; [done|]); intros _ ?; congruence.
    - cbn. destruct (peer_addr r) eqn:Ep; [exists (R_write p)|exists R_top]; cbn; split_and!; auto.
      right. right. by destruct d. }
  eapply (packets_reader r _ d q); [exact I|exact E1| | |].
  - intros d' Hne. by rewrite E2, E3, at_ne.
  - rewrite E2, E3, at_eq, Hd. intros dr tl H1 -> H3. rewrite H1, app_nil_r, <-app_assoc.
    destruct Hq as [[-> _]|[-> |(-> & Hk & Hl & Hn)]].
    + by exists dr, [p].
    + exists dr, [p]. split; [done|]. split; [cbn; lia|done].
    + destruct I as [_ I]. destruct (I Hk Hn) as [Hs _]. rewrite Hl, Hs in *. exists (dr ++ [p]), [].
      rewrite app_nil_r. split; [done|]. split; [done|]. by right.
  - intros Hk Hn. destruct I as [_ I]. destruct (I Hk (Hp Hn)) as [H1 H2]. rewrite E3. split; [done|].
    intros p'. rewrite E1. unfold at_. case_decide as Hl; [|apply H2]. subst d.
    destruct Hq as [[_ Hq]|[->|(-> & _)]]; [by destruct (Hq Hk eq_refl)|done|done].
Qed.

Lemma packets_start b : packets_inv (start b).
Proof.
  split.
  - intros d. exists [], []. unfold start. cbn. split; [done|]. split; [by destruct k|by left].
  - unfold unanswered, start. cbn. intros Hk _. rewrite Hk. done.
Qed.

Lemma relay_inv r : reachable r → flow_inv r ∧ packets_inv r.
Proof.
  intros [b Hs]. assert (flow_inv (start b) ∧ packets_inv (start b)) as I by eauto using relay_flow_start, packets_start.
  clear -Hs I. induction Hs as [|r1 r2 r3 [Hs|Hs| ->] _ IH]; [done|..]; apply IH; destruct I as [I1 I2].
  - eauto using relay_flow_own, packets_own.
  - eauto using flow_net, packets_net.
  - done.
Qed.

(** ** Progress *)

Definition reader_rank (p : reader_pc) : nat :=
  match p with R_none | R_write _ => 5 | R_top => 4 | R_read => 3 | R_cancel => 1 | R_done => 0 end.

Definition watchdog_rank (w : watchdog_pc) : nat :=
  match w with W_none => 4 | W_wait => 3 | W_cancel => 2 | W_end => 1 | W_done => 0 end.

Definition after_rank (a : after_state) : nat :=
  match a with AfterIdle => 4 | AfterRunning n => 3 - n | _ => 0 end.

Definition main_rank (m : main_pc) : nat :=
  match m with
  | M_dial => 10 | M_wait => 9 | M_cancel => 8 | M_watchdog => 7 | M_stop => 6 | M_await => 5
  | M_clear s => if decide (s = deadline_order.1) then 4 else 3
  | M_close => 2 | M_returned => 0
  end.

Definition rank (r : relay) : nat :=
  (reader_rank (reader r ToLeft) + reader_rank (reader r ToRight) + watchdog_rank (watchdog r) +
   after_rank (after r) + main_rank (main r))%nat.

Lemma rank_reader r r' d q : reader r' = at_ d q (reader r) → watchdog r' = watchdog r → after r' = after r →
  main r' = main r → (reader_rank q < reader_rank (reader r d))%nat → (rank r' < rank r)%nat.
Proof.
  intros E1 E2 E3 E4 Hq. unfold rank. rewrite E1, E2, E3, E4. destruct d;
    rewrite at_eq, at_ne by done; lia.
Qed.

Lemma relay_own_rank r r' : own_step r r' → flow_inv r → (rank r' < rank r)%nat.
Proof.
  intros Hs F. pose proof order_ne as Hne.
  destruct Hs as [ok Hm|d Hd|d Hd He|d p ok Hd|d Hd|Hw Hc|Hw|Hw|Ha Hc Hr|Ha|Ha|Ha|Hm Hd|Hm|Hm Hw|Hm Ha|Hm Ha|Hm Ha|s Hm|Hm].
  - destruct F as (F & _). unfold main_ok in F. rewrite Hm in F. destruct F as (_ & _ & Hr & Hw).
    unfold rank. rewrite Hm, !Hr, Hw. destruct ok; cbn; rewrite ?Hr, ?Hw; cbn; lia.
  - unfold reader_top. destruct k; [|destruct (ctx_done r)];
      (eapply (rank_reader r _ d); [done..|rewrite Hd; cbn; lia]).
  - eapply (rank_reader r _ d); [done..|rewrite Hd; cbn; lia].
  - destruct ok; (eapply (rank_reader r _ d); [done..|rewrite Hd; cbn; lia]).
  - eapply (rank_reader r _ d); [done..|rewrite Hd; cbn; lia].
  - unfold rank; cbn; rewrite Hw; cbn; lia.
  - unfold rank; cbn; rewrite Hw; cbn; lia.
  - unfold rank; cbn; rewrite Hw; cbn; lia.
  - unfold rank; cbn; rewrite Ha; cbn; lia.
  - unfold rank; cbn; rewrite Ha; cbn; lia.
  - unfold rank; cbn; rewrite Ha; cbn; lia.
  - unfold rank; cbn; rewrite Ha; cbn; lia.
  - unfold rank; cbn; rewrite Hm; cbn; lia.
  - unfold rank; cbn; rewrite Hm; destruct k; cbn; lia.
  - unfold rank; cbn; rewrite Hm; cbn; lia.
  - unfold rank; cbn; rewrite Hm, Ha; cbn. rewrite decide_True by done. lia.
  - unfold rank; cbn; rewrite Hm; cbn; lia.
  - unfold rank; cbn; rewrite Hm, Ha; cbn. rewrite decide_True by done. lia.
  - unfold rank; cbn; rewrite Hm; cbn. destruct (decide (s = deadline_order.1)); cbn; [rewrite decide_False by done; lia|].
    destruct k; cbn; lia.
  - unfold rank; cbn; rewrite Hm; cbn; lia.
Qed.

(** A read that only the network can end. *)
Definition waiting_read (r : relay) (d : direction) : Prop := reader r d = R_read ∧ expired r (source d) = false.

Lemma wait_moves r : flow_inv r → main r = M_wait →
  (∃ r', own_step r r') ∨ (ctx_done r = false ∧ ∃ d, waiting_read r d).
Proof.
  intros (F1 & F2 & _) Hm. unfold main_ok in F1. rewrite Hm in F1. destruct F1 as (Ha & Hn & _).
  assert (∀ d, (∃ r', own_step r r') ∨ reader r d = R_done ∨ (reader r d = R_read ∧ expired r (source d) = false)) as Hr.
  { intros d. destruct (reader r d) eqn:Hd.
    - by destruct (Hn d).
    - left. eexists. by eapply own_top.
    - destruct (expired r (source d)) eqn:He; [left; eexists; by eapply own_read_error|by right; right].
    - left. eexists. by eapply (own_write r d p true).
    - left. eexists. by eapply own_reader_end.
    - by right; left. }
  destruct (Hr ToLeft) as [|HL]; [by left|]. destruct (Hr ToRight) as [|HR]; [by left|].
  assert (reader r ToLeft = R_done ∧ reader r ToRight = R_done ∨ ∃ d, waiting_read r d) as [[E1 E2]|[d [Hd He]]].
  { unfold waiting_read. naive_solver. }
  { left. eexists. apply own_wait; [done|]. by intros []. }
  destruct (ctx_done r) eqn:Hc; [|right; split; [done|by exists d]]. left.
  unfold after_expired in F2. destruct (after r) as [| |n|] eqn:Ea.
  - eexists. apply own_after_start; done.
  - done.
  - destruct F2 as [Hle _]. destruct n as [|[|[|n]]]; [..|lia].
    + eexists. by apply own_after_first.
    + eexists. by apply own_after_second.
    + eexists. by apply own_after_end.
  - rewrite F2 in He by done. done.
Qed.

Lemma relay_moves r : flow_inv r →
  main r = M_returned ∨ (∃ r', own_step r r') ∨ (ctx_done r = false ∧ ∃ d, waiting_read r d).
Proof.
  intros F. destruct (main r) eqn:Hm; try (by left); right; try (by apply wait_moves); left; destruct F as (F1 & F2 & F3);
    unfold main_ok in F1; rewrite Hm in F1.
  - exists (dial_returns false r). by constructor.
  - eexists. by apply own_cancel.
  - destruct F1 as (_ & _ & _ & Hw & Hc). destruct (watchdog r) eqn:Ew; [done| | | |]; eexists.
    + apply own_watch_ctx; [done|]. unfold ctx_done. by rewrite Hc.
    + by apply own_watch_cancel.
    + by apply own_watch_end.
    + by apply own_watchdog.
  - assert (after r = AfterIdle ∨ after r ≠ AfterIdle) as [Ha|Ha] by (destruct (after r); auto; by right);
      eexists; [by apply own_stopped|by apply own_not_stopped].
  - unfold after_expired in F2. destruct F1 as (Hs & Hi & _). destruct (after r) as [| |n|] eqn:Ea; [done|done| |].
    + destruct F2 as [Hle _]. destruct n as [|[|[|n]]]; [..|lia]; eexists;
        [by apply own_after_first|by apply own_after_second|by apply own_after_end].
    + eexists. by apply own_deadline_done.
  - eexists. by apply own_clear.
  - eexists. by apply own_close.
Qed.

(** ** Theorems *)

(** C25: The relays end cleanly: when [handleUDPConnection] or [bridgeTURNPackets]
    returns, both readers have ended, the watchdog too, no deadline it let
    expire is left on either connection and none will be set later, so that
    neither connection loses a packet to it afterwards: nothing the relay
    could still do changes its state. *)
Theorem relay_returns_clean r : reachable r → main r = M_returned →
  (∀ s, expired r s = false) ∧ (∀ d, reader r d = R_done ∨ reader r d = R_none) ∧
  (watchdog r = W_done ∨ watchdog r = W_none) ∧
  (k = handleUDPConnection → reader r ToLeft = R_done → server_closed r = true) ∧
  (∀ r', own_step r r' ∨ net_step r r' → False).
Proof.
  intros [(F1 & F2 & F3) _]%relay_inv Hm. unfold main_ok in F1. rewrite Hm in F1. destruct F1 as (Hx & F1).
  split; [done|]. destruct F1 as [(Ha & Hr & Hw)|(Ha & Hd & Hw)].
  - split; [by right|]. split; [by right|]. split; [by rewrite Hr|].
    intros r' [Hs|Hs]; destruct Hs; try congruence; by rewrite Hr in *.
  - split; [by left|]. assert (watchdog r = W_done ∨ watchdog r = W_none) as Hw'.
    { destruct k; [left; by apply Hw|right; by apply F3]. }
    split; [done|]. split; [intros Hk _; by apply Hw|].
    intros r' [Hs|Hs]; destruct Hs; try congruence; unfold both_done in Hd; try (by rewrite Hd in *);
      try (by destruct Ha; congruence); destruct Hw'; congruence.
Qed.

(** Packets are relayed whole, in order and at most once: at any time what a
    direction sent is what it received, in the same order, except for the packet
    in hand or lost when the relay ended, and, in the client's direction from
    the relay, for the packets that came before any packet went out. *)
Theorem relay_in_order r d : reachable r →
  ∃ dropped tail, received r d = dropped ++ sent r d ++ tail ∧ (length tail ≤ 1)%nat ∧
    (dropped = [] ∨ k = bridgeTURNPackets ∧ d = ToLeft).
Proof.
  intros [_ [I _]]%relay_inv. destruct (I d) as (dr & tl & H1 & H2 & H3). exists dr, tl. split; [done|].
  split; [|done]. destruct (reader r d); cbn in H2; subst; cbn; lia.
Qed.

(** A relay ends once its context is done: unless it has returned, a goroutine
    of it can move by itself, or the context is live and a reader waits for the
    network; every such move lowers a rank. *)
Theorem relay_ends r : reachable r →
  (main r = M_returned ∨ (∃ r', own_step r r') ∨ (ctx_done r = false ∧ ∃ d, waiting_read r d)) ∧
  (∀ r', own_step r r' → (rank r' < rank r)%nat).
Proof.
  intros [F _]%relay_inv. split; [by apply relay_moves|]. intros r' Hs. by apply relay_own_rank.
Qed.
End steps.
(** *** Witnesses *)

(** The client's bridge: a packet from the relay comes too early, one goes out,
    the next from the relay is answered; then the context ends. *)
Definition hello_packet : bytes := str "hello".

Lemma bridge_run : ∃ r, reachable bridgeTURNPackets r ∧ main r = M_returned ∧
  received r ToLeft = [str "early"; str "reply"] ∧ sent r ToLeft = [str "reply"] ∧ sent r ToRight = [hello_packet].
Proof.
  eexists. split; [exists false|].
  - eapply rtc_l; [apply step_own; by eapply (own_top _ _ ToLeft)|].
    eapply rtc_l; [apply step_net; by eapply (net_packet _ _ ToLeft (str "early") None)|].
    eapply rtc_l; [apply step_own; by eapply (own_top _ _ ToRight)|].
    eapply rtc_l; [apply step_net; by eapply (net_packet _ _ ToRight hello_packet (Some (str "pipe")))|].
    eapply rtc_l; [apply step_own; by eapply (own_write _ _ ToRight hello_packet true)|].
    eapply rtc_l; [apply step_own; by eapply (own_top _ _ ToLeft)|].
    eapply rtc_l; [apply step_net; by eapply (net_packet _ _ ToLeft (str "reply") None)|].
    eapply rtc_l; [apply step_own; by eapply (own_write _ _ ToLeft (str "reply") true)|].
    eapply rtc_l; [by apply step_parent|].
    eapply rtc_l; [apply step_own; by eapply (own_top _ _ ToLeft)|].
    eapply rtc_l; [apply step_own; by eapply (own_top _ _ ToRight)|].
    eapply rtc_l; [apply step_own; by eapply (own_reader_end _ _ ToLeft)|].
    eapply rtc_l; [apply step_own; by eapply (own_reader_end _ _ ToRight)|].
    eapply rtc_l; [apply step_own; eapply own_wait; [done|by intros []]|].
    eapply rtc_l; [apply step_own; by eapply own_cancel|].
    eapply rtc_l; [apply step_own; by eapply own_stopped|].
    eapply rtc_l; [apply step_own; by eapply own_clear|].
    eapply rtc_l; [apply step_own; by eapply own_clear|]. apply rtc_refl.
  - done.
Qed.

Lemma relay_returns_clean_witness : ∃ r, reachable bridgeTURNPackets r ∧ main r = M_returned ∧ expired r ToLeft = false.
Proof.
  destruct bridge_run as (r & Hr & Hm & _). exists r. split; [exact Hr|]. split; [exact Hm|].
  apply (relay_returns_clean bridgeTURNPackets r Hr Hm).
Defined.

Lemma relay_in_order_witness : ∃ r dropped tail, reachable bridgeTURNPackets r ∧ sent r ToLeft = [str "reply"] ∧
  received r ToLeft = dropped ++ sent r ToLeft ++ tail.
Proof.
  destruct bridge_run as (r & Hr & _ & _ & Hs & _).
  destruct (relay_in_order bridgeTURNPackets r ToLeft Hr) as (dropped & tail & H & _).
  exists r, dropped, tail. split; [exact Hr|]. split; [exact Hs|exact H].
Defined.

Lemma relay_ends_witness : ∃ r, reachable bridgeTURNPackets r ∧
  ∀ r', own_step bridgeTURNPackets r r' → (rank bridgeTURNPackets r' < rank bridgeTURNPackets r)%nat.
Proof.
  destruct bridge_run as (r & Hr & _). exists r. split; [exact Hr|]. apply (relay_ends bridgeTURNPackets r Hr).
Defined.
End UdpRelay.
