(* ===== verification/ClientSessions.v ===== *)
(** * Sessions of the client (client/main.go, client/dtls_config.go)

    How the client builds a path through TURN and DTLS to a smux session and
    takes it down again ([createDTLSConnection], [createSmuxSession], [dtlsFunc],
    [oneTurnConnection]), and the loops that keep such sessions alive.  What the
    TURN, DTLS, KCP and smux libraries answer is given by [calls]; the effects
    are a log of the resources opened and closed. *)

From S2P Require Import Prelude GoStrings GoIP Metrics DtlsAuth ClientCreds ClientPool.

Module ClientSessions.

(** ** Effects *)

Inductive resource :=
  | TurnSocket      (* connection to the TURN server *)
  | TurnClient
  | RelayConn       (* the allocation *)
  | DtlsConn
  | StreamSlot      (* connectedStreams *)
  | HandshakeSlot   (* handshakeSem *)
  | KcpSession
  | SmuxSession.

#[export] Instance resource_eq_dec : EqDecision resource.
Proof. solve_decision. Defined.

Inductive effect := Open (r : resource) | Close (r : resource).

Record world := MkWorld {
  log : list effect;
  connectedStreams : Z;
  credentials : ClientCreds.store;
  registry : Metrics.Registry;
}.

#[export] Instance world_eta : Eta world := λ w,
  MkWorld (log w) (connectedStreams w) (credentials w) (registry w).

Definition opens (r : resource) (w : world) : world :=
  w <| log ::= (λ l, l ++ [Open r]) |>
    <| connectedStreams ::= (λ n, if decide (r = StreamSlot) then n + 1 else n) |>.

Definition closes (r : resource) (w : world) : world :=
  w <| log ::= (λ l, l ++ [Close r]) |>
    <| connectedStreams ::= (λ n, if decide (r = StreamSlot) then n - 1 else n) |>.

(** [for i := len(cleanupFns) - 1; i >= 0; i-- { cleanupFns[i]() }] *)
Definition run_cleanups (fns : list resource) (w : world) : world := foldr closes w fns.

(** What is open after a log, innermost first; [None] when something is closed
    that is not the innermost open resource. *)
Fixpoint replay (l : list effect) (stack : list resource) : option (list resource) :=
  match l with
  | [] => Some stack
  | Open r :: l => replay l (r :: stack)
  | Close r :: l =>
      match stack with
      | top :: rest => if decide (top = r) then replay l rest else None
      | [] => None
      end
  end.

(** ** The libraries' answers *)

Record turnParams := MkParams {
  host : bytes; port : bytes; link : bytes; udp : bool;
  dtlsAuthentication : DtlsAuth.ClientAuthentication;
  clientAuthToken : option bytes;
}.

Record calls := MkCalls {
  getCreds : bytes → Z → result (bytes * bytes * bytes);
  ResolveUDPAddr : bytes → result bytes;
  Dial : bool → bytes → result unit;
  turn_NewClient : result unit;
  turn_Listen : result unit;
  turn_Allocate : result unit;
  GenerateSelfSigned : result bytes;
  dtls_Client : result unit;
  Handshake : result unit;
  Authenticate : bytes → result unit;
  NewKCPOverDTLS : result unit;
  smux_Client : result unit;
  now : Z;
}.

(** The address of the TURN server: that of the credentials, with what the
    flags replace. *)
Definition turn_address (tp : turnParams) (urlhost urlport : bytes) : bytes :=
  JoinHostPort (if bool_decide (host tp = []) then urlhost else host tp)
               (if bool_decide (port tp = []) then urlport else port tp).

(** ** DTLS options (dtls_config.go) *)

Inductive dtls_option :=
  | WithCertificates (c : bytes)
  | WithExtendedMasterSecret
  | WithCipherSuites (suites : list bytes)
  | WithConnectionIDGenerator
  | Authentication (o : DtlsAuth.client_option).

Definition clientDTLSOptions (Sum256 : bytes → bytes) (certificate : bytes) (a : DtlsAuth.ClientAuthentication) : result (list dtls_option) :=
  let? authenticationOptions := DtlsAuth.Options Sum256 a in
  Ok ([WithCertificates certificate; WithExtendedMasterSecret;
       WithCipherSuites [str "TLS_ECDHE_ECDSA_WITH_AES_128_GCM_SHA256"; str "TLS_ECDHE_RSA_WITH_AES_128_GCM_SHA256"];
       WithConnectionIDGenerator] ++ (Authentication <$> authenticationOptions)).

Section create.
Context (Sum256 : bytes → bytes) (tp : turnParams) (streamsPerCache id : Z) (c : calls).

Definition err_of {A} (r : result A) : option goerror := match r with Ok _ => None | Err e => Some e end.

Definition record_allocation (w : world) : world :=
  let '(st, reg) := ClientCreds.recordTURNAllocationResult (ClientCreds.getCacheID streamsPerCache id) (now c)
                      (err_of (turn_Allocate c)) (credentials w) (registry w) in
  w <| credentials := st |> <| registry := reg |>.

(** A failure after [cleanupFns] has grown: [cleanup(); return nil, nil, err]. *)
Definition fails {A} (fns : list resource) (e : goerror) (w : world) : result A * world :=
  (Err e, run_cleanups fns w).

(** [createDTLSConnection]; on success the functions its cleanup will call. *)
Definition createDTLSConnection (w : world) : result (list resource) * world :=
  match getCreds c (link tp) id with
  | Err e => (Err (errorf_w (str "get TURN creds: ") e), w)
  | Ok (user, pass, rawURL) =>
  match SplitHostPort rawURL with
  | Err e => (Err (errorf_w (str "parse TURN addr: ") e), w)
  | Ok (urlhost, urlport) =>
  match ResolveUDPAddr c (turn_address tp urlhost urlport) with
  | Err e => (Err (errorf_w (str "resolve TURN addr: ") e), w)
  | Ok turnServerAddr =>
  match Dial c (udp tp) turnServerAddr with
  | Err e => (Err (errorf_w (if udp tp then str "dial TURN (udp): " else str "dial TURN (tcp): ") e), w)
  | Ok _ =>
  let w := opens TurnSocket w in
  match turn_NewClient c with
  | Err e => fails [TurnSocket] (errorf_w (str "create TURN client: ") e) w
  | Ok _ =>
  let w := opens TurnClient w in
  match turn_Listen c with
  | Err e => fails [TurnSocket; TurnClient] (errorf_w (str "TURN listen: ") e) w
  | Ok _ =>
  let w := record_allocation w in
  match turn_Allocate c with
  | Err e => fails [TurnSocket; TurnClient] (errorf_w (str "TURN allocate: ") e) w
  | Ok _ =>
  let w := opens RelayConn w in
  let fns := [TurnSocket; TurnClient; RelayConn] in
  match GenerateSelfSigned c with
  | Err e => fails fns (errorf_w (str "generate cert: ") e) w
  | Ok certificate =>
  match clientDTLSOptions Sum256 certificate (dtlsAuthentication tp) with
  | Err e => fails fns (errorf_w (str "DTLS authentication config: ") e) w
  | Ok _ =>
  match dtls_Client c with
  | Err e => fails fns (errorf_w (str "DTLS client create: ") e) w
  | Ok _ =>
  let w := opens DtlsConn w in
  match Handshake c with
  | Err e => fails fns (errorf_w (str "DTLS handshake: ") e) (closes DtlsConn w)
  | Ok _ =>
  match match clientAuthToken tp with Some t => Authenticate c t | None => Ok () end with
  | Err e => fails fns (errorf_w (str "authenticate client: ") e) (closes DtlsConn w)
  | Ok _ => (Ok (fns ++ [DtlsConn; StreamSlot]), opens StreamSlot w)
  end end end end end end end end end end end end.

(** The cleanup of a DTLS connection, guarded by its [sync.Once]. *)
Record cleanup := MkCleanup { fns : list resource; once : bool }.

Definition run_once (cl : cleanup) (w : world) : cleanup * world :=
  if once cl then (cl, w) else (MkCleanup (fns cl) true, run_cleanups (fns cl) w).

(** [cleanupAll] of [createSmuxSession]: what was opened on top, then the
    connection's cleanup. *)
Definition cleanup_all (cl : cleanup) (above : list resource) (w : world) : cleanup * world :=
  run_once cl (run_cleanups above w).

Definition createSmuxSession (w : world) : result (cleanup * list resource) * world :=
  match createDTLSConnection w with
  | (Err e, w) => (Err e, w)
  | (Ok f, w) =>
      let cl := MkCleanup f false in
      match NewKCPOverDTLS c with
      | Err e => (Err (errorf_w (str "KCP session: ") e), (cleanup_all cl [] w).2)
      | Ok _ =>
          let w := opens KcpSession w in
          match smux_Client c with
          | Err e => (Err (errorf_w (str "smux client: ") e), (cleanup_all cl [KcpSession] w).2)
          | Ok _ => (Ok (cl, [KcpSession; SmuxSession]), opens SmuxSession w)
          end
      end
  end.
(** [dtlsFunc]: a handshake holds one of the slots of [handshakeSem]; the
    connection is left open on success only. *)
Definition dtlsFunc (slot : result unit) (w : world) : result unit * world :=
  match GenerateSelfSigned c with
  | Err e => (Err e, w)
  | Ok certificate =>
  match clientDTLSOptions Sum256 certificate (dtlsAuthentication tp) with
  | Err e => (Err e, w)
  | Ok _ =>
  match slot with
  | Err e => (Err e, w)
  | Ok _ =>
  let w := opens HandshakeSlot w in
  let '(r, w) :=
    match dtls_Client c with
    | Err e => (Err e, w)
    | Ok _ =>
        let w := opens DtlsConn w in
        match Handshake c with
        | Err e => (Err e, closes DtlsConn w)
        | Ok _ =>
            match match clientAuthToken tp with Some t => Authenticate c t | None => Ok () end with
            | Err e => (Err (errorf_w (str "authenticate client: ") e), closes DtlsConn w)
            | Ok _ => (Ok (), w)
            end
        end
    end in
  (r, closes HandshakeSlot w)
  end end end.

(** [fmt.Errorf("...: %s", err)]: the text only. *)
Definition errorf_s (prefix : bytes) (e : goerror) : goerror := errorf (prefix ++ err_text e).

(** The deferred [Close] of [oneTurnConnection]: its error replaces the result. *)
Definition deferred_close (r : resource) (prefix : bytes) (closed : option goerror) (res : option goerror * world)
  : option goerror * world :=
  let '(err, w) := res in
  (match closed with Some e => Some (errorf_s prefix e) | None => err end, closes r w).

(** The body under the socket's deferred close; [relay_close]: what closing the
    allocation answers. *)
Definition allocate_and_bridge (relay_close : option goerror) (w : world) : option goerror * world :=
  match turn_NewClient c with
  | Err e => (Some (errorf_s (str "failed to create TURN client: ") e), w)
  | Ok _ =>
      let w := opens TurnClient w in
      let '(err, w) :=
        match turn_Listen c with
        | Err e => (Some (errorf_s (str "failed to listen: ") e), w)
        | Ok _ =>
            let w := record_allocation w in
            match turn_Allocate c with
            | Err e => (Some (errorf_s (str "failed to allocate: ") e), w)
            | Ok _ =>
                (* bridgeTURNPackets runs here *)
                deferred_close RelayConn (str "failed to close TURN allocated connection: ") relay_close
                  (None, closes StreamSlot (opens StreamSlot (opens RelayConn w)))
            end
        end in
      (err, closes TurnClient w)
  end.

(** [oneTurnConnection], with the error it sends; [delay]: the context ended
    during the first wait. *)
Definition oneTurnConnection (delay relay_close socket_close : option goerror) (w : world) : option goerror * world :=
  match delay with
  | Some e => (Some e, w)
  | None =>
  match getCreds c (link tp) id with
  | Err e => (Some (errorf_s (str "failed to get TURN credentials: ") e), w)
  | Ok (user, pass, urlTarget) =>
  match SplitHostPort urlTarget with
  | Err e => (Some (errorf_s (str "failed to parse TURN server address: ") e), w)
  | Ok (urlhost, urlport) =>
  match ResolveUDPAddr c (turn_address tp urlhost urlport) with
  | Err e => (Some (errorf_s (str "failed to resolve TURN server address: ") e), w)
  | Ok turnServerAddr =>
  match Dial c (udp tp) turnServerAddr with
  | Err e => (Some (errorf_s (str "failed to connect to TURN server: ") e), w)
  | Ok _ =>
      deferred_close TurnSocket (str "failed to close TURN server connection: ") socket_close
        (allocate_and_bridge relay_close (opens TurnSocket w))
  end end end end end.
(** ** What they leave open *)

(** The effects of a call, and what it adds to the stack of open resources. *)
Definition leaves (w w' : world) (opened : list resource) : Prop :=
  ∃ l, log w' = log w ++ l ∧ (∀ st, replay l st = Some (rev opened ++ st)) ∧
    connectedStreams w' = connectedStreams w + Z.of_nat (count (λ r, bool_decide (r = StreamSlot)) opened).

Lemma effects_replay_app l k st : replay (l ++ k) st = replay l st ≫= replay k.
Proof.
  revert st. induction l as [|[r|r] l IH]; intros st; cbn; [done|by rewrite IH|].
  destruct st as [|top st]; [done|]. case_decide; [by rewrite IH|done].
Qed.

Lemma leaves_refl w : leaves w w [].
Proof. exists []. cbn. rewrite app_nil_r. split_and!; [done|done|lia]. Qed.

Lemma leaves_opens w w' o r : leaves w w' o → leaves w (opens r w') (o ++ [r]).
Proof.
  intros (l & H1 & H2 & H3). exists (l ++ [Open r]). cbn. rewrite H1, app_assoc. split; [done|]. split.
  - intros st. by rewrite effects_replay_app, H2, rev_app_distr.
  - rewrite H3, count_app. cbn. case_bool_decide; case_decide; simplify_eq; lia.
Qed.

Lemma leaves_closes w w' o r : leaves w w' (o ++ [r]) → leaves w (closes r w') o.
Proof.
  intros (l & H1 & H2 & H3). exists (l ++ [Close r]). cbn. rewrite H1, app_assoc. split; [done|]. split.
  - intros st. rewrite effects_replay_app, H2, rev_app_distr. cbn. by rewrite decide_True.
  - rewrite H3, count_app. cbn. case_bool_decide; case_decide; simplify_eq; lia.
Qed.

Lemma leaves_cleanups w w' o fns : leaves w w' (o ++ fns) → leaves w (run_cleanups fns w') o.
Proof.
  revert o. induction fns as [|r fns IH]; intros o H; cbn; [by rewrite app_nil_r in H|].
  apply leaves_closes, IH. by rewrite <-app_assoc.
Qed.

Lemma leaves_record w w' o : leaves w w' o → leaves w (record_allocation w') o.
Proof.
  unfold record_allocation. destruct (ClientCreds.recordTURNAllocationResult _ _ _ _ _). done.
Qed.

(** What is left open by a call that succeeds with [o], or fails. *)
Lemma createDTLS_leaves w : let '(r, w') := createDTLSConnection w in
  leaves w w' (match r with Ok f => f | Err _ => [] end).
Proof.
  unfold createDTLSConnection, fails.
  destruct (getCreds c (link tp) id) as [[[user pass] rawURL]|]; [|apply leaves_refl].
  destruct (SplitHostPort rawURL) as [[h p]|]; [|apply leaves_refl].
  destruct (ResolveUDPAddr c _) as [addr|]; [|apply leaves_refl].
  destruct (Dial c _ _); [|apply leaves_refl].
  pose proof (leaves_opens w w [] TurnSocket (leaves_refl w)) as L1. set (w1 := opens TurnSocket w) in *. clearbody w1.
  destruct (turn_NewClient c); [|by apply (leaves_cleanups _ _ [])].
  apply (leaves_opens _ _ _ TurnClient) in L1. set (w2 := opens TurnClient w1) in *. clearbody w2.
  destruct (turn_Listen c); [|by apply (leaves_cleanups _ _ [])].
  apply leaves_record in L1. set (w3 := record_allocation w2) in *. clearbody w3.
  destruct (turn_Allocate c); [|by apply (leaves_cleanups _ _ [])].
  apply (leaves_opens _ _ _ RelayConn) in L1. set (w4 := opens RelayConn w3) in *. clearbody w4.
  destruct (GenerateSelfSigned c); [|by apply (leaves_cleanups _ _ [])].
  destruct (clientDTLSOptions _ _ _); [|by apply (leaves_cleanups _ _ [])].
  destruct (dtls_Client c); [|by apply (leaves_cleanups _ _ [])].
  pose proof (leaves_opens _ _ _ DtlsConn L1) as L2. set (w5 := opens DtlsConn w4) in *. clearbody w5.
  pose proof (leaves_closes _ _ _ _ L2) as L3.
  destruct (Handshake c); [|by apply (leaves_cleanups _ _ [])].
  destruct (match clientAuthToken tp with Some t => Authenticate c t | None => Ok () end); [|by apply (leaves_cleanups _ _ [])].
  apply (leaves_opens _ _ _ StreamSlot) in L2. exact L2.
Qed.

Definition dtls_layers : list resource := [TurnSocket; TurnClient; RelayConn; DtlsConn; StreamSlot].

Lemma createDTLS_ok w f w' : createDTLSConnection w = (Ok f, w') → f = dtls_layers.
Proof. unfold createDTLSConnection, fails. intros. repeat case_match; simplify_eq/=; done. Qed.

(** C27: Building a session never leaks: [createSmuxSession] either fails with every
    connection, client, allocation and session it had opened closed again,
    innermost first, and the stream counter restored; or succeeds with all of
    them open, and its cleanup closes exactly those, innermost first.  The part
    below KCP is closed once however often the cleanup is called. *)
Theorem session_setup_balanced w : let '(r, w') := createSmuxSession w in
  match r with
  | Err _ => leaves w w' []
  | Ok (cl, above) =>
      leaves w w' [TurnSocket; TurnClient; RelayConn; DtlsConn; StreamSlot; KcpSession; SmuxSession] ∧
      leaves w (cleanup_all cl above w').2 [] ∧
      ∀ w2, (run_once (cleanup_all cl above w').1 w2).2 = w2
  end.
Proof.
  unfold createSmuxSession. pose proof (createDTLS_leaves w) as L.
  destruct (createDTLSConnection w) as [[f|e] w1] eqn:E; [|done]. apply createDTLS_ok in E as ->.
  destruct (NewKCPOverDTLS c); [|by apply (leaves_cleanups _ _ [])].
  apply (leaves_opens _ _ _ KcpSession) in L. set (w2 := opens KcpSession w1) in *. clearbody w2.
  assert (∀ ab w3, leaves w w3 (dtls_layers ++ ab) → leaves w (cleanup_all (MkCleanup dtls_layers false) ab w3).2 []) as Hall.
  { intros ab w3 H. by apply (leaves_cleanups _ _ []), leaves_cleanups. }
  destruct (smux_Client c); [|by apply Hall]. apply (leaves_opens _ _ _ SmuxSession) in L.
  split; [exact L|]. split; [by apply Hall|done].
Qed.

(** The relay of one TURN allocation leaves nothing open, whatever fails. *)
Lemma oneTurn_leaves delay relay_close socket_close w :
  leaves w (oneTurnConnection delay relay_close socket_close w).2 [].
Proof.
  unfold oneTurnConnection. destruct delay; [apply leaves_refl|].
  destruct (getCreds c (link tp) id) as [[[user pass] rawURL]|]; [|apply leaves_refl].
  destruct (SplitHostPort rawURL) as [[h p]|]; [|apply leaves_refl].
  destruct (ResolveUDPAddr c _) as [addr|]; [|apply leaves_refl].
  destruct (Dial c _ _); [|apply leaves_refl]. unfold deferred_close.
  destruct (allocate_and_bridge relay_close (opens TurnSocket w)) as [err w'] eqn:E. cbn.
  apply leaves_closes. cbn. replace w' with (allocate_and_bridge relay_close (opens TurnSocket w)).2 by by rewrite E.
  clear E. pose proof (leaves_opens w w [] TurnSocket (leaves_refl w)) as L. cbn in L.
  set (w1 := opens TurnSocket w) in *. clearbody w1. unfold allocate_and_bridge.
  destruct (turn_NewClient c); [|done]. apply (leaves_opens _ _ _ TurnClient) in L.
  set (w2 := opens TurnClient w1) in *. clearbody w2.
  destruct (turn_Listen c); [|by apply leaves_closes].
  apply leaves_record in L. set (w3 := record_allocation w2) in *. clearbody w3.
  destruct (turn_Allocate c); [|by apply leaves_closes]. cbn.
  by apply leaves_closes, leaves_closes, leaves_closes, leaves_opens, leaves_opens.
Qed.

(** A handshake keeps its slot for its duration only. *)
Lemma dtlsFunc_log slot w : let '(r, w') := dtlsFunc slot w in
  connectedStreams w' = connectedStreams w ∧
  match r with
  | Ok _ => log w' = log w ++ [Open HandshakeSlot; Open DtlsConn; Close HandshakeSlot]
  | Err _ => ∃ l, log w' = log w ++ l ∧ ∀ st, replay l st = Some st
  end.
Proof.
  assert (∀ (w : world), ∃ l, log w = log w ++ l ∧ ∀ st, replay l st = Some st) as Hnil.
  { intros. exists []. by rewrite app_nil_r. }
  unfold dtlsFunc. destruct (GenerateSelfSigned c); [|done]. destruct (clientDTLSOptions _ _ _); [|done].
  destruct slot; [|done]. destruct (dtls_Client c).
  2: { cbn. split; [done|]. exists [Open HandshakeSlot; Close HandshakeSlot]. by rewrite <-app_assoc. }
  assert (∀ l : list effect, ∃ l', (((l ++ [Open HandshakeSlot]) ++ [Open DtlsConn]) ++ [Close DtlsConn]) ++ [Close HandshakeSlot] = l ++ l' ∧
    ∀ st, replay l' st = Some st) as Hfail.
  { intros l. exists [Open HandshakeSlot; Open DtlsConn; Close DtlsConn; Close HandshakeSlot]. by rewrite <-!app_assoc. }
  destruct (Handshake c); [|cbn; by split].
  destruct (match clientAuthToken tp with Some t => Authenticate c t | None => Ok () end); [|cbn; by split].
  cbn. split; [done|]. by rewrite <-!app_assoc.
Qed.

(** No way of connecting leaks: a TURN relay run ([oneTurnConnection]) closes
    what it opened innermost first on every path, also when a close fails; a
    handshake ([dtlsFunc]) gives its slot back in every case and leaves a
    connection open exactly when it succeeds. *)
Theorem connecting_balanced delay relay_close socket_close slot w :
  leaves w (oneTurnConnection delay relay_close socket_close w).2 [] ∧
  (let '(r, w') := dtlsFunc slot w in
   connectedStreams w' = connectedStreams w ∧
   match r with
   | Ok _ => log w' = log w ++ [Open HandshakeSlot; Open DtlsConn; Close HandshakeSlot]
   | Err _ => ∃ l, log w' = log w ++ l ∧ ∀ st, replay l st = Some st
   end).
Proof. split; [apply oneTurn_leaves|apply dtlsFunc_log]. Qed.
End create.
(** ** Errors that end the application *)

Lemma Contains_app p s sub : Contains s sub = true → Contains (p ++ s) sub = true.
Proof. induction p as [|x p IH]; [done|]. intros H. cbn. rewrite IH by done. apply orb_true_r. Qed.

Lemma fatal_wrapped p e : ClientCreds.isFatalCaptchaError (Some e) = true →
  ClientCreds.isFatalCaptchaError (Some (errorf_w p e)) = true ∧
  ClientCreds.isFatalCaptchaError (Some (errorf_s p e)) = true.
Proof. intros H. by split; apply Contains_app. Qed.

(** What a maintainer does with a failed setup. *)
Inductive verdict := StopApplication | RetryAfter (delay : Z).

Definition setup_verdict (e : goerror) : verdict :=
  if errors_is ErrRejected e then StopApplication
  else if ClientCreds.isFatalCaptchaError (Some e) then StopApplication
  else RetryAfter (3 * Second).

(** [oneDtlsConnectionLoop] after [oneDtlsConnection]; [jitter] is
    [rand.Intn(20)], times are seconds. *)
Definition dtls_loop_verdict (err : option goerror) (unix lockout jitter : Z) : verdict :=
  match err with
  | None => RetryAfter 0
  | Some e =>
      if errors_is ErrRejected e then StopApplication
      else if (unix <? lockout) && Contains (err_text e) (str "context deadline exceeded") then RetryAfter 0
      else RetryAfter ((10 + jitter) * Second)
  end.

(** [oneTurnConnectionLoop] after [oneTurnConnection]; [nanos] is now. *)
Definition turn_loop_verdict (err : option goerror) (nanos lockout : Z) : verdict :=
  match err with
  | None => RetryAfter 0
  | Some e =>
      if ClientCreds.isFatalCaptchaError err then StopApplication
      else if Contains (err_text e) (str "CAPTCHA_WAIT_REQUIRED") then
        if negb (Contains (err_text e) (str "global lockout active")) then RetryAfter (60 * Second)
        else
          let sleepDuration := lockout * Second - nanos in
          RetryAfter (if sleepDuration <? 0 then 5 * Second else sleepDuration)
      else RetryAfter (2 * Second)
  end.

(** [oneDtlsConnection] wraps what [dtlsFunc] reports. *)
Definition dtls_connect_error (e : goerror) : goerror := errorf_w (str "failed to connect DTLS: ") e.

Section fatal.
Context (Sum256 : bytes → bytes) (tp : turnParams) (streamsPerCache id : Z) (c : calls).

(** Every call before the authentication succeeds. *)
Definition dtls_connects : bool :=
  match GenerateSelfSigned c with
  | Ok cert => is_ok (clientDTLSOptions Sum256 cert (dtlsAuthentication tp)) && is_ok (dtls_Client c) && is_ok (Handshake c)
  | Err _ => false
  end.

Definition relay_connects : bool :=
  match getCreds c (link tp) id with
  | Ok (_, _, rawURL) =>
      match SplitHostPort rawURL with
      | Ok (h, p) =>
          match ResolveUDPAddr c (turn_address tp h p) with
          | Ok addr => is_ok (Dial c (udp tp) addr) && is_ok (turn_NewClient c) && is_ok (turn_Listen c) && is_ok (turn_Allocate c)
          | Err _ => false
          end
      | Err _ => false
      end
  | Err _ => false
  end.

Lemma rejected_session t e w : relay_connects = true → dtls_connects = true →
  clientAuthToken tp = Some t → Authenticate c t = Err e →
  (createSmuxSession Sum256 tp streamsPerCache id c w).1 = Err (errorf_w (str "authenticate client: ") e).
Proof.
  unfold relay_connects, dtls_connects, createSmuxSession, createDTLSConnection, fails. intros H1 H2 Ht Ha.
  rewrite Ht, Ha. repeat case_match; simplify_eq/=; try done; rewrite ?andb_false_r in *; done.
Qed.

Lemma rejected_handshake t e w : dtls_connects = true → clientAuthToken tp = Some t → Authenticate c t = Err e →
  (dtlsFunc Sum256 tp c (Ok ()) w).1 = Err (errorf_w (str "authenticate client: ") e).
Proof.
  unfold dtls_connects, dtlsFunc. intros H2 Ht Ha. rewrite Ht, Ha.
  repeat case_match; simplify_eq/=; try done; rewrite ?andb_false_r in *; done.
Qed.

(** The verdicts, exactly: which errors stop the application, and how long the
    loops wait after the others.  A maintainer of a session waits three seconds
    whatever the captcha lockout says. *)
Lemma setup_verdict_exact e' :
  (setup_verdict e' = StopApplication ↔ errors_is ErrRejected e' = true ∨ ClientCreds.isFatalCaptchaError (Some e') = true) ∧
  ∀ d, setup_verdict e' = RetryAfter d → d = 3 * Second.
Proof.
  unfold setup_verdict. destruct (errors_is _ _), (ClientCreds.isFatalCaptchaError _); naive_solver.
Qed.

Lemma dtls_loop_verdict_exact err unix lockout jitter :
  (dtls_loop_verdict err unix lockout jitter = StopApplication ↔ ∃ e', err = Some e' ∧ errors_is ErrRejected e' = true) ∧
  ∀ d, dtls_loop_verdict err unix lockout jitter = RetryAfter d →
    d = 0 ∧ (err = None ∨ ∃ e', err = Some e' ∧ unix < lockout ∧ Contains (err_text e') (str "context deadline exceeded") = true) ∨
    d = (10 + jitter) * Second ∧
      ∃ e', err = Some e' ∧ (lockout ≤ unix ∨ Contains (err_text e') (str "context deadline exceeded") = false).
Proof.
  unfold dtls_loop_verdict. destruct err as [e'|]; [|naive_solver].
  destruct (errors_is _ _) eqn:?; [naive_solver|].
  destruct (Z.ltb_spec unix lockout), (Contains _ (str "context deadline exceeded")) eqn:?; cbn [andb];
    (split; [split; [done|intros (? & [= <-] & ?); congruence]|]); intros d [= <-]; eauto 10.
Qed.

Lemma turn_loop_verdict_exact err nanos lockout :
  (turn_loop_verdict err nanos lockout = StopApplication ↔ ∃ e', err = Some e' ∧ ClientCreds.isFatalCaptchaError err = true) ∧
  ∀ d, turn_loop_verdict err nanos lockout = RetryAfter d →
    match err with
    | None => d = 0
    | Some e' =>
        let waits := Contains (err_text e') (str "CAPTCHA_WAIT_REQUIRED") in
        let locked := Contains (err_text e') (str "global lockout active") in
        (waits = false → d = 2 * Second) ∧
        (waits = true → locked = false → d = 60 * Second) ∧
        (waits = true → locked = true →
         (nanos ≤ lockout * Second → nanos + d = lockout * Second) ∧ (lockout * Second < nanos → d = 5 * Second))
    end.
Proof.
  unfold turn_loop_verdict, Second. destruct err as [e'|]; [|naive_solver].
  destruct (ClientCreds.isFatalCaptchaError _) eqn:?; [naive_solver|].
  destruct (Contains _ (str "CAPTCHA_WAIT_REQUIRED")); [|naive_solver].
  destruct (Contains _ (str "global lockout active")); cbn [negb]; [|naive_solver].
  destruct (Z.ltb_spec (lockout * 1000000000 - nanos) 0); (split; [naive_solver|]); intros d [= <-];
    (split; [done|]); (split; [done|]); lia.
Qed.

(** C29: Errors that must end the application are not lost on the way up, and no
    other error ends it.  When the credentials fail with a fatal captcha error,
    both the session maintainer and the TURN loop stop the application, whatever
    the other calls answer; when the server rejects the client's token, the
    maintainer and the DTLS loop do.  The maintainer stops on exactly these two
    kinds of error and waits three seconds after any other, also during a
    captcha lockout; the DTLS loop stops on exactly a rejection, goes on at once
    after a clean end or a deadline that passes during a lockout, and waits ten
    seconds plus the jitter otherwise; the TURN loop stops on exactly a fatal
    captcha error and waits two seconds, sixty when a captcha is required, and
    exactly until the end of the lockout when one is running. *)
Theorem fatal_errors_stop e w :
  (getCreds c (link tp) id = Err e → ClientCreds.isFatalCaptchaError (Some e) = true →
   (∃ e', (createSmuxSession Sum256 tp streamsPerCache id c w).1 = Err e' ∧ setup_verdict e' = StopApplication) ∧
   ∀ rc sc nanos lockout,
     turn_loop_verdict (oneTurnConnection tp streamsPerCache id c None rc sc w).1 nanos lockout = StopApplication) ∧
  (∀ t, clientAuthToken tp = Some t → Authenticate c t = Err e → errors_is ErrRejected e = true → dtls_connects = true →
   (relay_connects = true →
    ∃ e', (createSmuxSession Sum256 tp streamsPerCache id c w).1 = Err e' ∧ setup_verdict e' = StopApplication) ∧
   ∃ e', (dtlsFunc Sum256 tp c (Ok ()) w).1 = Err e' ∧
     ∀ unix lockout jitter, dtls_loop_verdict (Some (dtls_connect_error e')) unix lockout jitter = StopApplication) ∧
  (∀ e',
    (setup_verdict e' = StopApplication ↔ errors_is ErrRejected e' = true ∨ ClientCreds.isFatalCaptchaError (Some e') = true) ∧
    ∀ d, setup_verdict e' = RetryAfter d → d = 3 * Second) ∧
  (∀ err unix lockout jitter,
    (dtls_loop_verdict err unix lockout jitter = StopApplication ↔ ∃ e', err = Some e' ∧ errors_is ErrRejected e' = true) ∧
    ∀ d, dtls_loop_verdict err unix lockout jitter = RetryAfter d →
      d = 0 ∧ (err = None ∨ ∃ e', err = Some e' ∧ unix < lockout ∧ Contains (err_text e') (str "context deadline exceeded") = true) ∨
      d = (10 + jitter) * Second ∧
        ∃ e', err = Some e' ∧ (lockout ≤ unix ∨ Contains (err_text e') (str "context deadline exceeded") = false)) ∧
  (∀ err nanos lockout,
    (turn_loop_verdict err nanos lockout = StopApplication ↔ ∃ e', err = Some e' ∧ ClientCreds.isFatalCaptchaError err = true) ∧
    ∀ d, turn_loop_verdict err nanos lockout = RetryAfter d →
      match err with
      | None => d = 0
      | Some e' =>
          let waits := Contains (err_text e') (str "CAPTCHA_WAIT_REQUIRED") in
          let locked := Contains (err_text e') (str "global lockout active") in
          (waits = false → d = 2 * Second) ∧
          (waits = true → locked = false → d = 60 * Second) ∧
          (waits = true → locked = true →
           (nanos ≤ lockout * Second → nanos + d = lockout * Second) ∧ (lockout * Second < nanos → d = 5 * Second))
      end).
Proof.
  split; [|split; [|split; [|split]]].
  - intros Hc Hf. split.
    + eexists. split; [unfold createSmuxSession, createDTLSConnection; by rewrite Hc|]. unfold setup_verdict.
      destruct (fatal_wrapped (str "get TURN creds: ") e Hf) as [-> _]. by destruct (errors_is _ _).
    + intros rc sc nanos lockout. unfold oneTurnConnection. rewrite Hc. cbn [fst]. unfold turn_loop_verdict.
      destruct (fatal_wrapped (str "failed to get TURN credentials: ") e Hf) as [_ ->]. done.
  - intros t Ht Ha Hr Hd. split.
    + intros Hre. eexists. split; [by eapply rejected_session|]. unfold setup_verdict.
      change (errors_is ErrRejected (errorf_w (str "authenticate client: ") e)) with (errors_is ErrRejected e). by rewrite Hr.
    + eexists. split; [by eapply rejected_handshake|]. intros. unfold dtls_loop_verdict.
      change (errors_is ErrRejected (dtls_connect_error (errorf_w (str "authenticate client: ") e))) with (errors_is ErrRejected e).
      by rewrite Hr.
  - apply setup_verdict_exact.
  - apply dtls_loop_verdict_exact.
  - apply turn_loop_verdict_exact.
Qed.
End fatal.
(** ** runVLESSMode: maintainers, listener and local connections

    Any number of maintainers share the pool; local TCP connections open streams
    from it.  [step] interleaves them all. *)

Inductive maintainer_pc :=
  | P_stagger | P_top | P_retry | P_live (s : nat) | P_pause | P_returned.

Record maintainer := MkMaintainer {
  mpc : maintainer_pc;
  created : list nat;
  cleaned : list nat;      (* sessions whose cleanup ran *)
}.

#[export] Instance maintainer_eta : Eta maintainer := λ m, MkMaintainer (mpc m) (created m) (cleaned m).

(** The goroutine of a local connection. *)
Inductive local_pc := C_open | C_pipe | C_close_stream | C_close | C_done.

#[export] Instance local_pc_eq_dec : EqDecision local_pc.
Proof. solve_decision. Defined.

Inductive run_pc := R_wait_session | R_accept | R_wait_conns | R_wait_maintainers | R_returned.

Record mode := MkMode {
  mode_ctx_done : bool;
  mpool : ClientPool.pool;
  maintainers : list maintainer;
  locals : list local_pc;
  streams_open : nat;
  listening : bool;
  run : run_pc;
}.

#[export] Instance mode_eta : Eta mode := λ m,
  MkMode (mode_ctx_done m) (mpool m) (maintainers m) (locals m) (streams_open m) (listening m) (run m).

Definition startVLESSMode (numSessions : Z) (reg : Metrics.Registry) : mode :=
  MkMode false (ClientPool.MkPool [] 0 reg)
    (replicate (Z.to_nat (ClientPool.normalizeVLESSSessionCount numSessions)) (MkMaintainer P_stagger [] []))
    [] 0 false R_wait_session.

Definition set_pc (p : maintainer_pc) (m : maintainer) : maintainer := m <| mpc := p |>.

(** A maintainer takes its session out of the pool and cleans it up. *)
Definition drop_session (s : nat) (m : maintainer) : maintainer := m <| cleaned ::= (λ l, l ++ [s]) |>.

(** [maintainVLESSSession], one decision at a time. *)
Inductive maintain_step (ctx : bool) (p : ClientPool.pool) (m : maintainer)
  : bool → ClientPool.pool → maintainer → Prop :=
  | mt_start : mpc m = P_stagger → maintain_step ctx p m ctx p (set_pc P_top m)
  | mt_ctx : mpc m ∈ [P_stagger; P_top; P_retry; P_pause] → ctx = true →
      maintain_step ctx p m ctx p (set_pc P_returned m)
  | mt_failed e : mpc m = P_top →
      maintain_step ctx p m (match setup_verdict e with StopApplication => true | _ => ctx end) p
        (set_pc (match setup_verdict e with StopApplication => P_returned | _ => P_retry end) m)
  | mt_retry : mpc m = P_retry → maintain_step ctx p m ctx p (set_pc P_top m)
  | mt_created s : mpc m = P_top → s ∉ ClientPool.sessions p → s ∉ created m →
      maintain_step ctx p m ctx (ClientPool.pool_add s p) (set_pc (P_live s) (m <| created ::= (λ l, l ++ [s]) |>))
  | mt_live_ctx s : mpc m = P_live s → ctx = true →
      maintain_step ctx p m ctx (ClientPool.pool_remove s p) (set_pc P_returned (drop_session s m))
  | mt_closed s : mpc m = P_live s →
      maintain_step ctx p m ctx
        (let p := ClientPool.pool_remove s p in
         if ctx then p
         else ClientPool.MkPool (ClientPool.sessions p) (ClientPool.counter p) (Metrics.SessionReconnected (ClientPool.pool_metrics p)))
        (set_pc (if ctx then P_returned else P_pause) (drop_session s m))
  | mt_resume : mpc m = P_pause → maintain_step ctx p m ctx p (set_pc P_top m).

Inductive step (m : mode) : mode → Prop :=
  | step_cancel : step m (m <| mode_ctx_done := true |>)
  | step_maintain i mt ctx p mt' : maintainers m !! i = Some mt →
      maintain_step (mode_ctx_done m) (mpool m) mt ctx p mt' →
      step m (m <| mode_ctx_done := ctx |> <| mpool := p |> <| maintainers ::= <[i := mt']> |>)
  | step_wait_ctx : run m = R_wait_session → mode_ctx_done m = true → step m (m <| run := R_wait_maintainers |>)
  | step_listen : run m = R_wait_session → ClientPool.pool_count (mpool m) > 0 →
      step m (m <| listening := true |> <| run := R_accept |>)
  | step_accept : run m = R_accept → step m (m <| locals ::= (λ l, l ++ [C_open]) |>)
  | step_accept_error : run m = R_accept → mode_ctx_done m = true → step m (m <| run := R_wait_conns |>)
  | step_wait_conns : run m = R_wait_conns → Forall (λ l, l = C_done) (locals m) →
      step m (m <| run := R_wait_maintainers |>)
  | step_wait_maintainers : run m = R_wait_maintainers → Forall (λ mt, mpc mt = P_returned) (maintainers m) →
      step m (m <| run := R_returned |>)
  | step_open_ok j : locals m !! j = Some C_open →
      step m (m <| locals ::= <[j := C_pipe]> |> <| streams_open ::= S |>)
  | step_open_error j : locals m !! j = Some C_open → step m (m <| locals ::= <[j := C_close]> |>)
  | step_pipe j : locals m !! j = Some C_pipe → step m (m <| locals ::= <[j := C_close_stream]> |>)
  | step_close_stream j : locals m !! j = Some C_close_stream →
      step m (m <| locals ::= <[j := C_close]> |> <| streams_open ::= pred |>)
  | step_close j : locals m !! j = Some C_close → step m (m <| locals ::= <[j := C_done]> |>).

(** *** Invariant *)

Definition live (m : maintainer) : list nat := match mpc m with P_live s => [s] | _ => [] end.

Definition holds_stream (l : local_pc) : bool := match l with C_pipe | C_close_stream => true | _ => false end.

Record mode_inv (m : mode) : Prop := {
  mi_pool : ClientPool.sessions (mpool m) ≡ₚ maintainers m ≫= live;
  mi_clean : Forall (λ mt, created mt ≡ₚ cleaned mt ++ live mt) (maintainers m);
  mi_gauge : Metrics.activeSessions (ClientPool.pool_metrics (mpool m)) =
             wrap_int (Z.of_nat (length (ClientPool.sessions (mpool m))));
  mi_streams : streams_open m = count holds_stream (locals m);
  mi_locals : match run m with
              | R_wait_session => locals m = [] ∧ listening m = false
              | R_wait_maintainers | R_returned => Forall (λ l, l = C_done) (locals m) ∧ mode_ctx_done m = true
              | R_wait_conns => mode_ctx_done m = true
              | R_accept => True
              end;
  mi_returned : run m = R_returned → Forall (λ mt, mpc mt = P_returned) (maintainers m);
}.

Lemma bind_live_insert i mt mt' (l : list maintainer) : l !! i = Some mt →
  live mt ++ (<[i := mt']> l ≫= live) ≡ₚ live mt' ++ (l ≫= live).
Proof.
  intros Hi. rewrite insert_take_drop by by eapply lookup_lt_Some.
  rewrite <-(take_drop_middle l i mt Hi) at 3. rewrite !bind_app, !bind_cons. solve_Permutation.
Qed.

(** One maintainer's step, on the pool and on its own books. *)
Lemma maintain_step_inv ctx p mt ctx' p' mt' : maintain_step ctx p mt ctx' p' mt' →
  (∀ s, mpc mt = P_live s → s ∈ ClientPool.sessions p) →
  Metrics.activeSessions (ClientPool.pool_metrics p) = wrap_int (Z.of_nat (length (ClientPool.sessions p))) →
  created mt ≡ₚ cleaned mt ++ live mt →
  live mt' ++ ClientPool.sessions p ≡ₚ live mt ++ ClientPool.sessions p' ∧
  Metrics.activeSessions (ClientPool.pool_metrics p') = wrap_int (Z.of_nat (length (ClientPool.sessions p'))) ∧
  created mt' ≡ₚ cleaned mt' ++ live mt' ∧ (ctx = true → ctx' = true) ∧ mpc mt ≠ P_returned.
Proof.
  intros Hs Hl Hg Hc. unfold live in *.
  assert (∀ s, s ∈ ClientPool.sessions p → let q := ClientPool.pool_remove s p in
    ClientPool.sessions p ≡ₚ s :: ClientPool.sessions q ∧
    Metrics.activeSessions (ClientPool.pool_metrics q) = wrap_int (Z.of_nat (length (ClientPool.sessions q)))) as Hrem.
  { intros s Hin. unfold ClientPool.pool_remove. rewrite bool_decide_eq_true_2 by done. cbn.
    pose proof (remove_first_permutation s _ Hin) as Hp. split; [done|]. rewrite Hg, Metrics.add_wrap. f_equal.
    apply Permutation_length in Hp. cbn in Hp. lia. }
  destruct Hs as [Hm|Hm Hx|e Hm|Hm|s Hm Hn Hn'|s Hm Hx|s Hm|Hm]; unfold set_pc, drop_session; cbn.
  - rewrite Hm in *. by rewrite app_nil_r in *.
  - destruct (mpc mt) eqn:Em; try (by rewrite ?app_nil_r in *); exfalso; rewrite !elem_of_cons in Hm;
      by destruct Hm as [?|[?|[?|[?|?%not_elem_of_nil]]]].
  - rewrite Hm in *. destruct (setup_verdict e); by rewrite app_nil_r in *.
  - rewrite Hm in *. by rewrite app_nil_r in *.
  - rewrite Hm in *. rewrite app_nil_r in Hc. split; [apply Permutation_cons_append|].
    split; [|split; [by rewrite Hc|done]]. rewrite Hg, Metrics.add_wrap, length_app. cbn. f_equal. lia.
  - rewrite Hm in *. destruct (Hrem s (Hl s eq_refl)) as [Hp Hg']. rewrite app_nil_r. by split_and!.
  - rewrite Hm in *. destruct (Hrem s (Hl s eq_refl)) as [Hp Hg'].
    destruct ctx; cbn; rewrite ?app_nil_r; by split_and!.
  - rewrite Hm in *. by rewrite app_nil_r in *.
Qed.

Lemma mode_inv_locals m j l l' : mode_inv m → locals m !! j = Some l → l ≠ C_done →
  ∀ n, (n + (if holds_stream l then 1 else 0) = streams_open m + (if holds_stream l' then 1 else 0))%nat →
  mode_inv (m <| locals ::= <[j := l']> |> <| streams_open := n |>).
Proof.
  intros [I1 I2 I3 I4 I5 I6] Hj Hl n Hn. split; cbn; try done.
  - pose proof (count_insert holds_stream _ j l l' Hj). lia.
  - destruct (run m); try done.
    + destruct I5 as [E _]. by rewrite E in Hj.
    + destruct I5 as [F _]. rewrite Forall_lookup in F. by destruct (Hl (F _ _ Hj)).
    + destruct I5 as [F _]. rewrite Forall_lookup in F. by destruct (Hl (F _ _ Hj)).
Qed.

Lemma mode_inv_step m m' : step m m' → mode_inv m → mode_inv m'.
Proof.
  intros Hs I. destruct Hs as [|i mt ctx p mt' Hi Hs|Hr Hc|Hr Hp|Hr|Hr Hc|Hr Hf|Hr Hf|j Hj|j Hj|j Hj|j Hj|j Hj].
  - destruct I as [I1 I2 I3 I4 I5 I6]. split; try done. cbn. by destruct (run m); naive_solver.
  - pose proof I as [I1 I2 I3 I4 I5 I6].
    destruct (maintain_step_inv _ _ _ _ _ _ Hs) as (H1 & H2 & H3 & H4 & H5).
    { intros s Hm. rewrite I1, list_elem_of_bind. exists mt. unfold live. rewrite Hm.
      split; [by left|by eapply list_elem_of_lookup_2]. }
    { done. }
    { by eapply Forall_lookup_1 in I2. }
    pose proof (bind_live_insert i mt mt' (maintainers m) Hi) as Hb. split; cbn; try done.
    + apply (Permutation_app_inv_l (live mt)). rewrite Hb, <-H1, I1. done.
    + by apply Forall_insert.
    + destruct (run m); naive_solver.
    + intros Hr. specialize (I6 Hr). rewrite Forall_lookup in I6. by destruct (H5 (I6 _ _ Hi)).
  - destruct I as [I1 I2 I3 I4 I5 I6]. rewrite Hr in I5. split; try done. cbn. destruct I5 as [-> _]. by split; [constructor|].
  - destruct I as [I1 I2 I3 I4 I5 I6]. by split.
  - destruct I as [I1 I2 I3 I4 I5 I6]. rewrite Hr in I5. split; try done; cbn; rewrite ?Hr; try done.
    rewrite count_app. cbn. lia.
  - destruct I as [I1 I2 I3 I4 I5 I6]. by split.
  - destruct I as [I1 I2 I3 I4 I5 I6]. rewrite Hr in I5. by split.
  - destruct I as [I1 I2 I3 I4 I5 I6]. rewrite Hr in I5. by split.
  - apply (mode_inv_locals m j C_open C_pipe I Hj); [done|cbn; lia].
  - apply (mode_inv_locals m j C_open C_close I Hj); [done|cbn; lia].
  - apply (mode_inv_locals m j C_pipe C_close_stream I Hj); [done|cbn; lia].
  - apply (mode_inv_locals m j C_close_stream C_close I Hj); [done|]. cbn.
    rewrite (mi_streams m I). pose proof (count_insert holds_stream _ j _ C_close Hj) as E. cbn in E. lia.
  - apply (mode_inv_locals m j C_close C_done I Hj); [done|cbn; lia].
Qed.

Lemma mode_inv_start n reg : Metrics.activeSessions reg = 0 → mode_inv (startVLESSMode n reg).
Proof.
  intros Hr. assert (∀ k, replicate k (MkMaintainer P_stagger [] []) ≫= live = []) as Hb by (by intros k; induction k).
  split; cbn; try done.
  - by rewrite Hb.
  - apply Forall_replicate. done.
Qed.

(** C28: VLESS mode without bonding: however the maintainers, the listener and the
    local connections interleave, the pool holds exactly the sessions that are
    alive, and the session gauge counts them; every session ever created is
    alive or was cleaned up once.  The client starts to listen only with a
    session in the pool, and returns only after a cancellation, with every local
    connection and every stream closed, every maintainer returned, the pool
    empty and every session cleaned up. *)
Theorem vless_mode_sound n reg m : Metrics.activeSessions reg = 0 → rtc step (startVLESSMode n reg) m →
  ClientPool.sessions (mpool m) ≡ₚ maintainers m ≫= live ∧
  Metrics.activeSessions (ClientPool.pool_metrics (mpool m)) = wrap_int (Z.of_nat (length (ClientPool.sessions (mpool m)))) ∧
  Forall (λ mt, created mt ≡ₚ cleaned mt ++ live mt) (maintainers m) ∧
  (∀ m', step m m' → listening m = false → listening m' = true → ClientPool.sessions (mpool m) ≠ []) ∧
  (run m = R_returned → mode_ctx_done m = true ∧ ClientPool.sessions (mpool m) = [] ∧
     Forall (λ l, l = C_done) (locals m) ∧ streams_open m = 0%nat ∧
     Forall (λ mt, mpc mt = P_returned ∧ created mt ≡ₚ cleaned mt) (maintainers m)).
Proof.
  intros Hr Hs. assert (mode_inv m) as [I1 I2 I3 I4 I5 I6].
  { pose proof (mode_inv_start n reg Hr) as I. clear Hr. induction Hs; eauto using mode_inv_step. }
  split_and!; try done.
  { intros m' Hst Hl Hl' E. destruct Hst; cbn in *; try congruence. unfold ClientPool.pool_count in *. rewrite E in *. cbn in *. lia. }
  intros Hret. specialize (I6 Hret). rewrite Hret in I5. destruct I5 as [Hl Hc].
  assert (maintainers m ≫= live = []) as Hb.
  { clear -I6. induction I6 as [|mt ms Hm _ IH]; [done|]. rewrite bind_cons, IH. unfold live. by rewrite Hm. }
  split_and!; [done| |done| |].
  - apply Permutation_nil_r. by rewrite I1, Hb.
  - rewrite I4. apply count_zero. eapply Forall_impl; [exact Hl|]. by intros ? ->.
  - apply Forall_and. split; [done|]. clear -I2 I6. induction I6 as [|mt ms Hm _ IH]; [constructor|].
    apply Forall_cons in I2 as [H2 I2]. constructor; [|by apply IH]. unfold live in H2. by rewrite Hm, app_nil_r in H2.
Qed.
(** *** Witnesses *)

Definition sample_params : turnParams :=
  MkParams [] [] (str "link") true (DtlsAuth.MkAuth DtlsAuth.authenticationInsecure []) (Some (str "token")).

Definition sample_calls (creds : result (bytes * bytes * bytes)) (auth : result unit) : calls :=
  MkCalls (λ _ _, creds) Ok (λ _ _, Ok ()) (Ok ()) (Ok ()) (Ok ()) (Ok (str "cert")) (Ok ()) (Ok ()) (λ _, auth)
    (Ok ()) (Ok ()) 0.

Definition good_creds : result (bytes * bytes * bytes) := Ok (str "user", str "pass", str "192.0.2.1:3478").

Definition no_world : world := MkWorld [] 0 ∅ Metrics.zero_registry.

(** A session set up by evaluation, and its cleanup. *)
Example sample_session :
  match createSmuxSession (λ b, b) sample_params 10 3 (sample_calls good_creds (Ok ())) no_world with
  | (Ok (cl, above), w) =>
      replay (log w) [] = Some [SmuxSession; KcpSession; StreamSlot; DtlsConn; RelayConn; TurnClient; TurnSocket] ∧
      connectedStreams w = 1 ∧
      replay (log (cleanup_all cl above w).2) [] = Some [] ∧ connectedStreams (cleanup_all cl above w).2 = 0
  | _ => False
  end.
Proof. by vm_compute. Qed.

Definition fatal_captcha : goerror := errorf (str "FATAL_CAPTCHA_FAILED_NO_STREAMS").
Definition rejection : goerror := GoError (str "rejected") [ErrRejected] None.

Lemma fatal_errors_stop_witness :
  (∃ e', (createSmuxSession (λ b, b) sample_params 10 3 (sample_calls (Err fatal_captcha) (Ok ())) no_world).1 = Err e' ∧
     setup_verdict e' = StopApplication) ∧
  ∃ e', (createSmuxSession (λ b, b) sample_params 10 3 (sample_calls good_creds (Err rejection)) no_world).1 = Err e' ∧
     setup_verdict e' = StopApplication.
Proof.
  split.
  - destruct (fatal_errors_stop (λ b, b) sample_params 10 3 (sample_calls (Err fatal_captcha) (Ok ())) fatal_captcha no_world)
      as (H & _). destruct H as [H _]; [reflexivity|reflexivity|]. exact H.
  - destruct (fatal_errors_stop (λ b, b) sample_params 10 3 (sample_calls good_creds (Err rejection)) rejection no_world)
      as (_ & H & _). destruct (H (str "token")) as [H' _]; [reflexivity|reflexivity|reflexivity|reflexivity|].
    apply H'. reflexivity.
Defined.

(** One maintainer connects, a local connection comes and goes, then the end. *)
Lemma mode_run : ∃ m, rtc step (startVLESSMode 1 Metrics.zero_registry) m ∧ run m = R_returned ∧ length (locals m) = 1%nat.
Proof.
  eexists. split.
  - eapply rtc_l; [eapply (step_maintain _ 0%nat); [reflexivity|by apply mt_start]|].
    eapply rtc_l; [eapply (step_maintain _ 0%nat); [reflexivity|apply (mt_created _ _ _ 7%nat); [done|set_solver..]]|].
    eapply rtc_l; [by eapply step_listen|]. eapply rtc_l; [by eapply step_accept|].
    eapply rtc_l; [by eapply (step_open_ok _ 0%nat)|]. eapply rtc_l; [by eapply step_cancel|].
    eapply rtc_l; [by eapply step_accept_error|].
    eapply rtc_l; [by eapply (step_pipe _ 0%nat)|]. eapply rtc_l; [by eapply (step_close_stream _ 0%nat)|].
    eapply rtc_l; [by eapply (step_close _ 0%nat)|].
    eapply rtc_l; [eapply (step_maintain _ 0%nat); [reflexivity|by eapply mt_live_ctx]|].
    eapply rtc_l; [eapply step_wait_conns; [done|by repeat constructor]|].
    eapply rtc_l; [eapply step_wait_maintainers; [done|by repeat constructor]|]. apply rtc_refl.
  - done.
Qed.

Lemma vless_mode_sound_witness : ∃ m, rtc step (startVLESSMode 1 Metrics.zero_registry) m ∧ run m = R_returned ∧
  ClientPool.sessions (mpool m) = [].
Proof.
  destruct mode_run as (m & Hs & Hr & _). exists m. split; [exact Hs|]. split; [exact Hr|].
  apply (vless_mode_sound 1 Metrics.zero_registry m); [reflexivity|exact Hs|exact Hr].
Defined.
End ClientSessions.
