(* ===== verification/GoWeb.v ===== *)
(** * JSON values, forms and HTTP (encoding/json, net/url, net/http; client/http_body.go,
    client/safe_errors.go)

    A decoded JSON document is a tree of values; an object is a list of fields
    with distinct names, in no particular order.  An HTTP client answers each
    request depending on all requests before it. *)

From S2P Require Import Prelude GoStrings GoIP GoFloat.

(** ** JSON *)

Set Warnings "-register-all".

Inductive json :=
  | JNull | JBool (b : bool) | JNumber (f : float64) | JString (s : bytes)
  | JArray (l : list json) | JObject (fields : list (bytes * json)).

Abbreviation object := (list (bytes * json)).

Fixpoint field (k : bytes) (o : object) : option json :=
  match o with
  | [] => None
  | (k', v) :: o => if bool_decide (k' = k) then Some v else field k o
  end.

(** [v, ok := o[k].(T)] *)
Definition get_string (k : bytes) (o : object) : option bytes :=
  match field k o with Some (JString s) => Some s | _ => None end.
Definition get_object (k : bytes) (o : object) : option object :=
  match field k o with Some (JObject m) => Some m | _ => None end.
Definition get_array (k : bytes) (o : object) : option (list json) :=
  match field k o with Some (JArray l) => Some l | _ => None end.
Definition get_float (k : bytes) (o : object) : option float64 :=
  match field k o with Some (JNumber f) => Some f | _ => None end.
Definition get_bool (k : bytes) (o : object) : option bool :=
  match field k o with Some (JBool b) => Some b | _ => None end.

(** ** Numbers *)

(** The integer part, and whether something was cut off: below, at or above a
    half. *)
Definition magnitude (m : positive) (e : Z) : Z := if e >=? 0 then Zpos m * 2 ^ e else Zpos m / 2 ^ (- e).

(** [int(f)]: what a conversion out of range gives is the implementation's. *)
Definition int_of_float (out_of_range : float64 → Z) (f : float64) : Z :=
  match f with
  | S754_zero _ => 0
  | S754_finite s m e =>
      let z := if s then - magnitude m e else magnitude m e in
      if (- two63 <=? z) && (z <? two63) then z else out_of_range f
  | _ => out_of_range f
  end.

(** [fmt.Sprintf("%.0f", f)]: rounded to even. *)
Definition round_even (m : positive) (e : Z) : Z :=
  if e >=? 0 then Zpos m * 2 ^ e
  else
    let d := 2 ^ (- e) in
    let q := Zpos m / d in
    let r := Zpos m mod d in
    if 2 * r <? d then q else if d <? 2 * r then q + 1 else if Z.even q then q else q + 1.

Definition Sprintf_0f (f : float64) : bytes :=
  match f with
  | S754_zero s => if s then str "-0" else str "0"
  | S754_finite s m e => (if s then str "-" else []) ++ Itoa (round_even m e)
  | S754_infinity s => if s then str "-Inf" else str "+Inf"
  | S754_nan => str "NaN"
  end.

(** ** Forms *)

(** Order of strings by bytes. *)
Fixpoint bytes_leb (a b : bytes) : bool :=
  match a, b with
  | [], _ => true
  | _ :: _, [] => false
  | x :: a, y :: b => (code x <? code y) || ((code x =? code y) && bytes_leb a b)
  end.

Definition sort_strings (l : list bytes) : list bytes := isort bytes_leb l.

Definition unreserved (c : ascii) : bool :=
  is_digit c || ((65 <=? code c) && (code c <=? 90)) || ((97 <=? code c) && (code c <=? 122)) ||
  bool_decide (c ∈ str "-_.~").

(** [url.QueryEscape] *)
Definition escape_byte (c : ascii) : bytes :=
  if unreserved c then [c] else if bool_decide (c = " "%char) then str "+"
  else chr 37 :: (upper_ascii <$> encode_byte c).
Definition QueryEscape (s : bytes) : bytes := s ≫= escape_byte.

(** [url.Values], each name with one value. *)
Abbreviation Values := (list (bytes * bytes)).

Definition values_Set (k v : bytes) (vs : Values) : Values := filter (λ p, p.1 ≠ k) vs ++ [(k, v)].

Definition values_Encode (vs : Values) : bytes :=
  Join ((λ p, QueryEscape p.1 ++ str "=" ++ QueryEscape p.2) <$> isort (λ a b, bytes_leb a.1 b.1) vs) (str "&").

(** ** HTTP *)

(** A response: its status, what the body delivers and the error it ends with. *)
Record http_response := MkResponse { StatusCode : Z; Body : bytes; body_err : option goerror }.

(** [io.ReadAll] of [io.LimitReader(body, n)]: an error past the limit is not seen. *)
Definition read_limited (n : Z) (r : http_response) : result bytes :=
  if n <=? Z.of_nat (length (Body r)) then Ok (take (Z.to_nat n) (Body r))
  else match body_err r with Some e => Err e | None => Ok (Body r) end.

Definition readResponseBodyLimited (r : http_response) (maxBytes : Z) (description : bytes) : result bytes :=
  let? data := read_limited (maxBytes + 1) r in
  if Z.of_nat (length data) >? maxBytes then Err (errorf (description ++ str " exceeds " ++ Itoa maxBytes ++ str " bytes"))
  else Ok data.

Definition maxCaptchaBootstrapResponseBytes : Z := 8 * 2 ^ 20.
Definition maxCaptchaAPIResponseBytes : Z := 2 * 2 ^ 20.
Definition maxVKAPIResponseBytes : Z := 2 * 2 ^ 20.

Definition responseShapeError (message : bytes) (response : object) : goerror :=
  errorf (message ++ str " (response fields: " ++ Join (sort_strings (fst <$> response)) (str ", ") ++ str ")").

(** A request and its form. *)
Record request := MkRequest { req_url : bytes; req_form : bytes }.

(** Code that sends requests: the history of requests is its state. *)
Definition web (A : Type) : Type := list request → result A * list request.

Definition web_ret {A} (r : result A) : web A := λ h, (r, h).
Definition web_bind {A B} (m : web A) (k : A → web B) : web B := λ h,
  match m h with (Ok a, h) => k a h | (Err e, h) => (Err e, h) end.
(** The error is looked at instead of returned. *)
Definition web_try {A B} (m : web A) (k : result A → web B) : web B := λ h, let '(r, h) := m h in k r h.
Definition web_wrap {A} (f : goerror → goerror) (m : web A) : web A := λ h, let '(r, h) := m h in (map_err f r, h).

Notation "'web!' x := m 'in' k" := (web_bind m (fun x => k))
  (at level 10, x name, m at level 100, k at level 200) : go_scope.

Section http.
Context (Do : list request → request → result http_response) (Unmarshal : bytes → result object).

Definition post (limit : Z) (description : bytes) (r : request) : web object := λ h,
  ((let? response := Do h r in
    let? body := readResponseBodyLimited response limit description in
    Unmarshal body), h ++ [r]).
End http.

(** ** URLs (net/url) *)

Module GoURL.
(** [RawPath] is not used; the scheme is lower-case ASCII; the user and the
    fragment are kept as they are printed. *)
Record URL := MkURL { Scheme : bytes; User : option bytes; Host : bytes; Path : bytes; RawQuery : bytes; Fragment : bytes }.

#[export] Instance URL_eta : Eta URL := λ u, MkURL (Scheme u) (User u) (Host u) (Path u) (RawQuery u) (Fragment u).

(** [URL.Hostname] and [URL.Port]. *)
Definition validOptionalPort (port : bytes) : bool :=
  match port with [] => true | c :: digits => bool_decide (c = ":"%char) && forallb is_digit digits end.

Definition split_host (hostPort : bytes) : bytes * bytes :=
  let '(host, port) :=
    match last_colon hostPort with
    | Some colon => if validOptionalPort (drop colon hostPort) then (take colon hostPort, drop (S colon) hostPort) else (hostPort, [])
    | None => (hostPort, [])
    end in
  (if has_prefix (str "[") host && HasSuffix host (str "]") then take (length host - 2) (drop 1 host) else host, port).

Definition Hostname (u : URL) : bytes := (split_host (Host u)).1.
Definition Port (u : URL) : bytes := (split_host (Host u)).2.

(** [URL.EscapedPath] of a path that came without an encoding of its own. *)
Definition escape_path (p : bytes) : bytes :=
  p ≫= λ c, if unreserved c || bool_decide (c ∈ str "$&+,/:;=@") then [c] else chr 37 :: (upper_ascii <$> encode_byte c).

(** [URL.String] of an [http] URL with a host that needs no escape. *)
Definition url_string (u : URL) : bytes :=
  Scheme u ++ str "://" ++ (match User u with Some user => user ++ str "@" | None => [] end) ++ Host u ++
  (if bool_decide (Path u = []) || has_prefix (str "/") (Path u) then [] else str "/") ++ escape_path (Path u) ++
  (if bool_decide (RawQuery u = []) then [] else str "?" ++ RawQuery u) ++
  (if bool_decide (Fragment u = []) then [] else str "#" ++ Fragment u).
End GoURL.

(** ** Facts *)

(** [m] sends at most [n] requests. *)
Definition sends_at_most {A} (n : nat) (m : web A) : Prop :=
  ∀ h, ∃ rs, (m h).2 = h ++ rs ∧ (length rs ≤ n)%nat.

Lemma sends_ret {A} (r : result A) : sends_at_most 0 (web_ret r).
Proof. intros h. exists []. by rewrite app_nil_r. Qed.

Lemma sends_post Do Unmarshal limit d r : sends_at_most 1 (post Do Unmarshal limit d r).
Proof. intros h. by exists [r]. Qed.

Lemma sends_bind {A B} a b (m : web A) (k : A → web B) : sends_at_most a m → (∀ x, sends_at_most b (k x)) →
  sends_at_most (a + b) (web_bind m k).
Proof.
  intros Hm Hk h. unfold web_bind. destruct (Hm h) as (rs & E & Hl). destruct (m h) as [[x|e] h']; cbn in E; subst.
  - destruct (Hk x (h ++ rs)) as (rs' & E' & Hl'). exists (rs ++ rs'). rewrite E', app_assoc, length_app. split; [done|lia].
  - exists rs. split; [done|lia].
Qed.

Lemma sends_try {A B} a b (m : web A) (k : result A → web B) : sends_at_most a m → (∀ x, sends_at_most b (k x)) →
  sends_at_most (a + b) (web_try m k).
Proof.
  intros Hm Hk h. unfold web_try. destruct (Hm h) as (rs & E & Hl). destruct (m h) as [x h']; cbn in E; subst.
  destruct (Hk x (h ++ rs)) as (rs' & E' & Hl'). exists (rs ++ rs'). rewrite E', app_assoc, length_app. split; [done|lia].
Qed.

Lemma sends_wrap {A} n f (m : web A) : sends_at_most n m → sends_at_most n (web_wrap f m).
Proof. intros Hm h. unfold web_wrap. destruct (Hm h) as (rs & E & Hl). destruct (m h) as [x h']. by exists rs. Qed.

Lemma sends_le {A} n n' (m : web A) : (n ≤ n')%nat → sends_at_most n m → sends_at_most n' m.
Proof. intros Hn Hm h. destruct (Hm h) as (rs & E & Hl). exists rs. split; [done|lia]. Qed.

(** [m] sends only requests with [P]. *)
Definition sends_only {A} (P : request → Prop) (m : web A) : Prop := ∀ h, ∃ rs, (m h).2 = h ++ rs ∧ Forall P rs.

Lemma only_ret {A} P (r : result A) : sends_only P (web_ret r).
Proof. intros h. exists []. by rewrite app_nil_r. Qed.

Lemma only_post P Do Unmarshal limit d (r : request) : P r → sends_only P (post Do Unmarshal limit d r).
Proof. intros Hr h. exists [r]. split; [done|]. by constructor. Qed.

Lemma only_bind {A B} P (m : web A) (k : A → web B) : sends_only P m → (∀ x, sends_only P (k x)) → sends_only P (web_bind m k).
Proof.
  intros Hm Hk h. unfold web_bind. destruct (Hm h) as (rs & E & Hl). destruct (m h) as [[x|e] h']; cbn in E; subst; [|by eauto].
  destruct (Hk x (h ++ rs)) as (rs' & E' & Hl'). exists (rs ++ rs'). rewrite E', app_assoc. split; [done|]. by apply Forall_app.
Qed.

Lemma only_try {A B} P (m : web A) (k : result A → web B) : sends_only P m → (∀ x, sends_only P (k x)) → sends_only P (web_try m k).
Proof.
  intros Hm Hk h. unfold web_try. destruct (Hm h) as (rs & E & Hl). destruct (m h) as [x h']; cbn in E; subst.
  destruct (Hk x (h ++ rs)) as (rs' & E' & Hl'). exists (rs ++ rs'). rewrite E', app_assoc. split; [done|]. by apply Forall_app.
Qed.

Lemma only_wrap {A} P f (m : web A) : sends_only P m → sends_only P (web_wrap f m).
Proof. intros Hm h. unfold web_wrap. destruct (Hm h) as (rs & E & Hl). destruct (m h) as [x h']. by exists rs. Qed.

(** What a result says about the requests before it. *)
Lemma web_bind_ok {A B} (m : web A) (k : A → web B) h b h' : web_bind m k h = (Ok b, h') →
  ∃ a h1, m h = (Ok a, h1) ∧ k a h1 = (Ok b, h').
Proof. unfold web_bind. destruct (m h) as [[a|e] h1]; [by eauto|done]. Qed.

Lemma web_try_ok {A B} (m : web A) (k : result A → web B) h r h' : web_try m k h = (r, h') →
  ∃ x h1, m h = (x, h1) ∧ k x h1 = (r, h').
Proof. unfold web_try. destruct (m h) as [x h1]. by eauto. Qed.

Lemma web_wrap_ok {A} f (m : web A) h a h' : web_wrap f m h = (Ok a, h') → m h = (Ok a, h').
Proof. unfold web_wrap. destruct (m h) as [[x|e] h1]; cbn; congruence. Qed.

Lemma web_ret_ok {A} (r : result A) h a h' : web_ret r h = (Ok a, h') → r = Ok a ∧ h' = h.
Proof. unfold web_ret. by intros [= -> ->]. Qed.

(** The request was answered by a complete document. *)
Definition answered Do Unmarshal (limit : Z) (h : list request) (r : request) (o : object) : Prop :=
  ∃ response, Do h r = Ok response ∧ body_err response = None ∧ Z.of_nat (length (Body response)) ≤ limit ∧
    Unmarshal (Body response) = Ok o.

Create HintDb web.
#[export] Hint Resolve sends_ret sends_post sends_wrap only_ret only_post only_bind only_try only_wrap : web.

(** An accepted body is complete and within the limit. *)
Lemma read_limited_ok r limit d data : 0 ≤ limit → readResponseBodyLimited r limit d = Ok data →
  data = Body r ∧ Z.of_nat (length (Body r)) ≤ limit ∧ body_err r = None.
Proof.
  intros Hp. unfold readResponseBodyLimited, read_limited. intros (x & Hx & H)%result_bind_ok.
  destruct (Z.gtb_spec (Z.of_nat (length x)) limit); [done|]. injection H as ->.
  destruct (Z.leb_spec (limit + 1) (Z.of_nat (length (Body r)))).
  - injection Hx as <-. rewrite length_take in *. lia.
  - destruct (body_err r); [done|]. injection Hx as <-. split; [done|]. split; [lia|done].
Qed.

(** A form has the field [name] with the encoded value [value]. *)
Definition has_field (name value form : bytes) : Prop :=
  ∃ pre post, form = pre ++ (name ++ str "=" ++ value) ++ post ∧
    (pre = [] ∨ ∃ p, pre = p ++ str "&") ∧ (post = [] ∨ ∃ p, post = str "&" ++ p).

Lemma Join_piece x l : x ∈ l → ∃ pre post, Join l (str "&") = pre ++ x ++ post ∧
  (pre = [] ∨ ∃ p, pre = p ++ str "&") ∧ (post = [] ∨ ∃ p, post = str "&" ++ p).
Proof.
  induction l as [|y l IH]; [by intros ?%not_elem_of_nil|]. rewrite elem_of_cons. destruct l as [|z l].
  - intros [->|?%not_elem_of_nil]; [|done]. exists [], []. rewrite app_nil_r. split_and!; [done|by left|by left].
  - change (Join (y :: z :: l) (str "&")) with (y ++ str "&" ++ Join (z :: l) (str "&")). intros [->|Hx].
    + exists [], (str "&" ++ Join (z :: l) (str "&")). split_and!; [done|by left|right; by eexists].
    + destruct (IH Hx) as (pre & post & -> & Hpre & Hpost). exists (y ++ str "&" ++ pre), post. rewrite <-!app_assoc.
      split_and!; [done| |done]. right. destruct Hpre as [->|[p ->]].
      * exists y. by rewrite app_nil_r.
      * exists (y ++ str "&" ++ p). by rewrite <-!app_assoc.
Qed.

(** A field that is not the first of the form. *)
Definition later (name value form : bytes) : Prop :=
  ∃ p q, form = p ++ str "&" ++ (name ++ str "=" ++ value) ++ str "&" ++ q.

Lemma later_here name value q form : form = str "&" ++ (name ++ str "=" ++ value) ++ str "&" ++ q → later name value form.
Proof. intros ->. by exists [], q. Qed.

Lemma later_app name value x form : later name value form → later name value (x ++ form).
Proof. intros (p & q & ->). exists (x ++ p), q. by rewrite <-!app_assoc. Qed.

Lemma later_field name value form : later name value form → has_field name value form.
Proof.
  intros (p & q & ->). exists (p ++ str "&"), (str "&" ++ q). split_and!; [by rewrite <-!app_assoc|right; by eexists|right; by eexists].
Qed.

Lemma values_Set_here k v vs : (k, v) ∈ values_Set k v vs.
Proof. unfold values_Set. rewrite elem_of_app. right. by left. Qed.

Lemma values_Set_other p k v vs : p.1 ≠ k → p ∈ vs → p ∈ values_Set k v vs.
Proof. intros Hk Hp. unfold values_Set. rewrite elem_of_app, list_elem_of_filter. by left. Qed.

Lemma values_Encode_field k v vs : (k, v) ∈ vs → has_field (QueryEscape k) (QueryEscape v) (values_Encode vs).
Proof.
  intros Hp. unfold values_Encode, has_field. apply Join_piece. apply list_elem_of_fmap. exists (k, v). split; [done|].
  by rewrite isort_perm.
Qed.

Lemma hex_digit_unreserved d : 0 ≤ d < 16 → unreserved (hex_digit d) = true.
Proof. revert d. apply (forall_nibble (λ d, unreserved (hex_digit d))). by vm_compute. Qed.

Lemma QueryEscape_hex raw : QueryEscape (EncodeToString raw) = EncodeToString raw.
Proof.
  unfold EncodeToString, QueryEscape. induction raw as [|b raw IH]; [done|]. rewrite !bind_cons, bind_app, IH. f_equal.
  destruct (code_nibbles b) as (Hh & Hl & _). unfold encode_byte. rewrite !bind_cons. cbn [mbind list_bind].
  unfold escape_byte. by rewrite !hex_digit_unreserved.
Qed.

(** The order of strings, and that it makes the names in an error message
    independent of the order of a Go map. *)
Lemma bytes_leb_total a b : bytes_leb a b = true ∨ bytes_leb b a = true.
Proof.
  revert b. induction a as [|x a IH]; intros [|y b]; cbn; auto.
  destruct (Z.ltb_spec (code x) (code y)), (Z.ltb_spec (code y) (code x)); cbn; auto.
  replace (code x =? code y) with true by lia. replace (code y =? code x) with true by lia. cbn. apply IH.
Qed.

Lemma bytes_leb_cons x a y b : bytes_leb (x :: a) (y :: b) = true ↔
  code x < code y ∨ (code x = code y ∧ bytes_leb a b = true).
Proof. cbn. by rewrite orb_true_iff, andb_true_iff, Z.ltb_lt, Z.eqb_eq. Qed.

Lemma bytes_leb_trans a b c : bytes_leb a b = true → bytes_leb b c = true → bytes_leb a c = true.
Proof.
  revert b c. induction a as [|x a IH]; intros [|y b] [|z c]; try done. rewrite !bytes_leb_cons. naive_solver lia.
Qed.

Lemma bytes_leb_antisym a b : bytes_leb a b = true → bytes_leb b a = true → a = b.
Proof.
  revert b. induction a as [|x a IH]; intros [|y b]; try done. rewrite !bytes_leb_cons.
  intros [?|[E ?]] [?|[? ?]]; try lia. f_equal; [|by apply IH]. by apply code_inj.
Qed.

Lemma shape_error_order message r r' : fst <$> r ≡ₚ fst <$> r' →
  responseShapeError message r = responseShapeError message r'.
Proof.
  intros Hp. unfold responseShapeError. assert (sort_strings r.*1 = sort_strings r'.*1) as ->; [|done]. unfold sort_strings.
  apply (sorted_perm_unique (λ a b, bytes_leb a b = true) (λ _, True)).
  - intros x y _ _. apply bytes_leb_antisym.
  - by apply Forall_true.
  - apply (isort_sorted bytes_leb (λ _, True)); [intros; apply bytes_leb_total|intros x y z _ _ _; apply bytes_leb_trans|by apply Forall_true].
  - apply (isort_sorted bytes_leb (λ _, True)); [intros; apply bytes_leb_total|intros x y z _ _ _; apply bytes_leb_trans|by apply Forall_true].
  - by rewrite !isort_perm.
Qed.

Lemma post_ok Do Unmarshal limit d r h o h' : 0 ≤ limit → post Do Unmarshal limit d r h = (Ok o, h') →
  h' = h ++ [r] ∧ answered Do Unmarshal limit h r o.
Proof.
  intros Hl. unfold post. intros [= H <-]. split; [done|].
  apply result_bind_ok in H as (response & Hd & H). apply result_bind_ok in H as (body & Hb & H).
  apply read_limited_ok in Hb as (-> & ? & ?); [|done]. by exists response.
Qed.

Lemma has_prefix_spec p s : has_prefix p s = true ↔ p `prefix_of` s.
Proof.
  split.
  - revert s. induction p as [|a p IH]; intros s; [intros; apply prefix_nil|]. destruct s as [|b s]; cbn; [done|].
    intros [E%Ascii.eqb_eq H]%andb_true_iff. subst. by apply prefix_cons, IH.
  - intros [k ->]. apply has_prefix_app.
Qed.
