(* ===== verification/BenchCLI.v ===== *)
(** * The benchmark command (cmd/vk-turn-bench/main.go, baseline/http_metrics.go,
    baseline/command_iperf.go)

    The command line is what [flag] parsed; [url.Parse], the network below
    [http.Client], the JSON decoder and [os/exec] answer as given by arguments.
    The last part relates the estimate of a dry run to the time a completed run
    of [BenchRun] takes. *)

From S2P Require Import Prelude GoStrings GoIP GoWeb Metrics Baseline MetricDiff BenchRun Identity Diagnostics.

Module BenchCLI.
Import Baseline BenchRun GoURL.

(** ** The diagnostics client *)

Definition maximumMetricsResponseBytes : Z := 2 * 1024 * 1024.

(** [http.Transport]: the proxy to use for a request, if there is a policy. *)
Record Transport := MkTransport { Proxy : option (URL → option bytes) }.

#[export] Instance Transport_eta : Eta Transport := λ t, MkTransport (Proxy t).

Record http_request := MkRequest { req_url : URL; Authorization : bytes; Accept : bytes }.

(** What [CheckRedirect] says of the next request, given the earlier ones;
    [UseLastResponse] is [http.ErrUseLastResponse]. *)
Inductive redirect_check := Follow | UseLastResponse | RefuseRedirect (e : goerror).

(** [http.Client]; a [Timeout] of zero means none, no [CheckRedirect] the default. *)
Record http_Client := MkHttpClient {
  client_transport : Transport;
  Timeout : Z;
  CheckRedirect : option (list http_request → redirect_check);
}.

Record HTTPMetricsClient := MkClient { metricsURL : bytes; token : bytes; client : http_Client }.

Definition http_origin (u : URL) : bool :=
  bool_decide (Scheme u = str "http") && bool_decide (User u = None) && bool_decide (RawQuery u = []) &&
  bool_decide (Fragment u = []) && (bool_decide (Path u = []) || bool_decide (Path u = str "/")).

(** [default_transport] is [http.DefaultTransport] when it is an [*http.Transport]. *)
Definition NewHTTPMetricsClient (url_Parse : bytes → result URL) (default_transport : option Transport)
    (baseURL tok : bytes) : result HTTPMetricsClient :=
  let? parsed := map_err (errorf_w (str "parse diagnostics URL: ")) (url_Parse (TrimSpace baseURL)) in
  let? _ := refuse (negb (http_origin parsed))
              "diagnostics URL must be an HTTP origin without credentials, path, query, or fragment" in
  let ip := ParseIP (Hostname parsed) in
  let? _ := refuse (bool_decide (ip = []) || negb (IsLoopback ip))
              "diagnostics URL host must be a literal loopback IP address" in
  let? _ := refuse (match Atoi (Port parsed) with Ok port => (port <? 1) || (port >? 65535) | Err _ => true end)
              "diagnostics URL must contain a port in 1..65535" in
  let tok := TrimSpace tok in
  let? _ := refuse (match DecodeString tok with Some decoded => negb (length decoded =? 32)%nat | None => true end)
              "diagnostics token must contain exactly 64 hexadecimal characters" in
  let parsed := parsed <| Path := str "/metrics" |> in
  match default_transport with
  | None => Err (errorf (str "default HTTP transport has an unexpected type"))
  | Some transport =>
      Ok (MkClient (url_string parsed) tok
            (MkHttpClient (transport <| Proxy := None |>) (5 * Second) (Some (λ _, UseLastResponse))))
  end.

(** The second call of the decoder. *)
Inductive decoded := DecodedEOF | DecodedValue | DecodedError.

(** *** [http.Client.Do]

    The server's answer to a request: the instants, counted from the start of
    the call, at which its headers are there and at which reading its body ends,
    its [Location], the response, and how much of the body has come when the
    time of the call runs out before the end of the body. *)
Record reply := MkReply {
  headers_at : Z; body_at : Z; Location : bytes; response : http_response; partial : nat;
}.

(** What the calls did: the requests sent, each with the address it was sent
    to, the bodies opened and closed, and the last instant waited for. *)
Record wire := MkWire { sent : list (bytes * http_request); opened : nat; closed : nat; waited : Z }.

#[export] Instance wire_eta : Eta wire := λ w, MkWire (sent w) (opened w) (closed w) (waited w).

Definition no_wire : wire := MkWire [] 0 0 0.

Definition default_CheckRedirect (via : list http_request) : redirect_check :=
  if (10 <=? length via)%nat then RefuseRedirect (errorf (str "stopped after 10 redirects")) else Follow.

Definition is_redirect (status : Z) : bool := bool_decide (status ∈ [301; 302; 303; 307; 308]).

(** The address a connection is made to. *)
Definition dial_address (t : Transport) (u : URL) : bytes :=
  match Proxy t ≫= λ p, p u with
  | Some proxy => proxy
  | None =>
      JoinHostPort (Hostname u)
        (if bool_decide (Port u = []) then (if bool_decide (Scheme u = str "https") then str "443" else str "80") else Port u)
  end.

(** The bearer token follows a redirect to the same host or below it only. *)
Definition keeps_authorization (initial dest : URL) : bool :=
  bool_decide (Hostname dest = Hostname initial) ||
  (negb (bool_decide (":"%char ∈ Hostname dest)) && negb (bool_decide (chr 37 ∈ Hostname dest)) &&
   HasSuffix (Hostname dest) (str "." ++ Hostname initial)).

Definition redirected (initial : http_request) (u : URL) : http_request :=
  MkRequest u (if keeps_authorization (req_url initial) u then Authorization initial else []) (Accept initial).

Definition open_body (w : wire) : wire := w <| opened ::= S |>.
Definition close_body (w : wire) : wire := w <| closed ::= S |>.

Section fetch.
(** [url.Parse], [URL.Parse] of a reference, the network, given the requests sent
    before, and the decoder's two calls on a body. *)
Context (url_Parse : bytes → result URL) (url_reference : URL → bytes → result URL).
Context (exchange : list http_request → bytes → http_request → Z * result reply).
Context (decode : bytes → result Metrics.Snapshot * decoded).
(** How late the timer of a call fires. *)
Context (late : Z).

(** Whether the timer of the call has fired at an instant, and the instant the
    call waits for. *)
Definition expired (cl : http_Client) (at_ : Z) : bool := (0 <? Timeout cl) && (Timeout cl + late <? at_).
Definition until (cl : http_Client) (at_ : Z) : Z := if expired cl at_ then Timeout cl + late else at_.

Definition timeout_error : goerror := errorf (str "context deadline exceeded (Client.Timeout exceeded while awaiting headers)").

(** A body that is not there in time ends with an error. *)
Definition received (cl : http_Client) (rep : reply) : http_response :=
  if expired cl (body_at rep)
  then MkResponse (StatusCode (response rep)) (take (partial rep) (Body (response rep))) (Some timeout_error)
  else response rep.

(** [fuel] bounds the requests of one call; the default policy sends ten at most. *)
Fixpoint send (fuel : nat) (cl : http_Client) (via : list http_request) (r : http_request) (w : wire) :
    result (reply * http_response) * wire :=
  let addr := dial_address (client_transport cl) (req_url r) in
  let w := w <| sent ::= (.++ [(addr, r)]) |> in
  match exchange via addr r with
  | (at_, Err e) => (Err (if expired cl at_ then timeout_error else e), w <| waited := until cl at_ |>)
  | (_, Ok rep) =>
      let w := w <| waited := until cl (headers_at rep) |> in
      if expired cl (headers_at rep) then (Err timeout_error, w)
      else
        let w := open_body w in
        let done := (Ok (rep, received cl rep), w) in
        if is_redirect (StatusCode (response rep)) && negb (bool_decide (Location rep = [])) then
          match url_reference (req_url r) (Location rep) with
          | Err e => (Err (errorf_w (str "failed to parse Location header: ") e), close_body w)
          | Ok u =>
              match default default_CheckRedirect (CheckRedirect cl) (via ++ [r]) with
              | UseLastResponse => done
              | RefuseRedirect e => (Err e, close_body w)
              | Follow =>
                  match fuel with
                  | O => (Err (errorf (str "too many requests")), close_body w)
                  | S fuel => send fuel cl (via ++ [r]) (redirected (default r (head via)) u) (close_body w)
                  end
              end
          end
        else done
  end.

Definition Do (cl : http_Client) (r : http_request) : wire → result (reply * http_response) * wire := send 10 cl [] r.

(** [defer d()] around the rest of a function. *)
Definition deferred {A} (d : wire → wire) (f : wire → A * wire) (w : wire) : A * wire :=
  let '(r, w) := f w in (r, d w).

(** The rest of [Fetch], after the response has come. *)
Definition read_snapshot (cl : http_Client) (rep : reply) (resp : http_response) (w : wire) : result Metrics.Snapshot * wire :=
  ((let? data := map_err (errorf_w (str "read diagnostics metrics: "))
                   (read_limited (maximumMetricsResponseBytes + 1) resp) in
    let? _ := if maximumMetricsResponseBytes <? Z.of_nat (length data)
              then Err (errorf (str "diagnostics metrics response exceeds " ++ Itoa maximumMetricsResponseBytes ++ str " bytes"))
              else Ok tt in
    let? _ := if negb (StatusCode resp =? 200)
              then Err (errorf (str "diagnostics metrics returned HTTP " ++ Itoa (StatusCode resp)))
              else Ok tt in
    let '(snapshot, trailing) := decode data in
    let? snapshot := map_err (errorf_w (str "decode diagnostics metrics: ")) snapshot in
    match trailing with
    | DecodedEOF => Ok snapshot
    | _ => Err (errorf (str "diagnostics metrics contains trailing JSON"))
    end), w <| waited := until cl (body_at rep) |>).

Definition Fetch (c : HTTPMetricsClient) (w : wire) : result Metrics.Snapshot * wire :=
  match url_Parse (metricsURL c) with
  | Err e => (Err (errorf_w (str "create diagnostics request: ") e), w)
  | Ok u =>
      match Do (client c) (MkRequest u (str "Bearer " ++ token c) (str "application/json")) w with
      | (Err e, w) => (Err (errorf_w (str "request diagnostics metrics: ") e), w)
      | (Ok (rep, resp), w) => deferred close_body (read_snapshot (client c) rep resp) w
      end
  end.
End fetch.

(** ** iperf3 as a command *)

(** What a command prints and how it ends. *)
Record exec_outcome := MkOutcome { out : bytes; errout : bytes; exit_err : option goerror; ctx_err : option goerror }.

Section command.
Context (exec : list bytes → exec_outcome) (path : bytes).

Definition Version : result bytes :=
  let o := exec [path; str "--version"] in
  match exit_err o with
  | Some e => Err (GoError (path ++ str " --version: " ++ err_text e ++ str ": " ++ TrimSpace (out o ++ errout o))
                     (err_chain e) (err_timeout e))
  | None => Ok (TrimSpace (out o ++ errout o))
  end.

Definition command_Run (target : bytes) (durationSeconds : Z) (c : Case) : CommandResult * option goerror :=
  match IPerfArguments target durationSeconds c with
  | Err e => (MkResult [] [] [], Some e)
  | Ok arguments =>
      let o := exec (path :: arguments) in
      (MkResult arguments (out o) (errout o),
       match ctx_err o, exit_err o with
       | Some e, _ => Some (errorf_w (str "iperf3 timed out or was cancelled: ") e)
       | None, Some e => Some (errorf_w (str "iperf3 exited unsuccessfully: ") e)
       | None, None => None
       end)
  end.
End command.

(** ** The command line *)

Record flags := MkFlags {
  scenarioName : bytes; turnTransport : bytes; proxyMode : bytes; sessions : Z; target : bytes;
  runs : Z; warmups : Z; duration : Z; settle : Z; cooldown : Z; flows : bytes; directions : bytes;
  iperfExecutable : bytes; diagnosticsURL : bytes; tokenFile : bytes; outputRoot : bytes;
  revision : bytes; notes : bytes; dryRun : bool;
  positional : list bytes;
}.

Record cliOptions := MkOptions { opt_config : RunConfig; opt_TokenFile : bytes; opt_DryRun : bool }.

(** The loop shared by [parseFlows] and [parseDirections]: parse, validate as
    part of a case, refuse duplicates. *)
Fixpoint parse_distinct {A} `{EqDecision A} (parse : bytes → result A) (as_case : A → Case)
    (duplicate : A → goerror) (seen : list A) (parts : list bytes) : result (list A) :=
  match parts with
  | [] => Ok []
  | part :: parts =>
      let? value := parse part in
      let? _ := validate_Case (as_case value) in
      if bool_decide (value ∈ seen) then Err (duplicate value)
      else let? rest := parse_distinct parse as_case duplicate (value :: seen) parts in Ok (value :: rest)
  end.

Definition parseFlows (raw : bytes) : result (list Z) :=
  let? values := parse_distinct
    (λ part, match Atoi (TrimSpace part) with
             | Ok v => Ok v
             | Err _ => Err (errorf (str "invalid -flows value " ++ quote part))
             end)
    (MkCase DirectionUpload) (λ v, errorf (str "duplicate -flows value " ++ Itoa v)) []
    (split_on ","%char raw) in
  if bool_decide (values = []) then Err (errorf (str "-flows must not be empty")) else Ok values.

(** [baseline.Direction(text)] *)
Definition direction_of (text : bytes) : Direction :=
  if bool_decide (text = str "upload") then DirectionUpload
  else if bool_decide (text = str "download") then DirectionDownload
  else OtherDirection text.

Definition parseDirections (raw : bytes) : result (list Direction) :=
  let? values := parse_distinct
    (λ part, Ok (direction_of (ToLower (TrimSpace part))))
    (λ d, MkCase d 1) (λ d, errorf (str "duplicate -directions value " ++ direction_text d)) []
    (split_on ","%char raw) in
  if bool_decide (values = []) then Err (errorf (str "-directions must not be empty")) else Ok values.

(** [detectBuildRevision]; [None]: no build information. *)
Definition detectBuildRevision (info : option (list (bytes * bytes))) : bytes :=
  match info with
  | None => []
  | Some settings =>
      let '(revision, modified) := foldl (λ '(revision, modified) '(key, value),
        if bool_decide (key = str "vcs.revision") then (value, modified)
        else if bool_decide (key = str "vcs.modified") then (revision, bool_decide (value = str "true"))
        else (revision, modified)) ([], false) settings in
      if negb (bool_decide (revision = [])) && modified then revision ++ str "+dirty" else revision
  end.

(** [filepath.Join] of two elements. *)
Definition filepath_Join (a b : bytes) : bytes :=
  match filter (λ p, p ≠ []) [a; b] with
  | [] => []
  | ps => Identity.Clean (Join ps (str "/"))
  end.

Definition case_matrix (ds : list Direction) (fs : list Z) : list Case := ds ≫= λ d, MkCase d <$> fs.

Section cli.
Context (url_Parse : bytes → result URL) (default_transport : option Transport).
(** The time now, formatted, and the revision detector; [None]: not given. *)
Context (timestamp : option bytes) (revisionDetector : option bytes).

Definition parseCLI (parse_err : option goerror) (f : flags) : result cliOptions :=
  let? _ := match parse_err with Some e => Err e | None => Ok tt end in
  let? _ := match positional f with
            | [] => Ok tt
            | args => Err (errorf (str "unexpected positional arguments: " ++ Join args (str " ")))
            end in
  match timestamp, revisionDetector with
  | Some stamp, Some detected =>
      let? _ := refuse (negb (Z.rem (duration f) Second =? 0)) "-duration must be a whole number of seconds" in
      let? flowCounts := parseFlows (flows f) in
      let? directionValues := parseDirections (directions f) in
      let cases := case_matrix directionValues flowCounts in
      let given := TrimSpace (revision f) in
      let resolvedRevision := if bool_decide (given = []) then TrimSpace detected else given in
      let? _ := refuse (bool_decide (resolvedRevision = [])) "source revision is unavailable; pass -revision explicitly" in
      let? _ := refuse (blank (outputRoot f)) "-output must not be empty" in
      let finalOutput := filepath_Join (TrimSpace (outputRoot f)) (TrimSpace (scenarioName f) ++ str "-" ++ stamp) in
      let config := MkConfig
        (MkScenario (TrimSpace (scenarioName f)) (ToLower (TrimSpace (turnTransport f)))
           (ToLower (TrimSpace (proxyMode f))) (sessions f))
        resolvedRevision (TrimSpace (target f)) (TrimSpace (iperfExecutable f)) (TrimSpace (diagnosticsURL f))
        finalOutput (runs f) (warmups f) (Z.quot (duration f) Second) (settle f) (cooldown f) cases
        (TrimSpace (notes f)) in
      let? _ := Validate config in
      let? _ := NewHTTPMetricsClient url_Parse default_transport (DiagnosticsURL config) (replicate 64 "0"%char) in
      Ok (MkOptions config (TrimSpace (tokenFile f)) (dryRun f))
  | _, _ => Err (errorf (str "CLI dependencies must not be nil"))
  end.
End cli.

(** ** The dry run *)

(** [makeDryRunPlan]: the configuration it shows and its estimate, in
    nanoseconds; the durations are formatted by [Duration.String]. *)
Record dryRunPlan := MkPlan { plan_config : RunConfig; EstimatedDuration : Z }.

Definition makeDryRunPlan (c : RunConfig) : dryRunPlan :=
  let cases := Z.of_nat (length (Cases c)) in
  let operations := wrap_int (cases * wrap_int (WarmupRuns c + Runs c)) in
  let estimated := wrap_int (wrap_int (operations * DurationSeconds c) * Second) in
  let estimated := wrap_int (estimated + wrap_int (wrap_int (cases * Runs c) * Settle c)) in
  let estimated := if operations >? 1
                   then wrap_int (estimated + wrap_int ((operations - 1) * Cooldown c)) else estimated in
  MkPlan c estimated.

(** ** The command *)

(** What [run] does: print a plan, or run the harness and print the summaries. *)
Inductive run_outcome :=
  | PrintedPlan (p : dryRunPlan)
  | Refused (e : goerror)
  | Failed (e : goerror) (w : world)
  | Completed (rep : Report) (w : world).

Section run.
Context (url_Parse : bytes → result URL) (default_transport : option Transport) (timestamp revisionDetector : option bytes).
(** The diagnostics token's environment, see [Diagnostics]. *)
Context (open_file : bytes → result Diagnostics.file) (token_env : bytes) (windows : bool).
(** The harness: the operating system and the executor; [fetch_with] is [Fetch]
    by position. *)
Context (sys : system) (executor : IPerfExecutor) (fetch_with : HTTPMetricsClient → nat → result Metrics.Snapshot).

(** [fmt.Fprintf] to [stdout] does not fail here. *)
Definition run (parse_err : option goerror) (f : flags) (w : world) : run_outcome :=
  match parseCLI url_Parse default_transport timestamp revisionDetector parse_err f with
  | Err e => Refused e
  | Ok options =>
      if opt_DryRun options then PrintedPlan (makeDryRunPlan (opt_config options))
      else
        match map_err (errorf_w (str "load diagnostics token: "))
                (Diagnostics.options_Config open_file token_env windows
                   (Diagnostics.MkOptions (str "127.0.0.1:1") (opt_TokenFile options) false)) with
        | Err e => Refused e
        | Ok tokenConfig =>
            match NewHTTPMetricsClient url_Parse default_transport (DiagnosticsURL (opt_config options)) (Diagnostics.BearerToken tokenConfig) with
            | Err e => Refused e
            | Ok client =>
                match Run sys (MkHarness (Some executor) (Some (fetch_with client)) None None) true (opt_config options) w with
                | ((Some _, Some e), w) =>
                    Failed (errorf_w (str "baseline failed; partial artifacts: " ++
                                      OutputDirectory (opt_config options) ++ str ": ") e) w
                | ((None, Some e), w) => Failed e w
                | ((Some rep, None), w) => Completed rep w
                | ((None, None), w) => Failed (errorf []) w
                end
            end
        end
  end.
End run.

(** ** Theorems on the command line *)

Lemma parse_distinct_ok {A} `{EqDecision A} parse (as_case : A → Case) dup seen parts l :
  parse_distinct parse as_case dup seen parts = Ok l →
  Forall2 (λ p v, parse p = Ok v) parts l ∧ NoDup l ∧ Forall (λ v, v ∉ seen) l ∧ Forall (λ v, valid_case (as_case v)) l.
Proof.
  revert seen l. induction parts as [|p parts IH]; intros seen l; cbn; [intros [= <-]; by repeat constructor|].
  intros (v & Hp & ([] & Hv & H')%result_bind_ok)%result_bind_ok.
  case_bool_decide as Hs; [done|]. apply result_bind_ok in H' as (rest & Hr & [= <-]).
  destruct (IH _ _ Hr) as (H1 & H2 & H3 & H4). split; [by constructor|].
  split; [constructor; [|done]; intros Hin; rewrite Forall_forall in H3; apply (H3 v Hin); by left|].
  split; [|by constructor]. constructor; [done|]. eapply Forall_impl; [exact H3|]. set_solver.
Qed.

Lemma parseFlows_ok raw l : parseFlows raw = Ok l →
  l ≠ [] ∧ NoDup l ∧ Forall (λ v, 1 ≤ v ≤ 128) l ∧
  Forall2 (λ p v, Atoi (TrimSpace p) = Ok v) (split_on ","%char raw) l.
Proof.
  unfold parseFlows. intros (vs & H & H')%result_bind_ok. case_bool_decide; [done|]. injection H' as <-.
  apply parse_distinct_ok in H as (H1 & H2 & _ & H4). split; [done|]. split; [done|]. split.
  - eapply Forall_impl; [exact H4|]. intros v. unfold valid_case, validate_Case. cbn.
    destruct ((v <? 1) || (v >? 128)) eqn:E; [done|]. intros _. apply orb_false_iff in E as [??]. lia.
  - eapply Forall2_impl; [exact H1|]. intros p v. cbn. by destruct (Atoi (TrimSpace p)).
Qed.

Lemma parseDirections_ok raw l : parseDirections raw = Ok l →
  l ≠ [] ∧ NoDup l ∧ Forall (λ d, d = DirectionUpload ∨ d = DirectionDownload) l.
Proof.
  unfold parseDirections. intros (vs & H & H')%result_bind_ok. case_bool_decide; [done|]. injection H' as <-.
  apply parse_distinct_ok in H as (_ & H2 & _ & H4). split; [done|]. split; [done|].
  eapply Forall_impl; [exact H4|]. intros [| |t] Hd; auto. done.
Qed.

Lemma client_ok url_Parse default_transport base tok c : NewHTTPMetricsClient url_Parse default_transport base tok = Ok c →
  ∃ u n, url_Parse (TrimSpace base) = Ok u ∧ http_origin u = true ∧
    IsLoopback (ParseIP (Hostname u)) = true ∧ Atoi (Port u) = Ok n ∧ 1 ≤ n ≤ 65535 ∧
    metricsURL c = url_string (u <| Path := str "/metrics" |>) ∧ token c = TrimSpace tok ∧
    (∃ key, DecodeString (TrimSpace tok) = Some key ∧ length key = 32%nat) ∧
    Proxy (client_transport (client c)) = None ∧ Timeout (client c) = 5 * Second ∧
    CheckRedirect (client c) = Some (λ _, UseLastResponse).
Proof.
  unfold NewHTTPMetricsClient. intros H. apply result_bind_ok in H as (u & Hu%map_err_ok & H).
  apply result_bind_ok in H as ([] & Ho%refuse_ok & H). apply result_bind_ok in H as ([] & Hi%refuse_ok & H).
  apply result_bind_ok in H as ([] & Hp%refuse_ok & H). apply result_bind_ok in H as ([] & Ht%refuse_ok & H).
  destruct default_transport as [t|]; [|done]. injection H as <-.
  apply negb_false_iff in Ho. apply orb_false_iff in Hi as [_ Hi%negb_false_iff].
  destruct (Atoi (Port u)) as [n|] eqn:Ep; [|done]. apply orb_false_iff in Hp as [??].
  destruct (DecodeString (TrimSpace tok)) as [key|] eqn:Ek; [|done]. apply negb_false_iff, Nat.eqb_eq in Ht.
  exists u, n. split_and!; try done; try lia. by exists key.
Qed.

Lemma origin_scheme u : http_origin u = true → Scheme u = str "http".
Proof. unfold http_origin. rewrite !andb_true_iff, bool_decide_eq_true. tauto. Qed.

Lemma length_case_matrix ds fs : length (case_matrix ds fs) = (length ds * length fs)%nat.
Proof. unfold case_matrix. induction ds as [|d ds IH]; cbn; [done|]. rewrite length_app, length_fmap, IH. done. Qed.

(** There are 256 valid cases. *)
Definition all_cases : list Case := case_matrix [DirectionUpload; DirectionDownload] (seqZ 1 128).

Lemma valid_cases_bounded cases : Forall valid_case cases → NoDup cases → (length cases ≤ 256)%nat.
Proof.
  intros Hv Hn. assert (length all_cases = 256%nat) as <- by reflexivity.
  apply submseteq_length, NoDup_submseteq; [done|]. intros [d p] Hc. rewrite Forall_forall in Hv.
  specialize (Hv _ Hc). unfold valid_case, validate_Case in Hv. cbn in Hv. unfold all_cases, case_matrix.
  apply list_elem_of_bind. exists d. destruct d as [| |t]; [| |done];
    (destruct ((p <? 1) || (p >? 128)) eqn:E; [done|]; apply orb_false_iff in E as [??];
     split; [apply list_elem_of_fmap_2, elem_of_seqZ; lia|set_solver]).
Qed.

(** A command line that is accepted gives a configuration the harness accepts:
    the cases are all combinations of the directions and flow counts given, in
    order and without duplicates, at most 256; the duration is exactly the one
    asked for; and the diagnostics address is a loopback HTTP origin, so the
    token never leaves the machine. *)
Theorem cli_sound url_Parse default_transport stamp detected parse_err f o :
  parseCLI url_Parse default_transport stamp detected parse_err f = Ok o →
  Validate (opt_config o) = Ok tt ∧ positional f = [] ∧
  DurationSeconds (opt_config o) * Second = duration f ∧
  (∃ ds fs, parseDirections (directions f) = Ok ds ∧ parseFlows (flows f) = Ok fs ∧
     Cases (opt_config o) = case_matrix ds fs ∧ length (Cases (opt_config o)) = (length ds * length fs)%nat ∧
     NoDup (Cases (opt_config o)) ∧ (length (Cases (opt_config o)) ≤ 256)%nat) ∧
  ∃ u, url_Parse (TrimSpace (DiagnosticsURL (opt_config o))) = Ok u ∧ Scheme u = str "http" ∧
       IsLoopback (ParseIP (Hostname u)) = true.
Proof.
  unfold parseCLI. intros H. apply result_bind_ok in H as ([] & _ & H). apply result_bind_ok in H as ([] & Hpos & H).
  destruct stamp as [stamp|], detected as [detected|]; try done.
  apply result_bind_ok in H as ([] & Hd%refuse_ok & H). apply result_bind_ok in H as (fs & Hf & H).
  apply result_bind_ok in H as (ds & Hds & H). cbv zeta in H.
  apply result_bind_ok in H as ([] & _ & H). apply result_bind_ok in H as ([] & _ & H).
  apply result_bind_ok in H as ([] & Hv & H). apply result_bind_ok in H as (client & Hc & [= <-]).
  apply negb_false_iff, Z.eqb_eq in Hd. cbn [opt_config DurationSeconds Cases DiagnosticsURL] in *.
  split; [exact Hv|]. split; [by destruct (positional f)|].
  split. { pose proof (Z.quot_rem' (duration f) Second). lia. }
  pose proof (config_bounds _ Hv) as (_ & _ & _ & Hval & Hnd). cbn [Cases] in Hval, Hnd. split.
  - exists ds, fs. split; [done|]. split; [done|]. split; [done|]. split; [apply length_case_matrix|]. split; [done|].
    by apply valid_cases_bounded.
  - apply client_ok in Hc as (u & n & H1 & H2%origin_scheme & H3 & _). by exists u.
Qed.

(** The origin of a URL does not change when it is printed with the path of the
    metrics and parsed again ([URL.String] against [url.Parse]). *)
Definition parses_back (url_Parse : bytes → result URL) : Prop :=
  ∀ b u, url_Parse b = Ok u → http_origin u = true → IsLoopback (ParseIP (Hostname u)) = true →
    url_Parse (url_string (u <| Path := str "/metrics" |>)) = Ok (u <| Path := str "/metrics" |>).

(** A snapshot comes from a complete body within the limit. *)
Lemma read_snapshot_ok decode late cl rep resp w s :
  (read_snapshot decode late cl rep resp w).1 = Ok s →
  StatusCode resp = 200 ∧ Z.of_nat (length (Body resp)) ≤ maximumMetricsResponseBytes ∧ body_err resp = None ∧
  decode (Body resp) = (Ok s, DecodedEOF).
Proof.
  unfold read_snapshot. cbn [fst]. intros H. apply result_bind_ok in H as (data & Hr%map_err_ok & H).
  apply result_bind_ok in H as ([] & Hl & H). apply result_bind_ok in H as ([] & Hs & H).
  destruct (Z.ltb_spec maximumMetricsResponseBytes (Z.of_nat (length data))) as [|Hle]; [done|].
  destruct (StatusCode resp =? 200) eqn:Es; [|done]. apply Z.eqb_eq in Es.
  unfold read_limited in Hr. destruct (Z.leb_spec (maximumMetricsResponseBytes + 1) (Z.of_nat (length (Body resp)))) as [Hbig|Hsmall].
  { exfalso. assert (data = take (Z.to_nat (maximumMetricsResponseBytes + 1)) (Body resp)) as -> by congruence.
    rewrite length_take in Hle. unfold maximumMetricsResponseBytes in *. lia. }
  destruct (body_err resp); [done|]. injection Hr as <-. destruct (decode (Body resp)) as [r tr].
  apply result_bind_ok in H as (s' & ->%map_err_ok & H). destruct tr; [|done|done]. injection H as ->.
  split; [done|]. split; [lia|done].
Qed.

Lemma until_le late cl at_ : 0 < Timeout cl → until late cl at_ ≤ Timeout cl + late.
Proof.
  intros Ht. unfold until, expired. rewrite (proj2 (Z.ltb_lt 0 (Timeout cl)) Ht). cbn [andb].
  destruct (Z.ltb_spec (Timeout cl + late) at_); lia.
Qed.

(** A body without an error was there before the timer fired. *)
Lemma received_ok late cl rep : 0 < Timeout cl → body_err (received late cl rep) = None →
  received late cl rep = response rep ∧ body_at rep ≤ Timeout cl + late.
Proof.
  intros Ht. unfold received, expired. rewrite (proj2 (Z.ltb_lt 0 (Timeout cl)) Ht). cbn [andb].
  by destruct (Z.ltb_spec (Timeout cl + late) (body_at rep)).
Qed.

(** A client that uses the last response sends one request: what it gave, how
    long it waited, and which bodies it left open. *)
Lemma Do_once url_reference exchange late cl r w :
  CheckRedirect cl = Some (λ _, UseLastResponse) → 0 < Timeout cl →
  let addr := dial_address (client_transport cl) (req_url r) in
  let '(res, w') := Do url_reference exchange late cl r w in
  sent w' = sent w ++ [(addr, r)] ∧ waited w' ≤ Timeout cl + late ∧
  match res with
  | Ok (rep, resp) => (exchange [] addr r).2 = Ok rep ∧ resp = received late cl rep ∧
      opened w' = S (opened w) ∧ closed w' = closed w
  | Err _ => ∃ n, opened w' = (opened w + n)%nat ∧ closed w' = (closed w + n)%nat
  end.
Proof.
  intros Hc Ht. unfold Do. cbn [send]. rewrite Hc. cbn [default].
  set (addr := dial_address _ _). destruct (exchange [] addr r) as [at_ [rep|e]];
    [|split_and!; [done|by apply until_le|exists 0%nat; cbn; lia]].
  pose proof (until_le late cl (headers_at rep) Ht) as Hu.
  destruct (expired late cl (headers_at rep)); [split_and!; [done|done|exists 0%nat; cbn; lia]|].
  destruct (is_redirect _ && _); [|done].
  destruct (url_reference _ _); [done|]. split_and!; [done|done|exists 1%nat; cbn; lia].
Qed.

(** C31: What the metrics client returns can be trusted.  A client that was
    accepted sends one request per fetch, straight to the loopback address of
    its URL whatever proxy is configured in the environment, and no second one
    whatever redirect it is answered with, so that the bearer token goes nowhere
    else; it waits five seconds at most, plus what the timer is late; a snapshot
    it returns is the one JSON value in a complete 200 response of at most 2 MiB
    that was there within that time; and every response body that was opened is
    closed. *)
Theorem fetch_trusted url_Parse default_transport base tok url_reference exchange decode late c :
  parses_back url_Parse →
  NewHTTPMetricsClient url_Parse default_transport base tok = Ok c →
  let '(r, w) := Fetch url_Parse url_reference exchange decode late c no_wire in
  ∃ u q, url_Parse (TrimSpace base) = Ok u ∧ IsLoopback (ParseIP (Hostname u)) = true ∧
    let addr := JoinHostPort (Hostname u) (Port u) in
    sent w = [(addr, q)] ∧ Authorization q = str "Bearer " ++ TrimSpace tok ∧
    req_url q = u <| Path := str "/metrics" |> ∧
    opened w = closed w ∧ waited w ≤ 5 * Second + late ∧
    ∀ s, r = Ok s →
      ∃ rep, (exchange [] addr q).2 = Ok rep ∧
        StatusCode (response rep) = 200 ∧ Z.of_nat (length (Body (response rep))) ≤ maximumMetricsResponseBytes ∧
        body_err (response rep) = None ∧ body_at rep ≤ 5 * Second + late ∧
        decode (Body (response rep)) = (Ok s, DecodedEOF).
Proof.
  intros Hback (u & n & H1 & Ho & Hl & Hn & _ & H3 & H4 & _ & Hp & Ht & Hr)%client_ok.
  unfold Fetch. rewrite H3, (Hback _ _ H1 Ho Hl), H4. set (q := MkRequest _ _ _).
  assert (dial_address (client_transport (client c)) (req_url q) = JoinHostPort (Hostname u) (Port u)) as Ea.
  { unfold dial_address. rewrite Hp. cbn [mbind option_bind req_url q]. change (Port (_ <| Path := _ |>)) with (Port u).
    change (Hostname (_ <| Path := _ |>)) with (Hostname u). destruct (Port u); [done|]. by rewrite bool_decide_false. }
  assert (0 < Timeout (client c)) as Hpos by (rewrite Ht; done).
  pose proof (Do_once url_reference exchange late (client c) q no_wire Hr Hpos) as HD. cbv zeta in HD. rewrite Ea, Ht in HD.
  destruct (Do _ _ _ _ _ _) as [[[rep resp]|e] w1]; destruct HD as (Hs & Hw & HD).
  - destruct HD as (He & -> & Hop & Hcl). unfold deferred.
    destruct (read_snapshot _ _ _ _ _ w1) as [res w2] eqn:E. exists u, q.
    assert (w2 = w1 <| waited := until late (client c) (body_at rep) |>) as -> by (unfold read_snapshot in E; congruence).
    split_and!; [done|done|done|done|done|cbn; by rewrite Hop, Hcl|rewrite <-Ht; by apply until_le|].
    intros s ->. exists rep. apply (f_equal fst) in E. apply read_snapshot_ok in E as (Hst & Hlen & Hbe & Hde).
    destruct (received_ok late (client c) rep Hpos Hbe) as [Er Hat]. rewrite Er in *. rewrite Ht in Hat. by split_and!.
  - destruct HD as (k & Hop & Hcl). exists u, q. split_and!; [done|done|done|done|done|by rewrite Hop, Hcl|done|done].
Qed.

(** ** The estimate of a dry run against the run *)

(** The time a call takes by design: waits and iperf3 runs. *)
Definition cost (e : event) : Z :=
  match e with EvSleep d => d | EvIPerf _ d _ => d * Second | _ => 0 end.

Definition elapsed (t : list event) : Z := foldr (λ e z, cost e + z) 0 t.
#[local] Arguments elapsed : simpl never.

Lemma elapsed_app t u : elapsed (t ++ u) = elapsed t + elapsed u.
Proof. unfold elapsed. induction t as [|e t IH]; cbn [app foldr]; [done|]. rewrite IH. lia. Qed.

Lemma elapsed_one e : elapsed [e] = cost e.
Proof. unfold elapsed. cbn [foldr]. lia. Qed.

(** A step that, when it succeeds, takes [z] and completes [n] operations. *)
Definition takes {A} (m : M A) (z n : Z) (w : world) : Prop :=
  wp m (λ _ w', elapsed (trace w') = elapsed (trace w) + z ∧
                completedOperations w' = completedOperations w + n) (λ _, True) w.

Lemma takes_bind {A B} (m : M A) (k : A → M B) z z' n n' w :
  takes m z n w → (∀ a w', completedOperations w' = completedOperations w + n → takes (k a) z' n' w') →
  takes (bindM m k) (z + z') (n + n') w.
Proof.
  unfold takes. intros Hm Hk. apply wp_bind. eapply wp_mono; [exact Hm| |done]. intros a w' [E1 E2].
  eapply wp_mono; [by apply (Hk a w' E2)| |done]. cbn. intros _ w'' [E3 E4]. lia.
Qed.

Lemma takes_eq {A} (m : M A) z z' n n' w : takes m z n w → z = z' → n = n' → takes m z' n' w.
Proof. by intros ? -> ->. Qed.

(** A quiet first step. *)
Lemma takes_quiet {A B} (m : M A) (k : A → M B) z n w :
  takes m 0 0 w → (∀ a w', completedOperations w' = completedOperations w → takes (k a) z n w') → takes (bindM m k) z n w.
Proof.
  intros Hm Hk. apply (takes_bind m k 0 z 0 n); [done|]. intros a w' E. apply Hk. lia.
Qed.

Lemma takes_ret {A} (a : A) w : takes (ret a) 0 0 w.
Proof. unfold takes, wp, ret. cbn. lia. Qed.
Lemma takes_lift {A} (r : result A) w : takes (lift r) 0 0 w.
Proof. unfold takes, wp, lift. destruct r; cbn; [lia|done]. Qed.
Lemma takes_check e w : takes (check e) 0 0 w.
Proof. unfold takes, wp, check. destruct e; cbn; [done|lia]. Qed.
Lemma takes_throw {A} e z n w : takes (throw (A := A) e) z n w.
Proof. done. Qed.
Lemma takes_call {A} ev (answer : nat → A) w : takes (call ev answer) (cost ev) 0 w.
Proof. unfold takes, wp, call. cbn. rewrite elapsed_app, elapsed_one. lia. Qed.
Lemma takes_set_report f w : takes (set_report f) 0 0 w.
Proof. unfold takes, wp, set_report. cbn. lia. Qed.
Lemma takes_get_report w : takes get_report 0 0 w.
Proof. unfold takes, wp, get_report. cbn. lia. Qed.
Lemma takes_count w : takes count_operation 0 1 w.
Proof. unfold takes, wp, count_operation. cbn. lia. Qed.

Create HintDb bench_time.
#[local] Hint Resolve takes_ret takes_lift takes_check takes_throw takes_set_report takes_get_report : bench_time.
#[local] Hint Extern 1 (takes (call ?ev _) 0 0 _) => (apply (takes_call ev)) : bench_time.

Lemma config_delays c : Validate c = Ok tt →
  1 ≤ DurationSeconds c ≤ 300 ∧ 0 ≤ Settle c ≤ 30 * Second ∧ 0 ≤ Cooldown c ≤ 5 * Minute.
Proof.
  unfold Validate. intros H.
  repeat match goal with
  | H : result_bind (refuse _ _) _ = Ok _ |- _ => apply result_bind_ok in H as ([] & ?%refuse_ok & H)
  | H : result_bind _ _ = Ok _ |- _ => apply result_bind_ok in H as (? & ? & H)
  end.
  repeat match goal with
  | H : (_ || _) = false |- _ => apply orb_false_iff in H as [??]
  end. lia.
Qed.

Section estimate.
Context (sys : system) (exec : IPerfExecutor) (fetch : nat → result Metrics.Snapshot) (now : nat → Z).
Context (sleep : nat → Z → option goerror) (config : RunConfig).

Lemma takes_write name data w : takes (WriteFile sys name data) 0 0 w.
Proof. unfold takes, wp, WriteFile. cbn. rewrite elapsed_app, elapsed_one. cbn. lia. Qed.
#[local] Hint Resolve takes_write : bench_time.

Ltac quiet := repeat first [progress intros | apply takes_quiet | solve [eauto with bench_time] | case_match].

Lemma takes_writeJSON name v w : takes (writeJSON sys name v) 0 0 w.
Proof. unfold writeJSON. quiet. Qed.
#[local] Hint Resolve takes_writeJSON : bench_time.
Lemma takes_persist w : takes (persistReport sys) 0 0 w.
Proof. unfold persistReport. quiet. Qed.
#[local] Hint Resolve takes_persist : bench_time.
Lemma takes_iperf_artifacts p res w : takes (writeIPerfArtifacts sys p res) 0 0 w.
Proof. unfold writeIPerfArtifacts. quiet. Qed.
#[local] Hint Resolve takes_iperf_artifacts : bench_time.
Lemma takes_run_artifacts p res b a w : takes (writeRunArtifacts sys p res b a) 0 0 w.
Proof. unfold writeRunArtifacts. quiet. Qed.
#[local] Hint Resolve takes_run_artifacts : bench_time.

(** The cool-down that follows the operation after [n] others. *)
Definition cooldown_after (n : Z) : Z := if n + 1 <? totalOperations config then Cooldown config else 0.

Lemma takes_finish w : 0 ≤ Cooldown config →
  takes (finish_operation sys sleep config) (cooldown_after (completedOperations w)) 1 w.
Proof.
  intros Hc. unfold finish_operation, cooldown_after, takes. apply wp_bind. unfold wp at 1, count_operation.
  apply wp_bind. eapply wp_mono; [apply takes_persist| |done]. cbn. intros _ w1 [E1 E2].
  destruct (completedOperations w + 1 <? totalOperations config); cbn; [|unfold wp, ret; split; [rewrite E1; cbn; lia|lia]].
  destruct (Z.gtb_spec (Cooldown config) 0); [|unfold wp, ret; split; [rewrite E1; cbn; lia|lia]].
  apply wp_call. unfold wp, check. destruct (sleep _ _); [done|]. cbn. rewrite elapsed_app, elapsed_one, E1. cbn. split; lia.
Qed.

(** What an operation takes, without the cool-down. *)
Definition op_time (o : op) : Z :=
  DurationSeconds config * Second + match o with OpRun _ _ => Settle config | OpWarmup _ _ => 0 end.

Lemma takes_fetch_after w : 0 ≤ Settle config → takes (fetch_after fetch sleep config) (Settle config) 0 w.
Proof.
  intros Hs. unfold fetch_after. eapply takes_eq; [eapply (takes_bind _ _ (Settle config) 0 0 0)|lia|lia].
  - destruct (Z.gtb_spec (Settle config) 0); [apply (takes_call (EvSleep _))|].
    replace (Settle config) with 0 by lia. apply takes_ret.
  - intros a w' _. quiet.
Qed.

Lemma takes_run_iperf c w : takes (run_iperf exec config c) (DurationSeconds config * Second) 0 w.
Proof. apply (takes_call (EvIPerf _ _ _)). Qed.

Lemma takes_op o w : 0 ≤ Cooldown config → 0 ≤ Settle config →
  takes (exec_op sys exec fetch now sleep config o) (op_time o + cooldown_after (completedOperations w)) 1 w.
Proof.
  intros Hc Hs. destruct o as [c i|c i]; cbn [exec_op op_time]; unfold op_time.
  - unfold warmup. cbv zeta. apply takes_quiet; [apply (takes_call EvNow)|]. intros st w1 E1.
    eapply takes_eq; [eapply (takes_bind _ _ _ (cooldown_after (completedOperations w)) 0 1);
      [apply takes_run_iperf|]|lia|done].
    intros [res err] w2 E2. assert (completedOperations w2 = completedOperations w) as E by lia.
    apply takes_quiet; [apply (takes_call EvNow)|]. intros ft w3 E3. apply takes_quiet; [apply takes_iperf_artifacts|]. intros fl w4 E4.
    apply takes_quiet; [apply takes_check|]. intros _ w5 E5. apply takes_quiet; [apply takes_lift|]. intros sm w6 E6.
    apply takes_quiet; [apply takes_lift|]. intros _ w7 E7. apply takes_quiet; [apply takes_set_report|]. intros _ w8 E8.
    replace (completedOperations w) with (completedOperations w8) by lia. by apply takes_finish.
  - unfold measure. cbv zeta. apply takes_quiet; [apply (takes_call EvFetch)|]. intros fe w1 E1.
    apply takes_quiet; [apply takes_lift|]. intros before w2 E2. apply takes_quiet; [apply (takes_call EvNow)|]. intros st w3 E3.
    eapply takes_eq; [eapply (takes_bind _ _ _ (Settle config + cooldown_after (completedOperations w)) 0 1);
      [apply takes_run_iperf|]|lia|done].
    intros [res err] w4 E4. apply takes_quiet; [apply (takes_call EvNow)|]. intros ft w5 E5.
    apply (takes_bind _ _ _ _ 0 1); [by apply takes_fetch_after|]. intros fa w6 E6.
    apply takes_quiet; [apply takes_run_artifacts|]. intros fl w7 E7.
    apply takes_quiet; [apply takes_check|]. intros _ w8 E8. apply takes_quiet; [apply takes_lift|]. intros after w9 E9.
    apply takes_quiet; [apply takes_lift|]. intros sm w10 E10. apply takes_quiet; [apply takes_lift|]. intros _ w11 E11.
    apply takes_quiet; [apply takes_lift|]. intros delta w12 E12. apply takes_quiet; [apply takes_set_report|]. intros _ w13 E13.
    replace (completedOperations w) with (completedOperations w13) by lia. by apply takes_finish.
Qed.

(** The plan, operation by operation; the last one is not followed by a cool-down. *)
Fixpoint plan_time (n : Z) (ops : list op) : Z :=
  match ops with [] => 0 | o :: ops => op_time o + cooldown_after n + plan_time (n + 1) ops end.

Lemma takes_ops ops w : 0 ≤ Cooldown config → 0 ≤ Settle config →
  takes (for_each ops (exec_op sys exec fetch now sleep config)) (plan_time (completedOperations w) ops)
    (Z.of_nat (length ops)) w.
Proof.
  intros Hc Hs. revert w. induction ops as [|o ops IH]; intros w; cbn [for_each plan_time length]; [apply takes_ret|].
  eapply takes_eq; [eapply (takes_bind _ _ _ (plan_time (completedOperations w + 1) ops) 1 (Z.of_nat (length ops))); [by apply takes_op|]|done|lia].
  intros _ w' <-. apply IH.
Qed.

Lemma plan_time_sum n ops : n + Z.of_nat (length ops) = totalOperations config → ops ≠ [] →
  plan_time n ops = foldr (λ o z, op_time o + z) 0 ops + (Z.of_nat (length ops) - 1) * Cooldown config.
Proof.
  revert n. induction ops as [|o ops IH]; intros n Hn Hne; [done|]. cbn [plan_time foldr length] in *.
  unfold cooldown_after. destruct ops as [|o' ops].
  - cbn in *. destruct (Z.ltb_spec (n + 1) (totalOperations config)); lia.
  - rewrite IH by (done || cbn [length] in *; lia).
    destruct (Z.ltb_spec (n + 1) (totalOperations config)); cbn [length] in *; lia.
Qed.

Definition ops_time (ops : list op) : Z := foldr (λ o z, op_time o + z) 0 ops.

Lemma ops_time_app a b : ops_time (a ++ b) = ops_time a + ops_time b.
Proof. unfold ops_time. induction a as [|o a IH]; cbn [foldr app]; [done|]. lia. Qed.

Lemma plan_sums : 0 ≤ WarmupRuns config → 0 ≤ Runs config →
  Z.of_nat (length (plan config)) = totalOperations config ∧
  ops_time (plan config) = totalOperations config * (DurationSeconds config * Second) +
    Z.of_nat (length (Cases config)) * Runs config * Settle config.
Proof.
  intros Hw Hr. unfold plan, totalOperations.
  assert (∀ (mk : Z → op) t l, (∀ i, op_time (mk i) = t) → ops_time (mk <$> l) = Z.of_nat (length l) * t) as Hmap.
  { intros mk t l Hmk. unfold ops_time. induction l as [|i l IH]; [done|]. rewrite fmap_cons. cbn [foldr length]. rewrite Hmk, IH. lia. }
  induction (Cases config) as [|c cases [IH1 IH2]]; [done|]. rewrite bind_cons. cbn [length].
  rewrite length_app, ops_time_app, IH2. unfold case_plan at 1 3. rewrite length_app, ops_time_app, !length_fmap, !length_seqZ.
  rewrite (Hmap _ (DurationSeconds config * Second)) by (intros; unfold op_time; lia).
  rewrite (Hmap _ (DurationSeconds config * Second + Settle config)) by (intros; unfold op_time; lia).
  rewrite !length_seqZ. split.
  - nia.
  - rewrite !Z2Nat.id by lia. nia.
Qed.

Lemma takes_prepare w : takes (prepare sys exec fetch now config) 0 0 w.
Proof. unfold prepare, validateOutputAvailable, createOutputDirectory. quiet. Qed.

Lemma takes_run_cases w : Validate config = Ok tt → completedOperations w = 0 →
  takes (run_cases sys exec fetch now sleep config) (ops_time (plan config) + (totalOperations config - 1) * Cooldown config)
    (totalOperations config) w.
Proof.
  intros Hv H0. pose proof (config_bounds config Hv) as (Hr & Hw & Hne & _).
  destruct (config_delays config Hv) as (Hd & Hs & Hc). unfold MinimumRuns in Hr.
  destruct plan_sums as [Hlen _]; [lia|lia|].
  assert (plan config ≠ []) as Hp.
  { intros E. rewrite E in Hlen. unfold totalOperations in Hlen. destruct (Cases config); [done|]. cbn in Hlen. nia. }
  unfold run_cases. eapply takes_eq;
    [eapply (takes_bind _ _ (plan_time (completedOperations w) (plan config)) 0 (Z.of_nat (length (plan config))) 0)| |lia].
  - unfold takes, wp. rewrite (loops_plan sys exec fetch now sleep config). apply (takes_ops (plan config) w); lia.
  - intros. quiet.
  - rewrite H0, plan_time_sum by (done || lia). unfold ops_time. rewrite Hlen. lia.
Qed.

Lemma takes_run_report w w' : Validate config = Ok tt → run_report sys exec fetch now sleep config w = (None, w') →
  elapsed (trace w') = elapsed (trace w) + ops_time (plan config) + (totalOperations config - 1) * Cooldown config.
Proof.
  intros Hv. pose proof (takes_run_cases (w <| completedOperations := 0 |>) Hv eq_refl) as T. unfold takes, wp in T.
  unfold run_report. destruct (run_cases _ _ _ _ _ _ _) as [[[]|e] w1]; [|by destruct (fail _ _ _ _)].
  pose proof (λ v, takes_persist v) as P. unfold takes, wp in P. cbn -[persistReport] in *.
  match goal with |- context [persistReport sys ?v] => specialize (P v); destruct (persistReport sys v) as [[[]|e] w2] end; [|done].
  intros [= <-]. cbn in P. rewrite elapsed_app, elapsed_one in P. cbn in P. lia.
Qed.
End estimate.

Local Ltac in_range := unfold in_int, two63; lia.

(** Nothing in the estimate overflows for a valid configuration. *)
Lemma estimate_exact c : Validate c = Ok tt →
  EstimatedDuration (makeDryRunPlan c) =
    ops_time c (plan c) + (totalOperations c - 1) * Cooldown c.
Proof.
  intros Hv. pose proof (config_bounds c Hv) as (Hr & Hw & Hne & Hf & Hn). destruct (config_delays c Hv) as (Hd & Hs & Hc).
  pose proof (valid_cases_bounded _ Hf Hn) as Hlen. unfold MinimumRuns in Hr.
  destruct (plan_sums c) as [_ ->]; [lia..|]. unfold makeDryRunPlan, totalOperations. cbn [EstimatedDuration].
  assert (1 ≤ Z.of_nat (length (Cases c)) ≤ 256) as Hk by (destruct (Cases c); [done|cbn [length] in *; lia]).
  set (k := Z.of_nat (length (Cases c))) in *. clearbody k. unfold Minute, Second in *.
  assert (3 ≤ k * (WarmupRuns c + Runs c) ≤ 6400) as Hops by nia. assert (0 ≤ k * Runs c ≤ 5120) as Hruns by nia.
  rewrite (wrap_int_id (WarmupRuns c + Runs c)) by in_range. rewrite (wrap_int_id (k * (WarmupRuns c + Runs c))) by in_range.
  rewrite (wrap_int_id (k * Runs c)) by in_range. set (ops := k * (WarmupRuns c + Runs c)) in *. set (m := k * Runs c) in *.
  clearbody ops m. assert (0 ≤ ops * DurationSeconds c ≤ 1920000) as H1 by nia.
  assert (0 ≤ m * Settle c ≤ 5120 * 30000000000) as H2 by nia.
  assert (0 ≤ (ops - 1) * Cooldown c ≤ 6400 * 300000000000) as H3
    by (split; [apply Z.mul_nonneg_nonneg; lia|apply Z.mul_le_mono_nonneg; lia]).
  rewrite (wrap_int_id (ops * _)) by in_range. rewrite (wrap_int_id (m * _)) by in_range.
  rewrite (wrap_int_id ((ops - 1) * _)) by in_range.
  rewrite (wrap_int_id (_ * 1000000000)) by in_range. rewrite (wrap_int_id (_ + m * _)) by in_range.
  destruct (Z.gtb_spec ops 1); [|lia]. rewrite wrap_int_id by in_range. nia.
Qed.

(** The estimate printed by a dry run is the time of the real run: for every
    run of the harness that completes, the waits and the iperf3 durations it
    went through add up to exactly [EstimatedDuration], computed in 64-bit
    arithmetic. *)
Theorem estimate_is_run_time sys h config w rep w' :
  Run sys h true config w = ((Some rep, None), w') →
  elapsed (trace w') = elapsed (trace w) + EstimatedDuration (makeDryRunPlan config).
Proof.
  unfold Run. cbn [negb]. destruct (Validate config) as [[]|e] eqn:Hv; [|done].
  destruct (IPerf h) as [exec|]; [|done]. destruct (Metrics_ h) as [fetch|]; [|done]. cbv zeta.
  pose proof (takes_prepare sys exec fetch (default (os_now sys) (Now h)) config w) as T. unfold takes, wp in T.
  destruct (prepare _ _ _ _ _ w) as [[[]|e] w1]; [|done]. cbn in T. destruct T as [T _].
  destruct (run_report _ _ _ _ _ _ w1) as [e w2] eqn:E. intros [= <- -> <-].
  rewrite (takes_run_report _ _ _ _ _ _ _ _ Hv E), T, (estimate_exact _ Hv). lia.
Qed.

Lemma estimate_is_run_time_witness : ∃ rep w',
  Run sample_system sample_harness true sample_config sample_world = ((Some rep, None), w') ∧
  elapsed (trace w') = EstimatedDuration (makeDryRunPlan sample_config) ∧
  EstimatedDuration (makeDryRunPlan sample_config) = 93 * Second.
Proof.
  assert (match (Run sample_system sample_harness true sample_config sample_world).1 with
          | (Some _, None) => true | _ => false end = true) as Hok by (vm_compute; reflexivity).
  destruct (Run sample_system sample_harness true sample_config sample_world) as [[[rep|] [e|]] w'] eqn:E;
    try discriminate Hok. clear Hok. exists rep, w'. split; [reflexivity|]. split; [|vm_compute; reflexivity].
  exact (estimate_is_run_time sample_system sample_harness sample_config sample_world rep w' E).
Defined.

(** A parser that answers for one loopback origin, and a server that redirects
    the first request elsewhere. *)
Definition sample_url : URL := MkURL (str "http") None (str "127.0.0.1:6060") [] [] [].
Definition sample_parse (b : bytes) : result URL :=
  if bool_decide (b = str "http://127.0.0.1:6060") then Ok sample_url
  else if bool_decide (b = str "http://127.0.0.1:6060/metrics") then Ok (sample_url <| Path := str "/metrics" |>)
  else Err (errorf (str "other")).
Definition sample_token : bytes := concat (replicate 32 (str "ab")).
Definition sample_transport : Transport := MkTransport (Some (λ _, Some (str "192.0.2.9:3128"))).
Definition sample_client : HTTPMetricsClient :=
  MkClient (str "http://127.0.0.1:6060/metrics") sample_token
    (MkHttpClient (MkTransport None) (5 * Second) (Some (λ _, UseLastResponse))).
Definition sample_exchange (via : list http_request) (addr : bytes) (r : http_request) : Z * result reply :=
  (0, Ok (MkReply Second (2 * Second) (str "http://192.0.2.1/metrics") (MkResponse 302 [] None) 0)).

Lemma sample_parses_back : parses_back sample_parse.
Proof.
  intros b u. unfold sample_parse at 1. case_bool_decide; [intros [= <-] _ _; reflexivity|].
  case_bool_decide; [intros [= <-] Ho; discriminate Ho|done].
Qed.

Lemma fetch_trusted_witness :
  NewHTTPMetricsClient sample_parse (Some sample_transport) (str "http://127.0.0.1:6060") sample_token = Ok sample_client ∧
  length (sent (Fetch sample_parse (λ _ _, Ok sample_url) sample_exchange (λ _, (Err (errorf []), DecodedError)) 0
                  sample_client no_wire).2) = 1%nat.
Proof.
  assert (NewHTTPMetricsClient sample_parse (Some sample_transport) (str "http://127.0.0.1:6060") sample_token = Ok sample_client) as H
    by (vm_compute; reflexivity).
  split; [exact H|].
  pose proof (fetch_trusted sample_parse (Some sample_transport) (str "http://127.0.0.1:6060") sample_token
    (λ _ _, Ok sample_url) sample_exchange (λ _, (Err (errorf []), DecodedError)) 0 sample_client sample_parses_back H) as T.
  destruct (Fetch _ _ _ _ _ _ _) as [r w]. destruct T as (u & q & _ & _ & E & _). cbn [snd]. rewrite E. reflexivity.
Defined.

(** A client with the default settings goes through the proxy of the environment,
    and follows a redirect to another machine. *)
Definition redirecting (via : list http_request) (addr : bytes) (r : http_request) : Z * result reply :=
  (0, Ok (MkReply Second Second (str "http://192.0.2.1/")
            (MkResponse (match via with [] => 302 | _ => 200 end) [] None) 0)).
Definition default_sends (proxy : option (URL → option bytes)) : list bytes :=
  (sent (Do (λ _ _, Ok (sample_url <| Host := str "192.0.2.1" |>)) redirecting 0
           (MkHttpClient (MkTransport proxy) 0 None) (MkRequest sample_url (str "Bearer x") []) no_wire).2).*1.

Example default_client_follows :
  default_sends None = [str "127.0.0.1:6060"; str "192.0.2.1:80"] ∧
  default_sends (Proxy sample_transport) = [str "192.0.2.9:3128"; str "192.0.2.9:3128"].
Proof. split; vm_compute; reflexivity. Qed.

Definition sample_flags : flags :=
  MkFlags (str "lab") (str "UDP") (str "bond") 4 (str "10.0.0.1:5201") 3 1 (10 * Second) Second Second
    (str "1, 4") (str "upload,download") (str "iperf3") (str "http://127.0.0.1:6060") [] (str "out") [] [] true [].

Lemma cli_sound_witness : ∃ o,
  parseCLI sample_parse (Some sample_transport) (Some (str "20240101T000000Z")) (Some (str "abc")) None sample_flags = Ok o ∧
  Validate (opt_config o) = Ok tt ∧ length (Cases (opt_config o)) = 4%nat.
Proof.
  assert (is_ok (parseCLI sample_parse (Some sample_transport) (Some (str "20240101T000000Z")) (Some (str "abc")) None sample_flags) = true) as Hok
    by (vm_compute; reflexivity).
  destruct (parseCLI sample_parse (Some sample_transport) (Some (str "20240101T000000Z")) (Some (str "abc")) None sample_flags) as [o|e] eqn:E;
    [|discriminate Hok]. clear Hok. exists o. split; [reflexivity|].
  destruct (cli_sound sample_parse (Some sample_transport) (Some (str "20240101T000000Z")) (Some (str "abc")) None sample_flags o E)
    as (Hv & _ & _ & (ds & fs & Hd & Hf & _ & Hlen & _) & _).
  split; [exact Hv|]. rewrite Hlen. vm_compute in Hd, Hf. injection Hd as <-. injection Hf as <-. reflexivity.
Defined.
End BenchCLI.
