(* ===== verification/ClientUdp.v ===== *)
(** * Forwarding local datagrams (client/main.go: main without -vless,
    oneDtlsConnection, oneDtlsConnectionLoop)

    A pump reads datagrams of the local peer into buffers of [packetPool] and
    queues them; each stream keeps a DTLS connection, on which one goroutine
    writes queued packets and another reads the answers.  [step] interleaves the
    pump, all streams, their goroutines and the main function.  The buffers are
    shared memory: [mem] holds their contents, and a write reads them. *)

From S2P Require Import Prelude GoStrings Metrics ClientCreds ClientSessions.

Module ClientUdp.
Import ClientCreds.

Definition udpPacketBufferSize : nat := 2048.
Definition inbound_capacity : nat := 2000.

Record UDPPacket := MkPacket { Data : bytes; N : nat }.

Definition new_packet : UDPPacket := MkPacket (replicate udpPacketBufferSize Ascii.zero) 0.

(** [pkt.Data[:pkt.N]] *)
Definition payload (pkt : UDPPacket) : bytes := take (N pkt) (Data pkt).

(** [ReadFrom(pkt.Data)]: the first bytes are overwritten, the rest of a longer
    datagram is lost. *)
Definition read_into (p : bytes) (pkt : UDPPacket) : UDPPacket := MkPacket (p ++ drop (length p) (Data pkt)) (N pkt).

Inductive pump_pc :=
  | Pu_get | Pu_read (b : nat) | Pu_accept (b : nat) (p : bytes) (addr : option net_addr)
  | Pu_queue (b : nat) (p : bytes) (addr : net_addr) | Pu_done.

Inductive writer_pc := Wr_none | Wr_top | Wr_select | Wr_write (b : nat) | Wr_put (b : nat) (ok : bool) | Wr_cancel | Wr_done.

Inductive reader_pc := Rd_none | Rd_read | Rd_forward (p : bytes) | Rd_cancel | Rd_done.

(** [oneDtlsConnectionLoop] and, from [L_delay] to [L_close_pipe],
    [oneDtlsConnection]. *)
Inductive loop_pc :=
  | L_wait | L_top | L_delay | L_connect | L_run | L_clear | L_close | L_cancel (err : option goerror)
  | L_close_pipe (err : option goerror) | L_backoff | L_returned.

Record stream := MkStream {
  loop : loop_pc;
  writer : writer_pc;
  reader : reader_pc;
  dtlsctx : bool;          (* cancelled, or its parent is *)
  armed : bool;            (* the deadline function waits for dtlsctx *)
  expired : bool;          (* it ran *)
  offering : bool;         (* the goroutine that offers conn2 *)
  reporting : bool;        (* the goroutine that sends on okchan *)
  leaving : nat;           (* goroutines of earlier connections, not gone yet *)
  conns : list nat;        (* Close calls, by DTLS connection *)
  pipes : list nat;        (* Close calls, by packet pipe *)
}.

#[export] Instance stream_eta : Eta stream := λ s,
  MkStream (loop s) (writer s) (reader s) (dtlsctx s) (armed s) (expired s) (offering s) (reporting s) (leaving s) (conns s) (pipes s).

Inductive main_pc := M_wait_ok | M_wait_streams | M_returned.

Record udp := MkUdp {
  ctx_done : bool;
  pool : list nat;
  mem : list UDPPacket;
  inboundChan : list nat;
  localPeer : localPeerPin;
  registry : Metrics.Registry;
  pump : pump_pc;
  streams : list stream;
  main : main_pc;
  accepted : list (net_addr * bytes * bool);  (* sender, datagram, queued *)
  taken : list (nat * bytes);                 (* by a stream, from the queue *)
  sent : list (nat * bytes);                  (* written to a stream's connection *)
  to_local : list (bytes * net_addr);
}.

#[export] Instance udp_eta : Eta udp := λ u,
  MkUdp (ctx_done u) (pool u) (mem u) (inboundChan u) (localPeer u) (registry u) (pump u) (streams u) (main u)
    (accepted u) (taken u) (sent u) (to_local u).

Definition content (u : udp) (b : nat) : bytes := default [] (payload <$> mem u !! b).

Definition Put (b : nat) (u : udp) : udp := u <| pool ::= (λ l, l ++ [b]) |>.

(** ** The pump *)

Definition pump_read (b : nat) (p : bytes) (addr : option net_addr) (u : udp) : udp :=
  let p := take udpPacketBufferSize p in
  u <| mem ::= alter (read_into p) b |> <| pump := Pu_accept b p addr |>.

Definition pump_failed (b : nat) (u : udp) : udp := Put b (u <| ctx_done := true |> <| pump := Pu_done |>).

(** [pkt.N = nRead] once the sender is accepted. *)
Definition pump_accept (b : nat) (p : bytes) (addr : option net_addr) (now : Z) (u : udp) : udp :=
  let '(ok, pin) := pin_Accept addr now (localPeer u) in
  let u := u <| localPeer := pin |> in
  match ok, addr with
  | true, Some a => u <| mem ::= alter (λ pkt, MkPacket (Data pkt) (length p)) b |> <| pump := Pu_queue b p a |>
  | _, _ => Put b (u <| pump := Pu_get |>)
  end.

Definition pump_queue (b : nat) (p : bytes) (a : net_addr) (u : udp) : udp :=
  let queued := (length (inboundChan u) <? inbound_capacity)%nat in
  let u := u <| accepted ::= (λ l, l ++ [(a, p, queued)]) |> <| pump := Pu_get |> in
  if queued then u <| inboundChan ::= (λ l, l ++ [b]) |>
  else Put b (u <| registry ::= Metrics.QueueDropped |>).

(** Get answers with a buffer of the pool or a new one. *)
Inductive pump_step (u : udp) : udp → Prop :=
  | pump_reuse b : pump u = Pu_get → b ∈ pool u →
      pump_step u (u <| pool ::= remove_first b |> <| pump := Pu_read b |>)
  | pump_new : pump u = Pu_get →
      pump_step u (u <| mem ::= (λ l, l ++ [new_packet]) |> <| pump := Pu_read (length (mem u)) |>)
  | pump_reads b p addr : pump u = Pu_read b → pump_step u (pump_read b p addr u)
  | pump_fails b : pump u = Pu_read b → pump_step u (pump_failed b u)
  | pump_accepts b p addr now : pump u = Pu_accept b p addr → pump_step u (pump_accept b p addr now u)
  | pump_queues b p a : pump u = Pu_queue b p a → pump_step u (pump_queue b p a u).

(** ** A stream *)

Definition done (u : udp) (s : stream) : bool := dtlsctx s || ctx_done u.

Definition set_stream (i : nat) (s : stream) (u : udp) : udp := u <| streams ::= <[i := s]> |>.

(** The loop after [oneDtlsConnection] returned. *)
Definition loop_result (i : nat) (err : option goerror) (unix lockout jitter : Z) (s : stream) (u : udp) : udp :=
  let s := s <| writer := Wr_none |> <| reader := Rd_none |> in
  match ClientSessions.dtls_loop_verdict err unix lockout jitter with
  | ClientSessions.StopApplication => set_stream i (s <| loop := L_returned |>) (u <| ctx_done := true |>)
  | ClientSessions.RetryAfter d =>
      set_stream i (s <| loop := if d =? 0 then L_top else L_backoff |>) u
  end.

(** The pipe is open and its goroutine offers [conn2]. *)
Definition begin_connection (s : stream) : stream :=
  s <| dtlsctx := false |> <| armed := false |> <| expired := false |> <| offering := true |> <| reporting := false |>
    <| pipes ::= (λ l, l ++ [0%nat]) |> <| loop := L_connect |>.

(** [dtlsFunc] returned a connection. *)
Definition connected (report_ok : bool) (s : stream) : stream :=
  s <| conns ::= (λ l, l ++ [0%nat]) |> <| reporting := report_ok |> <| armed := true |>
    <| writer := Wr_top |> <| reader := Rd_read |> <| loop := L_run |>.

Definition close_last (l : list nat) : list nat := alter S (pred (length l)) l.

(** [oneDtlsConnection] returns: what it started and did not end is left behind. *)
Definition leave (s : stream) : stream :=
  s <| leaving := (leaving s + Nat.b2n (offering s) + Nat.b2n (reporting s) + Nat.b2n (armed s))%nat |>
    <| offering := false |> <| reporting := false |> <| armed := false |>.

Definition take_packet (i b : nat) (rest : list nat) (s : stream) (u : udp) : udp :=
  set_stream i (s <| writer := Wr_write b |>)
    (u <| inboundChan := rest |> <| taken ::= (λ l, l ++ [(i, content u b)]) |>).

Definition write_packet (i b : nat) (ok : bool) (s : stream) (u : udp) : udp :=
  set_stream i (s <| writer := Wr_put b ok |>)
    (if ok then u <| sent ::= (λ l, l ++ [(i, content u b)]) |> else u).

Definition put_packet (i b : nat) (ok : bool) (s : stream) (u : udp) : udp :=
  set_stream i (s <| writer := if ok then Wr_top else Wr_cancel |>) (Put b u).

Definition forward (i : nat) (p : bytes) (s : stream) (u : udp) : udp :=
  set_stream i (s <| reader := Rd_read |>)
    (match pin_Current (localPeer u) with
     | Some a => u <| to_local ::= (λ l, l ++ [(p, a)]) |>
     | None => u
     end).

Inductive stream_step (i : nat) (s : stream) (u : udp) : udp → Prop :=
  (* the loop *)
  | loop_ctx : loop s = L_top → ctx_done u = true → stream_step i s u (set_stream i (s <| loop := L_returned |>) u)
  | loop_enter : loop s = L_top → stream_step i s u (set_stream i (s <| loop := L_delay |>) u)
  | loop_backoff : loop s = L_backoff → stream_step i s u (set_stream i (s <| loop := L_top |>) u)
  | loop_backoff_ctx : loop s = L_backoff → ctx_done u = true →
      stream_step i s u (set_stream i (s <| loop := L_returned |>) u)
  (* the connection *)
  | conn_delay_ctx e x y z : loop s = L_delay → ctx_done u = true →
      stream_step i s u (loop_result i (Some e) x y z s u)
  | conn_begin : loop s = L_delay → stream_step i s u (set_stream i (begin_connection s) u)
  | conn_failed e : loop s = L_connect →
      stream_step i s u (set_stream i (s <| loop := L_cancel (Some (ClientSessions.dtls_connect_error e)) |>) u)
  | conn_connected : loop s = L_connect → stream_step i s u (set_stream i (connected (bool_decide (i = 0%nat)) s) u)
  | conn_wait : loop s = L_run → writer s = Wr_done → reader s = Rd_done →
      stream_step i s u (set_stream i (s <| loop := L_clear |>) u)
  | conn_clear : loop s = L_clear → stream_step i s u (set_stream i (s <| expired := false |> <| loop := L_close |>) u)
  | conn_close : loop s = L_close →
      stream_step i s u (set_stream i (s <| conns ::= close_last |> <| loop := L_cancel None |>) u)
  | conn_cancel err : loop s = L_cancel err →
      stream_step i s u (set_stream i (s <| dtlsctx := true |> <| loop := L_close_pipe err |>) u)
  | conn_close_pipe err x y z : loop s = L_close_pipe err →
      stream_step i s u (loop_result i err x y z (leave (s <| pipes ::= close_last |>)) u)
  (* the goroutine that writes *)
  | writer_done : writer s ∈ [Wr_top; Wr_select] → done u s = true →
      stream_step i s u (set_stream i (s <| writer := Wr_cancel |>) u)
  | writer_select : writer s = Wr_top → done u s = false →
      stream_step i s u (set_stream i (s <| writer := Wr_select |>) u)
  | writer_take b rest : writer s = Wr_select → inboundChan u = b :: rest → stream_step i s u (take_packet i b rest s u)
  | writer_write b ok : writer s = Wr_write b → stream_step i s u (write_packet i b ok s u)
  | writer_put b ok : writer s = Wr_put b ok → stream_step i s u (put_packet i b ok s u)
  | writer_cancel : writer s = Wr_cancel →
      stream_step i s u (set_stream i (s <| dtlsctx := true |> <| writer := Wr_done |>) u)
  (* the goroutine that reads *)
  | reader_packet p : reader s = Rd_read → expired s = false →
      stream_step i s u (set_stream i (s <| reader := Rd_forward p |>) u)
  | reader_failed : reader s = Rd_read → stream_step i s u (set_stream i (s <| reader := Rd_cancel |>) u)
  | reader_forward p : reader s = Rd_forward p → stream_step i s u (forward i p s u)
  | reader_cancel : reader s = Rd_cancel →
      stream_step i s u (set_stream i (s <| dtlsctx := true |> <| reader := Rd_done |>) u)
  (* goroutines that wait for the context *)
  | deadline_runs : armed s = true → done u s = true →
      stream_step i s u (set_stream i (s <| armed := false |> <| expired := true |>) u)
  | offer_ends : offering s = true → done u s = true → stream_step i s u (set_stream i (s <| offering := false |>) u)
  | report_ends : reporting s = true → done u s = true → stream_step i s u (set_stream i (s <| reporting := false |>) u)
  | left_behind n : leaving s = S n → stream_step i s u (set_stream i (s <| leaving := n |>) u).

(** ** All of it *)

Definition start_stream (s : stream) : stream :=
  match loop s with L_wait => s <| loop := L_top |> | _ => s end.

Definition idle_stream (l : loop_pc) : stream := MkStream l Wr_none Rd_none false false false false false 0 [] [].

Definition startUDPMode (n : Z) (pin : localPeerPin) (reg : Metrics.Registry) : udp :=
  let numStreams := if n <=? 0 then 1 else n in
  MkUdp false [] [] [] pin reg Pu_get
    (idle_stream L_top :: replicate (pred (Z.to_nat numStreams)) (idle_stream L_wait)) M_wait_ok [] [] [] [].

Inductive step (u : udp) : udp → Prop :=
  | step_cancel : step u (u <| ctx_done := true |>)
  | step_collect b : b ∈ pool u → step u (u <| pool ::= remove_first b |>)
  | step_pump u' : pump_step u u' → step u u'
  | step_stream i s u' : streams u !! i = Some s → stream_step i s u u' → step u u'
  | step_ok s : main u = M_wait_ok → streams u !! 0%nat = Some s → reporting s = true →
      step u (u <| streams ::= (λ l, start_stream <$> <[0%nat := s <| reporting := false |>]> l) |> <| main := M_wait_streams |>)
  | step_ok_ctx : main u = M_wait_ok → ctx_done u = true →
      step u (u <| streams ::= fmap start_stream |> <| main := M_wait_streams |>)
  | step_return : main u = M_wait_streams → Forall (λ s, loop s = L_returned) (streams u) →
      step u (u <| main := M_returned |>).

Definition reachable (u : udp) : Prop :=
  ∃ n pin reg, pinned pin = None ∧ Metrics.queueDrops reg = 0 ∧ rtc step (startUDPMode n pin reg) u.
(** ** A stream's connections and goroutines *)

Definition has_conn (l : loop_pc) : bool := match l with L_run | L_clear | L_close => true | _ => false end.
Definition has_pipe (l : loop_pc) : bool :=
  match l with L_connect | L_run | L_clear | L_close | L_cancel _ | L_close_pipe _ => true | _ => false end.

(** All closed once, but the one in use. *)
Definition closed_but (live : bool) (l : list nat) : Prop :=
  ∃ k, l = replicate k 1%nat ++ (if live then [0%nat] else []).

Definition workers_ok (s : stream) : Prop :=
  match loop s with
  | L_run => writer s ≠ Wr_none ∧ reader s ≠ Rd_none
  | L_clear | L_close | L_cancel _ | L_close_pipe _ =>
      (writer s = Wr_done ∧ reader s = Rd_done) ∨ (writer s = Wr_none ∧ reader s = Rd_none)
  | _ => writer s = Wr_none ∧ reader s = Rd_none
  end.

Record stream_inv (s : stream) : Prop := {
  inv_conns : closed_but (has_conn (loop s)) (conns s);
  inv_pipes : closed_but (has_pipe (loop s)) (pipes s);
  inv_workers : workers_ok s;
  inv_helpers : has_pipe (loop s) = false → offering s = false ∧ reporting s = false ∧ armed s = false;
}.

Lemma closed_open l : closed_but false l → closed_but true (l ++ [0%nat]).
Proof. intros [k ->]. exists k. by rewrite app_nil_r. Qed.

Lemma closed_close l : closed_but true l → closed_but false (close_last l).
Proof.
  intros [k ->]. exists (S k). unfold close_last. rewrite length_app, length_replicate. cbn [length].
  replace (pred (k + 1)) with (length (replicate k 1%nat) + 0)%nat by (rewrite length_replicate; lia).
  rewrite alter_app_r. change (alter S 0%nat [0%nat]) with [1%nat]. cbv iota. by rewrite app_nil_r, replicate_S_end.
Qed.

(** A worker that has not ended runs within [L_run]. *)
Lemma worker_running s : stream_inv s →
  writer s ∉ [Wr_none; Wr_done] ∨ reader s ∉ [Rd_none; Rd_done] → loop s = L_run.
Proof.
  intros [_ _ Hw _] H. unfold workers_ok in Hw. destruct (loop s); try done;
    destruct H as [H|H]; destruct H; destruct_or?; destruct_and?; set_solver.
Qed.

Lemma inv_run s w r d e a o p : stream_inv s → loop s = L_run → w ≠ Wr_none → r ≠ Rd_none →
  stream_inv (MkStream (loop s) w r d a e o p (leaving s) (conns s) (pipes s)).
Proof. intros [Hc Hp Hw Hh] Hl ??. split; unfold workers_ok; cbn; rewrite Hl in *; by cbn in *. Qed.

Lemma inv_helper s d e a o p n : stream_inv s → (armed s = false → a = false) → (offering s = false → o = false) →
  (reporting s = false → p = false) →
  stream_inv (MkStream (loop s) (writer s) (reader s) d a e o p n (conns s) (pipes s)).
Proof. intros [Hc Hp Hw Hh] ???. split; cbn; auto. intros Hn. destruct (Hh Hn) as (?&?&?). auto. Qed.

(** What a stream's step does to the shared state. *)
Inductive shared_step (i : nat) (s : stream) (u : udp) : stream → udp → Prop :=
  | shared_none s' c : writer s' = writer s ∨ (writer s ∈ [Wr_none; Wr_top; Wr_select; Wr_cancel; Wr_done] ∧
                         writer s' ∈ [Wr_none; Wr_top; Wr_select; Wr_cancel; Wr_done]) →
      shared_step i s u s' (set_stream i s' (u <| ctx_done := c |>))
  | shared_take b rest : writer s = Wr_select → inboundChan u = b :: rest →
      shared_step i s u (s <| writer := Wr_write b |>) (take_packet i b rest s u)
  | shared_write b ok : writer s = Wr_write b → shared_step i s u (s <| writer := Wr_put b ok |>) (write_packet i b ok s u)
  | shared_put b ok : writer s = Wr_put b ok →
      shared_step i s u (s <| writer := if ok then Wr_top else Wr_cancel |>) (put_packet i b ok s u)
  | shared_forward p : reader s = Rd_forward p → shared_step i s u (s <| reader := Rd_read |>) (forward i p s u).

Lemma keep_ctx (u : udp) : u = u <| ctx_done := ctx_done u |>.
Proof. by destruct u. Qed.

Lemma shared_keep i s s' u : writer s' = writer s → shared_step i s u s' (set_stream i s' u).
Proof. intros H. rewrite (keep_ctx u) at 2. apply shared_none. by left. Qed.

Lemma shared_idle i s s' u : writer s ∈ [Wr_none; Wr_top; Wr_select; Wr_cancel; Wr_done] →
  writer s' ∈ [Wr_none; Wr_top; Wr_select; Wr_cancel; Wr_done] → shared_step i s u s' (set_stream i s' u).
Proof. intros H H'. rewrite (keep_ctx u) at 2. apply shared_none. by right. Qed.

(** [oneDtlsConnection] has returned, nothing of it is left but the goroutines
    that wait for its context. *)
Lemma loop_result_shared i err x y z s s0 u : writer s0 ∈ [Wr_none; Wr_done] →
  closed_but false (conns s) → closed_but false (pipes s) → offering s = false ∧ reporting s = false ∧ armed s = false →
  ∃ s', shared_step i s0 u s' (loop_result i err x y z s u) ∧ stream_inv s'.
Proof.
  intros Hw Hc Hp Hh. unfold loop_result.
  assert (∀ s' c, writer s' = Wr_none → shared_step i s0 u s' (set_stream i s' (u <| ctx_done := c |>))) as Hs.
  { intros s' c E. apply shared_none. right. rewrite E. set_solver. }
  destruct (ClientSessions.dtls_loop_verdict _ _ _ _) as [|d]; (eexists; split; [|]).
  - by apply Hs.
  - by split.
  - apply shared_idle; [set_solver|]. cbn. set_solver.
  - destruct (d =? 0); by split.
Qed.

Lemma stream_step_shared i s u u' : stream_step i s u u' → stream_inv s → ∃ s', shared_step i s u s' u' ∧ stream_inv s'.
Proof.
  intros Hs I. destruct Hs as [Hl Hx|Hl|Hl|Hl Hx|e x y z Hl Hx|Hl|e Hl|Hl|Hl Hwr Hrd|Hl|Hl|err Hl|err x y z Hl|Hwr Hd|Hwr Hd|b rest Hwr Hq
    |b ok Hwr|b ok Hwr|Hwr|p Hrd He|Hrd|p Hrd|Hrd|Ha Hd|Ha Hd|Ha Hd|n Hn].
  24-27: eexists; split; [by apply shared_keep|]; apply (inv_helper s); auto; congruence.
  14-23: assert (loop s = L_run) as Hl by (apply worker_running; [done|];
    first [left; rewrite Hwr; set_solver|right; rewrite Hrd; set_solver|left; destruct (writer s); set_solver]).
  14-23: assert (writer s ≠ Wr_none ∧ reader s ≠ Rd_none) as [Hwn Hrn]
    by (pose proof (inv_workers s I) as W; unfold workers_ok in W; by rewrite Hl in W).
  14-15,19: eexists; split; [apply shared_idle; [set_solver|set_solver]|by apply (inv_run s)].
  17-18,20: eexists; split; [by apply shared_keep|by apply (inv_run s)].
  14: eexists; split; [by eapply shared_take|by apply (inv_run s)].
  14: eexists; split; [by eapply shared_write|by apply (inv_run s)].
  14: eexists; split; [by eapply shared_put|apply (inv_run s); [done..|by destruct ok|done]].
  14: eexists; split; [by eapply shared_forward|by apply (inv_run s)].
  all: destruct I as [Hc Hp Hw Hh]; unfold workers_ok in Hw; rewrite Hl in Hc, Hp, Hw, Hh; cbn in Hc, Hp, Hw, Hh.
  5: { apply loop_result_shared; [set_solver|done|done|by apply Hh]. }
  12: { apply loop_result_shared; [set_solver|done|by apply closed_close|done]. }
  all: eexists; (split; [solve [by apply shared_keep|apply shared_idle; cbn; set_solver]|]); split; unfold workers_ok; cbn;
    auto using closed_open, closed_close; done.
Qed.

(** ** Buffers and packets *)

Definition pump_buffer (p : pump_pc) : list nat :=
  match p with Pu_read b | Pu_accept b _ _ | Pu_queue b _ _ => [b] | _ => [] end.

Definition writer_buffer (w : writer_pc) : list nat :=
  match w with Wr_write b | Wr_put b _ => [b] | _ => [] end.

Definition stream_buffers (l : list stream) : list nat := l ≫= λ s, writer_buffer (writer s).

Definition buffers (u : udp) : list nat := pool u ++ pump_buffer (pump u) ++ inboundChan u ++ stream_buffers (streams u).

Definition of_stream (i : nat) (l : list (nat * bytes)) : list bytes := snd <$> filter (λ x, x.1 = i) l.

Definition kept (l : list (net_addr * bytes * bool)) : list bytes := (λ x, x.1.2) <$> filter (λ x, x.2 = true) l.

Definition dropped (l : list (net_addr * bytes * bool)) : Z := Z.of_nat (length (filter (λ x, x.2 = false) l)).

(** What the pump holds is in its buffer. *)
Definition pump_holds (u : udp) : Prop :=
  match pump u with
  | Pu_accept b p _ => ∃ pkt, mem u !! b = Some pkt ∧ p `prefix_of` Data pkt
  | Pu_queue b p _ => content u b = p
  | _ => True
  end.

(** A stream writes what it took, in order. *)
Definition writes (u : udp) (i : nat) (w : writer_pc) : Prop :=
  match w with
  | Wr_write b => ∃ l, of_stream i (taken u) = l ++ [content u b] ∧ of_stream i (sent u) `sublist_of` l
  | _ => of_stream i (sent u) `sublist_of` of_stream i (taken u)
  end.

Record packet_inv (u : udp) : Prop := {
  inv_buffers : NoDup (buffers u);
  inv_mem : Forall (λ b, (b < length (mem u))%nat) (buffers u);
  inv_size : Forall (λ pkt, length (Data pkt) = udpPacketBufferSize) (mem u);
  inv_pump : pump_holds u;
  inv_queue : kept (accepted u) = (snd <$> taken u) ++ (content u <$> inboundChan u);
  inv_capacity : (length (inboundChan u) ≤ inbound_capacity)%nat;
  inv_writes i s : streams u !! i = Some s → writes u i (writer s);
  inv_drops : Metrics.queueDrops (registry u) = wrap_int (dropped (accepted u));
}.

Lemma content_frame f b b' u u' : mem u' = alter f b (mem u) → b ≠ b' → content u' b' = content u b'.
Proof. intros E Hne. unfold content. by rewrite E, list_lookup_alter_ne. Qed.

Lemma stream_buffers_insert i s s' l : l !! i = Some s →
  ∃ l1 l2, stream_buffers l = l1 ++ writer_buffer (writer s) ++ l2 ∧
           stream_buffers (<[i := s']> l) = l1 ++ writer_buffer (writer s') ++ l2.
Proof.
  intros Hi. exists (stream_buffers (take i l)), (stream_buffers (drop (S i) l)).
  rewrite insert_take_drop by by eapply lookup_lt_Some. rewrite <-(take_drop_middle l i s Hi) at 1.
  unfold stream_buffers. by rewrite !bind_app, !bind_cons.
Qed.

Lemma of_stream_app i l x : of_stream i (l ++ [x]) = of_stream i l ++ (if decide (x.1 = i) then [x.2] else []).
Proof. unfold of_stream. rewrite filter_app, fmap_app. f_equal. rewrite filter_cons. by case_decide. Qed.
#[local] Arguments of_stream : simpl never.
#[local] Arguments content : simpl never.
#[local] Arguments kept : simpl never.
#[local] Arguments stream_buffers : simpl never.
#[local] Arguments alter : simpl never.

(** Steps that move buffers around and leave the memory alone. *)
Lemma buffers_moved u u' : packet_inv u → buffers u' ≡ₚ buffers u → mem u' = mem u →
  NoDup (buffers u') ∧ Forall (λ b, (b < length (mem u'))%nat) (buffers u') ∧
  Forall (λ pkt, length (Data pkt) = udpPacketBufferSize) (mem u').
Proof. intros [Hn Hm Hs _ _ _ _ _] Hp E. rewrite E. split_and!; [by rewrite Hp|by rewrite Hp|done]. Qed.

Lemma writes_idle u i w : writer_buffer w = [] → writes u i w = (of_stream i (sent u) `sublist_of` of_stream i (taken u)).
Proof. by destruct w. Qed.

Lemma writes_same u u' i w : taken u' = taken u → sent u' = sent u → mem u' = mem u → writes u i w → writes u' i w.
Proof. unfold writes, content. by intros -> -> ->. Qed.

(** The other streams, when one stream changes and takes or sends packets of its
    own only. *)
Lemma writes_others i s' u u' : streams u' = <[i := s']> (streams u) → mem u' = mem u →
  (∀ j, j ≠ i → of_stream j (taken u') = of_stream j (taken u) ∧ of_stream j (sent u') = of_stream j (sent u)) →
  (∀ j s, streams u !! j = Some s → writes u j (writer s)) → writes u' i (writer s') →
  ∀ j s, streams u' !! j = Some s → writes u' j (writer s).
Proof.
  intros Es Em Hl Hu Hi j t Ht. rewrite Es in Ht. apply list_lookup_insert_Some in Ht as [(<- & <- & _)|[Hne Ht]]; [done|].
  specialize (Hu j t Ht). destruct (Hl j) as [E1 E2]; [done|]. unfold writes, content in *. by rewrite E1, E2, Em.
Qed.

Lemma shared_step_inv i s u s' u' : shared_step i s u s' u' → streams u !! i = Some s → packet_inv u → packet_inv u'.
Proof.
  intros Hs Hi I. pose proof (stream_buffers_insert i s s' _ Hi) as (l1 & l2 & E1 & E2).
  pose proof (inv_writes u I i s Hi) as Hw.
  destruct Hs as [s' c Hb|b rest Hwr Hq|b ok Hwr|b ok Hwr|p Hrd].
  - assert (writer_buffer (writer s') = writer_buffer (writer s)) as Eb.
    { destruct Hb as [->|[H1 H2]]; [done|]. destruct (writer s), (writer s'); set_solver. }
    destruct (buffers_moved u (set_stream i s' (u <| ctx_done := c |>)) I) as (Hn&Hm&Hz); [|done|].
    { change (pool u ++ pump_buffer (pump u) ++ inboundChan u ++ stream_buffers (<[i := s']> (streams u)) ≡ₚ buffers u).
      unfold buffers. by rewrite E1, E2, Eb. }
    destruct I. split; try done. apply (writes_others i s' u); try done.
    destruct Hb as [Hb|[Hb1 Hb2]]; [by rewrite Hb|].
    rewrite writes_idle in * by (destruct (writer s), (writer s'); set_solver). done.
  - destruct (buffers_moved u (take_packet i b rest s u) I) as (Hn&Hm&Hz); [|done|].
    { change (pool u ++ pump_buffer (pump u) ++ rest ++ stream_buffers (<[i := s <| writer := Wr_write b |>]> (streams u)) ≡ₚ buffers u).
      unfold buffers. rewrite E1, E2, Hwr, Hq. cbn. solve_Permutation. }
    destruct I. split; try done.
    + change (kept (accepted u) = (snd <$> taken u ++ [(i, content u b)]) ++ (content u <$> rest)).
      rewrite inv_queue0, Hq, fmap_app, <-app_assoc. done.
    + rewrite Hq in inv_capacity0. cbn in *. lia.
    + apply (writes_others i (s <| writer := Wr_write b |>) u); try done.
      * intros j Hj. cbn. rewrite of_stream_app. cbn. rewrite decide_False by congruence. by rewrite app_nil_r.
      * exists (of_stream i (taken u)). cbn. rewrite of_stream_app. cbn. rewrite decide_True by done.
        split; [done|]. by rewrite Hwr in Hw.
  - destruct (buffers_moved u (write_packet i b ok s u) I) as (Hn&Hm&Hz); [|by destruct ok|].
    { trans (pool u ++ pump_buffer (pump u) ++ inboundChan u ++ stream_buffers (<[i := s <| writer := Wr_put b ok |>]> (streams u)));
      [by destruct ok|]. unfold buffers. by rewrite E1, E2, Hwr. }
    rewrite Hwr in Hw. destruct Hw as (l & Hl & Hsub). destruct I. split; try done; try (by destruct ok).
    apply (writes_others i (s <| writer := Wr_put b ok |>) u); try done; try by destruct ok.
    + intros j Hj. destruct ok; cbn; [|done]. rewrite of_stream_app. cbn. rewrite decide_False by congruence. by rewrite app_nil_r.
    + destruct ok; cbn; rewrite Hl.
      * rewrite of_stream_app. cbn. rewrite decide_True by done. by apply sublist_app.
      * by apply sublist_inserts_r.
  - destruct (buffers_moved u (put_packet i b ok s u) I) as (Hn&Hm&Hz); [|done|].
    { change ((pool u ++ [b]) ++ pump_buffer (pump u) ++ inboundChan u ++
        stream_buffers (<[i := s <| writer := if ok then Wr_top else Wr_cancel |>]> (streams u)) ≡ₚ buffers u).
      unfold buffers. rewrite E1, E2, Hwr. change (writer (s <| writer := if ok then Wr_top else Wr_cancel |>)) with (if ok then Wr_top else Wr_cancel).
      replace (writer_buffer (if ok then Wr_top else Wr_cancel)) with (@nil nat) by by destruct ok. cbn. solve_Permutation. }
    destruct I. split; try done. rewrite Hwr in Hw.
    apply (writes_others i (s <| writer := if ok then Wr_top else Wr_cancel |>) u); try done. by destruct ok.
  - destruct (buffers_moved u (forward i p s u) I) as (Hn&Hm&Hz); [|unfold forward; by case_match|].
    { trans (pool u ++ pump_buffer (pump u) ++ inboundChan u ++ stream_buffers (<[i := s <| reader := Rd_read |>]> (streams u)));
      [unfold forward; by case_match|]. unfold buffers. by rewrite E1, E2. }
    destruct I. unfold forward in *. destruct (pin_Current (localPeer u)); split; try done;
      apply (writes_others i (s <| reader := Rd_read |>) u); try done.
Qed.
(** The pump changes its own buffer only. *)
Lemma pump_frame u u' : packet_inv u → streams u' = streams u → taken u' = taken u → sent u' = sent u →
  (∀ b, b ∈ inboundChan u ++ stream_buffers (streams u) → content u' b = content u b) →
  (content u' <$> inboundChan u = content u <$> inboundChan u) ∧
  ∀ i s, streams u' !! i = Some s → writes u' i (writer s).
Proof.
  intros I Es Et En Hc. split.
  - apply list_fmap_ext. intros j b Hb. apply Hc, elem_of_app. left. by eapply list_elem_of_lookup_2.
  - intros i s Hi. rewrite Es in Hi. pose proof (inv_writes u I i s Hi) as Hw. unfold writes in *. rewrite Et, En.
    destruct (writer s) as [| | |b|b ok| |] eqn:Ew; try done. rewrite Hc; [done|].
    apply elem_of_app. right. apply list_elem_of_bind. exists s. rewrite Ew. split; [by left|by eapply list_elem_of_lookup_2].
Qed.

(** The pump's buffer is nobody else's. *)
Lemma pump_owns u b : packet_inv u → pump_buffer (pump u) = [b] →
  (b ∉ inboundChan u ++ stream_buffers (streams u)) ∧ (b < length (mem u))%nat.
Proof.
  intros [Hn Hm _ _ _ _ _ _] Hb. unfold buffers in *. rewrite Hb in Hn, Hm. split.
  - apply NoDup_app in Hn as (_ & _ & Hn). cbn in Hn; by apply NoDup_cons in Hn as [Hn _].
  - rewrite Forall_app in Hm. destruct Hm as [_ Hm]. cbn in Hm. by apply Forall_cons in Hm as [Hm _].
Qed.

Lemma pump_changed_mem f u u' b : packet_inv u → pump_buffer (pump u) = [b] → mem u' = alter f b (mem u) →
  ∀ b', b' ∈ inboundChan u ++ stream_buffers (streams u) → content u' b' = content u b'.
Proof.
  intros I Hb Em b' Hb'. destruct (pump_owns u b I Hb) as [Hn _]. apply (content_frame f b); [done|]. by intros ->.
Qed.

Lemma prefix_content b pkt p u : mem u !! b = Some pkt → p `prefix_of` Data pkt → N pkt = length p → content u b = p.
Proof. unfold content. intros -> [rest E] En. cbn. unfold payload. by rewrite En, E, take_app_length. Qed.

Lemma kept_app l x : kept (l ++ [x]) = kept l ++ (if x.2 then [x.1.2] else []).
Proof. unfold kept. rewrite filter_app, fmap_app. f_equal. rewrite filter_cons. by destruct x as [? []]. Qed.

Lemma dropped_app l x : dropped (l ++ [x]) = dropped l + (if x.2 then 0 else 1).
Proof. unfold dropped. rewrite filter_app, length_app, filter_cons, filter_nil. destruct x as [? []]; cbn [snd]; case_decide; cbn [length]; done || lia. Qed.

Lemma pump_put_inv b u v : pump_buffer (pump u) = [b] → pump_buffer (pump v) = [] → packet_inv u →
  pool v = pool u ++ [b] → mem v = mem u → inboundChan v = inboundChan u → streams v = streams u → taken v = taken u →
  sent v = sent u → kept (accepted v) = kept (accepted u) → pump_holds v →
  Metrics.queueDrops (registry v) = wrap_int (dropped (accepted v)) → packet_inv v.
Proof.
  intros Hb Hv I E1 E2 E3 E4 E5 E6 E7 Hh Hd.
  destruct (buffers_moved u v I) as (Hn & Hm & Hz); [|done|].
  { unfold buffers. rewrite E1, E3, E4, Hb, Hv. cbn. solve_Permutation. }
  destruct (pump_frame u v I) as [Hq Hw]; try done; [intros; unfold content; by rewrite E2|].
  destruct I. split; try done; [|by rewrite E3]. by rewrite E7, inv_queue0, E5, E3, Hq.
Qed.

Lemma pump_accept_inv b p addr now u : pump u = Pu_accept b p addr → packet_inv u → packet_inv (pump_accept b p addr now u).
Proof.
  intros Hp I. unfold pump_accept. destruct (pin_Accept addr now (localPeer u)) as [ok pin]. cbv zeta.
  assert (packet_inv (Put b (u <| localPeer := pin |> <| pump := Pu_get |>))) as Hput.
  { apply (pump_put_inv b u); try done; [by rewrite Hp|apply I]. }
  destruct ok, addr as [a|]; try exact Hput. clear Hput.
  set (f := λ pkt, MkPacket (Data pkt) (length p)).
  match goal with |- packet_inv ?v => set (u' := v) end.
  assert (mem u' = alter f b (mem u)) as Em by done.
  destruct (pump_frame u u' I) as [Hq Hw]; try done; [apply (pump_changed_mem f u u' b I); by rewrite ?Hp|].
  assert (buffers u' = buffers u) as Eb.
  { change (pool u ++ [b] ++ inboundChan u ++ stream_buffers (streams u) = buffers u). unfold buffers. by rewrite Hp. }
  destruct I. split; try done.
  - by rewrite Eb.
  - rewrite Eb, Em, length_alter. done.
  - rewrite Em. by apply Forall_alter.
  - unfold pump_holds in inv_pump0. rewrite Hp in inv_pump0. destruct inv_pump0 as (pkt & Hk & Hpre).
    apply (prefix_content b (f pkt)); [|done|done]. by rewrite Em, list_lookup_alter_eq, Hk.
  - change (kept (accepted u) = (snd <$> taken u) ++ (content u' <$> inboundChan u)). by rewrite Hq.
Qed.

Lemma pump_queue_inv b p a u : pump u = Pu_queue b p a → packet_inv u → packet_inv (pump_queue b p a u).
Proof.
  intros Hp I. pose proof (inv_pump u I) as Hh. unfold pump_holds in Hh. rewrite Hp in Hh.
  unfold pump_queue. destruct (Nat.ltb_spec (length (inboundChan u)) inbound_capacity) as [Hlt|Hge].
  - match goal with |- packet_inv ?v => set (u' := v) end.
    destruct (buffers_moved u u' I) as (Hn & Hm & Hz); [|done|].
    { change (pool u ++ [] ++ (inboundChan u ++ [b]) ++ stream_buffers (streams u) ≡ₚ buffers u). unfold buffers.
      rewrite Hp. cbn. solve_Permutation. }
    destruct (pump_frame u u' I) as [Hq Hw]; try done. destruct I. split; try done.
    + change (kept (accepted u ++ [(a, p, true)]) = (snd <$> taken u) ++ (content u <$> inboundChan u ++ [b])).
      rewrite kept_app, inv_queue0, fmap_app, app_assoc. cbn. by rewrite Hh.
    + unfold u'. cbn. rewrite length_app. cbn. lia.
    + unfold u'. cbn. by rewrite dropped_app, Z.add_0_r.
  - apply (pump_put_inv b u); try done; [by rewrite Hp|..].
    + cbn. by rewrite kept_app, app_nil_r.
    + cbn. rewrite dropped_app. cbn. rewrite (inv_drops u I). apply Metrics.add_wrap.
Qed.

Lemma pump_step_inv u u' : pump_step u u' → packet_inv u → packet_inv u'.
Proof.
  intros Hs I. destruct Hs as [b Hp Hb|Hp|b p addr Hp|b Hp|b p addr now Hp|b p a Hp].
  - destruct (buffers_moved u (u <| pool ::= remove_first b |> <| pump := Pu_read b |>) I) as (Hn & Hm & Hz); [|done|].
    { change (remove_first b (pool u) ++ [b] ++ inboundChan u ++ stream_buffers (streams u) ≡ₚ buffers u). unfold buffers.
      pose proof (remove_first_permutation b (pool u) Hb) as P. revert P. generalize (remove_first b (pool u)).
      intros r ->. rewrite Hp. cbn. solve_Permutation. }
    destruct (pump_frame u (u <| pool ::= remove_first b |> <| pump := Pu_read b |>) I) as [_ Hw]; try done. by destruct I.
  - set (u' := u <| mem ::= (λ l, l ++ [new_packet]) |> <| pump := Pu_read (length (mem u)) |>).
    assert (∀ b, (b < length (mem u))%nat → content u' b = content u b) as Hc.
    { intros b Hb. unfold content, u'. cbn. by rewrite lookup_app_l. }
    assert (buffers u' ≡ₚ length (mem u) :: buffers u) as Hp'.
    { change (pool u ++ [length (mem u)] ++ inboundChan u ++ stream_buffers (streams u) ≡ₚ length (mem u) :: buffers u).
      unfold buffers. rewrite Hp. cbn. solve_Permutation. }
    pose proof (inv_mem u I) as Hm.
    destruct (pump_frame u u' I) as [Hq Hw]; try done.
    { intros b Hb. apply Hc. unfold buffers in Hm. rewrite Forall_forall in Hm. apply Hm. set_solver. }
    destruct I. split; try done.
    + rewrite Hp'. constructor; [|done]. intros Hin. rewrite Forall_forall in Hm. apply Hm in Hin. lia.
    + rewrite Hp'. unfold u'. cbn. rewrite length_app. cbn. constructor; [lia|]. eapply Forall_impl; [exact Hm|]. cbn. lia.
    + unfold u'. cbn. apply Forall_app. split; [done|]. constructor; [apply length_replicate|constructor].
    + change (kept (accepted u) = (snd <$> taken u) ++ (content u' <$> inboundChan u)). by rewrite Hq.
  - destruct (pump_owns u b I) as [Hno Hlt]; [by rewrite Hp|].
    set (p' := take udpPacketBufferSize p). set (u' := pump_read b p addr u).
    assert (mem u' = alter (read_into p') b (mem u)) as Em by done.
    destruct (pump_frame u u' I) as [Hq Hw]; try done; [apply (pump_changed_mem (read_into p') u u' b I); by rewrite ?Hp|].
    assert (buffers u' = buffers u) as Eb.
    { change (pool u ++ [b] ++ inboundChan u ++ stream_buffers (streams u) = buffers u). unfold buffers. by rewrite Hp. }
    destruct (lookup_lt_is_Some_2 (mem u) b Hlt) as [pkt Hk].
    destruct I. split; try done.
    + by rewrite Eb.
    + rewrite Eb, Em, length_alter. done.
    + rewrite Em. apply Forall_alter; [done|]. intros x Hx Hl. unfold read_into. cbn. rewrite length_app, length_drop, Hl.
      unfold p'. rewrite length_take. unfold udpPacketBufferSize. lia.
    + exists (read_into p' pkt). rewrite Em, list_lookup_alter_eq, Hk. split; [done|]. by eexists.
    + change (kept (accepted u) = (snd <$> taken u) ++ (content u' <$> inboundChan u)). by rewrite Hq.
  - destruct (buffers_moved u (pump_failed b u) I) as (Hn & Hm & Hz); [|done|].
    { change ((pool u ++ [b]) ++ [] ++ inboundChan u ++ stream_buffers (streams u) ≡ₚ buffers u). unfold buffers.
      rewrite Hp. cbn. solve_Permutation. }
    destruct (pump_frame u (pump_failed b u) I) as [_ Hw]; try done. by destruct I.
  - apply (pump_accept_inv b p addr now u Hp I).
  - apply (pump_queue_inv b p a u Hp I).
Qed.
(** ** Everything else *)

Lemma start_writer s : writer (start_stream s) = writer s.
Proof. unfold start_stream. by destruct (loop s). Qed.

Lemma start_inv s : stream_inv s → stream_inv (start_stream s).
Proof.
  intros I. unfold start_stream. destruct (loop s) eqn:El; try done. destruct I as [Hc Hp Hw Hh].
  unfold workers_ok in Hw. rewrite El in *. by split.
Qed.

Lemma report_inv s : stream_inv s → stream_inv (s <| reporting := false |>).
Proof. intros I. by apply (inv_helper s). Qed.

Lemma packet_inv_same u v : packet_inv u → pool v = pool u → mem v = mem u → inboundChan v = inboundChan u → pump v = pump u →
  registry v = registry u → accepted v = accepted u → taken v = taken u → sent v = sent u →
  writer <$> streams v = writer <$> streams u → packet_inv v.
Proof.
  intros [I1 I2 I3 I4 I5 I6 I7 I8] E1 E2 E3 E4 E5 E6 E7 E8 E9.
  assert (stream_buffers (streams v) = stream_buffers (streams u)) as Eb.
  { unfold stream_buffers. change (λ s, writer_buffer (writer s)) with (writer_buffer ∘ writer).
    by rewrite <-!list_fmap_bind, E9. }
  assert (buffers v = buffers u) as Ebs by (unfold buffers; by rewrite E1, E3, E4, Eb).
  split; unfold pump_holds, content in *; rewrite ?Ebs, ?E2, ?E3, ?E4, ?E5, ?E6, ?E7; try done.
  intros i t Ht. apply (f_equal (.!! i)) in E9. rewrite !list_lookup_fmap, Ht in E9. cbn in E9.
  destruct (streams u !! i) as [t'|] eqn:Et; [|done]. injection E9 as ->. by apply (writes_same u), I7.
Qed.

(** Return traffic goes to peers whose packets were accepted. *)
Definition senders (u : udp) : list net_addr :=
  ((λ x, x.1.1) <$> accepted u) ++ match pump u with Pu_queue _ _ a => [a] | _ => [] end.

Definition peer_inv (u : udp) : Prop :=
  (∀ a, pinned (localPeer u) = Some a → a ∈ senders u) ∧ Forall (λ x, x.2 ∈ senders u) (to_local u).

Lemma peer_more u v : peer_inv u → localPeer v = localPeer u → to_local v = to_local u →
  (∀ a, a ∈ senders u → a ∈ senders v) → peer_inv v.
Proof.
  intros [H1 H2] E1 E2 Hs. split; [rewrite E1; auto|]. rewrite E2. eapply Forall_impl; [exact H2|]. auto.
Qed.

Lemma pin_Accept_cases addr now pin ok pin' : pin_Accept addr now pin = (ok, pin') →
  pinned pin' = pinned pin ∨ (ok = true ∧ ∃ a, addr = Some a ∧ pinned pin' = Some a).
Proof.
  unfold pin_Accept. destruct addr as [a|]; [|intros [= <- <-]; by left].
  destruct (pinned pin) as [cur|] eqn:E; [|intros [= <- <-]; right; eauto].
  destruct (bool_decide (network cur = network a) && bool_decide (addr_text cur = addr_text a)); [intros [= <- <-]; by left|].
  destruct (now - lastSeen pin >=? rebindAfter pin); intros [= <- <-]; [right; eauto|by left].
Qed.

Lemma peer_pump u u' : pump_step u u' → peer_inv u → peer_inv u'.
Proof.
  intros Hs I. destruct Hs as [b Hp Hb|Hp|b p addr Hp|b Hp|b p addr now Hp|b p a Hp].
  1-4: apply (peer_more u); try done; intros a; unfold senders; rewrite Hp; cbn; by rewrite ?app_nil_r.
  - unfold pump_accept. destruct (pin_Accept addr now (localPeer u)) as [ok pin] eqn:E. apply pin_Accept_cases in E.
    assert (∀ v, localPeer v = pin → to_local v = to_local u → (∀ a, a ∈ senders u → a ∈ senders v) →
      (∀ a, ok = true → addr = Some a → a ∈ senders v) → peer_inv v) as Hv.
    { intros v E1 E2 Hm Ha. destruct I as [I1 I2]. split.
      - intros a. rewrite E1. destruct E as [->|(Hok & a' & Ead & ->)]; [auto|]. intros [= <-]. auto.
      - rewrite E2. eapply Forall_impl; [exact I2|]. auto. }
    destruct ok, addr as [a|]; apply Hv; try done; intros a'; unfold senders; rewrite ?Hp; cbn; set_solver.
  - unfold pump_queue. destruct (length (inboundChan u) <? inbound_capacity)%nat;
      (apply (peer_more u); try done; intros a'; unfold senders; rewrite Hp; cbn; rewrite fmap_app, app_nil_r; done).
Qed.

Lemma peer_shared i s u s' u' : shared_step i s u s' u' → peer_inv u → peer_inv u'.
Proof.
  intros Hs I. destruct Hs as [s' c Hb|b rest Hwr Hq|b ok Hwr|b ok Hwr|p Hrd].
  1,2,4: by apply (peer_more u).
  - destruct ok; by apply (peer_more u).
  - unfold forward, pin_Current. destruct (pinned (localPeer u)) as [a|] eqn:E; [|by apply (peer_more u)].
    destruct I as [I1 I2]. split; [done|]. cbn. apply Forall_app. split; [exact I2|]. constructor; [by apply I1|constructor].
Qed.

Record udp_inv (u : udp) : Prop := {
  inv_streams : Forall stream_inv (streams u);
  inv_packets : packet_inv u;
  inv_peer : peer_inv u;
  inv_returned : main u = M_returned → Forall (λ s, loop s = L_returned) (streams u);
}.

Lemma shared_streams i s u s' u' : shared_step i s u s' u' → streams u' = <[i := s']> (streams u).
Proof. intros [s1 c Hb|b rest Hwr Hq|b [] Hwr|b ok Hwr|p Hrd]; try done. unfold forward. by case_match. Qed.

Lemma returned_stays i s u u' : stream_step i s u u' → stream_inv s → loop s = L_returned →
  ∃ s', streams u' = <[i := s']> (streams u) ∧ loop s' = L_returned.
Proof.
  intros Hs [_ _ Hw Hh] Hl. unfold workers_ok in Hw. rewrite Hl in Hw, Hh. destruct Hw as [Hw Hr], (Hh eq_refl) as (?&?&?).
  destruct Hs; try congruence; try (rewrite Hw in *; set_solver). eexists. split; [reflexivity|done].
Qed.

Lemma stream_main i s u u' : stream_step i s u u' → main u' = main u.
Proof.
  destruct 1; try done; unfold loop_result, forward, write_packet; repeat case_match; done.
Qed.

Lemma pump_streams u u' : pump_step u u' → streams u' = streams u ∧ main u' = main u.
Proof.
  intros [b Hp Hb|Hp|b p addr Hp|b Hp|b p addr now Hp|b p a Hp]; try done.
  - unfold pump_accept. destruct (pin_Accept _ _ _) as [[] pin], addr; done.
  - unfold pump_queue. by destruct (_ <? _)%nat.
Qed.

Lemma udp_step_inv u u' : step u u' → udp_inv u → udp_inv u'.
Proof.
  intros Hs [I1 I2 I3 I4]. destruct Hs as [|b Hb|u' Hp|i s u' Hi Hs|s Hm Hi Hr|Hm Hc|Hm Hf].
  - split; [done|by apply (packet_inv_same u)|by apply (peer_more u)|done].
  - split; [done| |by apply (peer_more u)|done].
    pose proof (remove_first_permutation b (pool u) Hb) as P. destruct I2 as [J1 J2 J3 J4 J5 J6 J7 J8].
    unfold buffers in J1, J2. rewrite P in J1, J2. cbn in J1, J2. apply NoDup_cons in J1 as [_ J1]. apply Forall_cons in J2 as [_ J2].
    by split.
  - destruct (pump_streams u u' Hp) as [E1 E2].
    split; [by rewrite E1|by eapply pump_step_inv|by eapply peer_pump|by rewrite E1, E2].
  - rewrite Forall_lookup in I1. destruct (stream_step_shared i s u u' Hs (I1 i s Hi)) as (s' & Hsh & Hs').
    split; [|by eapply shared_step_inv|by eapply peer_shared|].
    + rewrite (shared_streams i s u s' u') by done. apply Forall_insert; [by apply Forall_lookup|done].
    + rewrite (stream_main i s u u' Hs). intros Hm. specialize (I4 Hm). rewrite Forall_lookup in I4.
      destruct (returned_stays i s u u' Hs (I1 i s Hi) (I4 i s Hi)) as (s1 & -> & Hl).
      apply Forall_insert; [by apply Forall_lookup|done].
  - split; [|apply (packet_inv_same u); try done|by apply (peer_more u)|done]; cbn.
    + apply Forall_fmap, Forall_insert; [eapply Forall_impl; [exact I1|apply start_inv]|].
      rewrite Forall_lookup in I1. by apply start_inv, report_inv, (I1 0%nat).
    + rewrite <-list_fmap_compose, list_fmap_insert. cbn. rewrite start_writer. cbn.
      rewrite list_insert_id.
      * apply list_fmap_ext. intros j t _. apply start_writer.
      * rewrite list_lookup_fmap, Hi. cbn. by rewrite start_writer.
  - split; [|apply (packet_inv_same u); try done|by apply (peer_more u)|done]; cbn.
    + apply Forall_fmap. eapply Forall_impl; [exact I1|apply start_inv].
    + rewrite <-list_fmap_compose. apply list_fmap_ext. intros j t _. apply start_writer.
  - split; [done|by apply (packet_inv_same u)|by apply (peer_more u)|done].
Qed.

Lemma udp_inv_reachable u : reachable u → udp_inv u.
Proof.
  intros (n & pin & reg & Hpin & Hreg & Hr). assert (udp_inv (startUDPMode n pin reg)) as I0.
  { split.
    - constructor; [|apply Forall_replicate]; (split; [by exists 0%nat|by exists 0%nat|done|done]).
    - assert (stream_buffers (streams (startUDPMode n pin reg)) = []) as E.
      { unfold startUDPMode. cbn. unfold stream_buffers. cbn. induction (pred _) as [|k IH]; [done|by cbn]. }
      split; unfold buffers; rewrite ?E; [constructor|constructor|constructor|done|done|cbn; lia| |exact Hreg].
      intros i t Ht. unfold writes. destruct (writer t) eqn:Ew; try constructor. exfalso.
      assert (writer t = Wr_none) as E'; [|congruence]. destruct i; cbn in Ht; [by injection Ht as <-|].
      apply lookup_replicate in Ht as [-> _]. done.
    - split; [cbn; by rewrite Hpin|constructor].
    - done. }
  revert u Hr. apply (rtc_ind_r udp_inv); [exact I0|]. intros u v _ Hs I. by eapply udp_step_inv.
Qed.

(** ** Theorems *)

(** C6: No datagram is invented, altered, repeated or lost silently on its way
    from the local peer to the streams, under every interleaving of the pump and
    the streams over the shared buffers: no buffer is in two hands; the
    datagrams taken from the queue are the accepted ones in order, less those
    still queued and those dropped at a full queue, which the metric counts; a
    stream writes only what it took, in order and at most once; and answers go
    only to peers whose datagrams were accepted. *)
Theorem udp_packets_conserved u : reachable u →
  NoDup (buffers u) ∧
  kept (accepted u) = (snd <$> taken u) ++ (content u <$> inboundChan u) ∧
  (length (inboundChan u) ≤ inbound_capacity)%nat ∧
  Metrics.queueDrops (registry u) = wrap_int (dropped (accepted u)) ∧
  (∀ i s, streams u !! i = Some s → of_stream i (sent u) `sublist_of` of_stream i (taken u)) ∧
  Forall (λ x, x.2 ∈ senders u) (to_local u).
Proof.
  intros [_ I [_ Hp] _]%udp_inv_reachable. split_and!; try apply I; [|done].
  intros i s Hi. pose proof (inv_writes u I i s Hi) as Hw. destruct (writer s); try exact Hw.
  destruct Hw as (l & -> & Hs). by apply sublist_inserts_r.
Qed.

(** A stream gives back what it opened: every DTLS connection and packet pipe
    of its past was closed exactly once, at most one of each is open while
    [oneDtlsConnection] runs; once [oneDtlsConnection] has returned neither of its
    goroutines runs and no deadline will fire on a later connection; and when the
    mode returns this holds of all streams. *)
Theorem udp_streams_released u i s : reachable u → streams u !! i = Some s →
  closed_but (has_conn (loop s)) (conns s) ∧ closed_but (has_pipe (loop s)) (pipes s) ∧
  (has_pipe (loop s) = false →
     writer s = Wr_none ∧ reader s = Rd_none ∧ armed s = false ∧ offering s = false ∧ reporting s = false ∧
     writer_buffer (writer s) = []) ∧
  (main u = M_returned → loop s = L_returned).
Proof.
  intros Hr Hi. pose proof (udp_inv_reachable u Hr) as [I _ _ Hret]. rewrite Forall_lookup in I.
  destruct (I i s Hi) as [Hc Hp Hw Hh]. split; [done|]. split; [done|]. split.
  - intros Hl. destruct (Hh Hl) as (? & ? & ?). unfold workers_ok in Hw.
    destruct (loop s); try done; destruct Hw as [-> ->]; done.
  - intros Hm. specialize (Hret Hm). rewrite Forall_lookup in Hret. by apply (Hret i).
Qed.

(** ** A run: one datagram is queued, taken and written, another is answered *)

Definition sample_peer : net_addr := MkAddr (str "udp") (str "127.0.0.1:5000").

Ltac evaluate :=
  match goal with |- rtc _ ?s _ =>
    let v := eval vm_compute in s in replace s with v by (vm_compute; reflexivity) end.
Tactic Notation "by_pump" uconstr(c) := eapply rtc_l; [apply step_pump; eapply c; reflexivity|evaluate].
Tactic Notation "by_stream" uconstr(c) :=
  eapply rtc_l; [eapply (step_stream _ 0%nat); [reflexivity|eapply c; reflexivity]|evaluate].

Lemma sample_udp_run : ∃ u s, reachable u ∧ streams u !! 0%nat = Some s ∧ loop s = L_returned ∧
  sent u = [(0%nat, str "ping")] ∧ to_local u = [(str "pong", sample_peer)] ∧ conns s = [1%nat].
Proof.
  eexists _, _. split; [exists 1, (newLocalPeerPin 0), Metrics.zero_registry; do 2 (split; [done|])|].
  - evaluate. by_stream loop_enter. by_stream conn_begin. by_stream conn_connected.
    eapply rtc_l; [eapply step_ok; reflexivity|evaluate].
    by_pump pump_new. by_pump (pump_reads _ _ (str "ping") (Some sample_peer)). by_pump (pump_accepts _ _ _ _ 0). by_pump pump_queues.
    by_stream writer_select. by_stream writer_take. by_stream (writer_write _ _ _ _ true). by_stream writer_put.
    by_stream (reader_packet _ _ _ (str "pong")). by_stream reader_forward. by_stream reader_failed. by_stream reader_cancel.
    eapply rtc_l; [eapply (step_stream _ 0%nat); [reflexivity|eapply writer_done; [by left|reflexivity]]|evaluate].
    by_stream writer_cancel. by_stream conn_wait. by_stream conn_clear. by_stream conn_close. by_stream conn_cancel.
    by_stream (conn_close_pipe _ _ _ _ 0 0 0). eapply rtc_l; [apply step_cancel|evaluate]. by_stream loop_ctx. apply rtc_refl.
  - done.
Qed.

Lemma udp_packets_conserved_witness : ∃ u, reachable u ∧ sent u = [(0%nat, str "ping")] ∧
  Forall (λ x, x.2 ∈ senders u) (to_local u) ∧ to_local u = [(str "pong", sample_peer)].
Proof.
  destruct sample_udp_run as (u & s & Hr & _ & _ & Hs & Hl & _). exists u. split; [exact Hr|]. split; [exact Hs|].
  split; [|exact Hl]. apply (udp_packets_conserved u Hr).
Defined.

Lemma udp_streams_released_witness : ∃ u s, reachable u ∧ streams u !! 0%nat = Some s ∧ conns s = [1%nat] ∧
  writer s = Wr_none ∧ armed s = false.
Proof.
  destruct sample_udp_run as (u & s & Hr & Hi & Hl & _ & _ & Hc). exists u, s. split; [exact Hr|]. split; [exact Hi|].
  split; [exact Hc|]. destruct (udp_streams_released u 0 s Hr Hi) as (_ & _ & H & _). rewrite Hl in H.
  destruct (H eq_refl) as (Hw & _ & Ha & _). split; [exact Hw|exact Ha].
Defined.
End ClientUdp.
