(* ===== verification/ClientMain.v ===== *)
(** * Starting the client (client/main.go: main up to its mode)

    The flags are what [flag] parsed.  Each fatal or panicking check ends the
    process and is an error here; resolving the peer is the network's. *)

From S2P Require Import Prelude GoStrings GoIP Tuning SessionAuth DtlsAuth Diagnostics Supervisor ClientPool BondHello.

Module ClientMain.
Import SessionAuth.

Record clientFlags := MkFlags {
  listen : bytes; unsafeListenNonLoopback : bool; vklink : bytes; peerAddr : bytes; n_paths : Z; streamsPerCred : Z;
  unsafeUDPMultipath : bool; noDTLS : bool; vlessMode : bool; vlessBond : bool; vlessBondProtocol : bytes;
  dnsMode : bytes; dnsServers : bytes; wrap : bool; wrapKey : bytes; genWrapKey : bool;
  dtlsServerFingerprint : bytes; dtlsInsecureSkipVerify : bool;
  clientAuthTokenFile : bytes; unsafeDisableClientAuth : bool; manualCaptchaFlag : bool;
  diagnosticOptions : Diagnostics.Options;
}.

(** What [main] has when it starts its mode. *)
Record clientConfig := MkClientConfig {
  dtlsAuthentication : DtlsAuth.ClientAuthentication;
  clientAuthToken : option bytes;
  diagnosticConfig : Diagnostics.Config;
  bondProtocolMode : Supervisor.vlessBondProtocolMode;
  streamsPerCache : Z;
  resolvers : list bytes;
  peer : bytes;
  link : bytes;
  numPaths : Z;
  manualCaptcha : bool;
  autoCaptchaSliderPOC : bool;
}.

Definition defaultDNSResolvers : list bytes :=
  [str "77.88.8.8:53"; str "77.88.8.1:53"; str "8.8.8.8:53"; str "8.8.4.4:53"; str "1.1.1.1:53"; str "1.0.0.1:53"].

(** [strings.Split(s, sep)] for a separator that is not empty; [skip] counts the
    bytes of a separator still to be dropped. *)
Fixpoint split_go (sep cur : bytes) (skip : nat) (s : bytes) : list bytes :=
  match s with
  | [] => [reverse cur]
  | c :: s' =>
      match skip with
      | S k => split_go sep cur k s'
      | O => if has_prefix sep s then reverse cur :: split_go sep [] (pred (length sep)) s'
             else split_go sep (c :: cur) 0 s'
      end
  end.
Definition Split (s sep : bytes) : list bytes := split_go sep [] 0 s.

(** [s[:strings.IndexAny(s, chars)]], all of [s] when none occurs. *)
Fixpoint before_any (chars : list ascii) (s : bytes) : bytes :=
  match s with
  | [] => []
  | c :: s' => if bool_decide (c ∈ chars) then [] else c :: before_any chars s'
  end.

(** [parts[len(parts)-1]], then cut at the first of ["/?#"]. *)
Definition call_link (vklink : bytes) : bytes :=
  before_any (str "/?#") (default [] (last (Split vklink (str "join/")))).

Definition path_count (f : clientFlags) : Z :=
  let n := if (n_paths f <=? 0) && vlessMode f then 10 else if n_paths f <=? 0 then 1 else n_paths f in
  ClientPool.normalizeUDPPathCount (vlessMode f) n (unsafeUDPMultipath f).

Section startup.
Context (tuning : Tuning.globals) (env : file_env) (fs : filesystem).
Context (open_file : bytes → result Diagnostics.file) (token_env : bytes) (ResolveUDPAddr : bytes → result bytes).

Definition fatal {A} (prefix : bytes) (r : result A) : result A := map_err (errorf_w prefix) r.

Definition client_auth (f : clientFlags) : result (option bytes) :=
  if unsafeDisableClientAuth f then
    if negb (bool_decide (clientAuthTokenFile f = [])) then
      Err (errorf (str "-client-auth-token-file and -unsafe-disable-client-auth cannot be used together"))
    else Ok None
  else
    let? token := fatal (str "invalid client authentication token: ") (LoadTokenFile env (clientAuthTokenFile f) fs) in
    Ok (Some token).

Definition startup (f : clientFlags) : result clientConfig :=
  let? _ := ClientPool.validateClientCompatibilityFlags (noDTLS f) (dnsMode f) (wrap f) (wrapKey f) (genWrapKey f) in
  let? _ := fatal (str "invalid client listen address: ")
              (ClientPool.validateClientListenAddress (listen f) (unsafeListenNonLoopback f)) in
  let? auth := fatal (str "invalid DTLS authentication: ")
                 (DtlsAuth.NewClientAuthentication (dtlsServerFingerprint f) (dtlsInsecureSkipVerify f)) in
  let? token := client_auth f in
  let? _ := match Tuning.ValidateTuning tuning with
            | Some e => Err (errorf_w (str "invalid transport tuning: ") e)
            | None => Ok ()
            end in
  let? diag := fatal (str "invalid diagnostics configuration: ")
                 (Diagnostics.options_Config open_file token_env (windows env) (diagnosticOptions f)) in
  let? mode := Supervisor.parseVLESSBondProtocolMode (vlessBondProtocol f) in
  let? _ := ClientPool.validateClientVLESSFlags (vlessMode f) (vlessBond f) (n_paths f) in
  let? servers := if bool_decide (TrimSpace (dnsServers f) = []) then Ok defaultDNSResolvers
                  else fatal (str "bad -dns-servers: ") (ClientPool.parseDNSServers (dnsServers f)) in
  let? _ := if bool_decide (peerAddr f = []) then Err (errorf (str "Need peer address!")) else Ok tt in
  let? addr := ResolveUDPAddr (peerAddr f) in
  let? _ := if bool_decide (vklink f = []) then Err (errorf (str "Need vk-link!")) else Ok tt in
  Ok (MkClientConfig auth token diag mode (ClientPool.normalizeStreamsPerCredential (streamsPerCred f)) servers addr
        (call_link (vklink f)) (path_count f) (manualCaptchaFlag f) (negb (manualCaptchaFlag f))).

Lemma before_any_clean chars s : Forall (λ c, c ∉ chars) (before_any chars s).
Proof. induction s as [|c s IH]; cbn; [constructor|]. case_bool_decide; by constructor. Qed.

Lemma path_count_bounds f : ClientPool.validateClientVLESSFlags (vlessMode f) (vlessBond f) (n_paths f) = Ok tt →
  1 ≤ path_count f ∧ (vlessMode f = false → unsafeUDPMultipath f = false → path_count f = 1) ∧
  (vlessBond f = true → path_count f ≤ BondHello.MaxBondPaths).
Proof.
  unfold ClientPool.validateClientVLESSFlags, path_count, ClientPool.normalizeUDPPathCount, BondHello.MaxBondPaths.
  destruct (vlessMode f), (vlessBond f), (unsafeUDPMultipath f); cbn; intros H; split_and!; intros; repeat case_match; try done; lia.
Qed.

(** A client that starts is configured safely: it listens on a loopback
    address unless told otherwise; the server is verified by the fingerprint
    that was given, unless that was explicitly disabled; it authenticates with
    the token of the file, unless explicitly disabled and without a file; the
    transport tuning is in range; bonding comes with VLESS and at most 64 paths;
    UDP forwarding uses one path unless told otherwise; there are resolvers; and
    the call link carries no query, path or fragment. *)
Theorem client_startup_safe f c : startup f = Ok c →
  (unsafeListenNonLoopback f = true ∨
   ∃ host port, SplitHostPort (TrimSpace (listen f)) = Ok (host, port) ∧ IsLoopback (ParseIP host) = true) ∧
  (if dtlsInsecureSkipVerify f then DtlsAuth.mode (dtlsAuthentication c) = DtlsAuth.authenticationInsecure ∧ TrimSpace (dtlsServerFingerprint f) = []
   else DtlsAuth.mode (dtlsAuthentication c) = DtlsAuth.authenticationPinned ∧
        DtlsAuth.ParseFingerprint (dtlsServerFingerprint f) = Ok (DtlsAuth.expected (dtlsAuthentication c))) ∧
  match clientAuthToken c with
  | None => unsafeDisableClientAuth f = true ∧ clientAuthTokenFile f = []
  | Some t => unsafeDisableClientAuth f = false ∧ LoadTokenFile env (clientAuthTokenFile f) fs = Ok t
  end ∧
  Tuning.tuning_ok (Tuning.currentTuningValues tuning) ∧
  noDTLS f = false ∧ (vlessBond f = true → vlessMode f = true ∧ numPaths c ≤ BondHello.MaxBondPaths) ∧
  1 ≤ numPaths c ∧ (vlessMode f = false → unsafeUDPMultipath f = false → numPaths c = 1) ∧
  1 ≤ streamsPerCache c ∧ resolvers c ≠ [] ∧ Forall (λ x, x ∉ str "/?#") (link c).
Proof.
  unfold startup, fatal. intros H.
  apply result_bind_ok in H as ([] & Hcompat & H). apply result_bind_ok in H as ([] & Hlisten%map_err_ok & H).
  apply result_bind_ok in H as (auth & Hauth%map_err_ok & H). apply result_bind_ok in H as (token & Htok & H).
  apply result_bind_ok in H as ([] & Htune & H). apply result_bind_ok in H as (diag & _ & H).
  apply result_bind_ok in H as (mode & _ & H). apply result_bind_ok in H as ([] & Hvless & H).
  apply result_bind_ok in H as (servers & Hdns & H). apply result_bind_ok in H as ([] & _ & H).
  apply result_bind_ok in H as (addr & _ & H). apply result_bind_ok in H as ([] & _ & [= <-]). cbn.
  destruct (path_count_bounds f Hvless) as (Hn1 & Hn2 & Hn3). split_and!; try done.
  - unfold ClientPool.validateClientListenAddress in Hlisten. apply result_bind_ok in Hlisten as ([host port] & Hs & Hl).
    destruct (bool_decide (ParseIP host = [])); cbn in Hl; [by destruct (unsafeListenNonLoopback f); [left|]|].
    destruct (IsLoopback (ParseIP host)) eqn:E; [right; eauto|by destruct (unsafeListenNonLoopback f); [left|]].
  - unfold DtlsAuth.NewClientAuthentication in Hauth. destruct (dtlsInsecureSkipVerify f).
    + destruct (bool_decide_reflect (TrimSpace (dtlsServerFingerprint f) = [])); [|done]. by injection Hauth as <-.
    + destruct (bool_decide_reflect (TrimSpace (dtlsServerFingerprint f) = [])); [done|]. apply result_bind_ok in Hauth as (e & He & [= <-]). split; [done|].
      revert He. unfold DtlsAuth.ParseFingerprint. by rewrite TrimSpace_idemp.
  - unfold client_auth, fatal in Htok. destruct (unsafeDisableClientAuth f).
    + destruct (bool_decide_reflect (clientAuthTokenFile f = [])); [|done]. by injection Htok as <-.
    + apply result_bind_ok in Htok as (t & Ht%map_err_ok & [= <-]). done.
  - destruct (Tuning.ValidateTuning tuning) eqn:E; [done|]. by apply Tuning.ValidateTuning_ok.
  - unfold ClientPool.validateClientCompatibilityFlags in Hcompat. by destruct (noDTLS f).
  - intros Hb. split; [|by apply Hn3]. unfold ClientPool.validateClientVLESSFlags in Hvless. rewrite Hb in Hvless.
    by destruct (vlessMode f).
  - unfold ClientPool.normalizeStreamsPerCredential, ClientPool.defaultStreamsPerCache. destruct (Z.leb_spec (streamsPerCred f) 0); lia.
  - destruct (bool_decide_reflect (TrimSpace (dnsServers f) = [])); [by injection Hdns as <-|]. apply map_err_ok in Hdns. unfold ClientPool.parseDNSServers in Hdns.
    apply result_bind_ok in Hdns as (ss & _ & Hs). case_bool_decide; [done|]. by injection Hs as <-.
  - apply before_any_clean.
Qed.
End startup.

Definition sample_flags : clientFlags :=
  MkFlags (str "127.0.0.1:9000") false (str "https://vk.com/call/join/abc123?x=1") (str "192.0.2.1:56000") 4 0 false false
    false false (str "auto") (str "auto") [] false [] false [] true (str "") true false (Diagnostics.MkOptions [] [] false).

Lemma client_startup_safe_witness : ∃ c,
  startup Tuning.default_globals plain_env ∅ (λ _, Err not_exist) [] (λ a, Ok a) sample_flags = Ok c ∧
  numPaths c = 1 ∧ link c = str "abc123".
Proof.
  destruct (startup Tuning.default_globals plain_env ∅ (λ _, Err not_exist) [] (λ a, Ok a) sample_flags) as [c|e] eqn:E;
    [|exfalso; vm_compute in E; discriminate E].
  exists c. split; [reflexivity|]. split.
  - apply (client_startup_safe Tuning.default_globals plain_env ∅ (λ _, Err not_exist) [] (λ a, Ok a) sample_flags c E); reflexivity.
  - vm_compute in E. injection E as <-. reflexivity.
Defined.
End ClientMain.
