(* ===== verification/Slider.v ===== *)
(** * The slider puzzle (client/slider_captcha.go)

    The picture comes cut into [gridSize * gridSize] tiles that were swapped; a
    slider position stands for a list of swaps.  The solver undoes each list,
    renders the picture and scores how well neighbouring tiles fit.  An image is
    its bounds and the colour of each pixel; a rendered image keeps 8 bits of
    each channel. *)

From S2P Require Import Prelude GoStrings GoFloat GoWeb.

Module Slider.

Definition defaultSliderAttempts : Z := 4.

Definition minInt (left right : Z) : Z := if left <? right then left else right.

(** ** The steps of a puzzle *)

Section numbers.
(** [Sprint]: how [%v] prints a value that is not a string. *)
Context (out_of_range : float64 → Z) (Sprint : json → bytes).

Definition parseIntValue (raw : json) : result Z :=
  match raw with
  | JNumber f => Ok (int_of_float out_of_range f)
  | JString s => match Atoi (TrimSpace s) with
                 | Ok n => Ok n
                 | Err _ => Err (errorf (str "invalid numeric value: " ++ s))
                 end
  | _ => Err (errorf (str "invalid numeric value: " ++ Sprint raw))
  end.

Fixpoint parseIntSlice (raw : list json) : result (list Z) :=
  match raw with
  | [] => Ok []
  | item :: raw =>
      let? number := parseIntValue item in
      let? rest := parseIntSlice raw in Ok (number :: rest)
  end.
End numbers.

(** The size, the swaps and the attempts. *)
Definition parseSliderSteps (steps : list Z) : result (Z * list Z * Z) :=
  match steps with
  | size :: remaining =>
      if (length steps <? 3)%nat then Err (errorf (str "slider steps payload too short"))
      else if size <=? 0 then Err (errorf (str "invalid slider size: " ++ Itoa size))
      else
        let '(attempts, remaining) :=
          if Nat.odd (length remaining)
          then (default 0 (last remaining), take (pred (length remaining)) remaining)
          else (defaultSliderAttempts, remaining) in
        let attempts := if attempts <=? 0 then defaultSliderAttempts else attempts in
        if (length remaining =? 0)%nat || Nat.odd (length remaining) then
          Err (errorf (str "invalid slider swap payload"))
        else Ok (size, remaining, attempts)
  | [] => Err (errorf (str "slider steps payload too short"))
  end.

Definition buildSliderActiveSteps (swaps : list Z) (candidateIndex : Z) : list Z :=
  if candidateIndex <=? 0 then []
  else
    let end_ := candidateIndex * 2 in
    let end_ := if Z.rem candidateIndex 2 =? 0 then end_ - 2 else end_ in
    let end_ := if end_ <? 0 then 0 else end_ in
    let end_ := if end_ >? Z.of_nat (length swaps) then Z.of_nat (length swaps) else end_ in
    take (Z.to_nat end_) swaps.

(** [make([]int, n)] panics past the largest allocation, 2^48 bytes. *)
Definition max_ints : Z := 2 ^ 45.

Definition swap (left right : Z) (m : list Z) : list Z :=
  match m !! Z.to_nat left, m !! Z.to_nat right with
  | Some a, Some b => <[Z.to_nat right := a]> (<[Z.to_nat left := b]> m)
  | _, _ => m
  end.

Fixpoint apply_swaps (tileCount : Z) (steps : list Z) (mapping : list Z) : result (list Z) :=
  match steps with
  | l :: r :: steps =>
      if (l <? 0) || (r <? 0) || (l >=? tileCount) || (r >=? tileCount) then
        Err (errorf (str "slider step out of range: " ++ Itoa l ++ str "," ++ Itoa r))
      else apply_swaps tileCount steps (swap l r mapping)
  | _ => Ok mapping
  end.

Definition buildSliderTileMapping (gridSize : Z) (activeSteps : list Z) : outcome (result (list Z)) :=
  let tileCount := wrap_int (gridSize * gridSize) in
  if tileCount <=? 0 then Done (Err (errorf (str "invalid slider tile count: " ++ Itoa tileCount)))
  else if Nat.odd (length activeSteps) then
    Done (Err (errorf (str "invalid active steps length: " ++ Itoa (Z.of_nat (length activeSteps)))))
  else if tileCount >? max_ints then Panics
  else Done (apply_swaps tileCount activeSteps (seqZ 0 tileCount)).

(** ** Pictures *)

Record Rectangle := MkRect { MinX : Z; MinY : Z; MaxX : Z; MaxY : Z }.

Definition Dx (r : Rectangle) : Z := MaxX r - MinX r.
Definition Dy (r : Rectangle) : Z := MaxY r - MinY r.
Definition Empty (r : Rectangle) : bool := (MinX r >=? MaxX r) || (MinY r >=? MaxY r).

(** [image.Rect] swaps coordinates out of order. *)
Definition Rect (x0 y0 x1 y1 : Z) : Rectangle :=
  let '(x0, x1) := if x0 >? x1 then (x1, x0) else (x0, x1) in
  let '(y0, y1) := if y0 >? y1 then (y1, y0) else (y0, y1) in
  MkRect x0 y0 x1 y1.

(** [RGBA()]: four channels of 16 bits. *)
Record color := MkColor { c_r : Z; c_g : Z; c_b : Z; c_a : Z }.

#[export] Instance color_eq_dec : EqDecision color.
Proof. solve_decision. Defined.

Definition transparent : color := MkColor 0 0 0 0.

Record image := MkImage { Bounds : Rectangle; At : Z → Z → color }.

(** What an [image.RGBA] keeps of a colour. *)
Definition keep8 (v : Z) : Z := (v / 256) * 257.
Definition to_rgba (c : color) : color := MkColor (keep8 (c_r c)) (keep8 (c_g c)) (keep8 (c_b c)) (keep8 (c_a c)).

(** An [image.RGBA] under construction: the pixels set so far. *)
Abbreviation canvas := (gmap (Z * Z) color).

Definition inside (b : Rectangle) (x y : Z) : bool := (MinX b <=? x) && (x <? MaxX b) && (MinY b <=? y) && (y <? MaxY b).

Definition Set_ (b : Rectangle) (x y : Z) (c : color) (px : canvas) : canvas :=
  if inside b x y then <[(x, y) := to_rgba c]> px else px.

Definition canvas_image (b : Rectangle) (px : canvas) : image := MkImage b (λ x y, default transparent (px !! (x, y))).

Definition sliderTileRect (bounds : Rectangle) (gridSize index : Z) : Rectangle :=
  let row := Z.quot index gridSize in
  let col := Z.rem index gridSize in
  let x0 := MinX bounds + Z.quot (col * Dx bounds) gridSize in
  let x1 := MinX bounds + Z.quot ((col + 1) * Dx bounds) gridSize in
  let y0 := MinY bounds + Z.quot (row * Dy bounds) gridSize in
  let y1 := MinY bounds + Z.quot ((row + 1) * Dy bounds) gridSize in
  Rect x0 y0 x1 y1.

(** The loops over the pixels of a tile, row by row. *)
Definition copyScaledTile (b : Rectangle) (dstRect : Rectangle) (src : image) (srcRect : Rectangle) (px : canvas) : canvas :=
  if Empty dstRect || Empty srcRect then px
  else
    foldl (λ px y,
      let sy := MinY srcRect + Z.quot (y * Dy srcRect) (Dy dstRect) in
      foldl (λ px x,
        let sx := MinX srcRect + Z.quot (x * Dx srcRect) (Dx dstRect) in
        Set_ b (MinX dstRect + x) (MinY dstRect + y) (At src sx sy) px)
        px (seqZ 0 (Dx dstRect)))
      px (seqZ 0 (Dy dstRect)).

Definition renderSliderCandidate (img : image) (gridSize : Z) (mapping : list Z) : result image :=
  if gridSize <=? 0 then Err (errorf (str "invalid grid size: " ++ Itoa gridSize))
  else if negb (Z.of_nat (length mapping) =? wrap_int (gridSize * gridSize)) then
    Err (errorf (str "unexpected tile mapping length: " ++ Itoa (Z.of_nat (length mapping))))
  else
    let b := Bounds img in
    Ok (canvas_image b
          (foldl (λ px '(dstIndex, srcIndex),
             copyScaledTile b (sliderTileRect b gridSize dstIndex) img (sliderTileRect b gridSize srcIndex) px)
             ∅ (zip (seqZ 0 (Z.of_nat (length mapping))) mapping))).

(** ** Scores *)

Definition absDiff (left right : Z) : Z := if left >? right then left - right else right - left.

Definition pixelDiff (left right : color) : Z :=
  absDiff (c_r left) (c_r right) + absDiff (c_g left) (c_g right) + absDiff (c_b left) (c_b right).

Definition sum_over (n : Z) (f : Z → Z) : Z := foldl (λ z i, z + f i) 0 (seqZ 0 n).

Definition scoreRenderedSliderImage (img : image) (gridSize : Z) : Z :=
  let b := Bounds img in
  let tile row col := sliderTileRect b gridSize (row * gridSize + col) in
  wrap_int
    (sum_over gridSize (λ row, sum_over (gridSize - 1) (λ col,
       let leftRect := tile row col in let rightRect := tile row (col + 1) in
       sum_over (minInt (Dy leftRect) (Dy rightRect)) (λ offset,
         pixelDiff (At img (MaxX leftRect - 1) (MinY leftRect + offset)) (At img (MinX rightRect) (MinY rightRect + offset))))) +
     sum_over (gridSize - 1) (λ row, sum_over gridSize (λ col,
       let topRect := tile row col in let bottomRect := tile (row + 1) col in
       sum_over (minInt (Dx topRect) (Dx bottomRect)) (λ offset,
         pixelDiff (At img (MinX topRect + offset) (MaxY topRect - 1)) (At img (MinX bottomRect + offset) (MinY bottomRect)))))).

Definition scoreSliderCandidate (img : image) (gridSize : Z) (mapping : list Z) : result Z :=
  let? rendered := renderSliderCandidate img gridSize mapping in
  Ok (scoreRenderedSliderImage rendered gridSize).

(** ** Candidates *)

Record sliderCandidate := MkCandidate { Index : Z; ActiveSteps : list Z; Score : Z }.

Fixpoint score_candidates (img : image) (gridSize : Z) (swaps : list Z) (indices : list Z) : outcome (result (list sliderCandidate)) :=
  match indices with
  | [] => Done (Ok [])
  | idx :: indices =>
      let activeSteps := buildSliderActiveSteps swaps idx in
      match buildSliderTileMapping gridSize activeSteps with
      | Panics => Panics
      | Done r =>
          match (let? mapping := r in scoreSliderCandidate img gridSize mapping) with
          | Err e => Done (Err e)
          | Ok score =>
              match score_candidates img gridSize swaps indices with
              | Panics => Panics
              | Done rest => Done (let? rest := rest in Ok (MkCandidate idx activeSteps score :: rest))
              end
          end
      end
  end.

(** The comparator of [sort.SliceStable], as not-greater. *)
Definition candidate_leb (a b : sliderCandidate) : bool :=
  if Score a =? Score b then Index a <=? Index b else Score a <? Score b.

Definition rankSliderCandidates (img : image) (gridSize : Z) (swaps : list Z) : outcome (result (list sliderCandidate)) :=
  let candidateCount := Z.of_nat (length swaps) / 2 in
  if candidateCount =? 0 then Done (Err (errorf (str "slider has no candidates")))
  else match score_candidates img gridSize swaps (seqZ 1 candidateCount) with
       | Panics => Panics
       | Done r => Done (let? candidates := r in Ok (isort candidate_leb candidates))
       end.
(** ** Tiles *)

Lemma swap_perm l r m : (Z.to_nat l < length m)%nat → (Z.to_nat r < length m)%nat → swap l r m ≡ₚ m.
Proof.
  intros Hl Hr. unfold swap. destruct (lookup_lt_is_Some_2 m _ Hl) as [a Ha]. destruct (lookup_lt_is_Some_2 m _ Hr) as [b Hb].
  rewrite Ha, Hb. revert Ha Hb Hl Hr. generalize (Z.to_nat l), (Z.to_nat r). intros i j Ha Hb Hi Hj.
  apply Permutation_inj. split; [by rewrite !length_insert|].
  exists (λ k, if decide (k = i) then j else if decide (k = j) then i else k). split.
  - intros x y. repeat case_decide; congruence.
  - intros k. destruct (decide (k = j)) as [->|Hkj].
    + rewrite list_lookup_insert_eq by by rewrite length_insert. destruct (decide (j = i)) as [->|]; [congruence|done].
    + rewrite list_lookup_insert_ne by done. case_decide as Hki; [subst; by rewrite list_lookup_insert_eq|].
      by rewrite list_lookup_insert_ne.
Qed.

Lemma swap_length l r m : length (swap l r m) = length m.
Proof. unfold swap. repeat case_match; by rewrite ?length_insert. Qed.

Definition in_grid (n : Z) (s : Z) : Prop := 0 ≤ s < n.

Lemma apply_swaps_spec n steps m : Nat.odd (length steps) = false → Z.of_nat (length m) = n →
  match apply_swaps n steps m with
  | Ok m' => m' ≡ₚ m ∧ Forall (in_grid n) steps
  | Err _ => ¬ Forall (in_grid n) steps
  end.
Proof.
  remember (length steps) as k eqn:Ek. revert steps m Ek. induction k as [k IH] using lt_wf_ind. intros [|l [|r steps]] m -> Ho Hm; cbn [apply_swaps].
  - split; [done|constructor].
  - done.
  - destruct ((l <? 0) || (r <? 0) || (l >=? n) || (r >=? n)) eqn:E.
    + intros [H1 [H2 _]%Forall_cons]%Forall_cons. unfold in_grid in *. lia.
    + specialize (IH (length steps)). cbn in IH. specialize (IH ltac:(lia) steps (swap l r m) eq_refl Ho).
      rewrite swap_length in IH. specialize (IH Hm). destruct (apply_swaps n steps (swap l r m)) as [m'|e].
      * destruct IH as [-> Hs]. split; [apply swap_perm; lia|]. unfold in_grid in *. constructor; [lia|]. constructor; [lia|done].
      * intros [_ [_ H]%Forall_cons]%Forall_cons. by apply IH.
Qed.

Lemma active_steps_even swaps i : Nat.odd (length swaps) = false → Nat.odd (length (buildSliderActiveSteps swaps i)) = false.
Proof.
  intros Ho. unfold buildSliderActiveSteps. destruct (Z.leb_spec i 0); [done|]. rewrite length_take.
  rewrite <-Nat.negb_even in *. apply negb_false_iff in Ho. apply negb_false_iff.
  apply Nat.even_spec in Ho as [h Hh]. apply Nat.even_spec.
  set (e := if Z.rem i 2 =? 0 then i * 2 - 2 else i * 2). assert (∃ q, e = 2 * q) as [q Hq].
  { unfold e. destruct (Z.rem i 2 =? 0); [exists (i - 1)|exists i]; lia. }
  destruct (Z.ltb_spec e 0); [exists 0%nat; destruct (Z.gtb_spec 0 (Z.of_nat (length swaps))); lia|]. destruct (Z.gtb_spec e (Z.of_nat (length swaps))).
  - exists h. lia.
  - exists (Z.to_nat q). lia.
Qed.
(** ** Rendering, pixel by pixel *)

Lemma div_le_iff a b q : 0 < b → a / b ≤ q ↔ a < b * (q + 1).
Proof.
  intros Hb. pose proof (Z.mul_div_le a b Hb). pose proof (Z.mul_succ_div_gt a b Hb). unfold Z.succ in *.
  split; intros; nia.
Qed.

Lemma div_gt_iff a b q : 0 < b → q < a / b ↔ b * (q + 1) ≤ a.
Proof. intros Hb. pose proof (div_le_iff a b q Hb). lia. Qed.

(** The slice of [n] pixels in [g] parts that holds pixel [x]. *)
Definition slice_of (n g x : Z) : Z := ((x + 1) * g - 1) / n.

Lemma slice_range n g x : 0 < g → 0 ≤ x < n → 0 ≤ slice_of n g x < g.
Proof. intros Hg Hx. unfold slice_of. split; [apply Z.div_pos; nia|apply Z.div_lt_upper_bound; nia]. Qed.

Lemma slice_exact n g i x : 0 < g → 0 ≤ x < n → 0 ≤ i →
  (Z.quot (i * n) g ≤ x ∧ x < Z.quot ((i + 1) * n) g) ↔ i = slice_of n g x.
Proof.
  intros Hg Hx Hi. rewrite !Z.quot_div_nonneg by nia. rewrite div_le_iff, div_gt_iff by done. unfold slice_of.
  pose proof (div_le_iff ((x + 1) * g - 1) n i ltac:(lia)). pose proof (div_gt_iff ((x + 1) * g - 1) n (i - 1) ltac:(lia)).
  split; intros; nia.
Qed.

Lemma Rect_ordered x0 y0 x1 y1 : x0 ≤ x1 → y0 ≤ y1 → Rect x0 y0 x1 y1 = MkRect x0 y0 x1 y1.
Proof. intros. unfold Rect. destruct (Z.gtb_spec x0 x1), (Z.gtb_spec y0 y1); done || lia. Qed.

Lemma inside_spec b x y : inside b x y = true ↔ MinX b ≤ x < MaxX b ∧ MinY b ≤ y < MaxY b.
Proof. unfold inside. rewrite !andb_true_iff, !Z.leb_le, !Z.ltb_lt. lia. Qed.

(** The tile that holds a pixel. *)
Definition tile_of (b : Rectangle) (g x y : Z) : Z :=
  slice_of (Dy b) g (y - MinY b) * g + slice_of (Dx b) g (x - MinX b).

Lemma tile_of_range b g x y : 0 < g → inside b x y = true → 0 ≤ tile_of b g x y < g * g.
Proof.
  intros Hg Hi%inside_spec. unfold tile_of.
  pose proof (slice_range (Dx b) g (x - MinX b) Hg ltac:(unfold Dx; lia)).
  pose proof (slice_range (Dy b) g (y - MinY b) Hg ltac:(unfold Dy; lia)). nia.
Qed.

Lemma tile_rect b g i : 0 < g → 0 ≤ i → 0 ≤ Dx b → 0 ≤ Dy b → sliderTileRect b g i =
  MkRect (MinX b + Z.quot (Z.rem i g * Dx b) g) (MinY b + Z.quot (Z.quot i g * Dy b) g)
         (MinX b + Z.quot ((Z.rem i g + 1) * Dx b) g) (MinY b + Z.quot ((Z.quot i g + 1) * Dy b) g).
Proof.
  intros Hg Hi Hx Hy. unfold sliderTileRect. pose proof (Z.rem_bound_pos i g Hi Hg). pose proof (Z.quot_pos i g Hi Hg).
  apply Rect_ordered; (apply Z.add_le_mono_l, Z.quot_le_mono; [done|nia]).
Qed.

(** A pixel of the picture lies in exactly one tile. *)
Lemma in_tile b g i x y : 0 < g → 0 ≤ i → inside b x y = true →
  inside (sliderTileRect b g i) x y = true ↔ i = tile_of b g x y.
Proof.
  intros Hg Hi Hb. pose proof Hb as Hb'%inside_spec. rewrite tile_rect by (unfold Dx, Dy; lia). rewrite inside_spec. cbn.
  pose proof (Z.rem_bound_pos i g Hi Hg) as Hr. pose proof (Z.quot_pos i g Hi Hg) as Hq. pose proof (Z.quot_rem' i g) as Hd.
  pose proof (slice_exact (Dx b) g (Z.rem i g) (x - MinX b) Hg ltac:(unfold Dx; lia) ltac:(lia)) as Sx.
  pose proof (slice_exact (Dy b) g (Z.quot i g) (y - MinY b) Hg ltac:(unfold Dy; lia) ltac:(lia)) as Sy.
  pose proof (slice_range (Dx b) g (x - MinX b) Hg ltac:(unfold Dx; lia)) as Rx.
  unfold tile_of. split.
  - intros [Hx Hy]. destruct Sx as [Sx _]. destruct Sy as [Sy _]. specialize (Sx ltac:(lia)). specialize (Sy ltac:(lia)). lia.
  - intros E. assert (Z.rem i g = slice_of (Dx b) g (x - MinX b) ∧ Z.quot i g = slice_of (Dy b) g (y - MinY b)) as [E1 E2] by nia.
    apply Sx in E1. apply Sy in E2. lia.
Qed.
Lemma lookup_Set b x' y' c px x y : Set_ b x' y' c px !! (x, y) =
  if (x' =? x) && (y' =? y) && inside b x y then Some (to_rgba c) else px !! (x, y).
Proof.
  unfold Set_. destruct (Z.eqb_spec x' x) as [->|Hx]; cbn.
  - destruct (Z.eqb_spec y' y) as [->|Hy]; cbn; destruct (inside b x _); rewrite ?lookup_insert_eq; try done.
    rewrite lookup_insert_ne; [done|congruence].
  - destruct (inside b x' y'); [|done]. rewrite lookup_insert_ne; [done|congruence].
Qed.

(** A loop that sets pixel [(fx i, fy i)] for [i] below [n]. *)
Lemma lookup_row b x0 y' (C : Z → color) n px x y :
  foldl (λ px i, Set_ b (x0 + i) y' (C i) px) px (seqZ 0 (Z.of_nat n)) !! (x, y) =
  if (x0 <=? x) && (x <? x0 + Z.of_nat n) && (y' =? y) && inside b x y then Some (to_rgba (C (x - x0))) else px !! (x, y).
Proof.
  induction n as [|n IH]; [destruct (Z.leb_spec x0 x), (Z.ltb_spec x (x0 + Z.of_nat 0)); cbn; done || lia|].
  replace (Z.of_nat (S n)) with (Z.of_nat n + 1) by lia. rewrite seqZ_app, foldl_app by lia. cbn [seqZ foldl].
  replace (seqZ (0 + Z.of_nat n) 1) with [Z.of_nat n] by (cbn; f_equal; lia). cbn [foldl]. rewrite lookup_Set, IH.
  destruct (Z.eqb_spec (x0 + Z.of_nat n) x) as [<-|Hne].
  - replace (x0 + Z.of_nat n - x0) with (Z.of_nat n) by lia.
    replace (x0 + Z.of_nat n <? x0 + Z.of_nat n) with false by (symmetry; apply Z.ltb_ge; lia).
    replace (x0 <=? x0 + Z.of_nat n) with true by (symmetry; apply Z.leb_le; lia). replace (x0 + Z.of_nat n <? x0 + (Z.of_nat n + 1)) with true by (symmetry; apply Z.ltb_lt; lia). cbn.
    destruct (y' =? y), (inside b (x0 + Z.of_nat n) y); done.
  - replace (x <? x0 + (Z.of_nat n + 1)) with (x <? x0 + Z.of_nat n) by (apply eq_bool_prop_intro; rewrite !Is_true_true, !Z.ltb_lt; lia). done.
Qed.

Lemma lookup_rows b x0 y0 (C : Z → Z → color) w n px x y : 0 ≤ w →
  foldl (λ px j, foldl (λ px i, Set_ b (x0 + i) (y0 + j) (C i j) px) px (seqZ 0 w)) px (seqZ 0 (Z.of_nat n)) !! (x, y) =
  if (x0 <=? x) && (x <? x0 + w) && (y0 <=? y) && (y <? y0 + Z.of_nat n) && inside b x y
  then Some (to_rgba (C (x - x0) (y - y0))) else px !! (x, y).
Proof.
  intros Hw. induction n as [|n IH].
  { destruct (Z.leb_spec y0 y), (Z.ltb_spec y (y0 + Z.of_nat 0)); cbn; rewrite ?andb_false_r; done || lia. }
  replace (Z.of_nat (S n)) with (Z.of_nat n + 1) by lia. rewrite seqZ_app, foldl_app by lia.
  replace (seqZ (0 + Z.of_nat n) 1) with [Z.of_nat n] by (cbn; f_equal; lia). cbn [foldl].
  rewrite <-(Z2Nat.id w Hw). rewrite lookup_row, (Z2Nat.id w Hw), IH.
  destruct (Z.eqb_spec (y0 + Z.of_nat n) y) as [<-|Hne].
  - replace (y0 + Z.of_nat n - y0) with (Z.of_nat n) by lia.
    replace (y0 <=? y0 + Z.of_nat n) with true by (symmetry; apply Z.leb_le; lia). replace (y0 + Z.of_nat n <? y0 + (Z.of_nat n + 1)) with true by (symmetry; apply Z.ltb_lt; lia).
    replace (y0 + Z.of_nat n <? y0 + Z.of_nat n) with false by (symmetry; apply Z.ltb_ge; lia). cbn. rewrite !andb_true_r, !andb_false_r. done.
  - replace (y <? y0 + (Z.of_nat n + 1)) with (y <? y0 + Z.of_nat n) by (apply eq_bool_prop_intro; rewrite !Is_true_true, !Z.ltb_lt; lia). rewrite andb_false_r. done.
Qed.

(** Where a pixel of a tile comes from. *)
Definition source_pixel (src : image) (dstRect srcRect : Rectangle) (x y : Z) : color :=
  At src (MinX srcRect + Z.quot ((x - MinX dstRect) * Dx srcRect) (Dx dstRect))
         (MinY srcRect + Z.quot ((y - MinY dstRect) * Dy srcRect) (Dy dstRect)).

Lemma lookup_tile b dstRect src srcRect px x y : inside b x y = true →
  copyScaledTile b dstRect src srcRect px !! (x, y) =
  if inside dstRect x y && negb (Empty srcRect) then Some (to_rgba (source_pixel src dstRect srcRect x y)) else px !! (x, y).
Proof.
  intros Hb. unfold copyScaledTile. destruct (Empty srcRect); [rewrite orb_true_r, andb_false_r; done|].
  rewrite orb_false_r, andb_true_r. unfold Empty. destruct (Z.geb_spec (MinX dstRect) (MaxX dstRect)); cbn [orb].
  { replace (inside dstRect x y) with false; [done|]. symmetry. apply not_true_iff_false. rewrite inside_spec. lia. }
  destruct (Z.geb_spec (MinY dstRect) (MaxY dstRect)).
  { replace (inside dstRect x y) with false; [done|]. symmetry. apply not_true_iff_false. rewrite inside_spec. lia. }
  pose proof (lookup_rows b (MinX dstRect) (MinY dstRect) (λ i j,
    At src (MinX srcRect + Z.quot (i * Dx srcRect) (Dx dstRect)) (MinY srcRect + Z.quot (j * Dy srcRect) (Dy dstRect)))
    (Dx dstRect) (Z.to_nat (Dy dstRect)) px x y ltac:(unfold Dx; lia)) as L.
  rewrite (Z2Nat.id (Dy dstRect)) in L by (unfold Dy; lia). cbv zeta. rewrite L. rewrite Hb, andb_true_r. unfold inside, source_pixel, Dx, Dy.
  replace (MinX dstRect + (MaxX dstRect - MinX dstRect)) with (MaxX dstRect) by lia.
  by replace (MinY dstRect + (MaxY dstRect - MinY dstRect)) with (MaxY dstRect) by lia.
Qed.
Definition render_tile (img : image) (g : Z) (px : canvas) (p : Z * Z) : canvas :=
  let '(dstIndex, srcIndex) := p in
  copyScaledTile (Bounds img) (sliderTileRect (Bounds img) g dstIndex) img (sliderTileRect (Bounds img) g srcIndex) px.

Lemma render_others img g x y tiles px : 0 < g → inside (Bounds img) x y = true →
  Forall (λ p, 0 ≤ p.1 ∧ p.1 ≠ tile_of (Bounds img) g x y) tiles → foldl (render_tile img g) px tiles !! (x, y) = px !! (x, y).
Proof.
  intros Hg Hb Ht. revert px. induction Ht as [|[d s] tiles [Hd Hne] _ IH]; intros px; cbn [foldl]; [done|]. rewrite IH.
  cbn. rewrite lookup_tile by done. cbn in Hd, Hne.
  replace (inside (sliderTileRect (Bounds img) g d) x y) with false; [done|].
  symmetry. apply not_true_iff_false. rewrite in_tile by done. done.
Qed.

(** The picture of a mapping: each pixel is taken from the source tile of the
    tile it lies in, scaled. *)
Definition render_reference (img : image) (g : Z) (mapping : list Z) (x y : Z) : color :=
  let b := Bounds img in
  let d := tile_of b g x y in
  let srcRect := sliderTileRect b g (default 0 (mapping !! Z.to_nat d)) in
  if Empty srcRect then transparent else to_rgba (source_pixel img (sliderTileRect b g d) srcRect x y).

Lemma zip_split (l : list Z) k s : l !! k = Some s →
  zip (seqZ 0 (Z.of_nat (length l))) l =
  zip (seqZ 0 (Z.of_nat k)) (take k l) ++ (Z.of_nat k, s) :: zip (seqZ (Z.of_nat k + 1) (Z.of_nat (length l) - Z.of_nat k - 1)) (drop (S k) l).
Proof.
  intros Hk. pose proof (lookup_lt_Some _ _ _ Hk) as Hlt.
  rewrite <-(take_drop_middle l k s Hk) at 2.
  replace (Z.of_nat (length l)) with (Z.of_nat k + (1 + (Z.of_nat (length l) - Z.of_nat k - 1))) at 1 by lia.
  rewrite seqZ_app by lia. rewrite zip_with_app by (rewrite length_seqZ, length_take; lia). f_equal.
  rewrite seqZ_app by lia. replace (0 + Z.of_nat k) with (Z.of_nat k) by lia.
  replace (seqZ (Z.of_nat k) 1) with [Z.of_nat k] by (cbn; f_equal; lia). done.
Qed.

Lemma zip_indices a n (l : list Z) (P : Z → Prop) : (∀ i, a ≤ i < a + n → P i) → Forall (λ p : Z * Z, P p.1) (zip (seqZ a n) l).
Proof.
  intros HP. apply Forall_forall. intros [i x] Hi. apply elem_of_zip_l in Hi. apply HP. by apply elem_of_seqZ in Hi.
Qed.

(** C22: The loops that render a candidate compute the picture of its mapping: for
    a mapping with one entry per tile, every pixel of the result is the pixel of
    the tile that the mapping puts there, scaled to the tile's size, and no pixel
    of the picture is drawn twice with different values or left out; in
    particular the picture of an unscrambled mapping is the picture itself with
    8 bits per channel. *)
Theorem render_exact img g mapping : 0 < g → Z.of_nat (length mapping) = g * g → g * g < two63 →
  Forall (λ s, 0 ≤ s < g * g) mapping →
  ∃ out, renderSliderCandidate img g mapping = Ok out ∧ Bounds out = Bounds img ∧
    (∀ x y, inside (Bounds img) x y = true → At out x y = render_reference img g mapping x y) ∧
    (mapping = seqZ 0 (g * g) → ∀ x y, inside (Bounds img) x y = true → At out x y = to_rgba (At img x y)).
Proof.
  intros Hg Hl Hmax Hm. unfold renderSliderCandidate. destruct (Z.leb_spec g 0); [lia|].
  rewrite wrap_int_id by (unfold in_int; lia). rewrite Hl, Z.eqb_refl. cbn [negb]. eexists. split; [done|]. split; [done|].
  assert (∀ x y, inside (Bounds img) x y = true →
    default transparent (foldl (render_tile img g) ∅ (zip (seqZ 0 (g * g)) mapping) !! (x, y)) = render_reference img g mapping x y) as Href.
  { intros x y Hb. pose proof (tile_of_range (Bounds img) g x y Hg Hb) as Hd.
    destruct (lookup_lt_is_Some_2 mapping (Z.to_nat (tile_of (Bounds img) g x y))) as [s Hs]; [lia|].
    rewrite <-Hl, (zip_split mapping _ s Hs), foldl_app. cbn [foldl]. rewrite Z2Nat.id by lia.
    rewrite render_others; [|done|done|].
    - cbn. rewrite lookup_tile by done. rewrite (proj2 (in_tile (Bounds img) g (tile_of (Bounds img) g x y) x y Hg ltac:(lia) Hb) eq_refl). cbn.
      unfold render_reference. rewrite Hs. cbn. destruct (Empty (sliderTileRect (Bounds img) g s)); cbn; [|done].
      rewrite render_others; [done|done|done|]. apply (zip_indices _ _ _ (λ i, 0 ≤ i ∧ i ≠ tile_of (Bounds img) g x y)). intros i Hi. lia.
    - apply (zip_indices _ _ _ (λ i, 0 ≤ i ∧ i ≠ tile_of (Bounds img) g x y)). intros i Hi. lia. }
  split; [exact Href|]. intros -> x y Hb. change (At (canvas_image _ _) x y) with
    (default transparent (foldl (render_tile img g) ∅ (zip (seqZ 0 (g * g)) (seqZ 0 (g * g))) !! (x, y))).
  rewrite Href by done. unfold render_reference. pose proof (tile_of_range (Bounds img) g x y Hg Hb) as Hd.
  set (d := tile_of (Bounds img) g x y) in *. rewrite lookup_seqZ_lt by lia. cbn [from_option]. unfold id.
  replace (0 + Z.of_nat (Z.to_nat d)) with d by lia.
  pose proof (proj2 (in_tile (Bounds img) g d x y Hg ltac:(lia) Hb) eq_refl) as Hin%inside_spec.
  set (r := sliderTileRect (Bounds img) g d) in *. clearbody r. unfold Empty, source_pixel, Dx, Dy.
  destruct (Z.geb_spec (MinX r) (MaxX r)); [lia|]. destruct (Z.geb_spec (MinY r) (MaxY r)); [lia|]. cbn [orb].
  rewrite !Z.quot_mul by lia. replace (MinX r + (x - MinX r)) with x by lia. by replace (MinY r + (y - MinY r)) with y by lia.
Qed.
(** ** Ranking *)

Lemma mapping_ok g steps : 0 < g → g * g ≤ max_ints → Nat.odd (length steps) = false →
  ∃ r, buildSliderTileMapping g steps = Done r ∧
    match r with
    | Ok m => m ≡ₚ seqZ 0 (g * g) ∧ Forall (in_grid (g * g)) steps
    | Err _ => ¬ Forall (in_grid (g * g)) steps
    end.
Proof.
  intros Hg Hmax Ho. unfold buildSliderTileMapping. unfold max_ints in *. rewrite wrap_int_id by (unfold in_int, two63; nia).
  destruct (Z.leb_spec (g * g) 0); [nia|]. rewrite Ho. destruct (Z.gtb_spec (g * g) (2 ^ 45)); [lia|].
  eexists. split; [done|]. apply apply_swaps_spec; [done|]. rewrite length_seqZ. lia.
Qed.

Lemma score_ok img g m : 0 < g → g * g ≤ max_ints → m ≡ₚ seqZ 0 (g * g) → ∃ s, scoreSliderCandidate img g m = Ok s.
Proof.
  intros Hg Hmax Hm. unfold scoreSliderCandidate, renderSliderCandidate. destruct (Z.leb_spec g 0); [lia|].
  apply Permutation_length in Hm. rewrite length_seqZ in Hm. unfold max_ints in *.
  rewrite wrap_int_id by (unfold in_int, two63; nia). rewrite Hm, Z2Nat.id, Z.eqb_refl by nia. by eexists.
Qed.

(** A candidate and the evidence for its score. *)
Definition scored (img : image) (g : Z) (swaps : list Z) (c : sliderCandidate) : Prop :=
  ActiveSteps c = buildSliderActiveSteps swaps (Index c) ∧
  ∃ m, buildSliderTileMapping g (ActiveSteps c) = Done (Ok m) ∧ m ≡ₚ seqZ 0 (g * g) ∧ scoreSliderCandidate img g m = Ok (Score c).

Lemma score_candidates_spec img g swaps indices : 0 < g → g * g ≤ max_ints → Nat.odd (length swaps) = false →
  ∃ r, score_candidates img g swaps indices = Done r ∧
    match r with
    | Ok cs => Index <$> cs = indices ∧ Forall (scored img g swaps) cs
    | Err _ => ¬ Forall (in_grid (g * g)) swaps
    end.
Proof.
  intros Hg Hmax Ho. induction indices as [|i indices (rest & Er & IH)]; [by eexists|]. cbn [score_candidates].
  destruct (mapping_ok g (buildSliderActiveSteps swaps i)) as (r & Hr & Hm); [done|done|by apply active_steps_even|]. rewrite Hr.
  destruct r as [m|e]; cbn.
  - destruct Hm as [Hm _]. destruct (score_ok img g m Hg Hmax Hm) as [s Hs]. rewrite Hs, Er. eexists. split; [done|].
    destruct rest as [cs|e]; cbn; [|exact IH]. destruct IH as [Hi Hf]. split; [cbn; by rewrite Hi|].
    constructor; [|done]. split; [done|]. exists m. split; [exact Hr|]. done.
  - eexists. split; [done|]. intros Hf. apply Hm. unfold buildSliderActiveSteps. repeat case_match; try apply Forall_take; done || constructor.
Qed.

Lemma candidate_leb_total a b : candidate_leb a b = true ∨ candidate_leb b a = true.
Proof.
  unfold candidate_leb. destruct (Z.eqb_spec (Score a) (Score b)), (Z.eqb_spec (Score b) (Score a)); lia.
Qed.
Lemma candidate_leb_trans a b c : candidate_leb a b = true → candidate_leb b c = true → candidate_leb a c = true.
Proof.
  unfold candidate_leb. destruct (Z.eqb_spec (Score a) (Score b)), (Z.eqb_spec (Score b) (Score c)), (Z.eqb_spec (Score a) (Score c)); lia.
Qed.

(** For a puzzle of a sensible size, ranking never fails but for a swap out of
    the grid: it returns one candidate for every slider position, each with the
    swaps of its position, the score of the picture those swaps give (a
    permutation of the tiles), in order of score and then of position. *)
Theorem ranking_exact img g swaps : 0 < g → g * g ≤ max_ints → Nat.odd (length swaps) = false → swaps ≠ [] →
  ∃ r, rankSliderCandidates img g swaps = Done r ∧
    match r with
    | Ok cs => Index <$> cs ≡ₚ seqZ 1 (Z.of_nat (length swaps) / 2) ∧ Forall (scored img g swaps) cs ∧
        StronglySorted (λ a b, candidate_leb a b = true) cs
    | Err _ => ¬ Forall (in_grid (g * g)) swaps
    end.
Proof.
  intros Hg Hmax Ho Hne. unfold rankSliderCandidates.
  destruct (Z.eqb_spec (Z.of_nat (length swaps) / 2) 0) as [E|_].
  { exfalso. destruct swaps as [|a [|b swaps]]; [done|done|]. cbn [length] in E.
    apply Z.div_small_iff in E; lia. }
  destruct (score_candidates_spec img g swaps (seqZ 1 (Z.of_nat (length swaps) / 2)) Hg Hmax Ho) as (r & -> & Hr).
  eexists. split; [done|]. destruct r as [cs|e]; cbn; [|done]. destruct Hr as [Hi Hf].
  assert (isort candidate_leb cs ≡ₚ cs) as Hp by apply isort_perm. split; [by rewrite Hp, Hi|]. split; [by rewrite Hp|].
  apply (isort_sorted candidate_leb (λ _, True)); [intros; apply candidate_leb_total|intros x y z _ _ _; apply candidate_leb_trans|by apply Forall_true].
Qed.

(** A grid size is accepted without an upper bound: for a puzzle that claims
    2^31 tiles a side the steps are accepted and building the mapping asks for
    more memory than a slice can have, which panics and ends the process. *)
Theorem huge_grid_panics img : parseSliderSteps [2147483648; 0; 1] = Ok (2147483648, [0; 1], 4) ∧
  rankSliderCandidates img 2147483648 [0; 1] = Panics.
Proof. split; [reflexivity|]. vm_compute. reflexivity. Qed.

(** ** Witnesses *)

(** Four pixels, the left ones bright. *)
Definition sample_image : image :=
  MkImage (MkRect 0 0 4 4) (λ x _, if x <? 2 then MkColor 65535 0 0 65535 else MkColor 256 256 256 65535).

Lemma render_exact_witness : ∃ out, renderSliderCandidate sample_image 2 [1; 0; 2; 3] = Ok out ∧
  At out 0 0 = MkColor 257 257 257 65535.
Proof.
  destruct (render_exact sample_image 2 [1; 0; 2; 3]) as (out & E & _ & H & _);
    [lia|reflexivity|reflexivity|repeat constructor; lia|]. exists out. split; [exact E|]. rewrite H by reflexivity. reflexivity.
Defined.

Lemma ranking_exact_witness : ∃ cs, rankSliderCandidates sample_image 2 [0; 1; 2; 3] = Done (Ok cs) ∧
  Index <$> cs ≡ₚ [1; 2].
Proof.
  destruct (ranking_exact sample_image 2 [0; 1; 2; 3]) as (r & E & H); [lia|discriminate|reflexivity|discriminate|].
  destruct r as [cs|e]; [|exfalso; apply H; repeat constructor; discriminate || reflexivity].
  exists cs. split; [exact E|]. apply H.
Defined.
End Slider.
