(* ===== verification/Captcha.v ===== *)
(** * Solving a captcha automatically (client/slider_captcha.go and, in
    client/main.go, solvePoW, callCaptchaNotRobot, solveVkCaptcha)

    A session sends a fixed sequence of API requests; the answers are whatever
    the server says (see [GoWeb]).  Regular expressions on the page, JSON, base64
    and image decoding, hashes and random strings are arguments.  Requests'
    headers and pauses are not modelled; a request that cannot be built counts as
    one that failed. *)

From S2P Require Import Prelude GoStrings GoFloat GoWeb Slider.

Module Captcha.
Import Slider.

Definition captchaAPIBaseURL : bytes := str "https://api.vk.com/method/".
Definition sliderCaptchaType : bytes := str "slider".
Definition adFpLength : nat := 21.
Definition adFpAlphabet : bytes := str "0123456789abcdefghijklmnopqrstuvwxyzABCDEFGHIJKLMNOPQRSTUVWXYZ_-".
Definition captchaConnectionRtt : bytes := str "[]".
Definition captchaConnectionDownlink : bytes := str "[9.7,9.7,9.7,9.7,9.7,9.7,9.7,9.7,9.7,9.7,9.7,9.7,9.7,9.7,9.7,9.7]".

(** [generateAdFp] on the bytes the random source gives. *)
Definition generateAdFp (raw : bytes) : bytes :=
  (λ b, default Ascii.zero (adFpAlphabet !! Z.to_nat (Z.land (code b) 63))) <$> raw.

(** The description of a device, the same for every profile. *)
Definition pairs_json (l : list (bytes * bytes)) : bytes :=
  str "{" ++ Join ((λ p, quote p.1 ++ str ":" ++ p.2) <$> l) (str ",") ++ str "}".

Definition buildCaptchaDeviceJSON : bytes := pairs_json
  [(str "screenWidth", str "360"); (str "screenHeight", str "825"); (str "screenAvailWidth", str "360");
   (str "screenAvailHeight", str "825"); (str "innerWidth", str "360"); (str "innerHeight", str "679");
   (str "devicePixelRatio", str "2"); (str "language", quote (str "en-US"));
   (str "languages", str "[" ++ quote (str "en-US") ++ str "," ++ quote (str "ru-RU") ++ str "]");
   (str "webdriver", str "false"); (str "hardwareConcurrency", str "8"); (str "deviceMemory", str "2");
   (str "connectionEffectiveType", quote (str "4g")); (str "notificationsPermission", quote (str "denied"))].

(** ** Proof of work *)

Section pow.
Context (Sum256 : bytes → bytes).

Definition pow_hash (powInput : bytes) (nonce : Z) : bytes := EncodeToString (Sum256 (powInput ++ Itoa nonce)).

Fixpoint pow_loop (powInput target : bytes) (fuel : nat) (nonce : Z) : bytes :=
  match fuel with
  | O => []
  | S fuel =>
      let hexHash := pow_hash powInput nonce in
      if has_prefix target hexHash then hexHash else pow_loop powInput target fuel (nonce + 1)
  end.

Definition maximumNonce : Z := 10000000.

(** The largest string: the address space of linux/amd64. *)
Definition max_string : Z := 2 ^ 48.

(** [strings.Repeat] panics on a negative count and when the result cannot be
    allocated. *)
Definition solvePoW (powInput : bytes) (difficulty : Z) : outcome bytes :=
  if (difficulty <? 0) || (difficulty >? max_string) then Panics
  else Done (pow_loop powInput (replicate (Z.to_nat difficulty) "0"%char) (Z.to_nat maximumNonce) 1).
End pow.

(** *** What the search finds *)

Section pow_facts.
Context (Sum256 : bytes → bytes).

Definition solves (powInput : bytes) (difficulty nonce : Z) : Prop :=
  replicate (Z.to_nat difficulty) "0"%char `prefix_of` pow_hash Sum256 powInput nonce.

Lemma pow_loop_spec powInput target fuel nonce : let r := pow_loop Sum256 powInput target fuel nonce in
  (∃ n, nonce ≤ n < nonce + Z.of_nat fuel ∧ r = pow_hash Sum256 powInput n ∧ target `prefix_of` r ∧
     ∀ k, nonce ≤ k < n → ¬ target `prefix_of` pow_hash Sum256 powInput k) ∨
  (r = [] ∧ ∀ k, nonce ≤ k < nonce + Z.of_nat fuel → ¬ target `prefix_of` pow_hash Sum256 powInput k).
Proof.
  revert nonce. induction fuel as [|fuel IH]; intros nonce; cbn [pow_loop]; [right; split; [done|lia]|].
  destruct (has_prefix target (pow_hash Sum256 powInput nonce)) eqn:E.
  - left. exists nonce. split_and!; [lia|lia|done|by apply has_prefix_spec|lia].
  - assert (¬ target `prefix_of` pow_hash Sum256 powInput nonce) as Hn by (rewrite <-has_prefix_spec; congruence).
    destruct (IH (nonce + 1)) as [(n & ? & Hr & Hp & Hk)|[Hr Hk]].
    + left. exists n. split_and!; [lia|lia|done|done|]. intros k ?. destruct (decide (k = nonce)) as [->|]; [done|]. apply Hk. lia.
    + right. split; [done|]. intros k ?. destruct (decide (k = nonce)) as [->|]; [done|]. apply Hk. lia.
Qed.

(** The proof of work is exact: for every difficulty that fits in memory the
    search ends with the hash of the least nonce up to ten million whose hash has
    the required zeros, and with the empty string exactly when none has. *)
Theorem pow_exact powInput difficulty : 0 ≤ difficulty ≤ max_string →
  ∃ r, solvePoW Sum256 powInput difficulty = Done r ∧
    ((∃ n, 1 ≤ n ≤ 10000000 ∧ r = pow_hash Sum256 powInput n ∧ solves powInput difficulty n ∧
        ∀ k, 1 ≤ k < n → ¬ solves powInput difficulty k) ∨
     (r = [] ∧ ∀ k, 1 ≤ k ≤ 10000000 → ¬ solves powInput difficulty k)).
Proof.
  intros Hd. unfold solvePoW. destruct (Z.ltb_spec difficulty 0), (Z.gtb_spec difficulty max_string); try lia. cbn [orb].
  eexists. split; [reflexivity|].
  destruct (pow_loop_spec powInput (replicate (Z.to_nat difficulty) "0"%char) (Z.to_nat maximumNonce) 1) as [(n & Hn & Hr & Hp & Hk)|[Hr Hk]];
    rewrite Z2Nat.id in * by (unfold maximumNonce; lia); unfold maximumNonce in *.
  - left. exists n. split; [lia|]. split; [exact Hr|]. split; [|exact Hk]. unfold solves. by rewrite <-Hr.
  - right. split; [exact Hr|]. intros k ?. apply Hk. lia.
Qed.

(** What [solvePoW] returns: the hash of a nonce with the zeros asked for, or
    nothing when none of the ten million nonces has them. *)
Definition pow_proof (powInput : bytes) (difficulty : Z) (proof : bytes) : Prop :=
  (∃ n, 1 ≤ n ≤ 10000000 ∧ proof = EncodeToString (Sum256 (powInput ++ Itoa n)) ∧
     replicate (Z.to_nat difficulty) "0"%char `prefix_of` proof) ∨
  (proof = [] ∧ ∀ n, 1 ≤ n ≤ 10000000 →
     ¬ replicate (Z.to_nat difficulty) "0"%char `prefix_of` EncodeToString (Sum256 (powInput ++ Itoa n))).

Lemma solvePoW_proof powInput difficulty r : solvePoW Sum256 powInput difficulty = Done r → pow_proof powInput difficulty r.
Proof.
  unfold solvePoW. case_match; [done|]. assert (Z.of_nat (Z.to_nat maximumNonce) = 10000000) as Hf by (unfold maximumNonce; lia).
  generalize dependent (Z.to_nat maximumNonce). intros fuel Hf [= <-].
  destruct (pow_loop_spec powInput (replicate (Z.to_nat difficulty) "0"%char) fuel 1) as [(n & Hn & Hr & Hp & _)|[Hr Hk]].
  - left. exists n. split; [lia|]. by split.
  - right. split; [exact Hr|]. intros k ?. apply Hk. lia.
Qed.

Lemma proof_plain powInput difficulty proof : pow_proof powInput difficulty proof → QueryEscape proof = proof.
Proof. intros [(n & _ & -> & _)|[-> _]]; [apply QueryEscape_hex|done]. Qed.

Lemma pow_first powInput difficulty : 0 ≤ difficulty ≤ max_string →
  has_prefix (replicate (Z.to_nat difficulty) "0"%char) (pow_hash Sum256 powInput 1) = true →
  solvePoW Sum256 powInput difficulty = Done (pow_hash Sum256 powInput 1).
Proof.
  intros Hd Hp. unfold solvePoW. destruct (Z.ltb_spec difficulty 0), (Z.gtb_spec difficulty max_string); try lia. cbn [orb].
  assert (Z.to_nat maximumNonce = S (Z.to_nat (maximumNonce - 1))) as -> by (unfold maximumNonce; lia).
  cbn [pow_loop]. by rewrite Hp.
Qed.
End pow_facts.

(** ** Settings *)

Record captchaSettingsResponse := MkSettings { set_ShowCaptchaType : bytes; SettingsByType : gmap bytes bytes }.

Section api.
Context (Do : list request → request → result http_response) (Unmarshal : bytes → result object).
(** [json.Unmarshal] into any value, [json.Marshal] and [%v] of a value. *)
Context (Unmarshal_any : bytes → result json) (Marshal : json → result bytes) (Sprint : json → bytes).
(** [base64.StdEncoding] and [image.Decode]. *)
Context (base64 : bytes → bytes) (DecodeString : bytes → result bytes) (Decode : bytes → result image).
Context (out_of_range : float64 → Z).

(** The values of a Go map come in any order; the types are distinct. *)
Definition expand_object (fields : object) : list json :=
  (λ '(captchaType, settings), JObject [(str "type", JString captchaType); (str "settings", settings)]) <$> fields.

Definition expandCaptchaSettings (raw : option json) : option (list json) :=
  match raw with
  | Some (JArray l) => Some l
  | Some (JObject m) => Some (expand_object m)
  | Some (JString value) =>
      let trimmed := TrimSpace value in
      if bool_decide (trimmed = []) then None
      else match Unmarshal_any trimmed with
           | Ok (JArray l) => Some l
           | Ok (JObject m) => Some (expand_object m)
           | Ok JNull => Some []
           | _ => None
           end
  | _ => None
  end.

Definition normalizeCaptchaSettings (raw : option json) : result bytes :=
  match raw with
  | None | Some JNull => Ok []
  | Some (JString value) => Ok value
  | Some value => Marshal value
  end.

Fixpoint collect_settings (items : list json) (acc : gmap bytes bytes) : result (gmap bytes bytes) :=
  match items with
  | [] => Ok acc
  | JObject item :: items =>
      let captchaType := default [] (get_string (str "type") item) in
      if bool_decide (captchaType = []) then collect_settings items acc
      else
        let? normalized := map_err (errorf_w (str "invalid captcha_settings for " ++ captchaType ++ str ": "))
                             (normalizeCaptchaSettings (field (str "settings") item)) in
        collect_settings items (<[captchaType := normalized]> acc)
  | _ :: items => collect_settings items acc
  end.

Definition parseCaptchaSettingsResponse (resp : object) : result captchaSettingsResponse :=
  match get_object (str "response") resp with
  | None => Err (responseShapeError (str "invalid settings response") resp)
  | Some respObj =>
      let show := default [] (get_string (str "show_captcha_type") respObj) in
      match expandCaptchaSettings (field (str "captcha_settings") respObj) with
      | None => Ok (MkSettings show ∅)
      | Some rawSettings => let? m := collect_settings rawSettings ∅ in Ok (MkSettings show m)
      end
  end.

(** [None]: a nil pointer.  What [primary] has wins. *)
Definition mergeCaptchaSettings (primary fallback : option captchaSettingsResponse) : option captchaSettingsResponse :=
  match primary, fallback with
  | None, _ => fallback
  | Some p, None => Some p
  | Some p, Some f =>
      Some (MkSettings (if bool_decide (set_ShowCaptchaType p = []) then set_ShowCaptchaType f else set_ShowCaptchaType p)
                       (SettingsByType p ∪ SettingsByType f))
  end.

Definition describeCaptchaTypes (settingsByType : gmap bytes bytes) : bytes :=
  if bool_decide (settingsByType = ∅) then str "none"
  else Join (sort_strings (fst <$> map_to_list settingsByType)) (str ",").

(** ** The page of a captcha *)

(** The first group of each of the four regular expressions, and the two fields
    decoded from the data in [window.init]. *)
Record page_match := MkPage {
  powInputMatch : option bytes; repeatMatch : option bytes; difficultyMatch : option bytes; initMatch : option bytes }.

Context (find : bytes → page_match) (Unmarshal_init : bytes → result (bytes * option json)).

Record captchaBootstrap := MkBootstrap { PowInput : bytes; Difficulty : Z; Settings : captchaSettingsResponse }.

Definition parseCaptchaSettingsFromHTML (html : bytes) : result captchaSettingsResponse :=
  match initMatch (find html) with
  | None => Ok (MkSettings [] ∅)
  | Some text =>
      let? '(show, settings) := map_err (errorf_w (str "parse window.init captcha data: ")) (Unmarshal_init text) in
      parseCaptchaSettingsResponse
        [(str "response", JObject [(str "show_captcha_type", JString show); (str "captcha_settings", default JNull settings)])]
  end.

Fixpoint first_number (matches : list (option bytes)) (difficulty : Z) : Z :=
  match matches with
  | [] => difficulty
  | Some digits :: matches => match Atoi digits with Ok parsed => parsed | Err _ => first_number matches difficulty end
  | None :: matches => first_number matches difficulty
  end.

Definition parseCaptchaBootstrapHTML (html : bytes) : result captchaBootstrap :=
  match powInputMatch (find html) with
  | None => Err (errorf (str "powInput not found in captcha HTML"))
  | Some powInput =>
      let difficulty := first_number [repeatMatch (find html); difficultyMatch (find html)] 2 in
      let? settings := parseCaptchaSettingsFromHTML html in
      Ok (MkBootstrap powInput difficulty settings)
  end.

(** ** Answers *)

Record captchaCheckResult := MkCheck { Status : bytes; SuccessToken : bytes; ShowCaptchaType : bytes }.

Definition parseCaptchaCheckResult (resp : object) : result captchaCheckResult :=
  match get_object (str "response") resp with
  | None => Err (responseShapeError (str "invalid check response") resp)
  | Some respObj =>
      let r := MkCheck (default [] (get_string (str "status") respObj)) (default [] (get_string (str "success_token") respObj))
                 (default [] (get_string (str "show_captcha_type") respObj)) in
      if bool_decide (Status r = []) then Err (errorf (str "check status missing: " ++ Sprint (JObject resp))) else Ok r
  end.

Record sliderCaptchaContent := MkContent { Image : image; Size : Z; Steps : list Z; Attempts : Z }.

Definition decodeSliderImage (rawImage : bytes) : result image :=
  let? decoded := map_err (errorf_w (str "decode slider image: ")) (DecodeString rawImage) in
  map_err (errorf_w (str "decode slider image: ")) (Decode decoded).

Definition parseSliderCaptchaContentResponse (resp : object) : result sliderCaptchaContent :=
  match get_object (str "response") resp with
  | None => Err (responseShapeError (str "invalid slider content response") resp)
  | Some respObj =>
      let status := default [] (get_string (str "status") respObj) in
      if negb (bool_decide (status = str "OK")) then Err (errorf (str "slider getContent status: " ++ status))
      else
        let extension := ToLower (default [] (get_string (str "extension") respObj)) in
        if negb (bool_decide (extension ∈ [str "jpeg"; str "jpg"])) then
          Err (errorf (str "unsupported slider image format: " ++ extension))
        else
          let rawImage := default [] (get_string (str "image") respObj) in
          if bool_decide (rawImage = []) then Err (errorf (str "slider image missing"))
          else match get_array (str "steps") respObj with
               | None => Err (errorf (str "slider steps missing"))
               | Some rawSteps =>
                   let? steps := parseIntSlice out_of_range Sprint rawSteps in
                   let? '(size, swaps, attempts) := parseSliderSteps steps in
                   let? img := decodeSliderImage rawImage in
                   Ok (MkContent img size swaps attempts)
               end
  end.

Definition ints_json (l : list Z) : bytes := str "[" ++ Join (Itoa <$> l) (str ",") ++ str "]".

Definition encodeSliderAnswer (activeSteps : list Z) : bytes :=
  base64 (str "{" ++ quote (str "value") ++ str ":" ++ ints_json activeSteps ++ str "}").

Definition cursor_point (p : Z * Z * Z) : bytes :=
  let '(x, y, t) := p in
  str "{" ++ quote (str "x") ++ str ":" ++ Itoa x ++ str "," ++ quote (str "y") ++ str ":" ++ Itoa y ++ str "," ++
  quote (str "t") ++ str ":" ++ Itoa t ++ str "}".

Definition cursor_points (candidateIndex candidateCount startTime : Z) : list (Z * Z * Z) :=
  let startX := 140 in
  let endX := startX + Z.quot (620 * candidateIndex) candidateCount in
  (λ step, (startX + Z.quot ((endX - startX) * step) 11, 430 + (Z.rem step 3 - 1), startTime + step * 18)) <$> seqZ 0 12.

Definition buildSliderCursor (candidateIndex candidateCount startTime : Z) : bytes :=
  if candidateCount <=? 0 then str "[]"
  else str "[" ++ Join (cursor_point <$> cursor_points candidateIndex candidateCount startTime) (str ",") ++ str "]".

(** ** The session *)

Record captchaNotRobotSession := MkSession {
  sessionToken : bytes; hash : bytes; browserFp : bytes; adFp : bytes; debugInfo : bytes }.

Definition baseValues (s : captchaNotRobotSession) : Values :=
  values_Set (str "access_token") [] (values_Set (str "adFp") (adFp s)
    (values_Set (str "domain") (str "vk.com") (values_Set (str "session_token") (sessionToken s) []))).

(** A request of either flow. *)
Definition api_call (method form : bytes) : web object :=
  post Do Unmarshal maxCaptchaAPIResponseBytes (str "captcha API response")
    (MkRequest (captchaAPIBaseURL ++ method ++ str "?v=5.131") form).

Definition request_ (method : bytes) (values : Values) : web object := api_call method (values_Encode values).

Definition requestSettings (s : captchaNotRobotSession) : web captchaSettingsResponse :=
  web! resp := web_wrap (errorf_w (str "settings failed: ")) (request_ (str "captchaNotRobot.settings") (baseValues s)) in
  web_ret (parseCaptchaSettingsResponse resp).

Definition requestComponentDone (s : captchaNotRobotSession) : web unit :=
  let values := values_Set (str "device") buildCaptchaDeviceJSON (values_Set (str "browser_fp") [] (baseValues s)) in
  web! resp := web_wrap (errorf_w (str "componentDone failed: ")) (request_ (str "captchaNotRobot.componentDone") values) in
  web_ret (match get_object (str "response") resp with
           | Some respObj =>
               let status := default [] (get_string (str "status") respObj) in
               if bool_decide (status = []) || bool_decide (status = str "OK") then Ok tt
               else Err (errorf (str "componentDone status: " ++ status))
           | None => Ok tt
           end).

Definition checkMethod : bytes := str "captchaNotRobot.check".

(** The form of a check. *)
Definition check_values (s : captchaNotRobotSession) (cursor answer : bytes) : Values :=
  foldl (λ vs p, values_Set p.1 p.2 vs) (baseValues s)
    [(str "accelerometer", str "[]"); (str "gyroscope", str "[]"); (str "motion", str "[]"); (str "cursor", cursor);
     (str "taps", str "[]"); (str "connectionRtt", captchaConnectionRtt); (str "connectionDownlink", captchaConnectionDownlink);
     (str "browser_fp", browserFp s); (str "hash", hash s); (str "answer", answer); (str "debug_info", debugInfo s)].

Definition requestCheck (s : captchaNotRobotSession) (cursor answer : bytes) : web captchaCheckResult :=
  web! resp := web_wrap (errorf_w (str "check failed: ")) (request_ checkMethod (check_values s cursor answer)) in
  web_ret (parseCaptchaCheckResult resp).

Definition requestCheckboxCheck (s : captchaNotRobotSession) : web captchaCheckResult :=
  requestCheck s (str "[]") (base64 (str "{}")).

Definition requestSliderContent (s : captchaNotRobotSession) (sliderSettings : bytes) : web sliderCaptchaContent :=
  let values := if bool_decide (sliderSettings = []) then baseValues s
                else values_Set (str "captcha_settings") sliderSettings (baseValues s) in
  web! resp := web_wrap (errorf_w (str "getContent failed: ")) (request_ (str "captchaNotRobot.getContent") values) in
  web_ret (parseSliderCaptchaContentResponse resp).

Definition requestSliderCheck (s : captchaNotRobotSession) (c : sliderCandidate) (candidateCount startTime : Z) : web captchaCheckResult :=
  requestCheck s (buildSliderCursor (Index c) candidateCount startTime) (encodeSliderAnswer (ActiveSteps c)).

(** The error of the last request is only logged. *)
Definition requestEndSession {A} (s : captchaNotRobotSession) (a : A) : web A :=
  web_try (request_ (str "captchaNotRobot.endSession") (baseValues s)) (λ _, web_ret (Ok a)).

(** ** Trying the candidates *)

Fixpoint try_candidates (check : sliderCandidate → web captchaCheckResult) (candidates : list sliderCandidate) : web bytes :=
  match candidates with
  | [] => web_ret (Err (errorf (str "slider guesses exhausted")))
  | c :: candidates =>
      web! result := check c in
      if bool_decide (Status result = str "OK") then
        web_ret (if bool_decide (SuccessToken result = []) then Err (errorf (str "success_token not found"))
                 else Ok (SuccessToken result))
      else if bool_decide (Status result = str "ERROR_LIMIT") then
        web_ret (Err (errorf (str "slider check status: " ++ Status result)))
      else try_candidates check candidates
  end.

Definition trySliderCaptchaCandidates (candidates : list sliderCandidate) (maxAttempts : Z)
    (check : sliderCandidate → web captchaCheckResult) : web bytes :=
  if bool_decide (candidates = []) then web_ret (Err (errorf (str "slider has no ranked candidates")))
  else
    let limit := minInt maxAttempts (Z.of_nat (length candidates)) in
    if limit <=? 0 then web_ret (Err (errorf (str "slider has no attempts available")))
    else try_candidates check (take (Z.to_nat limit) candidates).

(** [startTime]: the clock when a candidate is submitted. *)
Definition callCaptchaNotRobotWithSliderPOC (s : captchaNotRobotSession) (startTime : sliderCandidate → Z)
    (initialSettings : option captchaSettingsResponse) : web (outcome bytes) :=
  web! settingsResp := requestSettings s in
  let settings := mergeCaptchaSettings (Some settingsResp) initialSettings in
  web! _ := requestComponentDone s in
  let sliderSettings := default [] (settings ≫= λ x, SettingsByType x !! sliderCaptchaType) in
  web_try (requestSliderContent s sliderSettings) (λ content,
    match content with
    | Err err =>
        web_try (requestCheckboxCheck s) (λ check,
          match check with
          | Err checkErr =>
              web_ret (Err (GoError (str "getContent failed (" ++ err_text err ++ str "); checkbox check error: " ++ err_text checkErr)
                              (err_chain err) (err_timeout err)))
          | Ok finalCheck =>
              if bool_decide (Status finalCheck = str "OK") then
                if bool_decide (SuccessToken finalCheck = []) then
                  web_ret (Err (errorf (str "success_token not found in fallback check")))
                else requestEndSession s (Done (SuccessToken finalCheck))
              else web_ret (Err (GoError (str "getContent failed (" ++ err_text err ++ str "); checkbox status: " ++ Status finalCheck)
                              (err_chain err) (err_timeout err)))
          end)
    | Ok sliderContent =>
        match rankSliderCandidates (Image sliderContent) (Size sliderContent) (Steps sliderContent) with
        | Panics => web_ret (Ok Panics)
        | Done (Err e) => web_ret (Err e)
        | Done (Ok candidates) =>
            web! successToken := trySliderCaptchaCandidates candidates (Attempts sliderContent)
              (λ c, requestSliderCheck s c (Z.of_nat (length candidates)) (startTime c)) in
            requestEndSession s (Done successToken)
        end
    end).

(** ** Without the puzzle *)

Definition baseParams (s : captchaNotRobotSession) : bytes :=
  str "session_token=" ++ QueryEscape (sessionToken s) ++ str "&domain=vk.com&adFp=" ++ QueryEscape (adFp s) ++ str "&access_token=".

Definition check_data (s : captchaNotRobotSession) : bytes :=
  baseParams s ++
    str "&accelerometer=" ++ QueryEscape (str "[]") ++ str "&gyroscope=" ++ QueryEscape (str "[]") ++
    str "&motion=" ++ QueryEscape (str "[]") ++ str "&cursor=" ++ QueryEscape (str "[]") ++ str "&taps=" ++ QueryEscape (str "[]") ++
    str "&connectionRtt=" ++ QueryEscape captchaConnectionRtt ++ str "&connectionDownlink=" ++ QueryEscape captchaConnectionDownlink ++
    str "&browser_fp=" ++ browserFp s ++ str "&hash=" ++ hash s ++ str "&answer=" ++ base64 (str "{}") ++ str "&debug_info=" ++ debugInfo s.

Definition callCaptchaNotRobot (s : captchaNotRobotSession) : web bytes :=
  web! _ := web_wrap (errorf_w (str "settings failed: ")) (api_call (str "captchaNotRobot.settings") (baseParams s)) in
  web! _ := web_wrap (errorf_w (str "componentDone failed: "))
              (api_call (str "captchaNotRobot.componentDone")
                 (baseParams s ++ str "&browser_fp=&device=" ++ QueryEscape buildCaptchaDeviceJSON)) in
  web! checkResp := web_wrap (errorf_w (str "check failed: ")) (api_call checkMethod (check_data s)) in
  web! successToken := web_ret
    (match get_object (str "response") checkResp with
     | None => Err (responseShapeError (str "invalid check response") checkResp)
     | Some respObj =>
         let status := default [] (get_string (str "status") respObj) in
         if negb (bool_decide (status = str "OK")) then Err (errorf (str "check status: " ++ status))
         else match get_string (str "success_token") respObj with
              | Some (c :: t) => Ok (c :: t)
              | _ => Err (errorf (str "success_token not found"))
              end
     end) in
  web_try (api_call (str "captchaNotRobot.endSession") (baseParams s)) (λ _, web_ret (Ok successToken)).

(** ** Solving *)

(** [neturl.Parse]: only whether it fails matters here. *)
Context (Parse : bytes → result Values).

Definition fetchCaptchaBootstrap (redirectURI : bytes) : web captchaBootstrap := λ h,
  match Parse redirectURI with
  | Err err => (Err err, h)
  | Ok _ =>
      let r := MkRequest redirectURI [] in
      ((let? response := Do h r in
        let? body := readResponseBodyLimited response maxCaptchaBootstrapResponseBytes (str "captcha bootstrap response") in
        parseCaptchaBootstrapHTML body), h ++ [r])
  end.

(** The random parts of a session. *)
Record session_random := MkRandom { rnd_browserFp : bytes; rnd_adFp : bytes; rnd_debugInfo : bytes }.

Definition newCaptchaNotRobotSession (token powHash : bytes) (rnd : session_random) : captchaNotRobotSession :=
  MkSession token powHash (rnd_browserFp rnd) (generateAdFp (rnd_adFp rnd)) (rnd_debugInfo rnd).

Context (Sum256 : bytes → bytes).

Definition solveVkCaptcha (SessionToken RedirectURI : bytes) (useSliderPOC : bool) (rnd : session_random)
    (startTime : sliderCandidate → Z) : web (outcome bytes) :=
  if bool_decide (SessionToken = []) then web_ret (Err (errorf (str "no session_token in redirect_uri for auto-solve")))
  else if bool_decide (RedirectURI = []) then web_ret (Err (errorf (str "no redirect_uri for auto-solve")))
  else
    web! bootstrap := web_wrap (errorf_w (str "failed to fetch captcha bootstrap: ")) (fetchCaptchaBootstrap RedirectURI) in
    match solvePoW Sum256 (PowInput bootstrap) (Difficulty bootstrap) with
    | Panics => web_ret (Ok Panics)
    | Done powHash =>
        let s := newCaptchaNotRobotSession SessionToken powHash rnd in
        web_wrap (errorf_w (str "captchaNotRobot API failed: "))
          (if useSliderPOC then callCaptchaNotRobotWithSliderPOC s startTime (Some (Settings bootstrap))
           else web! token := callCaptchaNotRobot s in web_ret (Ok (Done token)))
    end.

(** ** Facts *)

Definition check_url : bytes := str "https://api.vk.com/method/captchaNotRobot.check?v=5.131".

(** After the requests [h], a check was sent whose form names this session and
    this proof, and the complete answer granted the token. *)
Definition granted (session proof token : bytes) (h h' : list request) : Prop :=
  ∃ h1 form obj answer tail, h `prefix_of` h1 ∧ h' = h1 ++ MkRequest check_url form :: tail ∧
    has_field (str "session_token") (QueryEscape session) form ∧ has_field (str "hash") proof form ∧
    answered Do Unmarshal maxCaptchaAPIResponseBytes h1 (MkRequest check_url form) obj ∧
    get_object (str "response") obj = Some answer ∧ get_string (str "status") answer = Some (str "OK") ∧
    get_string (str "success_token") answer = Some token ∧ token ≠ [].

Lemma granted_mono session proof token h0 h h1 h2 : h0 `prefix_of` h → h1 `prefix_of` h2 →
  granted session proof token h h1 → granted session proof token h0 h2.
Proof.
  intros H0 [k ->] (h3 & form & obj & answer & tail & Hp & -> & H). exists h3, form, obj, answer, (tail ++ k).
  split; [by etrans|]. split; [|done]. by rewrite <-app_assoc.
Qed.

Lemma api_call_ok method form h o h' : api_call method form h = (Ok o, h') →
  let r := MkRequest (captchaAPIBaseURL ++ method ++ str "?v=5.131") form in
  h' = h ++ [r] ∧ answered Do Unmarshal maxCaptchaAPIResponseBytes h r o.
Proof. apply post_ok. unfold maxCaptchaAPIResponseBytes. lia. Qed.

Lemma default_nil {A} (o : option (list A)) l : l ≠ [] → default [] o = l → o = Some l.
Proof. destruct o; cbn; congruence. Qed.

Lemma check_values_fields s cursor ans : (str "session_token", sessionToken s) ∈ check_values s cursor ans ∧
  (str "hash", hash s) ∈ check_values s cursor ans.
Proof.
  unfold check_values, baseValues. cbn [foldl fst snd].
  split; repeat (first [apply values_Set_here | apply values_Set_other; [by vm_compute|]]).
Qed.

Lemma check_form s cursor ans : QueryEscape (hash s) = hash s → let form := values_Encode (check_values s cursor ans) in
  has_field (str "session_token") (QueryEscape (sessionToken s)) form ∧ has_field (str "hash") (hash s) form.
Proof.
  intros Hh. destruct (check_values_fields s cursor ans) as [H1 H2]. split.
  - exact (values_Encode_field _ _ _ H1).
  - rewrite <-Hh. exact (values_Encode_field _ _ _ H2).
Qed.

Lemma check_data_fields s : has_field (str "session_token") (QueryEscape (sessionToken s)) (check_data s) ∧
  has_field (str "hash") (hash s) (check_data s).
Proof.
  unfold check_data, baseParams. rewrite <-!app_assoc. split.
  - eexists [], _. split_and!; [reflexivity|by left|right; by eexists].
  - apply later_field. repeat (first [eapply (later_here (str "hash")); reflexivity | apply later_app]).
Qed.

(** What an accepted check shows. *)
Lemma requestCheck_ok s cursor ans h r h' : QueryEscape (hash s) = hash s → requestCheck s cursor ans h = (Ok r, h') →
  h `prefix_of` h' ∧ (Status r = str "OK" → SuccessToken r ≠ [] → granted (sessionToken s) (hash s) (SuccessToken r) h h').
Proof.
  intros Hplain. destruct (check_form s cursor ans Hplain) as [Hf1 Hf2]. unfold requestCheck. intros (resp & h1 & H1%web_wrap_ok & H2)%web_bind_ok.
  apply api_call_ok in H1 as [-> Hans]. apply web_ret_ok in H2 as [Hr ->]. split; [by apply prefix_app_r|]. intros Hok Htok.
  unfold parseCaptchaCheckResult in Hr. destruct (get_object _ resp) as [o|] eqn:Eo; [|done].
  case_bool_decide; [done|]. injection Hr as <-. cbn in *.
  exists h, (values_Encode (check_values s cursor ans)), resp, o, []. split_and!; [done|done|done|done|done|done| | |done].
  - by apply default_nil.
  - by apply default_nil.
Qed.

Lemma try_candidates_ok session proof check cs h token h' :
  (∀ c h r h', check c h = (Ok r, h') → h `prefix_of` h' ∧
     (Status r = str "OK" → SuccessToken r ≠ [] → granted session proof (SuccessToken r) h h')) →
  try_candidates check cs h = (Ok token, h') → granted session proof token h h'.
Proof.
  intros Hc. revert h. induction cs as [|c cs IH]; intros h; [done|]. cbn [try_candidates].
  intros (r & h1 & H1 & H2)%web_bind_ok. destruct (Hc _ _ _ _ H1) as [Hp Hg]. case_bool_decide as E.
  - apply web_ret_ok in H2 as [H2 ->]. case_bool_decide; [done|]. injection H2 as <-. auto.
  - case_bool_decide; [done|]. eapply granted_mono; [exact Hp|reflexivity|]. by apply IH.
Qed.

(** The puzzle costs at most the attempts allowed and the positions there are. *)
Lemma try_sends check cs n : (∀ c, sends_at_most 1 (check c)) →
  sends_at_most (Z.to_nat n `min` length cs) (trySliderCaptchaCandidates cs n check).
Proof.
  intros Hc. unfold trySliderCaptchaCandidates. case_bool_decide; [by apply (sends_le 0); [lia|apply sends_ret]|].
  case_match eqn:E; [by apply (sends_le 0); [lia|apply sends_ret]|].
  apply (sends_le (length (take (Z.to_nat (minInt n (Z.of_nat (length cs)))) cs))).
  { rewrite length_take. unfold minInt. case_match; lia. }
  generalize (take (Z.to_nat (minInt n (Z.of_nat (length cs)))) cs). clear -Hc. intros l.
  induction l as [|c l IH]; cbn; [apply sends_ret|]. apply (sends_bind 1); [done|]. intros r.
  do 2 (case_match; [apply (sends_le 0); [lia|apply sends_ret]|]). done.
Qed.

Lemma endSession_ok {A} s (a : A) h b h' : requestEndSession s a h = (Ok b, h') → b = a ∧ h `prefix_of` h'.
Proof.
  unfold requestEndSession. intros (x & h1 & H1 & H2)%web_try_ok. apply web_ret_ok in H2 as [[= ->] ->].
  split; [done|]. unfold request_, api_call, post in H1. injection H1 as _ <-. by apply prefix_app_r.
Qed.

(** Requests are only added. *)
Lemma sends_prefix {A} n (m : web A) h r h' : sends_at_most n m → m h = (r, h') → h `prefix_of` h'.
Proof. intros Hm E. destruct (Hm h) as (rs & Er & _). rewrite E in Er. cbn in Er. subst. by apply prefix_app_r. Qed.

Lemma sends_one {A B} (m : web A) (k : A → result B) : sends_at_most 1 m → sends_at_most 1 (web! x := m in web_ret (k x)).
Proof. intros Hm. apply (sends_bind 1 0); [done|]. intros x. apply sends_ret. Qed.

Lemma sends_api method form : sends_at_most 1 (api_call method form).
Proof. apply sends_post. Qed.

Lemma sends_settings s : sends_at_most 1 (requestSettings s).
Proof. apply sends_one, sends_wrap, sends_api. Qed.
Lemma sends_componentDone s : sends_at_most 1 (requestComponentDone s).
Proof. apply sends_one, sends_wrap, sends_api. Qed.
Lemma sends_content s settings : sends_at_most 1 (requestSliderContent s settings).
Proof. apply sends_one, sends_wrap, sends_api. Qed.
Lemma sends_check s cursor ans : sends_at_most 1 (requestCheck s cursor ans).
Proof. apply sends_one, sends_wrap, sends_api. Qed.

Lemma slider_flow_ok s startTime settings h token h' : QueryEscape (hash s) = hash s →
  callCaptchaNotRobotWithSliderPOC s startTime settings h = (Ok (Done token), h') → granted (sessionToken s) (hash s) token h h'.
Proof.
  intros Hplain. unfold callCaptchaNotRobotWithSliderPOC. intros (st & h1 & H1%(sends_prefix _ _ _ _ _ (sends_settings s)) & H)%web_bind_ok.
  apply web_bind_ok in H as (u & h2 & H2%(sends_prefix _ _ _ _ _ (sends_componentDone s)) & H).
  apply web_try_ok in H as (content & h3 & H3%(sends_prefix _ _ _ _ _ (sends_content _ _)) & H).
  assert (h `prefix_of` h3) as Hp by (by do 2 (etrans; [eassumption|])). clear H1 H2 H3.
  destruct content as [content|e].
  - destruct (rankSliderCandidates _ _ _) as [[cs|e]|]; [|done|done].
    apply web_bind_ok in H as (tok & h4 & H4 & H). apply endSession_ok in H as [[= ->] Hp'].
    eapply granted_mono; [exact Hp|exact Hp'|]. unfold trySliderCaptchaCandidates in H4.
    case_bool_decide; [done|]. case_match; [done|]. eapply try_candidates_ok; [|exact H4].
    intros c k r k' Hk. unfold requestSliderCheck in Hk. exact (requestCheck_ok _ _ _ _ _ _ Hplain Hk).
  - apply web_try_ok in H as (check & h4 & H4 & H). destruct check as [r|e']; [|done].
    case_bool_decide as Eok; [|done]. case_bool_decide; [done|]. apply endSession_ok in H as [[= ->] Hp'].
    eapply granted_mono; [exact Hp|exact Hp'|]. unfold requestCheckboxCheck in H4. apply requestCheck_ok in H4 as [_ H4]; auto.
Qed.

Lemma simple_flow_ok s h token h' : callCaptchaNotRobot s h = (Ok token, h') → granted (sessionToken s) (hash s) token h h' ∧ (length h' ≤ length h + 4)%nat.
Proof.
  unfold callCaptchaNotRobot. intros (r1 & h1 & [-> _]%web_wrap_ok%api_call_ok & H)%web_bind_ok.
  apply web_bind_ok in H as (r2 & h2 & [-> _]%web_wrap_ok%api_call_ok & H).
  apply web_bind_ok in H as (r3 & h3 & [-> Hans]%web_wrap_ok%api_call_ok & H).
  apply web_bind_ok in H as (tok & h4 & [Ht ->]%web_ret_ok & H).
  apply web_try_ok in H as (r4 & h5 & H5 & [[= ->] ->]%web_ret_ok).
  unfold api_call, post in H5. injection H5 as _ <-. split; [|rewrite !length_app; cbn; lia].
  destruct (get_object _ r3) as [answer|] eqn:Ea; [|done]. case_bool_decide as Es; [|done]. cbn [negb] in Ht.
  destruct (get_string (str "success_token") answer) as [[|c t]|] eqn:Et; [done| |done]. injection Ht as <-.
  destruct (check_data_fields s) as [Hf1 Hf2].
  eexists _, (check_data s), r3, answer, _. split_and!; [|rewrite <-(app_assoc _ [_] [_]); reflexivity|done|done|exact Hans|done| |done|done].
  - by rewrite <-app_assoc; apply prefix_app_r.
  - by apply default_nil.
Qed.

(** C8: A solved captcha is really solved: when the solver returns a token, it
    fetched the captcha's page, which asks for a proof of work on [powInput], and the
    server completely answered a check with status OK and this token, which is not
    empty.  The form of that check carried the captcha's session token and, as its
    hash, the hash of a nonce up to ten million with the zeros the page asks for; it
    carried an empty hash only if no such nonce exists.  No token comes from an
    incomplete, oversized or malformed answer, from the settings, or from a check
    that was refused. *)
Theorem captcha_token_genuine session uri slider rnd startTime h token h' :
  solveVkCaptcha session uri slider rnd startTime h = (Ok (Done token), h') →
  ∃ page bootstrap proof, let first := MkRequest uri [] in
    Do h first = Ok page ∧ parseCaptchaBootstrapHTML (Body page) = Ok bootstrap ∧
    powInputMatch (find (Body page)) = Some (PowInput bootstrap) ∧
    pow_proof Sum256 (PowInput bootstrap) (Difficulty bootstrap) proof ∧
    granted session proof token (h ++ [first]) h' ∧
    (slider = false → (length h' ≤ length h + 5)%nat).
Proof.
  unfold solveVkCaptcha. do 2 (case_bool_decide as E'; [done|clear E']).
  intros (b & h1 & Hb%web_wrap_ok & H)%web_bind_ok. unfold fetchCaptchaBootstrap in Hb. destruct (Parse uri); [|done].
  injection Hb as Hb <-. apply result_bind_ok in Hb as (page & Hpage & Hb). apply result_bind_ok in Hb as (body & Hbody & Hb).
  apply read_limited_ok in Hbody as (-> & _ & _); [|unfold maxCaptchaBootstrapResponseBytes; lia].
  destruct (solvePoW Sum256 (PowInput b) (Difficulty b)) as [powHash|] eqn:Ep; [|done].
  apply web_wrap_ok in H. pose proof (solvePoW_proof _ _ _ _ Ep) as Hproof.
  exists page, b, powHash. split_and!; [done|done| |done| |].
  - unfold parseCaptchaBootstrapHTML in Hb. destruct (powInputMatch _); [|done]. apply result_bind_ok in Hb as (st & _ & [= <-]). done.
  - pose proof (proof_plain _ _ _ _ Hproof) as Hplain. destruct slider; [exact (slider_flow_ok (newCaptchaNotRobotSession session powHash rnd) _ _ _ _ _ Hplain H)|]. apply web_bind_ok in H as (tok & h2 & H2 & [[= ->] ->]%web_ret_ok).
    by apply simple_flow_ok in H2 as [? _].
  - intros ->. apply web_bind_ok in H as (tok & h2 & H2 & [[= ->] ->]%web_ret_ok).
    apply simple_flow_ok in H2 as [_ Hl]. rewrite length_app in Hl. cbn in Hl. lia.
Qed.
End api.

(** The number of zeros the page asks for has no upper bound: a page with a
    difficulty of 10^15 makes the client build a string of that length, which
    panics and ends the process. *)
Theorem huge_difficulty_panics Sum256 powInput :
  first_number [Some (str "1000000000000000"); None] 2 = 1000000000000000 ∧
  solvePoW Sum256 powInput 1000000000000000 = Panics.
Proof. by split. Qed.

(** ** Witnesses *)

(** A server that accepts every check, a page with a puzzle of difficulty 2 and a
    hash that starts with zeros. *)
Definition sample_page : bytes := str "page".
Definition sample_do (h : list request) (r : request) : result http_response :=
  Ok (MkResponse 200 (if bool_decide (req_form r = []) then sample_page else str "ok") None).
Definition sample_unmarshal (_ : bytes) : result object :=
  Ok [(str "response", JObject [(str "status", JString (str "OK")); (str "success_token", JString (str "t"))])].
Definition sample_hash (_ : bytes) : bytes := [chr 0; chr 1].
Definition sample_find (_ : bytes) : page_match := MkPage (Some (str "p")) None (Some (str "2")) None.
Definition sample_random : session_random := MkRandom [] [] [].
Definition sample_solve : web (outcome bytes) :=
  solveVkCaptcha sample_do sample_unmarshal (λ _, Err (errorf [])) (λ _, Ok []) (λ _, []) (λ b, b) Ok (λ _, Err (errorf [])) (λ _, 0)
    sample_find (λ _, Err (errorf [])) (λ _, Ok []) sample_hash (str "s") (str "u") false sample_random (λ _, 0).

Lemma sample_solved : ∃ h', sample_solve [] = (Ok (Done (str "t")), h').
Proof.
  unfold sample_solve, solveVkCaptcha. rewrite 2 bool_decide_false by done. unfold web_bind at 1.
  eassert (web_wrap _ _ _ = (Ok (MkBootstrap (str "p") 2 (MkSettings [] ∅)), [MkRequest (str "u") []])) as -> by (vm_compute; reflexivity).
  cbn [PowInput Difficulty]. rewrite pow_first; [|by vm_compute|by vm_compute]. eexists. vm_compute. reflexivity.
Qed.

Lemma captcha_token_genuine_witness : ∃ h' page, sample_solve [] = (Ok (Done (str "t")), h') ∧ sample_do [] (MkRequest (str "u") []) = Ok page.
Proof.
  destruct sample_solved as [h' E]. exists h'.
  destruct (captcha_token_genuine _ _ _ _ _ _ _ _ _ _ _ _ _ _ _ _ _ _ _ _ _ E) as (page & b & ph & H & _).
  exists page. by split.
Defined.

Lemma pow_exact_witness : ∃ r, solvePoW sample_hash (str "p") 2 = Done r.
Proof. destruct (pow_exact sample_hash (str "p") 2) as (r & H & _); [by vm_compute|]. by exists r. Defined.
End Captcha.
