(* ===== verification/VkAuth.v ===== *)
(** * Obtaining TURN credentials (client/main.go: ParseVkCaptchaError,
    getTokenChain, selectTLSProfile)

    Four kinds of requests lead from a client id to TURN credentials; the second
    token may be refused with a captcha, which the client solves in up to three
    ways.  The automatic solver is used through an interface, the class
    [CaptchaSolver], which [Captcha] implements; the manual one (a local web
    server) is an argument.  Clocks and counters are read as functions of the
    requests sent so far. *)

From S2P Require Import Prelude GoStrings GoFloat GoWeb Metrics ClientCreds ClientPool ClientMain Slider Captcha.

Module VkAuth.
Import ClientCreds.

(** ** The TLS profile *)

Inductive ClientProfile :=
  Chrome_146 | Chrome_133 | ConfirmedAndroid | ConfirmedAndroid2 | MeshAndroid | MeshAndroid2 | Okhttp4Android13.

Definition defaultTLSProfile : bytes := str "confirmed_android_2".

Definition selectedTLSProfileName (env tlsClientProfileName : bytes) : bytes :=
  let name := ToLower (TrimSpace env) in
  let name := if bool_decide (name = []) then ToLower (TrimSpace tlsClientProfileName) else name in
  if bool_decide (name = []) then ToLower (TrimSpace defaultTLSProfile) else name.

Definition selectTLSProfile (name : bytes) : ClientProfile :=
  if bool_decide (name ∈ [str "chrome_146"; str "chrome146"; str "chrome"]) then Chrome_146
  else if bool_decide (name = str "chrome_133") then Chrome_133
  else if bool_decide (name ∈ [str "confirmed_android"; str "android"]) then ConfirmedAndroid
  else if bool_decide (name ∈ [str "confirmed_android_2"; str "confirmed_android2"; str "android2"]) then ConfirmedAndroid2
  else if bool_decide (name = str "mesh_android") then MeshAndroid
  else if bool_decide (name ∈ [str "mesh_android_2"; str "mesh_android2"]) then MeshAndroid2
  else if bool_decide (name ∈ [str "okhttp4_android_13"; str "okhttp"]) then Okhttp4Android13
  else ConfirmedAndroid2.

(** ** A captcha *)

Record VkCaptchaError := MkCaptchaError {
  ErrorCode : Z; ErrorMsg : bytes; CaptchaSid : bytes; CaptchaImg : bytes; RedirectURI : bytes;
  IsSoundCaptchaAvailable : bool; SessionToken : bytes; CaptchaTs : bytes; CaptchaAttempt : bytes }.

(** [Values.Get]: the first value, or nothing. *)
Fixpoint values_Get (k : bytes) (vs : Values) : bytes :=
  match vs with
  | [] => []
  | (k', v) :: vs => if bool_decide (k' = k) then v else values_Get k vs
  end.

Section parse.
(** [int(f)] out of range, and [neturl.Parse] followed by [Query]. *)
Context (out_of_range : float64 → Z) (Parse : bytes → result Values).

(** A field that may be text or a number. *)
Definition text_or_number (k : bytes) (o : object) : bytes :=
  match field k o with
  | Some (JString s) => s
  | Some (JNumber f) => Sprintf_0f f
  | _ => []
  end.

(** [None]: no error could be made of the data. *)
Definition ParseVkCaptchaError (errData : object) : option VkCaptchaError :=
  match get_float (str "error_code") errData with
  | None => None
  | Some codeFloat =>
      let redirectURI := default [] (get_string (str "redirect_uri") errData) in
      let captchaSid := text_or_number (str "captcha_sid") errData in
      let captchaImg := default [] (get_string (str "captcha_img") errData) in
      let errorMsg := default [] (get_string (str "error_msg") errData) in
      let build sessionToken :=
        if bool_decide (redirectURI = []) && negb (bool_decide (captchaImg = [])) && bool_decide (captchaSid = []) then None
        else Some (MkCaptchaError (int_of_float out_of_range codeFloat) errorMsg captchaSid captchaImg redirectURI
                     (default false (get_bool (str "is_sound_captcha_available") errData)) sessionToken
                     (text_or_number (str "captcha_ts") errData) (text_or_number (str "captcha_attempt") errData)) in
      if bool_decide (redirectURI = []) then build []
      else match Parse redirectURI with
           | Ok query => build (values_Get (str "session_token") query)
           | Err _ => None
           end
  end.
End parse.

Definition IsCaptchaError (e : VkCaptchaError) : bool :=
  (ErrorCode e =? 14) &&
  ((negb (bool_decide (RedirectURI e = [])) && negb (bool_decide (SessionToken e = []))) || negb (bool_decide (CaptchaImg e = []))).

Definition captchaSolveModeLabel (mode : captchaSolveMode) : bytes :=
  match mode with
  | captchaSolveModeAuto => str "auto captcha"
  | captchaSolveModeSliderPOC => str "auto captcha slider POC"
  | captchaSolveModeManual => str "manual captcha"
  end.

(** ** The automatic solver, as this component sees it *)

(** What a solver may send: the page of the captcha, and calls of the captcha API. *)
Definition solver_request (r : request) : Prop := req_form r = [] ∨ Captcha.captchaAPIBaseURL `prefix_of` req_url r.

(** [solve session_token redirect_uri useSliderPOC] *)
Class CaptchaSolver := {
  solve : bytes → bytes → bool → web (outcome bytes);
  solve_requests s u b : sends_only solver_request (solve s u b);
  solve_token s u b h token h' : solve s u b h = (Ok (Done token), h') → token ≠ [];
}.

(** ** The chain of tokens *)

Record VKCredentials := MkVK { ClientID : bytes; ClientSecret : bytes }.

Definition vkCredentialsList : list VKCredentials :=
  [MkVK (str "6287487") (str "QbYic1K3lEV5kTGiqlq2"); MkVK (str "7879029") (str "aR5NKGmm03GYrCiNKsaw");
   MkVK (str "52461373") (str "o557NLIkAErNhakXrQ7A"); MkVK (str "52649896") (str "WStp4ihWG4l3nmXZgIbC");
   MkVK (str "51781872") (str "IjjCNl4L4Tf5QZEXIHKK")].

(** How the chain ends when no request failed: with a result, with all ways to
    solve a captcha used up (and the lockout stored), with a panic, or out of fuel. *)
Inductive ending (A : Type) :=
  | Granted (a : A)
  | Exhausted (lockout : Z) (e : goerror)
  | Crashed
  | Unfinished.
#[global] Arguments Granted {A} a.
#[global] Arguments Exhausted {A} lockout e.
#[global] Arguments Crashed {A}.
#[global] Arguments Unfinished {A}.

Definition TrimPrefix (s prefix : bytes) : bytes := if has_prefix prefix s then drop (length prefix) s else s.

Section chain.
Context `{CaptchaSolver}.
Context (Do : list request → request → result http_response) (Unmarshal : bytes → result object) (Sprint : json → bytes).
Context (out_of_range : float64 → Z) (Parse : bytes → result Values).
(** The clock in seconds and [connectedStreams] when they are read. *)
Context (now connectedStreams : list request → Z).
(** The manual solver, and whether its minute is over when it returns. *)
Context (solveCaptchaViaProxy solveCaptchaViaHTTP : list request → bytes → result bytes) (timed_out : list request → bool).
Context (manualCaptcha autoCaptchaSliderPOC : bool).
(** [tlsclient.NewHttpClient], the escaped name and [uuid.New]. *)
Context (client_error : option goerror) (escapedName device_id : bytes) (link : bytes).

Definition doRequest (data url : bytes) : web object :=
  post Do Unmarshal maxVKAPIResponseBytes (str "VK API response") (MkRequest url data).

Definition exhausted {A} : web (ending A) := λ h,
  (Ok (Exhausted (now h + 60)
     (errorf (if connectedStreams h =? 0 then str "FATAL_CAPTCHA_FAILED_NO_STREAMS" else str "CAPTCHA_WAIT_REQUIRED"))), h).

(** The success token and the key typed in. *)
Definition auto_solve (e : VkCaptchaError) (slider : bool) (missing : bytes) : web (outcome (bytes * bytes)) :=
  if negb (bool_decide (SessionToken e = [])) && negb (bool_decide (RedirectURI e = [])) then
    web! r := solve (SessionToken e) (RedirectURI e) slider in
    web_ret (Ok (match r with Done successToken => Done (successToken, []) | Panics => Panics end))
  else web_ret (Err (errorf missing)).

Definition manual_solve (e : VkCaptchaError) : web (outcome (bytes * bytes)) := λ h,
  let solved : result (bytes * bytes) :=
    if negb (bool_decide (RedirectURI e = [])) then
      let? token := solveCaptchaViaProxy h (RedirectURI e) in Ok (token, [])
    else if negb (bool_decide (CaptchaImg e = [])) then
      let? key := solveCaptchaViaHTTP h (CaptchaImg e) in Ok ([], key)
    else Err (errorf (str "no redirect_uri or captcha_img")) in
  let solved := if timed_out h then Err (errorf (str "manual captcha timed out after 60s")) else solved in
  (let? r := solved in Ok (Done r), h).

Definition solve_captcha (mode : captchaSolveMode) (e : VkCaptchaError) : web (outcome (bytes * bytes)) :=
  match mode with
  | captchaSolveModeAuto => auto_solve e false (str "missing fields for auto solve")
  | captchaSolveModeSliderPOC => auto_solve e true (str "missing fields for slider POC auto solve")
  | captchaSolveModeManual => manual_solve e
  end.

Definition join_link : bytes := str "vk_join_link=https://vk.com/call/join/" ++ link.

(** The form of the request after a captcha was solved. *)
Definition solved_data (token1 : bytes) (e : VkCaptchaError) (successToken captchaKey : bytes) : bytes :=
  let attempt := if bool_decide (CaptchaAttempt e = str "0") || bool_decide (CaptchaAttempt e = []) then str "1" else CaptchaAttempt e in
  if negb (bool_decide (captchaKey = [])) then
    join_link ++ str "&name=" ++ escapedName ++ str "&captcha_key=" ++ QueryEscape captchaKey ++
    str "&captcha_sid=" ++ CaptchaSid e ++ str "&access_token=" ++ token1
  else
    join_link ++ str "&name=" ++ escapedName ++ str "&captcha_key=&captcha_sid=" ++ CaptchaSid e ++
    str "&is_sound_captcha=0&success_token=" ++ QueryEscape successToken ++ str "&captcha_ts=" ++ CaptchaTs e ++
    str "&captcha_attempt=" ++ attempt ++ str "&access_token=" ++ token1.

Definition token_url (creds : VKCredentials) : bytes :=
  str "https://api.vk.ru/method/calls.getAnonymousToken?v=5.275&client_id=" ++ ClientID creds.

Definition mode_for (attempt : Z) : captchaSolveMode * bool :=
  captchaSolveModeForAttempt attempt manualCaptcha autoCaptchaSliderPOC.

(** The token of an answer without an error. *)
Definition answer_token (resp : object) : result bytes :=
  match get_object (str "response") resp with
  | None => Err (responseShapeError (str "unexpected getAnonymousToken response") resp)
  | Some respMap =>
      match get_string (str "token") respMap with
      | None => Err (responseShapeError (str "missing token in response") resp)
      | Some token2 => Ok token2
      end
  end.

Definition captcha_of (errObj : object) : option VkCaptchaError :=
  match ParseVkCaptchaError out_of_range Parse errObj with
  | Some e => if IsCaptchaError e then Some e else None
  | None => None
  end.

(** The loop for the second token. *)
Fixpoint token_loop (creds : VKCredentials) (token1 : bytes) (fuel : nat) (attempt : Z) (data : bytes) : web (ending bytes) :=
  match fuel with
  | O => web_ret (Ok Unfinished)
  | S fuel =>
      web! resp := doRequest data (token_url creds) in
      match get_object (str "error") resp with
      | Some errObj =>
          match captcha_of errObj with
          | Some e =>
              if negb (mode_for attempt).2 then exhausted
              else
                web_try (solve_captcha (mode_for attempt).1 e) (λ r,
                  match r with
                  | Ok Panics => web_ret (Ok Crashed)
                  | Ok (Done (successToken, captchaKey)) =>
                      token_loop creds token1 fuel (attempt + 1) (solved_data token1 e successToken captchaKey)
                  | Err _ => if (mode_for (attempt + 1)).2 then token_loop creds token1 fuel (attempt + 1) data else exhausted
                  end)
          | None => web_ret (Err (errorf (str "VK API error: " ++ Sprint (JObject errObj))))
          end
      | None => web! token2 := web_ret (answer_token resp) in web_ret (Ok (Granted token2))
      end
  end.

(** One more than the ways to solve a captcha. *)
Definition loop_fuel : nat := 4.

Definition anonym_token (resp : object) : result bytes :=
  match get_object (str "data") resp with
  | None => Err (responseShapeError (str "unexpected anon token response") resp)
  | Some dataMap =>
      match get_string (str "access_token") dataMap with
      | None => Err (responseShapeError (str "missing access_token in response") resp)
      | Some token1 => Ok token1
      end
  end.

Definition session_key (resp : object) : result bytes :=
  match get_string (str "session_key") resp with
  | None => Err (responseShapeError (str "missing session_key in response") resp)
  | Some token3 => Ok token3
  end.

(** The user, the password and the address in the last answer. *)
Definition turn_server (resp : object) : result (bytes * bytes * bytes) :=
  match get_object (str "turn_server") resp with
  | None => Err (responseShapeError (str "missing turn_server in response") resp)
  | Some tsRaw =>
      match get_string (str "username") tsRaw with
      | None => Err (errorf (str "missing username in turn_server"))
      | Some user =>
          match get_string (str "credential") tsRaw with
          | None => Err (errorf (str "missing credential in turn_server"))
          | Some pass =>
              match get_array (str "urls") tsRaw with
              | Some (JString urlStr :: _) =>
                  let clean := default [] (head (ClientMain.Split urlStr (str "?"))) in
                  Ok (user, pass, TrimPrefix (TrimPrefix clean (str "turn:")) (str "turns:"))
              | Some (_ :: _) => Err (errorf (str "turn server url is not a string"))
              | _ => Err (errorf (str "missing or empty urls in turn_server"))
              end
          end
      end
  end.

Definition okcdn_url : bytes := str "https://calls.okcdn.ru/fb.do".
Definition application_key : bytes := str "CGMMEJLGDIHBABABA".

Definition session_data : bytes :=
  str "{" ++ quote (str "version") ++ str ":2," ++ quote (str "device_id") ++ str ":" ++ quote device_id ++ str "," ++
  quote (str "client_version") ++ str ":1.1," ++ quote (str "client_type") ++ str ":" ++ quote (str "SDK_JS") ++ str "}".

Definition join_data (token2 token3 : bytes) : bytes :=
  str "joinLink=" ++ link ++ str "&isVideo=false&protocolVersion=5&capabilities=2F7F&anonymToken=" ++ token2 ++
  str "&method=vchat.joinConversationByLink&format=JSON&application_key=" ++ application_key ++ str "&session_key=" ++ token3.

(** What follows the second token. *)
Definition last_tokens (token2 : bytes) : web (ending (bytes * bytes * bytes)) :=
  web! resp := doRequest (str "session_data=" ++ QueryEscape session_data ++
    str "&method=auth.anonymLogin&format=JSON&application_key=" ++ application_key) okcdn_url in
  web! token3 := web_ret (session_key resp) in
  web! resp := doRequest (join_data token2 token3) okcdn_url in
  web! turn := web_ret (turn_server resp) in
  web_ret (Ok (Granted turn)).

Definition getTokenChain (creds : VKCredentials) : web (ending (bytes * bytes * bytes)) :=
  match client_error with
  | Some err => web_ret (Err (errorf_w (str "failed to initialize tls_client: ") err))
  | None =>
      web! resp := doRequest (str "client_id=" ++ ClientID creds ++ str "&token_type=messages&client_secret=" ++ ClientSecret creds ++
        str "&version=1&app_id=" ++ ClientID creds) (str "https://login.vk.ru/?act=get_anonym_token") in
      web! token1 := web_ret (anonym_token resp) in
      web_try (doRequest (join_link ++ str "&fields=photo_200&access_token=" ++ token1)
                 (str "https://api.vk.ru/method/calls.getCallPreview?v=5.275&client_id=" ++ ClientID creds)) (λ _,
        web! token := token_loop creds token1 loop_fuel 0 (join_link ++ str "&name=" ++ escapedName ++ str "&access_token=" ++ token1) in
        match token with
        | Granted token2 => last_tokens token2
        | Exhausted lockout e => web_ret (Ok (Exhausted lockout e))
        | Crashed => web_ret (Ok Crashed)
        | Unfinished => web_ret (Ok Unfinished)
        end)
  end.

(** ** Facts *)

(** The requests for the second token. *)
Definition is_token_request (creds : VKCredentials) (r : request) : bool :=
  bool_decide (req_url r = token_url creds) && negb (bool_decide (req_form r = [])).

Definition token_requests (creds : VKCredentials) (rs : list request) : nat := length (filter (λ r, is_token_request creds r = true) rs).

Lemma token_requests_app creds a b : token_requests creds (a ++ b) = (token_requests creds a + token_requests creds b)%nat.
Proof. unfold token_requests. by rewrite filter_app, length_app. Qed.

Lemma solver_no_token creds r : solver_request r → is_token_request creds r = false.
Proof.
  intros [E|[k E]]; unfold is_token_request.
  - rewrite (bool_decide_true (req_form r = [])) by done. by rewrite andb_false_r.
  - rewrite bool_decide_false; [done|]. rewrite E. unfold token_url. intros Heq.
    apply (f_equal (take 17)) in Heq. discriminate Heq.
Qed.

Lemma solver_token_requests creds rs : Forall solver_request rs → token_requests creds rs = 0%nat.
Proof.
  induction 1 as [|r rs Hr _ IH]; [done|]. unfold token_requests in *. rewrite filter_cons_False; [done|].
  rewrite solver_no_token by done. done.
Qed.

(** The ways to solve a captcha. *)
Definition solve_modes : Z := if manualCaptcha then 1 else if autoCaptchaSliderPOC then 3 else 2.

Lemma mode_for_iff attempt : 0 ≤ attempt → (mode_for attempt).2 = true ↔ attempt < solve_modes.
Proof.
  intros Ha. unfold mode_for, captchaSolveModeForAttempt, solve_modes. destruct manualCaptcha; cbn; [lia|].
  destruct (Z.eqb_spec attempt 0), (Z.eqb_spec attempt 1), (Z.eqb_spec attempt 2), autoCaptchaSliderPOC; cbn; split; (done || lia).
Qed.

Lemma solve_captcha_only mode e : sends_only solver_request (solve_captcha mode e).
Proof.
  assert (∀ b m, sends_only solver_request (auto_solve e b m)) as Ha.
  { intros b m. unfold auto_solve. case_match; [|apply only_ret]. apply only_bind; [apply solve_requests|]. intros x. apply only_ret. }
  destruct mode; [apply Ha|apply Ha|]. intros h. exists []. by rewrite app_nil_r.
Qed.

(** What running out of ways to solve a captcha leaves behind. *)
Definition locked_out {A} (r : result (ending A)) (h' : list request) : Prop :=
  ∀ l e, r = Ok (Exhausted l e) → l = now h' + 60 ∧
    e = errorf (if connectedStreams h' =? 0 then str "FATAL_CAPTCHA_FAILED_NO_STREAMS" else str "CAPTCHA_WAIT_REQUIRED").

Definition loop_ends (creds : VKCredentials) (n : Z) {A} (m : web (ending A)) : Prop := ∀ h, ∃ rs,
  (m h).2 = h ++ rs ∧ Z.of_nat (token_requests creds rs) ≤ n ∧ (m h).1 ≠ Ok Unfinished ∧ locked_out (m h).1 (m h).2.

Lemma ends_ret creds n {A} (r : result (ending A)) : 0 ≤ n → r ≠ Ok Unfinished → (∀ l e, r ≠ Ok (Exhausted l e)) →
  loop_ends creds n (web_ret r).
Proof. intros Hn Hr He h. exists []. rewrite app_nil_r. split_and!; [done|done|done|]. by intros l e ?%He. Qed.

Lemma ends_exhausted creds n {A} : 0 ≤ n → loop_ends creds n (@exhausted A).
Proof. intros Hn h. exists []. rewrite app_nil_r. split_and!; [done|done|done|]. by intros l e [= <- <-]. Qed.

(** A step with its own requests before. *)
Lemma ends_after creds n k {A B} (m : web A) (c : result A → web (ending B)) h :
  (∃ rs, (m h).2 = h ++ rs ∧ Z.of_nat (token_requests creds rs) ≤ k) → loop_ends creds n (c (m h).1) →
  ∃ rs, (web_try m c h).2 = h ++ rs ∧ Z.of_nat (token_requests creds rs) ≤ k + n ∧ (web_try m c h).1 ≠ Ok Unfinished ∧
    locked_out (web_try m c h).1 (web_try m c h).2.
Proof.
  intros (rs & E & Hk) Hc. unfold web_try. destruct (m h) as [x h1]. cbn in *. subst. destruct (Hc (h ++ rs)) as (rs' & E' & Hn & Hrest).
  exists (rs ++ rs'). rewrite E', token_requests_app, app_assoc. split; [done|]. split; [lia|]. by rewrite <-E'.
Qed.

Lemma web_bind_try {A B} (m : web A) (k : A → web B) h :
  web_bind m k h = web_try m (λ r, match r with Ok a => k a | Err e => web_ret (Err e) end) h.
Proof. unfold web_bind, web_try. by destruct (m h) as [[a|e] h1]. Qed.

Lemma ends_bind creds n k {A B} (m : web A) (c : A → web (ending B)) : 0 ≤ n →
  (∀ h, ∃ rs, (m h).2 = h ++ rs ∧ Z.of_nat (token_requests creds rs) ≤ k) → (∀ a, loop_ends creds n (c a)) →
  loop_ends creds (k + n) (web_bind m c).
Proof.
  intros Hn Hm Hc h. rewrite web_bind_try. apply ends_after; [done|]. destruct (m h).1 as [a|e]; [apply Hc|by apply ends_ret].
Qed.

Lemma post_token_requests creds data url h : ∃ rs, (doRequest data url h).2 = h ++ rs ∧ Z.of_nat (token_requests creds rs) ≤ 1.
Proof. exists [MkRequest url data]. split; [done|]. unfold token_requests. rewrite filter_cons. case_decide; cbn; lia. Qed.

Lemma token_loop_ends creds token1 fuel attempt data : 0 ≤ attempt ≤ solve_modes → solve_modes - attempt < Z.of_nat fuel →
  loop_ends creds (solve_modes - attempt + 1) (token_loop creds token1 fuel attempt data).
Proof.
  revert attempt data. induction fuel as [|fuel IH]; intros attempt data Ha Hf; [lia|]. cbn [token_loop].
  rewrite Z.add_comm. apply ends_bind; [lia|intros h; apply post_token_requests|]. intros resp.
  destruct (get_object (str "error") resp) as [errObj|].
  - destruct (captcha_of errObj) as [e|]; [|by apply ends_ret; [lia|..]].
    destruct (mode_for attempt).2 eqn:Em; cbn [negb]; [|by apply ends_exhausted; lia]. apply mode_for_iff in Em; [|lia].
    assert (∀ data', loop_ends creds (solve_modes - attempt) (token_loop creds token1 fuel (attempt + 1) data')) as Hnext.
    { intros data'. replace (solve_modes - attempt) with (solve_modes - (attempt + 1) + 1) by lia. apply IH; lia. }
    intros h. replace (solve_modes - attempt) with (0 + (solve_modes - attempt)) by lia. apply ends_after.
    + destruct (solve_captcha_only (mode_for attempt).1 e h) as (rs & E & Hrs). exists rs. split; [done|].
      by rewrite solver_token_requests.
    + destruct ((solve_captcha _ e h).1) as [[[t key]|]|err]; [apply Hnext|by apply ends_ret; [lia|..]|].
      case_match; [apply Hnext|by apply ends_exhausted; lia].
  - replace (solve_modes - attempt) with (0 + (solve_modes - attempt)) by lia. apply ends_bind; [lia| |].
    + intros h. exists []. by rewrite app_nil_r.
    + intros t. by apply ends_ret; [lia|..].
Qed.

Lemma ends_request creds n {B} data url (c : object → web (ending B)) : 0 ≤ n → url ≠ token_url creds →
  (∀ a, loop_ends creds n (c a)) → loop_ends creds n (web_bind (doRequest data url) c).
Proof.
  intros Hn Hu Hc. replace n with (0 + n) by lia. apply ends_bind; [done| |done].
  intros h. exists [MkRequest url data]. split; [done|]. unfold token_requests, is_token_request. rewrite filter_cons_False; [done|].
  cbn [req_url]. by rewrite bool_decide_false.
Qed.

Lemma ends_pure creds n {A B} (r : result A) (c : A → web (ending B)) : 0 ≤ n → (∀ a, loop_ends creds n (c a)) →
  loop_ends creds n (web_bind (web_ret r) c).
Proof.
  intros Hn Hc. replace n with (0 + n) by lia. apply ends_bind; [done| |done]. intros h. exists []. by rewrite app_nil_r.
Qed.

Lemma last_tokens_ends creds token2 : loop_ends creds 0 (last_tokens token2).
Proof.
  unfold last_tokens. apply ends_request; [done|by intros E%(f_equal (take 12))|]. intros r. apply ends_pure; [done|]. intros t.
  apply ends_request; [done|by intros E%(f_equal (take 12))|]. intros r'. apply ends_pure; [done|]. intros turn. by apply ends_ret.
Qed.

(** The loop and what follows it. *)
Lemma chain_tail_ends creds token1 data : loop_ends creds (solve_modes + 1)
  (web! token := token_loop creds token1 loop_fuel 0 data in
   match token with
   | Granted token2 => last_tokens token2
   | Exhausted lockout e => web_ret (Ok (Exhausted lockout e))
   | Crashed => web_ret (Ok Crashed)
   | Unfinished => web_ret (Ok Unfinished)
   end).
Proof.
  intros h. unfold web_bind. assert (1 ≤ solve_modes ≤ 3) as Hm by (unfold solve_modes; repeat case_match; lia).
  destruct (token_loop_ends creds token1 loop_fuel 0 data ltac:(lia) ltac:(unfold loop_fuel; lia) h) as (rs & E & Hc & Hu & Hl).
  rewrite Z.sub_0_r in Hc. destruct (token_loop creds token1 loop_fuel 0 data h) as [[r|e] h1]; cbn in E, Hu, Hl; subst h1.
  2: { exists rs. by split_and!. }
  destruct r as [token2|l e| |].
  - destruct (last_tokens_ends creds token2 (h ++ rs)) as (rs' & E' & Hc' & Hu' & Hl'). exists (rs ++ rs').
    rewrite token_requests_app, app_assoc. split; [done|]. split; [lia|done].
  - exists rs. cbn. split_and!; [done|done|done|]. intros l' e' [= <- <-]. by apply Hl.
  - exists rs. by split_and!.
  - exists rs. by split_and!.
Qed.

(** C18: Whatever the server answers, obtaining credentials ends: the second token
    is asked for at most once more than there are ways to solve a captcha (at
    most four times), the loop's fuel is never used up, and when no way is left
    the global lockout is set to a minute from then and the error says that the
    client must stop exactly when no stream is connected. *)
Theorem captcha_attempts_bounded creds h : ∃ rs, let '(r, h') := getTokenChain creds h in
  h' = h ++ rs ∧ Z.of_nat (token_requests creds rs) ≤ solve_modes + 1 ≤ 4 ∧ r ≠ Ok Unfinished ∧
  ∀ l e, r = Ok (Exhausted l e) → l = now h' + 60 ∧
    e = errorf (if connectedStreams h' =? 0 then str "FATAL_CAPTCHA_FAILED_NO_STREAMS" else str "CAPTCHA_WAIT_REQUIRED").
Proof.
  assert (1 ≤ solve_modes ≤ 3) as Hm by (unfold solve_modes; repeat case_match; lia).
  assert (loop_ends creds (solve_modes + 1) (getTokenChain creds)) as He.
  { unfold getTokenChain. destruct client_error; [apply ends_ret; [lia|done|done]|].
    apply ends_request; [lia|by intros E%(f_equal (take 12))|]. intros resp. apply ends_pure; [lia|]. intros token1 h0.
    replace (solve_modes + 1) with (0 + (solve_modes + 1)) by lia. apply ends_after; [|apply chain_tail_ends].
    eexists. split; [reflexivity|]. unfold token_requests, is_token_request. rewrite filter_cons_False; [done|]. cbn [req_url].
    rewrite bool_decide_false; [done|]. by intros E%(f_equal (take 36)). }
  destruct (He h) as (rs & E & Hc & Hu & Hl). exists rs. destruct (getTokenChain creds h) as [r h']. cbn in *.
  split_and!; [done|done|lia|done|done].
Qed.

(** *** What the credentials come from *)

Definition vk_answered : list request → request → object → Prop := answered Do Unmarshal maxVKAPIResponseBytes.

Lemma doRequest_ok data url h o h' : doRequest data url h = (Ok o, h') →
  h' = h ++ [MkRequest url data] ∧ vk_answered h (MkRequest url data) o.
Proof. apply post_ok. unfold maxVKAPIResponseBytes. lia. Qed.

(** The server gave the second token. *)
Definition token_given (creds : VKCredentials) (token2 : bytes) (h' : list request) : Prop :=
  ∃ h form obj respMap, h' = h ++ [MkRequest (token_url creds) form] ∧ vk_answered h (MkRequest (token_url creds) form) obj ∧
    get_object (str "error") obj = None ∧ get_object (str "response") obj = Some respMap ∧ get_string (str "token") respMap = Some token2.

Lemma token_loop_given creds token1 fuel attempt data h token2 h' :
  token_loop creds token1 fuel attempt data h = (Ok (Granted token2), h') → token_given creds token2 h'.
Proof.
  revert attempt data h. induction fuel as [|fuel IH]; intros attempt data h; [done|]. cbn [token_loop].
  intros (resp & h1 & [-> Hans]%doRequest_ok & E)%web_bind_ok. destruct (get_object (str "error") resp) as [errObj|] eqn:Ee.
  - destruct (captcha_of errObj) as [e|]; [|done]. destruct (negb (mode_for attempt).2); [done|].
    apply web_try_ok in E as (r & h2 & _ & E). destruct r as [[[t key]|]|err]; [by eapply IH|done|].
    destruct (mode_for (attempt + 1)).2; [by eapply IH|done].
  - apply web_bind_ok in E as (t & h2 & [Ht ->]%web_ret_ok & [[= ->] ->]%web_ret_ok). unfold answer_token in Ht.
    destruct (get_object (str "response") resp) as [respMap|] eqn:Er; [|done].
    destruct (get_string (str "token") respMap) as [t'|] eqn:Et; [|done]. injection Ht as ->.
    by exists h, data, resp, respMap.
Qed.

Lemma split_head (c : ascii) cur s : c ∉ cur → c ∉ default [] (head (ClientMain.split_go [c] cur 0 s)).
Proof.
  revert cur. induction s as [|b s IH]; intros cur Hc; cbn [ClientMain.split_go has_prefix].
  - cbn. by rewrite elem_of_reverse.
  - destruct (Ascii.eqb_spec c b) as [->|]; cbn [andb].
    + cbn. by rewrite elem_of_reverse.
    + apply IH. rewrite elem_of_cons. intros [->|?]; done.
Qed.

Lemma TrimPrefix_sub (c : ascii) s p : c ∈ TrimPrefix s p → c ∈ s.
Proof. unfold TrimPrefix. case_match; [|done]. intros [i Hi]%list_elem_of_lookup. rewrite lookup_drop in Hi. by eapply list_elem_of_lookup_2. Qed.

(** C20: The credentials are the server's: when the chain succeeds, its last request
    joined the call with a token the server granted for this client id in an
    answer without error, and the user, password and address are those of the
    complete answer to it; the address carries no query. *)
Theorem turn_credentials_genuine creds h user pass address h' :
  getTokenChain creds h = (Ok (Granted (user, pass, address)), h') →
  ∃ h1 token2 token3 obj ts url urls, let join := MkRequest okcdn_url (join_data token2 token3) in
    h' = h1 ++ [join] ∧ vk_answered h1 join obj ∧ get_object (str "turn_server") obj = Some ts ∧
    get_string (str "username") ts = Some user ∧ get_string (str "credential") ts = Some pass ∧
    get_array (str "urls") ts = Some (JString url :: urls) ∧
    address = TrimPrefix (TrimPrefix (default [] (head (ClientMain.Split url (str "?")))) (str "turn:")) (str "turns:") ∧
    ¬ "?"%char ∈ address ∧ ∃ h2, token_given creds token2 h2 ∧ h2 `prefix_of` h1.
Proof.
  unfold getTokenChain. destruct client_error; [done|]. intros (r1 & h1 & _ & E)%web_bind_ok.
  apply web_bind_ok in E as (token1 & h1' & _ & E). apply web_try_ok in E as (r2 & h2 & _ & E).
  apply web_bind_ok in E as (r & h3 & Hloop & E). destruct r as [token2|l e| |]; [|done|done|done].
  apply token_loop_given in Hloop. unfold last_tokens in E.
  apply web_bind_ok in E as (r4 & h4 & [-> _]%doRequest_ok & E). apply web_bind_ok in E as (token3 & h5 & [_ ->]%web_ret_ok & E).
  apply web_bind_ok in E as (obj & h6 & [-> Hans]%doRequest_ok & E).
  apply web_bind_ok in E as (turn & h7 & [Hturn ->]%web_ret_ok & [[= ->] ->]%web_ret_ok).
  unfold turn_server in Hturn. destruct (get_object (str "turn_server") obj) as [ts|] eqn:Ets; [|done].
  destruct (get_string (str "username") ts) as [u|] eqn:Eu; [|done]. destruct (get_string (str "credential") ts) as [p|] eqn:Epw; [|done].
  destruct (get_array (str "urls") ts) as [[|[| | |url| |] urls]|] eqn:Eurl; try done. injection Hturn as <- <- <-.
  eexists _, token2, token3, obj, ts, url, urls. split_and!; [reflexivity|done|done|done|done|done|done| |].
  - intros Hin. do 2 apply TrimPrefix_sub in Hin. apply (split_head "?"%char [] url); [apply not_elem_of_nil|exact Hin].
  - exists h3. split; [done|]. by apply prefix_app_r.
Qed.

(** *** Trying the client ids in order *)

(** The requests sent before the [k]-th client id is tried, and how its chain
    ends. *)
Fixpoint history_before (h : list request) (k : nat) : list request :=
  match k with
  | O => h
  | S k => (getTokenChain (default (MkVK [] []) (vkCredentialsList !! k)) (history_before h k)).2
  end.

Definition chain_end (h : list request) (k : nat) : result (ending (bytes * bytes * bytes)) :=
  (getTokenChain (default (MkVK [] []) (vkCredentialsList !! k)) (history_before h k)).1.

(** What [fetchVkCreds] sees of it. *)
Definition chain (h : list request) (k : nat) : result (bytes * bytes * bytes) :=
  match chain_end h k with
  | Ok (Granted turn) => Ok turn
  | Ok (Exhausted _ e) => Err e
  | Ok Crashed | Ok Unfinished => Err (errorf (str "panic"))
  | Err e => Err e
  end.

Lemma exhausted_aborts h k l e : chain_end h k = Ok (Exhausted l e) → captcha_abort e = true ∧ l = now (history_before h (S k)) + 60.
Proof.
  unfold chain_end. cbn [history_before]. destruct (captcha_attempts_bounded (default (MkVK [] []) (vkCredentialsList !! k)) (history_before h k)) as [rs Hrs].
  destruct (getTokenChain _ _) as [r h']. cbn. intros ->. destruct Hrs as (_ & _ & _ & H'). destruct (H' l e eq_refl) as [-> ->].
  split; [|done]. by case_match.
Qed.

Lemma try_credentials_abort {A} (c : nat → result A) n k i e lastErr : (i < n)%nat →
  (∀ j, (j < i)%nat → ∃ e', c (k + j)%nat = Err e' ∧ captcha_abort e' = false) →
  c (k + i)%nat = Err e → captcha_abort e = true → try_credentials c k n lastErr = (Err e, S (k + i)).
Proof.
  revert k i lastErr. induction n as [|n IH]; intros k i lastErr Hi Hj He Ha; [lia|]. cbn [try_credentials]. destruct i as [|i].
  - rewrite Nat.add_0_r in *. by rewrite He, Ha.
  - destruct (Hj 0%nat ltac:(lia)) as (e' & E' & Hf). rewrite Nat.add_0_r in E'. rewrite E', Hf.
    rewrite (IH (S k) i); [f_equal; lia|lia| |by replace (S k + i)%nat with (k + S i)%nat by lia|done].
    intros j ?. replace (S k + j)%nat with (k + S j)%nat by lia. apply Hj. lia.
Qed.

(** C19: A captcha that could not be solved stops the client from asking on: the
    remaining client ids are not tried, the error that ends the fetch is the
    chain's, and for the minute after it every fetch is refused without a
    request. *)
Theorem exhausted_captcha_stops h start lockout k l e : lockout ≤ start → (k < length vkCredentialsList)%nat →
  (∀ j, (j < k)%nat → ∃ e', chain h j = Err e' ∧ captcha_abort e' = false) →
  chain_end h k = Ok (Exhausted l e) →
  fetchVkCreds start lockout (chain h) = (Err e, S k) ∧
  ∀ t later, t < now (history_before h (S k)) + 60 →
    fetchVkCreds t l (chain later) = (Err (errorf (str "CAPTCHA_WAIT_REQUIRED: global lockout active")), 0%nat).
Proof.
  intros Hl Hk Hj Hend. destruct (exhausted_aborts h k l e Hend) as [Ha ->]. unfold fetchVkCreds. split.
  - destruct (Z.ltb_spec start lockout); [lia|]. apply (try_credentials_abort (chain h) _ 0 k); [exact Hk|exact Hj| |done].
    unfold chain. cbn [Nat.add]. by rewrite Hend.
  - intros t later Ht. destruct (Z.ltb_spec t (now (history_before h (S k)) + 60)); [done|lia].
Qed.
End chain.

(** ** The automatic solver implements the interface *)

Section solver.
Context (Do : list request → request → result http_response) (Unmarshal : bytes → result object).
Context (Unmarshal_any : bytes → result json) (Marshal : json → result bytes) (Sprint : json → bytes).
Context (base64 : bytes → bytes) (DecodeString : bytes → result bytes) (Decode : bytes → result Slider.image).
Context (out_of_range : float64 → Z) (find : bytes → Captcha.page_match) (Unmarshal_init : bytes → result (bytes * option json)).
Context (Parse : bytes → result Values) (Sum256 : bytes → bytes).
Context (rnd : list request → Captcha.session_random) (startTime : list request → Slider.sliderCandidate → Z).

Definition solve_now (s u : bytes) (slider : bool) : web (outcome bytes) := λ h,
  Captcha.solveVkCaptcha Do Unmarshal Unmarshal_any Marshal Sprint base64 DecodeString Decode out_of_range find Unmarshal_init
    Parse Sum256 s u slider (rnd h) (startTime h) h.

Lemma api_call_only method form : sends_only solver_request (Captcha.api_call Do Unmarshal method form).
Proof. apply only_post. right. by apply prefix_app_r. Qed.

Lemma request_only method values : sends_only solver_request (Captcha.request_ Do Unmarshal method values).
Proof. apply api_call_only. Qed.

Ltac sending := repeat first
  [ apply only_ret | apply api_call_only | apply request_only | apply only_wrap | apply only_bind; [|intros ?] | apply only_try; [|intros ?]
  | progress unfold Captcha.requestEndSession, Captcha.requestCheckboxCheck, Captcha.requestSliderCheck, Captcha.requestCheck,
      Captcha.requestSliderContent, Captcha.requestComponentDone, Captcha.requestSettings, Captcha.trySliderCaptchaCandidates ].

Lemma try_candidates_only check cs : (∀ c, sends_only solver_request (check c)) → sends_only solver_request (Captcha.try_candidates check cs).
Proof. intros Hc. induction cs as [|c cs IH]; cbn; sending; [apply Hc|]. repeat case_match; sending; apply IH. Qed.

Lemma slider_only s st settings : sends_only solver_request
  (Captcha.callCaptchaNotRobotWithSliderPOC Do Unmarshal Unmarshal_any Marshal Sprint base64 DecodeString Decode out_of_range s st settings).
Proof.
  unfold Captcha.callCaptchaNotRobotWithSliderPOC. do 2 (apply only_bind; [sending|intros ?]).
  apply only_try; [sending|intros [content|e]].
  - destruct (Slider.rankSliderCandidates _ _ _) as [[cs|e]|]; sending. repeat case_match; sending. apply try_candidates_only. intros c. sending.
  - sending. repeat case_match; sending.
Qed.

Lemma solver_only s u slider r st : sends_only solver_request
  (Captcha.solveVkCaptcha Do Unmarshal Unmarshal_any Marshal Sprint base64 DecodeString Decode out_of_range find Unmarshal_init
    Parse Sum256 s u slider r st).
Proof.
  unfold Captcha.solveVkCaptcha. do 2 (case_match; [sending|]). apply only_bind; [apply only_wrap|intros b].
  - intros h. unfold Captcha.fetchCaptchaBootstrap. destruct (Parse u); [|exists []; by rewrite app_nil_r].
    eexists. split; [reflexivity|]. constructor; [by left|constructor].
  - destruct (Captcha.solvePoW _ _ _); [|sending]. apply only_wrap. destruct slider; [apply slider_only|].
    unfold Captcha.callCaptchaNotRobot. sending.
Qed.

#[refine] Instance captcha_solver : CaptchaSolver := {| solve := solve_now |}.
Proof.
  - intros s u slider h. apply solver_only.
  - intros s u slider h token h' E. unfold solve_now, Captcha.solveVkCaptcha in E.
    do 2 (case_bool_decide; [done|]). apply web_bind_ok in E as (b & h1 & _ & E).
    destruct (Captcha.solvePoW _ _ _) eqn:Ep; [|done]. apply web_wrap_ok in E. destruct slider.
    + apply Captcha.slider_flow_ok in E as (? & ? & ? & ? & ? & E); [apply E|].
      exact (Captcha.proof_plain _ _ _ _ (Captcha.solvePoW_proof _ _ _ _ Ep)).
    + apply web_bind_ok in E as (t & h2 & E & [[= ->] _]%web_ret_ok).
      apply Captcha.simple_flow_ok in E as [(? & ? & ? & ? & ? & E) _]. apply E.
Defined.
End solver.

(** ** Witnesses *)

(** Servers whose answer depends on the address asked; [second] is the answer to
    the request for the second token. *)
Definition sample_do (h : list request) (r : request) : result http_response := Ok (MkResponse 200 (req_url r) None).
Definition sample_unmarshal (second : object) (body : bytes) : result object :=
  if has_prefix (str "https://login") body then Ok [(str "data", JObject [(str "access_token", JString (str "one"))])]
  else if bool_decide (body = okcdn_url) then
    Ok [(str "session_key", JString (str "three"));
        (str "turn_server", JObject [(str "username", JString (str "u")); (str "credential", JString (str "p"));
           (str "urls", JArray [JString (str "turn:192.0.2.1:3478?transport=udp")])])]
  else Ok second.
Definition second_token : object := [(str "response", JObject [(str "token", JString (str "two"))])].
Definition second_captcha : object :=
  [(str "error", JObject [(str "error_code", JNumber (S754_finite false 14 0)); (str "captcha_img", JString (str "i"));
                          (str "captcha_sid", JString (str "7"))])].
Definition refuse_all {A B} (_ : A) : result B := Err (errorf []).

Definition sample_solver : CaptchaSolver :=
  captcha_solver sample_do (sample_unmarshal second_token) refuse_all (λ _, Ok []) (λ _, []) (λ b, b) Ok refuse_all (λ _, 0)
    Captcha.sample_find refuse_all (λ _, Ok []) Captcha.sample_hash (λ _, Captcha.sample_random) (λ _ _, 0).

Definition sample_chain : web (ending (bytes * bytes * bytes)) :=
  @getTokenChain sample_solver sample_do (sample_unmarshal second_token) (λ _, []) (λ _, 0) (λ _, Ok []) (λ _, 1000) (λ _, 0)
    (λ _, refuse_all) (λ _, refuse_all) (λ _, false) true false None (str "n") (str "d") (str "link") (MkVK (str "1") (str "s")).

Lemma turn_credentials_genuine_witness :
  (sample_chain []).1 = Ok (Granted (str "u", str "p", str "192.0.2.1:3478")) ∧ ¬ "?"%char ∈ str "192.0.2.1:3478".
Proof.
  assert (sample_chain [] = (Ok (Granted (str "u", str "p", str "192.0.2.1:3478")), (sample_chain []).2)) as E
    by (vm_compute; reflexivity).
  split; [by rewrite E|]. unfold sample_chain in E at 1.
  apply turn_credentials_genuine in E as (? & ? & ? & ? & ? & ? & ? & _ & _ & _ & _ & _ & _ & _ & H & _). exact H.
Defined.

(** No stream is connected and the manual solver fails: the first client id is
    the last. *)
Lemma exhausted_captcha_stops_witness :
  fetchVkCreds 1000 0 (@chain sample_solver sample_do (sample_unmarshal second_captcha) (λ _, []) (λ _, 0) (λ _, Ok []) (λ _, 1000) (λ _, 0)
    (λ _, refuse_all) (λ _, refuse_all) (λ _, false) true false None (str "n") (str "d") (str "link") []) =
  (Err (errorf (str "FATAL_CAPTCHA_FAILED_NO_STREAMS")), 1%nat).
Proof.
  refine (proj1 (@exhausted_captcha_stops sample_solver sample_do (sample_unmarshal second_captcha) (λ _, []) (λ _, 0) (λ _, Ok []) (λ _, 1000)
    (λ _, 0) (λ _, refuse_all) (λ _, refuse_all) (λ _, false) true false None (str "n") (str "d") (str "link") [] 1000 0 0 1060 _ _ _ _ _)).
  - lia.
  - cbn. lia.
  - intros j Hj. lia.
  - vm_compute. reflexivity.
Defined.
End VkAuth.
