(* ===== verification/CaptchaProxy.v ===== *)
(** * The manual captcha (client/manual_captcha.go; the debug dumps of
    client/slider_captcha.go)

    The user solves a captcha in a browser that talks to a web server on the
    loopback interface.  The server forwards requests to VK, rewrites the
    answers, and waits for the success token.  [neturl.Parse], cookies, gzip,
    JSON, the transport and the parts of [httputil.ReverseProxy] before
    [Rewrite] are arguments; requests are handled one after another, since
    handlers share nothing but the channel for the key.  The text of the script
    put into a page is an argument too. *)

From S2P Require Import Prelude GoStrings GoIP GoWeb Diagnostics ClientMain VkAuth.

Module CaptchaProxy.
Import GoURL.

Definition maxCaptchaRequestBytes : Z := 2 ^ 20.
Definition maxCaptchaResponseBytes : Z := 8 * 2 ^ 20.
Definition localCaptchaEntryQuery : bytes := str "_vkturn_entry=1".

Definition allowedCaptchaDomainSuffixes : list bytes :=
  [str "vk.com"; str "vk.ru"; str "vk-cdn.net"; str "userapi.com"; str "okcdn.ru"; str "mycdn.me"].

(** ** Queries *)

(** [neturl.QueryUnescape] *)
Fixpoint QueryUnescape (s : bytes) : option bytes :=
  match s with
  | [] => Some []
  | c :: s1 =>
      if bool_decide (c = chr 37) then
        match s1 with
        | a :: b :: s2 =>
            match hex_value a, hex_value b with
            | Some x, Some y => cons (chr (16 * x + y)) <$> QueryUnescape s2
            | _, _ => None
            end
        | _ => None
        end
      else cons (if bool_decide (c = "+"%char) then " "%char else c) <$> QueryUnescape s1
  end.

(** [URL.Query]: pairs that cannot be decoded are left out. *)
Definition Query (u : URL) : Values :=
  omap (λ part,
    let '(k, v, _) := Cut part "="%char in
    if bool_decide (part = []) || bool_decide (";"%char ∈ part) then None
    else match QueryUnescape k, QueryUnescape v with Some k, Some v => Some (k, v) | _, _ => None end)
  (split_on "&"%char (RawQuery u)).

(** [strings.TrimSuffix(s, ".")] *)
Definition trim_dot (s : bytes) : bytes := if HasSuffix s (str ".") then take (length s - 1) s else s.

Definition isLoopbackHTTPURL (u : URL) : bool :=
  if bool_decide (User u ≠ None) || negb (equal_fold_ascii (Scheme u) (str "http")) then false
  else
    let ip := ParseIP (Hostname u) in
    negb (bool_decide (ip = [])) && IsLoopback ip && negb (bool_decide (Port u = [])).

Definition isAllowedCaptchaTarget (target : URL) : bool :=
  if negb (equal_fold_ascii (Scheme target) (str "https")) || bool_decide (User target ≠ None) then false
  else if negb (bool_decide (Port target = [])) && negb (bool_decide (Port target = str "443")) then false
  else
    let hostname := ToLower (trim_dot (Hostname target)) in
    if bool_decide (hostname = []) || negb (bool_decide (ParseIP hostname = [])) then false
    else existsb (λ suffix, bool_decide (hostname = suffix) || HasSuffix hostname (str "." ++ suffix)) allowedCaptchaDomainSuffixes.

Definition targetOrigin (u : URL) : bytes := Scheme u ++ str "://" ++ Host u.

Definition effectiveHTTPSPort (u : URL) : bytes :=
  if negb (bool_decide (Port u = [])) then Port u
  else if equal_fold_ascii (Scheme u) (str "https") then str "443" else [].

Definition allowedGenericProxyMethod (method : bytes) (sameOrigin : bool) : bool :=
  if bool_decide (method ∈ [str "GET"; str "HEAD"]) then true
  else if bool_decide (method = str "POST") then sameOrigin else false.

Definition isSafeLocalRedirectPath (raw : bytes) : bool :=
  match raw with
  | c :: rest =>
      bool_decide (c = "/"%char) &&
      match rest with d :: _ => negb (bool_decide (d ∈ [chr 47; chr 92])) | [] => true end
  | [] => false
  end.

(** ** The local address *)

Record captchaEndpoint := MkEndpoint { ep_host : bytes; ep_origin : bytes; ep_prefix : bytes; ep_baseURL : bytes }.

(** [newCaptchaEndpoint]: the listener's address and the random bytes; the second
    component tells whether a listener is open. *)
Definition newCaptchaEndpoint (listen : result bytes) (nonce : result bytes) : result captchaEndpoint * bool :=
  match listen with
  | Err err => (Err (errorf_w (str "listen for local captcha: ") err), false)
  | Ok host =>
      match nonce with
      | Err err => (Err (errorf_w (str "generate local captcha nonce: ") err), false)
      | Ok raw =>
          let origin := str "http://" ++ host in
          let prefix := str "/" ++ EncodeToString raw in
          (Ok (MkEndpoint host origin prefix (origin ++ prefix)), true)
      end
  end.

Definition urlForPath (path : bytes) (ep : captchaEndpoint) : bytes :=
  let path := if bool_decide (path = []) then str "/" else path in
  let path := if bool_decide (head path = Some "/"%char) then path else str "/" ++ path in
  ep_baseURL ep ++ path.

Definition local_url (target : URL) (ep : captchaEndpoint) : URL :=
  let targetPath := if bool_decide (Path target = []) then str "/" else Path target in
  MkURL (str "http") None (ep_host ep) (ep_prefix ep ++ targetPath) (RawQuery target) [].

Definition localCaptchaURLForTarget (target : URL) (ep : captchaEndpoint) : bytes := url_string (local_url target ep).

(** ** Headers *)

Abbreviation Header := (gmap bytes (list bytes)).

Definition header_Get (k : bytes) (h : Header) : bytes := default [] (h !! k ≫= head).
Definition header_Set (k v : bytes) (h : Header) : Header := <[k := [v]]> h.
Definition header_Add (k v : bytes) (h : Header) : Header := <[k := default [] (h !! k) ++ [v]]> h.
Definition header_Del (k : bytes) (h : Header) : Header := delete k h.
Definition del_all (ks : list bytes) (h : Header) : Header := foldl (λ h k, header_Del k h) h ks.

(** A request: [Form] is what [FormValue] finds in its query and its body, which may
    be read up to [maxCaptchaRequestBytes]. *)
Record Request := MkRequest {
  Method : bytes; req_URL : URL; req_Host : bytes; req_Header : Header; req_Body : bytes; RemoteAddr : bytes; Form : Values }.

#[export] Instance Request_eta : Eta Request := λ r,
  MkRequest (Method r) (req_URL r) (req_Host r) (req_Header r) (req_Body r) (RemoteAddr r) (Form r).

(** A response; [body_err]: how reading the body ends. *)
Record Response := MkResponse { StatusCode : Z; res_Header : Header; res_Body : bytes; res_err : option goerror }.

#[export] Instance Response_eta : Eta Response := λ r, MkResponse (StatusCode r) (res_Header r) (res_Body r) (res_err r).

Definition http_Error (text : bytes) (status : Z) : Response :=
  MkResponse status (header_Set (str "Content-Type") (str "text/plain; charset=utf-8")
    (header_Set (str "X-Content-Type-Options") (str "nosniff") ∅)) (text ++ [chr 10]) None.

(** [html.EscapeString] *)
Definition escape_html (c : ascii) : bytes :=
  if bool_decide (c = "&"%char) then str "&amp;" else if bool_decide (c = chr 39) then str "&#39;"
  else if bool_decide (c = "<"%char) then str "&lt;" else if bool_decide (c = ">"%char) then str "&gt;"
  else if bool_decide (c = chr 34) then str "&#34;" else [c].
Definition EscapeString (s : bytes) : bytes := s ≫= escape_html.

(** Cookies, as far as the proxy looks at them. *)
Inductive SameSite := SameSiteDefaultMode | SameSiteLaxMode | SameSiteStrictMode | SameSiteNoneMode.
#[export] Instance SameSite_eq_dec : EqDecision SameSite.
Proof. solve_decision. Defined.

Record Cookie := MkCookie { cookie_rest : bytes; Domain : bytes; Secure : bool; Partitioned : bool; cookie_SameSite : SameSite }.

(** ** The channel for the key *)

(** A channel of capacity one. *)
Definition notifyKey (key : bytes) (keyCh : option bytes) : option bytes :=
  if bool_decide (key = []) then keyCh else match keyCh with None => Some key | Some k => Some k end.

(** [waitForCaptchaResult]: [None] while neither case of the select is ready;
    [prefer_key] is the choice when both are.  The channel is never closed. *)
Definition waitForCaptchaResult (keyCh : option bytes) (ctx_err : option goerror) (prefer_key : bool) : option (result bytes) :=
  match keyCh, ctx_err with
  | Some key, Some err => Some (if prefer_key then Ok key else Err err)
  | Some key, None => Some (Ok key)
  | None, Some err => Some (Err err)
  | None, None => None
  end.

(** ** What is logged *)

Definition sensitive : list bytes :=
  [str "access_token"; str "answer"; str "client_secret"; str "credential"; str "hash"; str "password"; str "session_token";
   str "success_token"; str "token"].

Definition redact_part (p : bytes) : bytes :=
  let '(key, _, found) := Cut p "="%char in
  let decodedKey := default key (QueryUnescape key) in
  if bool_decide (ToLower decodedKey ∈ sensitive) && found then key ++ str "=***" else p.

Definition redactSessionToken (body : bytes) : bytes := Join (redact_part <$> split_on "&"%char body) (str "&").

Definition maxLen : nat := Z.to_nat 6000.

(** [dumpCaptchaRequest] and the logging transport: what is printed of a body. *)
Definition dump (isDebug : bool) (body : bytes) : option bytes :=
  if negb isDebug then None
  else
    let dump := redactSessionToken body in
    Some (if (maxLen <? length dump)%nat then take maxLen dump ++ str "...(truncated)" else dump).

(** [dumpCaptchaResponse]: the fields that are printed. *)
Definition safe_keys : list bytes := [str "status"; str "error_code"; str "error_text"; str "show_captcha_type"; str "type"].

Definition dumpCaptchaResponse (isDebug : bool) (resp : object) : option object :=
  if negb isDebug then None
  else Some (omap (λ key, match field key resp with Some v => Some (key, v) | None => None end) safe_keys).

(** ** Where the proxy may go

    What an allowed address looks like as text, and who a local client is. *)

Definition vk_name (name : bytes) : Prop :=
  ∃ d, d ∈ str <$> ["vk.com"; "vk.ru"; "vk-cdn.net"; "userapi.com"; "okcdn.ru"; "mycdn.me"] ∧
    (ToLower name = d ∨ ∃ sub, ToLower name = sub ++ str "." ++ d).

Definition vk_host (h : bytes) : Prop :=
  ∃ l name dot r port, h = l ++ name ++ dot ++ r ++ port ∧ vk_name name ∧
    (l, r) ∈ [([], []); (str "[", str "]")] ∧ dot ∈ [[]; str "."] ∧ port ∈ [[]; str ":"; str ":443"].

Definition vk_url (u : URL) : Prop := lower_ascii <$> Scheme u = str "https" ∧ vk_host (Host u).

Definition loopback_client (r : Request) : Prop :=
  ∃ host port, SplitHostPort (RemoteAddr r) = Ok (host, port) ∧
    ((∃ rest, To4 (ParseIP host) = Some (127 :: rest)) ∨ ParseIP host = IPv6loopback).

Lemma HasSuffix_spec t suffix : HasSuffix t suffix = true ↔ suffix `suffix_of` t.
Proof.
  unfold HasSuffix. rewrite has_prefix_spec. split.
  - intros [k Hk]. exists (reverse k). apply (f_equal reverse) in Hk. by rewrite reverse_app, !reverse_involutive in Hk.
  - intros [k ->]. rewrite reverse_app. by exists (reverse k).
Qed.

Lemma split_host_text h : ∃ l r port, h = l ++ (split_host h).1 ++ r ++ port ∧
  (l, r) ∈ [([], []); (str "[", str "]")] ∧ (port = [] ∧ (split_host h).2 = [] ∨ port = str ":" ++ (split_host h).2).
Proof.
  unfold split_host. set (hp := match last_colon h with Some _ => _ | None => _ end).
  assert (∃ port, h = hp.1 ++ port ∧ (port = [] ∧ hp.2 = [] ∨ port = str ":" ++ hp.2)) as (port & Eh & Hport).
  { subst hp. destruct (last_colon h) as [i|]; [|exists []; rewrite app_nil_r; by split; [|left]].
    destruct (validOptionalPort (drop i h)) eqn:Ev; [|exists []; rewrite app_nil_r; by split; [|left]]. cbn [fst snd].
    exists (drop i h). rewrite take_drop. split; [done|]. rewrite <-(Nat.add_1_r i), <-drop_drop.
    destruct (drop i h) as [|c ds]; [by left|]. right. cbn in Ev. apply andb_true_iff in Ev as [->%bool_decide_eq_true _].
    done. }
  destruct hp as [host p]. cbn [fst snd] in *. destruct (_ && _) eqn:Eb; cbn [fst snd].
  - apply andb_true_iff in Eb as [[k1 E1]%has_prefix_spec [k2 E2]%HasSuffix_spec]. exists (str "["), (str "]"), port.
    split_and!; [|set_solver|done]. rewrite E1 in E2. destruct k2 as [|c k2]; [by destruct k1|]. injection E2 as <- ->.
    assert (take (length host - 2) (drop 1 host) = k2) as ->; [|by rewrite Eh, E1; cbn; rewrite <-!app_assoc].
    replace (length host - 2)%nat with (length k2) by (rewrite E1; cbn; rewrite length_app; cbn; lia).
    rewrite E1. apply take_app_length.
  - exists [], [], port. split_and!; [done|set_solver|done].
Qed.

Lemma allowed_is_vk u : isAllowedCaptchaTarget u = true → vk_url u.
Proof.
  unfold isAllowedCaptchaTarget. destruct (equal_fold_ascii _ _) eqn:Es; [|done]. case_bool_decide; [done|]. cbn [negb orb].
  destruct (_ && _) eqn:Ep; [done|]. destruct (_ || _); [done|]. intros (d & Hd & Hn)%existsb_exists.
  split; [by apply bool_decide_eq_true in Es|]. destruct (split_host_text (Host u)) as (l & r & port & E & Hlr & Hport).
  unfold Hostname, Port in *. rewrite E.
  assert (port ∈ [[]; str ":"; str ":443"]) as Hp.
  { destruct Hport as [[-> _]| ->]; [set_solver|].
    destruct (bool_decide_reflect ((split_host (Host u)).2 = [])) as [->|]; [set_solver|].
    destruct (bool_decide_reflect ((split_host (Host u)).2 = str "443")) as [->|]; [set_solver|done]. }
  set (name := (split_host (Host u)).1) in *. clearbody name.
  assert (∃ dot, name = trim_dot name ++ dot ∧ dot ∈ [[]; str "."]) as (dot & En & Hdot).
  { unfold trim_dot. destruct (HasSuffix name (str ".")) eqn:Et; [|exists []; rewrite app_nil_r; split; [done|set_solver]].
    apply HasSuffix_spec in Et as [k ->]. exists (str "."). split; [|set_solver].
    rewrite length_app. cbn [length str]. rewrite Nat.add_sub, take_app_length. done. }
  exists l, (trim_dot name), dot, r, port. split_and!; [by rewrite En at 1; rewrite <-!app_assoc| |done|done|done].
  exists d. split; [by apply list_elem_of_In|]. apply orb_true_iff in Hn as [Hn%bool_decide_eq_true|[k Hk]%HasSuffix_spec].
  - by left.
  - right. exists k. by rewrite Hk.
Qed.

(** ** Rewriting *)

Section proxy.
Context (Parse : bytes → result URL) (EqualFold : bytes → bytes → bool).
Context (Cookies : Header → list Cookie) (cookie_String : Cookie → bytes) (gunzip : Response → result Response).
(** [res.Body.Close()] *)
Context (close_body : Response → option goerror).
(** [json.Unmarshal] of an answer's success token, empty when there is none. *)
Context (success_token : bytes → result bytes).
(** The texts of the script for two origins and of the page for an image, and the
    request [httputil.ReverseProxy] gives to [Rewrite]. *)
Context (script image_template : bytes → bytes → bytes) (prepare : Request → Request) (RoundTrip : Request → result Response).
Context (ep : captchaEndpoint).

Definition localCaptchaEntryURLForTarget (target : URL) : bytes :=
  match Parse (localCaptchaURLForTarget target ep) with
  | Err _ => urlForPath (str "/") ep
  | Ok localURL => url_string (localURL <| RawQuery := localCaptchaEntryQuery |>)
  end.

Definition sameCaptchaOrigin (a b : URL) : bool :=
  EqualFold (Scheme a) (Scheme b) && EqualFold (Hostname a) (Hostname b) &&
  bool_decide (effectiveHTTPSPort a = effectiveHTTPSPort b).

Definition rewriteProxyRedirectLocation (raw : bytes) (target : URL) : option bytes :=
  if isSafeLocalRedirectPath raw then Some (urlForPath raw ep)
  else match Parse raw with
       | Err _ => None
       | Ok parsed =>
           if negb (EqualFold (Scheme parsed) (Scheme target)) || negb (EqualFold (Host parsed) (Host target)) then None
           else Some (localCaptchaURLForTarget parsed ep)
       end.

Definition rewriteProxyHeaderURL (raw : bytes) (target : URL) : bytes :=
  if bool_decide (raw = []) then raw
  else match Parse raw with
       | Err _ => raw
       | Ok parsed =>
           if negb (bool_decide (Scheme parsed = str "http")) || negb (EqualFold (Host parsed) (ep_host ep)) then raw
           else
             let path := VkAuth.TrimPrefix (Path parsed) (ep_prefix ep) in
             url_string (parsed <| Scheme := Scheme target |> <| Host := Host target |>
                           <| Path := if bool_decide (path = []) then str "/" else path |>)
       end.

Definition rewrite_header (target : URL) (h : Header) (name : bytes) : Header :=
  let rewritten := rewriteProxyHeaderURL (header_Get name h) target in
  if bool_decide (rewritten = []) then header_Del name h else header_Set name rewritten h.

Definition rewriteProxyRequest (target : URL) (req : Request) : Request :=
  let url := (req_URL req) <| Scheme := Scheme target |> <| Host := Host target |> in
  let url := if bool_decide (Path url = []) then url <| Path := Path target |> else url in
  let h := header_Del (str "Te") (header_Del (str "Accept-Encoding") (req_Header req)) in
  let h := foldl (rewrite_header target) h [str "Origin"; str "Referer"] in
  req <| req_URL := url |> <| req_Host := Host target |> <| req_Header := h |>.

Definition credential_headers : list bytes :=
  [str "Authorization"; str "Cookie"; str "Origin"; str "Proxy-Authorization"; str "Referer"].

Definition rewriteGenericProxyRequest (target primary : URL) (req : Request) : Request :=
  let path := if bool_decide (Path target = []) then str "/" else Path target in
  let req := req <| req_URL := (req_URL req) <| Path := path |> <| RawQuery := RawQuery target |> |> in
  let req := rewriteProxyRequest target req in
  if sameCaptchaOrigin target primary then req
  else req <| req_Header := del_all credential_headers (req_Header req) |>.

Definition extractSuccessToken (body : bytes) : bytes :=
  match success_token body with Ok token => token | Err _ => [] end.

Definition local_cookie (c : Cookie) : Cookie :=
  MkCookie (cookie_rest c) [] false false
    (if bool_decide (cookie_SameSite c = SameSiteNoneMode) then SameSiteLaxMode else cookie_SameSite c).

Definition rewriteProxyCookies (h : Header) : Header :=
  match Cookies h with
  | [] => h
  | cookies => foldl (λ h c, header_Add (str "Set-Cookie") (cookie_String (local_cookie c)) h) (header_Del (str "Set-Cookie") h) cookies
  end.

(** [strings.ReplaceAll], and [strings.Replace] of the first occurrence, of a
    text that is not empty. *)
Definition ReplaceAll (s old new : bytes) : bytes := Join (ClientMain.Split s old) new.

Fixpoint replace_first (s old new : bytes) : bytes :=
  if has_prefix old s then new ++ drop (length old) s
  else match s with [] => [] | c :: s' => c :: replace_first s' old new end.

Definition rewriteCaptchaHTML (page : bytes) (target : URL) : bytes :=
  let localOrigin := ep_baseURL ep in
  let upstreamOrigin := targetOrigin target in
  let page := ReplaceAll page upstreamOrigin localOrigin in
  let text := script localOrigin upstreamOrigin in
  if Contains page (str "</head>") then replace_first page (str "</head>") (text ++ str "</head>")
  else if Contains page (str "</body>") then replace_first page (str "</body>") (text ++ str "</body>")
  else page ++ text.

Definition stripped_headers : list bytes :=
  [str "Content-Security-Policy"; str "Content-Security-Policy-Report-Only"; str "X-Content-Security-Policy"; str "X-Webkit-Csp";
   str "Cross-Origin-Opener-Policy"; str "Cross-Origin-Embedder-Policy"; str "Cross-Origin-Resource-Policy"; str "X-Frame-Options";
   str "Strict-Transport-Security"; str "Alt-Svc"].

(** The location of a redirect. *)
Definition rewrite_location (target : URL) (res : Response) : Response :=
  if (300 <=? StatusCode res) && (StatusCode res <? 400) then
    let loc := header_Get (str "Location") (res_Header res) in
    if bool_decide (loc = []) then res
    else res <| res_Header := match rewriteProxyRedirectLocation loc target with
                              | Some rewritten => header_Set (str "Location") rewritten (res_Header res)
                              | None => header_Del (str "Location") (res_Header res)
                              end |>
  else res.

(** The body, when it is complete and within the limit. *)
Definition read_body (limit : Z) (res : Response) : result bytes :=
  readResponseBodyLimited (GoWeb.MkResponse (StatusCode res) (res_Body res) (res_err res)) limit (str "captcha proxy response").

Definition check_path : bytes := str "captchaNotRobot.check".

(** [ModifyResponse] of the proxy for the page, for the request [out]: the key
    offered and the response. *)
Definition modifyResponse (target : URL) (out : Request) (res : Response) : bytes * result Response :=
  let res := res <| res_Header := rewriteProxyCookies (res_Header res) |> in
  let res := rewrite_location target res in
  let contentType := header_Get (str "Content-Type") (res_Header res) in
  let is_html := Contains contentType (str "text/html") in
  let is_check := Contains (Path (req_URL out)) check_path in
  if negb (is_html || Contains contentType (str "application/xhtml+xml") || is_check) then ([], Ok res)
  else
    let decoded := if bool_decide (header_Get (str "Content-Encoding") (res_Header res) = str "gzip")
                   then map_err (errorf_w (str "decode gzip captcha response: ")) (gunzip res) else Ok res in
    match (let? reader := decoded in
           let? bodyBytes := read_body maxCaptchaResponseBytes reader in
           match close_body res with Some err => Err err | None => Ok bodyBytes end) with
    | Err err => ([], Err err)
    | Ok bodyBytes =>
        let key := if is_check then extractSuccessToken bodyBytes else [] in
        let '(body, h) :=
          if is_html then
            (rewriteCaptchaHTML bodyBytes target, header_Del (str "Content-Encoding") (del_all stripped_headers (res_Header res)))
          else (bodyBytes, res_Header res) in
        (key, Ok (MkResponse (StatusCode res) (header_Set (str "Content-Length") (Itoa (Z.of_nat (length body))) h) body None))
    end.

(** ** Handlers *)

(** What serving a request does: the requests sent upstream, the key offered to
    the waiting client and the reply. *)
Record served := MkServed { sent : list Request; offered : bytes; reply : Response }.

Definition local (res : Response) : served := MkServed [] [] res.

(** A body over the limit of [http.MaxBytesReader] cannot be forwarded. *)
Definition round_trip (out : Request) : result Response :=
  if Z.of_nat (length (req_Body out)) >? maxCaptchaRequestBytes then Err (errorf (str "http: request body too large")) else RoundTrip out.

(** [ReverseProxy.ServeHTTP] *)
Definition ServeHTTP (rewrite : Request → Request) (modify : Request → Response → bytes * result Response)
    (errorHandler : Request → Response) (r : Request) : served :=
  let out := rewrite (prepare r) in
  match round_trip out with
  | Err _ => MkServed [out] [] (errorHandler r)
  | Ok res =>
      match modify out res with
      | (key, Ok res) => MkServed [out] key res
      | (key, Err _) => MkServed [out] key (errorHandler r)
      end
  end.

Definition html_type : Header := header_Set (str "Content-Type") (str "text/html; charset=utf-8") ∅.

Definition proxy_error_page (r : Request) : Response :=
  MkResponse 502 html_type
    (str "<!DOCTYPE html><html><body style=" ++ quote (str "font-family:sans-serif;padding:20px") ++
     str "><h2>Captcha proxy error</h2><p>" ++ EscapeString (Method r) ++ str " " ++ EscapeString (Path (req_URL r)) ++
     str "</p><p>upstream request failed</p></body></html>") None.

(** A key sent by the page: [name] is its form field. *)
Definition key_handler (name ok_body : bytes) (ok_header : Header) (r : Request) : served :=
  if negb (bool_decide (Method r = str "POST")) then local (http_Error (str "POST required") 405)
  else
    let origin := header_Get (str "Origin") (req_Header r) in
    if negb (bool_decide (origin = [])) && negb (bool_decide (origin = ep_origin ep)) then local (http_Error (str "invalid origin") 403)
    else MkServed [] (VkAuth.values_Get name (Form r)) (MkResponse 200 ok_header ok_body None).

Definition generic_modify (sameOrigin : bool) (_ : Request) (res : Response) : bytes * result Response :=
  ([], Ok (if sameOrigin then res else res <| res_Header ::= header_Del (str "Set-Cookie") |>)).

Definition generic_handler (target : URL) (r : Request) : served :=
  match Parse (VkAuth.values_Get (str "proxy_url") (Query (req_URL r))) with
  | Ok targetParsed =>
      if isAllowedCaptchaTarget targetParsed then
        let sameOrigin := sameCaptchaOrigin targetParsed target in
        if negb (allowedGenericProxyMethod (Method r) sameOrigin) then
          local (http_Error (str "method not allowed for generic captcha proxy") 405)
        else ServeHTTP (rewriteGenericProxyRequest targetParsed target) (generic_modify sameOrigin) (λ _, MkResponse 502 ∅ [] None) r
      else local (http_Error (str "URL is not an allowed VK HTTPS origin") 400)
  | Err _ => local (http_Error (str "URL is not an allowed VK HTTPS origin") 400)
  end.

Definition redirect (status : Z) (location : bytes) : Response := MkResponse status (header_Set (str "Location") location ∅) [] None.

Definition page_handler (target : URL) (r : Request) : served :=
  let r := if bool_decide (RawQuery (req_URL r) = localCaptchaEntryQuery)
           then r <| req_URL := (req_URL r) <| RawQuery := RawQuery target |> |> else r in
  if bool_decide (Path (req_URL r) = str "/") && negb (bool_decide (Path target ∈ [[]; str "/"])) && bool_decide (RawQuery (req_URL r) = [])
  then local (redirect 307 (localCaptchaEntryURLForTarget target))
  else ServeHTTP (rewriteProxyRequest target) (modifyResponse target) proxy_error_page r.

Definition moved (path : bytes) (r : Request) : served :=
  local (redirect 301 (escape_path path ++ (if bool_decide (RawQuery (req_URL r) = []) then [] else str "?" ++ RawQuery (req_URL r)))).

(** [http.ServeMux]: a path that is not clean is redirected. *)
Definition mux (route : bytes → option (Request → served)) (r : Request) : served :=
  let path := if bool_decide (Method r = str "CONNECT") then Path (req_URL r) else Diagnostics.cleanPath (Path (req_URL r)) in
  if negb (bool_decide (path = Path (req_URL r))) then moved path r
  else match route path with
       | Some h => h r
       | None => local (http_Error (str "404 page not found") 404)
       end.

(** The handlers of the proxy. *)
Definition proxy_routes (target : URL) (path : bytes) : option (Request → served) :=
  Some (if bool_decide (path = str "/local-captcha-result") then key_handler (str "token") (str "ok") ∅
        else if bool_decide (path = str "/generic_proxy") then generic_handler target
        else page_handler target).

(** The handlers of the page with an image. *)
Definition image_page (captchaImg : bytes) : bytes := image_template (EscapeString captchaImg) (quote (urlForPath (str "/solve") ep)).

Definition image_routes (captchaImg path : bytes) : option (Request → served) :=
  Some (if bool_decide (path = str "/solve") then key_handler (str "key") (str "<!DOCTYPE html><html><body><h2>Done!</h2></body></html>") html_type
        else λ _, local (MkResponse 200 html_type (image_page captchaImg) None)).

(** The root mux with [http.StripPrefix]. *)
Definition root_routes (next : Request → served) (path : bytes) : option (Request → served) :=
  if has_prefix (ep_prefix ep ++ str "/") path then
    Some (λ r, next (r <| req_URL := (req_URL r) <| Path := drop (length (ep_prefix ep)) (Path (req_URL r)) |> |>))
  else if bool_decide (path = ep_prefix ep) then Some (moved (path ++ str "/"))
  else None.

(** The headers set first: a local reply replaces them, a forwarded one is added
    to them. *)
Definition add_secure (k v : bytes) (s : served) (h : Header) : Header :=
  <[k := v :: (if bool_decide (sent s = []) then [] else default [] (h !! k))]> h.

Definition secure_reply (s : served) : Response :=
  (reply s) <| res_Header ::= add_secure (str "X-Content-Type-Options") (str "nosniff") s |>
          <| res_Header ::= add_secure (str "Referrer-Policy") (str "no-referrer") s |>.

Definition from_loopback (r : Request) : bool :=
  match SplitHostPort (RemoteAddr r) with
  | Ok (host, _) => IsLoopback (ParseIP host) && EqualFold (req_Host r) (ep_host ep)
  | Err _ => false
  end.

Definition secureCaptchaHandler (next : Request → served) (r : Request) : served :=
  if negb (from_loopback r) then local (http_Error (str "loopback access required") 403)
  else
    let s := next r in MkServed (sent s) (offered s) (secure_reply s).

Definition serve (routes : bytes → option (Request → served)) (r : Request) : served :=
  secureCaptchaHandler (mux (root_routes (mux routes))) r.

(** ** Running the server *)

Record browserCommand := MkCommand { name : bytes; args : list bytes }.

Definition browserOpenCommands (goos url : bytes) : list browserCommand :=
  if bool_decide (goos = str "windows") then [MkCommand (str "rundll32.exe") [str "url.dll,FileProtocolHandler"; url]]
  else if bool_decide (goos = str "darwin") then [MkCommand (str "open") [url]]
  else if bool_decide (goos = str "linux") then [MkCommand (str "xdg-open") [url]; MkCommand (str "gio") [str "open"; url]]
  else if bool_decide (goos = str "android") then
    [MkCommand (str "termux-open-url") [url];
     MkCommand (str "/system/bin/am") [str "start"; str "-a"; str "android.intent.action.VIEW"; str "-d"; url];
     MkCommand (str "am") [str "start"; str "-a"; str "android.intent.action.VIEW"; str "-d"; url]; MkCommand (str "xdg-open") [url]]
  else if bool_decide (goos = str "ios") then [MkCommand (str "open") [url]; MkCommand (str "uiopen") [url]]
  else [].

Fixpoint start_first (starts : browserCommand → bool) (cmds : list browserCommand) : list browserCommand :=
  match cmds with
  | [] => []
  | cmd :: cmds => cmd :: (if starts cmd then [] else start_first starts cmds)
  end.

(** The commands that are tried. *)
Definition openBrowser (goos : bytes) (starts : browserCommand → bool) (url : bytes) : list browserCommand :=
  match Parse url with
  | Ok parsed => if isLoopbackHTTPURL parsed then start_first starts (browserOpenCommands goos url) else []
  | Err _ => []
  end.

(** What surrounds a run: the context before and at the end, the requests served
    until then, the choice of the select and how the shutdown ends. *)
Record run_env := MkRun {
  ctx_before : option goerror; requests : list Request; ctx_after : option goerror; prefer_key : bool;
  shutdown_err : option goerror; goos : bytes; starts : browserCommand → bool }.

Inductive server_event :=
  | CloseListener | Serve | Printed (text : bytes) | Started (cmds : list browserCommand) | Shutdown | CloseServer.

Definition key_after (routes : bytes → option (Request → served)) (rs : list Request) : option bytes :=
  foldl (λ ch r, notifyKey (offered (serve routes r)) ch) None rs.

(** [Shutdown] closes the listener before it waits for connections. *)
Definition runCaptchaServerAndWait (env : run_env) (routes : bytes → option (Request → served)) (captchaURL : bytes)
  : option (bytes * option goerror * list server_event) :=
  match ctx_before env with
  | Some err => Some ([], Some err, [CloseListener])
  | None =>
      let before := [Serve; Printed (str "Open this URL in your browser: " ++ captchaURL); Started (openBrowser (goos env) (starts env) captchaURL); Shutdown] in
      match waitForCaptchaResult (key_after routes (requests env)) (ctx_after env) (prefer_key env) with
      | None => None
      | Some r =>
          let '(key, err) := match r with Ok key => (key, None) | Err err => ([], Some err) end in
          match shutdown_err env with
          | None => Some (key, err, before)
          | Some e => Some (key, Some (default e err), before ++ [CloseServer])
          end
      end
  end.

(** ** Facts *)

Lemma ServeHTTP_sent rewrite modify eh r : sent (ServeHTTP rewrite modify eh r) = [rewrite (prepare r)].
Proof. unfold ServeHTTP. repeat case_match; done. Qed.

Lemma rewriteProxyRequest_target target req : let out := rewriteProxyRequest target req in
  Scheme (req_URL out) = Scheme target ∧ Host (req_URL out) = Host target ∧ req_Host out = Host target ∧ Method out = Method req.
Proof. unfold rewriteProxyRequest. cbn. by case_bool_decide. Qed.

Lemma del_all_lookup ks h k : k ∈ ks → del_all ks h !! k = None.
Proof.
  unfold del_all. revert h. induction ks as [|k' ks IH]; intros h; [by intros ?%not_elem_of_nil|]. cbn.
  rewrite elem_of_cons. destruct (decide (k ∈ ks)) as [Hk|Hk]; [by intros _; apply IH|]. intros [->|?]; [|done].
  clear IH. assert (∀ h : Header, h !! k' = None → foldl (λ h k, header_Del k h) h ks !! k' = None) as Hl.
  { clear. induction ks as [|k ks IH]; intros h Hh; [done|]. cbn. apply IH. unfold header_Del. by rewrite lookup_delete_None, Hh; right. }
  apply Hl. apply lookup_delete_eq.
Qed.

Lemma from_loopback_client r : from_loopback r = true → loopback_client r ∧ EqualFold (req_Host r) (ep_host ep) = true.
Proof.
  unfold from_loopback. destruct (SplitHostPort (RemoteAddr r)) as [[host port]|] eqn:Es; [|done].
  intros [Hl He]%andb_true_iff. split; [|done]. exists host, port. split; [done|]. unfold IsLoopback in Hl.
  destruct (To4 (ParseIP host)) as [[|a rest]|]; [by apply bool_decide_eq_true in Hl| |right; by apply bool_decide_eq_true in Hl].
  apply bool_decide_eq_true in Hl as [= ->]. left. by exists rest.
Qed.

(** Where a request went that left the machine: over HTTPS to a host of VK, and
    to another host than the captcha's only as a read without credentials. *)
Definition confined (target : URL) (res : Response) (out : Request) : Prop :=
  vk_url (req_URL out) ∧ req_Host out = Host (req_URL out) ∧
  (Host (req_URL out) = Host target ∨ EqualFold (Hostname (req_URL out)) (Hostname target) = true ∨
   (Method out ∈ [str "GET"; str "HEAD"] ∧
    Forall (λ k, req_Header out !! k = None) (str <$> ["Authorization"; "Cookie"; "Origin"; "Proxy-Authorization"; "Referer"]) ∧
    res_Header res !! str "Set-Cookie" = None)).

Lemma confined_to t out : isAllowedCaptchaTarget t = true → Scheme (req_URL out) = Scheme t → Host (req_URL out) = Host t →
  req_Host out = Host t → vk_url (req_URL out) ∧ req_Host out = Host (req_URL out).
Proof. intros [Hs Hh]%allowed_is_vk E1 E2 E3. unfold vk_url. by rewrite E1, E2, E3. Qed.

Lemma page_confined target r : isAllowedCaptchaTarget target = true → let s := page_handler target r in
  (length (sent s) ≤ 1)%nat ∧ Forall (confined target (reply s)) (sent s).
Proof.
  intros Ht. unfold page_handler. case_match; [by repeat constructor|]. rewrite ServeHTTP_sent. split; [done|].
  constructor; [|constructor].
  match goal with |- context [rewriteProxyRequest target ?q] => destruct (rewriteProxyRequest_target target q) as (E1 & E2 & E3 & _) end.
  destruct (confined_to target _ Ht E1 E2 E3) as [? ?]. split_and!; [done|done|by left].
Qed.

Lemma generic_reply_cookies rewrite r eh : (∀ r, res_Header (eh r) !! str "Set-Cookie" = None) →
  res_Header (reply (ServeHTTP rewrite (generic_modify false) eh r)) !! str "Set-Cookie" = None.
Proof.
  intros He. unfold ServeHTTP. destruct (round_trip _) as [res|e]; cbn; [|apply He]. apply lookup_delete_eq.
Qed.

Lemma generic_confined target r : (∀ r, Method (prepare r) = Method r) → let s := generic_handler target r in
  (length (sent s) ≤ 1)%nat ∧ Forall (confined target (reply s)) (sent s).
Proof.
  intros prepare_method. unfold generic_handler. destruct (Parse _) as [t|e]; [|by repeat constructor].
  destruct (isAllowedCaptchaTarget t) eqn:Et; [|by repeat constructor].
  destruct (allowedGenericProxyMethod _ _) eqn:Em; cbn [negb]; [|by repeat constructor].
  rewrite ServeHTTP_sent. split; [done|]. constructor; [|constructor].
  match goal with |- confined _ _ ?o => set (out := o) end.
  assert (Scheme (req_URL out) = Scheme t ∧ Host (req_URL out) = Host t ∧ req_Host out = Host t ∧ Method out = Method r) as (E1 & E2 & E3 & E4).
  { subst out. unfold rewriteGenericProxyRequest.
    match goal with |- context [rewriteProxyRequest t ?q] => destruct (rewriteProxyRequest_target t q) as (F1 & F2 & F3 & F4) end.
    rewrite <-(prepare_method r). by destruct (sameCaptchaOrigin t target). }
  destruct (confined_to t out Et E1 E2 E3) as [Hv Hh]. split_and!; [done|done|]. right.
  destruct (sameCaptchaOrigin t target) eqn:Es.
  - left. unfold sameCaptchaOrigin in Es. unfold Hostname in *. rewrite E2.
    apply andb_true_iff in Es as [[_ Es]%andb_true_iff _]. done.
  - right. split_and!.
    + rewrite E4. unfold allowedGenericProxyMethod in Em. case_bool_decide; [done|]. case_bool_decide; done.
    + subst out. unfold rewriteGenericProxyRequest. rewrite Es. apply Forall_forall. intros k Hk. by apply del_all_lookup.
    + apply generic_reply_cookies. intros r'. apply lookup_empty.
Qed.

Lemma mux_cases routes r : (∃ res, mux routes r = local res) ∨ (∃ h, routes (Path (req_URL r)) = Some h ∧ mux routes r = h r).
Proof.
  unfold mux. case_bool_decide as Ep; cbn [negb]; [|left; by eexists]. rewrite Ep.
  destruct (routes _) as [h|]; [right; by eexists|left; by eexists].
Qed.

(** A request that reaches the handlers under the secret prefix, and what it
    became. *)
Lemma serve_inner routes r (P : served → Prop) : (∀ res, P (local res)) →
  (∀ inner h, from_loopback r = true → (ep_prefix ep ++ str "/") `prefix_of` Path (req_URL r) →
     Method inner = Method r → req_Header inner = req_Header r → Form inner = Form r →
     Path (req_URL r) = ep_prefix ep ++ Path (req_URL inner) →
     routes (Path (req_URL inner)) = Some h → P (MkServed (sent (h inner)) (offered (h inner)) (secure_reply (h inner)))) →
  P (serve routes r).
Proof.
  intros Hlocal Hin. unfold serve, secureCaptchaHandler. destruct (from_loopback r) eqn:El; [|apply Hlocal]. cbn [negb].
  destruct (mux_cases (root_routes (mux routes)) r) as [[res ->]|(h & Hr & ->)]; [apply Hlocal|]. unfold root_routes in Hr.
  destruct (has_prefix (ep_prefix ep ++ str "/") (Path (req_URL r))) eqn:Epre.
  2: { case_bool_decide; [injection Hr as <-; apply Hlocal|done]. }
  injection Hr as <-. apply has_prefix_spec in Epre. match goal with |- context [mux routes ?i] => set (inner := i) end.
  destruct (mux_cases routes inner) as [[res ->]|(h & Hr & ->)]; [apply Hlocal|].
  apply Hin; [done|done|done|done|done| |done]. destruct Epre as [k Ek]. subst inner. cbn [req_URL Path].
  by rewrite Ek, <-app_assoc, drop_app_length.
Qed.

(** C7: The local proxy is no open relay: for every request it serves, at most one
    request leaves the machine, only for a client whose address is a loopback one
    (127.0.0.0/8 or ::1), that names the local host and knows the secret prefix;
    it goes over HTTPS, on the default port, to one of the six VK domains or a
    subdomain of one, and if that is another host than the captcha page's, it is a
    read without credentials, cookies, origin or referrer, and no cookie of the
    answer reaches the browser.  The reverse proxy of the standard library keeps
    a request's method. *)
Theorem proxy_confined target r : (∀ r, Method (prepare r) = Method r) → isAllowedCaptchaTarget target = true → let s := serve (proxy_routes target) r in
  (length (sent s) ≤ 1)%nat ∧
  Forall (λ out, loopback_client r ∧ EqualFold (req_Host r) (ep_host ep) = true ∧
    (ep_prefix ep ++ str "/") `prefix_of` Path (req_URL r) ∧ confined target (reply s) out) (sent s).
Proof.
  intros prepare_method Ht. cbn zeta. apply serve_inner; [by repeat constructor|].
  intros inner h [Hl He]%from_loopback_client Hp Hm Hh Hf _ [= <-]. cbn [sent reply].
  assert (∀ s : served, (length (sent s) ≤ 1)%nat ∧ Forall (confined target (reply s)) (sent s) →
    (length (sent s) ≤ 1)%nat ∧ Forall (λ out, loopback_client r ∧ EqualFold (req_Host r) (ep_host ep) = true ∧
      (ep_prefix ep ++ str "/") `prefix_of` Path (req_URL r) ∧ confined target (secure_reply s) out) (sent s)) as Hs.
  { intros s [Hn Hc]. split; [done|]. eapply Forall_impl; [exact Hc|]. intros out (Hc1 & Hc2 & Hc3). split_and!; [done..|].
    split_and!; [done|done|]. destruct Hc3 as [?|[?|(? & ? & Hck)]]; [by left|by right; left|].
    do 2 right. split_and!; [done|done|]. cbn. unfold add_secure. by rewrite !lookup_insert_ne. }
  apply Hs. case_bool_decide; [|case_bool_decide].
  - unfold key_handler. repeat case_match; by repeat constructor.
  - by apply generic_confined.
  - by apply page_confined.
Qed.

(** *** Redirects *)

Lemma escape_path_app p q : escape_path (p ++ q) = escape_path p ++ escape_path q.
Proof. unfold escape_path. apply bind_app. Qed.

Lemma escape_path_hex raw : escape_path (EncodeToString raw) = EncodeToString raw.
Proof.
  unfold EncodeToString. induction raw as [|b raw IH]; [done|]. rewrite bind_cons, escape_path_app, IH. f_equal.
  destruct (code_nibbles b) as (Hh & Hl & _). unfold encode_byte, escape_path. rewrite !bind_cons. cbn [mbind list_bind].
  by rewrite !hex_digit_unreserved.
Qed.

(** The standard library: a parsed URL with a host has an absolute path or none,
    and only the empty text folds to the empty text. *)
Definition parse_ok : Prop :=
  (∀ raw u, Parse raw = Ok u → Host u ≠ [] → Path u = [] ∨ has_prefix (str "/") (Path u) = true) ∧
  (∀ s, EqualFold [] s = true → s = []).

Lemma rewrite_location_local listen nonce target res loc :
  parse_ok → (newCaptchaEndpoint listen nonce).1 = Ok ep → isAllowedCaptchaTarget target = true → 300 ≤ StatusCode res < 400 →
  header_Get (str "Location") (res_Header (rewrite_location target res)) = loc → loc ≠ [] →
  (ep_baseURL ep ++ str "/") `prefix_of` loc.
Proof.
  intros [Hpath Hfold] Hep Ht Hst Hloc Hne. unfold rewrite_location in Hloc.
  replace ((300 <=? StatusCode res) && (StatusCode res <? 400)) with true in Hloc by lia.
  case_bool_decide as El; [congruence|]. cbn [res_Header] in Hloc.
  assert (∃ host raw, ep = MkEndpoint host (str "http://" ++ host) (str "/" ++ EncodeToString raw) ((str "http://" ++ host) ++ (str "/" ++ EncodeToString raw)))
    as (host & raw & Eep).
  { unfold newCaptchaEndpoint in Hep. destruct listen as [host|], nonce as [raw|]; try done. injection Hep as <-. by eexists _, _. }
  destruct (rewriteProxyRedirectLocation _ target) as [l|] eqn:Er.
  2: { exfalso. apply Hne. rewrite <-Hloc. unfold header_Get, header_Del. cbn. by rewrite lookup_delete_eq. }
  assert (l = loc) as ->.
  { rewrite <-Hloc. unfold header_Get, header_Set. cbn. by rewrite lookup_insert_eq. }
  clear Hloc. unfold rewriteProxyRedirectLocation in Er. destruct (isSafeLocalRedirectPath _) eqn:Es.
  - injection Er as <-. unfold urlForPath. destruct (header_Get _ _) as [|c p]; [done|]. rewrite (bool_decide_false (c :: p = [])) by done.
    unfold isSafeLocalRedirectPath in Es. apply andb_true_iff in Es as [->%bool_decide_eq_true _]. rewrite bool_decide_true by done.
    by apply prefix_app, prefix_cons, prefix_nil.
  - destruct (Parse _) as [u|] eqn:Eu; [|done]. case_match eqn:Em; [done|]. injection Er as <-.
    apply orb_false_iff in Em as [_ Em%negb_false_iff].
    assert (Host u ≠ []) as Hu.
    { intros E0. rewrite E0 in Em. apply Hfold in Em. unfold isAllowedCaptchaTarget, Hostname, Port in Ht. rewrite Em in Ht. cbn in Ht.
      by repeat case_match. }
    rewrite Eep. unfold localCaptchaURLForTarget, local_url, url_string. cbn [Scheme User Host Path RawQuery Fragment ep_prefix ep_host ep_baseURL].
    rewrite !escape_path_app, escape_path_hex.
    assert (has_prefix (str "/") (escape_path (if bool_decide (Path u = []) then str "/" else Path u)) = true) as Hp.
    { case_bool_decide; [done|]. destruct (Hpath _ _ Eu Hu) as [?|Hp]; [done|]. apply has_prefix_spec in Hp as [p ->].
      rewrite escape_path_app. by apply has_prefix_spec, prefix_app_r. }
    apply has_prefix_spec in Hp as [k ->]. cbn [has_prefix]. rewrite orb_true_r. change (escape_path (str "/")) with (str "/").
    change (@app ascii [] ?x) with x. rewrite (bool_decide_true (@nil ascii = [])), app_nil_r by done.
    exists (k ++ (if bool_decide (RawQuery u = []) then [] else str "?" ++ RawQuery u)).
    by rewrite <-!app_assoc.
Qed.

Lemma modifyResponse_location target out res k res' : modifyResponse target out res = (k, Ok res') →
  ∃ res1, StatusCode res1 = StatusCode res' ∧
    header_Get (str "Location") (res_Header res') = header_Get (str "Location") (res_Header (rewrite_location target res1)).
Proof.
  unfold modifyResponse. cbv zeta. set (res1 := res <| res_Header := _ |>).
  assert (StatusCode (rewrite_location target res1) = StatusCode res1) as Est by (unfold rewrite_location; repeat case_match; done).
  case_match; [intros [= <- <-]; by exists res1|]. destruct (result_bind _ _) as [body|]; [|done].
  destruct (Contains _ (str "text/html")); intros [= <- <-]; exists res1; (split; [done|]); cbn [res_Header];
    unfold header_Get, header_Set, header_Del; rewrite lookup_insert_ne by done; by rewrite ?lookup_delete_ne by done.
Qed.

(** C24: The page's redirects stay local: whatever the upstream answers, the
    location of a redirect that the page proxy passes to the browser lies under the
    local address and its secret prefix; any other location is removed.  The
    second handler that forwards, [/generic_proxy], is not covered: it passes on the
    location the upstream gave. *)
Theorem redirect_stays_local listen nonce target r loc : let s := serve (proxy_routes target) r in
  parse_ok → (newCaptchaEndpoint listen nonce).1 = Ok ep → isAllowedCaptchaTarget target = true →
  sent s ≠ [] → 300 ≤ StatusCode (reply s) < 400 → header_Get (str "Location") (res_Header (reply s)) = loc → loc ≠ [] →
  if bool_decide (Path (req_URL r) = ep_prefix ep ++ str "/generic_proxy")
  then ∃ out res, sent s = [out] ∧ round_trip out = Ok res ∧ loc = header_Get (str "Location") (res_Header res)
  else (ep_baseURL ep ++ str "/") `prefix_of` loc.
Proof.
  intros s Hparse Hep Ht Hsent Hst Hloc Hne. revert Hsent Hst Hloc. subst s.
  assert (∀ s, header_Get (str "Location") (res_Header (secure_reply s)) = header_Get (str "Location") (res_Header (reply s))) as Hsec
    by (intros s; unfold header_Get, secure_reply, add_secure; cbn; by rewrite !lookup_insert_ne).
  pattern (serve (proxy_routes target) r). apply serve_inner; [intros res Hs; by destruct Hs|].
  intros inner h Hl Hp Hm Hh Hf Hpath [= <-]. cbn [sent reply]. rewrite Hsec, Hpath.
  case_bool_decide as E1; [|case_bool_decide as E2].
  - intros Hs. exfalso. apply Hs. unfold key_handler. by repeat case_match.
  - rewrite bool_decide_true by by rewrite E2.
    unfold generic_handler. destruct (Parse _) as [t|]; [|done]. destruct (isAllowedCaptchaTarget t); [|done]. destruct (negb _); [done|].
    unfold ServeHTTP. destruct (round_trip _) as [res|] eqn:Er; cbn; [|lia]. intros _ _ <-. eexists _, res. split_and!; [done|done|].
    destruct (sameCaptchaOrigin t target); [done|]. unfold header_Get, header_Del. cbn. by rewrite lookup_delete_ne.
  - rewrite bool_decide_false by by intros ?%app_inv_head.
    unfold page_handler. case_match; [done|]. unfold ServeHTTP. destruct (round_trip _) as [res|]; [|cbn; lia].
    destruct (modifyResponse _ _ _) as [k [res'|]] eqn:Em; cbn [reply sent]; [|cbn; lia].
    apply modifyResponse_location in Em as (res1 & Es & El). rewrite El. cbn. rewrite <-Es. intros _ Hst Hloc.
    by eapply rewrite_location_local.
Qed.

(** *** The key *)

Lemma key_after_spec routes rs key : key_after routes rs = Some key →
  ∃ before r after, rs = before ++ r :: after ∧ offered (serve routes r) = key ∧ key ≠ [] ∧
    Forall (λ q, offered (serve routes q) = []) before.
Proof.
  unfold key_after. revert key. induction rs as [|r rs IH] using rev_ind; intros key; [done|]. rewrite foldl_app. cbn [foldl].
  set (ch := foldl _ None rs) in *. unfold notifyKey. case_bool_decide as E.
  - intros H. destruct (IH _ H) as (b & q & a & -> & ? & ? & ?). exists b, q, (a ++ [r]). by rewrite <-app_assoc.
  - destruct ch as [k|] eqn:Ech.
    + intros [= <-]. destruct (IH _ eq_refl) as (b & q & a & -> & ? & ? & ?). exists b, q, (a ++ [r]). by rewrite <-app_assoc.
    + intros [= <-]. exists rs, r, []. split_and!; [done|done|done|]. clear IH E. subst ch.
      induction rs as [|q rs IH] using rev_ind; [constructor|]. rewrite foldl_app in Ech. cbn [foldl] in Ech. unfold notifyKey at 1 in Ech.
      apply Forall_app. case_bool_decide as E; [|by case_match]. split; [by apply IH|by repeat constructor].
Qed.

(** The content of an answer, as sent or unpacked. *)
Definition body_of (res : Response) (body : bytes) : Prop :=
  body = res_Body res ∨ ∃ packed plain, res_Body packed = res_Body res ∧ gunzip packed = Ok plain ∧ body = res_Body plain.

(** A key comes from the form of the page or from an answer to a check. *)
Definition key_source (target : URL) (r : Request) (key : bytes) : Prop :=
  (Path (req_URL r) = ep_prefix ep ++ str "/local-captcha-result" ∧ Method r = str "POST" ∧
   header_Get (str "Origin") (req_Header r) ∈ [[]; ep_origin ep] ∧ VkAuth.values_Get (str "token") (Form r) = key) ∨
  (∃ out res body, sent (serve (proxy_routes target) r) = [out] ∧ Contains (Path (req_URL out)) check_path = true ∧
     round_trip out = Ok res ∧ body_of res body ∧ success_token body = Ok key ∧ Z.of_nat (length body) ≤ maxCaptchaResponseBytes).

Lemma modifyResponse_key target out res key : (modifyResponse target out res).1 = key → key ≠ [] →
  Contains (Path (req_URL out)) check_path = true ∧ ∃ body, body_of res body ∧ success_token body = Ok key ∧ Z.of_nat (length body) ≤ maxCaptchaResponseBytes.
Proof.
  unfold modifyResponse. cbv zeta.
  assert (∀ r', res_Body (rewrite_location target r') = res_Body r') as Hloc by (intros r'; unfold rewrite_location; repeat case_match; done).
  set (res1 := rewrite_location target _). assert (res_Body res1 = res_Body res) as Hres1 by (subst res1; by rewrite Hloc). clearbody res1. clear Hloc.
  case_match; [by intros <-|]. destruct (result_bind _ _) as [body|e] eqn:Eb; [|by intros <-].
  apply result_bind_ok in Eb as (reader & Er & Eb). apply result_bind_ok in Eb as (body' & Eb & Ecl).
  destruct (close_body _); [done|]. injection Ecl as ->. apply read_limited_ok in Eb as (-> & Hlen & _); [|unfold maxCaptchaResponseBytes; lia].
  cbn [Body] in *. assert (body_of res (res_Body reader)) as Hof.
  { case_bool_decide; [apply map_err_ok in Er; right; by eauto|injection Er as <-; by left]. }
  destruct (Contains (Path (req_URL out)) check_path) eqn:Ec.
  - destruct (Contains _ (str "text/html")); cbn; unfold extractSuccessToken; destruct (success_token (res_Body reader)) as [t|] eqn:Et;
      intros <- Hne; try done; by eauto.
  - destruct (Contains _ (str "text/html")); by intros <-.
Qed.

Lemma generic_offers target r : offered (generic_handler target r) = [].
Proof.
  unfold generic_handler. destruct (Parse _) as [t|]; [|done]. destruct (isAllowedCaptchaTarget t); [|done].
  destruct (negb _); [done|]. unfold ServeHTTP. by destruct (round_trip _).
Qed.

Lemma offered_source target r key : offered (serve (proxy_routes target) r) = key → key ≠ [] → from_loopback r = true ∧ key_source target r key.
Proof.
  intros Hk Hne. unfold key_source. revert Hk.
  pattern (serve (proxy_routes target) r). apply serve_inner; [by intros res <-|].
  intros inner h Hl Hp Hm Hh Hf Hpath [= <-] Hk. cbn [sent offered] in *. split; [done|]. case_bool_decide as E1; [|case_bool_decide].
  - left. unfold key_handler in Hk. case_bool_decide as Em; [|by subst]. cbn [negb] in Hk.
    destruct (bool_decide_reflect (header_Get (str "Origin") (req_Header inner) = [])) as [Eo|Eo];
      [|destruct (bool_decide_reflect (header_Get (str "Origin") (req_Header inner) = ep_origin ep)) as [Eo2|]]; cbn in Hk; try (by subst).
    all: split_and!; [by rewrite Hpath, E1|by rewrite <-Hm|rewrite <-Hh, ?Eo, ?Eo2; set_solver|by rewrite <-Hf].
  - by rewrite generic_offers in Hk.
  - right. unfold page_handler in *. case_match; [by subst|]. rewrite ServeHTTP_sent. unfold ServeHTTP in Hk.
    eexists. destruct (round_trip _) as [res|e] eqn:Ert; [|by subst]. exists res.
    destruct (modifyResponse target _ res) as [k rr] eqn:Emod.
    assert (k = key) as -> by (by destruct rr). pose proof (f_equal fst Emod) as Ek. cbn [fst] in Ek.
    apply modifyResponse_key in Ek as (Hc & body & Hof & Hb & Hlen); [|done]. exists body. by split_and!.
Qed.
End proxy.

(** ** The two ways *)

Section solve.
Context (Parse : bytes → result URL) (EqualFold : bytes → bytes → bool).
Context (Cookies : Header → list Cookie) (cookie_String : Cookie → bytes) (gunzip : Response → result Response).
(** [res.Body.Close()] *)
Context (close_body : Response → option goerror).
Context (success_token : bytes → result bytes) (script image_template : bytes → bytes → bytes).
Context (prepare : Request → Request) (RoundTrip : Request → result Response).
Context (listen nonce : result bytes) (env : run_env).

(** Callers look at the key only when there is no error. *)
Definition solveCaptchaViaHTTP (captchaImg : bytes) : option (bytes * option goerror * list server_event) :=
  match (newCaptchaEndpoint listen nonce).1 with
  | Err err => Some ([], Some err, [])
  | Ok ep =>
      runCaptchaServerAndWait Parse EqualFold ep env (image_routes image_template ep captchaImg) (urlForPath (str "/") ep)
  end.

Definition solveCaptchaViaProxy (redirectURI : bytes) : option (bytes * option goerror * list server_event) :=
  match Parse redirectURI with
  | Err err => Some ([], Some (errorf (str "invalid redirect URI: " ++ err_text err)), [])
  | Ok target =>
      if negb (isAllowedCaptchaTarget target) then
        Some ([], Some (errorf (str "captcha redirect target is not an allowed VK HTTPS origin")), [])
      else match (newCaptchaEndpoint listen nonce).1 with
           | Err err => Some ([], Some err, [])
           | Ok ep =>
               runCaptchaServerAndWait Parse EqualFold ep env
                 (proxy_routes Parse EqualFold Cookies cookie_String gunzip close_body success_token script prepare RoundTrip ep target)
                 (localCaptchaEntryURLForTarget Parse ep target)
           end
  end.

(** C21: A token solved by hand is genuine: when the proxy returns one without an
    error, the captcha's address was allowed, the token is not empty, and it came
    from a request of a loopback client under the secret prefix: either the page's
    own POST, not sent by another origin, or the success token in the complete
    answer of the server to a check that went through the proxy.  It is the first
    one offered. *)
Theorem manual_key_genuine redirectURI key evs : solveCaptchaViaProxy redirectURI = Some (key, None, evs) →
  ∃ target ep before r after, Parse redirectURI = Ok target ∧ isAllowedCaptchaTarget target = true ∧
    (newCaptchaEndpoint listen nonce).1 = Ok ep ∧ requests env = before ++ r :: after ∧ key ≠ [] ∧ loopback_client r ∧
    key_source Parse EqualFold Cookies cookie_String gunzip close_body success_token script prepare RoundTrip ep target r key ∧
    Forall (λ q, offered (serve EqualFold ep
      (proxy_routes Parse EqualFold Cookies cookie_String gunzip close_body success_token script prepare RoundTrip ep target) q) = []) before.
Proof.
  unfold solveCaptchaViaProxy. destruct (Parse redirectURI) as [target|] eqn:Ep; [|done].
  destruct (isAllowedCaptchaTarget target) eqn:Et; [|done]. cbn [negb]. destruct ((newCaptchaEndpoint listen nonce).1) as [ep|] eqn:Ee; [|done].
  unfold runCaptchaServerAndWait. destruct (ctx_before env); [done|].
  destruct (waitForCaptchaResult _ _ _) as [w|] eqn:Ew; [|done].
  destruct w as [k|e]; [|by destruct (shutdown_err env)]. destruct (shutdown_err env); [done|]. intros [= -> _].
  assert (key_after EqualFold ep (proxy_routes Parse EqualFold Cookies cookie_String gunzip close_body success_token script prepare RoundTrip ep target)
    (requests env) = Some key) as Hkey.
  { unfold waitForCaptchaResult in Ew. destruct (key_after _ _ _ _) as [k|], (ctx_after env), (prefer_key env); congruence. }
  apply key_after_spec in Hkey as (before & r & after & Hr & Ho & Hne & Hb). apply offered_source in Ho as [[Hl _]%from_loopback_client Hs]; [|done].
  by exists target, ep, before, r, after.
Qed.

(** Whatever way a run ends, its listener is closed once. *)
Definition releases (ev : server_event) : bool := match ev with CloseListener | Shutdown => true | _ => false end.

Lemma listener_released ep routes url k e evs : runCaptchaServerAndWait Parse EqualFold ep env routes url = Some (k, e, evs) →
  length (filter (λ ev, releases ev = true) evs) = 1%nat.
Proof. unfold runCaptchaServerAndWait. repeat case_match; intros [= <- <- <-]; reflexivity. Qed.

(** A solved captcha is reported as an error when the server cannot be shut down
    in time, for instance because a request of the page is still being served. *)
Lemma solved_captcha_lost ep routes url key e : ctx_before env = None → key_after EqualFold ep routes (requests env) = Some key →
  ctx_after env = None → shutdown_err env = Some e →
  ∃ evs, runCaptchaServerAndWait Parse EqualFold ep env routes url = Some (key, Some e, evs).
Proof. intros H1 H2 H3 H4. unfold runCaptchaServerAndWait. rewrite H1, H2, H3, H4. cbn. by eexists. Qed.

(** The challenge stays out of the terminal, the browser's history and the
    command line: when the local address parses back to itself, everything that is
    printed and every command that is started carries only the local address with
    the captcha's path and a fixed marker, whatever the query with the session
    token is. *)
Theorem entry_url_public redirectURI target ep k e evs : Parse redirectURI = Ok target → (newCaptchaEndpoint listen nonce).1 = Ok ep →
  Parse (localCaptchaURLForTarget target ep) = Ok (local_url target ep) →
  solveCaptchaViaProxy redirectURI = Some (k, e, evs) →
  let entry := url_string (MkURL (str "http") None (ep_host ep) (ep_prefix ep ++ (if bool_decide (Path target = []) then str "/" else Path target)) localCaptchaEntryQuery []) in
  Forall (λ ev, match ev with
                | Printed text => text = str "Open this URL in your browser: " ++ entry
                | Started cmds => Forall (λ cmd, cmd ∈ browserOpenCommands (goos env) entry) cmds
                | _ => True
                end) evs.
Proof.
  intros Hp He Hloc. unfold solveCaptchaViaProxy. rewrite Hp, He. case_match; [by intros [= <- <- <-]|].
  unfold localCaptchaEntryURLForTarget. rewrite Hloc. unfold local_url. cbn [Scheme User Host Path RawQuery Fragment].
  set (entry := url_string _). unfold runCaptchaServerAndWait. destruct (ctx_before env); [intros [= <- <- <-]; by repeat constructor|].
  assert (Forall (λ cmd, cmd ∈ browserOpenCommands (goos env) entry) (openBrowser Parse (goos env) (starts env) entry)) as Hcmds.
  { unfold openBrowser. destruct (Parse entry); [|constructor]. case_match; [|constructor].
    generalize (browserOpenCommands (goos env) entry). intros l. apply Forall_forall. intros c.
    induction l as [|c' l IH]; [by intros ?%not_elem_of_nil|]. cbn. rewrite !elem_of_cons. intros [->|Hc]; [by left|]. right.
    apply IH. by destruct (starts env c'); [apply not_elem_of_nil in Hc|]. }
  repeat case_match; intros [= <- <- <-]; by repeat constructor.
Qed.
End solve.

(** *** Redaction *)

Lemma split_on_parts sep s : split_on sep s ≠ [] ∧ Forall (λ p, sep ∉ p) (split_on sep s).
Proof.
  induction s as [|c s [Hne IH]]; cbn; [split; [done|]; constructor; [apply not_elem_of_nil|constructor]|].
  destruct (Ascii.eqb_spec c sep) as [->|Hc]; [split; [done|]; constructor; [apply not_elem_of_nil|done]|].
  destruct (split_on sep s) as [|p ps]; [done|]. split; [done|]. apply Forall_cons in IH as [Hp Hps]. constructor; [|done].
  rewrite elem_of_cons. intros [->|?]; done.
Qed.

(** The pieces of a body after redaction. *)
Definition redacted (p : bytes) : Prop :=
  let '(key, value, found) := Cut p "="%char in
  found = true → ToLower (default key (QueryUnescape key)) ∈ sensitive → value = str "***".

Lemma redact_part_ok p : redacted (redact_part p).
Proof.
  unfold redact_part. destruct (Cut p "="%char) as [[key v] found] eqn:E. pose proof (Diagnostics.Cut_spec _ _ _ _ _ E) as [Hk _].
  unfold redacted. destruct (bool_decide _ && found) eqn:Eb.
  - change (key ++ str "=***") with (key ++ "="%char :: str "***"). by rewrite Diagnostics.Cut_app.
  - rewrite E. intros -> Hs. rewrite bool_decide_true in Eb by done. done.
Qed.

Lemma redact_part_no_amp p : "&"%char ∉ p → "&"%char ∉ redact_part p.
Proof.
  intros Hp. unfold redact_part. destruct (Cut p "="%char) as [[key v] found] eqn:E. case_match; [|done].
  destruct (Diagnostics.Cut_spec _ _ _ _ _ E) as [_ Hs]. apply andb_true_iff in H as [_ ->]. subst p.
  rewrite elem_of_app in *. intros [?|Hin]; [by apply Hp; left|]. revert Hin. by apply (bool_decide_unpack (¬ "&"%char ∈ str "=***")).
Qed.

(** C23: What is logged of a form keeps its shape and loses its secrets: the pieces
    are the pieces of the body in order, only a piece with a sensitive name is
    changed, and only in its value, and no piece whose decoded name is sensitive, in any case of letters, keeps its
    value. *)
Theorem redaction_complete body : let out := redactSessionToken body in
  split_on "&"%char out = redact_part <$> split_on "&"%char body ∧ Forall redacted (split_on "&"%char out) ∧
  Forall (λ p, let key := (Cut p "="%char).1.1 in redact_part p = p ∨ ToLower (default key (QueryUnescape key)) ∈ sensitive) (split_on "&"%char body) ∧
  Forall (λ p, (Cut (redact_part p) "="%char).1.1 = (Cut p "="%char).1.1) (split_on "&"%char body).
Proof.
  cbn zeta. unfold redactSessionToken. destruct (split_on_parts "&"%char body) as [Hne Hparts].
  assert (split_on "&"%char (Join (redact_part <$> split_on "&"%char body) (str "&")) = redact_part <$> split_on "&"%char body) as ->.
  { apply split_on_Join; [by destruct (split_on _ body)|]. apply Forall_fmap. eapply Forall_impl; [exact Hparts|].
    intros p Hp. by apply redact_part_no_amp. }
  split_and!; [done| | |].
  - apply Forall_fmap, Forall_true. intros p. apply redact_part_ok.
  - apply Forall_true. intros p. unfold redact_part. destruct (Cut p "="%char) as [[key v] found]. cbn [fst].
    case_bool_decide; cbn [andb]; [by right|by left].
  - apply Forall_true. intros p. unfold redact_part. destruct (Cut p "="%char) as [[key v] found] eqn:E. case_match; [|by rewrite E].
    destruct (Diagnostics.Cut_spec _ _ _ _ _ E) as [Hk _]. change (key ++ str "=***") with (key ++ "="%char :: str "***"). by rewrite Diagnostics.Cut_app.
Qed.

(** ** Witnesses *)

Definition sample_ep : captchaEndpoint := MkEndpoint (str "127.0.0.1:4000") (str "http://127.0.0.1:4000") (str "/01") (str "http://127.0.0.1:4000/01").
Definition sample_target : URL := MkURL (str "https") None (str "id.vk.com") (str "/captcha") (str "session_token=s") [].
Definition sample_parse (s : bytes) : result URL :=
  if bool_decide (s = str "u") then Ok sample_target
  else if bool_decide (s = localCaptchaURLForTarget sample_target sample_ep) then Ok (local_url sample_target sample_ep)
  else Err (errorf (str "parse")).
Definition sample_request (method path : bytes) (form : Values) : Request :=
  MkRequest method (MkURL [] None [] (str "/01" ++ path) [] []) (str "127.0.0.1:4000") ∅ [] (str "127.0.0.1:5000") form.
Definition sample_routes : bytes → option (Request → served) :=
  proxy_routes sample_parse equal_fold_ascii (λ _, []) (λ _, []) Ok (λ _, None) (λ _, Ok []) (λ _ _, []) (λ r, r) (λ _, Err (errorf [])) sample_ep sample_target.
Definition sample_env : run_env :=
  MkRun None [sample_request (str "POST") (str "/local-captcha-result") [(str "token", str "t")]] None true None (str "linux") (λ _, true).

(** A packed answer to a check is unpacked but still announced as packed: only
    pages lose the header. *)
Lemma gzip_label_kept :
  match modifyResponse sample_parse equal_fold_ascii (λ _, []) (λ _, []) (λ _, Ok (MkResponse 200 ∅ (str "plain") None)) (λ _, None) (λ _, Ok []) (λ _ _, [])
    sample_ep sample_target (sample_request (str "POST") check_path [])
    (MkResponse 200 {[str "Content-Encoding" := [str "gzip"]; str "Content-Type" := [str "application/json"]]} (str "packed") None) with
  | (_, Ok res) => res_Body res = str "plain" ∧ header_Get (str "Content-Encoding") (res_Header res) = str "gzip"
  | _ => False
  end.
Proof. vm_compute. by split. Qed.

Lemma proxy_confined_witness :
  let s := serve equal_fold_ascii sample_ep sample_routes (sample_request (str "GET") (str "/x") []) in
  length (sent s) = 1%nat ∧ Forall (λ out, vk_url (req_URL out)) (sent s).
Proof.
  split; [by vm_compute|].
  eapply Forall_impl; [apply (proxy_confined sample_parse equal_fold_ascii (λ _, []) (λ _, []) Ok (λ _, None) (λ _, Ok []) (λ _ _, []) (λ r, r)
    (λ _, Err (errorf [])) sample_ep sample_target); [done|by vm_compute]|].
  by intros out (_ & _ & _ & ? & _).
Defined.

(** An upstream that answers every request with a redirect to its own [/next]. *)
Definition redirecting_routes : bytes → option (Request → served) :=
  proxy_routes sample_parse equal_fold_ascii (λ _, []) (λ _, []) Ok (λ _, None) (λ _, Ok []) (λ _ _, []) (λ r, r)
    (λ _, Ok (MkResponse 302 {[str "Location" := [str "/next"]]} [] None)) sample_ep sample_target.

Lemma redirect_stays_local_witness :
  header_Get (str "Location") (res_Header (reply (serve equal_fold_ascii sample_ep redirecting_routes (sample_request (str "GET") (str "/x") [])))) =
    str "http://127.0.0.1:4000/01/next" ∧
  (ep_baseURL sample_ep ++ str "/") `prefix_of` str "http://127.0.0.1:4000/01/next".
Proof.
  split; [by vm_compute|].
  apply (redirect_stays_local sample_parse equal_fold_ascii (λ _, []) (λ _, []) Ok (λ _, None) (λ _, Ok []) (λ _ _, []) (λ r, r)
    (λ _, Ok (MkResponse 302 {[str "Location" := [str "/next"]]} [] None)) sample_ep (Ok (str "127.0.0.1:4000")) (Ok [chr 1]) sample_target
    (sample_request (str "GET") (str "/x") [])).
  - split.
    + intros raw u. unfold sample_parse. do 2 (case_bool_decide; [intros [= <-] _; right; by vm_compute|]). done.
    + intros s. unfold equal_fold_ascii. rewrite bool_decide_eq_true. by destruct s.
  - by vm_compute.
  - by vm_compute.
  - by vm_compute.
  - by vm_compute.
  - by vm_compute.
  - done.
Defined.

Lemma manual_key_genuine_witness : ∃ evs, solveCaptchaViaProxy sample_parse equal_fold_ascii (λ _, []) (λ _, []) Ok (λ _, None) (λ _, Ok []) (λ _ _, [])
    (λ r, r) (λ _, Err (errorf [])) (Ok (str "127.0.0.1:4000")) (Ok [chr 1]) sample_env (str "u") = Some (str "t", None, evs) ∧ str "t" ≠ [].
Proof.
  eassert (solveCaptchaViaProxy sample_parse equal_fold_ascii (λ _, []) (λ _, []) Ok (λ _, None) (λ _, Ok []) (λ _ _, [])
    (λ r, r) (λ _, Err (errorf [])) (Ok (str "127.0.0.1:4000")) (Ok [chr 1]) sample_env (str "u") = Some (str "t", None, _)) as E
    by (vm_compute; reflexivity).
  eexists. split; [exact E|]. apply manual_key_genuine in E as (? & ? & ? & ? & ? & _ & _ & _ & _ & Hne & _). exact Hne.
Defined.

Lemma entry_url_public_witness : ∃ k e evs, solveCaptchaViaProxy sample_parse equal_fold_ascii (λ _, []) (λ _, []) Ok (λ _, None) (λ _, Ok []) (λ _ _, [])
    (λ r, r) (λ _, Err (errorf [])) (Ok (str "127.0.0.1:4000")) (Ok [chr 1]) sample_env (str "u") = Some (k, e, evs) ∧
  Forall (λ ev, match ev with Printed text => text = str "Open this URL in your browser: http://127.0.0.1:4000/01/captcha?_vkturn_entry=1" | _ => True end) evs.
Proof.
  eassert (solveCaptchaViaProxy sample_parse equal_fold_ascii (λ _, []) (λ _, []) Ok (λ _, None) (λ _, Ok []) (λ _ _, [])
    (λ r, r) (λ _, Err (errorf [])) (Ok (str "127.0.0.1:4000")) (Ok [chr 1]) sample_env (str "u") = Some (_, _, _)) as E
    by (vm_compute; reflexivity).
  eexists _, _, _. split; [exact E|].
  assert (sample_parse (localCaptchaURLForTarget sample_target sample_ep) = Ok (local_url sample_target sample_ep)) as Hl by (vm_compute; reflexivity).
  pose proof (entry_url_public sample_parse _ _ _ _ _ _ _ _ _ (Ok (str "127.0.0.1:4000")) (Ok [chr 1]) _ (str "u") sample_target sample_ep _ _ _ eq_refl eq_refl Hl E) as H.
  eapply Forall_impl; [exact H|]. intros [] Hev; try exact I. rewrite Hev. vm_compute. reflexivity.
Defined.
End CaptchaProxy.
