(* ===== verification/BondMode.v ===== *)
(** * Bonded VLESS mode (client/vless_bond_supervisor.go: runSupervisedVLESSBondMode)

    The supervisor keeps a generation in the slot, the accept loop hands every
    local connection to the generation it finds there, and a goroutine per
    connection pipes it over a stream.  The three interleave freely.  What the
    supervisor meets in each of its rounds is fixed at the start and arbitrary. *)

From S2P Require Import Prelude GoStrings Tuning BondHello Metrics Supervisor SuperviseLoop ClientPool.

Module BondMode.
Import Supervisor SuperviseLoop.

(** The goroutine of an accepted connection; [K_rejected]: closed by the accept
    loop. *)
Inductive conn_pc := K_rejected | K_open | K_pipe | K_close_stream | K_close | K_done.

Record connection := MkConn {
  kpc : conn_pc;
  kgen : option gen;       (* the generation found in the slot *)
  conn_closes : nat;       (* calls of tc.Close *)
  streams_opened : nat;
  stream_closes : nat;
}.

#[export] Instance connection_eta : Eta connection := λ c,
  MkConn (kpc c) (kgen c) (conn_closes c) (streams_opened c) (stream_closes c).

(** [slot.wait], the accept loop, [connectionWG.Wait] and [supervisorWG.Wait]. *)
Inductive main_pc := B_wait (w : waiter) | B_accept | B_wait_conns | B_join | B_returned.

Record bond_mode := MkBondMode {
  bm_ctx_done : bool;
  todo : list sup_action;             (* what the supervisor is still going to do *)
  sh : shared;
  gens : gmap gen generation;
  conns : list connection;
  listening : bool;
  bmain : main_pc;
}.

#[export] Instance bond_mode_eta : Eta bond_mode := λ m,
  MkBondMode (bm_ctx_done m) (todo m) (sh m) (gens m) (conns m) (listening m) (bmain m).

Definition startBondMode (rs : list sup_round) (gs : gmap gen generation) : bond_mode :=
  MkBondMode false (superviseVLESSBond rs) shared_init gs [] true (B_wait Reading).

(** After [slot.wait] moved. *)
Definition after_wait (w : waiter) : main_pc :=
  match w with Got _ => B_accept | Cancelled => B_join | w => B_wait w end.

(** A connection is accepted; [closed] is [generation.session.IsClosed()]. *)
Definition accept (closed : bool) (m : bond_mode) : bond_mode :=
  let c := match get (sh_slot (sh m)) with
           | Some g => if closed then MkConn K_rejected (Some g) 1 0 0 else MkConn K_open (Some g) 0 0 0
           | None => MkConn K_rejected None 1 0 0
           end in
  m <| conns ::= (λ l, l ++ [c]) |>.

Definition set_conn (i : nat) (c : connection) (m : bond_mode) : bond_mode := m <| conns ::= <[i := c]> |>.

(** [OpenStream] failed: the generation fails, then the deferred close runs. *)
Definition open_failed (i : nat) (e : goerror) (c : connection) (m : bond_mode) : bond_mode :=
  set_conn i (c <| kpc := K_close |>)
    (match kgen c with
     | Some g => m <| gens ::= alter (fail (Some (errorf_w (str "smux open stream: ") e))) g |>
     | None => m
     end).

Definition opened (c : connection) : connection := c <| kpc := K_pipe |> <| streams_opened ::= S |>.
Definition close_stream (c : connection) : connection := c <| kpc := K_close |> <| stream_closes ::= S |>.
Definition close_conn (c : connection) : connection := c <| kpc := K_done |> <| conn_closes ::= S |>.

Definition ended (c : connection) : Prop := kpc c = K_done ∨ kpc c = K_rejected.

Inductive step (m : bond_mode) : bond_mode → Prop :=
  | step_cancel : step m (m <| bm_ctx_done := true |>)
  | step_listener : bm_ctx_done m = true → step m (m <| listening := false |>)
  | step_supervise a rest : todo m = a :: rest → step m (m <| todo := rest |> <| sh ::= act a |>)
  (* the function itself *)
  | step_wait w w' : bmain m = B_wait w → wait_step (bm_ctx_done m) (sh_slot (sh m)) w = Some w' →
      step m (m <| bmain := after_wait w' |>)
  | step_accept closed : bmain m = B_accept → listening m = true → step m (accept closed m)
  | step_accept_stop : bmain m = B_accept → bm_ctx_done m = true → step m (m <| bmain := B_wait_conns |>)
  | step_conns_done : bmain m = B_wait_conns → Forall ended (conns m) → step m (m <| bmain := B_join |>)
  | step_return : bmain m = B_join → todo m = [] → step m (m <| bmain := B_returned |> <| listening := false |>)
  (* a connection *)
  | step_open_failed i c e : conns m !! i = Some c → kpc c = K_open → step m (open_failed i e c m)
  | step_opened i c : conns m !! i = Some c → kpc c = K_open → step m (set_conn i (opened c) m)
  | step_piped i c : conns m !! i = Some c → kpc c = K_pipe → step m (set_conn i (c <| kpc := K_close_stream |>) m)
  | step_close_stream i c : conns m !! i = Some c → kpc c = K_close_stream → step m (set_conn i (close_stream c) m)
  | step_close i c : conns m !! i = Some c → kpc c = K_close → step m (set_conn i (close_conn c) m).

(** ** Invariant *)

Definition conn_ok (gs : list gen) (c : connection) : Prop :=
  match kgen c with Some g => g ∈ gs | None => kpc c = K_rejected end ∧
  match kpc c with
  | K_rejected => conn_closes c = 1%nat ∧ streams_opened c = 0%nat ∧ stream_closes c = 0%nat
  | K_open => conn_closes c = 0%nat ∧ streams_opened c = 0%nat ∧ stream_closes c = 0%nat
  | K_pipe | K_close_stream => conn_closes c = 0%nat ∧ streams_opened c = 1%nat ∧ stream_closes c = 0%nat
  | K_close => conn_closes c = 0%nat ∧ (streams_opened c ≤ 1)%nat ∧ stream_closes c = streams_opened c
  | K_done => conn_closes c = 1%nat ∧ (streams_opened c ≤ 1)%nat ∧ stream_closes c = streams_opened c
  end.

Record bond_inv (rs : list sup_round) (m : bond_mode) : Prop := {
  inv_run : ∃ acts, acts ++ todo m = superviseVLESSBond rs ∧ sh m = replay acts shared_init;
  inv_conns : Forall (conn_ok (published (superviseVLESSBond rs))) (conns m);
  inv_wait : match bmain m with B_wait _ => conns m = [] | B_join | B_returned => Forall ended (conns m) | _ => True end;
  inv_returned : bmain m = B_returned → todo m = [] ∧ listening m = false;
}.

(** The slot holds what was published. *)
Lemma slot_published acts g : current (sh_slot (replay acts shared_init)) = Some g → g ∈ published acts.
Proof.
  induction acts as [|a acts IH] using rev_ind; [done|]. rewrite replay_app, published_app. cbn.
  set (s := replay acts shared_init) in *. rewrite elem_of_app. destruct a; cbn; try (by intros ?; left; apply IH).
  - intros [= ->]. right. by left.
  - unfold clear. case_bool_decide; cbn; [done|]. intros ?. left. by apply IH.
Qed.

(** A connection moves: the accept loop is running or waits for it. *)
Lemma conn_moves rs m i c c' (gs : gmap gen generation) : bond_inv rs m → conns m !! i = Some c → ¬ ended c → kgen c' = kgen c →
  (conn_ok (published (superviseVLESSBond rs)) c → conn_ok (published (superviseVLESSBond rs)) c') →
  bond_inv rs (set_conn i c' (m <| gens := gs |>)).
Proof.
  intros [Hrun Hconns Hwait Hret] Hc He Hk Hok. rewrite Forall_forall in Hconns.
  assert (c ∈ conns m) as Hin by (by eapply list_elem_of_lookup_2). split; cbn.
  - done.
  - apply Forall_insert; [by apply Forall_forall|]. by apply Hok, Hconns.
  - destruct (bmain m); try done; [by rewrite Hwait in Hc|exfalso; apply He; by eapply Forall_forall..].
  - done.
Qed.

(** A connection at the place [Hk] does its next step. *)
Ltac conn_step Hk :=
  eapply conn_moves; [eassumption|eassumption|by unfold ended; rewrite Hk; intros [|]|done|];
  let Hg := fresh in let Hp := fresh in
  intros [Hg Hp]; rewrite Hk in Hp; split; cbn; [|lia];
  match goal with |- context [kgen ?c] => destruct (kgen c); [done|]; by rewrite Hk in Hg end.

Lemma bond_inv_step rs m m' : step m m' → bond_inv rs m → bond_inv rs m'.
Proof.
  intros Hs Hi. pose proof Hi as [Hrun Hconns Hwait Hret].
  assert (m = m <| gens := gens m |>) as Em by (by destruct m).
  destruct Hs as [| |a rest Ht|w w' Hm Hw|closed Hm Hl|Hm Hd|Hm He|Hm Ht|i c e Hc Hk|i c Hc Hk|i c Hc Hk|i c Hc Hk|i c Hc Hk].
  - by split.
  - split; cbn; try done. intros ?. by split; [apply Hret|].
  - split; cbn; try done.
    + destruct Hrun as (acts & Ha & ->). exists (acts ++ [a]). rewrite <-app_assoc. cbn. rewrite <-Ht. split; [done|].
      by rewrite replay_app.
    + intros Hr. destruct (Hret Hr) as [E _]. by rewrite Ht in E.
  - rewrite Hm in Hwait. split; cbn; try done.
    + rewrite Hwait. unfold after_wait. by destruct w'; cbn.
    + by destruct w'.
  - rewrite Hm in Hwait. unfold accept. split; cbn; try done; [|by rewrite Hm].
    apply Forall_app. split; [done|]. constructor; [|constructor]. unfold get.
    destruct Hrun as (acts & Ha & Es). destruct (current (sh_slot (sh m))) as [g|] eqn:Eg; [|by repeat constructor].
    rewrite Es in Eg. apply slot_published in Eg. assert (g ∈ published (superviseVLESSBond rs)) by (rewrite <-Ha, published_app; apply elem_of_app; by left).
    by destruct closed.
  - split; cbn; done.
  - split; cbn; done.
  - rewrite Hm in Hwait. by split; cbn.
  - unfold open_failed. assert (∀ gs, bond_inv rs (set_conn i (c <| kpc := K_close |>) (m <| gens := gs |>))) as Hgs.
    { intros gs. conn_step Hk. }
    destruct (kgen c) as [g|]; [apply Hgs|]. rewrite Em at 1. apply Hgs.
  - rewrite Em. conn_step Hk.
  - rewrite Em. conn_step Hk.
  - rewrite Em. conn_step Hk.
  - rewrite Em. conn_step Hk.
Qed.

Lemma bond_inv_reachable rs gs m : rtc step (startBondMode rs gs) m → bond_inv rs m.
Proof.
  intros Hr. assert (bond_inv rs (startBondMode rs gs)) as H0 by (split; [by exists []|constructor|done|done]).
  revert H0. induction Hr as [|x y z Hxy _ IH]; [done|]. intros H0. apply IH. by eapply bond_inv_step.
Qed.

(** C5: Bonded mode, however the supervisor, the accept loop, the connections and
    cancellation interleave: every accepted connection belongs to a generation
    that was published or was rejected; its stream and the connection are closed
    at most once, the stream never before it was opened.  At every moment the slot
    holds no closed generation.  When the mode returns, the listener is closed,
    every connection and every stream is closed exactly once, the supervisor has
    ended with an empty slot and no active session, and exactly the generations it
    published are closed. *)
Theorem bond_mode_sound rs gs m : NoDup (made_gens rs) → rtc step (startBondMode rs gs) m →
  live_ok (sh m) ∧
  Forall (λ c, (conn_closes c ≤ 1)%nat ∧ (stream_closes c ≤ streams_opened c ≤ 1)%nat ∧
     match kgen c with Some g => g ∈ published (superviseVLESSBond rs) | None => kpc c = K_rejected end) (conns m) ∧
  (bmain m = B_returned → listening m = false ∧ at_rest (sh m) ∧ sh_closed (sh m) = published (superviseVLESSBond rs) ∧
     Forall (λ c, conn_closes c = 1%nat ∧ stream_closes c = streams_opened c) (conns m)).
Proof.
  intros Hnd Hr. destruct (bond_inv_reachable _ _ _ Hr) as [(acts & Ha & Es) Hconns Hwait Hret].
  assert (at_rest shared_init) as Hrest by done. destruct (supervise_ok 0 rs shared_init Hrest Hnd) as (Hr1 & Hc1 & _ & Halways).
  split_and!.
  - rewrite Es. eapply always_prefix; [exact Halways|]. unfold superviseVLESSBond in Ha. rewrite <-Ha. by apply prefix_app_r.
  - eapply Forall_impl; [exact Hconns|]. intros c [Hg Hp]. split_and!; [..|exact Hg]; destruct (kpc c); lia.
  - intros Em. destruct (Hret Em) as [Ht Hl]. rewrite Ht, app_nil_r in Ha. rewrite Es, Ha. split_and!; [done|exact Hr1|exact Hc1|].
    rewrite Em in Hwait. rewrite Forall_forall in Hconns, Hwait. apply Forall_forall. intros c Hc.
    destruct (Hconns c Hc) as [_ Hp]. destruct (Hwait c Hc) as [E|E]; rewrite E in Hp; lia.
Qed.

(** ** Witness: one generation, one connection, then cancellation. *)

Definition one_round : list sup_round := [SupRound false (Some 1%nat, None) false Minute true true].

Lemma bond_mode_sound_witness : ∃ m, rtc step (startBondMode one_round ∅) m ∧ bmain m = B_returned ∧
  Forall (λ c, conn_closes c = 1%nat ∧ stream_closes c = streams_opened c) (conns m) ∧ length (conns m) = 1%nat.
Proof.
  assert (∃ m, rtc step (startBondMode one_round ∅) m ∧ bmain m = B_returned ∧ length (conns m) = 1%nat) as (m & Hr & Hm & Hl).
  { eexists. split; [|].
    - eapply rtc_l; [eapply step_supervise; reflexivity|]. eapply rtc_l; [eapply (step_wait _ Reading); reflexivity|].
      eapply rtc_l; [apply (step_accept _ false); reflexivity|]. eapply rtc_l; [eapply (step_opened _ 0); reflexivity|].
      eapply rtc_l; [eapply (step_piped _ 0); reflexivity|]. eapply rtc_l; [eapply (step_close_stream _ 0); reflexivity|].
      eapply rtc_l; [eapply (step_close _ 0); reflexivity|]. do 5 (eapply rtc_l; [eapply step_supervise; reflexivity|]).
      eapply rtc_l; [apply step_cancel|]. eapply rtc_l; [apply step_accept_stop; reflexivity|].
      eapply rtc_l; [apply step_conns_done; [reflexivity|by repeat constructor]|].
      eapply rtc_l; [apply step_return; reflexivity|]. apply rtc_refl.
    - by split. }
  exists m. split; [exact Hr|]. split; [exact Hm|].
  destruct (bond_mode_sound one_round ∅ m) as (_ & _ & H); [by repeat constructor; apply not_elem_of_nil|exact Hr|].
  split; [by apply H|exact Hl].
Defined.
End BondMode.
