(* ===== verification/Names.v ===== *)
(** * Names (client/namegen.go)

    The name under which a client joins a call.  Strings are UTF-8; random choices
    are arguments. *)

From S2P Require Import Prelude GoStrings.

Module Names.

Definition maleFirstNames : list bytes :=
  [str "Александр"; str "Алексей"; str "Андрей"; str "Антон"; str "Арсений"; str "Артур"; str "Артём";
   str "Богдан"; str "Валерий"; str "Василий"; str "Виктор"; str "Владислав"; str "Глеб"; str "Григорий";
   str "Даниил"; str "Денис"; str "Дмитрий"; str "Евгений"; str "Егор"; str "Иван"; str "Игорь"; str "Илья";
   str "Кирилл"; str "Леонид"; str "Максим"; str "Марк"; str "Матвей"; str "Михаил"; str "Никита";
   str "Николай"; str "Олег"; str "Павел"; str "Пётр"; str "Роман"; str "Руслан"; str "Сергей";
   str "Станислав"; str "Тимофей"; str "Фёдор"].

Definition femaleFirstNames : list bytes :=
  [str "Алина"; str "Алёна"; str "Анастасия"; str "Ангелина"; str "Анна"; str "Вера"; str "Вероника";
   str "Виктория"; str "Дарья"; str "Ева"; str "Екатерина"; str "Елена"; str "Елизавета"; str "Ирина";
   str "Кира"; str "Кристина"; str "Ксения"; str "Любовь"; str "Маргарита"; str "Марина"; str "Мария";
   str "Милана"; str "Надежда"; str "Наталья"; str "Ольга"; str "Полина"; str "Светлана"; str "София";
   str "Татьяна"; str "Юлия"; str "Яна"].

Definition lastNames : list bytes :=
  [str "Алексеев"; str "Андреев"; str "Антонов"; str "Баранов"; str "Белов"; str "Белый"; str "Бельский";
   str "Беляев"; str "Борисов"; str "Васильев"; str "Великий"; str "Волков"; str "Воробьёв"; str "Григорьев";
   str "Давыдов"; str "Егоров"; str "Жуков"; str "Зайцев"; str "Захаров"; str "Иванов"; str "Калинин";
   str "Ковалёв"; str "Козлов"; str "Комаров"; str "Крамской"; str "Кузнецов"; str "Кузьмин"; str "Лебедев";
   str "Макаров"; str "Медведев"; str "Михайлов"; str "Морозов"; str "Никитин"; str "Николаев";
   str "Новиков"; str "Орлов"; str "Островский"; str "Павлов"; str "Петров"; str "Покровский"; str "Попов";
   str "Раевский"; str "Романов"; str "Семёнов"; str "Сергеев"; str "Смирнов"; str "Соколов"; str "Соловьёв";
   str "Степанов"; str "Тарасов"; str "Титов"; str "Толстой"; str "Трубецкой"; str "Филиппов"; str "Фролов";
   str "Фёдоров"; str "Чайковский"; str "Черный"; str "Яковлев"].

(** The last two letters of a Russian surname take four bytes. *)
Definition convertToFemaleSurname (surname : bytes) : bytes :=
  if HasSuffix surname (str "ий") || HasSuffix surname (str "ый") || HasSuffix surname (str "ой") then
    take (length surname - 4) surname ++ str "ая"
  else if HasSuffix surname (str "ов") || HasSuffix surname (str "ев") || HasSuffix surname (str "ин") ||
          HasSuffix surname (str "ын") || HasSuffix surname (str "ёв") then surname ++ str "а"
  else surname.

(** The random choices: the sex, the two names and whether there is a surname. *)
Record choice := MkChoice { isFemale : bool; first_index : nat; only_first : bool; last_index : nat }.

(** An index out of range panics. *)
Definition generateName (c : choice) : outcome bytes :=
  match (if isFemale c then femaleFirstNames else maleFirstNames) !! first_index c with
  | None => Panics
  | Some fn =>
      if only_first c then Done fn
      else match lastNames !! last_index c with
           | None => Panics
           | Some ln => Done (fn ++ str " " ++ (if isFemale c then convertToFemaleSurname ln else ln))
           end
  end.

(** What [rand.Intn] can give. *)
Definition possible (c : choice) : Prop :=
  (first_index c < length (if isFemale c then femaleFirstNames else maleFirstNames))%nat ∧ (last_index c < length lastNames)%nat.

(** The feminine form of a listed surname, written out by its ending. *)
Definition feminine (ln f : bytes) : Prop :=
  (∃ stem, (ln = stem ++ str "ий" ∨ ln = stem ++ str "ый" ∨ ln = stem ++ str "ой") ∧ f = stem ++ str "ая") ∨
  (f = ln ++ str "а" ∧ ∃ stem, ln = stem ++ str "ов" ∨ ln = stem ++ str "ев" ∨ ln = stem ++ str "ин" ∨ ln = stem ++ str "ын" ∨ ln = stem ++ str "ёв") ∨
  f = ln.

Lemma HasSuffix_app s suffix : HasSuffix s suffix = true → ∃ stem, s = stem ++ suffix.
Proof.
  unfold HasSuffix. intros H. assert (reverse suffix `prefix_of` reverse s) as [k Hk].
  { revert H. generalize (reverse suffix) (reverse s). clear. intros p. induction p as [|a p IH]; intros s; [intros; apply prefix_nil|].
    destruct s as [|b s]; [done|]. cbn. intros [E%Ascii.eqb_eq H]%andb_true_iff. subst. by apply prefix_cons, IH. }
  exists (reverse k). rewrite <-(reverse_involutive s), Hk. by rewrite reverse_app, reverse_involutive.
Qed.

Lemma take_suffix {A} (stem suffix : list A) : take (length (stem ++ suffix) - length suffix) (stem ++ suffix) = stem.
Proof. rewrite length_app, Nat.add_sub. by rewrite take_app_length. Qed.

Lemma convert_feminine ln : feminine ln (convertToFemaleSurname ln).
Proof.
  unfold convertToFemaleSurname. destruct (_ || _ || _) eqn:E1 at 1.
  - assert (∃ stem suffix, length suffix = 4%nat ∧ ln = stem ++ suffix ∧ (suffix = str "ий" ∨ suffix = str "ый" ∨ suffix = str "ой"))
      as (stem & suffix & Hl & -> & Hs).
    { apply orb_true_iff in E1 as [[H|H]%orb_true_iff|H]; apply HasSuffix_app in H as [stem ->]; eexists _, _; (split; [|split; [reflexivity|by auto]]); reflexivity. }
    rewrite <-Hl, take_suffix. left. exists stem. split; [|done]. destruct Hs as [->|[->| ->]]; auto.
  - destruct (_ || _ || _ || _ || _) eqn:E2 at 1; [|by right; right]. right. left. split; [done|].
    apply orb_true_iff in E2 as [[[[H|H]%orb_true_iff|H]%orb_true_iff|H]%orb_true_iff|H]; apply HasSuffix_app in H as [stem ->]; exists stem; auto.
Qed.

(** Every choice gives a name: a first name of the chosen sex, and after it, if
    any, a surname of the list in the form of that sex. *)
Lemma generate_name_ok c : possible c → ∃ fn, fn ∈ (if isFemale c then femaleFirstNames else maleFirstNames) ∧
  (generateName c = Done fn ∨ ∃ ln f, ln ∈ lastNames ∧ generateName c = Done (fn ++ str " " ++ f) ∧
     (if isFemale c then feminine ln f else f = ln)).
Proof.
  intros [H1 H2]. unfold generateName. apply lookup_lt_is_Some in H1 as [fn Hfn]. apply lookup_lt_is_Some in H2 as [ln Hln].
  rewrite Hfn, Hln. exists fn. split; [by eapply list_elem_of_lookup_2|]. destruct (only_first c); [by left|]. right.
  eexists ln, _. split; [by eapply list_elem_of_lookup_2|]. split; [reflexivity|]. destruct (isFemale c); [apply convert_feminine|done].
Qed.
End Names.
